(* ===== verification/_CoqProject ===== *)
-Q . S2P
Prelude.v
Ring.v
Platform.v
EventPtr.v
Interfaces.v
Pool.v
PoolConcurrent.v
PoolWeak.v
PoolProgress.v
PoolClient.v
Conduit.v
ConduitConcurrent.v
Pipeline.v
Routing.v
Domain.v
SpscRing.v
NetConduit.v
NodeRuntime.v
Http.v
HttpCorrect.v
Slab.v
PinnedSlab.v
TimingWheel.v
Gateway.v
Durable.v
Saga.v
Mesh.v
LoadGenerator.v
Clock.v
Text.v
Telemetry.v
Logger.v
Environment.v
Moe.v
Double.v
JsonGrammar.v
TelemetryGateway.v
Stages.v
Showcase.v
NetSink.v
CoreExamples.v
Channel.v
Workers.v
RoutingExamples.v
Layout.v
Classes.v
FineChannel.v
LoadReport.v
NetConcurrent.v
PinnedWeak.v
Benchmarks.v
BenchThreads.v
