(* ===== verification/Prelude.v ===== *)
(** * Conduit Runtime Environment: verification development (root)

    Conduit (include/conduit/, C++20) is a header library for event-driven
    programs: events are objects of fixed-capacity pools, travel between
    threads through single-producer single-consumer rings, are dispatched
    through pipelines of handlers, and cross machines as fixed-size frames.
    This development models the library as executable functions and step
    relations and proves what its parts promise each other.

    ** How the parts interact

    A [runtime_domain] owns one [pool] per event type and makes events, which
    an [event_ptr] owns until they are dispatched by a [pipeline], moved into a
    [conduit], or returned to their pool.  A [round_robin_switch] spreads
    events over conduits and a [round_robin_poller] collects them.  A
    [networked_conduit] turns events into frames on a socket and frames into
    events of the peer's domain; a [node_runtime] polls a set of them.  The
    headers under pending/ build on the same parts: two more allocators, a
    timing wheel, an HTTP parser and gateway, a durable log, a workflow engine,
    a router between nodes, telemetry, a logger, a clock, a dispatcher of
    tensor tasks and a thread builder.  The programs under examples/ put the
    parts together: pipelines over pools, and threads joined by conduits; those
    under benchmarks/ repeat one operation as often as their harness asks.

    ** Files

    Shared:
    - Prelude: words of fixed width ([wrap], [u8] .. [u64]), lists indexed by
      integers ([zget], [zset]), [compare_exchange_weak], tactics and hints;
    - Ring: windows of a circular array;
    - Platform: pinning a thread to a core, on Windows and on POSIX;
    - Interfaces: [Queue] and [Allocator], classes of operations with laws.
      The conduit and the spsc_ring_buffer discharge the first; the pool and
      the two slabs discharge the second; the switch, the poller, the gateway,
      the durable log, the logger, the clock, the load generator, the
      environment, the dispatcher of tasks and the threads of the examples are
      proved against them;
    - Text: decimal printing and reading; Double: the binary64 arithmetic and
      the printing of doubles the code uses.

    Core (include/conduit/core.hpp):
    - EventPtr: event_ptr and a machine of variables (Module Ownership);
    - Pool: pool, sequentially; PoolConcurrent (Module PoolMT): the same
      make/free split into steps of any number of threads, each of which sees the
      last write (a stepping stone); PoolWeak (Module PoolWeak): the steps under
      the memory orders of the pool and of the slab; PoolProgress: how many steps
      the loops take; PoolClient: programs whose threads use the pool, with its
      calls split ([Client], an interface the programs below discharge);
    - Conduit: conduit, sequentially; ConduitConcurrent (Module ConduitMT): its
      two threads under release/acquire;
    - Pipeline: pipeline::dispatch, traverse_and_call, call_on_if_exists;
      Classes: allocated_event, extends, extended_event and overload
      resolution for the handlers, from which the tree of types and the table
      of handlers of Pipeline are computed;
    - Routing: round_robin_switch, round_robin_poller;
    - Domain: runtime_domain, bound_sink, trivial_serializer, cluster.

    Transport and runtime:
    - NetConduit: net/networked_conduit.hpp; NetSink: its receiving side with a
      real pool and a sink; NetConcurrent (Module NetMT): its
      push and poll_tx split into the accesses of two threads; NodeRuntime:
      runtime/node_runtime.hpp; SpscRing: core/networked_conduit.hpp
      (spsc_ring_buffer, tcp_sender_node);
    - Http: transport/http.hpp, the state machine and a reference parser over
      lists; HttpCorrect: that they agree.

    Pending (include/conduit/pending/):
    - Slab: core/slab_allocator.hpp; PinnedSlab: core/pinned_slab_allocator.hpp
      (Module PinnedMT for its threads, Module PinnedOs for mapping and locking
      its memory with the calls of both platforms); PinnedWeak: its memory
      orders; TimingWheel: core/timing_wheel.hpp; Moe:
      domain/moe_spark.hpp;
    - Gateway: transport/http_gateway.hpp; Durable: storage/durable_sink.hpp
      and storage/durable_storage.hpp; Saga: workflow/state_machine.hpp; Mesh:
      net/mesh_router.hpp; Clock: io/clock_node.hpp;
    - Layout: core/physical_layout.hpp, and the placement in memory of the
      classes above that are aligned to cache lines;
    - LoadGenerator, LoadReport, Logger, Environment:
      supplemental/load_generator.hpp, async_logger.hpp, environment.hpp; Telemetry: telemetry/telemetry.hpp and
      supplemental/prometheus_exporter.hpp; TelemetryGateway:
      supplemental/telemetry_gateway.hpp; JsonGrammar: which texts are JSON.

    Programs (examples/, benchmarks/):
    - Stages: handlers that read or write the event in its pool cell, and the
      lemma that a dispatch is the flow of the event through them; Showcase
      (04_showcase/01, 03, 04) and CoreExamples (01_core_patterns/ and
      03_resilience_and_control/01, 04): one Module per program;
    - Channel: a producer thread and a consumer thread joined by a conduit over
      a pool, as steps; Workers: 03_graceful_drain, 01_lockfree_spsc_bus,
      02_heartbeat_timeouts; FineChannel: the same two threads with the conduit
      split into memory accesses (Modules DrainMT, BusMT and HeartbeatMT for the
      three programs), the drain with the pool split too;
      RoutingExamples: 02_deterministic_network_routing,
      02_fan_in_polling and 03_sharding;
    - Benchmarks: the five single-threaded benchmarks, as functions of the
      number of turns; BenchThreads: the two with threads, as steps (Modules
      SpscBench and FalseSharing).

    ** How the code is modelled

    State is passed explicitly.  A function of the source is a function that
    returns [option]: [None] is undefined behaviour (an access outside an array
    or outside a live object), so a theorem that states [Some] excludes it.
    Error results of the source are values of their own (a false answer, a null
    pointer, a thrown exception, a dead connection).  Integers are [Z] with the
    wrap-around of their width written out.  Addresses are [Z]; 0 is the null
    pointer.

    A compare-exchange loop takes a schedule: a list of booleans that says
    which attempts fail spuriously; when it is exhausted the attempts succeed
    if the values match.  In a sequential run the loops return for every
    schedule.  The concurrent models make every atomic access a step of its
    own, and the theorems quantify over all interleavings.  PoolConcurrent lets
    every access see the last write.  Under release/acquire (ConduitConcurrent,
    NetConcurrent, PoolWeak, PoolClient, FineChannel) an atomic word is a log of messages, a
    load may return any message not older than one already seen, and clocks
    carried by the messages give the happens-before order that every plain
    access is checked against.

    A failed exchange of the pool reloads the head with relaxed order, and what
    [make] reads after such a retry is not ordered.  The safety theorems of the
    pool and of the programs over it are therefore about runs with
    [retry_ordered]: every run with the acquire order of slab_allocator.hpp, and
    with the relaxed order of core.hpp the runs in which no exchange of [make]
    loses against another thread.  What the others can do is the theorem
    [pool_relaxed_retry_corrupts].  In the programs with threads the calls on the
    pool are split this way; those on a conduit are split in FineChannel and
    single steps in RoutingExamples and BenchThreads.

    The kernel (send, recv, accept, read, write), the clocks and the user's
    handlers are arguments of the functions that call them: scripts of answers,
    or functions about which only the stated hypotheses are assumed.  Code that
    differs between Windows and POSIX takes the platform as an argument.

    Recursion that is not structural runs on fuel that is shown to be enough:
    the parser uses one turn per byte and one more ([http_parse_refines]), the
    constructor loops one turn per cell and one more, the traversal of an
    expired list one turn per node of the slab and one more, the timeout loop
    of the dispatcher two turns (its body ends it), the JSON reader 20 turns for
    a document of three levels, the polling loop of the routing example ten
    turns for three ticks.  The fuel of [run_loop] counts the tests of the flag:
    the loop of node_runtime.hpp ends when another thread stops it, and the
    theorem covers runs that never end.  Loops that wait for another thread are step
    functions; the theorems give the number of steps under a stated schedule
    ([durable_roundtrip], [poller_fair]), bound the steps by the calls made
    ([pool_lock_free]), or show that a run can be completed
    ([sharding_complete], [spsc_bench_complete]).

    ** What the theorems show

    - The conduit and the SPSC ring are bounded FIFOs, sequentially and for
      every interleaving of their two threads, without data races.
    - The pool is a stack of free cells; no cell is lost or handed out twice,
      also with many threads as long as the 32-bit tag does not wrap during
      one operation and no [make] is contended; it is lock-free; the slabs refine
      the pool.  The memory orders of the slab are enough also under contention;
      those of the pool are not.
    - Every event is owned by one place: over event_ptr programs, through a
      dispatch, through a whole life in a domain, through the gateway and the
      logger.
    - Dispatch is delivery along a flat list of calls, each with a pointer to
      the subobject of its type; the switch is fair and work-conserving, the
      poller does not starve an input.  The members that different threads
      write lie on different cache lines.
    - The networked conduit carries every accepted event once and in order
      whatever the splits, to the sink as long as the receiving pool has cells, and restarts at a frame boundary after a reconnect,
      also when the producer and the poller interleave at every access.
    - The HTTP parser agrees with a reference on every buffer, and printing
      then parsing is the identity on well-formed requests.
    - The timing wheel fires each timer at its tick, and the dispatcher of
      tasks reports each timeout at its tick; the durable log, the exporter and
      the telemetry document round-trip (the latter unless the pool has no blocks); workflows and routes do not interfere.
    - The programs do what they print they do: the drone commands its motors
      exactly for safe vectors, the graceful drain loses no event, the sharded
      workers get every task once, for every interleaving of their threads, also
      inside the pool; for the drain, the bus and the heartbeat also when the
      threads interleave inside the conduit.
    - The benchmarks measure what they mean to, with one exception: the SPSC
      throughput run delivers every event in order and can be completed,
      pushes and pops succeed through any number of wrap-arounds, the latency
      histogram reads samples inside its array; the push benchmark fills its
      conduit and from then on times refusals ([push_bench_saturates]).
    - Some theorems show behaviour that the code does not mean to have: a
      handler that resets a base view leaks the event, the pinned slab hands a
      cell out twice (because of ABA, and because of its relaxed loads even when
      calls do not overlap), a core number of 64 is undefined on Windows, cancelling an expired timer fires others again, queued
      HTTP events change under the reader, the load generator frees events it
      has given away, the timestamps of the clock do not advance, a retried
      allocation of the pool may use an outdated link.

    ** What is not modelled

    The placeholder supplemental/telemetry.hpp, which declares nothing.  How the
    standard streams print a double (the examples print it as a value).  Handler
    templates whose constraints subsume one another.  The time a benchmark
    measures, and the harness that decides how often its loop turns.  The
    answers of the kernel stand for themselves: errno and the error codes of the
    Windows sockets are the cases of an answer, not numbers.  In
    RoutingExamples and BenchThreads each call on a conduit is one step, and in
    the theorems on the bus and the heartbeat each call on the pool
    (ConduitConcurrent, FineChannel and PoolClient split those calls). *)

From stdpp Require Export base tactics numbers list gmap sets relations.

Local Open Scope Z_scope.

(** ** Machine words

    A [w]-bit unsigned integer is a [Z] in [0, 2^w); arithmetic that the C++
    code performs at that width is followed by [wrap w]. *)

Definition wrap (w x : Z) : Z := x `mod` 2 ^ w.

Declare Scope word_scope.
Delimit Scope word_scope with word.
Notation "'u8' x" := (wrap 8 x) (at level 10, x at level 9) : word_scope.
Notation "'u16' x" := (wrap 16 x) (at level 10, x at level 9) : word_scope.
Notation "'u32' x" := (wrap 32 x) (at level 10, x at level 9) : word_scope.
Notation "'u64' x" := (wrap 64 x) (at level 10, x at level 9) : word_scope.
Global Open Scope word_scope.

Definition in_word (w x : Z) : Prop := 0 ≤ x < 2 ^ w.

(** The hint database and the tactics of the development. *)
Create HintDb cre discriminated.
Create Rewrite HintDb cre_rw.

(** Close word-range and linear goals after unfolding [in_word]. *)
Ltac word_lia := unfold in_word in *; lia.

(** Simplify equations between options and pairs. *)
Ltac inv_some :=
  repeat match goal with
  | H : Some _ = Some _ |- _ => injection H as H; try subst
  | H : None = Some _ |- _ => discriminate H
  | H : Some _ = None |- _ => discriminate H
  | H : (_, _) = (_, _) |- _ => injection H as ? ?; try subst
  end.

Lemma wrap_range w x : 0 ≤ w → in_word w (wrap w x).
Proof.
  intros Hw. unfold in_word, wrap. apply Z.mod_pos_bound.
  apply Z.pow_pos_nonneg; lia.
Qed.

Lemma wrap_small w x : in_word w x → wrap w x = x.
Proof. intros H. apply Z.mod_small, H. Qed.

Lemma wrap_idem w x : 0 ≤ w → wrap w (wrap w x) = wrap w x.
Proof. intros. apply wrap_small, wrap_range; done. Qed.

Lemma wrap_add_wrap_l w x y : 0 ≤ w → wrap w (wrap w x + y) = wrap w (x + y).
Proof.
  intros. unfold wrap. rewrite Zplus_mod_idemp_l. done.
Qed.

#[export] Hint Resolve wrap_range : cre.

(** Masks and shifts as arithmetic. *)
Lemma land_mask x n : 0 ≤ n → Z.land x (2 ^ n - 1) = x `mod` 2 ^ n.
Proof.
  intros. rewrite <-Z.land_ones by done. f_equal.
  rewrite Z.ones_equiv. lia.
Qed.

Lemma land_mask32 x : Z.land x 0xFFFFFFFF = x `mod` 2 ^ 32.
Proof. change 0xFFFFFFFF with (2 ^ 32 - 1). by apply land_mask. Qed.

Lemma shiftr_div x n : 0 ≤ n → Z.shiftr x n = x `div` 2 ^ n.
Proof. apply Z.shiftr_div_pow2. Qed.

(** [a << n | b] for a [b] that fits under the shift is an addition. *)
Lemma lor_shiftl_add a b n :
  0 ≤ n → 0 ≤ b < 2 ^ n → Z.lor (Z.shiftl a n) b = a * 2 ^ n + b.
Proof.
  intros Hn Hb. rewrite <-Z.shiftl_mul_pow2 by done. symmetry.
  apply Z.add_nocarry_lor, Z.bits_inj_iff'. intros k Hk.
  rewrite Z.land_spec, Z.bits_0. destruct (decide (k < n)).
  - by rewrite Z.shiftl_spec_low.
  - destruct (decide (b = 0)) as [->|]; [by rewrite Z.bits_0, andb_false_r|].
    assert (Z.log2 b < k) as Hlog.
    { apply Z.log2_lt_pow2; [lia|]. apply Z.lt_le_trans with (2 ^ n); [lia|].
      apply Z.pow_le_mono_r; lia. }
    by rewrite (Z.bits_above_log2 b k), andb_false_r by lia.
Qed.

(** A packed pair: the high part [t] above [n] bits, the low part [i]. *)
Lemma packed_low t i n : 0 ≤ i < 2 ^ n → (t * 2 ^ n + i) `mod` 2 ^ n = i.
Proof.
  intros. rewrite Z.add_comm, Z_mod_plus_full. apply Z.mod_small; lia.
Qed.

Lemma packed_high t i n : 0 ≤ i < 2 ^ n → (t * 2 ^ n + i) `div` 2 ^ n = t.
Proof.
  intros. rewrite Z.add_comm, Z.div_add by lia. rewrite Z.div_small; lia.
Qed.

(** Masking with [n - 1] is reduction modulo a power of two [n]. *)
Lemma land_pred_pow2 x k : 0 ≤ k → Z.land x (2 ^ k - 1) = x `mod` 2 ^ k.
Proof. apply land_mask. Qed.

(** ** Ring arithmetic: the successor modulo [n] *)

Lemma ring_succ n i :
  0 ≤ i < n → (i + 1) `mod` n = if decide (i + 1 = n) then 0 else i + 1.
Proof.
  intros. case_decide as E.
  - rewrite E. apply Z_mod_same_full.
  - apply Z.mod_small. lia.
Qed.

Lemma ring_succ_range n i : 0 < n → 0 ≤ (i + 1) `mod` n < n.
Proof. intros. by apply Z.mod_pos_bound. Qed.

Lemma mod_add_l n a b : 0 < n → (a `mod` n + b) `mod` n = (a + b) `mod` n.
Proof. intros. apply Zplus_mod_idemp_l. Qed.

(** Two positions that differ by less than [n] coincide modulo [n] only when
    they are equal. *)
Lemma mod_window_inj n a b :
  0 < n → a ≤ b < a + n → a `mod` n = b `mod` n → a = b.
Proof.
  intros Hn Hw E.
  assert ((b - a) `mod` n = 0) as E0.
  { rewrite Zminus_mod, E, Z.sub_diag. apply Zmod_0_l. }
  rewrite Z.mod_small in E0 by lia. lia.
Qed.

(** ** Lists indexed by machine integers *)

(** [zget l i] is the element at index [i], [None] when the index is out of
    range: an access the C++ code must not make. *)
Definition zget {A} (l : list A) (i : Z) : option A :=
  if decide (0 ≤ i) then l !! Z.to_nat i else None.

(** [zset l i x] stores at index [i]; [None] when the index is out of range. *)
Definition zset {A} (l : list A) (i : Z) (x : A) : option (list A) :=
  if decide (0 ≤ i < Z.of_nat (length l)) then Some (<[Z.to_nat i := x]> l)
  else None.

Section zlists.
Context {A : Type}.
Implicit Types (l : list A) (i j : Z) (x : A).

Lemma zget_Some_range l i x : zget l i = Some x → 0 ≤ i < Z.of_nat (length l).
Proof.
  unfold zget. case_decide; [|done]. intros E. apply lookup_lt_Some in E. lia.
Qed.

Lemma zget_is_Some l i : 0 ≤ i < Z.of_nat (length l) → is_Some (zget l i).
Proof.
  intros. unfold zget. rewrite decide_True by lia.
  apply lookup_lt_is_Some. lia.
Qed.

Lemma zset_Some l i x l' :
  zset l i x = Some l' →
  0 ≤ i < Z.of_nat (length l) ∧ l' = <[Z.to_nat i := x]> l.
Proof. unfold zset. case_decide; [|done]. by intros [= <-]. Qed.

Lemma zset_eq l i x :
  0 ≤ i < Z.of_nat (length l) → zset l i x = Some (<[Z.to_nat i := x]> l).
Proof. intros. unfold zset. by rewrite decide_True. Qed.

Lemma zset_length l i x l' : zset l i x = Some l' → length l' = length l.
Proof. intros H. apply zset_Some in H as [_ ->]. apply length_insert. Qed.

Lemma zget_zset l i x l' j :
  zset l i x = Some l' →
  zget l' j = if decide (i = j) then Some x else zget l j.
Proof.
  intros H. apply zset_Some in H as [Hr ->]. unfold zget.
  destruct (decide (i = j)) as [<-|Hne].
  - rewrite decide_True by lia. apply list_lookup_insert_eq. lia.
  - case_decide; [|done]. apply list_lookup_insert_ne. lia.
Qed.

Lemma zget_replicate n x i :
  0 ≤ i < Z.of_nat n → zget (replicate n x) i = Some x.
Proof.
  intros. unfold zget. rewrite decide_True by lia.
  apply lookup_replicate_2. lia.
Qed.

End zlists.

(** ** Atomic words *)

(** [compare_exchange_weak]: on success the cell takes the desired value; on
    failure (a mismatch, or a spurious failure) the expected value is reloaded.
    The result is (success, the cell, the expected value). *)
Definition compare_exchange_weak (spurious : bool) (cur expected desired : Z)
    : bool * Z * Z :=
  if negb spurious && (cur =? expected) then (true, desired, expected)
  else (false, cur, cur).

(** ** Transition systems *)

(** An invariant of a step relation: it holds initially and every step keeps
    it, so it holds in every reachable state. *)
Lemma rtc_invariant {S : Type} (R : relation S) (I : S → Prop) (s s' : S) :
  (∀ a b, I a → R a b → I b) → I s → rtc R s s' → I s'.
Proof. intros Hstep Hs Hr. induction Hr; eauto. Qed.

(** ** Lists of pointers and the objects they point to *)

Section pointers.
Context {A : Type}.
Implicit Types (m : gmap Z A) (l : list Z) (a : Z).

Lemma NoDup_snoc l a : NoDup l → a ∉ l → NoDup (l ++ [a]).
Proof.
  intros Hl Ha. apply NoDup_app. split; [done|]. split; [|apply NoDup_singleton].
  by intros b Hb ->%list_elem_of_singleton.
Qed.

(** The live objects of [m] are those [l] points to: adding one, and taking
    the first. *)
Lemma live_snoc m l a v :
  (∀ b, is_Some (m !! b) ↔ b ∈ l) → ∀ b, is_Some (<[a := v]> m !! b) ↔ b ∈ l ++ [a].
Proof.
  intros H b. rewrite lookup_insert_is_Some, elem_of_app, list_elem_of_singleton, H.
  destruct (decide (a = b)); naive_solver.
Qed.

Lemma live_tail m l l' a :
  (∀ b, is_Some (m !! b) ↔ b ∈ (a :: l) ++ l') → NoDup ((a :: l) ++ l') →
  ∀ b, is_Some (delete a m !! b) ↔ b ∈ l ++ l'.
Proof.
  intros H Hnd b. cbn [app] in *. apply NoDup_cons in Hnd as [Hna _].
  rewrite lookup_delete_is_Some, H, elem_of_cons. naive_solver.
Qed.

Lemma live_none m l a : (∀ b, is_Some (m !! b) ↔ b ∈ l) → m !! a = None → a ∉ l.
Proof. intros H Hn Ha. apply H in Ha as [? ?]. congruence. Qed.

(** The objects keep their fields when a new one is stored. *)
Lemma fields_snoc {B} (f : gmap Z B) l a v :
  (∀ b, b ∈ l → is_Some (f !! b)) → ∀ b, b ∈ l ++ [a] → is_Some (<[a := v]> f !! b).
Proof.
  intros H b. rewrite elem_of_app, list_elem_of_singleton, lookup_insert_is_Some.
  intros [Hb| ->]; [|by left]. destruct (decide (a = b)); auto.
Qed.

Lemma fields_keep {B} (f : gmap Z B) l a v :
  (∀ b, b ∈ l → is_Some (f !! b)) → ∀ b, b ∈ l → is_Some (<[a := v]> f !! b).
Proof. intros H b Hb. rewrite lookup_insert_is_Some. destruct (decide (a = b)); auto. Qed.

(** The keys of a map, listed. *)
Lemma size_keys m l : NoDup l → (∀ a, is_Some (m !! a) ↔ a ∈ l) → size m = length l.
Proof.
  intros Hnd Hl. rewrite <-size_dom, <-(size_list_to_set (C := gset Z) l) by done. f_equal.
  apply leibniz_equiv. intros a. by rewrite elem_of_dom, elem_of_list_to_set, Hl.
Qed.

Lemma size_delete_S m a v : m !! a = Some v → size m = S (size (delete a m)).
Proof.
  intros E. rewrite map_size_delete, E. assert (size m ≠ 0%nat); [|cbn; lia].
  intros H0%map_size_empty_inv. by rewrite H0, lookup_empty in E.
Qed.

End pointers.

#[export] Hint Resolve NoDup_snoc live_snoc live_none fields_snoc fields_keep : cre.
