(* ===== verification/Ring.v ===== *)
(** * Circular windows

    The ring buffers of the runtime (conduit, spsc_ring_buffer, the TX ring of
    networked_conduit) keep a FIFO in an array read at positions taken modulo
    its length.  [window l s n] is the list of the [n] elements found from
    position [s] on; the lemmas say how it changes when the array is written
    just behind the window and when either end moves. *)

From S2P Require Import Prelude.

Local Open Scope Z_scope.

Section window.
Context {A : Type}.
Implicit Types (l : list A) (x : A) (s : Z) (n : nat).

Definition rpos l s : Z := s `mod` Z.of_nat (length l).

Fixpoint window l s n : list A :=
  match n with
  | O => []
  | S m => match zget l (rpos l s) with
           | Some x => x :: window l (s + 1) m
           | None => window l (s + 1) m
           end
  end.

Lemma rpos_range l s : l ≠ [] → 0 ≤ rpos l s < Z.of_nat (length l).
Proof. destruct l; [done|]. intros _. apply Z.mod_pos_bound. cbn; lia. Qed.

Lemma rpos_get l s : l ≠ [] → is_Some (zget l (rpos l s)).
Proof. intros. by apply zget_is_Some, rpos_range. Qed.

Lemma window_S l s n :
  window l s (S n) = match zget l (rpos l s) with
                     | Some x => x :: window l (s + 1) n
                     | None => window l (s + 1) n
                     end.
Proof. done. Qed.

Lemma window_cons l s n x :
  zget l (rpos l s) = Some x → window l s (S n) = x :: window l (s + 1) n.
Proof. intros Hx. cbn. by rewrite Hx. Qed.

Lemma window_snoc l s n x :
  zget l (rpos l (s + Z.of_nat n)) = Some x →
  window l s (S n) = window l s n ++ [x].
Proof.
  revert s. induction n as [|n IH]; intros s Hx.
  - cbn. replace (s + Z.of_nat 0) with s in Hx by lia. by rewrite Hx.
  - rewrite (window_S l s (S n)), (window_S l s n).
    rewrite IH by (rewrite <-Hx; do 2 f_equal; lia).
    by destruct (zget l (rpos l s)).
Qed.

Lemma window_length l s n : l ≠ [] → length (window l s n) = n.
Proof.
  intros Hl. revert s. induction n as [|n IH]; intros s; [done|]. cbn.
  destruct (rpos_get l s Hl) as [x ->]. cbn. by rewrite IH.
Qed.

Lemma window_app l s n m : window l s (n + m) = window l s n ++ window l (s + Z.of_nat n) m.
Proof.
  revert s. induction n as [|n IH]; intros s.
  - cbn [window Nat.add app]. f_equal. lia.
  - rewrite Nat.add_succ_l, !window_S, IH. replace (s + 1 + Z.of_nat n) with (s + Z.of_nat (S n)) by lia.
    by destruct (zget l (rpos l s)).
Qed.

(** Only the position modulo the length matters. *)
Lemma rpos_mod l s k : rpos l (rpos l s + k) = rpos l (s + k).
Proof.
  unfold rpos. destruct (decide (Z.of_nat (length l) = 0)) as [->|].
  - by rewrite !Z.mod_0_r.
  - apply Zplus_mod_idemp_l.
Qed.

Lemma rpos_idem l s : rpos l (rpos l s) = rpos l s.
Proof.
  pose proof (rpos_mod l s 0) as H. by rewrite !Z.add_0_r in H.
Qed.

Lemma window_rpos_ext l s s' n :
  rpos l s = rpos l s' → window l s n = window l s' n.
Proof.
  revert s s'. induction n as [|n IH]; intros s s' E; [done|]. cbn. rewrite E.
  rewrite (IH (s + 1) (s' + 1)); [done|].
  by rewrite <-(rpos_mod l s), E, rpos_mod.
Qed.

Lemma window_rpos l s n : window l (rpos l s) n = window l s n.
Proof. apply window_rpos_ext, rpos_idem. Qed.

Lemma rpos_insert l i x t : rpos (<[i := x]> l) t = rpos l t.
Proof. unfold rpos. by rewrite length_insert. Qed.

(** Writing one slot does not disturb a window that does not reach it. *)
Lemma window_insert_out l s n j x :
  0 ≤ j < Z.of_nat (length l) →
  (∀ k, 0 ≤ k < Z.of_nat n → rpos l (s + k) ≠ j) →
  window (<[Z.to_nat j := x]> l) s n = window l s n.
Proof.
  intros Hj. revert s. induction n as [|n IH]; intros s Hout; [done|]. cbn.
  rewrite rpos_insert, (zget_zset l j x) by (by apply zset_eq).
  rewrite decide_False.
  - rewrite IH; [done|]. intros k Hk.
    replace (s + 1 + k) with (s + (k + 1)) by lia. apply Hout. lia.
  - intros E. apply (Hout 0); [lia|]. by rewrite Z.add_0_r.
Qed.

(** The slot just behind a window shorter than the ring is not in it. *)
Lemma rpos_behind l s n k :
  Z.of_nat n < Z.of_nat (length l) → 0 ≤ k < Z.of_nat n →
  rpos l (s + k) ≠ rpos l (s + Z.of_nat n).
Proof.
  intros Hn Hk E. apply mod_window_inj in E; lia.
Qed.

(** Enqueue: write behind the window, then extend it. *)
Lemma window_push l s n x :
  Z.of_nat n < Z.of_nat (length l) →
  window (<[Z.to_nat (rpos l (s + Z.of_nat n)) := x]> l) s (S n)
  = window l s n ++ [x].
Proof.
  intros Hn.
  assert (l ≠ []) as Hl by (destruct l; cbn in *; [lia|done]).
  pose proof (rpos_range l (s + Z.of_nat n) Hl) as Hr.
  rewrite (window_snoc _ s n x).
  - f_equal. apply window_insert_out; [done|]. intros k Hk.
    by apply rpos_behind.
  - rewrite rpos_insert, (zget_zset l _ x) by (by apply zset_eq). by rewrite decide_True.
Qed.

End window.
