(* ===== verification/Platform.v ===== *)
(** * Pinning threads to cores

    Two functions of the library pin a thread to a core: [pin_thread_to_core]
    of runtime/node_runtime.hpp (the calling thread) and the member of the same
    name of pending/supplemental/environment.hpp (a thread that was started).
    Both have a Windows branch, which shifts a bit into a 64-bit mask, and a
    POSIX branch, which sets a bit of a [cpu_set_t].

    The answers of the system are arguments.  A shift by 64 or more is undefined
    in C++, and so is [CPU_SET] of a core outside the set ([None]). *)

From S2P Require Import Prelude.

Local Open Scope Z_scope.

(** [#if defined(_WIN32)]. *)
Inductive platform := Win32 | Posix.

#[export] Instance platform_eq_dec : EqDecision platform.
Proof. solve_decision. Defined.

(** How many cores a set can name. *)
Definition core_limit (os : platform) : Z := match os with Win32 => 64 | Posix => 1024 end.

(** [CPU_ZERO] and [CPU_SET]: a [cpu_set_t] as the number with its bits. *)
Definition CPU_ZERO : Z := 0.
Definition CPU_SET (core_id set : Z) : option Z :=
  if (0 <=? core_id) && (core_id <? core_limit Posix) then Some (Z.lor set (Z.shiftl 1 core_id)) else None.

(** [static_cast<DWORD_PTR>(1) << core_id]. *)
Definition core_mask (core_id : Z) : option Z :=
  if (0 <=? core_id) && (core_id <? core_limit Win32) then Some (Z.shiftl 1 core_id) else None.

(** What the system answers for a set of cores: [pthread_setaffinity_np] is 0 on
    success, [SetThreadAffinityMask] is 0 on failure. *)
Record scheduler := Scheduler {
  setaffinity : Z → Z;
  SetThreadAffinityMask : Z → Z }.

(** What a thread asks of the system. *)
Inductive sched_call := Affinity (set : Z) | TimeCritical.

Section pinning.
Context (os : platform) (sch : scheduler).

(** Whether the system accepts the set. *)
Definition accepts (set : Z) : bool :=
  match os with
  | Win32 => negb (SetThreadAffinityMask sch set =? 0)
  | Posix => setaffinity sch set =? 0
  end.

(** [pin_thread_to_core(core_id)] of the node runtime: its answer and the calls
    it made. *)
Definition pin_thread_to_core (core_id : Z) : option (bool * list sched_call) :=
  match os with
  | Win32 =>
      mask ← core_mask core_id;
      if SetThreadAffinityMask sch mask =? 0 then Some (false, [Affinity mask])
      else Some (true, [Affinity mask; TimeCritical])
  | Posix =>
      cpuset ← CPU_SET core_id CPU_ZERO;
      if negb (setaffinity sch cpuset =? 0) then Some (false, [Affinity cpuset])
      else Some (true, [Affinity cpuset])
  end.

(** [environment::pin_thread_to_core(t, core_id)]: the answer is ignored. *)
Definition env_pin_thread_to_core (core_id : Z) : option (list sched_call) :=
  if core_id <? 0 then Some []
  else
    set ← match os with Win32 => core_mask core_id | Posix => CPU_SET core_id CPU_ZERO end;
    Some [Affinity set].

Lemma core_set_bits core_id j : 0 ≤ core_id → 0 ≤ j → Z.testbit (2 ^ core_id) j = (j =? core_id).
Proof. intros Hc Hj. rewrite Z.pow2_bits_eqb by done. apply Z.eqb_sym. Qed.

(** The set both branches ask for. *)
Lemma core_set core_id :
  0 ≤ core_id < core_limit os →
  match os with Win32 => core_mask core_id | Posix => CPU_SET core_id CPU_ZERO end = Some (2 ^ core_id).
Proof.
  intros Hc. unfold core_mask, CPU_SET, CPU_ZERO.
  destruct os; rewrite (proj2 (Z.leb_le _ _)), (proj2 (Z.ltb_lt _ _)) by (cbn in *; lia); cbn [andb];
    rewrite ?Z.lor_0_l, Z.shiftl_1_l; done.
Qed.

Lemma pin_in_range core_id :
  0 ≤ core_id < core_limit os →
  pin_thread_to_core core_id =
    Some (accepts (2 ^ core_id),
          Affinity (2 ^ core_id) ::
          (if decide (os = Win32) then if accepts (2 ^ core_id) then [TimeCritical] else [] else [])).
Proof.
  intros Hc. pose proof (core_set core_id Hc) as E. unfold pin_thread_to_core, accepts.
  destruct os; rewrite E; cbn [mbind option_bind]; rewrite ?decide_True, ?decide_False by done.
  - by destruct (SetThreadAffinityMask sch (2 ^ core_id) =? 0).
  - by destruct (setaffinity sch (2 ^ core_id) =? 0).
Qed.

(** Pinning is defined exactly for the cores that fit the set, and asks for the
    set that holds this core and no other. *)
Lemma pin_defined core_id :
  (is_Some (pin_thread_to_core core_id) ↔ 0 ≤ core_id < core_limit os) ∧
  (∀ ok calls, pin_thread_to_core core_id = Some (ok, calls) →
     ∃ set, head calls = Some (Affinity set) ∧ ok = accepts set ∧
            ∀ j, 0 ≤ j → Z.testbit set j = (j =? core_id)).
Proof.
  assert (0 ≤ core_id < core_limit os ∨ pin_thread_to_core core_id = None) as [Hc|Hn].
  { unfold pin_thread_to_core, core_mask, CPU_SET, core_limit.
    destruct os; (destruct (Z.leb_spec 0 core_id); cbn [andb]; [|by right]);
      (case Z.ltb_spec; intros; cbn [mbind option_bind]; [left; cbn; lia|by right]). }
  - rewrite pin_in_range by done. split; [by split; [|by eexists]|].
    intros ok calls [= <- <-]. exists (2 ^ core_id). split_and!; [done..|]. intros j Hj. apply core_set_bits; lia.
  - rewrite Hn. split; [|done]. split; [by intros []|]. intros Hc. by rewrite (pin_in_range core_id Hc) in Hn.
Qed.

End pinning.
