(* ===== verification/EventPtr.v ===== *)
(** * The deterministic smart pointer (include/conduit/core.hpp, layer 3)

    [event_ptr] owns a cell of a pool through a pair (deleter, context).  The
    model is parametric in the world [W] the deleter acts on: a deleter is a
    function of the context and the pointer, and [None] is undefined behaviour
    inside it.  Pointers are addresses, [0] is [nullptr].

    The second half of the file is the ownership machine: a store of
    [event_ptr] variables on which the special member functions run, with the
    accounting theorem (every event handed to an [event_ptr] is deleted once,
    released once, or owned by exactly one variable). *)

From S2P Require Import Prelude.

Local Open Scope Z_scope.

Definition nullptr : Z := 0.

Section event_ptr.
Context {W : Type}.

(** [void ( * )(void*, void* )]: context, pointer, world. *)
Definition deleter : Type := Z → Z → W → option W.

Record event_ptr := EventPtr {
  ptr_ : Z;
  deleter_ : option deleter;
  pool_ctx_ : Z }.

(** [event_ptr()] and [event_ptr(nullptr)]. *)
Definition ep_null : event_ptr := EventPtr nullptr None nullptr.

(** [event_ptr(T*, deleter, ctx)]. *)
Definition ep_make (p : Z) (del : deleter) (ctx : Z) : event_ptr :=
  EventPtr p (Some del) ctx.

(** [explicit operator bool]. *)
Definition ep_bool (e : event_ptr) : bool := negb (ptr_ e =? nullptr).

(** [get]. *)
Definition ep_get (e : event_ptr) : Z := ptr_ e.

(** What a moved-from or emptied [event_ptr] holds: the context stays. *)
Definition ep_clear (e : event_ptr) : event_ptr :=
  EventPtr nullptr None (pool_ctx_ e).

(** [reset()]: run the deleter when there is a pointer and a deleter, then
    empty the pointer. *)
Definition ep_reset (e : event_ptr) (w : W) : option (event_ptr * W) :=
  match (if ep_bool e then deleter_ e else None) with
  | Some del =>
      match del (pool_ctx_ e) (ptr_ e) w with
      | Some w' => Some (ep_clear e, w')
      | None => None
      end
  | None => Some (ep_clear e, w)
  end.

(** [~event_ptr()]: the world after the destructor. *)
Definition ep_destroy (e : event_ptr) (w : W) : option W :=
  snd <$> ep_reset e w.

(** [release()]: the raw pointer and the emptied [event_ptr]. *)
Definition ep_release (e : event_ptr) : Z * event_ptr := (ptr_ e, ep_clear e).

(** [event_ptr(event_ptr&& other)]: the new pointer and what [other] becomes. *)
Definition ep_move_ctor (other : event_ptr) : event_ptr * event_ptr :=
  (EventPtr (ptr_ other) (deleter_ other) (pool_ctx_ other), ep_clear other).

(** [operator=(event_ptr&& other)] for two distinct objects: (this, other). *)
Definition ep_move_assign (this other : event_ptr) (w : W)
    : option (event_ptr * event_ptr * W) :=
  match ep_reset this w with
  | Some (_, w') =>
      Some (EventPtr (ptr_ other) (deleter_ other) (pool_ctx_ other),
            ep_clear other, w')
  | None => None
  end.

(** [event_ptr(const event_ptr<U>&, non_owning_tag)]: [off] is the offset of
    the base inside the derived object; a null pointer stays null. *)
Definition ep_view (off : Z) (other : event_ptr) : event_ptr :=
  EventPtr (if ep_bool other then ptr_ other + off else nullptr) None nullptr.

(** An owning pointer: its destructor runs the deleter. *)
Definition ep_owns (e : event_ptr) : bool :=
  ep_bool e && match deleter_ e with Some _ => true | None => false end.

Lemma ep_bool_clear e : ep_bool (ep_clear e) = false.
Proof. done. Qed.

Lemma ep_bool_false e : ep_bool e = false ↔ ptr_ e = nullptr.
Proof. unfold ep_bool. rewrite negb_false_iff, Z.eqb_eq. done. Qed.

Lemma ep_bool_true e : ep_bool e = true ↔ ptr_ e ≠ nullptr.
Proof. unfold ep_bool. rewrite negb_true_iff, Z.eqb_neq. done. Qed.

Lemma ep_reset_not_owner e w :
  ep_owns e = false → ep_reset e w = Some (ep_clear e, w).
Proof.
  unfold ep_owns, ep_reset. destruct (ep_bool e), (deleter_ e); done.
Qed.

Lemma ep_reset_owner p del ctx w :
  p ≠ nullptr →
  ep_reset (ep_make p del ctx) w =
    (λ w', (EventPtr nullptr None ctx, w')) <$> del ctx p w.
Proof.
  intros Hp. unfold ep_reset, ep_bool. cbn.
  apply Z.eqb_neq in Hp. rewrite Hp. cbn. by destruct (del ctx p w).
Qed.

Lemma ep_reset_null e w e' w' :
  ep_reset e w = Some (e', w') → e' = ep_clear e.
Proof.
  unfold ep_reset. destruct (if ep_bool e then _ else _) as [del|]; [|naive_solver].
  destruct (del _ _ _); naive_solver.
Qed.

(** A non-owning view never runs a deleter. *)
Lemma ep_view_not_owner off e : ep_owns (ep_view off e) = false.
Proof. unfold ep_owns. apply andb_false_r. Qed.

End event_ptr.

Arguments event_ptr W : clear implicits.
Arguments deleter W : clear implicits.

#[export] Hint Rewrite @ep_bool_clear @ep_view_not_owner : cre_rw.

(** ** The ownership machine *)

Module Ownership.

(** The calls a program makes on its [event_ptr] variables; [a], [b] are the
    addresses of the variables. *)
Inductive op :=
  | OpDefault (a : Z)              (* event_ptr a; *)
  | OpMake (a : Z) (p ctx : Z)     (* event_ptr a(p, release_to_pool, ctx); *)
  | OpMoveCtor (a b : Z)           (* event_ptr a(std::move(b)); *)
  | OpMoveAssign (a b : Z)         (* a = std::move(b); *)
  | OpView (a b : Z) (off : Z)     (* event_ptr a(b, non_owning_tag{}); *)
  | OpReset (a : Z)                (* a.reset(); *)
  | OpRelease (a : Z)              (* a.release(); *)
  | OpDestroy (a : Z).             (* a goes out of scope *)

(** The world of the machine: the deleter calls made so far, as (ctx, ptr). *)
Abbreviation log := (list (Z * Z)).

Definition log_deleter : deleter log := λ ctx p w, Some (w ++ [(ctx, p)]).

Abbreviation eptr := (event_ptr log).

Record state := State {
  vars : gmap Z eptr;      (* the live event_ptr variables *)
  deleted : log;           (* deleter calls, in order *)
  made : log;              (* events handed to an event_ptr *)
  released : log }.        (* owned events given up by release() *)

Definition init : state := State ∅ [] [] [].

(** The event a variable is responsible for. *)
Definition own (e : eptr) : log :=
  if ep_owns e then [(pool_ctx_ e, ptr_ e)] else [].

Definition owned (m : gmap Z eptr) : log :=
  map_to_list m ≫= λ ae, own (ae.2).

Definition fresh (a : Z) (s : state) : bool :=
  match vars s !! a with Some _ => false | None => true end.

(** One call; [None] when the program uses a variable that does not exist, or
    declares one twice. *)
Definition exec (o : op) (s : state) : option state :=
  match o with
  | OpDefault a =>
      if negb (fresh a s) then None else
      Some (State (<[a := ep_null]> (vars s)) (deleted s) (made s) (released s))
  | OpMake a p ctx =>
      if negb (fresh a s) then None else
      if p =? nullptr then None else
      Some (State (<[a := ep_make p log_deleter ctx]> (vars s)) (deleted s)
              (made s ++ [(ctx, p)]) (released s))
  | OpMoveCtor a b =>
      if negb (fresh a s) then None else
      other ← vars s !! b;
      let '(this, other') := ep_move_ctor other in
      Some (State (<[a := this]> (<[b := other']> (vars s))) (deleted s)
              (made s) (released s))
  | OpMoveAssign a b =>
      this ← vars s !! a; other ← vars s !! b;
      if decide (a = b) then Some s else
      '(this', other', w) ← ep_move_assign this other (deleted s);
      Some (State (<[a := this']> (<[b := other']> (vars s))) w
              (made s) (released s))
  | OpView a b off =>
      if negb (fresh a s) then None else
      other ← vars s !! b;
      Some (State (<[a := ep_view off other]> (vars s)) (deleted s) (made s)
              (released s))
  | OpReset a =>
      e ← vars s !! a;
      '(e', w) ← ep_reset e (deleted s);
      Some (State (<[a := e']> (vars s)) w (made s) (released s))
  | OpRelease a =>
      e ← vars s !! a;
      Some (State (<[a := (ep_release e).2]> (vars s)) (deleted s) (made s)
              (released s ++ own e))
  | OpDestroy a =>
      e ← vars s !! a;
      w ← ep_destroy e (deleted s);
      Some (State (delete a (vars s)) w (made s) (released s))
  end.

Fixpoint run (os : list op) (s : state) : option state :=
  match os with
  | [] => Some s
  | o :: os' => s' ← exec o s; run os' s'
  end.

(** Every deleter of the machine is the logging one. *)
Definition wf (m : gmap Z eptr) : Prop :=
  map_Forall (λ _ e, deleter_ e = None ∨ deleter_ e = Some log_deleter) m.

(** The accounting invariant. *)
Definition balanced (s : state) : Prop :=
  wf (vars s) ∧ made s ≡ₚ deleted s ++ released s ++ owned (vars s).

Lemma owned_insert_fresh m a e :
  m !! a = None → owned (<[a := e]> m) ≡ₚ own e ++ owned m.
Proof. intros. unfold owned. by rewrite map_to_list_insert. Qed.

Lemma owned_delete m a e :
  m !! a = Some e → owned m ≡ₚ own e ++ owned (delete a m).
Proof. intros H. unfold owned. by rewrite <-(map_to_list_delete _ _ _ H). Qed.

Lemma owned_update m a e e' :
  m !! a = Some e → own e ++ owned (<[a := e']> m) ≡ₚ own e' ++ owned m.
Proof.
  intros H. rewrite <-insert_delete_eq, owned_insert_fresh
    by apply lookup_delete_eq.
  rewrite (owned_delete m a e H). apply Permutation_app_swap_app.
Qed.

Lemma own_clear (e : eptr) : own (ep_clear e) = [].
Proof. done. Qed.

Lemma own_view off (e : eptr) : own (ep_view off e) = [].
Proof. unfold own. by rewrite ep_view_not_owner. Qed.

Lemma own_make p ctx : p ≠ nullptr → own (ep_make p log_deleter ctx) = [(ctx, p)].
Proof.
  intros Hp%Z.eqb_neq. unfold own, ep_owns, ep_bool. cbn. by rewrite Hp.
Qed.

(** With the logging deleter, [reset] logs exactly what the variable owned. *)
Lemma reset_logs m a (e : eptr) w :
  wf m → m !! a = Some e → ep_reset e w = Some (ep_clear e, w ++ own e).
Proof.
  intros Hwf Ha. unfold ep_reset, own, ep_owns.
  destruct (ep_bool e); cbn; [|by rewrite app_nil_r].
  destruct (Hwf _ _ Ha) as [->| ->]; cbn; [by rewrite app_nil_r|done].
Qed.

Lemma wf_insert m a e :
  wf m → deleter_ e = None ∨ deleter_ e = Some log_deleter → wf (<[a := e]> m).
Proof. intros. by apply map_Forall_insert_2. Qed.

Lemma wf_delete m a : wf m → wf (delete a m).
Proof. apply map_Forall_delete. Qed.

Lemma wf_copy m a (e : eptr) :
  wf m → m !! a = Some e →
  let e' := EventPtr (ptr_ e) (deleter_ e) (pool_ctx_ e) in
  deleter_ e' = None ∨ deleter_ e' = Some log_deleter.
Proof. intros Hwf Ha. exact (Hwf a e Ha). Qed.

#[local] Hint Resolve wf_insert wf_delete wf_copy : core.
#[local] Hint Rewrite own_clear own_view app_nil_r : cre_rw.

(** Replacing a variable whose content is logged elsewhere: the accounting
    step shared by [reset] and [release]. *)
Lemma owned_emptied m a e :
  m !! a = Some e → owned m ≡ₚ own e ++ owned (<[a := ep_clear e]> m).
Proof.
  intros H. rewrite (owned_update m a e (ep_clear e) H).
  by rewrite own_clear.
Qed.

(** Moving out of [b] into a variable that owns nothing. *)
Lemma owned_moved m a b (this other : eptr) :
  a ≠ b → m !! b = Some other →
  (m !! a = None ∨ ∃ e, m !! a = Some e ∧ own e = []) →
  own this = own other →
  owned (<[a := this]> (<[b := ep_clear other]> m)) ≡ₚ owned m.
Proof.
  intros Hab Hb Ha Ho. rewrite (owned_emptied m b other Hb), <-Ho.
  destruct Ha as [Ha|(e & Ha & He)].
  - apply owned_insert_fresh. by rewrite lookup_insert_ne.
  - rewrite <-(owned_update _ a e) by (by rewrite lookup_insert_ne).
    by rewrite He.
Qed.

Lemma fresh_None a s : negb (fresh a s) = false → vars s !! a = None.
Proof. unfold fresh. by destruct (vars s !! a). Qed.

(** Unfold one call of the machine into the lookups it made and the state it
    built; deleter calls become appended log entries. *)
Ltac exec_inv H :=
  unfold exec, ep_move_ctor, ep_move_assign, ep_destroy in H;
  repeat match type of H with
  | (if negb (fresh ?a ?s) then _ else _) = _ =>
      let F := fresh "Hfresh" in
      destruct (negb (fresh a s)) eqn:F; [discriminate H|];
      apply fresh_None in F
  | (if (?p =? nullptr) then _ else _) = _ =>
      let F := fresh "Hnn" in
      destruct (p =? nullptr) eqn:F; [discriminate H|]; apply Z.eqb_neq in F
  | (if decide (?a = ?b) then _ else _) = _ => destruct (decide (a = b))
  | (vars ?s !! ?a ≫= _) = _ =>
      let F := fresh "Hvar" in
      destruct (vars s !! a) eqn:F; [cbn in H|discriminate H]
  end;
  repeat match goal with
  | Hwf : wf (vars ?s), F : vars ?s !! ?a = Some ?e |- _ =>
      rewrite (reset_logs (vars s) a e _ Hwf F) in H
  end; cbn in H; simplify_eq; cbn.

Lemma exec_wf o s s' : exec o s = Some s' → wf (vars s) → wf (vars s').
Proof.
  intros H Hwf. destruct o; exec_inv H; eauto 6.
Qed.

Lemma exec_balanced o s s' : exec o s = Some s' → balanced s → balanced s'.
Proof.
  intros H [Hwf Hbal]. split; [by eapply exec_wf|].
  destruct o as [a|a p ctx|a b|a b|a b off|a|a|a]; exec_inv H.
  - by rewrite owned_insert_fresh.
  - rewrite owned_insert_fresh, own_make, Hbal by done. solve_Permutation.
  - by rewrite owned_moved by eauto with congruence.
  - done.
  - rename e into this, e0 into other.
    rewrite Hbal, (owned_emptied _ a this) by done.
    rewrite <-(owned_moved (<[a:=ep_clear this]> (vars s)) a b
      (EventPtr (ptr_ other) (deleter_ other) (pool_ctx_ other)) other);
      [..|by rewrite lookup_insert_ne|right; eexists; split;
        [apply lookup_insert_eq|done]|]; try done.
    rewrite (insert_insert_ne (vars s) b a), insert_insert_eq by done.
    solve_Permutation.
  - by rewrite owned_insert_fresh, own_view.
  - rewrite Hbal, (owned_emptied _ a e) by done. solve_Permutation.
  - rewrite Hbal, (owned_emptied _ a e) by done. solve_Permutation.
  - rewrite Hbal, (owned_delete _ a e) by done. solve_Permutation.
Qed.

Lemma run_balanced os s s' : run os s = Some s' → balanced s → balanced s'.
Proof.
  revert s. induction os as [|o os IH]; intros s H Hb; cbn in H; [by inv_some|].
  destruct (exec o s) as [s1|] eqn:E; cbn in H; [|done].
  eapply IH; [done|]. by eapply exec_balanced.
Qed.

Lemma init_balanced : balanced init.
Proof. split; [apply map_Forall_empty|]. done. Qed.

(** C9: Unique ownership.  Whatever sequence of constructions, moves, move
    assignments, views, resets, releases and destructions a program runs, every
    event handed to an [event_ptr] has been given to its pool's deleter once,
    has been released once, or is owned by exactly one variable; when every
    variable is gone, nothing is left over; and no event is deleted twice
    unless it was handed out twice. *)
Theorem ownership_accounted os s :
  run os init = Some s →
  made s ≡ₚ deleted s ++ released s ++ owned (vars s) ∧
  (vars s = ∅ → made s ≡ₚ deleted s ++ released s) ∧
  (NoDup (made s) → NoDup (deleted s ++ released s ++ owned (vars s))).
Proof.
  intros Hrun. destruct (run_balanced _ _ _ Hrun init_balanced) as [_ Hb].
  split; [done|]. split.
  - intros He. rewrite Hb, He. by rewrite app_nil_r.
  - by rewrite Hb.
Qed.

(** A run with a move construction, a base view that is reset, a move
    assignment over an owner, a release and the destructors. *)
Definition demo : list op :=
  [OpMake 1 64 7; OpMake 2 128 7; OpMake 3 192 7; OpMoveCtor 4 1; OpView 5 4 8;
   OpReset 5; OpMoveAssign 4 2; OpRelease 3; OpDestroy 1; OpDestroy 2;
   OpDestroy 3; OpDestroy 4; OpDestroy 5].

Lemma ownership_accounted_witness :
  ∃ s, run demo init = Some s ∧ deleted s = [(7, 64); (7, 128)] ∧
       released s = [(7, 192)] ∧ made s ≡ₚ deleted s ++ released s.
Proof.
  destruct (run demo init) as [s|] eqn:E; [|vm_compute in E; discriminate E].
  exists s. pose proof (ownership_accounted demo s E) as (_ & Hall & _).
  split; [done|]. vm_compute in E. injection E as <-.
  split; [done|]. split; [done|]. apply Hall. done.
Defined.

End Ownership.
