(* ===== verification/Interfaces.v ===== *)
(** * What the components promise to one another

    Two interfaces, each a class of operations with its observations and a
    class of laws:

    - [Queue]: a bounded FIFO of raw pointers.  Discharged by the conduit
      (core.hpp) and the spsc_ring_buffer (core/networked_conduit.hpp); used by
      the switch, the poller and the nodes that push into a conduit.
    - [Allocator]: a fixed set of cells, each free or holding one live object.
      Discharged by the pool (core.hpp) and the slab allocators; used by the
      domain and by every node that allocates events.

    The operations return [None] for undefined behaviour (an access outside an
    array, a read of an inactive union member); the laws state that it does not
    happen from a state that satisfies the invariant. *)

From S2P Require Import Prelude.

Local Open Scope Z_scope.

Class Queue (Q : Type) := {
  q_push : Z → Q → option (bool * Q);
  q_pop : Q → option (option Z * Q);
  q_items : Q → list Z;
  q_cap : Q → nat;
  q_inv : Q → Prop }.

Class QueueLaws (Q : Type) `{!Queue Q} := {
  q_bounded q : q_inv q → (length (q_items q) ≤ q_cap q)%nat;
  q_push_room a q :
    q_inv q → (length (q_items q) < q_cap q)%nat →
    ∃ q', q_push a q = Some (true, q') ∧ q_items q' = q_items q ++ [a] ∧
          q_cap q' = q_cap q ∧ q_inv q';
  q_push_full a q :
    q_inv q → length (q_items q) = q_cap q → q_push a q = Some (false, q);
  q_pop_empty q : q_inv q → q_items q = [] → q_pop q = Some (None, q);
  q_pop_cons q a l :
    q_inv q → q_items q = a :: l →
    ∃ q', q_pop q = Some (Some a, q') ∧ q_items q' = l ∧
          q_cap q' = q_cap q ∧ q_inv q' }.

(** [al_make sp v a]: the schedule [sp] says which compare-and-swap attempts
    fail spuriously; [v] is the object the constructor builds. *)
Class Allocator (P T : Type) := {
  al_make : list bool → T → P → option (Z * P);
  al_free : list bool → Z → P → option P;
  al_live : P → gmap Z T;
  al_room : P → nat;
  al_inv : P → Prop }.

Class AllocatorLaws (P T : Type) `{!Allocator P T} := {
  al_make_empty sp v (p : P) :
    al_inv p → al_room p = 0%nat → al_make sp v p = Some (0, p);
  al_make_room sp v (p : P) :
    al_inv p → (0 < al_room p)%nat →
    ∃ a p', al_make sp v p = Some (a, p') ∧ a ≠ 0 ∧
            al_live p !! a = None ∧ al_live p' = <[a := v]> (al_live p) ∧
            al_room p = S (al_room p') ∧ al_inv p';
  al_free_null sp (p : P) : al_inv p → al_free sp 0 p = Some p;
  al_free_live sp a v (p : P) :
    al_inv p → al_live p !! a = Some v →
    ∃ p', al_free sp a p = Some p' ∧ al_live p' = delete a (al_live p) ∧
          al_room p' = S (al_room p) ∧ al_inv p' }.

#[export] Hint Mode Queue + : typeclass_instances.
#[export] Hint Mode Allocator + - : typeclass_instances.

Section queue_facts.
Context `{QueueLaws Q}.

(** The outcome of a push, decided by the number of items. *)
Lemma q_push_cases a (q : Q) :
  q_inv q →
  (∃ q', q_push a q = Some (true, q') ∧ q_items q' = q_items q ++ [a] ∧
         q_cap q' = q_cap q ∧ q_inv q' ∧ (length (q_items q) < q_cap q)%nat) ∨
  (q_push a q = Some (false, q) ∧ length (q_items q) = q_cap q).
Proof.
  intros Hq. pose proof (q_bounded q Hq) as Hb.
  destruct (decide (length (q_items q) = q_cap q)) as [E|Hne].
  - right. split; [by apply q_push_full|done].
  - left. destruct (q_push_room a q) as (q' & ? & ? & ? & ?); [done|lia|].
    exists q'. repeat split; try done. lia.
Qed.

Lemma q_pop_cases (q : Q) :
  q_inv q →
  (q_items q = [] ∧ q_pop q = Some (None, q)) ∨
  (∃ a l q', q_items q = a :: l ∧ q_pop q = Some (Some a, q') ∧
             q_items q' = l ∧ q_cap q' = q_cap q ∧ q_inv q').
Proof.
  intros Hq. destruct (q_items q) as [|a l] eqn:E.
  - left. split; [done|by apply q_pop_empty].
  - right. destruct (q_pop_cons q a l) as (q' & ? & ? & ? & ?); [done..|].
    by exists a, l, q'.
Qed.

End queue_facts.

(** *** The abstract bounded FIFO *)

Inductive q_op := QPush (a : Z) | QPop.
Inductive q_out := RPush (ok : bool) | RPop (r : option Z).

(** The specification: a list of at most [cap] pointers. *)
Definition fifo_exec (cap : nat) (o : q_op) (l : list Z) : q_out * list Z :=
  match o with
  | QPush a => if decide (length l < cap)%nat then (RPush true, l ++ [a])
               else (RPush false, l)
  | QPop => match l with
            | [] => (RPop None, [])
            | a :: l' => (RPop (Some a), l')
            end
  end.

Fixpoint fifo_run (cap : nat) (os : list q_op) (l : list Z) : list q_out * list Z :=
  match os with
  | [] => ([], l)
  | o :: os' =>
      let '(r, l1) := fifo_exec cap o l in
      let '(rs, l2) := fifo_run cap os' l1 in (r :: rs, l2)
  end.

(** The same operations on an implementation. *)
Definition q_exec `{!Queue Q} (o : q_op) (q : Q) : option (q_out * Q) :=
  match o with
  | QPush a => '(b, q') ← q_push a q; Some (RPush b, q')
  | QPop => '(r, q') ← q_pop q; Some (RPop r, q')
  end.

Fixpoint q_run `{!Queue Q} (os : list q_op) (q : Q) : option (list q_out * Q) :=
  match os with
  | [] => Some ([], q)
  | o :: os' =>
      '(r, q1) ← q_exec o q; '(rs, q2) ← q_run os' q1; Some (r :: rs, q2)
  end.

Section queue_refinement.
Context `{QueueLaws Q}.

Lemma q_exec_refines o (q : Q) :
  q_inv q →
  ∃ q', q_exec o q = Some ((fifo_exec (q_cap q) o (q_items q)).1, q') ∧
        q_items q' = (fifo_exec (q_cap q) o (q_items q)).2 ∧
        q_cap q' = q_cap q ∧ q_inv q'.
Proof.
  intros Hq. destruct o as [a|]; cbn.
  - destruct (q_push_cases a q Hq) as [(q' & -> & ? & ? & ? & ?)|[-> ?]]; cbn.
    + rewrite decide_True by lia. eauto.
    + rewrite decide_False by lia. eauto.
  - destruct (q_pop_cases q Hq) as [[E ->]|(a & l & q' & E & -> & ? & ? & ?)];
      rewrite E; cbn; eauto.
Qed.

(** Every run of an implementation gives the outputs of the abstract FIFO. *)
Lemma q_run_refines os (q : Q) :
  q_inv q →
  ∃ q', q_run os q = Some ((fifo_run (q_cap q) os (q_items q)).1, q') ∧
        q_items q' = (fifo_run (q_cap q) os (q_items q)).2 ∧
        q_cap q' = q_cap q ∧ q_inv q'.
Proof.
  revert q. induction os as [|o os IH]; intros q Hq; cbn; [eauto|].
  destruct (q_exec_refines o q Hq) as (q1 & -> & Hi & Hc & Hq1). cbn.
  destruct (fifo_exec (q_cap q) o (q_items q)) as [r l1]. cbn in Hi. subst l1.
  destruct (IH q1 Hq1) as (q2 & -> & Hi2 & Hc2 & Hq2). cbn.
  rewrite Hc in *. destruct (fifo_run (q_cap q) os (q_items q1)) as [rs l2].
  cbn in *. eauto 6.
Qed.

End queue_refinement.

Section allocator_facts.
Context `{AllocatorLaws P T}.

Lemma al_make_cases sp v (p : P) :
  al_inv p →
  (al_room p = 0%nat ∧ al_make sp v p = Some (0, p)) ∨
  (∃ a p', al_make sp v p = Some (a, p') ∧ a ≠ 0 ∧
           al_live p !! a = None ∧ al_live p' = <[a := v]> (al_live p) ∧
           al_room p = S (al_room p') ∧ al_inv p').
Proof.
  intros Hp. destruct (decide (al_room p = 0%nat)) as [E|Hne].
  - left. split; [done|by apply al_make_empty].
  - right. apply al_make_room; [done|lia].
Qed.

(** A use of the allocator: a [make], or a [free] of a live object. *)
Definition al_step (p p' : P) : Prop :=
  (∃ sp v a, al_make sp v p = Some (a, p')) ∨
  (∃ sp a v, al_live p !! a = Some v ∧ al_free sp a p = Some p').

Lemma al_step_inv p p' : al_inv p → al_step p p' → al_inv p'.
Proof.
  intros Hp [(sp & v & a & E)|(sp & a & v & Hl & E)].
  - destruct (al_make_cases sp v p Hp) as [[_ E']|(? & ? & E' & _ & _ & _ & _ & ?)];
      rewrite E' in E; by simplify_eq.
  - destruct (al_free_live sp a v p Hp Hl) as (? & E' & _ & _ & ?).
    rewrite E' in E. by simplify_eq.
Qed.

(** No cell is lost or invented: free cells plus live objects is constant. *)
Lemma al_step_total p p' :
  al_inv p → al_step p p' →
  (al_room p' + size (al_live p') = al_room p + size (al_live p))%nat.
Proof.
  intros Hp [(sp & v & a & E)|(sp & a & v & Hl & E)].
  - destruct (al_make_cases sp v p Hp)
      as [[_ E']|(? & ? & E' & _ & Hn & Hl & Hr & _)];
      rewrite E' in E; simplify_eq; [done|].
    rewrite Hl, Hr, map_size_insert_None by done. lia.
  - destruct (al_free_live sp a v p Hp Hl) as (? & E' & Hl' & Hr & _).
    rewrite E' in E. simplify_eq. rewrite Hl', Hr, (size_delete_S _ _ _ Hl). lia.
Qed.

Lemma al_steps_total p p' :
  al_inv p → rtc al_step p p' →
  al_inv p' ∧
  (al_room p' + size (al_live p') = al_room p + size (al_live p))%nat.
Proof.
  intros Hp Hr. induction Hr as [p|p p1 p' Hs Hr IH]; [done|].
  destruct IH as [Hi Ht]; [by eapply al_step_inv|].
  split; [done|]. rewrite Ht. by apply al_step_total.
Qed.

End allocator_facts.
