(* ===== verification/Pool.v ===== *)
(** * The lock-free memory pool (include/conduit/core.hpp, layer 4)

    The pool keeps its free cells as a stack threaded through the cells
    themselves (a Treiber stack).  The head is one 64-bit word: the low 32 bits
    are the index of the first free cell, the high 32 bits a tag that every
    successful exchange increments.

    This file models the operations as one thread executes them; the schedule
    argument [sp] lists the attempts at which [compare_exchange_weak] fails
    spuriously.  PoolConcurrent.v interleaves the same steps over many threads.

    [None] stands for undefined behaviour: an index outside [memory_], a read
    of [next] in a cell that holds an object, a destructor run on a cell that
    holds none. *)

From S2P Require Import Prelude EventPtr Interfaces.

Local Open Scope Z_scope.

(** The end of the free list. *)
Definition END : Z := 0xFFFFFFFF.

(** [uint32_t idx = head & 0xFFFFFFFF]. *)
Definition head_idx (head : Z) : Z := u32 (Z.land head 0xFFFFFFFF).

(** [((head >> 32) + 1) << 32 | (i & 0xFFFFFFFF)], at 64 bits. *)
Definition bump (head i : Z) : Z :=
  Z.lor (u64 (Z.shiftl (u64 (Z.shiftr head 32 + 1)) 32)) (Z.land i 0xFFFFFFFF).

Section pool.
Context {T : Type}.

(** [union cell]: the member written last is the active one. *)
Inductive cell := Data (v : T) | Next (n : Z).

(** [data_] is [memory_.data()], [sizeof_cell] is [sizeof(cell)]. *)
Record pool := Pool {
  memory_ : list cell;
  free_head_ : Z;
  data_ : Z;
  sizeof_cell : Z }.

Implicit Types (p : pool) (mem : list cell) (v : T) (sp : list bool).

(** [&memory_[idx].data] and [reinterpret_cast<cell*>(ptr) - memory_.data()]. *)
Definition cell_addr p (idx : Z) : Z := data_ p + idx * sizeof_cell p.
Definition cell_index p (ptr : Z) : Z := u64 ((ptr - data_ p) `div` sizeof_cell p).

(** *** Construction *)

Fixpoint ctor_loop (fuel : nat) (limit i : Z) mem : option (list cell) :=
  match fuel with
  | O => None
  | S fuel' =>
      if i <? limit then
        mem' ← zset mem i (Next (u64 (i + 1)));
        ctor_loop fuel' limit (u64 (i + 1)) mem'
      else Some mem
  end.

(** [pool(std::size_t capacity)]; the vector value-initialises its cells. *)
Definition pool_ctor (base csize capacity : Z) : option pool :=
  let memory := replicate (Z.to_nat capacity) (Next 0) in
  mem1 ← ctor_loop (S (length memory)) (u64 (capacity - 1)) 0 memory;
  mem2 ← zset mem1 (u64 (capacity - 1)) (Next 0xFFFFFFFF);
  Some (Pool mem2 0 base csize).

(** [pool(pool&& other)]: the new pool takes the vector (and its address) and
    copies the head; [other] keeps its head but has no cells any more. *)
Definition pool_move (other : pool) : pool * pool :=
  (Pool (memory_ other) (free_head_ other) (data_ other) (sizeof_cell other),
   Pool [] (free_head_ other) nullptr (sizeof_cell other)).

(** *** Allocation *)

Inductive outcome (A : Type) :=
  | Return (a : A)
  | Retry (head : Z) (p : pool).
Arguments Return {A} a.
Arguments Retry {A} head p.

(** [memory_[idx].next]. *)
Definition read_next mem (idx : Z) : option Z :=
  match zget mem idx with Some (Next n) => Some n | _ => None end.

(** One turn of the loop of [make]: [head] is the local variable, [v] the
    object [T(args...)] builds. *)
Definition make_iter (spurious : bool) v (head : Z) p : option (outcome (Z * pool)) :=
  let idx := head_idx head in
  if idx =? END then Some (Return (nullptr, p))
  else
    next ← read_next (memory_ p) idx;
    let new_head := bump head next in
    match compare_exchange_weak spurious (free_head_ p) head new_head with
    | (true, cur, _) =>
        mem ← zset (memory_ p) idx (Data v);
        Some (Return (cell_addr p idx, Pool mem cur (data_ p) (sizeof_cell p)))
    | (false, cur, head') =>
        Some (Retry head' (Pool (memory_ p) cur (data_ p) (sizeof_cell p)))
    end.

(** The loop: the schedule gives the spurious failures, then attempts succeed
    unless the compared words differ. *)
Fixpoint make_loop sp v (head : Z) p : option (Z * pool) :=
  o ← make_iter (hd false sp) v head p;
  match o with
  | Return r => Some r
  | Retry head' p' =>
      match sp with [] => None | _ :: sp' => make_loop sp' v head' p' end
  end.

(** [make(args...)]: the address of the new object ([nullptr] when the pool is
    exhausted) and the pool. *)
Definition make sp v p : option (Z * pool) := make_loop sp v (free_head_ p) p.

(** *** Reclamation *)

(** [ptr->~T()]: only on a cell that holds an object. *)
Definition destroy mem (idx : Z) : option unit :=
  match zget mem idx with Some (Data _) => Some () | _ => None end.

Definition free_iter (spurious : bool) (idx head : Z) p : option (outcome pool) :=
  mem ← zset (memory_ p) idx (Next (Z.land head 0xFFFFFFFF));
  let new_head := bump head idx in
  match compare_exchange_weak spurious (free_head_ p) head new_head with
  | (true, cur, _) => Some (Return (Pool mem cur (data_ p) (sizeof_cell p)))
  | (false, cur, head') => Some (Retry head' (Pool mem cur (data_ p) (sizeof_cell p)))
  end.

Fixpoint free_loop sp (idx head : Z) p : option pool :=
  o ← free_iter (hd false sp) idx head p;
  match o with
  | Return r => Some r
  | Retry head' p' =>
      match sp with [] => None | _ :: sp' => free_loop sp' idx head' p' end
  end.

(** [free(T* ptr)]. *)
Definition free sp (ptr : Z) p : option pool :=
  if ptr =? nullptr then Some p
  else
    let idx := cell_index p ptr in
    _ ← destroy (memory_ p) idx;
    free_loop sp idx (free_head_ p) p.

(** *** The pools of a program, by the address of the pool object *)

Abbreviation pools := (gmap Z pool).

(** [release_to_pool(void* ctx, void* ptr)]. *)
Definition release_to_pool sp : deleter pools := λ ctx ptr w,
  p ← w !! ctx; p' ← free sp ptr p; Some (<[ctx := p']> w).

(** [make] as the caller sees it: an [event_ptr] bound to this pool. *)
Definition make_event sp spd v (this : Z) (w : pools) : option (event_ptr pools * pools) :=
  p ← w !! this;
  '(ptr, p') ← make sp v p;
  Some (if ptr =? nullptr then ep_null else ep_make ptr (release_to_pool spd) this,
        <[this := p']> w).

End pool.

Arguments cell T : clear implicits.
Arguments pool T : clear implicits.
Arguments Return {T A} a.
Arguments Retry {T A} head p.

(** ** The head word *)

Lemma head_idx_val head : head_idx head = head `mod` 2 ^ 32.
Proof.
  unfold head_idx, wrap. rewrite land_mask32. apply Z.mod_mod. lia.
Qed.

(** The new head: the tag plus one modulo 2^32, and the index. *)
Lemma bump_val head i :
  in_word 64 head →
  bump head i = ((head `div` 2 ^ 32 + 1) `mod` 2 ^ 32) * 2 ^ 32 + i `mod` 2 ^ 32.
Proof.
  intros Hh. unfold bump, wrap, in_word in *.
  rewrite land_mask32, shiftr_div by lia.
  assert (0 ≤ head `div` 2 ^ 32 < 2 ^ 32) as Ht.
  { split; [apply Z.div_pos; lia|]. apply Z.div_lt_upper_bound; lia. }
  rewrite (Z.mod_small (head `div` 2 ^ 32 + 1)) by lia.
  rewrite Z.shiftl_mul_pow2 by lia.
  change (2 ^ 64) with (2 ^ 32 * 2 ^ 32).
  rewrite Z.mul_mod_distr_r, <-Z.shiftl_mul_pow2 by lia.
  rewrite lor_shiftl_add by (try apply Z.mod_pos_bound; lia).
  by rewrite Z.shiftl_mul_pow2.
Qed.

Lemma bump_word head i : in_word 64 head → in_word 64 (bump head i).
Proof.
  intros Hh. rewrite bump_val by done. unfold in_word.
  pose proof (Z.mod_pos_bound (head `div` 2 ^ 32 + 1) (2 ^ 32)).
  pose proof (Z.mod_pos_bound i (2 ^ 32)). lia.
Qed.

Lemma bump_idx head i :
  in_word 64 head → in_word 32 i → bump head i `mod` 2 ^ 32 = i.
Proof.
  intros Hh Hi. rewrite bump_val by done.
  rewrite packed_low by (apply Z.mod_pos_bound; lia).
  by apply Z.mod_small.
Qed.

Lemma bump_tag head i :
  in_word 64 head →
  bump head i `div` 2 ^ 32 = (head `div` 2 ^ 32 + 1) `mod` 2 ^ 32.
Proof.
  intros Hh. rewrite bump_val by done.
  apply packed_high, Z.mod_pos_bound. lia.
Qed.

(** ** The free list *)

Section pool_proofs.
Context {T : Type}.
Implicit Types (p : pool T) (mem : list (cell T)) (v : T) (sp : list bool)
  (L : list Z).

(** [chain mem i L]: following [next] from index [i] visits the cells [L] and
    then reaches the sentinel. *)
Fixpoint chain mem (i : Z) L : Prop :=
  match L with
  | [] => i = END
  | j :: L' =>
      i = j ∧ 0 ≤ j < END ∧
      ∃ n, zget mem j = Some (Next n) ∧ chain mem (n `mod` 2 ^ 32) L'
  end.

(** The layout facts that no operation changes. *)
Definition layout p : Prop :=
  Z.of_nat (length (memory_ p)) ≤ END ∧ 0 < data_ p ∧ 0 < sizeof_cell p ∧
  data_ p + Z.of_nat (length (memory_ p)) * sizeof_cell p ≤ 2 ^ 64.

(** The representation invariant: [L] is the free list, without repetition,
    and holds every cell that does not hold an object. *)
Record free_inv p L : Prop := {
  fi_layout : layout p;
  fi_word : in_word 64 (free_head_ p);
  fi_chain : chain (memory_ p) (free_head_ p `mod` 2 ^ 32) L;
  fi_nodup : NoDup L;
  fi_all i n : zget (memory_ p) i = Some (Next n) → i ∈ L }.

Lemma chain_elem mem i L j :
  chain mem i L → j ∈ L → ∃ n, zget mem j = Some (Next n) ∧ 0 ≤ j < END.
Proof.
  revert i. induction L as [|k L IH]; intros i Hc Hj; [by apply not_elem_of_nil in Hj|].
  destruct Hc as (-> & Hr & n & Hn & Hc). apply elem_of_cons in Hj as [->|Hj]; eauto.
Qed.

(** A write to a cell outside the chain leaves the chain alone. *)
Lemma chain_insert mem mem' i L j c :
  chain mem i L → j ∉ L → zset mem j c = Some mem' → chain mem' i L.
Proof.
  intros Hc Hj Hs. revert i Hc. induction L as [|k L IH]; intros i Hc; [done|].
  apply not_elem_of_cons in Hj as [Hjk Hj].
  destruct Hc as (-> & Hr & n & Hn & Hc). repeat split; [lia..|].
  exists n. split; [|by apply IH].
  by rewrite (zget_zset _ _ _ _ _ Hs), decide_False.
Qed.

(** The chain from a given index is determined by the memory. *)
Lemma chain_det mem i L L' : chain mem i L → chain mem i L' → L = L'.
Proof.
  revert i L'. induction L as [|j L IH]; intros i [|j' L'] H H'; [done|..].
  - destruct H' as (-> & ? & _). cbn in H. lia.
  - destruct H as (-> & ? & _). cbn in H'. lia.
  - destruct H as (-> & ? & n & Hn & Hc), H' as (<- & ? & n' & Hn' & Hc').
    assert (n = n') as <- by congruence. f_equal. by eapply IH.
Qed.

Lemma cell_index_addr p i :
  layout p → 0 ≤ i < Z.of_nat (length (memory_ p)) →
  cell_index p (cell_addr p i) = i.
Proof.
  intros (Hlen & Hd & Hs & _) Hi. unfold cell_index, cell_addr.
  replace (data_ p + i * sizeof_cell p - data_ p) with (i * sizeof_cell p) by lia.
  rewrite Z.div_mul by lia. apply wrap_small. unfold in_word, END in *. lia.
Qed.

Lemma cell_addr_nonnull p i : layout p → 0 ≤ i → cell_addr p i ≠ nullptr.
Proof. intros (_ & Hd & Hs & _) Hi. unfold cell_addr, nullptr. nia. Qed.

Lemma cell_addr_inj p i j : layout p → cell_addr p i = cell_addr p j → i = j.
Proof. intros (_ & _ & Hs & _). unfold cell_addr. nia. Qed.

Lemma pool_eta p :
  Pool (memory_ p) (free_head_ p) (data_ p) (sizeof_cell p) = p.
Proof. by destruct p. Qed.

(** The pool after cell [i], whose successor is [n], was taken for [v]. *)
Definition popped p (i n : Z) v : pool T :=
  Pool (<[Z.to_nat i := Data v]> (memory_ p)) (bump (free_head_ p) n)
    (data_ p) (sizeof_cell p).

(** The pool after cell [i] was returned. *)
Definition pushed p (i : Z) : pool T :=
  Pool (<[Z.to_nat i := Next (Z.land (free_head_ p) 0xFFFFFFFF)]> (memory_ p))
    (bump (free_head_ p) i) (data_ p) (sizeof_cell p).

(** *** Computation of the two loops, for every schedule *)

Lemma make_loop_end sp v p :
  free_head_ p `mod` 2 ^ 32 = END →
  make_loop sp v (free_head_ p) p = Some (nullptr, p).
Proof.
  intros E. destruct sp; cbn; unfold make_iter; by rewrite head_idx_val, E.
Qed.

Lemma make_loop_take sp v p i n :
  free_head_ p `mod` 2 ^ 32 = i → i ≠ END →
  zget (memory_ p) i = Some (Next n) →
  make_loop sp v (free_head_ p) p = Some (cell_addr p i, popped p i n v).
Proof.
  intros Ei Hi Hn. pose proof (zget_Some_range _ _ _ Hn) as Hr.
  induction sp as [|b sp IH]; cbn; unfold make_iter, compare_exchange_weak;
    rewrite head_idx_val, Ei; rewrite (proj2 (Z.eqb_neq i END) Hi);
    unfold read_next; rewrite Hn; cbn; rewrite Z.eqb_refl.
  - by rewrite zset_eq.
  - destruct b; cbn; [|by rewrite zset_eq]. by rewrite pool_eta.
Qed.

Lemma free_loop_push sp i p :
  0 ≤ i < Z.of_nat (length (memory_ p)) →
  free_loop sp i (free_head_ p) p = Some (pushed p i).
Proof.
  revert p. induction sp as [|b sp IH]; intros p Hi; cbn;
    unfold free_iter, compare_exchange_weak;
    rewrite zset_eq, Z.eqb_refl by done; cbn; [done|].
  destruct b; cbn; [|done].
  set (p1 := Pool _ _ _ _). change (free_head_ p) with (free_head_ p1).
  rewrite (IH p1) by (cbn; by rewrite length_insert).
  unfold pushed. cbn. by rewrite list_insert_insert_eq.
Qed.

(** *** Preservation of the invariant *)

Lemma layout_same p mem h :
  length mem = length (memory_ p) → layout p →
  layout (Pool mem h (data_ p) (sizeof_cell p)).
Proof. unfold layout. cbn. intros ->. done. Qed.

Lemma popped_inv p i L n v :
  free_inv p (i :: L) → zget (memory_ p) i = Some (Next n) →
  free_inv (popped p i n v) L.
Proof.
  intros [Hlay Hw Hc Hnd Hall] Hn. destruct Hc as (Hi & Hr & n' & Hn' & Hc).
  assert (n' = n) as -> by congruence.
  apply NoDup_cons in Hnd as [Hi' Hnd].
  pose proof (zset_eq (memory_ p) i (Data v) (zget_Some_range _ _ _ Hn)) as Hs.
  split; cbn; [|by apply bump_word|..|done|].
  - apply layout_same; [apply length_insert|done].
  - rewrite bump_val by done. rewrite packed_low by (apply Z.mod_pos_bound; lia).
    by eapply chain_insert.
  - intros j m Hj. rewrite (zget_zset _ _ _ _ _ Hs) in Hj. case_decide; [done|].
    by apply Hall, elem_of_cons in Hj as [->|].
Qed.

Lemma pushed_inv p i L v :
  free_inv p L → zget (memory_ p) i = Some (Data v) →
  free_inv (pushed p i) (i :: L).
Proof.
  intros [Hlay Hw Hc Hnd Hall] Hv. pose proof (zget_Some_range _ _ _ Hv) as Hr.
  assert (i ∉ L) as Hi.
  { intros Hin. destruct (chain_elem _ _ _ _ Hc Hin) as (n & Hn & _). congruence. }
  assert (0 ≤ i < END) as HiE by (destruct Hlay; lia).
  set (c := @Next T (Z.land (free_head_ p) 0xFFFFFFFF)) in *.
  pose proof (zset_eq (memory_ p) i c Hr) as Hs.
  pose proof (chain_insert _ _ _ _ _ _ Hc Hi Hs) as Hc'.
  split; cbn; [|by apply bump_word|..|by constructor|].
  - apply layout_same; [apply length_insert|done].
  - rewrite bump_idx by (unfold in_word, END in *; lia || done).
    repeat split; [lia..|]. exists (Z.land (free_head_ p) 0xFFFFFFFF).
    rewrite (zget_zset _ _ _ _ _ Hs), decide_True by done. split; [done|].
    fold c. by rewrite land_mask32, Z.mod_mod by lia.
  - intros j m Hj. rewrite (zget_zset _ _ _ _ _ Hs) in Hj.
    apply elem_of_cons. case_decide; [by left|right; by eapply Hall].
Qed.

(** *** The operations on the free list *)

Lemma make_empty sp v p : free_inv p [] → make sp v p = Some (nullptr, p).
Proof. intros [_ _ Hc _ _]. by apply make_loop_end. Qed.

Lemma make_take sp v p i L :
  free_inv p (i :: L) →
  ∃ n, zget (memory_ p) i = Some (Next n) ∧
       make sp v p = Some (cell_addr p i, popped p i n v) ∧
       free_inv (popped p i n v) L.
Proof.
  intros Hinv. destruct (fi_chain _ _ Hinv) as (Hi & Hr & n & Hn & _).
  exists n. split; [done|]. split; [|by apply popped_inv].
  apply make_loop_take; [done|lia|done].
Qed.

Lemma free_null sp p : free sp nullptr p = Some p.
Proof. done. Qed.

Lemma free_push sp v p i L :
  free_inv p L → zget (memory_ p) i = Some (Data v) →
  free sp (cell_addr p i) p = Some (pushed p i) ∧ free_inv (pushed p i) (i :: L).
Proof.
  intros Hinv Hv. pose proof (zget_Some_range _ _ _ Hv) as Hr.
  split; [|by eapply pushed_inv].
  unfold free. rewrite (proj2 (Z.eqb_neq _ _)) by (apply cell_addr_nonnull; [apply Hinv|lia]).
  rewrite cell_index_addr by (apply Hinv || done).
  unfold destroy. rewrite Hv. cbn. by apply free_loop_push.
Qed.

(** *** Construction builds the list of all the cells *)

Lemma ctor_loop_spec fuel limit i mem :
  0 ≤ i ≤ limit → limit ≤ Z.of_nat (length mem) → limit < 2 ^ 63 →
  (Z.to_nat (limit - i) < fuel)%nat →
  ∃ mem', ctor_loop fuel limit i mem = Some mem' ∧ length mem' = length mem ∧
    ∀ k, zget mem' k = if decide (i ≤ k < limit) then Some (Next (k + 1))
                       else zget mem k.
Proof.
  revert i mem. induction fuel as [|fuel IH]; intros i mem Hi Hlen Hlim Hf; [lia|].
  cbn. destruct (Z.ltb_spec i limit) as [Hlt|Hge].
  - rewrite (wrap_small 64 (i + 1)) by word_lia.
    pose proof (zset_eq mem i (Next (i + 1)) ltac:(lia)) as Hs. rewrite Hs. cbn.
    destruct (IH (i + 1) (<[Z.to_nat i := Next (i + 1)]> mem))
      as (mem' & E & Hl & Hg); rewrite ?length_insert in *; [lia..|].
    exists mem'. split; [done|]. split; [done|]. intros k.
    rewrite Hg, (zget_zset _ _ _ _ _ Hs).
    destruct (decide (i = k)) as [<-|]; repeat case_decide; lia || done.
  - exists mem. split; [done|]. split; [done|]. intros k.
    case_decide; [lia|done].
Qed.

Lemma chain_seq mem m n :
  0 ≤ m → 0 ≤ n → m + n ≤ END → 0 < m + n →
  (∀ k, m ≤ k < m + n →
     zget mem k = Some (Next (if decide (k + 1 = m + n) then END else k + 1))) →
  chain mem (if decide (n = 0) then END else m) (seqZ m n).
Proof.
  intros Hm Hn. revert m Hm. pattern n. apply natlike_ind; [|clear n Hn|done].
  - done.
  - intros n Hn IH m Hm Hend Hpos Hg. rewrite decide_False by lia.
    rewrite seqZ_cons by lia. cbn. split; [done|]. split; [lia|].
    exists (if decide (n = 0) then END else m + 1). split.
    { rewrite Hg by lia. do 2 f_equal. repeat case_decide; lia. }
    specialize (IH (m + 1) ltac:(lia) ltac:(lia) ltac:(lia)).
    rewrite Z.pred_succ, Z.mod_small.
    2:{ unfold END in *. case_decide; lia. }
    replace (Z.succ m) with (m + 1) by lia. apply IH. intros k Hk.
    rewrite Hg by lia. do 2 f_equal. repeat case_decide; lia.
Qed.

(** What the constructor leaves in memory. *)
Lemma pool_ctor_cells base csize cap :
  1 ≤ cap ≤ END →
  ∃ mem : list (cell T), pool_ctor base csize cap = Some (Pool mem 0 base csize) ∧
    length mem = Z.to_nat cap ∧
    ∀ k, 0 ≤ k < cap →
      zget mem k = Some (Next (if decide (k + 1 = 0 + cap) then END else k + 1)).
Proof.
  intros Hcap. unfold pool_ctor. rewrite length_replicate.
  rewrite wrap_small by (unfold in_word, END in *; lia).
  destruct (ctor_loop_spec (S (Z.to_nat cap)) (cap - 1) 0
    (replicate (Z.to_nat cap) (Next 0))) as (mem1 & E & Hl & Hg);
    rewrite ?length_replicate in *; [unfold END in *; lia..|].
  rewrite E. cbn [mbind option_bind].
  pose proof (zset_eq mem1 (cap - 1) (Next 0xFFFFFFFF) ltac:(lia)) as Hs.
  rewrite Hs. cbn [mbind option_bind]. eexists. split; [done|].
  split; [by rewrite length_insert|]. intros k Hk.
  rewrite (zget_zset _ _ _ _ _ Hs), Hg.
  destruct (decide (cap - 1 = k)); repeat case_decide; try lia; done.
Qed.

Lemma pool_ctor_inv base csize cap :
  1 ≤ cap ≤ END → 0 < base → 0 < csize → base + cap * csize ≤ 2 ^ 64 →
  ∃ p : pool T, pool_ctor base csize cap = Some p ∧ free_inv p (seqZ 0 cap) ∧
    (∀ i v, zget (memory_ p) i ≠ Some (Data v)).
Proof.
  intros Hcap Hb Hcs Hend.
  destruct (pool_ctor_cells base csize cap Hcap) as (mem & E & Hl & Hg).
  exists (Pool mem 0 base csize). split; [done|].
  assert (∀ k c, zget mem k = Some c → 0 ≤ k < cap) as Hr.
  { intros k c Hc. apply zget_Some_range in Hc. lia. }
  split; [split; cbn|cbn].
  - unfold layout. cbn. rewrite Hl. repeat split; lia.
  - unfold in_word. lia.
  - pose proof (chain_seq mem 0 cap) as Hc. rewrite decide_False in Hc by lia.
    rewrite Z.mod_small by lia. apply Hc; [lia..|]. intros. apply Hg. lia.
  - apply NoDup_seqZ.
  - intros i n Hi. apply elem_of_seqZ. by apply Hr in Hi.
  - intros i v Hi. pose proof (Hr _ _ Hi). rewrite Hg in Hi by lia. done.
Qed.

(** *** The live objects, by address, and the free list as a function *)

Definition data_of (c : cell T) : option T :=
  match c with Data v => Some v | Next _ => None end.

Definition live p : gmap Z T :=
  kmap (cell_addr p) (omap data_of (map_seqZ 0 (memory_ p) : gmap Z (cell T))).

Fixpoint walk (fuel : nat) mem (i : Z) : list Z :=
  match fuel with
  | O => []
  | S fuel' =>
      match zget mem i with
      | Some (Next n) => i :: walk fuel' mem (n `mod` 2 ^ 32)
      | _ => []
      end
  end.

Definition free_list p : list Z :=
  walk (length (memory_ p)) (memory_ p) (free_head_ p `mod` 2 ^ 32).

Lemma live_lookup p a v :
  layout p →
  live p !! a = Some v ↔ ∃ i, a = cell_addr p i ∧ zget (memory_ p) i = Some (Data v).
Proof.
  intros Hlay. unfold live.
  assert (Inj (=) (=) (cell_addr p)) by (intros i j; by apply cell_addr_inj).
  rewrite lookup_kmap_Some by done. f_equiv. intros i.
  rewrite lookup_omap_Some. unfold zget. split.
  - intros (-> & c & Hc & [Hi Hm]%lookup_map_seqZ_Some).
    destruct c; [|done]. cbn in Hc. simplify_eq.
    rewrite decide_True by done. by rewrite Z.sub_0_r in Hm.
  - intros (-> & Hm). case_decide; [|done]. split; [done|].
    exists (Data v). split; [done|]. apply lookup_map_seqZ_Some.
    by rewrite Z.sub_0_r.
Qed.

Lemma walk_chain fuel mem i L :
  chain mem i L → Z.of_nat (length mem) ≤ END → (length L ≤ fuel)%nat →
  walk fuel mem i = L.
Proof.
  intros Hc Hlen. revert i L Hc. induction fuel as [|fuel IH]; intros i L Hc Hf.
  { destruct L; [done|]. cbn in Hf. lia. }
  destruct L as [|j L]; cbn in Hc |- *.
  - subst i. destruct (zget mem END) eqn:E; [|done].
    apply zget_Some_range in E. lia.
  - destruct Hc as (-> & _ & n & -> & Hc). f_equal. apply IH; [done|].
    cbn in Hf. lia.
Qed.

Lemma free_list_inv p L : free_inv p L → free_list p = L.
Proof.
  intros [Hlay Hw Hc Hnd Hall]. apply walk_chain; [done|apply Hlay|].
  rewrite <-(Nat2Z.id (length (memory_ p))), <-length_seqZ with (m := 0).
  apply submseteq_length, NoDup_submseteq; [done|]. intros j Hj.
  destruct (chain_elem _ _ _ _ Hc Hj) as (n & Hn & _).
  apply zget_Some_range in Hn. apply elem_of_seqZ. lia.
Qed.

Lemma live_popped p i n v :
  layout p → 0 ≤ i < Z.of_nat (length (memory_ p)) →
  live (popped p i n v) = <[cell_addr p i := v]> (live p).
Proof.
  intros Hlay Hi. unfold live. change (cell_addr (popped p i n v)) with (cell_addr p).
  assert (Inj (=) (=) (cell_addr p)) by (intros x y; by apply cell_addr_inj).
  cbn. rewrite <-insert_map_seqZ_0, <-kmap_insert by done. f_equal.
  by apply omap_insert_Some.
Qed.

Lemma live_pushed p i :
  layout p → 0 ≤ i < Z.of_nat (length (memory_ p)) →
  live (pushed p i) = delete (cell_addr p i) (live p).
Proof.
  intros Hlay Hi. unfold live. change (cell_addr (pushed p i)) with (cell_addr p).
  assert (Inj (=) (=) (cell_addr p)) by (intros x y; by apply cell_addr_inj).
  cbn. rewrite <-insert_map_seqZ_0, <-kmap_delete by done. f_equal.
  by apply omap_insert_None.
Qed.

Lemma live_free_cell p i n :
  layout p → zget (memory_ p) i = Some (Next n) → live p !! cell_addr p i = None.
Proof.
  intros Hlay Hn. destruct (live p !! cell_addr p i) as [u|] eqn:E; [|done].
  apply live_lookup in E as (j & Ej & Hj); [|done].
  apply cell_addr_inj in Ej as ->; [congruence|done].
Qed.

(** The pool is an [Allocator]. *)
#[export] Instance pool_allocator : Allocator (pool T) T := {
  al_make := make;
  al_free := free;
  al_live := live;
  al_room p := length (free_list p);
  al_inv p := ∃ L, free_inv p L }.

Lemma pool_make_spec sp v p L :
  free_inv p L →
  match L with
  | [] => make sp v p = Some (nullptr, p)
  | i :: L' =>
      ∃ p', make sp v p = Some (cell_addr p i, p') ∧ free_inv p' L' ∧
            live p !! cell_addr p i = None ∧ cell_addr p i ≠ nullptr ∧
            live p' = <[cell_addr p i := v]> (live p)
  end.
Proof.
  intros Hinv. destruct L as [|i L]; [by apply make_empty|].
  destruct (make_take sp v p i L Hinv) as (n & Hn & E & Hinv').
  pose proof (fi_layout _ _ Hinv) as Hlay.
  pose proof (zget_Some_range _ _ _ Hn) as Hr.
  exists (popped p i n v). split; [done|]. split; [done|].
  split; [by eapply live_free_cell|]. split; [apply cell_addr_nonnull; [done|lia]|].
  by apply live_popped.
Qed.

Lemma pool_free_spec sp a u p L :
  free_inv p L → live p !! a = Some u →
  ∃ p' i, a = cell_addr p i ∧ free sp a p = Some p' ∧ free_inv p' (i :: L) ∧
          live p' = delete a (live p).
Proof.
  intros Hinv Ha. pose proof (fi_layout _ _ Hinv) as Hlay.
  apply live_lookup in Ha as (i & -> & Hi); [|done].
  destruct (free_push sp u p i L Hinv Hi) as [E Hinv'].
  exists (pushed p i), i. split; [done|]. split; [done|]. split; [done|].
  apply live_pushed; [done|by eapply zget_Some_range].
Qed.

#[export] Instance pool_allocator_laws : AllocatorLaws (pool T) T.
Proof.
  split.
  - intros sp v p [L Hinv] Hr. cbn in Hr. rewrite (free_list_inv p L) in Hr by done.
    apply length_zero_iff_nil in Hr as ->. by apply make_empty.
  - intros sp v p [L Hinv] Hr. cbn in Hr. rewrite (free_list_inv p L) in Hr by done.
    destruct L as [|i L]; cbn in Hr; [lia|].
    destruct (pool_make_spec sp v p _ Hinv) as (p' & E & Hinv' & Hn & Hnn & Hl).
    exists (cell_addr p i), p'. cbn.
    rewrite (free_list_inv p _ Hinv), (free_list_inv p' _ Hinv'). eauto 10.
  - done.
  - intros sp a v p [L Hinv] Ha.
    destruct (pool_free_spec sp a v p L Hinv Ha) as (p' & i & -> & E & Hinv' & Hl).
    exists p'. cbn. rewrite (free_list_inv p _ Hinv), (free_list_inv p' _ Hinv').
    eauto 10.
Qed.

(** ** Properties *)

(** C8: The pool implements a stack of free cells.  From any state whose free
    list is [L], and for every schedule of spurious CAS failures: [make]
    returns [nullptr] and changes nothing when [L] is empty, and otherwise
    constructs the object in the cell on top of [L], an address that is not
    null and holds no live object; [free] of a live object destroys exactly
    that object and pushes its cell on [L]. *)
Theorem pool_refines_stack p L sp v :
  free_inv p L →
  match L with
  | [] => make sp v p = Some (nullptr, p)
  | i :: L' =>
      ∃ p', make sp v p = Some (cell_addr p i, p') ∧ free_inv p' L' ∧
            live p !! cell_addr p i = None ∧ cell_addr p i ≠ nullptr ∧
            live p' = <[cell_addr p i := v]> (live p)
  end ∧
  ∀ a u, live p !! a = Some u →
    ∃ p' i, a = cell_addr p i ∧ free sp a p = Some p' ∧
            free_inv p' (i :: L) ∧ live p' = delete a (live p).
Proof.
  intros Hinv. split; [by apply pool_make_spec|].
  intros a u. by apply pool_free_spec.
Qed.

(** Address reuse is last-in first-out: whatever the schedules, the cell
    that [free] returned is the one the next [make] hands out, and the free
    list is back where it was. *)
Theorem pool_lifo p L a u sp1 sp2 v :
  free_inv p L → live p !! a = Some u →
  ∃ p1 p2, free sp1 a p = Some p1 ∧ make sp2 v p1 = Some (a, p2) ∧
           free_inv p2 L ∧ live p2 = <[a := v]> (live p).
Proof.
  intros Hinv Ha.
  destruct (pool_free_spec sp1 a u p L Hinv Ha) as (p1 & i & -> & E1 & Hinv1 & Hl1).
  destruct (pool_make_spec sp2 v p1 _ Hinv1) as (p2 & E2 & Hinv2 & _ & _ & Hl2).
  assert (cell_addr p1 i = cell_addr p i) as Ea.
  { apply live_lookup in Ha as (j & Ej & Hj); [|apply Hinv].
    apply cell_addr_inj in Ej as <-; [|apply Hinv].
    destruct (free_push sp1 u p i L Hinv Hj) as [E _].
    rewrite E in E1. by simplify_eq. }
  exists p1, p2. rewrite Ea in *. repeat split; try done; [apply Hinv2..|].
  by rewrite Hl2, Hl1, insert_delete_eq.
Qed.

Lemma pool_ctor_fresh base csize cap :
  1 ≤ cap ≤ END → 0 < base → 0 < csize → base + cap * csize ≤ 2 ^ 64 →
  ∃ p : pool T, pool_ctor base csize cap = Some p ∧ free_inv p (seqZ 0 cap) ∧
    live p = ∅ ∧ free_list p = seqZ 0 cap.
Proof.
  intros Hcap Hb Hcs Hend.
  destruct (pool_ctor_inv base csize cap) as (p & E & Hinv & Hnl); [done..|].
  exists p. split; [done|]. split; [done|]. split; [|by apply free_list_inv].
  apply map_empty. intros a. apply eq_None_not_Some. intros [v Hv].
  apply live_lookup in Hv as (i & _ & Hi); [by eapply Hnl|apply Hinv].
Qed.

(** Construction is defined exactly for a positive capacity (a pool of
    capacity 0 writes outside its vector), and a fresh pool of capacity [cap]
    has no live object and [cap] free cells, handed out from index 0 on. *)
Theorem pool_ctor_spec base csize cap :
  0 ≤ cap ≤ END → 0 < base → 0 < csize → base + cap * csize ≤ 2 ^ 64 →
  match pool_ctor base csize cap : option (pool T) with
  | None => cap = 0
  | Some p => 0 < cap ∧ free_inv p (seqZ 0 cap) ∧ live p = ∅ ∧
              free_list p = seqZ 0 cap
  end.
Proof.
  intros Hcap Hb Hcs Hend. destruct (decide (cap = 0)) as [->|].
  - done.
  - destruct (pool_ctor_fresh base csize cap) as (p & -> & Hinv); [lia..|].
    split; [lia|done].
Qed.

(** A moved pool goes on as it was.  The pool it was moved from is not a pool
    any more: with cells left in its list, [make] reads outside its vector, and
    so does [free] of any object, also of the events made before the move, whose
    [event_ptr]s still refer to it. *)
Lemma pool_moved_from p L :
  free_inv p L →
  (pool_move p).1 = p ∧
  (∀ sp v, L ≠ [] → make sp v (pool_move p).2 = None) ∧
  (∀ sp ptr, ptr ≠ nullptr → free sp ptr (pool_move p).2 = None).
Proof.
  intros Hinv. split; [by destruct p|]. split.
  - intros sp v HL. destruct L as [|i L]; [done|]. pose proof (fi_chain _ _ Hinv) as (Hi & Hr & _).
    unfold make, pool_move. cbn [fst snd free_head_]. destruct sp; cbn [make_loop make_iter];
      unfold make_iter; cbn [free_head_ memory_]; rewrite head_idx_val, Hi, (proj2 (Z.eqb_neq _ _)) by (unfold END in *; lia); unfold read_next, zget;
      destruct (decide _); by rewrite ?lookup_nil.
  - intros sp ptr Hp. unfold free, destroy, pool_move. cbn [snd memory_].
    rewrite (proj2 (Z.eqb_neq _ _)) by done. unfold zget. destruct (decide _); by rewrite ?lookup_nil.
Qed.

(** No cell is lost, duplicated or invented: after any sequence of [make]
    calls and [free] calls of live objects on a fresh pool, under any
    schedules, free cells plus live objects is the capacity, and [make]
    returns [nullptr] exactly when [cap] objects are live. *)
Theorem pool_conservation base csize cap p p' :
  1 ≤ cap ≤ END → 0 < base → 0 < csize → base + cap * csize ≤ 2 ^ 64 →
  pool_ctor base csize cap = Some p → rtc al_step p p' →
  Z.of_nat (length (free_list p') + size (live p')) = cap ∧
  ∀ sp v, ∃ a p'', make sp v p' = Some (a, p'') ∧
    (a = nullptr ↔ Z.of_nat (size (live p')) = cap).
Proof.
  intros Hcap Hb Hcs Hend E Hr.
  destruct (pool_ctor_fresh base csize cap) as (p0 & E0 & Hinv & Hl & HL); [done..|].
  assert (p0 = p) as -> by congruence.
  destruct (al_steps_total p p') as [[L' Hinv'] Ht]; [by exists (seqZ 0 cap)|done|].
  cbn in Ht. rewrite Hl, HL, map_size_empty, length_seqZ in Ht.
  split; [lia|]. intros sp v. pose proof (pool_make_spec sp v p' L' Hinv') as Hm.
  rewrite (free_list_inv p' L' Hinv') in Ht. destruct L' as [|i L']; cbn in Ht.
  - exists nullptr, p'. split; [done|]. split; [lia|done].
  - destruct Hm as (p'' & Em & _ & _ & Hnn & _).
    exists (cell_addr p' i), p''. split; [done|]. split; [done|lia].
Qed.

End pool_proofs.

(** ** Witnesses: a pool of three 64-byte cells at address 4096 *)

Lemma pool_refines_stack_witness :
  ∃ p p' p'', pool_ctor 4096 64 3 = Some p ∧
    make [true; false] 7 p = Some (4096, p') ∧ live p' !! 4096 = Some 7 ∧
    free [] 4096 p' = Some p''.
Proof.
  destruct (pool_ctor_fresh (T:=Z) 4096 64 3) as (p & E & Hinv & Hl & _);
    [unfold END; lia..|]. change (seqZ 0 3) with [0; 1; 2] in *.
  destruct (pool_refines_stack p [0; 1; 2] [true; false] 7 Hinv) as [Hm _].
  destruct Hm as (p' & Em & Hinv' & _ & _ & Hl').
  assert (cell_addr p 0 = 4096) as Ea by (vm_compute in E; by simplify_eq).
  rewrite Ea in *. assert (live p' !! 4096 = Some 7) as H7.
  { rewrite Hl'. apply lookup_insert_eq. }
  destruct (pool_refines_stack p' _ [] 0 Hinv') as [_ Hf].
  destruct (Hf 4096 7 H7) as (p'' & _ & _ & Ef & _).
  exists p, p', p''. done.
Defined.

Lemma pool_lifo_witness :
  ∃ p p1 p2 p3, pool_ctor 4096 64 3 = Some p ∧ make [] 7 p = Some (4096, p1) ∧
    free [true] 4096 p1 = Some p2 ∧ make [true; true] 8 p2 = Some (4096, p3).
Proof.
  destruct (pool_ctor_fresh (T:=Z) 4096 64 3) as (p & E & Hinv & Hl & _);
    [unfold END; lia..|]. change (seqZ 0 3) with [0; 1; 2] in *.
  destruct (pool_make_spec [] 7 p [0; 1; 2] Hinv) as (p1 & E1 & Hinv1 & _ & _ & Hl1).
  assert (cell_addr p 0 = 4096) as Ea by (vm_compute in E; by simplify_eq).
  rewrite Ea in *.
  destruct (pool_lifo p1 _ 4096 7 [true] [true; true] 8 Hinv1) as (p2 & p3 & E2 & E3 & _).
  { rewrite Hl1. apply lookup_insert_eq. }
  exists p, p1, p2, p3. done.
Defined.

Lemma pool_ctor_spec_witness :
  (pool_ctor 4096 64 0 : option (pool Z)) = None ∧
  ∃ p : pool Z, pool_ctor 4096 64 3 = Some p ∧ free_list p = [0; 1; 2].
Proof.
  split; [done|]. pose proof (pool_ctor_spec (T:=Z) 4096 64 3) as H.
  destruct (pool_ctor 4096 64 3) as [p|].
  - exists p. split; [done|]. apply H; unfold END; lia.
  - exfalso. assert (3 = 0) by (apply H; unfold END; lia). lia.
Defined.

Lemma pool_conservation_witness :
  ∃ p p1 : pool Z, pool_ctor 4096 64 1 = Some p ∧ make [] 5 p = Some (4096, p1) ∧
    make [] 6 p1 = Some (nullptr, p1) ∧
    Z.of_nat (length (free_list p1) + size (live p1)) = 1.
Proof.
  destruct (pool_ctor 4096 64 1) as [p|] eqn:E; [|discriminate E].
  destruct (make [] 5 p) as [[a p1]|] eqn:E1.
  2:{ exfalso. vm_compute in E. simplify_eq. }
  exists p, p1.
  pose proof (pool_conservation 4096 64 1 p p1) as H.
  destruct H as [Ht _]; [unfold END; lia..|done| |].
  { apply rtc_once. left. by exists [], 5, a. }
  vm_compute in E. simplify_eq. vm_compute in E1. simplify_eq. done.
Defined.
