(* ===== verification/PoolConcurrent.v ===== *)
(** * The pool under concurrency (include/conduit/core.hpp, layer 4)

    Many threads run [make] and [free] on one pool.  Each shared access of the
    two functions is one step: the initial load of [free_head_], the plain read
    of [memory_[idx].next], the compare-and-swap (successful, failed or
    spuriously failed, which reloads the head), the placement new, and for
    [free] the load, the plain write of [next] and the compare-and-swap.
    Steps of different threads interleave arbitrarily, and every access sees the
    last write (sequential consistency; PoolWeak.v is about the memory orders).

    A read of [next] in a cell that meanwhile holds an object yields an
    arbitrary word.  The tag in the head makes the following exchange fail,
    provided fewer than 2^32 exchanges succeed between the thread's load and
    its exchange; [in_window] states this for one step. *)

From S2P Require Import Prelude EventPtr Interfaces Pool.

Local Open Scope Z_scope.

Module PoolMT.

Section pool_concurrent.
Context {T : Type}.

(** Where a thread is inside [make] or [free]; [k] is the number of successful
    exchanges at the time the local [head] was loaded (a ghost). *)
Inductive pc :=
  | MLoaded (v : T) (head k : Z)          (* make: head loaded *)
  | MRead (v : T) (head next k : Z)       (* make: next read *)
  | MWon (v : T) (idx : Z)                (* make: exchange done, construct next *)
  | FDead (idx : Z)                       (* free: destructor done *)
  | FLoaded (idx head k : Z)              (* free: head loaded *)
  | FWrote (idx head k : Z).              (* free: next written *)

Record state := State {
  mem : list (cell T);        (* memory_ *)
  head : Z;                   (* free_head_ *)
  ops : Z;                    (* ghost: successful exchanges so far *)
  pcs : gmap nat pc;          (* the threads inside make or free *)
  owned : gmap Z T }.         (* the objects handed out, by cell *)

(** The steps; [t] is the thread. *)
Inductive label :=
  | LMake (t : nat) (v : T)               (* call make, load the head *)
  | LEmpty (t : nat)                      (* make returns nullptr *)
  | LRead (t : nat) (garbage : Z)         (* read memory_[idx].next *)
  | LCas (t : nat) (spurious : bool)      (* compare_exchange_weak *)
  | LConstruct (t : nat)                  (* placement new, return *)
  | LFree (t : nat) (idx : Z)             (* call free, run the destructor *)
  | LLoad (t : nat)                       (* free: load the head *)
  | LWrite (t : nat).                     (* free: write memory_[idx].next *)

Definition set_pc (t : nat) (p : pc) (s : state) : state :=
  State (mem s) (head s) (ops s) (<[t := p]> (pcs s)) (owned s).

Definition exit_pc (t : nat) (s : state) : state :=
  State (mem s) (head s) (ops s) (delete t (pcs s)) (owned s).

(** The compare-and-swap of a thread that expects [h] and offers [h']: on
    success continue with [won], on failure with [lost] on the reloaded head. *)
Definition cas (spurious : bool) (h h' : Z) (won lost : state → state) (s : state) : state :=
  match compare_exchange_weak spurious (head s) h h' with
  | (true, cur, _) => won (State (mem s) cur (ops s + 1) (pcs s) (owned s))
  | (false, cur, _) => lost (State (mem s) cur (ops s) (pcs s) (owned s))
  end.

Definition step (l : label) (s : state) : option state :=
  match l with
  | LMake t v =>
      match pcs s !! t with
      | None => Some (set_pc t (MLoaded v (head s) (ops s)) s)
      | Some _ => None
      end
  | LEmpty t =>
      match pcs s !! t with
      | Some (MLoaded v h k) =>
          if head_idx h =? END then Some (exit_pc t s) else None
      | _ => None
      end
  | LRead t garbage =>
      match pcs s !! t with
      | Some (MLoaded v h k) =>
          if head_idx h =? END then None else
          c ← zget (mem s) (head_idx h);
          let next := match c with Next n => n | Data _ => u64 garbage end in
          Some (set_pc t (MRead v h next k) s)
      | _ => None
      end
  | LCas t spurious =>
      match pcs s !! t with
      | Some (MRead v h next k) =>
          Some (cas spurious h (bump h next)
                  (set_pc t (MWon v (head_idx h)))
                  (λ s', set_pc t (MLoaded v (head s') (ops s')) s') s)
      | Some (FWrote idx h k) =>
          Some (cas spurious h (bump h idx)
                  (exit_pc t)
                  (λ s', set_pc t (FLoaded idx (head s') (ops s')) s') s)
      | _ => None
      end
  | LConstruct t =>
      match pcs s !! t with
      | Some (MWon v idx) =>
          m ← zset (mem s) idx (Data v);
          Some (State m (head s) (ops s) (delete t (pcs s)) (<[idx := v]> (owned s)))
      | _ => None
      end
  | LFree t idx =>
      match pcs s !! t, owned s !! idx with
      | None, Some _ =>
          Some (State (mem s) (head s) (ops s) (<[t := FDead idx]> (pcs s))
                  (delete idx (owned s)))
      | _, _ => None
      end
  | LLoad t =>
      match pcs s !! t with
      | Some (FDead idx) => Some (set_pc t (FLoaded idx (head s) (ops s)) s)
      | _ => None
      end
  | LWrite t =>
      match pcs s !! t with
      | Some (FLoaded idx h k) =>
          m ← zset (mem s) idx (Next (Z.land h 0xFFFFFFFF));
          Some (State m (head s) (ops s) (<[t := FWrote idx h k]> (pcs s)) (owned s))
      | _ => None
      end
  end.

(** The state of a freshly constructed pool. *)
Definition start (p : pool T) : state := State (memory_ p) (free_head_ p) 0 ∅ ∅.

(** The tag window: a thread in [make] exchanges before 2^32 exchanges have
    succeeded since it loaded the head. *)
Definition in_window (l : label) (s : state) : bool :=
  match l with
  | LCas t _ =>
      match pcs s !! t with
      | Some (MRead _ _ _ k) => ops s - k <? 2 ^ 32
      | _ => true
      end
  | _ => true
  end.

(** One step of any thread, inside its tag window. *)
Definition bstep (s s' : state) : Prop :=
  ∃ l, step l s = Some s' ∧ in_window l s = true.

End pool_concurrent.

Arguments pc T : clear implicits.
Arguments state T : clear implicits.
Arguments label T : clear implicits.

Section invariant.
Context {T : Type}.
Implicit Types (s : state T) (p : pc T) (m : gmap nat (pc T)) (L : list Z).

(** The cell a thread holds privately, if any. *)
Definition transit p : option Z :=
  match p with
  | MLoaded _ _ _ | MRead _ _ _ _ => None
  | MWon _ i | FDead i | FLoaded i _ _ | FWrote i _ _ => Some i
  end.

Definition held m : list Z := (map_to_list (omap transit m)).*2.
Definition owned_idx (o : gmap Z T) : list Z := (map_to_list o).*1.

(** What a loaded head word tells: its tag is the exchange count at the load,
    and it is still the head if no exchange succeeded since. *)
Definition snapshot (cells : list (cell T)) (hd n h k : Z) : Prop :=
  in_word 64 h ∧ 0 ≤ k ≤ n ∧ h `div` 2 ^ 32 = k `mod` 2 ^ 32 ∧
  (k = n → h = hd) ∧
  (head_idx h = END ∨ 0 ≤ head_idx h < Z.of_nat (length cells)).

Definition local_ok (cells : list (cell T)) (hd n : Z) p : Prop :=
  match p with
  | MLoaded _ h k => snapshot cells hd n h k
  | MRead _ h next k =>
      snapshot cells hd n h k ∧ head_idx h ≠ END ∧
      (k = n → zget cells (head_idx h) = Some (Next next))
  | MWon _ i | FDead i => True
  | FLoaded i h k => snapshot cells hd n h k
  | FWrote i h k =>
      snapshot cells hd n h k ∧
      zget cells i = Some (Next (Z.land h 0xFFFFFFFF))
  end.

Record inv s L : Prop := {
  i_len : Z.of_nat (length (mem s)) ≤ END;
  i_word : in_word 64 (head s);
  i_ops : 0 ≤ ops s;
  i_tag : head s `div` 2 ^ 32 = ops s `mod` 2 ^ 32;
  i_chain : chain (mem s) (head s `mod` 2 ^ 32) L;
  i_cells : L ++ held (pcs s) ++ owned_idx (owned s)
            ≡ₚ seqZ 0 (Z.of_nat (length (mem s)));
  i_data i v : owned s !! i = Some v → zget (mem s) i = Some (Data v);
  i_local t p : pcs s !! t = Some p → local_ok (mem s) (head s) (ops s) p }.

(** ** The cells held by the threads *)

Lemma held_same m t p :
  (m !! t ≫= transit) = transit p → held (<[t := p]> m) = held m.
Proof.
  intros E. unfold held. f_equal. f_equal. apply map_eq. intros t'.
  rewrite !lookup_omap. destruct (decide (t = t')) as [<-|].
  - by rewrite lookup_insert_eq.
  - by rewrite lookup_insert_ne.
Qed.

Lemma held_exit m t : (m !! t ≫= transit) = None → held (delete t m) = held m.
Proof.
  intros E. unfold held. rewrite omap_delete, delete_id; [done|].
  by rewrite lookup_omap.
Qed.

Lemma held_add m t p i :
  (m !! t ≫= transit) = None → transit p = Some i →
  held (<[t := p]> m) ≡ₚ i :: held m.
Proof.
  intros E Hp. unfold held. rewrite (omap_insert_Some _ _ _ _ _ Hp).
  rewrite map_to_list_insert by (by rewrite lookup_omap). done.
Qed.

Lemma held_remove m t p i :
  m !! t = Some p → transit p = Some i → held m ≡ₚ i :: held (delete t m).
Proof.
  intros Ht Hp. unfold held. rewrite omap_delete.
  rewrite <-(map_to_list_delete (omap transit m) t i); [done|].
  by rewrite lookup_omap, Ht.
Qed.

Lemma held_elem m t p i : m !! t = Some p → transit p = Some i → i ∈ held m.
Proof. intros Ht Hp. rewrite (held_remove m t p i) by done. by left. Qed.

Lemma owned_add o i (v : T) :
  o !! i = None → owned_idx (<[i := v]> o) ≡ₚ i :: owned_idx o.
Proof. intros. unfold owned_idx. by rewrite map_to_list_insert. Qed.

Lemma owned_remove o i (v : T) :
  o !! i = Some v → owned_idx o ≡ₚ i :: owned_idx (delete i o).
Proof. intros H. unfold owned_idx. by rewrite <-(map_to_list_delete _ _ _ H). Qed.

Lemma owned_elem o i (v : T) : o !! i = Some v → i ∈ owned_idx o.
Proof. intros H. rewrite (owned_remove o i v) by done. by left. Qed.

(** ** Consequences of the cell accounting *)

Lemma cells_nodup s L : inv s L → NoDup (L ++ held (pcs s) ++ owned_idx (owned s)).
Proof. intros Hi. rewrite (i_cells s L Hi). apply NoDup_seqZ. Qed.

Lemma cells_range s L i :
  inv s L → i ∈ L ++ held (pcs s) ++ owned_idx (owned s) →
  0 ≤ i < Z.of_nat (length (mem s)).
Proof. intros Hi. rewrite (i_cells s L Hi), elem_of_seqZ. lia. Qed.

Lemma held_not_free s L t p i :
  inv s L → pcs s !! t = Some p → transit p = Some i →
  (i ∉ L) ∧ 0 ≤ i < Z.of_nat (length (mem s)).
Proof.
  intros Hi Ht Hp. pose proof (held_elem _ _ _ _ Ht Hp) as Hh. split.
  - pose proof (cells_nodup s L Hi) as Hnd. apply NoDup_app in Hnd as (_ & Hd & _).
    intros HL. apply (Hd i HL). apply elem_of_app. by left.
  - apply (cells_range s L); [done|]. rewrite !elem_of_app. auto.
Qed.

Lemma held_not_owned s L t p i :
  inv s L → pcs s !! t = Some p → transit p = Some i → owned s !! i = None.
Proof.
  intros Hi Ht Hp. pose proof (held_elem _ _ _ _ Ht Hp) as Hh.
  pose proof (cells_nodup s L Hi) as Hnd. apply NoDup_app in Hnd as (_ & _ & Hnd).
  apply NoDup_app in Hnd as (_ & Hd & _).
  destruct (owned s !! i) eqn:E; [|done]. apply owned_elem in E. by apply Hd in Hh.
Qed.

Lemma held_inj s L t t' p p' i :
  inv s L → pcs s !! t = Some p → pcs s !! t' = Some p' →
  transit p = Some i → transit p' = Some i → t = t'.
Proof.
  intros Hi Ht Ht' Hp Hp'. destruct (decide (t = t')) as [|Hne]; [done|exfalso].
  pose proof (cells_nodup s L Hi) as Hnd. apply NoDup_app in Hnd as (_ & _ & Hnd).
  apply NoDup_app in Hnd as (Hnd & _ & _).
  rewrite (held_remove _ t p i), NoDup_cons in Hnd by done. apply Hnd.
  eapply held_elem; [by rewrite lookup_delete_ne|done].
Qed.

(** The head index of a loaded word that is still current is the first free
    cell. *)
Lemma head_in_chain s L h k :
  inv s L → snapshot (mem s) (head s) (ops s) h k → k = ops s →
  head_idx h ≠ END → ∃ L', L = head_idx h :: L'.
Proof.
  intros Hi (_ & _ & _ & Hh & _) Hk Hne. rewrite (Hh Hk) in *.
  pose proof (i_chain s L Hi) as Hc. rewrite <-head_idx_val in Hc.
  destruct L as [|j L]; [done|]. destruct Hc as (<- & _). by exists L.
Qed.

(** Loading the head gives a valid snapshot. *)
Lemma snapshot_load s L : inv s L → snapshot (mem s) (head s) (ops s) (head s) (ops s).
Proof.
  intros Hi. split; [apply Hi|]. split; [pose proof (i_ops s L Hi); lia|].
  split; [apply Hi|]. split; [done|]. rewrite head_idx_val.
  pose proof (i_chain s L Hi) as Hc. destruct L as [|j L]; [by left|right].
  destruct Hc as (-> & _ & n & Hn & _). by eapply zget_Some_range.
Qed.

(** *** Frame lemmas for the threads that do not move *)

Lemma local_ok_write s L t t' p p' i c cells :
  inv s L → pcs s !! t = Some p → transit p = Some i → t ≠ t' →
  pcs s !! t' = Some p' → zset (mem s) i c = Some cells →
  local_ok cells (head s) (ops s) p'.
Proof.
  intros Hi Ht Hp Hne Ht' Hs. pose proof (i_local s L Hi _ _ Ht') as Hl.
  pose proof (zset_length _ _ _ _ Hs) as Hlen.
  assert (∀ h k, snapshot (mem s) (head s) (ops s) h k →
                 snapshot cells (head s) (ops s) h k) as Hsn.
  { unfold snapshot. by rewrite Hlen. }
  destruct p' as [v h k|v h n k|v j|j|j h k|j h k]; cbn in *; auto.
  - destruct Hl as (Hsn' & Hnx & Hl). split; [auto|]. split; [done|]. intros Hk.
    destruct (head_in_chain s L h k) as [L' ->]; [done..|].
    rewrite (zget_zset _ _ _ _ _ Hs), decide_False; [auto|]. intros ->.
    apply (proj1 (held_not_free s _ t p (head_idx h) Hi Ht Hp)). by left.
  - destruct Hl as [Hsn' Hz]. split; [auto|].
    rewrite (zget_zset _ _ _ _ _ Hs), decide_False; [done|]. intros ->.
    apply Hne. by eapply held_inj.
Qed.

Lemma snapshot_exchange cells hd n hd' h k :
  snapshot cells hd n h k → snapshot cells hd' (n + 1) h k.
Proof. unfold snapshot. intros (? & ? & ? & _ & ?). split_and!; try done; lia. Qed.

Lemma local_ok_exchange cells hd n p hd' :
  local_ok cells hd n p → local_ok cells hd' (n + 1) p.
Proof.
  pose proof (snapshot_exchange cells hd n hd') as Hsn.
  destruct p as [v h k|v h nx k|v j|j|j h k|j h k]; cbn; auto.
  - intros (Hs & Hne & _). split; [auto|]. split; [done|].
    destruct Hs as (_ & ? & _). lia.
  - intros [? ?]. auto.
Qed.

(** ** Preservation, step by step *)

Lemma inv_move s L t p :
  inv s L → (pcs s !! t ≫= transit) = transit p →
  local_ok (mem s) (head s) (ops s) p → inv (set_pc t p s) L.
Proof.
  intros [] E Hp. split; cbn; try done.
  - by rewrite held_same.
  - intros t' p' [[_ <-]|[_ Ht']]%lookup_insert_Some; eauto.
Qed.

Lemma inv_exit s L t :
  inv s L → (pcs s !! t ≫= transit) = None → inv (exit_pc t s) L.
Proof.
  intros [] E. split; cbn; try done.
  - by rewrite held_exit.
  - intros t' p' [_ Ht']%lookup_delete_Some; eauto.
Qed.

Lemma inv_construct s L t v i cells :
  inv s L → pcs s !! t = Some (MWon v i) → zset (mem s) i (Data v) = Some cells →
  inv (State cells (head s) (ops s) (delete t (pcs s)) (<[i := v]> (owned s))) L.
Proof.
  intros Hi Ht Hs. pose proof (zset_length _ _ _ _ Hs) as Hlen.
  destruct (held_not_free s L t _ i Hi Ht) as [HiL Hr]; [done|].
  pose proof (held_not_owned s L t _ i Hi Ht eq_refl) as Ho.
  split; cbn; rewrite ?Hlen; try apply Hi.
  - by eapply chain_insert; [apply Hi|..].
  - rewrite <-(i_cells s L Hi), (held_remove _ t _ i Ht), owned_add by done.
    solve_Permutation.
  - intros j u Hj. rewrite (zget_zset _ _ _ _ _ Hs).
    apply lookup_insert_Some in Hj as [[-> ->]|[Hne Hj]].
    + by rewrite decide_True.
    + rewrite decide_False by done. by apply (i_data s L Hi).
  - intros t' p' [Hne Ht']%lookup_delete_Some.
    by eapply (local_ok_write s L t t').
Qed.

Lemma inv_free s L t i v :
  inv s L → pcs s !! t = None → owned s !! i = Some v →
  inv (State (mem s) (head s) (ops s) (<[t := FDead i]> (pcs s)) (delete i (owned s))) L.
Proof.
  intros Hi Ht Ho. split; cbn; try apply Hi.
  - rewrite <-(i_cells s L Hi), (owned_remove _ i v Ho), (held_add _ t _ i);
      [solve_Permutation|by rewrite Ht|done].
  - intros j u [_ Hj]%lookup_delete_Some. by apply (i_data s L Hi).
  - intros t' p' [[_ <-]|[_ Ht']]%lookup_insert_Some; [done|].
    by eapply (i_local s L Hi).
Qed.

Lemma inv_write s L t i h k cells :
  inv s L → pcs s !! t = Some (FLoaded i h k) →
  zset (mem s) i (Next (Z.land h 0xFFFFFFFF)) = Some cells →
  inv (State cells (head s) (ops s) (<[t := FWrote i h k]> (pcs s)) (owned s)) L.
Proof.
  intros Hi Ht Hs. pose proof (zset_length _ _ _ _ Hs) as Hlen.
  destruct (held_not_free s L t _ i Hi Ht) as [HiL Hr]; [done|].
  pose proof (held_not_owned s L t _ i Hi Ht eq_refl) as Ho.
  split; cbn; rewrite ?Hlen; try apply Hi.
  - by eapply chain_insert; [apply Hi|..].
  - rewrite held_same by (by rewrite Ht). apply Hi.
  - intros j u Hj. rewrite (zget_zset _ _ _ _ _ Hs), decide_False.
    + by apply (i_data s L Hi).
    + intros ->. congruence.
  - intros t' p' [[-> <-]|[Hne Ht']]%lookup_insert_Some.
    + cbn. rewrite (zget_zset _ _ _ _ _ Hs), decide_True by done. split; [|done].
      pose proof (i_local s L Hi _ _ Ht) as Hl. cbn in Hl.
      unfold snapshot in *. by rewrite Hlen.
    + by eapply (local_ok_write s L t t').
Qed.

Lemma tag_bump s L i :
  inv s L → bump (head s) i `div` 2 ^ 32 = (ops s + 1) `mod` 2 ^ 32.
Proof.
  intros Hi. rewrite bump_tag, (i_tag s L Hi) by apply Hi.
  apply Zplus_mod_idemp_l.
Qed.

(** Equal head words inside the tag window mean that no exchange succeeded in
    between. *)
Lemma no_aba s L h k :
  inv s L → snapshot (mem s) (head s) (ops s) h k → head s = h →
  ops s - k < 2 ^ 32 → k = ops s.
Proof.
  intros Hi (_ & Hk & Htag & _) <- Hw. rewrite (i_tag s L Hi) in Htag.
  apply (mod_window_inj (2 ^ 32)); [lia..|done].
Qed.

Lemma inv_pop s L t v h n k :
  inv s L → pcs s !! t = Some (MRead v h n k) → head s = h → ops s - k < 2 ^ 32 →
  ∃ L', L = head_idx h :: L' ∧
        inv (State (mem s) (bump h n) (ops s + 1)
               (<[t := MWon v (head_idx h)]> (pcs s)) (owned s)) L'.
Proof.
  intros Hi Ht Hh Hw. pose proof (i_local s L Hi _ _ Ht) as (Hsn & Hne & Hnext).
  pose proof (no_aba s L h k Hi Hsn Hh Hw) as Hk.
  destruct (head_in_chain s L h k Hi Hsn Hk Hne) as [L' ->]. specialize (Hnext Hk).
  exists L'. split; [done|]. subst h. split; cbn; try apply Hi.
  - apply bump_word, Hi.
  - pose proof (i_ops s _ Hi). lia.
  - by eapply tag_bump.
  - destruct (i_chain s _ Hi) as (_ & _ & n' & Hn' & Hc).
    assert (n' = n) as -> by congruence.
    rewrite bump_val by apply Hi. by rewrite packed_low by (apply Z.mod_pos_bound; lia).
  - rewrite <-(i_cells s _ Hi), (held_add _ t _ (head_idx (head s)));
      [solve_Permutation|by rewrite Ht|done].
  - intros t' p' [[_ <-]|[_ Ht']]%lookup_insert_Some; [done|].
    eapply local_ok_exchange. by eapply (i_local s _ Hi).
Qed.

Lemma inv_push s L t i h k :
  inv s L → pcs s !! t = Some (FWrote i h k) → head s = h →
  inv (State (mem s) (bump h i) (ops s + 1) (delete t (pcs s)) (owned s)) (i :: L).
Proof.
  intros Hi Ht <-. pose proof (i_local s L Hi _ _ Ht) as (_ & Hz).
  destruct (held_not_free s L t _ i Hi Ht) as [HiL Hr]; [done|].
  assert (0 ≤ i < END) as HiE by (pose proof (i_len s L Hi); lia).
  split; cbn; try apply Hi.
  - apply bump_word, Hi.
  - pose proof (i_ops s _ Hi). lia.
  - by eapply tag_bump.
  - rewrite bump_idx by (apply Hi || (unfold in_word, END in *; lia)).
    split; [done|]. split; [done|]. eexists. split; [done|].
    rewrite land_mask32, Z.mod_mod by lia. apply Hi.
  - rewrite <-(i_cells s _ Hi), (held_remove _ t _ i Ht) by done. solve_Permutation.
  - intros t' p' [_ Ht']%lookup_delete_Some.
    eapply local_ok_exchange. by eapply (i_local s _ Hi).
Qed.

Lemma state_eta s : State (mem s) (head s) (ops s) (pcs s) (owned s) = s.
Proof. by destruct s. Qed.

Lemma step_inv l s s' L :
  inv s L → step l s = Some s' → in_window l s = true → ∃ L', inv s' L'.
Proof.
  intros Hi E Hw. pose proof (snapshot_load s L Hi) as Hload.
  destruct l as [t v|t|t g|t sp|t|t i|t|t]; cbn in E, Hw;
    destruct (pcs s !! t) as [[v' h k|v' h n k|v' j|j|j h k|j h k]|] eqn:Ht;
    try discriminate E.
  - exists L. inv_some. apply inv_move; [done|by rewrite Ht|done].
  - destruct (head_idx h =? END); inv_some. exists L.
    apply inv_exit; [done|by rewrite Ht].
  - destruct (Z.eqb_spec (head_idx h) END) as [|Hne]; [done|].
    destruct (zget (mem s) (head_idx h)) as [c|] eqn:Hc; cbn in E; inv_some.
    exists L. pose proof (i_local s L Hi _ _ Ht) as Hsn. cbn in Hsn.
    apply inv_move; [done|by rewrite Ht|]. split; [done|]. split; [done|].
    intros Hk. destruct (head_in_chain s L h k) as [L' ->]; [done..|].
    pose proof (i_chain s _ Hi) as (_ & _ & n & Hn & _).
    rewrite Hc in Hn. injection Hn as ->. done.
  - unfold cas, compare_exchange_weak in E.
    destruct (negb sp && (head s =? h)) eqn:Ec; inv_some.
    + apply andb_true_iff in Ec as [_ Ec%Z.eqb_eq]. apply Z.ltb_lt in Hw.
      destruct (inv_pop s L t v' h n k Hi Ht Ec Hw) as (L' & _ & Hi'). by exists L'.
    + exists L. rewrite state_eta. by apply inv_move; [|cbn; rewrite Ht|].
  - unfold cas, compare_exchange_weak in E.
    destruct (negb sp && (head s =? h)) eqn:Ec; inv_some.
    + apply andb_true_iff in Ec as [_ Ec%Z.eqb_eq]. exists (j :: L).
      exact (inv_push s L t j h k Hi Ht Ec).
    + exists L. rewrite state_eta. by apply inv_move; [|cbn; rewrite Ht|].
  - destruct (zset (mem s) j (Data v')) eqn:Hs; cbn in E; inv_some.
    exists L. by apply inv_construct.
  - destruct (owned s !! i) eqn:Ho; inv_some. exists L. by eapply inv_free.
  - exists L. inv_some. apply inv_move; [done|by rewrite Ht|done].
  - destruct (zset (mem s) j _) eqn:Hs; cbn in E; inv_some.
    exists L. by apply inv_write.
Qed.

Lemma steps_inv s s' : (∃ L, inv s L) → rtc bstep s s' → ∃ L, inv s' L.
Proof.
  apply (rtc_invariant bstep (λ x, ∃ L, inv x L)).
  intros a b [L Hi] (l & E & Hw). by eapply step_inv.
Qed.

Lemma start_inv (p : pool T) L :
  free_inv p L → free_head_ p = 0 → length L = length (memory_ p) →
  L ≡ₚ seqZ 0 (Z.of_nat (length (memory_ p))) → inv (start p) L.
Proof.
  intros Hinv H0 Hlen HL. pose proof (fi_chain p L Hinv) as Hc. rewrite H0 in Hc.
  split; cbn; rewrite ?H0; try done.
  - apply Hinv.
  - unfold held, owned_idx. rewrite omap_empty, !map_to_list_empty. cbn.
    by rewrite app_nil_r.
Qed.

Lemma ctor_start_inv base csize cap (p : pool T) :
  1 ≤ cap ≤ END → 0 < base → 0 < csize → base + cap * csize ≤ 2 ^ 64 →
  pool_ctor base csize cap = Some p →
  inv (start p) (seqZ 0 cap) ∧ Z.of_nat (length (memory_ p)) = cap.
Proof.
  intros Hcap Hb Hc He E.
  destruct (pool_ctor_fresh (T:=T) base csize cap) as (p' & E' & Hinv & _); [done..|].
  destruct (pool_ctor_cells (T:=T) base csize cap Hcap) as (cells & E'' & Hl & _).
  assert (p' = p) as -> by congruence.
  rewrite E in E''. injection E'' as ->. cbn in *.
  assert (Z.of_nat (length cells) = cap) as Hlen by lia.
  split; [|done]. apply start_inv; cbn; try done.
  - by rewrite length_seqZ.
  - by rewrite Hlen.
Qed.

Lemma step_length l s s' : step l s = Some s' → length (mem s') = length (mem s).
Proof.
  intros E. destruct l as [t v|t|t g|t sp|t|t i|t|t]; cbn in E;
    destruct (pcs s !! t) as [[v' h k|v' h n k|v' j|j|j h k|j h k]|];
    try discriminate E; try (inv_some; done);
    unfold cas, compare_exchange_weak in E;
    repeat match type of E with
    | (if ?b then _ else _) = _ => destruct b
    | context [negb ?b && ?c] => destruct (negb b && c)
    | match ?o with _ => _ end = _ => destruct o eqn:?
    | (?o ≫= _) = _ => destruct o eqn:?; cbn in E
    end; inv_some; try done; cbn; eauto using zset_length.
Qed.

Lemma steps_length s s' : rtc bstep s s' → length (mem s') = length (mem s).
Proof.
  intros Hr. induction Hr as [|s s1 s' (l & E & _) _ IH]; [done|].
  rewrite IH. by eapply step_length.
Qed.

(** ** Properties *)

(** The algorithm with sequentially consistent accesses, a stepping stone for
    PoolWeak.v: every access sees the last write, which the memory orders of the
    source do not guarantee.  However the calls interleave (inside the tag
    window), every cell is in the free list, held by one thread inside a call, or
    handed out, and every object handed out is intact in its cell. *)
Theorem pool_mt_no_double_allocation base csize cap (p : pool T) s :
  1 ≤ cap ≤ END → 0 < base → 0 < csize → base + cap * csize ≤ 2 ^ 64 →
  pool_ctor base csize cap = Some p → rtc bstep (start p) s →
  ∃ L, chain (mem s) (head s `mod` 2 ^ 32) L ∧
       L ++ held (pcs s) ++ owned_idx (owned s) ≡ₚ seqZ 0 cap ∧
       ∀ i v, owned s !! i = Some v → zget (mem s) i = Some (Data v).
Proof.
  intros Hcap Hb Hc He E Hr.
  destruct (ctor_start_inv base csize cap p) as [Hi Hlen]; [done..|].
  destruct (steps_inv _ _ (ex_intro _ _ Hi) Hr) as [L HL].
  exists L. split; [apply HL|]. split; [|apply HL].
  pose proof (i_cells s L HL) as Hcells.
  by rewrite (steps_length _ _ Hr) in Hcells; cbn in Hcells; rewrite Hlen in Hcells.
Qed.

(** The head word a thread compares against, with its load count. *)
Definition expects p : option (Z * Z) :=
  match p with
  | MLoaded _ h k | MRead _ h _ k | FLoaded _ h k | FWrote _ h k => Some (h, k)
  | _ => None
  end.

End invariant.

(** ** Witness: the ABA schedule is harmless

    Thread 1 loads the head (cell 0) and reads its successor (cell 1); thread 2
    takes cells 0 and 1 and returns cell 0, so the head index is 0 again; the
    exchange of thread 1 fails because the tag moved, and it retries. *)

Fixpoint exec {T} (ls : list (label T)) (s : state T) : option (state T) :=
  match ls with
  | [] => Some s
  | l :: ls' => if in_window l s then s' ← step l s; exec ls' s' else None
  end.

Lemma exec_bsteps {T} (ls : list (label T)) s s' :
  exec ls s = Some s' → rtc bstep s s'.
Proof.
  revert s. induction ls as [|l ls IH]; intros s E; cbn in E.
  - inv_some. apply rtc_refl.
  - destruct (in_window l s) eqn:Ew; [|done].
    destruct (step l s) as [s1|] eqn:Es; cbn in E; [|done].
    eapply rtc_l; [by exists l|]. by apply IH.
Qed.

Definition aba_schedule : list (label Z) :=
  [LMake 1 100; LRead 1 0;
   LMake 2 200; LRead 2 0; LCas 2 false; LConstruct 2;
   LMake 2 201; LRead 2 0; LCas 2 false; LConstruct 2;
   LFree 2 0; LLoad 2; LWrite 2; LCas 2 false;
   LCas 1 false].

Lemma pool_mt_no_double_allocation_witness :
  ∃ p s, pool_ctor 4096 64 3 = Some p ∧ exec aba_schedule (start p) = Some s ∧
    pcs s !! 1%nat = Some (MLoaded 100 (3 * 2 ^ 32) 3) ∧
    ∃ L, L ++ held (pcs s) ++ owned_idx (owned s) ≡ₚ [0; 1; 2].
Proof.
  destruct (pool_ctor 4096 64 3) as [p|] eqn:E; [|discriminate E].
  destruct (exec aba_schedule (start p)) as [s|] eqn:Es.
  - exists p, s. split; [done|]. split; [done|]. split.
    + vm_compute in E. injection E as <-. vm_compute in Es. injection Es as <-. done.
    + destruct (pool_mt_no_double_allocation 4096 64 3 p s) as (L & _ & HL & _);
        [unfold END; lia..|done|by apply (exec_bsteps aba_schedule)|].
      exists L. exact HL.
  - exfalso. vm_compute in E. injection E as <-. vm_compute in Es. discriminate Es.
Defined.

End PoolMT.
