(* ===== verification/PoolWeak.v ===== *)
(** * The memory orders of the free list (include/conduit/core.hpp, layer 4, and
      include/conduit/pending/core/slab_allocator.hpp)

    The steps of PoolConcurrent.v under the memory orders of the source instead
    of sequential consistency.

    [free_head_] is an atomic word with its modification order, a list of
    messages; a load returns any message that is not older than the last one
    the thread has seen.  Every store to it is a compare-and-swap with release
    order, which has to read the newest message; its message carries the clock
    of the writer joined with the one of the message it replaces (the release
    sequence).  An acquire load joins the clock of the message into the
    thread's; a relaxed one does not.

    The cells are plain memory with their history of writes.  A read may return
    any write that is not followed by another one the thread knows of.  An
    access that is not ordered after the last write, and whose outcome is used,
    sets [used_race].

    The pool and the slab differ in one argument: the order of the load when a
    compare-and-swap fails, relaxed in core.hpp and acquire in
    slab_allocator.hpp. *)

From stdpp Require Import functions.
From S2P Require Import Prelude EventPtr Interfaces Pool PoolConcurrent.
Import PoolMT.

Local Open Scope Z_scope.

Module PoolWeak.

Inductive order := Relaxed | Acquire.

(** The failure orders of the two sources. *)
Definition pool_failure : order := Relaxed.
Definition slab_failure : order := Acquire.

(** Vector clocks: per thread, how many of its writes are known. *)
Abbreviation vc := (nat → nat).
Definition vjoin (a b : vc) : vc := λ t, Nat.max (a t) (b t).
Definition vle (a b : vc) : Prop := ∀ t, (a t ≤ b t)%nat.

Section weak.
Context {T : Type} (failure : order).

(** A write to a cell, by its thread and its number there. *)
Record wr := Wr { w_cell : cell T; w_thread : nat; w_time : nat }.

(** The write happens before a point with clock [c]. *)
Definition hb (w : wr) (c : vc) : bool := (w_time w <=? c (w_thread w))%nat.

Record msg := Msg { mval : Z; mview : vc }.

Record wstate := W {
  now : state T;           (* the newest values, and where the threads are *)
  hist : Z → list wr;      (* the writes to each cell *)
  log : list msg;          (* the modification order of free_head_ *)
  clk : nat → vc;          (* what each thread knows *)
  seen : nat → nat;        (* the newest message of free_head_ it has read *)
  handed : Z → vc;         (* per object: what a thread that gets it learns *)
  used_race : bool }.

Inductive wlabel :=
  | WMake (t : nat) (v : T) (j : nat)         (* make: load the head, message j *)
  | WEmpty (t : nat)                          (* make returns nullptr *)
  | WRead (t : nat) (j : nat) (garbage : Z)   (* read memory_[idx].next, write j *)
  | WCas (t : nat) (spurious : bool) (j : nat)
  | WConstruct (t : nat)                      (* placement new *)
  | WFree (t : nat) (idx : Z)                 (* free: the object was handed to t *)
  | WLoad (t : nat) (j : nat)                 (* free: load the head *)
  | WWrite (t : nat).                         (* free: write memory_[idx].next *)

Definition with_pc (t : nat) (p : pc T) (c : vc) (j : nat) (s : wstate) : wstate :=
  W (set_pc t p (now s)) (hist s) (log s) (<[t := c]> (clk s)) (<[t := j]> (seen s)) (handed s) (used_race s).

(** A load of [free_head_] that reads message [j]: the value, and what the
    thread knows afterwards. *)
Definition load (o : order) (t j : nat) (s : wstate) : option (Z * vc) :=
  if (j <? seen s t)%nat then None else
  m ← log s !! j;
  Some (mval m, match o with Acquire => vjoin (clk s t) (mview m) | Relaxed => clk s t end).

(** The last write to a cell is not known to the thread. *)
Definition unordered (i : Z) (c : vc) (s : wstate) : bool :=
  match last (hist s i) with Some w => negb (hb w c) | None => true end.

(** A plain write of thread [t] to cell [i]; [now'] is the state after it. *)
Definition write (t : nat) (i : Z) (c : cell T) (now' : state T) (s : wstate) : wstate :=
  let k := S (clk s t t) in
  W now' (<[i := hist s i ++ [Wr c t k]]> (hist s)) (log s) (<[t := <[t := k]> (clk s t)]> (clk s)) (seen s)
    (handed s) (used_race s || unordered i (clk s t) s).

(** [compare_exchange_weak(h, h', release, failure)] that reads message [j]; [race]
    is whether the values used in a successful exchange were read unordered. *)
Definition exchange (t : nat) (spurious : bool) (j : nat) (h h' : Z) (race : bool)
    (won : state T → state T) (lost : Z → pc T) (s : wstate) : option wstate :=
  '(v, c) ← load failure t j s;
  if negb spurious && (v =? h) then
    if (S j =? length (log s))%nat then
      m ← log s !! j;
      Some (W (won (State (mem (now s)) h' (ops (now s) + 1) (pcs (now s)) (owned (now s)))) (hist s)
              (log s ++ [Msg h' (vjoin (mview m) (clk s t))]) (clk s) (<[t := S j]> (seen s)) (handed s)
              (used_race s || race))
    else None
  else Some (with_pc t (lost v) c j s).

Definition wstep (l : wlabel) (s : wstate) : option wstate :=
  match l with
  | WMake t v j =>
      match pcs (now s) !! t with
      | None => '(h, c) ← load Acquire t j s; Some (with_pc t (MLoaded v h (Z.of_nat j)) c j s)
      | Some _ => None
      end
  | WEmpty t =>
      now' ← step (LEmpty t) (now s);
      Some (W now' (hist s) (log s) (clk s) (seen s) (handed s) (used_race s))
  | WRead t j garbage =>
      match pcs (now s) !! t with
      | Some (MLoaded v h k) =>
          if head_idx h =? END then None else
          w ← hist s (head_idx h) !! j;
          if existsb (λ w', hb w' (clk s t)) (drop (S j) (hist s (head_idx h))) then None else
          let next := match w_cell w with Next n => n | Data _ => u64 garbage end in
          Some (with_pc t (MRead v h next k) (clk s t) (seen s t) s)
      | _ => None
      end
  | WCas t spurious j =>
      match pcs (now s) !! t with
      | Some (MRead v h next k) =>
          exchange t spurious j h (bump h next) (unordered (head_idx h) (clk s t) s)
            (set_pc t (MWon v (head_idx h))) (λ h, MLoaded v h (Z.of_nat j)) s
      | Some (FWrote idx h k) =>
          exchange t spurious j h (bump h idx) false (exit_pc t) (λ h, FLoaded idx h (Z.of_nat j)) s
      | _ => None
      end
  | WConstruct t =>
      match pcs (now s) !! t with
      | Some (MWon v idx) =>
          now' ← step (LConstruct t) (now s);
          let s' := write t idx (Data v) now' s in
          Some (W (now s') (hist s') (log s') (clk s') (seen s') (<[idx := clk s' t]> (handed s')) (used_race s'))
      | _ => None
      end
  | WFree t idx =>
      now' ← step (LFree t idx) (now s);
      Some (W now' (hist s) (log s) (<[t := vjoin (clk s t) (handed s idx)]> (clk s)) (seen s) (handed s) (used_race s))
  | WLoad t j =>
      match pcs (now s) !! t with
      | Some (FDead idx) => '(h, c) ← load Acquire t j s; Some (with_pc t (FLoaded idx h (Z.of_nat j)) c j s)
      | _ => None
      end
  | WWrite t =>
      match pcs (now s) !! t with
      | Some (FLoaded idx h k) =>
          now' ← step (LWrite t) (now s);
          Some (write t idx (Next (Z.land h 0xFFFFFFFF)) now' s)
      | _ => None
      end
  end.

(** A fresh pool; its construction happens before all threads. *)
Definition wstart (p : pool T) : wstate :=
  W (start p) (λ i, match zget (memory_ p) i with Some c => [Wr c 0 0] | None => [] end)
    [Msg (free_head_ p) (λ _, 0%nat)] (λ _ _, 0%nat) (λ _, 0%nat) (λ _ _, 0%nat) false.

(** The tag window, as in PoolConcurrent.v. *)
Definition wwindow (l : wlabel) (s : wstate) : bool :=
  match l with WCas t sp _ => in_window (LCas t sp) (now s) | _ => true end.

(** Whether an exchange of [make] reads the very message that the thread has
    loaded: nobody has changed the head in between, so that it succeeds or fails
    spuriously.  Otherwise it is contended. *)
Definition uncontended (l : wlabel) (s : wstate) : bool :=
  match l with
  | WCas t _ j => match pcs (now s) !! t with Some (MRead _ _ _ k) => Z.of_nat j =? k | _ => true end
  | _ => true
  end.

(** With the acquire failure order a contended [make] may retry. *)
Definition retry_ordered (l : wlabel) (s : wstate) : bool :=
  match failure with Acquire => true | Relaxed => uncontended l s end.

Definition wbstep (s s' : wstate) : Prop := ∃ l, wstep l s = Some s' ∧ wwindow l s = true.

(** A step that is not a contended retry with the relaxed order. *)
Definition wostep (s s' : wstate) : Prop :=
  ∃ l, wstep l s = Some s' ∧ wwindow l s = true ∧ retry_ordered l s = true.

Fixpoint wexec (ls : list wlabel) (s : wstate) : option wstate :=
  match ls with
  | [] => Some s
  | l :: ls' => if wwindow l s then s' ← wstep l s; wexec ls' s' else None
  end.

(** A schedule without contended retries. *)
Fixpoint woexec (ls : list wlabel) (s : wstate) : option wstate :=
  match ls with
  | [] => Some s
  | l :: ls' => if wwindow l s && retry_ordered l s then s' ← wstep l s; woexec ls' s' else None
  end.

Lemma woexec_steps ls s s' : woexec ls s = Some s' → rtc wostep s s'.
Proof.
  revert s. induction ls as [|l ls IH]; intros s E; cbn in E; [inv_some; apply rtc_refl|].
  destruct (wwindow l s) eqn:Ew; [|done]. destruct (retry_ordered l s) eqn:Eo; [|done].
  destruct (wstep l s) as [s1|] eqn:Es; cbn in E; [|done].
  eapply rtc_l; [by exists l|]. by apply IH.
Qed.

Lemma wexec_steps ls s s' : wexec ls s = Some s' → rtc wbstep s s'.
Proof.
  revert s. induction ls as [|l ls IH]; intros s E; cbn in E; [inv_some; apply rtc_refl|].
  destruct (wwindow l s) eqn:Ew; [|done]. destruct (wstep l s) as [s1|] eqn:Es; cbn in E; [|done].
  eapply rtc_l; [by exists l|]. by apply IH.
Qed.

End weak.

Arguments wr T : clear implicits.
Arguments wstate T : clear implicits.
Arguments wlabel T : clear implicits.

(** ** The invariant of runs whose retries are ordered *)

Section ordered.
Context {T : Type}.
Implicit Types (s : wstate T) (c : vc).

(** The last write to cell [i] is known at clock [c]. *)
Definition known s (i : Z) c : Prop := ∀ w, last (hist s i) = Some w → hb w c = true.

(** A thread inside the loop of [make]. *)
Definition making (p : pc T) : bool := match p with MLoaded _ _ _ | MRead _ _ _ _ => true | _ => false end.

(** What thread [t] knows of the message it compares against: its place in the
    modification order; in [make] also all that the message carries. *)
Definition expecting s (p : pc T) (h k : Z) c : Prop :=
  ∃ j m, k = Z.of_nat j ∧ log s !! j = Some m ∧ mval m = h ∧ (making p = true → vle (mview m) c).

Record winv s (L : list Z) : Prop := {
  wi_inv : inv (now s) L;
  wi_log : Z.of_nat (length (log s)) = ops (now s) + 1;
  wi_msgs k m : log s !! k = Some m →
    snapshot (mem (now s)) (head (now s)) (ops (now s)) (mval m) (Z.of_nat k);
  wi_hist i x : zget (mem (now s)) i = Some x → ∃ w, last (hist s i) = Some w ∧ w_cell w = x;
  wi_free i m : i ∈ L → last (log s) = Some m → known s i (mview m);
  wi_owned i v : owned (now s) !! i = Some v → known s i (handed s i);
  wi_held t p i : pcs (now s) !! t = Some p → transit p = Some i → known s i (clk s t);
  wi_expect t p h k : pcs (now s) !! t = Some p → expects p = Some (h, k) → expecting s p h k (clk s t);
  wi_race : used_race s = false }.

Lemma hb_mono (w : wr T) c c' : vle c c' → hb w c = true → hb w c' = true.
Proof. intros Hc H. apply Nat.leb_le in H. apply Nat.leb_le. specialize (Hc (w_thread w)). lia. Qed.

Lemma known_mono s i c c' : vle c c' → known s i c → known s i c'.
Proof. intros Hc H w Hw. by eapply hb_mono, H. Qed.

Lemma vjoin_l a b : vle a (vjoin a b).
Proof. intros t. unfold vjoin. lia. Qed.

Lemma vjoin_r a b : vle b (vjoin a b).
Proof. intros t. unfold vjoin. lia. Qed.

Lemma vle_refl a : vle a a.
Proof. intros t. lia. Qed.

Lemma vle_trans a b c : vle a b → vle b c → vle a c.
Proof. intros H1 H2 t. specialize (H1 t). specialize (H2 t). lia. Qed.

Lemma clk_grow (f : nat → vc) t c t' : vle (f t) c → vle (f t') (<[t := c]> f t').
Proof.
  intros H. destruct (decide (t = t')) as [<-|Hne]; [by rewrite fn_lookup_insert|].
  rewrite fn_lookup_insert_ne by done. apply vle_refl.
Qed.

Lemma unordered_known s i c x :
  known s i c → (∃ w, last (hist s i) = Some w ∧ w_cell w = x) → unordered i c s = false.
Proof. intros Hk (w & Hw & _). unfold unordered. rewrite Hw, (Hk w Hw). done. Qed.

(** The newest message. *)
Lemma last_msg s L m j :
  winv s L → log s !! j = Some m → Z.of_nat j = ops (now s) → last (log s) = Some m ∧ mval m = head (now s).
Proof.
  intros [] Hm Hj. split.
  - rewrite last_lookup, <-Hm. f_equal. lia.
  - destruct (wi_msgs0 j m Hm) as (_ & _ & _ & H & _). by apply H.
Qed.

(** A thread moves on without a write, possibly learning something. *)
Lemma winv_move s L t p c j :
  winv s L → (pcs (now s) !! t ≫= transit) = transit p →
  local_ok (mem (now s)) (head (now s)) (ops (now s)) p → vle (clk s t) c →
  (∀ h k, expects p = Some (h, k) → expecting s p h k c) →
  winv (with_pc t p c j s) L.
Proof.
  intros Hi Htr Hl Hc Hx. pose proof Hi as []. split; cbn; try done.
  - by apply inv_move.
  - intros t' p' i [[<- <-]|[Hne Ht']]%lookup_insert_Some Hp'.
    + rewrite fn_lookup_insert. rewrite Hp' in Htr. destruct (pcs (now s) !! t) as [q|] eqn:Eq; [|done].
      eapply known_mono; [exact Hc|]. by eapply wi_held0.
    + rewrite fn_lookup_insert_ne by done. by eapply wi_held0.
  - intros t' p' h k [[<- <-]|[Hne Ht']]%lookup_insert_Some Hp'.
    + rewrite fn_lookup_insert. by apply Hx.
    + rewrite fn_lookup_insert_ne by done. by eapply wi_expect0.
Qed.

(** Loads: the value is a snapshot; an acquire load learns its clock. *)
Lemma weak_load_spec o s L t j h c :
  winv s L → load o t j s = Some (h, c) →
  snapshot (mem (now s)) (head (now s)) (ops (now s)) h (Z.of_nat j) ∧ vle (clk s t) c ∧
  ∃ m, log s !! j = Some m ∧ mval m = h ∧ (o = Acquire → vle (mview m) c).
Proof.
  intros [] E. unfold load in E. destruct (_ <? _)%nat; [done|].
  destruct (log s !! j) as [m|] eqn:Em; [|done]. cbn in E. injection E as <- <-.
  split; [by apply wi_msgs0|]. destruct o.
  - split; [apply vle_refl|]. by exists m.
  - split; [apply vjoin_l|]. exists m. split; [done|]. split; [done|]. intros _. apply vjoin_r.
Qed.

(** A read of [next] behind a current head returns the link of the cell. *)
Lemma read_current s L t v h k j w :
  winv s L → pcs (now s) !! t = Some (MLoaded v h k) → head_idx h ≠ END → k = ops (now s) →
  hist s (head_idx h) !! j = Some w →
  existsb (λ w', hb w' (clk s t)) (drop (S j) (hist s (head_idx h))) = false →
  zget (mem (now s)) (head_idx h) = Some (w_cell w).
Proof.
  intros Hi Ht Hne Hk Hj Hlater. pose proof Hi as [].
  destruct (wi_expect0 _ _ h k Ht eq_refl) as (j0 & m & -> & Hm & Hv & Hle). specialize (Hle eq_refl).
  destruct (last_msg s L m j0 Hi Hm Hk) as [Hlast Hhd].
  pose proof (i_local _ _ wi_inv0 _ _ Ht) as Hsn. cbn in Hsn.
  destruct (head_in_chain _ _ _ _ wi_inv0 Hsn Hk Hne) as [L' ->].
  destruct (i_chain _ _ wi_inv0) as (Hi0 & _ & n & Hn & _). rewrite <-Hhd, Hv, <-head_idx_val in Hi0.
  destruct (wi_hist0 _ _ Hn) as (w0 & Hw0 & Hcell).
  assert (hb w0 (clk s t) = true) as Hhb.
  { eapply hb_mono; [exact Hle|]. by apply (wi_free0 (head_idx h) m); [by left|done|]. }
  rewrite Hn, <-Hcell. do 2 f_equal. rewrite last_lookup in Hw0.
  destruct (decide (j = pred (length (hist s (head_idx h))))) as [->|Hj'].
  { rewrite Hj in Hw0. by injection Hw0. }
  exfalso. apply lookup_lt_Some in Hj as Hlt.
  assert (existsb (λ w', hb w' (clk s t)) (drop (S j) (hist s (head_idx h))) = true) as Htrue; [|congruence].
  apply existsb_exists. exists w0. split; [|done]. apply list_elem_of_In.
  apply (list_elem_of_lookup_2 _ (pred (length (hist s (head_idx h))) - S j)). rewrite lookup_drop, <-Hw0. f_equal. lia.
Qed.

(** A write of a thread to a cell it holds, which stays with the thread or goes
    to the program. *)
Lemma known_write s t i x n j c :
  j ≠ i → known s j c → known (write t i x n s) j c.
Proof. intros Hne Hk w. cbn. rewrite fn_lookup_insert_ne by done. apply Hk. Qed.

Lemma known_written s t i x n c :
  (S (clk s t t) ≤ c t)%nat → known (write t i x n s) i c.
Proof.
  intros Hc w. cbn. rewrite fn_lookup_insert, last_snoc. intros [= <-]. apply Nat.leb_le. cbn. done.
Qed.

Lemma write_clk s t t' i x n : vle (clk s t') (clk (write t i x n s) t').
Proof.
  cbn. apply clk_grow. intros u. destruct (decide (t = u)) as [<-|Hne]; [rewrite fn_lookup_insert; lia|].
  by rewrite fn_lookup_insert_ne.
Qed.

Lemma write_clk_own s t i x n : (S (clk s t t) ≤ clk (write t i x n s) t t)%nat.
Proof. cbn. by rewrite !fn_lookup_insert. Qed.

Lemma write_hist s t i x n cells :
  (∀ j y, zget (mem (now s)) j = Some y → ∃ w, last (hist s j) = Some w ∧ w_cell w = y) →
  zset (mem (now s)) i x = Some cells →
  ∀ j y, zget cells j = Some y → ∃ w, last (hist (write t i x n s) j) = Some w ∧ w_cell w = y.
Proof.
  intros Hh Hs j y. rewrite (zget_zset _ _ _ _ _ Hs). cbn. case_decide as E.
  - subst j. intros [= <-]. rewrite fn_lookup_insert, last_snoc. by eexists.
  - intros Hj. rewrite fn_lookup_insert_ne by done. by apply Hh.
Qed.

Lemma held_known_write s L t p i x n :
  winv s L → pcs (now s) !! t = Some p → transit p = Some i →
  ∀ t' p' i', t' ≠ t → pcs (now s) !! t' = Some p' → transit p' = Some i' →
  known (write t i x n s) i' (clk (write t i x n s) t').
Proof.
  intros Hi Ht Hp t' p' i' Hne Ht' Hp'. eapply known_mono; [apply write_clk|]. apply known_write.
  - intros ->. apply Hne. by apply (held_inj (now s) L t' t p' p i (wi_inv _ _ Hi)).
  - by eapply wi_held.
Qed.

Lemma expect_mono s p h k c c' : expecting s p h k c → vle c c' → expecting s p h k c'.
Proof.
  intros (j & m & ? & ? & ? & Hle) Hf. exists j, m. split_and!; try done. intros Hp. eapply vle_trans; [by apply Hle|done].
Qed.

Lemma msgs_length s L (cells : list (cell T)) :
  winv s L → length cells = length (mem (now s)) → ∀ k m, log s !! k = Some m →
  snapshot cells (head (now s)) (ops (now s)) (mval m) (Z.of_nat k).
Proof. intros [] Hl k m Hm. specialize (wi_msgs0 k m Hm). unfold snapshot in *. by rewrite Hl. Qed.

Lemma winv_construct s L t v i cells :
  winv s L → pcs (now s) !! t = Some (MWon v i) → zset (mem (now s)) i (Data v) = Some cells →
  let s' := write t i (Data v) (State cells (head (now s)) (ops (now s)) (delete t (pcs (now s)))
                                  (<[i := v]> (owned (now s)))) s in
  winv (W (now s') (hist s') (log s') (clk s') (seen s') (<[i := clk s' t]> (handed s')) (used_race s')) L.
Proof.
  intros Hi Ht Hs s'. pose proof Hi as [].
  destruct (held_not_free _ _ _ _ _ wi_inv0 Ht eq_refl) as [HiL _].
  pose proof (held_not_owned _ _ _ _ _ wi_inv0 Ht eq_refl) as Ho.
  split; cbn -[write].
  - by apply inv_construct.
  - done.
  - apply (msgs_length s L cells Hi). by eapply zset_length.
  - by apply (write_hist s t i _ _ cells wi_hist0).
  - intros j m Hj Hm. apply known_write; [by intros ->|]. by apply wi_free0.
  - intros j u Hj. apply (lookup_insert_Some (owned (now s))) in Hj as [[<- _]|[Hne Hj]].
    + rewrite fn_lookup_insert. apply known_written, write_clk_own.
    + rewrite fn_lookup_insert_ne by done. apply known_write; [done|]. by eapply wi_owned0.
  - intros t' p' i' Ht' Hp'. apply (lookup_delete_Some (pcs (now s))) in Ht' as [Hne Ht'].
    by apply (held_known_write s L t (MWon v i) i _ _ Hi Ht eq_refl t' p').
  - intros t' p' h k Ht' Hp'. apply (lookup_delete_Some (pcs (now s))) in Ht' as [Hne Ht'].
    apply (expect_mono s p' h k (clk s t')); [by eapply wi_expect0|apply write_clk].
  - cbn. rewrite wi_race0. cbn. pose proof (wi_held0 _ _ _ Ht eq_refl) as Hk.
    destruct (zget_is_Some (mem (now s)) i) as [x Hx].
    { apply (held_not_free _ _ _ _ _ wi_inv0 Ht eq_refl). }
    by eapply unordered_known, wi_hist0.
Qed.

Lemma winv_write s L t i h k cells :
  winv s L → pcs (now s) !! t = Some (FLoaded i h k) →
  zset (mem (now s)) i (Next (Z.land h 0xFFFFFFFF)) = Some cells →
  winv (write t i (Next (Z.land h 0xFFFFFFFF))
          (State cells (head (now s)) (ops (now s)) (<[t := FWrote i h k]> (pcs (now s))) (owned (now s))) s) L.
Proof.
  intros Hi Ht Hs. set (s' := write _ _ _ _ _). pose proof Hi as [].
  destruct (held_not_free _ _ _ _ _ wi_inv0 Ht eq_refl) as [HiL Hr].
  pose proof (held_not_owned _ _ _ _ _ wi_inv0 Ht eq_refl) as Ho.
  split.
  - by apply inv_write.
  - done.
  - apply (msgs_length s L cells Hi). by eapply zset_length.
  - by apply (write_hist s t i _ _ cells wi_hist0).
  - intros j m Hj Hm. apply known_write; [by intros ->|]. by apply wi_free0.
  - intros j u Hj. change (owned (now s) !! j = Some u) in Hj.
    apply known_write; [by intros ->; congruence|]. by eapply wi_owned0.
  - intros t' p' i' Ht' Hp'. cbn [now s' write pcs] in Ht'.
    apply lookup_insert_Some in Ht' as [[<- <-]|[Hne Ht']];
      [|by apply (held_known_write s L t (FLoaded i h k) i _ _ Hi Ht eq_refl t' p')].
    injection Hp' as <-. apply known_written, write_clk_own.
  - intros t' p' h' k' Ht' Hp'. cbn [now s' write pcs] in Ht'.
    apply (expect_mono s p' h' k' (clk s t')); [|apply write_clk].
    apply lookup_insert_Some in Ht' as [[<- <-]|[Hne Ht']]; [|by eapply wi_expect0].
    by eapply (wi_expect0 t (FLoaded i h k)).
  - cbn. rewrite wi_race0. cbn. pose proof (wi_held0 _ _ _ Ht eq_refl) as Hk.
    destruct (zget_is_Some (mem (now s)) i Hr) as [x Hx]. by eapply unordered_known, wi_hist0.
Qed.

(** A successful exchange: the new message knows what the old one and the
    thread know. *)
Lemma exchange_views s L L' t m h' n' r :
  winv s L → last (log s) = Some m →
  inv n' L' → mem n' = mem (now s) → head n' = h' → ops n' = ops (now s) + 1 → owned n' = owned (now s) →
  (∀ i, i ∈ L' → i ∈ L ∨ known s i (clk s t)) →
  (∀ t' p' i, pcs n' !! t' = Some p' → transit p' = Some i → known s i (clk s t')) →
  (∀ t' p' h k, pcs n' !! t' = Some p' → expects p' = Some (h, k) →
     ∃ p, pcs (now s) !! t' = Some p ∧ expects p = Some (h, k) ∧ making p = making p') →
  winv (W n' (hist s) (log s ++ [Msg h' (vjoin (mview m) (clk s t))]) (clk s) r (handed s) (used_race s)) L'.
Proof.
  intros [] Hm Hi' Emem Ehd Eops Eown HL' Hheld Hexp. subst h'.
  split; cbn; rewrite ?Emem, ?Eops, ?Eown; try done.
  - rewrite length_app. cbn. lia.
  - intros k m' [Hk|[Hk Hm']]%lookup_app_Some.
    + by eapply snapshot_exchange, wi_msgs0.
    + apply list_lookup_singleton_Some in Hm' as [Hk' <-]. cbn. rewrite <-Eops, <-Emem.
      replace (Z.of_nat k) with (ops n') by lia. by eapply snapshot_load.
  - intros i m' Hi. rewrite last_snoc. intros [= <-]. cbn.
    destruct (HL' i Hi) as [HiL|Hk]; [|by eapply known_mono, Hk; apply vjoin_r].
    by eapply known_mono, wi_free0; [apply vjoin_l|..].
  - intros t' p' h k Ht' Hp'. destruct (Hexp _ _ _ _ Ht' Hp') as (p & Hp & Hx & Em).
    destruct (wi_expect0 _ _ _ _ Hp Hx) as (j & m' & ? & Hj & ? & Hle). exists j, m'. rewrite <-Em. split_and!; try done.
    cbn. rewrite lookup_app_l; [done|]. by eapply lookup_lt_Some.
Qed.

(** The message an exchange reads when it succeeds. *)
Lemma exchange_reads o s L t sp j h h' r won lost s' :
  winv s L → exchange o t sp j h h' r won lost s = Some s' →
  (∃ m, last (log s) = Some m ∧ head (now s) = h ∧
        s' = W (won (State (mem (now s)) h' (ops (now s) + 1) (pcs (now s)) (owned (now s)))) (hist s)
               (log s ++ [Msg h' (vjoin (mview m) (clk s t))]) (clk s) (<[t := S j]> (seen s)) (handed s)
               (used_race s || r)) ∨
  (∃ h1 c, load o t j s = Some (h1, c) ∧ s' = with_pc t (lost h1) c j s).
Proof.
  intros Hi E. unfold exchange in E. destruct (load o t j s) as [[h1 c]|] eqn:El; [|done]. cbn [mbind option_bind] in E.
  destruct (negb sp && (h1 =? h)) eqn:Ec; [|right; inv_some; by exists h1, c]. left.
  apply andb_true_iff in Ec as [_ ->%Z.eqb_eq]. destruct (S j =? length (log s))%nat eqn:Ej; [|done]. apply Nat.eqb_eq in Ej.
  destruct (weak_load_spec _ _ _ _ _ _ _ Hi El) as (_ & _ & m & Hm & Hv & _). rewrite Hm in E. cbn in E. inv_some.
  destruct (last_msg s L m j Hi Hm) as [Hlast Hhd]; [pose proof (wi_log _ _ Hi); lia|].
  exists m. split_and!; try done.
Qed.

Lemma winv_pop s L t v h n k m j :
  winv s L → pcs (now s) !! t = Some (MRead v h n k) → ops (now s) - k < 2 ^ 32 →
  last (log s) = Some m → head (now s) = h →
  ∃ L', winv (W (set_pc t (MWon v (head_idx h))
                   (State (mem (now s)) (bump h n) (ops (now s) + 1) (pcs (now s)) (owned (now s))))
                (hist s) (log s ++ [Msg (bump h n) (vjoin (mview m) (clk s t))]) (clk s) (<[t := S j]> (seen s))
                (handed s) (used_race s || unordered (head_idx h) (clk s t) s)) L'.
Proof.
  intros Hi Ht Hw Hm Hh. pose proof Hi as [].
  destruct (inv_pop _ _ _ _ _ _ _ wi_inv0 Ht Hh Hw) as (L' & -> & Hi'). exists L'.
  pose proof (i_local _ _ wi_inv0 _ _ Ht) as (Hsn & Hne & Hnext).
  pose proof (no_aba _ _ _ _ wi_inv0 Hsn Hh Hw) as Hk.
  destruct (wi_expect0 _ _ h k Ht eq_refl) as (j0 & m0 & -> & Hm0 & _ & Hle). specialize (Hle eq_refl).
  destruct (last_msg s _ m0 j0 Hi Hm0 Hk) as [Hlast _]. assert (m0 = m) as -> by congruence.
  assert (known s (head_idx h) (clk s t)) as Hkn.
  { eapply known_mono; [exact Hle|]. apply wi_free0; [by left|done]. }
  rewrite (unordered_known s _ _ (Next n) Hkn) by (apply wi_hist0, Hnext, Hk). rewrite orb_false_r.
  apply (exchange_views s (head_idx h :: L')); try done; [by intros i Hi0; left; right| |].
  - cbn. intros t' p' i [[<- <-]|[Hne' Ht']]%lookup_insert_Some Hp'; [by injection Hp' as <-|by eapply wi_held0].
  - cbn. intros t' p' h1 k1 [[<- <-]|[Hne' Ht']]%lookup_insert_Some Hp'; [done|eauto].
Qed.

Lemma winv_push s L t i h k m j :
  winv s L → pcs (now s) !! t = Some (FWrote i h k) → last (log s) = Some m → head (now s) = h →
  winv (W (exit_pc t (State (mem (now s)) (bump h i) (ops (now s) + 1) (pcs (now s)) (owned (now s))))
          (hist s) (log s ++ [Msg (bump h i) (vjoin (mview m) (clk s t))]) (clk s) (<[t := S j]> (seen s))
          (handed s) (used_race s || false)) (i :: L).
Proof.
  intros Hi Ht Hm Hh. pose proof Hi as []. rewrite orb_false_r.
  pose proof (inv_push _ _ _ _ _ _ wi_inv0 Ht Hh) as Hi'.
  apply (exchange_views s L); try done.
  - intros j' [->|Hj]%elem_of_cons; [right|by left]. by eapply wi_held0.
  - cbn. intros t' p' i' [Hne' Ht']%lookup_delete_Some Hp'. by eapply wi_held0.
  - cbn. intros t' p' h1 k1 [Hne' Ht']%lookup_delete_Some Hp'. eauto.
Qed.

Lemma winv_free s L t i v :
  winv s L → pcs (now s) !! t = None → owned (now s) !! i = Some v →
  winv (W (State (mem (now s)) (head (now s)) (ops (now s)) (<[t := FDead i]> (pcs (now s))) (delete i (owned (now s))))
          (hist s) (log s) (<[t := vjoin (clk s t) (handed s i)]> (clk s)) (seen s) (handed s) (used_race s)) L.
Proof.
  intros Hi Ht Ho. pose proof Hi as [].
  assert (∀ t', vle (clk s t') (<[t := vjoin (clk s t) (handed s i)]> (clk s) t')) as Hg
    by (intros t'; apply clk_grow, vjoin_l).
  split; cbn; try done.
  - by eapply inv_free.
  - intros i' v' [_ Hv']%lookup_delete_Some. by eapply wi_owned0.
  - intros t' p' i' [[<- <-]|[Hne Ht']]%lookup_insert_Some Hp'.
    + injection Hp' as <-. rewrite fn_lookup_insert. eapply known_mono; [apply vjoin_r|]. by eapply wi_owned0.
    + eapply known_mono; [apply Hg|]. by eapply wi_held0.
  - intros t' p' h k [[<- <-]|[Hne Ht']]%lookup_insert_Some Hp'; [done|].
    eapply expect_mono; [by eapply wi_expect0|apply Hg].
Qed.

(** A load by a thread that expects the head afterwards. *)
Lemma winv_load o s L t p j h c :
  winv s L → (pcs (now s) !! t ≫= transit) = transit p → load o t j s = Some (h, c) →
  expects p = Some (h, Z.of_nat j) → (∀ cells hd n, snapshot cells hd n h (Z.of_nat j) → local_ok cells hd n p) →
  (o = Acquire ∨ (making p = true → ∀ m, log s !! j = Some m → vle (mview m) (clk s t))) →
  winv (with_pc t p c j s) L.
Proof.
  intros Hi Htr El Hx Hl Ho. destruct (weak_load_spec _ _ _ _ _ _ _ Hi El) as (Hsn & Hc & m & Hm & Hv & Hle).
  apply winv_move; [done..|by apply Hl|done|]. rewrite Hx. intros h1 k1 [= <- <-]. exists j, m. split_and!; try done.
  intros Hp. destruct Ho as [Ho|Ho]; [by apply Hle|]. eapply vle_trans; [by apply Ho|done].
Qed.

Lemma wstep_inv o l s s' L :
  winv s L → wstep o l s = Some s' → wwindow l s = true → retry_ordered o l s = true → ∃ L', winv s' L'.
Proof.
  intros Hi E Hw Hord. pose proof (wi_inv _ _ Hi) as Hinv.
  destruct l as [t v j|t|t j g|t sp j|t|t i|t j|t]; cbn in E, Hw;
    destruct (pcs (now s) !! t) as [[v' h k|v' h n k|v' i0|i0|i0 h k|i0 h k]|] eqn:Ht;
    try discriminate E.
  - destruct (load Acquire t j s) as [[h c]|] eqn:El; cbn in E; inv_some. exists L.
    apply (winv_load Acquire s L t _ j h c); [done|by rewrite Ht|done..|by left].
  - destruct (head_idx h =? END); cbn in E; inv_some. exists L. pose proof Hi as []. split; cbn; try done.
    + apply inv_exit; [done|by rewrite Ht].
    + intros t' p' i [_ Ht']%lookup_delete_Some. by apply wi_held0.
    + intros t' p' h1 k1 [_ Ht']%lookup_delete_Some. by apply wi_expect0.
  - destruct (Z.eqb_spec (head_idx h) END) as [|Hne]; [done|].
    destruct (hist s (head_idx h) !! j) as [w|] eqn:Ej; [|done]. cbn in E.
    destruct (existsb _ _) eqn:Ex; inv_some. exists L.
    pose proof (i_local _ _ Hinv _ _ Ht) as Hsn. cbn in Hsn.
    apply winv_move; [done|by rewrite Ht| |apply vle_refl|].
    + split; [done|]. split; [done|]. intros Hk.
      pose proof (read_current _ _ _ _ _ _ _ _ Hi Ht Hne Hk Ej Ex) as Hz. rewrite Hz.
      destruct (head_in_chain _ _ _ _ Hinv Hsn Hk Hne) as [L' ->].
      destruct (i_chain _ _ Hinv) as (Hi0 & _ & n & Hn & _).
      destruct Hsn as (_ & _ & _ & Hhd & _). rewrite <-(Hhd Hk), <-head_idx_val in Hi0.
      rewrite Hn in Hz. injection Hz as <-. done.
    + intros h1 k1 [= <- <-]. by apply (wi_expect _ _ Hi t (MLoaded v' h k)).
  - destruct (exchange_reads _ _ _ _ _ _ _ _ _ _ _ _ Hi E) as [(m & Hm & Hh & ->)|(h1 & c & El & ->)].
    + apply Z.ltb_lt in Hw. by eapply winv_pop.
    + exists L. apply (winv_load o s L t _ j h1 c); [done|by rewrite Ht|done..|].
      unfold retry_ordered, uncontended in Hord. destruct o; [|by left]. right. intros _ m Hm.
      rewrite Ht in Hord. apply Z.eqb_eq in Hord as <-.
      destruct (wi_expect _ _ Hi _ _ _ _ Ht eq_refl) as (j' & m' & Ej & Hm' & _ & Hle).
      assert (j' = j) as -> by lia. rewrite Hm in Hm'. injection Hm' as <-. by apply Hle.
  - destruct (exchange_reads _ _ _ _ _ _ _ _ _ _ _ _ Hi E) as [(m & Hm & Hh & ->)|(h1 & c & El & ->)].
    + exists (i0 :: L). by eapply winv_push.
    + exists L. apply (winv_load o s L t _ j h1 c); [done|by rewrite Ht|done..|by right].
  - destruct (zset (mem (now s)) i0 (Data v')) eqn:Hs; cbn in E; inv_some. exists L. by apply winv_construct.
  - destruct (owned (now s) !! i) eqn:Ho; cbn in E; inv_some. exists L. by eapply winv_free.
  - destruct (load Acquire t j s) as [[h c]|] eqn:El; cbn in E; inv_some. exists L.
    apply (winv_load Acquire s L t _ j h c); [done|by rewrite Ht|done..|by left].
  - destruct (zset (mem (now s)) i0 _) eqn:Hs; cbn in E; inv_some. exists L. by apply winv_write.
Qed.

Lemma wstart_inv (p : pool T) L : inv (start p) L → winv (wstart p) L.
Proof.
  intros Hi. split; cbn; try done.
  - intros [|k] m; [|done]. intros [= <-]. by apply (snapshot_load (start p) L).
  - intros i c Hc. rewrite Hc. by eexists.
  - intros i m _ [= <-] w. cbn. destruct (zget (memory_ p) i); [|done]. by intros [= <-].
Qed.

Lemma wsteps_inv o s s' : (∃ L, winv s L) → rtc (wostep o) s s' → ∃ L, winv s' L.
Proof.
  apply (rtc_invariant (wostep o) (λ x, ∃ L, winv x L)).
  intros a b [L Hi] (l & E & Hw & Ho). by eapply wstep_inv.
Qed.

(** With the acquire order every run has ordered retries. *)
Lemma acquire_ordered s s' : rtc (wbstep Acquire) s s' → rtc (wostep Acquire) s s'.
Proof. intros Hr. induction Hr as [|s s1 s' (l & E & Hw) _ IH]; [apply rtc_refl|]. eapply rtc_l; [by exists l|done]. Qed.

Lemma exchange_length o t sp j h h' r won lost s s' :
  (∀ n, mem (won n) = mem n) → exchange o t sp j h h' r won lost s = Some s' →
  length (mem (now s')) = length (mem (now s)).
Proof.
  intros Hwon E. unfold exchange in E. destruct (load o t j s) as [[h1 c]|]; [|done]. cbn [mbind option_bind] in E.
  destruct (negb sp && (h1 =? h)); [|by inv_some]. destruct (S j =? length (log s))%nat; [|done].
  destruct (log s !! j); [|done]. cbn in E. inv_some. cbn. by rewrite Hwon.
Qed.

Lemma wstep_length o l s s' : wstep o l s = Some s' → length (mem (now s')) = length (mem (now s)).
Proof.
  intros E. destruct l as [t v j|t|t j g|t sp j|t|t i|t j|t]; cbn in E;
    destruct (pcs (now s) !! t) as [[v' h k|v' h n k|v' i0|i0|i0 h k|i0 h k]|]; try discriminate E.
  - destruct (load Acquire t j s) as [[h c]|]; cbn in E; by inv_some.
  - destruct (head_idx h =? END); cbn in E; by inv_some.
  - destruct (head_idx h =? END); [done|]. destruct (hist s (head_idx h) !! j); [|done]. cbn in E.
    destruct (existsb _ _); by inv_some.
  - eapply exchange_length, E. by intros [].
  - eapply exchange_length, E. by intros [].
  - destruct (zset (mem (now s)) i0 (Data v')) eqn:Hs; cbn in E; inv_some. by eapply zset_length.
  - destruct (owned (now s) !! i); cbn in E; by inv_some.
  - destruct (load Acquire t j s) as [[h c]|]; cbn in E; by inv_some.
  - destruct (zset (mem (now s)) i0 _) eqn:Hs; cbn in E; inv_some. by eapply zset_length.
Qed.

Lemma wsteps_length o s s' : rtc (wostep o) s s' → length (mem (now s')) = length (mem (now s)).
Proof.
  intros Hr. induction Hr as [|s s1 s' (l & E & _) _ IH]; [done|]. rewrite IH. by eapply wstep_length.
Qed.

(** The pool in any run with ordered retries. *)
Lemma ordered_safe o base csize cap (p : pool T) s :
  1 ≤ cap ≤ END → 0 < base → 0 < csize → base + cap * csize ≤ 2 ^ 64 →
  pool_ctor base csize cap = Some p → rtc (wostep o) (wstart p) s →
  used_race s = false ∧
  ∃ L, chain (mem (now s)) (head (now s) `mod` 2 ^ 32) L ∧
       L ++ held (pcs (now s)) ++ owned_idx (owned (now s)) ≡ₚ seqZ 0 cap ∧
       ∀ i v, owned (now s) !! i = Some v → zget (mem (now s)) i = Some (Data v).
Proof.
  intros Hcap Hb Hc He E Hr. destruct (ctor_start_inv base csize cap p) as [Hi Hlen]; [done..|].
  destruct (wsteps_inv _ _ _ (ex_intro _ _ (wstart_inv p _ Hi)) Hr) as [L HL].
  split; [apply HL|]. exists L. pose proof (wi_inv _ _ HL) as Hinv. split; [apply Hinv|]. split; [|apply Hinv].
  pose proof (i_cells _ _ Hinv) as Hcells. rewrite (wsteps_length _ _ _ Hr) in Hcells. cbn in Hcells.
  by rewrite Hlen in Hcells.
Qed.

(** C3: Release on success and acquire on failure are enough, the orders of
    slab_allocator.hpp (taken here on the cells of the pool, whose link and object
    share their bytes; the slab keeps [next_free] beside the object, so that fewer
    accesses of it meet).  Whatever the number of threads, the messages of
    [free_head_] their loads return and the outdated words their reads of [next]
    may return (inside the tag window): every cell is in exactly one place, in
    the free list, with one thread, or with the program, so none is handed out
    twice; every object is intact in its cell; and no value is used, and no cell
    written, without a happens-before order after the last write to the cell. *)
Theorem slab_acquire_safe base csize cap (p : pool T) s :
  1 ≤ cap ≤ END → 0 < base → 0 < csize → base + cap * csize ≤ 2 ^ 64 →
  pool_ctor base csize cap = Some p → rtc (wbstep slab_failure) (wstart p) s →
  used_race s = false ∧
  ∃ L, chain (mem (now s)) (head (now s) `mod` 2 ^ 32) L ∧
       L ++ held (pcs (now s)) ++ owned_idx (owned (now s)) ≡ₚ seqZ 0 cap ∧
       ∀ i v, owned (now s) !! i = Some v → zget (mem (now s)) i = Some (Data v).
Proof. intros Hcap Hb Hc He E Hr. apply (ordered_safe Acquire base csize cap p); try done. by apply acquire_ordered. Qed.

(** C2: The pool of core.hpp under its own memory orders (acquire loads, release on
    success, relaxed on failure).  Any number of threads may run [make] and [free]
    in any interleaving, [free] may lose its exchange to another thread and retry,
    loads of the head may be stale and reads of [next] outdated, inside the tag
    window.  As long as no [make] is contended, that is, its exchange fails only
    spuriously and not because another thread has moved the head: every cell is in
    exactly one place, in the free list, with one thread inside a call, or with the
    program, so no cell is handed out twice and none is lost; every object is intact
    in its cell; and no value is used, and no cell written, without a
    happens-before order after the last write to the cell.  (A contended retry of
    [make] is not ordered: [pool_relaxed_retry_corrupts].) *)
Theorem pool_uncontended_safe base csize cap (p : pool T) s :
  1 ≤ cap ≤ END → 0 < base → 0 < csize → base + cap * csize ≤ 2 ^ 64 →
  pool_ctor base csize cap = Some p → rtc (wostep pool_failure) (wstart p) s →
  used_race s = false ∧
  ∃ L, chain (mem (now s)) (head (now s) `mod` 2 ^ 32) L ∧
       L ++ held (pcs (now s)) ++ owned_idx (owned (now s)) ≡ₚ seqZ 0 cap ∧
       ∀ i v, owned (now s) !! i = Some v → zget (mem (now s)) i = Some (Data v).
Proof. intros Hcap Hb Hc He E Hr. by apply (ordered_safe pool_failure base csize cap p). Qed.

End ordered.

(** ** The source's relaxed failure order *)

(** Thread 1 loads the head; thread 2 takes cells 0 and 1 and returns cell 0.
    The exchange of thread 1 fails and reloads the head, relaxed: it does not
    learn of the link thread 2 wrote, and its next read of [next] may return the
    old one.  The tag is current, so the exchange succeeds and cell 1, which
    thread 2 holds, is the head of the list. *)
Definition relaxed_schedule : list (wlabel Z) :=
  [WMake 1 100 0; WRead 1 0 0;
   WMake 2 200 0; WRead 2 0 0; WCas 2 false 0; WConstruct 2;
   WMake 2 201 1; WRead 2 0 0; WCas 2 false 1; WConstruct 2;
   WFree 2 0; WLoad 2 2; WWrite 2; WCas 2 false 2;
   WCas 1 false 3; WRead 1 0 0; WCas 1 false 3; WConstruct 1;
   WMake 1 101 4; WRead 1 1 0; WCas 1 false 4].

Definition observed (s : wstate Z) := (used_race s, pcs (now s) !! 1%nat, owned (now s) !! 1).

(** C17: The retry of the pool is not ordered.  A compare-and-swap that fails in
    [make] reloads the head with [memory_order_relaxed], so nothing orders the
    following read of [memory_[idx].next] after the [free] that linked the cell:
    the read may return an outdated link, the next exchange succeeds with it,
    and a cell that the program holds is handed out a second time. *)
Theorem pool_relaxed_retry_corrupts :
  ∃ p s, pool_ctor 4096 64 3 = Some p ∧ rtc (wbstep pool_failure) (wstart p) s ∧
         used_race s = true ∧ pcs (now s) !! 1%nat = Some (MWon 101 1) ∧ owned (now s) !! 1 = Some 201.
Proof.
  destruct (pool_ctor 4096 64 3) as [p|] eqn:E; [|discriminate E].
  destruct (wexec pool_failure relaxed_schedule (wstart p)) as [s|] eqn:Es;
    [|exfalso; vm_compute in E; injection E as <-; vm_compute in Es; discriminate Es].
  exists p, s. split; [done|]. split; [by apply (wexec_steps _ relaxed_schedule)|].
  assert (observed <$> wexec pool_failure relaxed_schedule (wstart p) = Some (observed s)) as Eo by by rewrite Es.
  assert (observed s = (true, Some (MWon 101 1), Some 201)) as Ho.
  { clear Es. destruct (observed s). vm_compute in E. injection E as <-. vm_compute in Eo. by simplify_eq. }
  by injection Ho.
Qed.

(** With acquire, the second read of thread 1 has to return the new link. *)
Example acquire_retry_reads_new_link :
  (p ← pool_ctor 4096 64 3; s ← wexec slab_failure (take 15 relaxed_schedule) (wstart p);
   Some (match wstep slab_failure (WRead 1 0 0) s with Some _ => true | None => false end,
         match wstep slab_failure (WRead 1 2 0) s with Some _ => true | None => false end)) = Some (false, true).
Proof. vm_compute. reflexivity. Qed.

(** The same threads with the slab's orders: thread 1 retries with the new
    link and gets cell 0. *)
Definition acquire_schedule : list (wlabel Z) :=
  take 15 relaxed_schedule ++ [WRead 1 2 0; WCas 1 false 3; WConstruct 1].

Lemma slab_acquire_safe_witness :
  ∃ p s, pool_ctor 4096 64 3 = Some p ∧ wexec slab_failure acquire_schedule (wstart p) = Some s ∧
    used_race s = false ∧ ∃ L, L ++ held (pcs (now s)) ++ owned_idx (owned (now s)) ≡ₚ [0; 1; 2].
Proof.
  destruct (pool_ctor 4096 64 3) as [p|] eqn:E; [|discriminate E].
  destruct (wexec slab_failure acquire_schedule (wstart p)) as [s|] eqn:Es;
    [|exfalso; vm_compute in E; injection E as <-; vm_compute in Es; discriminate Es].
  exists p, s. split; [done|]. split; [done|].
  destruct (slab_acquire_safe 4096 64 3 p s) as (Hr & L & _ & HL & _);
    [unfold END; lia..|done|by apply (wexec_steps _ acquire_schedule)|].
  split; [done|]. by exists L.
Defined.

(** Two threads free at the same time, with the relaxed order: the exchange of
    thread 2 loses and retries, also spuriously; then thread 1 makes again. *)
Definition uncontended_schedule : list (wlabel Z) :=
  [WMake 1 100 0; WRead 1 0 0; WCas 1 false 0; WConstruct 1;
   WMake 1 101 1; WRead 1 0 0; WCas 1 true 1; WRead 1 0 0; WCas 1 false 1; WConstruct 1;
   WFree 1 0; WLoad 1 2; WWrite 1; WFree 2 1; WLoad 2 2; WWrite 2;
   WCas 1 false 2; WCas 2 false 3; WWrite 2; WCas 2 true 3; WWrite 2; WCas 2 false 3;
   WMake 1 102 4; WRead 1 4 0; WCas 1 false 4; WConstruct 1].

Lemma pool_uncontended_safe_witness :
  ∃ p s, pool_ctor 4096 64 3 = Some p ∧ woexec pool_failure uncontended_schedule (wstart p) = Some s ∧
    owned (now s) = {[1 := 102]} ∧ used_race s = false ∧
    ∃ L, L ++ held (pcs (now s)) ++ owned_idx (owned (now s)) ≡ₚ [0; 1; 2].
Proof.
  destruct (pool_ctor 4096 64 3) as [p|] eqn:E; [|discriminate E].
  destruct (woexec pool_failure uncontended_schedule (wstart p)) as [s|] eqn:Es;
    [|exfalso; vm_compute in E; injection E as <-; vm_compute in Es; discriminate Es].
  exists p, s. split; [done|]. split; [done|].
  destruct (pool_uncontended_safe 4096 64 3 p s) as (Hr & L & _ & HL & _);
    [unfold END; lia..|done|by apply (woexec_steps _ uncontended_schedule)|].
  split; [|split; [done|by exists L]].
  assert ((λ s, owned (now s)) <$> woexec pool_failure uncontended_schedule (wstart p) = Some (owned (now s))) as Eo by by rewrite Es.
  clear -E Eo. generalize dependent (owned (now s)). intros o Eo. vm_compute in E. injection E as <-. vm_compute in Eo. by injection Eo as <-.
Defined.

End PoolWeak.
