(* ===== verification/PoolProgress.v ===== *)
(** * The pool's progress (include/conduit/core.hpp, layer 4)

    The loops of [make] and [free] under the memory orders of PoolWeak.v, for
    either order of a failed exchange: how many steps a thread may take, counted
    from the schedule, and that a thread inside a call is never stuck. *)

From stdpp Require Import functions.
From S2P Require Import Prelude EventPtr Interfaces Pool PoolConcurrent PoolWeak.
Import PoolMT PoolWeak.

Local Open Scope nat_scope.

Section progress.
Context {T : Type}.
Implicit Types (s : wstate T) (l : wlabel T) (ls : list (wlabel T)) (q : pc T).

(** The thread of a step, whether the step enters a call, and whether it is an
    exchange that fails spuriously. *)
Definition wthread l : nat :=
  match l with
  | WMake t _ _ | WEmpty t | WRead t _ _ | WCas t _ _ | WConstruct t | WFree t _
  | WLoad t _ | WWrite t => t
  end.

Definition is_call l : bool := match l with WMake _ _ _ | WFree _ _ => true | _ => false end.
Definition is_spurious l : bool := match l with WCas _ sp _ => sp | _ => false end.

Definition count (f : wlabel T → bool) ls : nat := length (List.filter f ls).

(** The steps of thread [t], its calls and its spurious failures. *)
Definition steps_of t ls : nat := count (λ l, wthread l =? t) ls.
Definition calls_of t ls : nat := count (λ l, (wthread l =? t) && is_call l) ls.
Definition spurious_of t ls : nat := count (λ l, (wthread l =? t) && is_spurious l) ls.

(** The exchanges that have succeeded so far. *)
Definition wins s : nat := length (log s) - 1.

(** Any schedule, without the tag window. *)
Fixpoint wrun (o : order) ls s : option (wstate T) :=
  match ls with
  | [] => Some s
  | l :: ls' => s' ← wstep o l s; wrun o ls' s'
  end.

(** The steps of the shortest rest of a call. *)
Definition rest q : nat :=
  match q with
  | MLoaded _ _ _ => 3 | MRead _ _ _ _ => 2 | MWon _ _ => 1
  | FDead _ => 3 | FLoaded _ _ _ => 2 | FWrote _ _ _ => 1
  end.

Definition rest_of t s : nat := from_option rest 0 (pcs (now s) !! t).

(** A call that has not won its exchange. *)
Definition open_call q : option unit := match q with MWon _ _ => None | _ => Some () end.

(** A thread compares against the message it has read last. *)
Record pinv s : Prop := {
  p_log : 0 < length (log s);
  p_seen t : seen s t < length (log s);
  p_expect t q h k : pcs (now s) !! t = Some q → expects q = Some (h, k) →
    k = Z.of_nat (seen s t) ∧ ∃ m, log s !! seen s t = Some m ∧ mval m = h }.

Lemma load_message o t j s h c :
  load o t j s = Some (h, c) → seen s t ≤ j ∧ j < length (log s) ∧ ∃ m, log s !! j = Some m ∧ mval m = h.
Proof.
  unfold load. destruct (Nat.ltb_spec j (seen s t)); [done|]. destruct (log s !! j) as [m|] eqn:Em; [|done].
  cbn. intros [= <- _]. split; [done|]. split; [by eapply lookup_lt_Some|]. by exists m.
Qed.

(** An exchange: it wins with the newest message, or it fails and the thread has
    read message [j]; unless the failure is spurious, [j] is not the message it
    compared against. *)
Lemma exchange_cases o t sp j h h' r won lost s s' :
  exchange o t sp j h h' r won lost s = Some s' →
  (∃ m r', log s !! j = Some m ∧ S j = length (log s) ∧
     s' = W (won (State (mem (now s)) h' (ops (now s) + 1)%Z (pcs (now s)) (owned (now s)))) (hist s)
            (log s ++ [Msg h' (vjoin (mview m) (clk s t))]) (clk s) (<[t := S j]> (seen s)) (handed s) r') ∨
  (∃ v c, load o t j s = Some (v, c) ∧ (sp = true ∨ v ≠ h) ∧ s' = with_pc t (lost v) c j s).
Proof.
  intros E. unfold exchange in E. destruct (load o t j s) as [[v c]|]; [|done]. cbn [mbind option_bind] in E.
  destruct (negb sp && (v =? h)%Z) eqn:Ev.
  - destruct (Nat.eqb_spec (S j) (length (log s))); [|done]. destruct (log s !! j) as [m|]; [|done]. cbn in E. inv_some.
    left. by exists m, (used_race s || r).
  - inv_some. right. exists v, c. split; [done|]. split; [|done]. apply andb_false_iff in Ev as [Hs|Hv]; [left; by destruct sp|].
    right. by apply Z.eqb_neq.
Qed.

Lemma pinv_start (p : pool T) : pinv (wstart p).
Proof. split; cbn; [lia|lia|]. by intros t q h k H. Qed.

Lemma pinv_load o s t j h c q :
  pinv s → load o t j s = Some (h, c) → (∀ h' k, expects q = Some (h', k) → h' = h ∧ k = Z.of_nat j) →
  pinv (with_pc t q c j s).
Proof.
  intros [] El Hq. destruct (load_message _ _ _ _ _ _ El) as (Hs & Hj & Hm). split; cbn; [done| |].
  - intros t'. destruct (decide (t = t')) as [<-|]; [by rewrite fn_lookup_insert|by rewrite fn_lookup_insert_ne].
  - intros t' q' h' k [[<- <-]|[Hne Ht']]%lookup_insert_Some He.
    + rewrite fn_lookup_insert. by destruct (Hq _ _ He) as [-> ->].
    + rewrite fn_lookup_insert_ne by done. by eapply p_expect0.
Qed.

(** A successful exchange: the thread expects nothing afterwards. *)
Lemma pinv_win s t h' j pcs' n v r :
  pinv s → S j = length (log s) →
  (∀ t' q, pcs' !! t' = Some q → (t' ≠ t ∧ pcs (now s) !! t' = Some q) ∨ expects q = None) → pcs n = pcs' →
  pinv (W n (hist s) (log s ++ [Msg h' v]) (clk s) (<[t := S j]> (seen s)) (handed s) r).
Proof.
  intros [] Hj Hp Hn. split; cbn.
  - rewrite length_app. cbn. lia.
  - intros t'. rewrite length_app. cbn. destruct (decide (t = t')) as [<-|]; [rewrite fn_lookup_insert; lia|].
    rewrite fn_lookup_insert_ne by done. specialize (p_seen0 t'). lia.
  - rewrite Hn. intros t' q h k Ht He. destruct (Hp _ _ Ht) as [[Hne Ht']|Hx]; [|by rewrite He in Hx].
    rewrite fn_lookup_insert_ne by done. destruct (p_expect0 _ _ _ _ Ht' He) as (-> & m & Hm & <-).
    split; [done|]. exists m. split; [|done]. by apply lookup_app_l_Some.
Qed.

(** The threads move on without the head. *)
Lemma pinv_pcs s n hs ck sn hd r :
  pinv s → (∀ t, sn t = seen s t) →
  (∀ t q h k, pcs n !! t = Some q → expects q = Some (h, k) →
     ∃ q', pcs (now s) !! t = Some q' ∧ expects q' = Some (h, k)) →
  pinv (W n hs (log s) ck sn hd r).
Proof.
  intros [] Hs Hp. split; cbn; [done|intros t; by rewrite Hs|]. intros t q h k Ht He. rewrite Hs. destruct (Hp _ _ _ _ Ht He) as (q' & Ht' & He').
  by eapply p_expect0.
Qed.

Lemma wstep_pinv o l s s' : pinv s → wstep o l s = Some s' → pinv s'.
Proof.
  intros Hi E. destruct l as [t v j|t|t j g|t sp j|t|t i|t j|t]; cbn in E;
    destruct (pcs (now s) !! t) as [[v' h k|v' h n k|v' i0|i0|i0 h k|i0 h k]|] eqn:Ht; try discriminate E.
  - destruct (load Acquire t j s) as [[h c]|] eqn:El; cbn in E; inv_some. eapply pinv_load; [done..|]. by intros ?? [= <- <-].
  - destruct (head_idx h =? END)%Z; cbn in E; inv_some. apply pinv_pcs; [done..|]. cbn.
    intros t' q h' k' [_ Ht']%lookup_delete_Some He. by exists q.
  - destruct (head_idx h =? END)%Z; [done|]. destruct (hist s (head_idx h) !! j); [|done]. cbn in E.
    destruct (existsb _ _); inv_some. apply pinv_pcs; [done| |].
    { intros t'. destruct (decide (t = t')) as [<-|]; [by rewrite fn_lookup_insert|by rewrite fn_lookup_insert_ne]. }
    cbn. intros t' q h' k' [[<- <-]|[Hne Ht']]%lookup_insert_Some He; [|by exists q].
    by exists (MLoaded v' h k).
  - destruct (exchange_cases _ _ _ _ _ _ _ _ _ _ _ E) as [(m & r & Hm & Hj & ->)|(h1 & c & El & _ & ->)].
    + eapply pinv_win; [done..| |done]. cbn. intros t' q [[<- <-]|[Hne Ht']]%lookup_insert_Some; [by right|left; by split].
    + eapply pinv_load; [done..|]. by intros ?? [= <- <-].
  - destruct (exchange_cases _ _ _ _ _ _ _ _ _ _ _ E) as [(m & r & Hm & Hj & ->)|(h1 & c & El & _ & ->)].
    + eapply pinv_win; [done..| |done]. cbn. intros t' q [Hne Ht']%lookup_delete_Some. left. by split.
    + eapply pinv_load; [done..|]. by intros ?? [= <- <-].
  - destruct (zset (mem (now s)) i0 (Data v')); cbn in E; inv_some. apply pinv_pcs; [done..|]. cbn.
    intros t' q h' k' [_ Ht']%lookup_delete_Some He. by exists q.
  - destruct (owned (now s) !! i); cbn in E; inv_some. apply pinv_pcs; [done..|]. cbn.
    intros t' q h' k' [[<- <-]|[Hne Ht']]%lookup_insert_Some He; [done|by exists q].
  - destruct (load Acquire t j s) as [[h c]|] eqn:El; cbn in E; inv_some. eapply pinv_load; [done..|]. by intros ?? [= <- <-].
  - destruct (zset (mem (now s)) i0 _); cbn in E; inv_some. apply pinv_pcs; [done..|]. cbn.
    intros t' q h' k' [[<- <-]|[Hne Ht']]%lookup_insert_Some He; [|by exists q]. by exists (FLoaded i0 h k).
Qed.

(** Runs the step of [E] to its end. *)
Ltac run_step E :=
  lazymatch type of E with
  | exchange _ _ _ _ _ _ _ _ _ _ = Some _ =>
      destruct (exchange_cases _ _ _ _ _ _ _ _ _ _ _ E) as [(? & ? & _ & _ & ->)|(? & ? & _ & _ & ->)]; clear E
  | _ =>
      repeat match type of E with
      | context [load ?o ?t ?j ?s] => destruct (load o t j s) as [[? ?]|]; try discriminate E; cbn in E
      | context [Z.eqb (head_idx ?h) END] => destruct (head_idx h =? END)%Z; try discriminate E; cbn in E
      | context [hist ?s ?i !! ?j] => destruct (hist s i !! j); try discriminate E; cbn in E
      | context [existsb ?f ?l] => destruct (existsb f l); try discriminate E; cbn in E
      | context [zset ?l ?i ?x] => destruct (zset l i x); try discriminate E; cbn in E
      | context [owned ?s !! ?i] => destruct (owned s !! i); try discriminate E; cbn in E
      end; injection E as <-
  end.

(** The other threads stay where they are, and nobody forgets a message. *)
Lemma wstep_frame o l s s' t :
  wstep o l s = Some s' → wthread l ≠ t → pcs (now s') !! t = pcs (now s) !! t ∧ seen s' t = seen s t.
Proof.
  intros E Hne. destruct l as [t0 v j|t0|t0 j g|t0 sp j|t0|t0 i|t0 j|t0]; cbn in E, Hne;
    destruct (pcs (now s) !! t0) as [[v' h k|v' h n k|v' i0|i0|i0 h k|i0 h k]|]; try discriminate E.
  all: run_step E; cbn; rewrite ?lookup_insert_ne, ?lookup_delete_ne, ?fn_lookup_insert_ne by done; try done.
Qed.

(** What one step costs its thread. *)
Lemma wstep_cost o l s s' :
  pinv s → wstep o l s = Some s' →
  1 + rest_of (wthread l) s' + 2 * seen s (wthread l) ≤
  rest_of (wthread l) s + (if is_call l then 4 else 0) + (if is_spurious l then 2 else 0) + 2 * seen s' (wthread l).
Proof.
  intros Hi E. unfold rest_of. destruct l as [t v j|t|t j g|t sp j|t|t i|t j|t]; cbn in E |- *;
    destruct (pcs (now s) !! t) as [[v' h k|v' h n k|v' i0|i0|i0 h k|i0 h k]|] eqn:Ht; try discriminate E.
  - destruct (load Acquire t j s) as [[h c]|] eqn:El; cbn in E; inv_some. apply load_message in El as (? & _).
    cbn. rewrite lookup_insert_eq, fn_lookup_insert. cbn. lia.
  - destruct (head_idx h =? END)%Z; cbn in E; inv_some. cbn. rewrite lookup_delete_eq. cbn. lia.
  - destruct (head_idx h =? END)%Z; [done|]. destruct (hist s (head_idx h) !! j); [|done]. cbn in E.
    destruct (existsb _ _); inv_some. cbn. rewrite lookup_insert_eq, fn_lookup_insert. cbn. lia.
  - destruct (p_expect _ Hi _ _ _ _ Ht eq_refl) as (-> & m0 & Hm0 & Hv). pose proof (p_seen _ Hi t).
    destruct (exchange_cases _ _ _ _ _ _ _ _ _ _ _ E) as [(m & r & Hm & Hj & ->)|(h1 & c & El & Hf & ->)]; cbn;
      rewrite lookup_insert_eq, fn_lookup_insert; cbn; [lia|]. apply load_message in El as (Hs & _ & m & Hm & Hv1).
    destruct Hf as [->|Hne]; [lia|]. assert (seen s t ≠ j) by (intros <-; rewrite Hm in Hm0; by simplify_eq). lia.
  - destruct (p_expect _ Hi _ _ _ _ Ht eq_refl) as (-> & m0 & Hm0 & Hv). pose proof (p_seen _ Hi t).
    destruct (exchange_cases _ _ _ _ _ _ _ _ _ _ _ E) as [(m & r & Hm & Hj & ->)|(h1 & c & El & Hf & ->)]; cbn;
      rewrite ?lookup_insert_eq, ?lookup_delete_eq, fn_lookup_insert; cbn; [lia|].
    apply load_message in El as (Hs & _ & m & Hm & Hv1).
    destruct Hf as [->|Hne]; [lia|]. assert (seen s t ≠ j) by (intros <-; rewrite Hm in Hm0; by simplify_eq). lia.
  - destruct (zset (mem (now s)) i0 (Data v')); cbn in E; inv_some. cbn. rewrite lookup_delete_eq. cbn. lia.
  - destruct (owned (now s) !! i); cbn in E; inv_some. cbn. rewrite lookup_insert_eq. cbn. lia.
  - destruct (load Acquire t j s) as [[h c]|] eqn:El; cbn in E; inv_some. apply load_message in El as (? & _).
    cbn. rewrite lookup_insert_eq, fn_lookup_insert. cbn. lia.
  - destruct (zset (mem (now s)) i0 _); cbn in E; inv_some. cbn. rewrite lookup_insert_eq. cbn. lia.
Qed.

(** The number of calls that have not won. *)
Definition open_calls s : nat := size (omap open_call (pcs (now s))).

Lemma open_insert (m : gmap nat (pc T)) t q :
  size (omap open_call (<[t := q]> m)) =
  from_option (λ _, 1) 0 (open_call q) + size (omap open_call (delete t m)).
Proof.
  destruct (open_call q) eqn:Eq.
  - rewrite (omap_insert_Some _ _ _ _ _ Eq), <-insert_delete_eq, <-omap_delete. apply map_size_insert_None.
    rewrite lookup_omap, lookup_delete_eq. done.
  - rewrite omap_insert_None by done. by rewrite omap_delete.
Qed.

Lemma open_same (m : gmap nat (pc T)) t :
  size (omap open_call m) =
  from_option (λ _, 1) 0 (m !! t ≫= open_call) + size (omap open_call (delete t m)).
Proof.
  destruct (m !! t) as [q|] eqn:Et; cbn.
  - rewrite <-(insert_id _ _ _ Et) at 1. by rewrite open_insert.
  - by rewrite delete_id.
Qed.

(** Every exchange that succeeds closes a call. *)
Lemma wstep_wins o l s s' :
  wstep o l s = Some s' →
  length (log s') + open_calls s' ≤ length (log s) + open_calls s + (if is_call l then 1 else 0).
Proof.
  intros E. unfold open_calls. destruct l as [t v j|t|t j g|t sp j|t|t i|t j|t]; cbn in E |- *;
    destruct (pcs (now s) !! t) as [[v' h k|v' h n k|v' i0|i0|i0 h k|i0 h k]|] eqn:Ht; try discriminate E.
  all: pose proof (open_same (pcs (now s)) t) as Ho; rewrite Ht in Ho; cbn in Ho;
    run_step E; cbn; rewrite ?open_insert, ?length_app; cbn; lia.
Qed.

Lemma wrun_bounds o ls s s' :
  pinv s → wrun o ls s = Some s' →
  pinv s' ∧
  (∀ t, steps_of t ls + rest_of t s' + 2 * seen s t ≤ rest_of t s + 4 * calls_of t ls + 2 * spurious_of t ls + 2 * seen s' t) ∧
  length (log s') + open_calls s' ≤ length (log s) + open_calls s + count is_call ls.
Proof.
  revert s. induction ls as [|l ls IH]; intros s Hi E; cbn in E.
  { inv_some. split; [done|]. split; [|cbn; lia]. intros t. unfold steps_of, calls_of, spurious_of. cbn. lia. }
  destruct (wstep o l s) as [s1|] eqn:Es; [|done]. cbn in E.
  destruct (IH s1 (wstep_pinv _ _ _ _ Hi Es) E) as (Hi' & Hc & Hw). split; [done|]. split.
  - intros t. specialize (Hc t). unfold steps_of, calls_of, spurious_of, count in *. cbn.
    destruct (Nat.eqb_spec (wthread l) t) as [<-|Hne]; cbn.
    + pose proof (wstep_cost _ _ _ _ Hi Es). destruct (is_call l), (is_spurious l); cbn; lia.
    + destruct (wstep_frame _ _ _ _ t Es Hne) as [Hp Hs]. unfold rest_of in *. rewrite Hp, Hs in Hc. done.
  - pose proof (wstep_wins _ _ _ _ Es). unfold count in *. cbn. destruct (is_call l); cbn; lia.
Qed.

(** A thread inside a call can go on. *)
Lemma next_step o s L t q :
  winv s L → pinv s → pcs (now s) !! t = Some q → ∃ l s', wthread l = t ∧ wstep o l s = Some s'.
Proof.
  intros Hi Hp Ht. pose proof (wi_inv _ _ Hi) as Hinv.
  assert (∀ o', ∃ h c, load o' t (length (log s) - 1) s = Some (h, c)) as Hload.
  { intros o'. pose proof (p_seen _ Hp t). unfold load. destruct (Nat.ltb_spec (length (log s) - 1) (seen s t)); [lia|].
    destruct (lookup_lt_is_Some_2 (log s) (length (log s) - 1)) as [m Hm]; [lia|]. rewrite Hm. cbn. by eexists _, _. }
  assert (∀ h h' r won lost, ∃ s', exchange o t false (length (log s) - 1) h h' r won lost s = Some s') as Hex.
  { intros h h' r won lost. unfold exchange. destruct (Hload o) as (v & c & El). rewrite El. cbn [mbind option_bind negb andb].
    destruct (v =? h)%Z; [|by eexists]. destruct (load_message _ _ _ _ _ _ El) as (_ & ? & m & Hm & _).
    rewrite (proj2 (Nat.eqb_eq (S _) _)) by lia. rewrite Hm. by eexists. }
  assert (∀ i x, transit q = Some i → ∃ cells, zset (mem (now s)) i x = Some cells) as Hset.
  { intros i x Hq. destruct (held_not_free (now s) L t q i Hinv Ht Hq) as [_ Hin]. rewrite zset_eq by done. by eexists. }
  pose proof (i_local _ _ Hinv t q Ht) as Hq. destruct q as [v h k|v h n k|v j|j|j h k|j h k]; cbn in Hq.
  - destruct Hq as (_ & _ & _ & _ & [He'|Hin]).
    + exists (WEmpty t). eexists. split; [done|]. cbn. by rewrite Ht, He'.
    + destruct (zget_is_Some _ _ Hin) as [c Hz]. destruct (wi_hist _ _ Hi _ _ Hz) as (w & Hw & _). rewrite last_lookup in Hw.
      exists (WRead t (pred (length (hist s (head_idx h)))) 0). eexists. split; [done|]. cbn. rewrite Ht.
      rewrite (proj2 (Z.eqb_neq _ _)) by (pose proof (i_len _ _ Hinv); lia). rewrite Hw. cbn.
      rewrite drop_ge by (apply lookup_lt_Some in Hw; lia). done.
  - destruct (Hex h (bump h n) (unordered (head_idx h) (clk s t) s) (set_pc t (MWon v (head_idx h)))
        (λ h, MLoaded v h (Z.of_nat (length (log s) - 1)))) as [s' E].
    exists (WCas t false (length (log s) - 1)), s'. split; [done|]. cbn. by rewrite Ht.
  - destruct (Hset j (Data v) eq_refl) as [cells E]. exists (WConstruct t). eexists. split; [done|]. cbn. by rewrite Ht, E.
  - destruct (Hload Acquire) as (h & c & E). exists (WLoad t (length (log s) - 1)). eexists. split; [done|]. cbn. by rewrite Ht, E.
  - destruct (Hset j (Next (Z.land h 0xFFFFFFFF)) eq_refl) as [cells E]. exists (WWrite t). eexists. split; [done|]. cbn. by rewrite Ht, E.
  - destruct (Hex h (bump h j) false (exit_pc t) (λ h, FLoaded j h (Z.of_nat (length (log s) - 1)))) as [s' E].
    exists (WCas t false (length (log s) - 1)), s'. split; [done|]. cbn. by rewrite Ht.
Qed.

(** C23: The pool is lock-free, with the order of a failed exchange that core.hpp
    has as with the one of slab_allocator.hpp.  In any schedule of any number of
    threads, whatever stale heads and outdated links they read: a thread takes at
    most four steps for each call it makes, two more for each exchange that some
    thread has won, and two more for each spurious failure of its own; and no
    more exchanges are won than there are calls.  So if a thread goes on retrying
    without spurious failures, calls of other threads go through.  And in a run
    whose contended retries are ordered (all of them with the acquire order) a
    thread inside a call always has a defined next step. *)
Theorem pool_lock_free o base csize cap (p : pool T) ls s :
  (1 ≤ cap ≤ END)%Z → (0 < base)%Z → (0 < csize)%Z → (base + cap * csize ≤ 2 ^ 64)%Z →
  pool_ctor base csize cap = Some p → wrun o ls (wstart p) = Some s →
  (∀ t, steps_of t ls ≤ 4 * calls_of t ls + 2 * wins s + 2 * spurious_of t ls) ∧
  wins s ≤ count is_call ls ∧
  (rtc (wostep o) (wstart p) s →
   ∀ t, is_Some (pcs (now s) !! t) → ∃ l s', wthread l = t ∧ wstep o l s = Some s').
Proof.
  intros Hcap Hb Hc He E Hr. destruct (wrun_bounds _ _ _ _ (pinv_start p) Hr) as (Hp & Hcost & Hw).
  unfold wins. split; [|split].
  - intros t. specialize (Hcost t). pose proof (p_seen _ Hp t). assert (rest_of t (wstart p) = 0) as Hr0 by done. rewrite Hr0 in Hcost. cbn in Hcost. lia.
  - cbn in Hw. assert (open_calls (wstart p) = 0) as H0; [|lia]. unfold open_calls. cbn. by rewrite omap_empty, map_size_empty.
  - intros Hsteps t [q Ht]. destruct (ctor_start_inv base csize cap p) as [Hi _]; [done..|].
    destruct (wsteps_inv _ _ _ (ex_intro _ _ (wstart_inv p _ Hi)) Hsteps) as [L HL]. by eapply next_step.
Qed.

End progress.

(** Thread 1 loses an exchange to thread 2, fails once more spuriously, and wins. *)
Definition contended_schedule : list (wlabel Z) :=
  [WMake 1 100%Z 0; WRead 1 0 0; WMake 2 200%Z 0; WRead 2 0 0; WCas 2 false 0; WConstruct 2;
   WCas 1 false 1; WRead 1 0 0; WCas 1 true 1; WRead 1 0 0; WCas 1 false 1; WConstruct 1].

Lemma pool_lock_free_witness :
  ∃ p s, pool_ctor 4096 64 3 = Some p ∧ wrun pool_failure contended_schedule (wstart p) = Some s ∧
    steps_of 1 contended_schedule = 8 ∧ 8 ≤ 4 * 1 + 2 * wins s + 2 * 1 ∧ wins s ≤ 2.
Proof.
  destruct (pool_ctor 4096 64 3) as [p|] eqn:E; [|discriminate E].
  destruct (wrun pool_failure contended_schedule (wstart p)) as [s|] eqn:Es;
    [|exfalso; vm_compute in E; injection E as <-; vm_compute in Es; discriminate Es].
  exists p, s. split; [done|]. split; [done|]. split; [done|].
  destruct (pool_lock_free pool_failure 4096 64 3 p contended_schedule s) as (Hs & Hw & _); [unfold END; lia..|done|done|].
  split; [exact (Hs 1)|exact Hw].
Defined.
