(* ===== verification/PoolClient.v ===== *)
(** * Programs over the pool, with its calls split (include/conduit/core.hpp, layer 4)

    The programs of examples/ and bench/ that use a pool from several threads
    are given with [make] and [free] as single steps of an [Allocator].  Here
    such a program runs over the pool of PoolWeak.v: a thread that reaches a call
    goes through the accesses of [make] or [free], interleaved with the other
    threads and under the memory orders of the source, before its next statement.

    The program sees the allocator [spool]: the cells that hold an object, and no
    order among the others; which free cell a [make] returns is up to the pool.
    An object exists from the return of [make] to the call of [free], and the
    values the program reads are those in the cells of the weak memory, which is
    part of the theorem.

    Runs are those whose contended retries are ordered ([retry_ordered]): all
    runs with the failure order of slab_allocator.hpp; with the one of core.hpp
    the runs in which no exchange of [make] loses against another thread, see
    [pool_relaxed_retry_corrupts] in PoolWeak.v for what happens otherwise. *)

From stdpp Require Import functions.
From S2P Require Import Prelude EventPtr Interfaces Pool PoolConcurrent PoolWeak PoolProgress.
Import PoolMT PoolWeak.

Local Open Scope Z_scope.

(** ** The allocator a program sees *)

Record spool (T : Type) := SPool { sp_cells : list Z; sp_live : gmap Z T }.
Arguments SPool {T}.
Arguments sp_cells {T}.
Arguments sp_live {T}.

Section spool.
Context {T : Type}.
Implicit Types (p : spool T).

Definition sp_free p : list Z := filter (λ a, sp_live p !! a = None) (sp_cells p).

(** The length of the schedule chooses the cell. *)
Definition choose (sp : list bool) (l : list Z) : option Z :=
  match l !! length sp with Some a => Some a | None => List.hd_error l end.

(** The schedule that makes [a] the choice. *)
Definition pick (a : Z) p : list bool := replicate (from_option fst 0%nat (list_find (a =.) (sp_free p))) false.

#[export] Instance spool_allocator : Allocator (spool T) T := {|
  al_make sp v p :=
    match choose sp (sp_free p) with
    | Some a => Some (a, SPool (sp_cells p) (<[a := v]> (sp_live p)))
    | None => Some (nullptr, p)
    end;
  al_free sp a p :=
    if a =? nullptr then Some p
    else match sp_live p !! a with
         | Some _ => Some (SPool (sp_cells p) (delete a (sp_live p)))
         | None => None
         end;
  al_live := sp_live;
  al_room p := length (sp_free p);
  al_inv p := NoDup (sp_cells p) ∧ (nullptr ∉ sp_cells p) ∧ (∀ a, is_Some (sp_live p !! a) → a ∈ sp_cells p) |}.

(** An assignment to a live object. *)
Definition sp_assign p (a : Z) (v : T) : option (spool T) :=
  match sp_live p !! a with
  | Some _ => Some (SPool (sp_cells p) (<[a := v]> (sp_live p)))
  | None => None
  end.

Lemma choose_elem sp l a : choose sp l = Some a → a ∈ l.
Proof.
  unfold choose. destruct (l !! length sp) eqn:E; [intros [= <-]; by eapply list_elem_of_lookup_2|].
  destruct l; [done|]. intros [= <-]. by left.
Qed.

Lemma choose_none sp l : choose sp l = None → l = [].
Proof. unfold choose. destruct (l !! length sp); [done|]. by destruct l. Qed.

Lemma choose_pick a p : a ∈ sp_free p → choose (pick a p) (sp_free p) = Some a.
Proof.
  intros Ha. unfold choose, pick. destruct (list_find_elem_of (a =.) (sp_free p) a Ha eq_refl) as [[i b] E].
  rewrite E. cbn. rewrite length_replicate. apply list_find_Some in E as (Hi & <- & _). by rewrite Hi.
Qed.

Lemma sp_free_elem p a : a ∈ sp_free p ↔ a ∈ sp_cells p ∧ sp_live p !! a = None.
Proof. unfold sp_free. rewrite list_elem_of_filter. tauto. Qed.

(** The free cells are those that are not live. *)
Lemma sp_free_count p : al_inv p → (length (sp_free p) + size (sp_live p) = length (sp_cells p))%nat.
Proof.
  intros (Hnd & _ & Hin). rewrite (size_keys (sp_live p) (filter (λ a, is_Some (sp_live p !! a)) (sp_cells p))).
  - unfold sp_free. clear. induction (sp_cells p) as [|a l IH]; [done|]. rewrite !filter_cons.
    destruct (sp_live p !! a) as [v|]; [rewrite decide_False, decide_True by (done || by eexists)|
      rewrite decide_True, decide_False by (done || by intros [])]; cbn; lia.
  - by apply NoDup_filter.
  - intros a. rewrite list_elem_of_filter. naive_solver.
Qed.

Lemma sp_assign_spec p a u v :
  al_inv p → sp_live p !! a = Some u →
  let p' := SPool (sp_cells p) (<[a := v]> (sp_live p)) in
  sp_assign p a v = Some p' ∧ al_inv p' ∧ al_room p' = al_room p.
Proof.
  intros Hp Hu p'. unfold sp_assign. rewrite Hu. split; [done|]. assert (al_inv p') as Hp'.
  { destruct Hp as (Hnd & Hn & Hin). split; [done|]. split; [done|]. intros b Hb. apply Hin. cbn in Hb.
    apply lookup_insert_is_Some in Hb as [<-|[_ Hb]]; [by eexists|done]. }
  split; [done|]. pose proof (sp_free_count _ Hp) as E1. pose proof (sp_free_count _ Hp') as E2.
  change (sp_live p') with (<[a := v]> (sp_live p)) in E2. change (sp_cells p') with (sp_cells p) in E2.
  rewrite map_size_insert_Some in E2 by by eexists. cbn [al_room spool_allocator]. lia.
Qed.

#[export] Instance spool_laws : AllocatorLaws (spool T) T.
Proof.
  assert (∀ p a v, al_inv p → a ∈ sp_cells p → al_inv (SPool (sp_cells p) (<[a := v]> (sp_live p)))) as Hins.
  { intros p a v (Hnd & Hn & Hin) Ha. split; [done|]. split; [done|]. cbn. intros b [<-|[_ Hb]]%lookup_insert_is_Some; [done|by apply Hin]. }
  assert (∀ p a, al_inv p → al_inv (SPool (sp_cells p) (delete a (sp_live p)))) as Hdel.
  { intros p a (Hnd & Hn & Hin). split; [done|]. split; [done|]. cbn. intros b [_ Hb]%lookup_delete_is_Some. by apply Hin. }
  split.
  - intros sp v p Hp H0. cbn in *. by destruct (sp_free p).
  - intros sp v p Hp H0. cbn [al_make al_live al_room spool_allocator] in *. destruct (choose sp (sp_free p)) as [a|] eqn:Ea;
      [|apply choose_none in Ea; rewrite Ea in H0; cbn in H0; lia].
    apply choose_elem, sp_free_elem in Ea as [Hc Hf]. pose proof (Hins p a v Hp Hc) as Hp'.
    exists a, (SPool (sp_cells p) (<[a := v]> (sp_live p))). split_and!; try done.
    + intros ->. by destruct Hp as (_ & ? & _).
    + pose proof (sp_free_count _ Hp) as E1. pose proof (sp_free_count _ Hp') as E2. cbn [sp_live sp_cells] in E2.
      rewrite map_size_insert_None in E2 by done. lia.
  - done.
  - intros sp a v p Hp Hl. cbn [al_free al_live al_room spool_allocator] in *.
    rewrite (proj2 (Z.eqb_neq a nullptr)), Hl by (intros ->; by destruct Hp as (_ & Hn & Hin); apply Hn, Hin; eexists).
    pose proof (Hdel p a Hp) as Hp'. eexists. split_and!; try done.
    pose proof (sp_free_count _ Hp) as E1. pose proof (sp_free_count _ Hp') as E2. cbn [sp_live sp_cells] in E2.
    pose proof (size_delete_S _ _ _ Hl). lia.
Qed.

End spool.

(** ** The programs *)

(** What a statement does to an object: end its life with [free], or assign to
    it. *)
Inductive use (T : Type) := Free (ptr : Z) | Assign (ptr : Z) (v : T).
Arguments Free {T}.
Arguments Assign {T}.

(** A program: the steps of its threads with the calls on the pool as single
    steps.  One thread, number 0, calls [make]. *)
Class Client (T St L : Type) := {
  cl_step : L → St → option St;
  cl_thread : L → nat;
  cl_pool : St → spool T;
  cl_makes : St → option T;        (* thread 0 stands at the [make] of this object *)
  cl_make : list bool → L;         (* that [make] *)
  cl_use : L → St → option (use T) }.

(** What a program has to promise: its invariant, with the number of objects it
    has made. *)
Class ClientLaws (T St L : Type) `{!Client T St L} (cap : Z) (good : St → Prop) (made : St → nat) := {
  cl_room s v : good s → cl_makes s = Some v → Z.of_nat (made s) < cap;
  cl_good_make s v sp a :
    good s → cl_makes s = Some v → choose sp (sp_free (cl_pool s)) = Some a →
    ∃ s', cl_step (cl_make sp) s = Some s' ∧ good s' ∧ made s' = S (made s) ∧
          cl_pool s' = SPool (sp_cells (cl_pool s)) (<[a := v]> (sp_live (cl_pool s)));
  cl_good_step l s s' :
    good s → cl_step l s = Some s' → (cl_thread l = 0%nat → cl_makes s = None) →
    good s' ∧ made s' = made s ∧ (cl_thread l ≠ 0%nat → cl_makes s' = cl_makes s) ∧
    match cl_use l s with
    | None => cl_pool s' = cl_pool s
    | Some (Free a) =>
        is_Some (sp_live (cl_pool s) !! a) ∧
        cl_pool s' = SPool (sp_cells (cl_pool s)) (delete a (sp_live (cl_pool s)))
    | Some (Assign a v) =>
        is_Some (sp_live (cl_pool s) !! a) ∧
        cl_pool s' = SPool (sp_cells (cl_pool s)) (<[a := v]> (sp_live (cl_pool s)))
    end }.

Section client.
Context {T St L : Type} `{!Client T St L}.
Context (o : order) (base csize cap : Z).
Implicit Types (w : wstate T) (s : St).

(** The address of a cell. *)
Definition addr (i : Z) : Z := base + i * csize.
Definition index (ptr : Z) : Z := (ptr - base) `div` csize.

(** An assignment to an object that was handed to thread [t]: a plain write to
    its cell.  (The object is given up and built anew in its cell, in one step.) *)
Definition assign (t : nat) (i : Z) (v : T) (w : wstate T) : option (wstate T) :=
  w1 ← wstep o (WFree t i) w;
  wstep o (WConstruct t) (with_pc t (MWon v i) (clk w1 t) (seen w1 t) w1).

Inductive clabel :=
  | CMake (j : nat)              (* [make]: load the head *)
  | CAccess (l : wlabel T)       (* an access inside [make] or [free] *)
  | CReturn                      (* placement new; [make] returns *)
  | CStep (l : L).               (* a statement; the call of [free], if it has one *)

(** A statement of a thread that is not inside the pool. *)
Definition statement (l : L) (w : wstate T) (s : St) : option (wstate T * St) :=
  w' ← match cl_use l s with
       | None => Some w
       | Some (Free a) => wstep o (WFree (cl_thread l) (index a)) w
       | Some (Assign a v) => assign (cl_thread l) (index a) v w
       end;
  s' ← cl_step l s;
  Some (w', s').

(** Thread [t] may go on with its program. *)
Definition outside (t : nat) (w : wstate T) (s : St) : bool :=
  bool_decide (pcs (now w) !! t = None) && negb ((t =? 0)%nat && bool_decide (is_Some (cl_makes s))).

(** A [make] that finds the pool exhausted has no step, see [client_next]. *)
Definition cstep (l : clabel) (x : wstate T * St) : option (wstate T * St) :=
  let '(w, s) := x in
  match l with
  | CMake j => v ← cl_makes s; w' ← wstep o (WMake 0 v j) w; Some (w', s)
  | CAccess l =>
      match l with
      | WRead _ _ _ | WCas _ _ _ | WLoad _ _ | WWrite _ => w' ← wstep o l w; Some (w', s)
      | _ => None
      end
  | CReturn =>
      match pcs (now w) !! 0%nat with
      | Some (MWon v i) =>
          w' ← wstep o (WConstruct 0) w;
          s' ← cl_step (cl_make (pick (addr i) (cl_pool s))) s;
          Some (w', s')
      | _ => None
      end
  | CStep l => if outside (cl_thread l) w s then statement l w s else None
  end.

(** Inside the tag window, and not a contended retry with the relaxed order. *)
Definition cordered (l : clabel) (w : wstate T) : bool :=
  match l with CAccess l => wwindow l w && retry_ordered o l w | _ => true end.

Definition costep (x y : wstate T * St) : Prop := ∃ l, cstep l x = Some y ∧ cordered l x.1 = true.

Fixpoint crun (ls : list clabel) (x : wstate T * St) : option (wstate T * St) :=
  match ls with
  | [] => Some x
  | l :: ls' => if cordered l x.1 then y ← cstep l x; crun ls' y else None
  end.

Lemma crun_steps ls x y : crun ls x = Some y → rtc costep x y.
Proof.
  revert x. induction ls as [|l ls IH]; intros x E; cbn in E; [inv_some; apply rtc_refl|].
  destruct (cordered l x.1) eqn:Eo; [|done]. destruct (cstep l x) as [y1|] eqn:Ey; [|done].
  eapply rtc_l; [by exists l|by apply IH].
Qed.

(** The fresh pool, as the program sees it. *)
Definition sfresh : spool T := SPool (addr <$> seqZ 0 cap) ∅.

(** ** The invariant *)

Context (good : St → Prop) (made : St → nat) `{!ClientLaws T St L cap good made}.
Context (Hbase : 0 < base) (Hcsize : 0 < csize) (Hcap : 1 ≤ cap ≤ END).

(** The cells that are not in the free list, and whether a [make] has just won
    its exchange. *)
Definition out (w : wstate T) : nat := (length (held (pcs (now w))) + size (owned (now w)))%nat.
Definition won (w : wstate T) : nat := match pcs (now w) !! 0%nat with Some (MWon _ _) => 1%nat | _ => 0%nat end.

(** The object of the [make] a thread is inside of. *)
Definition made_by (p : pc T) : option T :=
  match p with MLoaded v _ _ | MRead v _ _ _ | MWon v _ => Some v | _ => None end.

Record cinv (w : wstate T) (s : St) : Prop := {
  cv_weak : ∃ L, winv w L;
  cv_head : pinv w;
  cv_cells : Z.of_nat (length (mem (now w))) = cap;
  cv_good : good s;
  cv_pool : sp_cells (cl_pool s) = addr <$> seqZ 0 cap;
  cv_live i : sp_live (cl_pool s) !! addr i = owned (now w) !! i;
  cv_keys a : is_Some (sp_live (cl_pool s) !! a) → ∃ i, a = addr i;
  cv_maker t p v : pcs (now w) !! t = Some p → made_by p = Some v → t = 0%nat ∧ cl_makes s = Some v;
  cv_out : (out w ≤ made s + won w)%nat;
  cv_full k m : log w !! k = Some m → head_idx (mval m) = END → cap ≤ Z.of_nat (made s + won w) }.

Lemma addr_inj i j : addr i = addr j → i = j.
Proof using Hcsize. unfold addr. intros E. nia. Qed.

Lemma index_addr i : index (addr i) = i.
Proof using Hcsize. unfold index, addr. replace (base + i * csize - base) with (i * csize) by lia. apply Z.div_mul. lia. Qed.

(** What the accesses of the calls change. *)
Definition access (l : wlabel T) : bool :=
  match l with WRead _ _ _ | WCas _ _ _ | WLoad _ _ | WWrite _ => true | WMake t _ _ => (t =? 0)%nat | _ => false end.

Record effect (l : wlabel T) (w w' : wstate T) : Prop := {
  ef_owned : owned (now w') = owned (now w);
  ef_out : (out w' + won w ≤ out w + won w')%nat;
  ef_won : (won w ≤ won w')%nat;
  ef_log k m : log w' !! k = Some m → log w !! k = Some m ∨ mval m = head (now w');
  ef_maker t p v : pcs (now w') !! t = Some p → made_by p = Some v →
    (∃ j, l = WMake t v j) ∨ ∃ p', pcs (now w) !! t = Some p' ∧ made_by p' = Some v }.

(** A thread moves without a change of the head. *)
Lemma effect_move l w t q c j :
  (pcs (now w) !! t ≫= transit) = transit q → (∀ i v, q ≠ MWon v i) → (∀ i v, pcs (now w) !! t ≠ Some (MWon v i)) →
  (∀ v, made_by q = Some v → (∃ j, l = WMake t v j) ∨ ∃ p, pcs (now w) !! t = Some p ∧ made_by p = Some v) →
  effect l w (with_pc t q c j w).
Proof.
  intros Ht Hq Hw Hm. split; cbn; auto.
  - unfold out, won. cbn. rewrite held_same by done. destruct (decide (t = 0%nat)) as [->|Hne].
    + rewrite lookup_insert_eq. destruct (pcs (now w) !! 0%nat) as [[]|]; destruct q; try lia; naive_solver.
    + by rewrite lookup_insert_ne.
  - unfold won. cbn. destruct (decide (t = 0%nat)) as [->|Hne]; [|by rewrite lookup_insert_ne].
    destruct (pcs (now w) !! 0%nat) as [[]|]; try lia. naive_solver.
  - intros t' p v [[<- <-]|[Hne Ht']]%lookup_insert_Some Hv; [by apply Hm|right; by exists p].
Qed.

Lemma access_effect l w w' :
  (∀ t p v, pcs (now w) !! t = Some p → made_by p = Some v → t = 0%nat) → wstep o l w = Some w' → access l = true →
  effect l w w'.
Proof.
  intros Hm E Hl. destruct l as [t v j|t|t j g|t sp j|t|t i|t j|t]; try discriminate Hl; cbn in E;
    destruct (pcs (now w) !! t) as [[v' h k|v' h n k|v' i0|i0|i0 h k|i0 h k]|] eqn:Ht; try discriminate E.
  - destruct (load Acquire t j w) as [[h c]|]; cbn in E; inv_some. apply effect_move; rewrite ?Ht; try done.
    intros v0 [= <-]. left. by exists j.
  - destruct (head_idx h =? END); [done|]. destruct (hist w (head_idx h) !! j); [|done]. cbn in E.
    destruct (existsb _ _); inv_some. apply effect_move; rewrite ?Ht; try done. intros v0 [= <-]. right. by eexists.
  - pose proof (Hm _ _ _ Ht eq_refl) as ->.
    destruct (exchange_cases _ _ _ _ _ _ _ _ _ _ _ E) as [(m & r & Hj & _ & ->)|(h1 & c & El & _ & ->)].
    + split; cbn; auto.
      * unfold out, won. cbn. rewrite lookup_insert_eq, Ht. rewrite (held_add _ 0%nat _ (head_idx h)) by (rewrite ?Ht; done). cbn. lia.
      * unfold won. cbn. rewrite lookup_insert_eq, Ht. lia.
      * intros k' m' [Hk|[_ Hk]]%lookup_app_Some; [by left|]. apply list_lookup_singleton_Some in Hk as [_ <-]. by right.
      * intros t' p v [[<- <-]|[Hne Ht']]%lookup_insert_Some Hv; right; [|by exists p]. injection Hv as <-. by eexists.
    + apply effect_move; rewrite ?Ht; try done. intros v0 [= <-]. right. by eexists.
  - destruct (exchange_cases _ _ _ _ _ _ _ _ _ _ _ E) as [(m & r & Hj & _ & ->)|(h1 & c & El & _ & ->)].
    + split; cbn; auto.
      * unfold out, won. cbn. rewrite (held_remove (pcs (now w)) t _ i0 Ht eq_refl). cbn. destruct (decide (t = 0%nat)) as [->|Hne].
        -- rewrite lookup_delete_eq, Ht. lia.
        -- rewrite lookup_delete_ne by done. lia.
      * unfold won. cbn. destruct (decide (t = 0%nat)) as [->|Hne]; [by rewrite lookup_delete_eq, Ht|by rewrite lookup_delete_ne].
      * intros k' m' [Hk|[_ Hk]]%lookup_app_Some; [by left|]. apply list_lookup_singleton_Some in Hk as [_ <-]. by right.
      * intros t' p v [Hne Ht']%lookup_delete_Some Hv. right. by exists p.
    + by apply effect_move; rewrite ?Ht.
  - destruct (load Acquire t j w) as [[h c]|]; cbn in E; inv_some. by apply effect_move; rewrite ?Ht.
  - destruct (zset (mem (now w)) i0 _); cbn in E; inv_some. split; cbn; auto.
    + unfold out, won. cbn. rewrite held_same by by rewrite Ht. destruct (decide (t = 0%nat)) as [->|Hne].
      * by rewrite lookup_insert_eq, Ht.
      * by rewrite lookup_insert_ne.
    + unfold won. cbn. destruct (decide (t = 0%nat)) as [->|Hne]; [by rewrite lookup_insert_eq, Ht|by rewrite lookup_insert_ne].
    + intros t' p v [[<- <-]|[Hne Ht']]%lookup_insert_Some Hv; [done|right; by exists p].
Qed.

(** The free list is empty only when every cell was taken out of it. *)
Lemma head_end w :
  (∃ L, winv w L) → Z.of_nat (length (mem (now w))) = cap → head_idx (head (now w)) = END → Z.of_nat (out w) = cap.
Proof using Hcap.
  intros [fl Hi] Hlen Hh. pose proof (wi_inv _ _ Hi) as Hinv. pose proof (i_chain _ _ Hinv) as Hc.
  rewrite <-head_idx_val, Hh in Hc. assert (fl = []) as ->.
  { destruct fl as [|i fl]; [done|]. destruct Hc as (<- & _ & n & Hn & _). apply zget_Some_range in Hn. lia. }
  pose proof (Permutation_length (i_cells _ _ Hinv)) as Hp. rewrite Hlen in Hp. cbn [app] in Hp.
  rewrite length_app, length_seqZ in Hp. unfold out, owned_idx in *. rewrite length_fmap in Hp.
  rewrite length_map_to_list in Hp. lia.
Qed.

Lemma cinv_access l w s w' :
  cinv w s → wstep o l w = Some w' → access l = true → wwindow l w = true → retry_ordered o l w = true →
  (∀ t v j, l = WMake t v j → cl_makes s = Some v) → cinv w' s.
Proof using Hcap.
  intros Hi E Hl Hw Ho Hm. destruct Hi as [[fl Hweak] Hhd Hlen Hg Hp Hlv Hk Hmk Hout Hfull].
  assert (effect l w w') as [Eo Eout Ewon Elog Emk] by (apply access_effect; [intros t p v Ht Hv; by destruct (Hmk t p v Ht Hv)|done..]).
  assert (∃ fl, winv w' fl) as Hweak' by by eapply wstep_inv.
  assert (Z.of_nat (length (mem (now w'))) = cap) as Hlen' by by rewrite (wstep_length _ _ _ _ E).
  split; try done.
  - by eapply wstep_pinv.
  - intros i. by rewrite Eo.
  - intros t p v Ht Hv. destruct (Emk t p v Ht Hv) as [[j ->]|(p' & Ht' & Hv')]; [|by eapply Hmk].
    apply Nat.eqb_eq in Hl. split; [done|by eapply Hm].
  - lia.
  - intros k m Hkm Hend. destruct (Elog k m Hkm) as [Hkm'|Hv]; [pose proof (Hfull k m Hkm' Hend); lia|].
    rewrite Hv in Hend. pose proof (head_end w' Hweak' Hlen' Hend). lia.
Qed.

(** An object's cell is not free. *)
Lemma owned_range w fl i v : winv w fl → owned (now w) !! i = Some v → 0 ≤ i < Z.of_nat (length (mem (now w))).
Proof. intros Hi Ho. eapply zget_Some_range. by apply (i_data _ _ (wi_inv _ _ Hi)). Qed.

Lemma cinv_return w s w' v i :
  cinv w s → pcs (now w) !! 0%nat = Some (MWon v i) → wstep o (WConstruct 0) w = Some w' →
  ∃ s', cl_step (cl_make (pick (addr i) (cl_pool s))) s = Some s' ∧ cinv w' s'.
Proof using All.
  intros Hi Ht E. destruct Hi as [[fl Hweak] Hhd Hlen Hg Hp Hlv Hk Hmk Hout Hfull].
  assert (∃ fl, winv w' fl) as Hweak' by (eapply wstep_inv; [done..|by destruct o]).
  assert (Z.of_nat (length (mem (now w'))) = cap) as Hlen' by by rewrite (wstep_length _ _ _ _ E).
  pose proof (wstep_pinv _ _ _ _ Hhd E) as Hhd'.
  destruct (held_not_free _ _ _ _ _ (wi_inv _ _ Hweak) Ht eq_refl) as [_ Hr].
  pose proof (held_not_owned _ _ _ _ _ (wi_inv _ _ Hweak) Ht eq_refl) as Hno.
  destruct (Hmk _ _ _ Ht eq_refl) as [_ Hmakes].
  assert (addr i ∈ sp_free (cl_pool s)) as Hfree.
  { apply sp_free_elem. rewrite Hlv, Hp. split; [|done]. apply list_elem_of_fmap_2, elem_of_seqZ. lia. }
  destruct (cl_good_make s v (pick (addr i) (cl_pool s)) (addr i) Hg Hmakes (choose_pick _ _ Hfree))
    as (s' & Es & Hg' & Hmade & Hp'). exists s'. split; [done|].
  unfold out, won in *. cbn in E. rewrite Ht in E, Hout, Hfull. cbn in E.
  rewrite (held_remove _ _ _ _ Ht eq_refl) in Hout. cbn in Hout.
  destruct (zset (mem (now w)) i (Data v)) as [cells|]; [|done]. cbn in E. injection E as <-.
  split; rewrite ?Hp', ?Hmade; cbn; try done.
  - intros j. destruct (decide (i = j)) as [<-|Hne]; [by rewrite !lookup_insert_eq|].
    by rewrite !lookup_insert_ne by (done || by intros ?%addr_inj).
  - intros a [<-|[_ Ha]]%lookup_insert_is_Some; [by exists i|by apply Hk].
  - intros t p u [Hne Ht']%lookup_delete_Some Hu. by destruct (Hmk _ _ _ Ht' Hu) as [-> _].
  - unfold out, won. cbn. rewrite lookup_delete_eq, map_size_insert_None by done. lia.
  - unfold won. cbn. rewrite lookup_delete_eq. intros k m Hkm He. specialize (Hfull k m Hkm He). lia.
Qed.

(** An assignment: the object changes in its cell. *)
Lemma assign_spec w fl t i u v :
  winv w fl → pinv w → pcs (now w) !! t = None → owned (now w) !! i = Some u →
  ∃ w', assign t i v w = Some w' ∧ winv w' fl ∧ pinv w' ∧ log w' = log w ∧ pcs (now w') = pcs (now w) ∧
        owned (now w') = <[i := v]> (owned (now w)) ∧ length (mem (now w')) = length (mem (now w)).
Proof using.
  intros Hi Hp Ht Ho. unfold assign. cbn [wstep]. cbn [step]. rewrite Ht, Ho. cbn [mbind option_bind].
  set (w1 := W _ _ _ _ _ _ _). pose proof (winv_free w fl t i u Hi Ht Ho) as H1. fold w1 in H1.
  set (w2 := with_pc _ _ _ _ _).
  assert (winv w2 fl) as H2.
  { apply winv_move; [done|cbn; by rewrite lookup_insert_eq|done|apply vle_refl|done]. }
  assert (pcs (now w2) !! t = Some (MWon v i)) as Ht2 by (cbn; by rewrite lookup_insert_eq).
  destruct (held_not_free _ _ _ _ _ (wi_inv _ _ H2) Ht2 eq_refl) as [_ Hr].
  rewrite Ht2. cbn [mbind option_bind]. rewrite zset_eq by done. cbn [mbind option_bind].
  eexists. split; [done|]. split; [apply (winv_construct w2 fl t v i); [done|done|by apply zset_eq]|].
  split; [|split_and!; try done].
  - apply (pinv_pcs w); [done| |].
    { intros t'. cbn. destruct (decide (t = t')) as [<-|]; [by rewrite fn_lookup_insert|by rewrite fn_lookup_insert_ne]. }
    cbn. rewrite insert_insert_eq, delete_insert_id by done.
    intros t' q h k Hq He. by exists q.
  - cbn. by rewrite insert_insert_eq, delete_insert_id.
  - cbn. by rewrite insert_delete_eq.
  - cbn. by rewrite length_insert.
Qed.

Lemma outside_true t w s :
  outside t w s = true ↔ pcs (now w) !! t = None ∧ (t = 0%nat → cl_makes s = None).
Proof using.
  unfold outside. rewrite andb_true_iff, bool_decide_eq_true, negb_true_iff, andb_false_iff, Nat.eqb_neq, bool_decide_eq_false.
  split; intros [H1 H2]; (split; [done|]).
  - intros ->. destruct H2 as [?|H2]; [done|]. destruct (cl_makes s); [|done]. destruct H2. by eexists.
  - destruct (decide (t = 0%nat)) as [E|]; [right|by left]. rewrite (H2 E). by intros [].
Qed.

(** A statement of a thread outside the pool, on the weak memory. *)
Lemma cinv_statement l w s s' :
  cinv w s → outside (cl_thread l) w s = true → cl_step l s = Some s' →
  ∃ w', statement l w s = Some (w', s') ∧ cinv w' s' ∧
    (pcs (now w') = pcs (now w) ∨ ∃ i, pcs (now w') = <[cl_thread l := FDead i]> (pcs (now w))).
Proof using All.
  intros Hi [Ht Hm]%outside_true Es. destruct Hi as [[fl Hweak] Hhd Hlen Hg Hp Hlv Hk Hmk Hout Hfull].
  destruct (cl_good_step l s s' Hg Es Hm) as (Hg' & Hmade & Hframe & Huse).
  assert (∀ t p v, pcs (now w) !! t = Some p → made_by p = Some v → t = 0%nat ∧ cl_makes s' = Some v) as Hmk'.
  { intros t p v Htp Hv. destruct (Hmk t p v Htp Hv) as [-> Hmv]. split; [done|]. rewrite Hframe; [done|].
    intros E0. rewrite E0 in Ht. congruence. }
  unfold statement. destruct (cl_use l s) as [[a|a v]|]; cbn [mbind option_bind]; [destruct Huse as [Ha Hp']..|].
  - destruct (Hk a Ha) as [i ->]. destruct Ha as [u Hu]. rewrite Hlv in Hu. rewrite index_addr.
    destruct (wstep o (WFree (cl_thread l) i) w) as [w'|] eqn:E; [|cbn in E; by rewrite Ht, Hu in E].
    cbn [mbind option_bind]. rewrite Es. exists w'. split; [done|].
    assert (∃ fl, winv w' fl) as Hweak' by (eapply wstep_inv; [done..|by destruct o]).
    pose proof (wstep_pinv _ _ _ _ Hhd E) as Hhd'. cbn in E. rewrite Ht, Hu in E. cbn in E. injection E as <-.
    split; [|right; by exists i]. split; rewrite ?Hp', ?Hmade; cbn; try done.
    + intros j. destruct (decide (i = j)) as [<-|Hne]; [by rewrite !lookup_delete_eq|].
      by rewrite !lookup_delete_ne by (done || by intros ?%addr_inj).
    + intros a [_ Ha]%lookup_delete_is_Some. by apply Hk.
    + intros t p v [[<- <-]|[Hne Ht']]%lookup_insert_Some Hv; [done|by eapply Hmk'].
    + unfold out, won in *. cbn. rewrite (held_add _ _ _ i) by (by rewrite ?Ht). pose proof (size_delete_S _ _ _ Hu).
      cbn. destruct (decide (cl_thread l = 0%nat)) as [E0|Hne]; [|rewrite lookup_insert_ne by done; lia].
      rewrite E0, lookup_insert_eq. rewrite E0 in Ht. rewrite Ht in Hout. lia.
    + intros k m Hkm He. specialize (Hfull k m Hkm He). unfold won in *. cbn.
      destruct (decide (cl_thread l = 0%nat)) as [E0|Hne]; [|by rewrite lookup_insert_ne by done].
      rewrite E0 in Ht. rewrite Ht in Hfull. lia.
  - destruct (Hk a Ha) as [i ->]. destruct Ha as [u Hu]. rewrite Hlv in Hu. rewrite index_addr.
    destruct (assign_spec w fl (cl_thread l) i u v Hweak Hhd Ht Hu) as (w' & -> & Hw' & Hp2 & Elog & Epcs & Eown & Elen).
    cbn [mbind option_bind]. rewrite Es. exists w'. split; [done|]. split; [|by left].
    split; unfold out, won in *; rewrite ?Hp', ?Hmade, ?Epcs, ?Eown, ?Elog, ?Elen; cbn; try done.
    + by exists fl.
    + intros j. destruct (decide (i = j)) as [<-|Hne]; [by rewrite !lookup_insert_eq|].
      by rewrite !lookup_insert_ne by (done || by intros ?%addr_inj).
    + intros a [<-|[_ Ha]]%lookup_insert_is_Some; [by exists i|by apply Hk].
    + by rewrite map_size_insert_Some by by eexists.
  - rewrite Es. exists w. split; [done|]. split; [|by left]. split; rewrite ?Huse, ?Hmade; try done. by exists fl.
Qed.

(** The invariant is kept, and what the program does is a run with atomic calls. *)
Lemma cstep_inv l w s w' s' :
  cinv w s → cstep l (w, s) = Some (w', s') → cordered l w = true →
  cinv w' s' ∧ (s' = s ∨ ∃ l, cl_step l s = Some s').
Proof using All.
  intros Hi E Ho. destruct l as [j|l| |l]; cbn [cstep] in E.
  - destruct (cl_makes s) as [v|] eqn:Ev; [|done]. cbn [mbind option_bind] in E.
    destruct (wstep o (WMake 0 v j) w) as [w1|] eqn:Ew; [|done]. injection E as <- <-.
    split; [|by left]. eapply cinv_access; [done..|by destruct o|]. intros t v' j' [= <- <- <-]. done.
  - cbn in Ho. apply andb_true_iff in Ho as [Hw Ho]. assert (access l = true ∧ wstep o l w = Some w' ∧ s' = s) as (Hl & Ew & ->)
      by (destruct l; try discriminate E; (destruct (wstep _ _ _); [by injection E as <- <-|done])).
    split; [|by left]. eapply cinv_access; [done..|]. intros t v j ->. discriminate E.
  - destruct (pcs (now w) !! 0%nat) as [[| |v i| | |]|] eqn:Ht; try discriminate E.
    destruct (wstep o (WConstruct 0) w) as [w1|] eqn:Ew; [|done]. cbn [mbind option_bind] in E.
    destruct (cinv_return w s w1 v i Hi Ht Ew) as (s1 & Es & Hi'). rewrite Es in E. injection E as <- <-.
    split; [done|right; by eexists].
  - destruct (outside (cl_thread l) w s) eqn:Eo; [|done].
    destruct (cl_step l s) as [s1|] eqn:Es.
    + destruct (cinv_statement l w s s1 Hi Eo Es) as (w1 & E1 & Hi' & _). rewrite E1 in E. injection E as <- <-.
      split; [done|right; by eexists].
    + unfold statement in E. rewrite Es in E. by destruct (match cl_use l s with Some _ => _ | None => _ end).
Qed.

Lemma csteps_inv w s w' s' :
  cinv w s → rtc costep (w, s) (w', s') → cinv w' s' ∧ rtc (λ s s', ∃ l, cl_step l s = Some s') s s'.
Proof using All.
  intros Hi Hr. remember (w, s) as x eqn:Ex. remember (w', s') as y eqn:Ey. revert w s Ex Hi.
  induction Hr as [x|x [w1 s1] y (l & E & Ho) _ IH]; intros w s -> Hi.
  - injection Ey as <- <-. split; [done|apply rtc_refl].
  - destruct (cstep_inv _ _ _ _ _ Hi E Ho) as [Hi1 Hs]. destruct (IH Ey w1 s1 eq_refl Hi1) as [Hi' Hr'].
    split; [done|]. destruct Hs as [->|Hs]; [done|]. by eapply rtc_l.
Qed.

Lemma cinv_start (p : pool T) s :
  base + cap * csize ≤ 2 ^ 64 → pool_ctor base csize cap = Some p →
  cl_pool s = sfresh → good s → made s = 0%nat → cinv (wstart p) s.
Proof using All.
  intros Hend E Hp Hg Hm. destruct (ctor_start_inv base csize cap p) as [Hi Hlen]; [done..|].
  assert (∃ fl, winv (wstart p) fl) as Hw by (eexists; by apply wstart_inv).
  assert (out (wstart p) = 0%nat) as H0 by done.
  split; rewrite ?Hp, ?Hm; try done.
  - apply pinv_start.
  - intros a. cbn. rewrite lookup_empty. by intros [].
  - intros k m Hk He. exfalso. destruct k; [|done]. injection Hk as <-.
    pose proof (head_end (wstart p) Hw Hlen He). lia.
Qed.

(** ** Progress *)

(** A [make] never finds the pool exhausted. *)
Lemma not_exhausted w s t v h k :
  cinv w s → pcs (now w) !! t = Some (MLoaded v h k) → head_idx h ≠ END.
Proof using All.
  intros Hi Ht He. destruct (cv_maker _ _ Hi t _ v Ht eq_refl) as [-> Hm].
  pose proof (cl_room s v (cv_good _ _ Hi) Hm) as Hr.
  destruct (p_expect _ (cv_head _ _ Hi) _ _ _ _ Ht eq_refl) as (_ & m & Hl & Hv). subst h.
  pose proof (cv_full _ _ Hi _ _ Hl He) as Hf. unfold won in Hf. rewrite Ht in Hf. lia.
Qed.

Definition step_thread (l : clabel) : nat :=
  match l with CMake _ | CReturn => 0%nat | CAccess l => wthread l | CStep l => cl_thread l end.

(** A thread inside the pool can go on. *)
Lemma client_next w s t :
  cinv w s → is_Some (pcs (now w) !! t) → ∃ l y, step_thread l = t ∧ cstep l (w, s) = Some y.
Proof using All.
  intros Hi [q Ht]. destruct (cv_weak _ _ Hi) as [fl Hw].
  destruct (next_step o w fl t q Hw (cv_head _ _ Hi) Ht) as (l & w' & Hl & E).
  destruct l as [t' v j|t'|t' j g|t' sp j|t'|t' i|t' j|t']; cbn in Hl; subst t'.
  - cbn in E. by rewrite Ht in E.
  - cbn in E. rewrite Ht in E. destruct q as [v h k| | | | |]; try done.
    by rewrite (proj2 (Z.eqb_neq _ _)) in E by by eapply not_exhausted.
  - exists (CAccess (WRead t j g)), (w', s). cbn [cstep]. by rewrite E.
  - exists (CAccess (WCas t sp j)), (w', s). cbn [cstep]. by rewrite E.
  - assert (∃ v i, q = MWon v i) as (v & i & ->) by (cbn in E; rewrite Ht in E; destruct q; try done; by eexists _, _).
    destruct (cv_maker _ _ Hi t _ v Ht eq_refl) as [-> _].
    destruct (cinv_return w s w' v i Hi Ht E) as (s' & Es & _).
    exists CReturn, (w', s'). cbn [cstep]. by rewrite Ht, E; cbn [mbind option_bind]; rewrite Es.
  - cbn in E. by rewrite Ht in E.
  - exists (CAccess (WLoad t j)), (w', s). cbn [cstep]. by rewrite E.
  - exists (CAccess (WWrite t)), (w', s). cbn [cstep]. by rewrite E.
Qed.

(** ** Calls one after the other *)

(** The newest message. *)
Lemma newest w :
  pinv w → ∃ m, log w !! pred (length (log w)) = Some m ∧
    ∀ o t, ∃ c, load o t (pred (length (log w))) w = Some (mval m, c).
Proof using.
  intros Hp. destruct (lookup_lt_is_Some_2 (log w) (pred (length (log w)))) as [m Hm]; [pose proof (p_log _ Hp); lia|].
  exists m. split; [done|]. intros o' t. pose proof (p_seen _ Hp t). unfold load.
  rewrite (proj2 (Nat.ltb_ge _ _)) by lia. rewrite Hm. by eexists.
Qed.

(** The exchange of a thread that has loaded the newest message. *)
Lemma exchange_newest w t h k h' r win lost :
  pinv w → k = Z.of_nat (pred (length (log w))) → (∃ q, pcs (now w) !! t = Some q ∧ expects q = Some (h, k)) →
  ∃ w', exchange o t false (pred (length (log w))) h h' r win lost w = Some w' ∧
        now w' = win (State (mem (now w)) h' (ops (now w) + 1) (pcs (now w)) (owned (now w))).
Proof using.
  intros Hp -> (q & Hq & He). destruct (p_expect _ Hp _ _ _ _ Hq He) as (Hk & m & Hm & Hv).
  assert (seen w t = pred (length (log w))) as Hs by lia. rewrite Hs in Hm.
  destruct (newest w Hp) as (m' & Hm' & Hl). rewrite Hm in Hm'. injection Hm' as <-. destruct (Hl o t) as [c El].
  unfold exchange. rewrite El. cbn [mbind option_bind]. rewrite Hv, Z.eqb_refl. cbn [negb andb].
  rewrite (proj2 (Nat.eqb_eq (S _) _)) by (pose proof (p_log _ Hp); lia). rewrite Hm. cbn [mbind option_bind]. by eexists.
Qed.

Lemma costep_trans x l y z : cstep l x = Some y → cordered l x.1 = true → rtc costep y z → rtc costep x z.
Proof using. intros E Ho Hr. eapply rtc_l; [by exists l|done]. Qed.

(** [make] may read the last write to the cell. *)
Lemma read_last w s t v h k :
  cinv w s → pcs (now w) !! t = Some (MLoaded v h k) →
  ∃ j n, cstep (CAccess (WRead t j 0)) (w, s) = Some (with_pc t (MRead v h n k) (clk w t) (seen w t) w, s) ∧
         cordered (CAccess (WRead t j 0)) w = true.
Proof using All.
  intros Hi Ht. pose proof (not_exhausted _ _ _ _ _ _ Hi Ht) as Hne. destruct (cv_weak _ _ Hi) as [fl Hw].
  destruct (i_local _ _ (wi_inv _ _ Hw) _ _ Ht) as (_ & _ & _ & _ & [?|Hin]); [done|].
  destruct (zget_is_Some _ _ Hin) as [x Hx]. destruct (wi_hist _ _ Hw _ _ Hx) as (wr & Hwr & _). rewrite last_lookup in Hwr.
  exists (pred (length (hist w (head_idx h)))). eexists. split; [|cbn; by destruct o].
  cbn [cstep wstep]. rewrite Ht, (proj2 (Z.eqb_neq _ _)), Hwr by done. cbn [mbind option_bind].
  by rewrite drop_ge by (apply lookup_lt_Some in Hwr; lia).
Qed.

(** A whole [make], alone. *)
Lemma make_alone w s v :
  cinv w s → pcs (now w) = ∅ → cl_makes s = Some v →
  ∃ w' s' sp, rtc costep (w, s) (w', s') ∧ cl_step (cl_make sp) s = Some s' ∧ pcs (now w') = ∅.
Proof using All.
  intros Hi Hp Hm. destruct (newest w (cv_head _ _ Hi)) as (m & Hmsg & Hload). destruct (Hload Acquire 0%nat) as [c El].
  set (J := pred (length (log w))) in *.
  set (w1 := with_pc 0 (MLoaded v (mval m) (Z.of_nat J)) c J w).
  assert (cstep (CMake J) (w, s) = Some (w1, s)) as E1 by (cbn; by rewrite Hm; cbn; rewrite Hp, lookup_empty, El).
  destruct (cstep_inv _ _ _ _ _ Hi E1 eq_refl) as [Hi1 _].
  assert (pcs (now w1) !! 0%nat = Some (MLoaded v (mval m) (Z.of_nat J))) as H1 by (cbn; by rewrite lookup_insert_eq).
  destruct (read_last _ _ _ _ _ _ Hi1 H1) as (jr & n & E2 & O2). set (w2 := with_pc _ _ _ _ w1) in E2.
  destruct (cstep_inv _ _ _ _ _ Hi1 E2 O2) as [Hi2 _].
  assert (pcs (now w2) !! 0%nat = Some (MRead v (mval m) n (Z.of_nat J))) as H2 by (cbn; by rewrite lookup_insert_eq).
  destruct (exchange_newest w2 0 (mval m) (Z.of_nat J) (bump (mval m) n) (unordered (head_idx (mval m)) (clk w2 0%nat) w2)
    (set_pc 0 (MWon v (head_idx (mval m)))) (λ h, MLoaded v h (Z.of_nat J)) (cv_head _ _ Hi2) eq_refl) as (w3 & E3' & Enow3).
  { eexists. by rewrite H2. }
  change (pred (length (log w2))) with J in E3'.
  assert (cstep (CAccess (WCas 0 false J)) (w2, s) = Some (w3, s)) as E3 by (cbn [cstep wstep]; rewrite H2; by rewrite E3').
  assert (cordered (CAccess (WCas 0 false J)) w2 = true) as O3.
  { unfold cordered, wwindow, in_window, retry_ordered, uncontended. cbn [fst]. rewrite H2, Z.eqb_refl.
    destruct (cv_weak _ _ Hi2) as [fl2 Hw2]. pose proof (wi_log _ _ Hw2) as Hlog. change (log w2) with (log w) in Hlog.
    rewrite (proj2 (Z.ltb_lt _ _)) by (unfold J; lia). by destruct o. }
  destruct (cstep_inv _ _ _ _ _ Hi2 E3 O3) as [Hi3 _].
  assert (pcs (now w3) !! 0%nat = Some (MWon v (head_idx (mval m)))) as H3 by (rewrite Enow3; cbn; by rewrite lookup_insert_eq).
  destruct (cv_weak _ _ Hi3) as [fl3 Hw3]. destruct (held_not_free _ _ _ _ _ (wi_inv _ _ Hw3) H3 eq_refl) as [_ Hr3].
  destruct (wstep o (WConstruct 0) w3) as [w4|] eqn:E4; [|cbn in E4; by rewrite H3 in E4; cbn in E4; rewrite zset_eq in E4].
  destruct (cinv_return w3 s w4 v _ Hi3 H3 E4) as (s4 & Es & Hi4).
  exists w4, s4. eexists. split; [|split; [exact Es|]].
  - eapply costep_trans; [exact E1|done|]. eapply costep_trans; [exact E2|exact O2|]. eapply costep_trans; [exact E3|exact O3|].
    apply (costep_trans _ CReturn (w4, s4)); [|done|apply rtc_refl]. cbn [cstep]. by rewrite H3, E4; cbn [mbind option_bind]; rewrite Es.
  - cbn in E4. rewrite H3 in E4. cbn in E4. destruct (zset _ _ _); [|done]. cbn in E4. injection E4 as <-. cbn. rewrite Enow3. cbn.
    by rewrite Hp, !insert_insert_eq, delete_insert_id.
Qed.

(** A statement with its whole [free], alone. *)
Lemma statement_alone w s l s' :
  cinv w s → pcs (now w) = ∅ → (cl_thread l = 0%nat → cl_makes s = None) → cl_step l s = Some s' →
  ∃ w', rtc costep (w, s) (w', s') ∧ pcs (now w') = ∅.
Proof using All.
  intros Hi Hp Hm Es. assert (outside (cl_thread l) w s = true) as Ho by (apply outside_true; by rewrite Hp, lookup_empty).
  destruct (cinv_statement l w s s' Hi Ho Es) as (w1 & E1' & Hi1 & Hpc).
  assert (cstep (CStep l) (w, s) = Some (w1, s')) as E1 by (cbn; by rewrite Ho, E1').
  destruct Hpc as [Hpc|[i Hpc]]; [exists w1; split; [by eapply costep_trans, rtc_refl|by rewrite Hpc]|].
  rewrite Hp in Hpc. set (t := cl_thread l) in *. destruct (newest w1 (cv_head _ _ Hi1)) as (m & Hmsg & Hload).
  destruct (Hload Acquire t) as [c El]. set (J := pred (length (log w1))) in *.
  assert (pcs (now w1) !! t = Some (FDead i)) as H1 by (by rewrite Hpc, lookup_insert_eq).
  set (w2 := with_pc t (FLoaded i (mval m) (Z.of_nat J)) c J w1).
  assert (cstep (CAccess (WLoad t J)) (w1, s') = Some (w2, s')) as E2 by (cbn [cstep wstep]; rewrite H1, El; done).
  assert (∀ l, match l with WLoad _ _ | WWrite _ => True | _ => False end → ∀ w, cordered (CAccess l) w = true) as Hord
    by (intros []; try done; cbn; by destruct o).
  destruct (cstep_inv _ _ _ _ _ Hi1 E2 (Hord (WLoad t J) I w1)) as [Hi2 _].
  assert (pcs (now w2) !! t = Some (FLoaded i (mval m) (Z.of_nat J))) as H2 by (cbn; by rewrite lookup_insert_eq).
  destruct (cv_weak _ _ Hi2) as [fl2 Hw2]. destruct (held_not_free _ _ _ _ _ (wi_inv _ _ Hw2) H2 eq_refl) as [_ Hr2].
  destruct (wstep o (WWrite t) w2) as [w3|] eqn:E3'; [|cbn in E3'; by rewrite lookup_insert_eq in E3'; cbn in E3'; rewrite zset_eq in E3'].
  assert (cstep (CAccess (WWrite t)) (w2, s') = Some (w3, s')) as E3 by (cbn [cstep]; by rewrite E3').
  destruct (cstep_inv _ _ _ _ _ Hi2 E3 (Hord (WWrite t) I w2)) as [Hi3 _].
  assert (pcs (now w3) = {[t := FWrote i (mval m) (Z.of_nat J)]} ∧ log w3 = log w1) as [Hp3 Hl3].
  { cbn in E3'. rewrite lookup_insert_eq in E3'. cbn in E3'. destruct (zset _ _ _); [|done]. cbn in E3'. injection E3' as <-. cbn.
    by rewrite Hpc, !insert_insert_eq. }
  assert (pcs (now w3) !! t = Some (FWrote i (mval m) (Z.of_nat J))) as H3 by (rewrite Hp3; apply lookup_singleton_eq).
  destruct (exchange_newest w3 t (mval m) (Z.of_nat J) (bump (mval m) i) false (exit_pc t)
    (λ h, FLoaded i h (Z.of_nat J)) (cv_head _ _ Hi3)) as (w4 & E4' & Enow4); [by rewrite Hl3|eexists; by rewrite H3|].
  rewrite Hl3 in E4'. change (pred (length (log w1))) with J in E4'.
  assert (cstep (CAccess (WCas t false J)) (w3, s') = Some (w4, s')) as E4 by (cbn [cstep wstep]; rewrite H3; by rewrite E4').
  assert (cordered (CAccess (WCas t false J)) w3 = true) as O4.
  { unfold cordered, wwindow, in_window, retry_ordered, uncontended. rewrite H3. by destruct o. }
  exists w4. split; [|rewrite Enow4; cbn; rewrite Hp3; apply delete_singleton_eq].
  eapply costep_trans; [exact E1|done|]. eapply costep_trans; [exact E2|by apply Hord|].
  eapply costep_trans; [exact E3|by apply Hord|]. by eapply costep_trans, rtc_refl.
Qed.

(** The cells when no thread is inside the pool. *)
Lemma rest_cells w s :
  cinv w s → pcs (now w) = ∅ → ∃ fl, chain (mem (now w)) (head (now w) `mod` 2 ^ 32) fl ∧
    fl ++ owned_idx (owned (now w)) ≡ₚ seqZ 0 cap.
Proof using All.
  intros Hi Hp. destruct (cv_weak _ _ Hi) as [fl Hw]. exists fl. pose proof (wi_inv _ _ Hw) as Hinv. split; [apply Hinv|].
  pose proof (i_cells _ _ Hinv) as Hc. rewrite (cv_cells _ _ Hi), Hp in Hc. unfold held in Hc.
  by rewrite omap_empty, map_to_list_empty in Hc.
Qed.

(** What holds of the pool at any time: no value was used and no cell written
    without a happens-before order, every cell is in one place, and an object of
    the program is in its cell. *)
Record pool_sound w s : Prop := {
  ps_race : used_race w = false;
  ps_cells : ∃ fl, chain (mem (now w)) (head (now w) `mod` 2 ^ 32) fl ∧
                   fl ++ held (pcs (now w)) ++ owned_idx (owned (now w)) ≡ₚ seqZ 0 cap;
  ps_data a v : sp_live (cl_pool s) !! a = Some v → ∃ i, a = addr i ∧ zget (mem (now w)) i = Some (Data v) }.

(** What the threads can do next: inside a call, at a [make], at a statement. *)
Record never_stuck w s : Prop := {
  ns_inside t : is_Some (pcs (now w) !! t) → ∃ l y, step_thread l = t ∧ cstep l (w, s) = Some y;
  ns_make : pcs (now w) !! 0%nat = None → is_Some (cl_makes s) → ∃ j, is_Some (cstep (CMake j) (w, s));
  ns_statement l : outside (cl_thread l) w s = true → is_Some (cl_step l s) → is_Some (cstep (CStep l) (w, s)) }.

Lemma cinv_sound w s : cinv w s → pool_sound w s.
Proof using.
  intros Hi. destruct (cv_weak _ _ Hi) as [fl Hw]. pose proof (wi_inv _ _ Hw) as Hinv. split; [apply Hw| |].
  - exists fl. split; [apply Hinv|]. pose proof (i_cells _ _ Hinv) as Hc. by rewrite (cv_cells _ _ Hi) in Hc.
  - intros a v Ha. destruct (cv_keys _ _ Hi a) as [i ->]; [by eexists|]. rewrite (cv_live _ _ Hi) in Ha.
    exists i. split; [done|]. by apply Hinv.
Qed.

Lemma cinv_next w s : cinv w s → never_stuck w s.
Proof using All.
  intros Hi. split.
  - intros t Ht. by apply client_next.
  - intros Ht [v Hv]. destruct (newest w (cv_head _ _ Hi)) as (m & _ & Hl). destruct (Hl Acquire 0%nat) as [c El].
    eexists. cbn [cstep wstep]. rewrite Hv. cbn [mbind option_bind]. rewrite Ht, El. by eexists.
  - intros l Ho [s' Es]. destruct (cinv_statement l w s s' Hi Ho Es) as (w' & E & _). cbn [cstep]. rewrite Ho, E. by eexists.
Qed.

(** A run of the program from a fresh pool. *)
Lemma client_run (p : pool T) s0 w s :
  base + cap * csize ≤ 2 ^ 64 → pool_ctor base csize cap = Some p → cl_pool s0 = sfresh → good s0 → made s0 = 0%nat →
  rtc costep (wstart p, s0) (w, s) →
  cinv w s ∧ rtc (λ s s', ∃ l, cl_step l s = Some s') s0 s.
Proof using All. intros He E Hp Hg Hm. apply csteps_inv. by apply cinv_start. Qed.

(** No thread is inside the pool; the free list has every cell. *)
Definition at_rest w : Prop := pcs (now w) = ∅.
Definition all_free w : Prop :=
  ∃ fl, chain (mem (now w)) (head (now w) `mod` 2 ^ 32) fl ∧ fl ≡ₚ seqZ 0 cap.

(** When the program holds no object and no thread is inside the pool, every
    cell is in the free list. *)
Lemma client_all_free w s : cinv w s → at_rest w → sp_live (cl_pool s) = ∅ → all_free w.
Proof using All.
  intros Hi Hp Hl. destruct (rest_cells w s Hi Hp) as (fl & Hc & Hperm). exists fl. split; [done|].
  assert (owned (now w) = ∅) as Ho.
  { apply map_eq. intros i. by rewrite <-(cv_live _ _ Hi), Hl, !lookup_empty. }
  rewrite Ho in Hperm. unfold owned_idx in Hperm. by rewrite map_to_list_empty, app_nil_r in Hperm.
Qed.

Lemma sfresh_inv : base + cap * csize ≤ 2 ^ 64 → al_inv sfresh ∧ al_live sfresh = ∅ ∧ al_room sfresh = Z.to_nat cap.
Proof using Hbase Hcsize Hcap.
  intros He. assert (al_inv sfresh) as Hi.
  { split; [|split].
    - cbn. apply NoDup_fmap_2_strong; [intros i j _ _; apply addr_inj|apply NoDup_seqZ].
    - cbn. intros (i & Hz & Hi)%list_elem_of_fmap. apply elem_of_seqZ in Hi. unfold addr, nullptr in Hz. nia.
    - cbn. intros a. rewrite lookup_empty. by intros []. }
  split; [done|]. split; [done|]. pose proof (sp_free_count _ Hi) as Hc. cbn in Hc |- *.
  rewrite map_size_empty, length_fmap, length_seqZ in Hc. lia.
Qed.

End client.

Arguments clabel : clear implicits.

(** The weak memory of a fresh pool. *)
Abbreviation fresh_memory := wstart.

(** The number of threads inside the pool. *)
Definition calls_open {T} (w : wstate T) : nat := size (pcs (now w)).

Lemma no_calls_open {T} (w : wstate T) : calls_open w = 0%nat → at_rest w.
Proof. apply map_size_empty_inv. Qed.
