(* ===== verification/Conduit.v ===== *)
(** * The SPSC ring buffer (include/conduit/core.hpp, layer 5)

    [conduit<T, Size>] is an array of raw pointers with a write index and a
    read index, both kept modulo [Size]; one slot stays empty to tell a full
    ring from an empty one.  This file models [push] and [pop] as single calls
    and shows that they implement a bounded FIFO of [Size - 1] pointers
    (the [Queue] interface).  ConduitConcurrent.v runs the two sides
    concurrently under release/acquire semantics. *)

From S2P Require Import Prelude Ring EventPtr Interfaces.

Local Open Scope Z_scope.

(** The template parameter [Size] indexes the type.  [None] is an access
    outside [ring_]. *)
Record conduit (Size : Z) := Conduit {
  ring_ : list Z;
  write_idx_ : Z;
  read_idx_ : Z }.

Arguments Conduit {Size} ring_ write_idx_ read_idx_.
Arguments ring_ {Size} c.
Arguments write_idx_ {Size} c.
Arguments read_idx_ {Size} c.

Section conduit.
Context {Size : Z}.
Implicit Types c : conduit Size.

(** A new conduit: the indices are 0, the array is not initialised. *)
Definition conduit_ctor (junk : list Z) : conduit Size := Conduit junk 0 0.

(** [(i + 1) % Size] in [std::size_t]. *)
Definition next_idx (i : Z) : Z := u64 (i + 1) `mod` Size.

(** [bool push(T* ptr)]. *)
Definition push (ptr : Z) c : option (bool * conduit Size) :=
  let current_write := write_idx_ c in
  let next_write := next_idx current_write in
  if next_write =? read_idx_ c then Some (false, c)
  else
    ring ← zset (ring_ c) current_write ptr;
    Some (true, Conduit ring next_write (read_idx_ c)).

(** The slot [pop] takes: [None] inside for an empty ring. *)
Definition pop_raw c : option (option Z * conduit Size) :=
  let current_read := read_idx_ c in
  if current_read =? write_idx_ c then Some (None, c)
  else
    ptr ← zget (ring_ c) current_read;
    Some (Some ptr, Conduit (ring_ c) (write_idx_ c) (next_idx current_read)).

(** [event_ptr<T> pop(pool<T>& p)]: the pointer comes back bound to the pool
    at address [p], whose deleter is [del]. *)
Definition pop {W} (del : deleter W) (p : Z) c : option (event_ptr W * conduit Size) :=
  '(slot, c') ← pop_raw c;
  Some (match slot with None => ep_null | Some ptr => ep_make ptr del p end, c').

(** ** The representation *)

Definition conduit_inv c : Prop :=
  0 < Size < 2 ^ 64 ∧ Z.of_nat (length (ring_ c)) = Size ∧
  0 ≤ write_idx_ c < Size ∧ 0 ≤ read_idx_ c < Size.

(** Number of stored pointers and the pointers, oldest first. *)
Definition count c : nat := Z.to_nat ((write_idx_ c - read_idx_ c) `mod` Size).
Definition items c : list Z := window (ring_ c) (read_idx_ c) (count c).

Lemma next_idx_val i : 0 < Size < 2 ^ 64 → 0 ≤ i < Size → next_idx i = (i + 1) `mod` Size.
Proof. intros. unfold next_idx. rewrite wrap_small by word_lia. done. Qed.

Lemma conduit_ctor_inv junk :
  0 < Size < 2 ^ 64 → Z.of_nat (length junk) = Size →
  conduit_inv (conduit_ctor junk) ∧ items (conduit_ctor junk) = [].
Proof.
  intros Hs Hl. split; [unfold conduit_inv; cbn; lia|].
  unfold items, count. cbn. by rewrite Z.sub_diag, Z.mod_0_l by lia.
Qed.

Section inv.
Context (c : conduit Size) (Hinv : conduit_inv c).

Lemma conduit_ring_nonempty : ring_ c ≠ [].
Proof using Hinv. destruct Hinv as (? & Hl & _). intros E. rewrite E in Hl. cbn in Hl. lia. Qed.

Lemma count_bound : Z.of_nat (count c) < Size.
Proof using Hinv.
  destruct Hinv as (? & _). unfold count.
  pose proof (Z.mod_pos_bound (write_idx_ c - read_idx_ c) Size). lia.
Qed.

Lemma items_length : length (items c) = count c.
Proof using Hinv. apply window_length, conduit_ring_nonempty. Qed.

(** The write index is the position just behind the items. *)
Lemma write_pos : write_idx_ c = rpos (ring_ c) (read_idx_ c + Z.of_nat (count c)).
Proof using Hinv.
  destruct Hinv as (Hs & Hl & Hw & Hr). unfold rpos, count. rewrite Hl.
  rewrite Z2Nat.id by (apply Z.mod_pos_bound; lia).
  rewrite Zplus_mod_idemp_r. replace (read_idx_ c + _) with (write_idx_ c) by lia.
  symmetry. apply Z.mod_small. lia.
Qed.

(** The full test of [push] holds exactly when [Size - 1] pointers are stored. *)
Lemma full_iff : next_idx (write_idx_ c) = read_idx_ c ↔ Z.of_nat (count c) = Size - 1.
Proof using Hinv.
  destruct Hinv as (Hs & Hl & Hw & Hr). rewrite next_idx_val by done.
  rewrite ring_succ by done. unfold count.
  rewrite Z2Nat.id by (apply Z.mod_pos_bound; lia).
  destruct (Z.le_gt_cases (read_idx_ c) (write_idx_ c)).
  - rewrite (Z.mod_small (_ - _)) by lia. case_decide; lia.
  - rewrite <-(Z_mod_plus_full _ 1), Z.mod_small by lia. case_decide; lia.
Qed.

Lemma empty_iff : read_idx_ c = write_idx_ c ↔ count c = 0%nat.
Proof using Hinv.
  destruct Hinv as (Hs & Hl & Hw & Hr). unfold count. split.
  - intros ->. by rewrite Z.sub_diag, Z.mod_0_l by lia.
  - intros E. pose proof (Z.mod_pos_bound (write_idx_ c - read_idx_ c) Size).
    assert ((write_idx_ c - read_idx_ c) `mod` Size = 0) as E0 by lia.
    destruct (Z.le_gt_cases (read_idx_ c) (write_idx_ c)).
    + rewrite Z.mod_small in E0 by lia. lia.
    + rewrite <-(Z_mod_plus_full _ 1), Z.mod_small in E0 by lia. lia.
Qed.

End inv.

(** ** The operations on the items *)

Lemma push_full c ptr :
  conduit_inv c → Z.of_nat (count c) = Size - 1 → push ptr c = Some (false, c).
Proof.
  intros Hinv Hf. unfold push. apply (full_iff c Hinv) in Hf. by rewrite Hf, Z.eqb_refl.
Qed.

Lemma push_room c ptr :
  conduit_inv c → Z.of_nat (count c) < Size - 1 →
  ∃ c', push ptr c = Some (true, c') ∧ items c' = items c ++ [ptr] ∧ conduit_inv c'.
Proof.
  intros Hinv Hroom. pose proof Hinv as (Hs & Hl & Hw & Hr). unfold push.
  rewrite (proj2 (Z.eqb_neq _ _)) by (intros E%(full_iff c Hinv); lia).
  rewrite zset_eq by lia. cbn.
  eexists. split; [done|]. rewrite next_idx_val by done.
  pose proof (ring_succ_range Size (write_idx_ c) ltac:(lia)) as Hn. split.
  - unfold items. set (c' := Conduit _ _ _). cbn.
    assert (count c' = S (count c)) as ->.
    { unfold count in *. cbn. rewrite Zminus_mod_idemp_l.
      replace (write_idx_ c + 1 - read_idx_ c) with (write_idx_ c - read_idx_ c + 1) by lia.
      rewrite <-Zplus_mod_idemp_l.
      pose proof (Z.mod_pos_bound (write_idx_ c - read_idx_ c) Size).
      rewrite Z.mod_small by lia. lia. }
    rewrite (write_pos c Hinv) at 1. apply window_push. lia.
  - unfold conduit_inv. cbn. rewrite length_insert. lia.
Qed.

Lemma pop_empty c : conduit_inv c → items c = [] → pop_raw c = Some (None, c).
Proof.
  intros Hinv E. unfold pop_raw.
  assert (count c = 0%nat) as H0 by (by rewrite <-(items_length c Hinv), E).
  apply (empty_iff c Hinv) in H0. by rewrite H0, Z.eqb_refl.
Qed.

Lemma pop_cons c a l :
  conduit_inv c → items c = a :: l →
  ∃ c', pop_raw c = Some (Some a, c') ∧ items c' = l ∧ conduit_inv c'.
Proof.
  intros Hinv E. pose proof Hinv as (Hs & Hl & Hw & Hr). unfold pop_raw.
  pose proof (items_length c Hinv) as Hlen. rewrite E in Hlen. cbn in Hlen.
  rewrite (proj2 (Z.eqb_neq _ _)) by (intros H%(empty_iff c Hinv); lia).
  assert (rpos (ring_ c) (read_idx_ c) = read_idx_ c) as Erp.
  { unfold rpos. rewrite Hl. apply Z.mod_small. lia. }
  destruct (zget_is_Some (ring_ c) (read_idx_ c)) as [x Hx]; [lia|].
  rewrite Hx. cbn. unfold items in E. rewrite <-Hlen in E.
  rewrite (window_cons _ _ _ x) in E by (by rewrite Erp). injection E as -> El.
  eexists. split; [done|]. rewrite next_idx_val by done.
  pose proof (ring_succ_range Size (read_idx_ c) ltac:(lia)) as Hn. split.
  - unfold items. set (c' := Conduit _ _ _). cbn.
    assert (count c' = length l) as ->.
    { unfold count in *. cbn. rewrite Zminus_mod_idemp_r.
      replace (write_idx_ c - (read_idx_ c + 1)) with (write_idx_ c - read_idx_ c - 1) by lia.
      rewrite <-Zminus_mod_idemp_l.
      pose proof (Z.mod_pos_bound (write_idx_ c - read_idx_ c) Size).
      rewrite Z.mod_small by lia. lia. }
    assert ((read_idx_ c + 1) `mod` Size = rpos (ring_ c) (read_idx_ c + 1)) as ->
      by (unfold rpos; by rewrite Hl).
    by rewrite window_rpos.
  - unfold conduit_inv. cbn. lia.
Qed.

#[export] Instance conduit_queue : Queue (conduit Size) := {
  q_push := push;
  q_pop := pop_raw;
  q_items := items;
  q_cap _ := Z.to_nat (Size - 1);
  q_inv := conduit_inv }.

#[export] Instance conduit_queue_laws : QueueLaws (conduit Size).
Proof.
  split; cbn.
  - intros c Hinv. rewrite items_length by done.
    pose proof (count_bound c Hinv). lia.
  - intros a c Hinv Hroom. rewrite items_length in Hroom by done.
    destruct (push_room c a) as (c' & ? & ? & ?); [done|lia|]. eauto.
  - intros a c Hinv Hf. rewrite items_length in Hf by done.
    pose proof (count_bound c Hinv). apply push_full; [done|lia].
  - intros c. apply pop_empty.
  - intros c a l Hinv E. destruct (pop_cons c a l) as (c' & ? & ? & ?); [done..|].
    eauto.
Qed.

(** ** Properties *)

(** C1: The conduit implements a bounded FIFO of [Size - 1] pointers: from a
    fresh conduit (with any garbage in its array), every sequence of pushes
    and pops stays inside the array and produces exactly the answers of a list
    that accepts a push while it is shorter than [Size - 1] and pops its oldest
    element. *)
Theorem conduit_refines_fifo (junk : list Z) (os : list q_op) :
  0 < Size < 2 ^ 64 → Z.of_nat (length junk) = Size →
  ∃ c, q_run os (conduit_ctor junk)
       = Some ((fifo_run (Z.to_nat (Size - 1)) os []).1, c) ∧
       items c = (fifo_run (Z.to_nat (Size - 1)) os []).2 ∧ conduit_inv c.
Proof.
  intros Hs Hl. destruct (conduit_ctor_inv junk Hs Hl) as [Hinv Hi].
  destruct (q_run_refines os (conduit_ctor junk)) as (c & E & Ei & _ & Hc); [done|].
  cbn in *. rewrite Hi in *. eauto.
Qed.

(** Backpressure is exact: [push] answers [false], leaving the conduit
    unchanged, if and only if [Size - 1] pointers are stored; so one slot of
    the array is never used, and a conduit of [Size] 1 refuses every push. *)
Theorem conduit_backpressure c ptr :
  conduit_inv c →
  (push ptr c = Some (false, c) ↔ Z.of_nat (length (items c)) = Size - 1) ∧
  (Size = 1 → push ptr c = Some (false, c)).
Proof.
  intros Hinv. rewrite (items_length c Hinv).
  assert (push ptr c = Some (false, c) ↔ Z.of_nat (count c) = Size - 1) as Hiff.
  { split; [|by apply push_full]. intros E.
    destruct (decide (Z.of_nat (count c) = Size - 1)) as [|Hne]; [done|].
    pose proof (count_bound c Hinv).
    destruct (push_room c ptr Hinv) as (c' & E' & _); [lia|]. congruence. }
  split; [done|]. intros E1. apply Hiff. pose proof (count_bound c Hinv). lia.
Qed.

End conduit.

Lemma conduit_refines_fifo_witness :
  ∃ c, q_run [QPush 8; QPush 16; QPush 24; QPop; QPush 32; QPop; QPop; QPop]
         (conduit_ctor [1; 2; 3] : conduit 3)
       = Some ([RPush true; RPush true; RPush false; RPop (Some 8); RPush true;
                RPop (Some 16); RPop (Some 32); RPop None], c).
Proof.
  destruct (conduit_refines_fifo (Size := 3) [1; 2; 3]
    [QPush 8; QPush 16; QPush 24; QPop; QPush 32; QPop; QPop; QPop])
    as (c & E & _); [lia|done|].
  exists c. exact E.
Defined.

Lemma conduit_backpressure_witness :
  push 8 (conduit_ctor [0] : conduit 1) = Some (false, conduit_ctor [0]) ∧
  push 8 (Conduit [4; 0] 1 0 : conduit 2) = Some (false, Conduit [4; 0] 1 0).
Proof.
  split.
  - apply (conduit_backpressure (Size := 1)); [|done]. unfold conduit_inv; cbn; lia.
  - destruct (conduit_backpressure (Size := 2) (Conduit [4; 0] 1 0) 8) as [[_ H] _].
    + unfold conduit_inv; cbn; lia.
    + apply H. reflexivity.
Defined.
