(* ===== verification/ConduitConcurrent.v ===== *)
(** * The conduit under release/acquire concurrency (core.hpp, layer 5)

    One producer thread runs [push], one consumer thread runs [pop], with the
    memory orders the source uses.  Each index is an atomic variable with its
    modification order (the list of the messages stored to it); a load may
    return any message that is not older than the last one the thread has seen,
    so a thread may work with a stale index for as long as it likes.  A release
    store attaches the writer's clock to the message, and an acquire load joins
    it into the reader's clock: this is the happens-before relation between the
    two threads.  The array slots are plain memory: every access is checked
    against the clocks, and an access that does not happen after the last
    conflicting access of the other thread sets the [race] flag. *)

From S2P Require Import Prelude Ring Conduit.

Local Open Scope Z_scope.

Module ConduitMT.

(** A message of an atomic index: the value, and how many slot accesses of the
    writer happen before it. *)
Record msg := Msg { mval : Z; mclk : Z }.

(** The producer inside [push(ptr)]. *)
Inductive ppc :=
  | PIdle
  | PLoaded (ptr cw : Z)        (* current_write loaded (relaxed) *)
  | PChecked (ptr cw nw : Z)    (* not full: the slot may be written *)
  | PStored (ptr nw : Z).       (* slot written, index not yet stored *)

(** The consumer inside [pop]. *)
Inductive cpc :=
  | CIdle
  | CLoaded (cr : Z)            (* current_read loaded (relaxed) *)
  | CChecked (cr : Z)           (* not empty: the slot may be read *)
  | CTaken (cr ptr : Z).        (* slot read, index not yet stored *)

Record state := State {
  slots : list Z;        (* ring_ *)
  wlog : list msg;       (* modification order of write_idx_ *)
  rlog : list msg;       (* modification order of read_idx_ *)
  prod : ppc;
  pview : nat;           (* the newest message of read_idx_ the producer saw *)
  pseen : Z;             (* slot reads of the consumer that happen before *)
  pwrites : Z;           (* slot writes done by the producer *)
  cons : cpc;
  cview : nat;           (* the newest message of write_idx_ the consumer saw *)
  cseen : Z;             (* slot writes of the producer that happen before *)
  creads : Z;            (* slot reads done by the consumer *)
  wclk : list Z;         (* per slot: number of the last write to it *)
  rclk : list Z;         (* per slot: number of the last read of it *)
  race : bool;           (* an unordered conflicting slot access happened *)
  pushed : list Z;       (* pointers whose push answered true *)
  popped : list Z }.     (* pointers pop returned *)

Inductive label :=
  | PStart (ptr : Z)     (* call push, load write_idx_ (relaxed) *)
  | PCheck (j : nat)     (* load read_idx_ (acquire) from message j, test full *)
  | PWrite               (* ring_[current_write] = ptr *)
  | PPublish             (* write_idx_.store(next_write, release), return true *)
  | CStart               (* call pop, load read_idx_ (relaxed) *)
  | CCheck (j : nat)     (* load write_idx_ (acquire) from message j, test empty *)
  | CRead                (* T* ptr = ring_[current_read] *)
  | CPublish.            (* read_idx_.store(next, release), return ptr *)

Section steps.
Context (Size : Z).

Definition start (junk : list Z) : state :=
  State junk [Msg 0 0] [Msg 0 0] PIdle 0 0 0 CIdle 0 0 0
    (replicate (Z.to_nat Size) 0) (replicate (Z.to_nat Size) 0) false [] [].

Definition set_prod (p : ppc) (s : state) : state :=
  State (slots s) (wlog s) (rlog s) p (pview s) (pseen s) (pwrites s)
    (cons s) (cview s) (cseen s) (creads s) (wclk s) (rclk s) (race s)
    (pushed s) (popped s).

Definition set_cons (c : cpc) (s : state) : state :=
  State (slots s) (wlog s) (rlog s) (prod s) (pview s) (pseen s) (pwrites s)
    c (cview s) (cseen s) (creads s) (wclk s) (rclk s) (race s)
    (pushed s) (popped s).

Definition step (l : label) (s : state) : option state :=
  match l with
  | PStart ptr =>
      match prod s, last (wlog s) with
      | PIdle, Some m => Some (set_prod (PLoaded ptr (mval m)) s)
      | _, _ => None
      end
  | PCheck j =>
      match prod s with
      | PLoaded ptr cw =>
          if (j <? pview s)%nat then None else
          m ← rlog s !! j;
          let nw := next_idx (Size := Size) cw in
          let p := if nw =? mval m then PIdle else PChecked ptr cw nw in
          Some (State (slots s) (wlog s) (rlog s) p j (Z.max (pseen s) (mclk m))
                  (pwrites s) (cons s) (cview s) (cseen s) (creads s) (wclk s)
                  (rclk s) (race s) (pushed s) (popped s))
      | _ => None
      end
  | PWrite =>
      match prod s with
      | PChecked ptr cw nw =>
          ring ← zset (slots s) cw ptr;
          lastread ← zget (rclk s) cw;
          clk ← zset (wclk s) cw (pwrites s + 1);
          Some (State ring (wlog s) (rlog s) (PStored ptr nw) (pview s) (pseen s)
                  (pwrites s + 1) (cons s) (cview s) (cseen s) (creads s) clk
                  (rclk s) (race s || negb (lastread <=? pseen s))
                  (pushed s) (popped s))
      | _ => None
      end
  | PPublish =>
      match prod s with
      | PStored ptr nw =>
          Some (State (slots s) (wlog s ++ [Msg nw (pwrites s)]) (rlog s) PIdle
                  (pview s) (pseen s) (pwrites s) (cons s) (cview s) (cseen s)
                  (creads s) (wclk s) (rclk s) (race s) (pushed s ++ [ptr])
                  (popped s))
      | _ => None
      end
  | CStart =>
      match cons s, last (rlog s) with
      | CIdle, Some m => Some (set_cons (CLoaded (mval m)) s)
      | _, _ => None
      end
  | CCheck j =>
      match cons s with
      | CLoaded cr =>
          if (j <? cview s)%nat then None else
          m ← wlog s !! j;
          let c := if cr =? mval m then CIdle else CChecked cr in
          Some (State (slots s) (wlog s) (rlog s) (prod s) (pview s) (pseen s)
                  (pwrites s) c j (Z.max (cseen s) (mclk m)) (creads s) (wclk s)
                  (rclk s) (race s) (pushed s) (popped s))
      | _ => None
      end
  | CRead =>
      match cons s with
      | CChecked cr =>
          ptr ← zget (slots s) cr;
          lastwrite ← zget (wclk s) cr;
          clk ← zset (rclk s) cr (creads s + 1);
          Some (State (slots s) (wlog s) (rlog s) (prod s) (pview s) (pseen s)
                  (pwrites s) (CTaken cr ptr) (cview s) (cseen s) (creads s + 1)
                  (wclk s) clk (race s || negb (lastwrite <=? cseen s))
                  (pushed s) (popped s))
      | _ => None
      end
  | CPublish =>
      match cons s with
      | CTaken cr ptr =>
          Some (State (slots s) (wlog s)
                  (rlog s ++ [Msg (next_idx (Size := Size) cr) (creads s)])
                  (prod s) (pview s) (pseen s) (pwrites s) CIdle (cview s)
                  (cseen s) (creads s) (wclk s) (rclk s) (race s) (pushed s)
                  (popped s ++ [ptr]))
      | _ => None
      end
  end.

Definition tstep (s s' : state) : Prop := ∃ l, step l s = Some s'.


(** ** The invariant *)

Definition pushed_n (s : state) : Z := Z.of_nat (length (pushed s)).
Definition popped_n (s : state) : Z := Z.of_nat (length (popped s)).

(** Slot writes and reads that are done but not yet published. *)
Definition p_pending (p : ppc) : Z := match p with PStored _ _ => 1 | _ => 0 end.
Definition c_pending (c : cpc) : Z := match c with CTaken _ _ => 1 | _ => 0 end.

(** Message [k] of an index carries the value [k mod Size] and the clock [k]. *)
Definition log_ok (log : list msg) : Prop :=
  ∀ k m, log !! k = Some m → m = Msg (Z.of_nat k `mod` Size) (Z.of_nat k).

(** What the producer's control point says, for [P] published pushes. *)
Definition prod_ok (P v : Z) (slots : list Z) (p : ppc) : Prop :=
  match p with
  | PIdle => True
  | PLoaded _ cw => cw = P `mod` Size
  | PChecked _ cw nw =>
      cw = P `mod` Size ∧ nw = (P + 1) `mod` Size ∧ P - v ≤ Size - 2
  | PStored ptr nw =>
      nw = (P + 1) `mod` Size ∧ P - v ≤ Size - 2 ∧
      zget slots (P `mod` Size) = Some ptr
  end.

Definition cons_ok (C v : Z) (pushed : list Z) (c : cpc) : Prop :=
  match c with
  | CIdle => True
  | CLoaded cr => cr = C `mod` Size
  | CChecked cr => cr = C `mod` Size ∧ C < v
  | CTaken cr ptr => cr = C `mod` Size ∧ C < v ∧ zget pushed C = Some ptr
  end.

(** The clock of a slot names an access to that slot that has been made. *)
Definition clk_ok (clk : list Z) (done : Z) : Prop :=
  ∀ i w, zget clk i = Some w → w = 0 ∨ (1 ≤ w ≤ done ∧ (w - 1) `mod` Size = i).

Record inv (s : state) : Prop := Inv {
  i_len : Z.of_nat (length (slots s)) = Size ∧ Z.of_nat (length (wclk s)) = Size ∧
          Z.of_nat (length (rclk s)) = Size;
  i_wlog : length (wlog s) = S (length (pushed s)) ∧ log_ok (wlog s);
  i_rlog : length (rlog s) = S (length (popped s)) ∧ log_ok (rlog s);
  i_count : pwrites s = pushed_n s + p_pending (prod s) ∧
            creads s = popped_n s + c_pending (cons s);
  i_views : pseen s = Z.of_nat (pview s) ∧ cseen s = Z.of_nat (cview s);
  i_order : pseen s ≤ popped_n s ∧ popped_n s ≤ cseen s ≤ pushed_n s ∧
            pushed_n s - pseen s ≤ Size - 1;
  i_prod : prod_ok (pushed_n s) (pseen s) (slots s) (prod s);
  i_cons : cons_ok (popped_n s) (cseen s) (pushed s) (cons s);
  i_slots : ∀ k, popped_n s ≤ k < pushed_n s →
            zget (slots s) (k `mod` Size) = zget (pushed s) k;
  i_wclk : clk_ok (wclk s) (pwrites s);
  i_rclk : clk_ok (rclk s) (creads s);
  i_fifo : popped s = take (length (popped s)) (pushed s);
  i_race : race s = false }.

Section preservation.
Context (HSize : 0 < Size < 2 ^ 64).

Lemma log_ok_snoc log v c :
  log_ok log → v = Z.of_nat (length log) `mod` Size → c = Z.of_nat (length log) →
  log_ok (log ++ [Msg v c]).
Proof.
  intros Hlog -> -> k m [E|[? E]]%lookup_app_Some; [by apply Hlog|].
  apply list_lookup_singleton_Some in E as [E <-].
  replace k with (length log) by lia. done.
Qed.

Lemma log_last log n :
  length log = S n → log_ok log →
  last log = Some (Msg (Z.of_nat n `mod` Size) (Z.of_nat n)).
Proof.
  intros Hl Hlog. rewrite last_lookup, Hl. cbn.
  destruct (lookup_lt_is_Some_2 log n) as [m Hm]; [lia|].
  rewrite Hm. f_equal. by apply Hlog.
Qed.

Lemma clk_ok_set clk clk' i done n :
  clk_ok clk done → zset clk i (done + 1) = Some clk' → 0 ≤ done →
  i = done `mod` Size → n = done + 1 → clk_ok clk' n.
Proof.
  intros Hc Hz Hd -> -> j w. rewrite (zget_zset _ _ _ _ _ Hz). case_decide as E.
  - intros [= <-]. right. split; [lia|]. by replace (done + 1 - 1) with done by lia.
  - intros Hj. destruct (Hc _ _ Hj) as [|[??]]; [by left|right; split; [lia|done]].
Qed.

Lemma next_idx_mod k : next_idx (Size := Size) (k `mod` Size) = (k + 1) `mod` Size.
Proof using HSize.
  rewrite next_idx_val; [|done|apply Z.mod_pos_bound; lia].
  apply mod_add_l. lia.
Qed.

Lemma zget_snoc {A} (l : list A) (x : A) k :
  k < Z.of_nat (length l) → zget (l ++ [x]) k = zget l k.
Proof. intros. unfold zget. case_decide; [|done]. apply lookup_app_l. lia. Qed.

Lemma zget_snoc_eq {A} (l : list A) (x : A) k :
  k = Z.of_nat (length l) → zget (l ++ [x]) k = Some x.
Proof.
  intros ->. unfold zget. rewrite decide_True by lia.
  rewrite Nat2Z.id. by apply list_lookup_middle.
Qed.

Lemma ring_start_inv junk : Z.of_nat (length junk) = Size → inv (start junk).
Proof using HSize.
  intros Hj.
  assert (log_ok [Msg 0 0]) as Hlog.
  { intros [|k] m; [|done]. intros [= <-]. cbn. by rewrite Z.mod_0_l by lia. }
  assert (clk_ok (replicate (Z.to_nat Size) 0) 0) as Hclk.
  { intros i w E. pose proof (zget_Some_range _ _ _ E) as Hr.
    rewrite length_replicate in Hr. rewrite zget_replicate in E by done.
    injection E as <-. by left. }
  split; unfold pushed_n, popped_n; cbn; rewrite ?length_replicate; try done; try lia.
Qed.

(** Each step of either thread keeps the invariant; the two checks also say
    what the comparison means in terms of the message that was read. *)

Lemma full_test k j :
  0 ≤ k - j ≤ Size - 1 → ((k + 1) `mod` Size =? j `mod` Size) = (k - j =? Size - 1).
Proof using HSize.
  intros Hk. destruct (Z.eqb_spec (k - j) (Size - 1)) as [E|Hne].
  - apply Z.eqb_eq. replace (k + 1) with (j + 1 * Size) by lia. apply Z_mod_plus_full.
  - apply Z.eqb_neq. intros E. symmetry in E. apply mod_window_inj in E; lia.
Qed.

Lemma empty_test k j :
  0 ≤ j - k ≤ Size - 1 → (k `mod` Size =? j `mod` Size) = (k =? j).
Proof using HSize.
  intros Hk. destruct (Z.eqb_spec k j) as [->|Hne]; [apply Z.eqb_refl|].
  apply Z.eqb_neq. intros E. apply mod_window_inj in E; lia.
Qed.

Lemma prod_start_inv ptr s s' : inv s → step (PStart ptr) s = Some s' → inv s'.
Proof.
  intros Hi. pose proof Hi as []. cbn. destruct (prod s) eqn:Ep; [|done..].
  destruct i_wlog0 as [Hl Hlog]. rewrite (log_last _ _ Hl Hlog).
  intros [= <-]. by split.
Qed.

Lemma cons_start_inv s s' : inv s → step CStart s = Some s' → inv s'.
Proof.
  intros Hi. pose proof Hi as []. cbn. destruct (cons s) eqn:Ep; [|done..].
  destruct i_rlog0 as [Hl Hlog]. rewrite (log_last _ _ Hl Hlog).
  intros [= <-]. by split.
Qed.

Lemma prod_check_inv j s s' : inv s → step (PCheck j) s = Some s' → inv s'.
Proof using HSize.
  intros Hi. pose proof Hi as []. unfold step. destruct (prod s) eqn:Ep; [done| |done..].
  destruct (Nat.ltb_spec j (pview s)); [done|].
  destruct (rlog s !! j) as [m|] eqn:Em; [|done].
  pose proof (lookup_lt_Some _ _ _ Em) as Hj. apply i_rlog0 in Em. subst m.
  cbn in *. intros [= <-]. subst cw. unfold pushed_n, popped_n in *.
  rewrite next_idx_mod, full_test by lia.
  destruct (Z.eqb_spec (Z.of_nat (length (pushed s)) - Z.of_nat j) (Size - 1));
    split; unfold pushed_n, popped_n; cbn; try done; lia.
Qed.

Lemma cons_check_inv j s s' : inv s → step (CCheck j) s = Some s' → inv s'.
Proof using HSize.
  intros Hi. pose proof Hi as []. unfold step. destruct (cons s) eqn:Ep; [done| |done..].
  destruct (Nat.ltb_spec j (cview s)); [done|].
  destruct (wlog s !! j) as [m|] eqn:Em; [|done].
  pose proof (lookup_lt_Some _ _ _ Em) as Hj. apply i_wlog0 in Em. subst m.
  cbn in *. intros [= <-]. subst cr. unfold pushed_n, popped_n in *.
  rewrite empty_test by lia.
  destruct (Z.eqb_spec (Z.of_nat (length (popped s))) (Z.of_nat j));
    split; unfold pushed_n, popped_n; cbn; try done; lia.
Qed.

(** The slot the producer is about to write was last read before a message the
    producer has acquired. *)
Lemma prod_write_ordered s ptr cw nw r :
  inv s → prod s = PChecked ptr cw nw → zget (rclk s) cw = Some r → r ≤ pseen s.
Proof using HSize.
  intros [] Ep Hr. rewrite Ep in *. cbn in *.
  destruct i_prod0 as (-> & -> & Hroom). destruct (i_rclk0 _ _ Hr) as [->|[Hrr E]]; [lia|].
  destruct (Z.le_gt_cases r (pseen s)) as [|Hgt]; [done|exfalso].
  destruct (cons s); cbn in *; apply mod_window_inj in E; lia.
Qed.

Lemma cons_read_ordered s cr w :
  inv s → cons s = CChecked cr → zget (wclk s) cr = Some w → w ≤ cseen s.
Proof using HSize.
  intros [] Ep Hr. rewrite Ep in *. cbn in *.
  destruct i_cons0 as (-> & Hroom). destruct (i_wclk0 _ _ Hr) as [->|[Hrr E]]; [lia|].
  destruct (Z.le_gt_cases w (cseen s)) as [|Hgt]; [done|exfalso]. symmetry in E.
  destruct (prod s); cbn in *; apply mod_window_inj in E; lia.
Qed.

Lemma prod_write_inv s s' : inv s → step PWrite s = Some s' → inv s'.
Proof using HSize.
  intros Hi. pose proof Hi as []. cbn. destruct (prod s) as [| |ptr cw nw|] eqn:Ep; [done..| |done].
  destruct (zset (slots s) cw ptr) as [ring|] eqn:Es; [|done]. cbn.
  destruct (zget (rclk s) cw) as [r|] eqn:Er; [|done]. cbn.
  destruct (zset (wclk s) cw (pwrites s + 1)) as [clk|] eqn:Ec; [|done]. cbn.
  pose proof (prod_write_ordered s ptr cw nw r Hi Ep Er) as Hord.
  intros [= <-]. cbn in *. destruct i_prod0 as (-> & -> & Hroom).
  pose proof (zset_length _ _ _ _ Es). pose proof (zset_length _ _ _ _ Ec).
  split; unfold pushed_n, popped_n in *; cbn; try done; try lia.
  - split_and!; try done; try lia. rewrite (zget_zset _ _ _ _ _ Es). by rewrite decide_True.
  - intros k Hk. rewrite (zget_zset _ _ _ _ _ Es), decide_False; [by apply i_slots0|].
    intros E. symmetry in E. apply mod_window_inj in E; lia.
  - eapply clk_ok_set; [|exact Ec| | |done]; [done|lia|f_equal; lia].
  - rewrite i_race0, (proj2 (Z.leb_le _ _)) by done. done.
Qed.

Lemma cons_read_inv s s' : inv s → step CRead s = Some s' → inv s'.
Proof using HSize.
  intros Hi. pose proof Hi as []. cbn. destruct (cons s) as [| |cr|] eqn:Ep; [done..| |done].
  destruct (zget (slots s) cr) as [ptr|] eqn:Es; [|done]. cbn.
  destruct (zget (wclk s) cr) as [w|] eqn:Er; [|done]. cbn.
  destruct (zset (rclk s) cr (creads s + 1)) as [clk|] eqn:Ec; [|done]. cbn.
  pose proof (cons_read_ordered s cr w Hi Ep Er) as Hord.
  intros [= <-]. cbn in *. destruct i_cons0 as (-> & Hroom).
  pose proof (zset_length _ _ _ _ Ec).
  split; unfold pushed_n, popped_n in *; cbn; try done; try lia.
  - split_and!; try done. rewrite <-Es. symmetry. apply i_slots0. lia.
  - eapply clk_ok_set; [|exact Ec| | |done]; [done|lia|f_equal; lia].
  - rewrite i_race0, (proj2 (Z.leb_le _ _)) by done. done.
Qed.

Lemma prod_publish_inv s s' : inv s → step PPublish s = Some s' → inv s'.
Proof using HSize.
  intros Hi. pose proof Hi as []. cbn. destruct (prod s) as [| | |ptr nw] eqn:Ep; [done..|].
  intros [= <-]. cbn in *. destruct i_prod0 as (-> & Hroom & Hslot).
  split; unfold pushed_n, popped_n in *; cbn; rewrite ?length_app; cbn; try done; try lia.
  - split; [lia|]. apply log_ok_snoc; [apply i_wlog0| |lia]. f_equal. lia.
  - destruct (cons s); cbn in *; try done. destruct i_cons0 as (? & ? & ?).
    split_and!; try done. rewrite zget_snoc by lia. done.
  - intros k Hk. destruct (decide (k = Z.of_nat (length (pushed s)))) as [->|].
    + rewrite Hslot. symmetry. by apply zget_snoc_eq.
    + rewrite zget_snoc by lia. apply i_slots0. lia.
  - rewrite take_app_le by lia. done.
Qed.

Lemma cons_publish_inv s s' : inv s → step CPublish s = Some s' → inv s'.
Proof using HSize.
  intros Hi. pose proof Hi as []. cbn. destruct (cons s) as [| | |cr ptr] eqn:Ep; [done..|].
  intros [= <-]. cbn in *. destruct i_cons0 as (-> & Hroom & Hget).
  split; unfold pushed_n, popped_n in *; cbn; rewrite ?length_app; cbn; try done; try lia.
  - split; [lia|]. rewrite next_idx_mod.
    apply log_ok_snoc; [apply i_rlog0| |lia]. f_equal. lia.
  - intros k Hk. apply i_slots0. lia.
  - rewrite Nat.add_1_r, (take_S_r _ _ ptr), <-i_fifo0; [done|].
    unfold zget in Hget. rewrite decide_True in Hget by lia. by rewrite Nat2Z.id in Hget.
Qed.

Lemma ring_step_inv l s s' : inv s → step l s = Some s' → inv s'.
Proof using HSize.
  destruct l; [apply prod_start_inv|apply prod_check_inv|apply prod_write_inv
    |apply prod_publish_inv|apply cons_start_inv|apply cons_check_inv
    |apply cons_read_inv|apply cons_publish_inv].
Qed.

Lemma reachable_inv junk s :
  Z.of_nat (length junk) = Size → rtc tstep (start junk) s → inv s.
Proof using HSize.
  intros Hj. apply rtc_invariant; [|by apply ring_start_inv].
  intros a b Ha [l E]. by eapply ring_step_inv.
Qed.

(** The call a thread is inside of: none of its accesses can fail. *)
Lemma prod_slot s ptr cw nw :
  inv s → prod s = PChecked ptr cw nw → is_Some (step PWrite s).
Proof using HSize.
  intros [] Ep. rewrite Ep in *. cbn in *. destruct i_prod0 as (-> & _).
  pose proof (Z.mod_pos_bound (pushed_n s) Size ltac:(lia)) as Hb. rewrite Ep.
  rewrite !zset_eq by lia. cbn.
  destruct (zget_is_Some (rclk s) (pushed_n s `mod` Size)) as [r ->]; [lia|]. by eexists.
Qed.

Lemma cons_slot s cr : inv s → cons s = CChecked cr → is_Some (step CRead s).
Proof using HSize.
  intros [] Ep. rewrite Ep in *. cbn in *. destruct i_cons0 as (-> & _).
  pose proof (Z.mod_pos_bound (popped_n s) Size ltac:(lia)) as Hb. rewrite Ep.
  destruct (zget_is_Some (slots s) (popped_n s `mod` Size)) as [x ->]; [lia|]. cbn.
  destruct (zget_is_Some (wclk s) (popped_n s `mod` Size)) as [w ->]; [lia|]. cbn.
  rewrite zset_eq by lia. by eexists.
Qed.

End preservation.

(** ** Properties *)

(** C4: The memory orders of the source are enough: with one producer and one
    consumer, under every interleaving and with every stale value the acquire
    loads may return, no slot of the array is ever accessed concurrently by
    both threads without a happens-before order, and the slot accesses that
    follow a successful check stay inside the array. *)
Theorem conduit_mt_race_free junk s :
  0 < Size < 2 ^ 64 → Z.of_nat (length junk) = Size → rtc tstep (start junk) s →
  race s = false ∧
  (∀ ptr cw nw, prod s = PChecked ptr cw nw → is_Some (step PWrite s)) ∧
  (∀ cr, cons s = CChecked cr → is_Some (step CRead s)).
Proof.
  intros Hs Hj Hr. pose proof (reachable_inv Hs junk s Hj Hr) as Hi.
  split; [apply Hi|]. eauto using prod_slot, cons_slot.
Qed.

(** C10: Under every interleaving the consumer receives the accepted pointers in
    the order of the pushes, each once: what it has popped is a prefix of what
    was pushed, and at most [Size - 1] pointers are in flight. *)
Theorem conduit_mt_fifo junk s :
  0 < Size < 2 ^ 64 → Z.of_nat (length junk) = Size → rtc tstep (start junk) s →
  popped s `prefix_of` pushed s ∧
  Z.of_nat (length (pushed s)) - Z.of_nat (length (popped s)) ≤ Size - 1.
Proof.
  intros Hs Hj Hr. destruct (reachable_inv Hs junk s Hj Hr).
  unfold pushed_n, popped_n in *. split; [|lia].
  rewrite i_fifo0. eexists. symmetry. apply take_drop.
Qed.

(** C27: The answers are exact with respect to the message that was read: [push]
    refuses if and only if [Size - 1] pointers are outstanding beyond the pops
    it has seen ([j] of them), and [pop] reports an empty conduit if and only
    if every push it has seen was already popped.  With the newest message
    this is the state of the conduit itself, and an older message only makes
    the answer conservative. *)
Theorem conduit_mt_answers junk s :
  0 < Size < 2 ^ 64 → Z.of_nat (length junk) = Size → rtc tstep (start junk) s →
  (∀ ptr cw j s', prod s = PLoaded ptr cw → step (PCheck j) s = Some s' →
     (j ≤ length (popped s))%nat ∧
     (prod s' = PIdle ↔ Z.of_nat (length (pushed s)) - Z.of_nat j = Size - 1)) ∧
  (∀ cr j s', cons s = CLoaded cr → step (CCheck j) s = Some s' →
     (j ≤ length (pushed s))%nat ∧ (cons s' = CIdle ↔ j = length (popped s))).
Proof.
  intros Hs Hj Hr. destruct (reachable_inv Hs junk s Hj Hr).
  unfold pushed_n, popped_n in *. split.
  - intros ptr cw j s' Ep. unfold step. rewrite Ep in *.
    destruct (Nat.ltb_spec j (pview s)); [done|].
    destruct (rlog s !! j) as [m|] eqn:Em; [|done].
    pose proof (lookup_lt_Some _ _ _ Em). apply i_rlog0 in Em. subst m.
    cbn in *. intros [= <-]. subst cw. cbn. split; [lia|].
    rewrite next_idx_mod, full_test by lia.
    match goal with |- context [Z.eqb ?a ?b] => destruct (Z.eqb_spec a b) end; split; done || lia.
  - intros cr j s' Ep. unfold step. rewrite Ep in *.
    destruct (Nat.ltb_spec j (cview s)); [done|].
    destruct (wlog s !! j) as [m|] eqn:Em; [|done].
    pose proof (lookup_lt_Some _ _ _ Em). apply i_wlog0 in Em. subst m.
    cbn in *. intros [= <-]. subst cr. cbn. split; [lia|].
    rewrite empty_test by lia.
    match goal with |- context [Z.eqb ?a ?b] => destruct (Z.eqb_spec a b) end; split; done || lia.
Qed.

End steps.

(** Executing a schedule, and what an execution shows. *)
Fixpoint exec (Size : Z) (ls : list label) (s : state) : option state :=
  match ls with
  | [] => Some s
  | l :: ls' => s' ← step Size l s; exec Size ls' s'
  end.

Lemma exec_rtc Size ls s s' : exec Size ls s = Some s' → rtc (tstep Size) s s'.
Proof.
  revert s. induction ls as [|l ls IH]; cbn; intros s.
  - intros [= ->]. apply rtc_refl.
  - destruct (step Size l s) as [s1|] eqn:E; [|done]. cbn. intros H.
    apply rtc_l with s1; [by exists l|by apply IH].
Qed.

(** A ring of three slots driven around its end; the producer's last check
    reads a stale message of [read_idx_] and would be refused, the one after
    reads a newer message. *)
Definition wrap_schedule : list label :=
  [PStart 8; CStart; PCheck 0; PWrite; PPublish; PStart 16; CCheck 1; CRead;
   PCheck 0; PWrite; CPublish; PPublish; PStart 24; PCheck 0; CStart; PStart 24;
   CCheck 2; PCheck 1; CRead; PWrite].

Definition wrap_start : state := start 3 [1; 2; 3].

Definition summary (s : state) : bool * list Z * list Z * bool :=
  (race s, pushed s, popped s,
   match prod s with PStored _ _ => true | _ => false end).

Example wrap_runs : summary <$> exec 3 wrap_schedule wrap_start = Some (false, [8; 16], [8], true).
Proof. vm_compute. reflexivity. Qed.

Lemma conduit_mt_race_free_witness :
  ∃ s, exec 3 wrap_schedule wrap_start = Some s ∧ race s = false.
Proof.
  destruct (exec 3 wrap_schedule wrap_start) as [s|] eqn:E; [|vm_compute in E; discriminate E].
  exists s. split; [done|].
  exact (proj1 (conduit_mt_race_free 3 [1; 2; 3] s ltac:(lia) eq_refl
    (exec_rtc 3 wrap_schedule wrap_start s E))).
Defined.

Lemma conduit_mt_fifo_witness :
  ∃ s, exec 3 wrap_schedule wrap_start = Some s ∧ popped s `prefix_of` pushed s.
Proof.
  destruct (exec 3 wrap_schedule wrap_start) as [s|] eqn:E; [|vm_compute in E; discriminate E].
  exists s. split; [done|].
  exact (proj1 (conduit_mt_fifo 3 [1; 2; 3] s ltac:(lia) eq_refl
    (exec_rtc 3 wrap_schedule wrap_start s E))).
Defined.

(** With two of three slots taken, a push that reads message 0 of [read_idx_]
    is refused. *)
Lemma conduit_mt_answers_witness :
  ∃ s s', exec 3 (take 13 wrap_schedule) wrap_start = Some s ∧
          step 3 (PCheck 0) s = Some s' ∧ prod s' = PIdle.
Proof.
  destruct (exec 3 (take 13 wrap_schedule) wrap_start) as [s|] eqn:E;
    [|vm_compute in E; discriminate E].
  destruct (step 3 (PCheck 0) s) as [s'|] eqn:E';
    [|vm_compute in E; injection E as <-; vm_compute in E'; discriminate E'].
  exists s, s'. split; [done|]. split; [done|].
  assert (prod s = PLoaded 24 2 ∧ length (pushed s) = 2%nat) as [Ep El]
    by (vm_compute in E; injection E as <-; done).
  apply (proj1 (conduit_mt_answers 3 [1; 2; 3] s ltac:(lia) eq_refl
    (exec_rtc 3 (take 13 wrap_schedule) wrap_start s E)) 24 2 0%nat s' Ep E'). rewrite El. reflexivity.
Defined.

End ConduitMT.
