(* ===== verification/Pipeline.v ===== *)
(** * Handlers and dispatch (include/conduit/core.hpp, layer 6)

    [pipeline<Handlers...>] sends an event through its handlers.  For one
    handler the dispatch walks the event's base types first, then the event
    type itself, and calls [h.on] wherever the handler has an overload; a
    handler that answers [false] or empties the pointer ends the dispatch.

    The templates are resolved at compile time: an event type is a finite tree
    ([CurrentType::base_types]), and a handler is a table from types to the
    [on] overload it has (void, or bool).  Handlers act on a world [W] that
    holds their own state and the pools. *)

From S2P Require Import Prelude EventPtr.

Local Open Scope Z_scope.

(** An event type: its identity and, when [base_types] is declared, the bases
    in order, each with its offset inside this type. *)
Inductive ety := Ety (id : Z) (base_types : option (list (Z * ety))).

Definition ety_id (t : ety) : Z := let 'Ety id _ := t in id.

Section pipeline.
Context {W : Type}.

(** [h.on(event_ptr<E>&)]: may change the pointer and the world; [None] is
    undefined behaviour in the handler. *)
Inductive overload :=
  | OnVoid (on : event_ptr W → W → option (event_ptr W * W))
  | OnBool (on : event_ptr W → W → option (bool * event_ptr W * W)).

(** [requires { h.on(ev); }] and the overload chosen. *)
Definition handler : Type := Z → option overload.

Definition call_on_if_exists (h : handler) (E : Z) (ev : event_ptr W) (w : W)
    : option (bool * event_ptr W * W) :=
  match h E with
  | Some (OnBool on) => on ev w
  | Some (OnVoid on) => '(ev', w') ← on ev w; Some (true, ev', w')
  | None => Some (true, ev, w)
  end.

(** The body of [traverse_and_call] after the bases: call the handler on the
    event itself, or on a non-owning view of the base at offset [off].  The
    view is destroyed at the end of its scope. *)
Definition call_current (h : handler) (Event Current off : Z) (ev : event_ptr W) (w : W)
    : option (bool * event_ptr W * W) :=
  if Event =? Current then call_on_if_exists h Event ev w
  else
    let base_view := ep_view off ev in
    '(proceed, base_view', w1) ← call_on_if_exists h Current base_view w;
    let '(proceed', ev') :=
      if negb (ep_bool base_view') then (false, (ep_release ev).2)
      else (proceed, ev) in
    w2 ← ep_destroy base_view' w1;
    Some (proceed', ev', w2).

(** [traverse_and_call<Handler, Event, CurrentType>]; [off] is the offset of
    [CurrentType] inside [Event]. *)
Fixpoint traverse_and_call (h : handler) (Event : Z) (off : Z) (Current : ety)
    (ev : event_ptr W) (w : W) : option (bool * event_ptr W * W) :=
  let 'Ety id base_types := Current in
  '(proceed, ev1, w1) ←
    match base_types with
    | None => Some (true, ev, w)
    | Some bases =>
        (fix each (bs : list (Z * ety)) (ev : event_ptr W) (w : W) :=
           match bs with
           | [] => Some (true, ev, w)
           | (o, b) :: bs' =>
               '(r, ev1, w1) ← traverse_and_call h Event (off + o) b ev w;
               if r && ep_bool ev1 then each bs' ev1 w1
               else Some (false, ev1, w1)
           end) bases ev w
    end;
  if proceed && ep_bool ev1 then
    '(proceed', ev2, w2) ← call_current h Event id off ev1 w1;
    Some (proceed' && ep_bool ev2, ev2, w2)
  else Some (proceed && ep_bool ev1, ev1, w1).

Definition inner_dispatch (h : handler) (E : ety) (ev : event_ptr W) (w : W) :=
  traverse_and_call h (ety_id E) 0 E ev w.

(** [(inner_dispatch(h, ev) && ...)] over the tuple of handlers. *)
Fixpoint dispatch_all (hs : list handler) (E : ety) (ev : event_ptr W) (w : W)
    : option (bool * event_ptr W * W) :=
  match hs with
  | [] => Some (true, ev, w)
  | h :: hs' =>
      '(r, ev1, w1) ← inner_dispatch h E ev w;
      if r : bool then dispatch_all hs' E ev1 w1 else Some (false, ev1, w1)
  end.

(** [void dispatch(event_ptr<Event>& ev)]. *)
Definition dispatch (hs : list handler) (E : ety) (ev : event_ptr W) (w : W)
    : option (event_ptr W * W) :=
  if negb (ep_bool ev) then Some (ev, w)
  else '(_, ev', w') ← dispatch_all hs E ev w; Some (ev', w').

(** [void dispatch(event_ptr<Event>&& ev)]: the caller's pointer afterwards,
    and the world after the local pointer is destroyed. *)
Definition dispatch_rvalue (hs : list handler) (E : ety) (ev : event_ptr W) (w : W)
    : option (event_ptr W * W) :=
  let '(local_ev, ev') := ep_move_ctor ev in
  '(local_ev', w1) ← dispatch hs E local_ev w;
  w2 ← ep_destroy local_ev' w1;
  Some (ev', w2).

(** ** The reference semantics: one flat list of calls *)

(** The types a handler is offered, in order: post-order of the tree. *)
Fixpoint linear (off : Z) (t : ety) : list (Z * Z) :=
  let 'Ety id base_types := t in
  match base_types with
  | None => []
  | Some bases =>
      (fix each (bs : list (Z * ety)) :=
         match bs with
         | [] => []
         | (o, b) :: bs' => linear (off + o) b ++ each bs'
         end) bases
  end ++ [(id, off)].

(** The calls of a whole dispatch: handler by handler, base types first. *)
Definition calls (hs : list handler) (E : ety) : list (handler * (Z * Z)) :=
  hs ≫= λ h, pair h <$> linear 0 E.

(** Deliver the event along a list of calls, until one of them answers [false]
    or leaves the pointer empty. *)
Fixpoint deliver (Event : Z) (cs : list (handler * (Z * Z))) (ev : event_ptr W) (w : W)
    : option (bool * event_ptr W * W) :=
  match cs with
  | [] => Some (true, ev, w)
  | (h, (id, off)) :: cs' =>
      '(r, ev1, w1) ← call_current h Event id off ev w;
      if r && ep_bool ev1 then deliver Event cs' ev1 w1
      else Some (false, ev1, w1)
  end.

Lemma deliver_app Event cs1 cs2 ev w :
  deliver Event (cs1 ++ cs2) ev w =
  '(r, ev1, w1) ← deliver Event cs1 ev w;
  if r : bool then deliver Event cs2 ev1 w1 else Some (false, ev1, w1).
Proof.
  revert ev w. induction cs1 as [|[h [id off]] cs1 IH]; intros ev w; [done|]. cbn.
  destruct (call_current h Event id off ev w) as [[[r ev1] w1]|]; [|done]. cbn.
  destruct (r && ep_bool ev1); [apply IH|done].
Qed.

(** A delivery that runs to the end leaves a non-empty pointer. *)
Lemma deliver_nonempty Event cs ev w ev' w' :
  ep_bool ev = true → deliver Event cs ev w = Some (true, ev', w') →
  ep_bool ev' = true.
Proof.
  revert ev w. induction cs as [|[h [id off]] cs IH]; intros ev w Hev; cbn; [by intros [= <- <-]|].
  destruct (call_current h Event id off ev w) as [[[r ev1] w1]|]; [|done]. cbn.
  destruct (r && ep_bool ev1) eqn:E; [|done]. apply andb_true_iff in E as [_ E].
  by apply IH.
Qed.

End pipeline.

Arguments handler W : clear implicits.
Arguments overload W : clear implicits.

(** Induction on a type and all the types below it. *)
Section ety_ind.
Context (P : ety → Prop).
Context (Hleaf : ∀ id, P (Ety id None)).
Context (Hnode : ∀ id bs, Forall (λ ob, P ob.2) bs → P (Ety id (Some bs))).

Fixpoint ety_tree_ind (t : ety) : P t :=
  match t with
  | Ety id None => Hleaf id
  | Ety id (Some bs) =>
      Hnode id bs
        ((fix each (bs : list (Z * ety)) : Forall (λ ob, P ob.2) bs :=
            match bs with
            | [] => Forall_nil_2 _
            | ob :: bs' => Forall_cons_2 _ _ _ (ety_tree_ind (ob.2)) (each bs')
            end) bs)
  end.
End ety_ind.

(** ** Dispatch is delivery along the flat list of calls *)

Section dispatch_facts.
Context {W : Type}.
Implicit Types (h : handler W) (hs : list (handler W)) (ev : event_ptr W) (w : W).

Lemma traverse_deliver h Event t off ev w :
  ep_bool ev = true →
  traverse_and_call h Event off t ev w = deliver Event (pair h <$> linear off t) ev w.
Proof.
  revert off ev w. induction t as [id|id bs IH] using ety_tree_ind; intros off ev w Hev.
  - cbn. rewrite Hev. cbn.
    destruct (call_current h Event id off ev w) as [[[r ev1] w1]|]; [|done]. cbn.
    by destruct (r && ep_bool ev1).
  - cbn [traverse_and_call linear]. rewrite fmap_app, deliver_app.
    revert ev w Hev. induction IH as [|[o b] bs Hb _ IHbs]; intros ev w Hev.
    + cbn. rewrite Hev. cbn.
      destruct (call_current h Event id off ev w) as [[[r ev1] w1]|]; [|done]. cbn.
      by destruct (r && ep_bool ev1).
    + rewrite fmap_app, deliver_app. cbn in Hb. rewrite Hb by done.
      destruct (deliver Event (pair h <$> linear (off + o) b) ev w)
        as [[[r ev1] w1]|] eqn:Ed; [|done]. cbn.
      destruct r; [|done]. cbn. apply deliver_nonempty in Ed as Hne; [|done].
      rewrite Hne. by apply IHbs.
Qed.

Lemma dispatch_all_deliver hs E ev w :
  ep_bool ev = true →
  dispatch_all hs E ev w = deliver (ety_id E) (calls hs E) ev w.
Proof.
  revert ev w. induction hs as [|h hs IH]; intros ev w Hev; [done|].
  cbn [dispatch_all]. unfold inner_dispatch. rewrite traverse_deliver by done.
  change (calls (h :: hs) E) with ((pair h <$> linear 0 E) ++ calls hs E).
  rewrite deliver_app.
  destruct (deliver _ (pair h <$> _) ev w) as [[[r ev1] w1]|] eqn:Ed; [|done]. cbn.
  destruct r; [|done]. apply IH. by eapply deliver_nonempty.
Qed.

Lemma ep_view_bool off ev :
  ep_bool ev = true → ptr_ ev + off ≠ nullptr → ep_bool (ep_view off ev) = true.
Proof. intros Hev Hp. apply ep_bool_true. unfold ep_view. by rewrite Hev. Qed.

Lemma ep_view_destroy off ev w : ep_destroy (ep_view off ev) w = Some w.
Proof.
  unfold ep_destroy. rewrite ep_reset_not_owner; [done|apply ep_view_not_owner].
Qed.

(** A handler without an overload for a type is not disturbed by it. *)
Lemma call_current_skip h Event id off ev w :
  ep_bool ev = true → h id = None → ptr_ ev + off ≠ nullptr →
  call_current h Event id off ev w = Some (true, ev, w).
Proof.
  intros Hev Hh Hp. unfold call_current.
  destruct (Z.eqb_spec Event id) as [->|]; unfold call_on_if_exists; rewrite Hh; [done|].
  cbn -[ep_destroy]. rewrite ep_view_bool by done. cbn -[ep_destroy].
  by rewrite ep_view_destroy.
Qed.

(** An event that no handler knows comes back untouched. *)
Lemma deliver_ignored Event cs ev w :
  ep_bool ev = true →
  Forall (λ c, c.1 c.2.1 = None ∧ ptr_ ev + c.2.2 ≠ nullptr) cs →
  deliver Event cs ev w = Some (true, ev, w).
Proof.
  intros Hev. induction 1 as [|[h [id off]] cs [Hh Hp] _ IH]; [done|]. cbn in *.
  rewrite call_current_skip by done. cbn. by rewrite Hev.
Qed.

(** C11: Dispatch is equivalent to its flat reference semantics: handlers in the
    order of the pipeline, for each of them the base types before the event
    type (the post-order of the type tree), until a call answers [false] or
    empties the pointer; nothing after that call runs.  An empty pointer is not
    dispatched at all. *)
Theorem dispatch_linear hs E ev w :
  dispatch hs E ev w =
  if ep_bool ev
  then '(_, ev', w') ← deliver (ety_id E) (calls hs E) ev w; Some (ev', w')
  else Some (ev, w).
Proof.
  unfold dispatch. destruct (ep_bool ev) eqn:Hev; [|done]. cbn.
  by rewrite dispatch_all_deliver.
Qed.

(** ** Who ends up with the event *)

(** The discipline of a handler: a call on the event's own type keeps the
    pointer, or empties it and takes the event; a call on a base type only looks
    at the view.  [keep w w'] says that the event's whereabouts are the same in
    both worlds, [take ev w w'] that [w'] has taken the event [ev] owned. *)
Section discipline.
Context (keep : W → W → Prop) (take : event_ptr W → W → W → Prop) (Event : Z).

Definition settles ev (r : option (bool * event_ptr W * W)) w : Prop :=
  ∃ b ev' w', r = Some (b, ev', w') ∧
    ((ev' = ev ∧ keep w w') ∨ (ev' = ep_clear ev ∧ take ev w w')).

Definition disciplined (h : handler W) : Prop :=
  ∀ id ev w, ep_bool ev = true →
    if id =? Event then settles ev (call_on_if_exists h id ev w) w
    else ∃ b w', call_on_if_exists h id ev w = Some (b, ev, w') ∧ keep w w'.

Lemma call_current_settles h id off ev w :
  disciplined h → ep_bool ev = true → ptr_ ev + off ≠ nullptr →
  settles ev (call_current h Event id off ev w) w.
Proof.
  intros Hd Hev Hp. unfold call_current. destruct (Z.eqb_spec Event id) as [E|Hne].
  - pose proof (Hd Event ev w Hev) as H. by rewrite Z.eqb_refl in H.
  - pose proof (ep_view_bool off ev Hev Hp) as Hv.
    pose proof (Hd id (ep_view off ev) w Hv) as H.
    rewrite (proj2 (Z.eqb_neq _ _)) in H by done. destruct H as (b & w' & -> & Hs).
    cbn -[ep_destroy]. rewrite Hv. cbn -[ep_destroy]. rewrite ep_view_destroy. cbn.
    exists b, ev, w'. split; [done|]. by left.
Qed.

Context (keep_refl : ∀ w, keep w w).
Context (keep_trans : ∀ w1 w2 w3, keep w1 w2 → keep w2 w3 → keep w1 w3).
Context (keep_take : ∀ ev w1 w2 w3, keep w1 w2 → take ev w2 w3 → take ev w1 w3).

Lemma deliver_settles cs ev w :
  Forall (λ c, disciplined c.1 ∧ ptr_ ev + c.2.2 ≠ nullptr) cs → ep_bool ev = true →
  settles ev (deliver Event cs ev w) w.
Proof using keep_refl keep_trans keep_take.
  intros Hcs Hev. revert w. induction Hcs as [|[h [id off]] cs [Hd Hp] _ IH]; intros w.
  - exists true, ev, w. split; [done|]. by left.
  - cbn in *. destruct (call_current_settles h id off ev w) as (b & ev' & w' & -> & Hc);
      [done..|]. cbn.
    destruct Hc as [[-> Hs]|[-> Hs]].
    + rewrite Hev, andb_true_r. destruct b; cbn.
      * destruct (IH w') as (b & ev' & w2 & -> & Hc). exists b, ev', w2.
        split; [done|]. destruct Hc as [[-> ?]|[-> ?]]; [left|right]; eauto.
      * exists false, ev, w'. split; [done|]. by left.
    + rewrite ep_bool_clear, andb_false_r. exists false, (ep_clear ev), w'.
      split; [done|]. by right.
Qed.

(** A dispatch by rvalue ends with the event taken: by a handler, or by the
    destructor of the local pointer. *)
Lemma dispatch_rvalue_takes hs E p del ctx w :
  ety_id E = Event → p ≠ nullptr → Forall disciplined hs →
  Forall (λ c, p + c.2 ≠ nullptr) (linear 0 E) →
  (∀ w0, keep w w0 → ∃ w1, del ctx p w0 = Some w1 ∧ take (ep_make p del ctx) w0 w1) →
  ∃ w', dispatch_rvalue hs E (ep_make p del ctx) w
        = Some (ep_clear (ep_make p del ctx), w') ∧ take (ep_make p del ctx) w w'.
Proof using keep_refl keep_trans keep_take.
  intros HE Hp Hhs Hoff Hdel. unfold dispatch_rvalue.
  cbn [ep_move_ctor ep_make ptr_ deleter_ pool_ctx_].
  change (EventPtr p (Some del) ctx) with (ep_make p del ctx) in *.
  set (ev := ep_make p del ctx) in *.
  assert (ep_bool ev = true) as Hev by (by apply ep_bool_true).
  unfold dispatch. rewrite Hev. cbn. rewrite dispatch_all_deliver, HE by done.
  destruct (deliver_settles (calls hs E) ev w) as (b & ev' & w' & -> & Hc); [|done|].
  { apply Forall_bind. eapply Forall_impl; [exact Hhs|]. intros h Hh. cbn.
    apply Forall_fmap. eapply Forall_impl; [exact Hoff|]. by intros [id off]. }
  cbn. unfold ep_destroy. destruct Hc as [[-> Hs]|[-> Hs]].
  - destruct (Hdel w' Hs) as (w2 & E2 & Hw2). 
    pose proof (ep_reset_owner p del ctx w' Hp) as Hr. fold ev in Hr.
    rewrite Hr, E2. cbn. exists w2. split; [done|]. by eapply keep_take.
  - rewrite ep_reset_not_owner by done. cbn. by exists w'.
Qed.

End discipline.

(** Resetting a view empties the owning pointer without running its deleter. *)
Lemma call_current_view_reset h Event base off ev w :
  base ≠ Event → h base = Some (OnVoid ep_reset) →
  call_current h Event base off ev w = Some (false, ep_clear ev, w).
Proof.
  intros Hne Hh. unfold call_current. rewrite (proj2 (Z.eqb_neq Event base)) by done.
  unfold call_on_if_exists. rewrite Hh, ep_reset_not_owner by apply ep_view_not_owner. done.
Qed.

(** C40: A handler that consumes an event through a view of one of its base
    types leaks it: the view owns nothing, so its [reset] frees nothing, and
    the pipeline then drops the owning pointer with [ev.release()].  The
    dispatch ends with the caller's pointer empty and the world exactly as it
    was: the deleter is never called. *)
Theorem base_view_reset_leaks h hs id off base p del ctx w :
  p ≠ nullptr → base ≠ id →
  h base = Some (OnVoid ep_reset) →
  dispatch_rvalue (h :: hs) (Ety id (Some [(off, Ety base None)])) (ep_make p del ctx) w
  = Some (ep_clear (ep_make p del ctx), w).
Proof.
  intros Hp Hne Hh. unfold dispatch_rvalue. cbn [ep_move_ctor ep_make ptr_ deleter_ pool_ctx_].
  change (EventPtr p (Some del) ctx) with (ep_make p del ctx). set (ev := ep_make p del ctx).
  assert (ep_bool ev = true) as Hev by (by apply ep_bool_true).
  unfold dispatch. rewrite Hev. cbn [negb]. rewrite dispatch_all_deliver by done.
  cbn -[call_current]. by rewrite call_current_view_reset.
Qed.

(** ** Every handler gets a pointer to the type it asked for *)

(** [ev] points to the subobject of type [id] of the event of type [E] at [p]. *)
Definition typed (E : ety) (p id : Z) ev : bool :=
  existsb (λ c, (c.1 =? id) && (ptr_ ev =? p + c.2)) (linear 0 E).

Definition guard_overload (ok : event_ptr W → bool) (o : overload W) : overload W :=
  match o with
  | OnVoid on => OnVoid (λ ev w, if ok ev then on ev w else None)
  | OnBool on => OnBool (λ ev w, if ok ev then on ev w else None)
  end.

(** The handler with its pointer checked: undefined behaviour when it is called
    with a pointer that is not [ok] for the type. *)
Definition guarded (ok : Z → event_ptr W → bool) h : handler W := λ id, guard_overload (ok id) <$> h id.

(** ... with a pointer to anything but the subobject of the type. *)
Definition type_checked (E : ety) (p : Z) : handler W → handler W := guarded (typed E p).

(** On the event type itself, the handler leaves the event or takes it. *)
Definition keeps_pointer (Event : Z) h : Prop :=
  ∀ ev w b ev' w', call_on_if_exists h Event ev w = Some (b, ev', w') →
    ptr_ ev' = ptr_ ev ∨ ptr_ ev' = nullptr.

Lemma guarded_call ok h id ev w :
  ok id ev = true → call_on_if_exists (guarded ok h) id ev w = call_on_if_exists h id ev w.
Proof.
  intros Ht. unfold call_on_if_exists, guarded. destruct (h id) as [[on|on]|]; cbn; by rewrite ?Ht.
Qed.

Lemma guarded_current ok Event p h id off ev w :
  (∀ ev', ptr_ ev' = p + off → ok id ev' = true) → (id = Event → off = 0) → ep_bool ev = true → ptr_ ev = p →
  call_current (guarded ok h) Event id off ev w = call_current h Event id off ev w.
Proof.
  intros Ht H0 Hb Hp. unfold call_current.
  destruct (Z.eqb_spec Event id) as [<-|Hne]; rewrite guarded_call; try done; apply Ht.
  - rewrite H0 by done. lia.
  - unfold ep_view. rewrite Hb. cbn. lia.
Qed.

(** While the dispatch goes on, the pointer is the one it started with. *)
Lemma current_keeps E h id off ev w r ev' w' :
  keeps_pointer (ety_id E) h → call_current h (ety_id E) id off ev w = Some (r, ev', w') →
  ep_bool ev' = true → ptr_ ev' = ptr_ ev.
Proof.
  intros Hk Hc Hb. apply ep_bool_true in Hb. unfold call_current in Hc.
  destruct (Z.eqb_spec (ety_id E) id) as [<-|Hne].
  - by destruct (Hk _ _ _ _ _ Hc).
  - destruct (call_on_if_exists h id (ep_view off ev) w) as [[[b v] w1]|]; [|done]. cbn in Hc.
    destruct (negb (ep_bool v)); cbn in Hc; destruct (ep_destroy v w1); cbn in Hc; by inv_some.
Qed.

Lemma deliver_guarded ok E cs ev w :
  Forall (λ c, keeps_pointer (ety_id E) c.1 ∧ (c.2.1 = ety_id E → c.2.2 = 0) ∧
               ∀ ev', ptr_ ev' = ptr_ ev + c.2.2 → ok c.2.1 ev' = true) cs →
  ep_bool ev = true →
  deliver (ety_id E) ((λ c, (guarded ok c.1, c.2)) <$> cs) ev w = deliver (ety_id E) cs ev w.
Proof.
  set (p := ptr_ ev). assert (ptr_ ev = p) as Hp by done. clearbody p. intros Hcs. revert ev w Hp.
  induction Hcs as [|[h [id off]] cs (Hk & H0 & Hok) _ IH]; intros ev w Hp Hb; [done|].
  rewrite fmap_cons. cbn [deliver fst snd] in *. rewrite (guarded_current ok (ety_id E) p) by done.
  destruct (call_current h (ety_id E) id off ev w) as [[[r ev1] w1]|] eqn:Ec; [|done]. cbn [mbind option_bind].
  destruct (r && ep_bool ev1) eqn:Er; [|done]. apply andb_true_iff in Er as [_ Hb1].
  apply IH; [|done]. by rewrite (current_keeps _ _ _ _ _ _ _ _ _ Hk Ec Hb1).
Qed.

(** A check that every call passes changes nothing. *)
Lemma dispatch_guarded ok hs E ev w :
  Forall (keeps_pointer (ety_id E)) hs →
  Forall (λ c, (c.1 = ety_id E → c.2 = 0) ∧ ∀ ev', ptr_ ev' = ptr_ ev + c.2 → ok c.1 ev' = true) (linear 0 E) →
  dispatch (guarded ok <$> hs) E ev w = dispatch hs E ev w.
Proof.
  intros Hhs Hlin. unfold dispatch. destruct (ep_bool ev) eqn:Hb; [|done]. cbn [negb].
  rewrite !dispatch_all_deliver by done.
  assert (calls (guarded ok <$> hs) E = (λ c, (guarded ok c.1, c.2)) <$> calls hs E) as ->.
  { unfold calls. clear. induction hs as [|h hs IH]; [done|].
    rewrite fmap_cons, !bind_cons, fmap_app, IH. f_equal. by rewrite <-list_fmap_compose. }
  rewrite deliver_guarded; [done| |done]. apply Forall_bind. eapply Forall_impl; [exact Hhs|].
  intros h Hh. cbn. apply Forall_fmap, (Forall_impl _ _ _ Hlin). by intros c [? ?].
Qed.

(** Dispatch is well typed.  When the handlers do not exchange the event for
    another one, every call of [on] for a type gets a pointer to exactly the
    subobject of that type inside the dispatched event, the event itself for
    its own type: handlers that fail on any other pointer behave the same, in
    every position of the pipeline and at every level of the type tree. *)
Lemma dispatch_well_typed hs E ev w :
  Forall (keeps_pointer (ety_id E)) hs →
  Forall (λ c, c.1 = ety_id E → c.2 = 0) (linear 0 E) →
  dispatch (type_checked E (ptr_ ev) <$> hs) E ev w = dispatch hs E ev w.
Proof.
  intros Hhs H0. apply dispatch_guarded; [done|]. rewrite Forall_forall in H0 |- *. intros [id off] Hin.
  split; [by apply (H0 _ Hin)|]. intros ev' Hp. apply existsb_exists. exists (id, off).
  split; [by apply list_elem_of_In|]. cbn. by rewrite Hp, !Z.eqb_refl.
Qed.

End dispatch_facts.

(** ** Witnesses

    A base type 1, an event type 2 that extends it at offset 8, and a world
    that records which calls were made and which events were freed. *)

Definition ev_base : ety := Ety 1 None.
Definition ev_type : ety := Ety 2 (Some [(8, ev_base)]).

Abbreviation trace := (list Z * list (Z * Z))%type.

Definition trace_deleter : deleter trace := λ ctx p w, Some (w.1, w.2 ++ [(ctx, p)]).

(** Records the call with [tag]; overloads for both types. *)
Definition observer (tag : Z) : handler trace := λ id,
  if (id =? 1) || (id =? 2)
  then Some (OnVoid (λ ev w, Some (ev, (w.1 ++ [tag * 10 + id], w.2)))) else None.

(** Consumes events of type 2. *)
Definition consumer : handler trace := λ id,
  if id =? 2 then Some (OnVoid (λ ev w, '(ev', w') ← ep_reset ev w; Some (ev', w'))) else None.

(** Stops the dispatch at the base type without touching the event. *)
Definition veto : handler trace := λ id,
  if id =? 1 then Some (OnBool (λ ev w, Some (false, ev, w))) else None.

Example cascade_order :
  dispatch_rvalue [observer 1; observer 2] ev_type (ep_make 64 trace_deleter 7) ([], [])
  = Some (EventPtr 0 None 7, ([11; 12; 21; 22], [(7, 64)])).
Proof. reflexivity. Qed.

Example cascade_veto :
  dispatch_rvalue [observer 1; veto; observer 2] ev_type (ep_make 64 trace_deleter 7) ([], [])
  = Some (EventPtr 0 None 7, ([11; 12], [(7, 64)])).
Proof. reflexivity. Qed.

(** The same event, consumed at its own type: freed. *)
Example consumer_frees :
  dispatch_rvalue [consumer] ev_type (ep_make 64 trace_deleter 7) ([], [])
  = Some (EventPtr 0 None 7, ([], [(7, 64)])).
Proof. reflexivity. Qed.

Lemma base_view_reset_leaks_witness :
  dispatch_rvalue [(λ id, if id =? 1 then Some (OnVoid ep_reset) else None); observer 2]
    ev_type (ep_make 64 trace_deleter 7) ([], [])
  = Some (EventPtr 0 None 7, ([], [])).
Proof.
  apply (base_view_reset_leaks
    (λ id, if id =? 1 then Some (OnVoid ep_reset) else None) [observer 2] 2 8 1 64
    trace_deleter 7 ([], [])); done.
Defined.

(** Two handlers over an event with a base at offset 8: the first looks at both
    types, the second consumes the event. *)
Lemma dispatch_well_typed_witness :
  dispatch (type_checked ev_type 64 <$> [observer 1; consumer]) ev_type (ep_make 64 trace_deleter 7) ([], [])
  = Some (EventPtr 0 None 7, ([11; 12], [(7, 64)])).
Proof.
  etransitivity; [apply (dispatch_well_typed [observer 1; consumer] ev_type (ep_make 64 trace_deleter 7) ([], []))|reflexivity].
  - apply Forall_cons; split; [|apply Forall_cons; split; [|done]]; intros ev w b ev' w' Hc; cbn in Hc.
    + inv_some. by left.
    + destruct (ep_reset ev w) as [[e1 w1]|] eqn:Er; [|done]. cbn in Hc. inv_some.
      right. by rewrite (ep_reset_null _ _ _ _ Er).
  - repeat constructor; cbn; done.
Defined.
