(* ===== verification/Routing.v ===== *)
(** * Round-robin routing (include/conduit/core.hpp, layer 9)

    [round_robin_switch] spreads events over its output tracks,
    [round_robin_poller] collects them from its input tracks.  Tracks are held
    by pointer: the model keeps the conduits in a store by address, so two
    slots of a switch may name the same conduit, and an unbound slot is
    [nullptr].  Everything here is proved against the [Queue] interface, so it
    holds for every bounded FIFO and in particular for [conduit]. *)

From S2P Require Import Prelude Ring EventPtr Interfaces Conduit.

Local Open Scope Z_scope.

Section routing.
Context {Q : Type} `{!Queue Q}.

(** The conduits of the program, by address. *)
Abbreviation tracks := (gmap Z Q).

(** The scan both classes make: [for (i = 0; i < N; ++i)] with
    [idx = (next_ + i) % N], until [try] succeeds.  [rem] is [N - i]. *)
Fixpoint rr_loop {R} (try : Z → tracks → option (option R * tracks)) (N next : Z)
    (rem : nat) (i : Z) (ts : tracks) : option (option (Z * R) * tracks) :=
  match rem with
  | O => Some (None, ts)
  | S rem' =>
      let idx := u64 (next + i) `mod` N in
      '(r, ts') ← try idx ts;
      match r with
      | Some x => Some (Some (idx, x), ts')
      | None => rr_loop try N next rem' (i + 1) ts'
      end
  end.

Definition rr_scan {R} (try : Z → tracks → option (option R * tracks)) (slots : list Z)
    (next : Z) (ts : tracks) : option (option (Z * R) * tracks) :=
  rr_loop try (Z.of_nat (length slots)) next (length slots) 0 ts.

(** ** The switch *)

Record round_robin_switch := Switch { outputs_ : list Z; sw_next_ : Z }.

Definition switch_ctor (NumOutputs : nat) : round_robin_switch :=
  Switch (replicate NumOutputs nullptr) 0.

(** [bind_track(index, track)]: an index out of range is ignored. *)
Definition switch_bind (index track : Z) (sw : round_robin_switch) : round_robin_switch :=
  if (0 <=? index) && (index <? Z.of_nat (length (outputs_ sw)))
  then Switch (<[Z.to_nat index := track]> (outputs_ sw)) (sw_next_ sw)
  else sw.

(** [outputs_[idx] && outputs_[idx]->push(ptr)]. *)
Definition try_push (slots : list Z) (ptr idx : Z) (ts : tracks)
    : option (option unit * tracks) :=
  a ← zget slots idx;
  if a =? nullptr then Some (None, ts)
  else
    q ← ts !! a;
    '(ok, q') ← q_push ptr q;
    Some (if ok : bool then Some () else None, <[a := q']> ts).

(** [void on(event_ptr<T>& ev)]. *)
Definition switch_on {W} (ev : event_ptr W) (sw : round_robin_switch) (ts : tracks)
    : option (event_ptr W * round_robin_switch * tracks) :=
  if negb (ep_bool ev) then Some (ev, sw, ts)
  else
    '(r, ts') ← rr_scan (try_push (outputs_ sw) (ep_get ev)) (outputs_ sw) (sw_next_ sw) ts;
    Some (match r with
          | Some (idx, _) =>
              ((ep_release ev).2,
               Switch (outputs_ sw) (u64 (idx + 1) `mod` Z.of_nat (length (outputs_ sw))), ts')
          | None => (ev, sw, ts')
          end).

(** ** The poller *)

Record round_robin_poller := Poller { inputs_ : list Z; po_next_ : Z }.

Definition poller_ctor (NumInputs : nat) : round_robin_poller :=
  Poller (replicate NumInputs nullptr) 0.

Definition poller_bind (index track : Z) (po : round_robin_poller) : round_robin_poller :=
  if (0 <=? index) && (index <? Z.of_nat (length (inputs_ po)))
  then Poller (<[Z.to_nat index := track]> (inputs_ po)) (po_next_ po)
  else po.

(** [if (inputs_[idx]) if (auto ev = inputs_[idx]->pop(p))]: a null pointer
    in the conduit is falsy too, and is dropped. *)
Definition try_pop (slots : list Z) (idx : Z) (ts : tracks)
    : option (option Z * tracks) :=
  a ← zget slots idx;
  if a =? nullptr then Some (None, ts)
  else
    q ← ts !! a;
    '(slot, q') ← q_pop q;
    let ptr := default nullptr slot in
    Some (if ptr =? nullptr then None else Some ptr, <[a := q']> ts).

(** [event_ptr<T> poll(pool<T>& p)]. *)
Definition poll {W} (del : deleter W) (p : Z) (po : round_robin_poller) (ts : tracks)
    : option (event_ptr W * round_robin_poller * tracks) :=
  '(r, ts') ← rr_scan (try_pop (inputs_ po)) (inputs_ po) (po_next_ po) ts;
  Some (match r with
        | Some (idx, ptr) =>
            (ep_make ptr del p,
             Poller (inputs_ po) (u64 (idx + 1) `mod` Z.of_nat (length (inputs_ po))), ts')
        | None => (ep_null, po, ts')
        end).

(** ** Facts shared by the two scans *)

Definition tracks_ok (slots : list Z) (ts : tracks) : Prop :=
  map_Forall (λ _ q, q_inv q) ts ∧
  ∀ i a, zget slots i = Some a → a ≠ nullptr → is_Some (ts !! a).

Definition slots_ok (slots : list Z) (next : Z) : Prop :=
  Z.of_nat (length slots) ≤ 2 ^ 63 ∧ 0 ≤ next < Z.max 1 (Z.of_nat (length slots)).

(** The slot tried at distance [k] from [next]. *)
Definition rr_idx (slots : list Z) (next k : Z) : Z :=
  (next + k) `mod` Z.of_nat (length slots).

Lemma rr_idx_u64 slots next k :
  slots_ok slots next → 0 ≤ k < Z.of_nat (length slots) →
  u64 (next + k) `mod` Z.of_nat (length slots) = rr_idx slots next k.
Proof. intros [] ?. unfold rr_idx. rewrite wrap_small; [done|word_lia]. Qed.

Lemma rr_idx_range slots next k :
  0 < Z.of_nat (length slots) → 0 ≤ rr_idx slots next k < Z.of_nat (length slots).
Proof. intros. by apply Z.mod_pos_bound. Qed.

(** Every slot is at exactly one distance from [next]. *)
Lemma rr_idx_dist slots next j :
  0 ≤ j < Z.of_nat (length slots) →
  ∃ d, 0 ≤ d < Z.of_nat (length slots) ∧ rr_idx slots next d = j.
Proof.
  intros Hj. exists ((j - next) `mod` Z.of_nat (length slots)).
  split; [apply Z.mod_pos_bound; lia|]. unfold rr_idx. rewrite Zplus_mod_idemp_r.
  replace (next + (j - next)) with j by lia. by apply Z.mod_small.
Qed.

(** The scan: the first distance at which [try] succeeds, with [try] having
    failed without effect at every smaller one. *)
Lemma rr_loop_spec {R} (try : Z → tracks → option (option R * tracks)) slots next rem i ts :
  slots_ok slots next → 0 ≤ i → i + Z.of_nat rem = Z.of_nat (length slots) →
  (∀ k, i ≤ k < Z.of_nat (length slots) →
     ∃ r ts', try (rr_idx slots next k) ts = Some (r, ts') ∧ (r = None → ts' = ts)) →
  (∃ k x ts', i ≤ k < Z.of_nat (length slots) ∧
     rr_loop try (Z.of_nat (length slots)) next rem i ts
       = Some (Some (rr_idx slots next k, x), ts') ∧
     try (rr_idx slots next k) ts = Some (Some x, ts') ∧
     ∀ k', i ≤ k' < k → try (rr_idx slots next k') ts = Some (None, ts)) ∨
  (rr_loop try (Z.of_nat (length slots)) next rem i ts = Some (None, ts) ∧
   ∀ k', i ≤ k' < Z.of_nat (length slots) → try (rr_idx slots next k') ts = Some (None, ts)).
Proof.
  intros Hok. revert i. induction rem as [|rem IH]; intros i Hi Hrem Htry.
  - right. split; [done|]. intros. lia.
  - cbn [rr_loop]. rewrite rr_idx_u64 by (done || lia).
    destruct (Htry i) as (r & ts' & E & Hn); [lia|]. rewrite E. cbn.
    destruct r as [x|].
    + left. exists i, x, ts'. split; [lia|]. split_and!; try done. intros. lia.
    + rewrite Hn in * by done. clear Hn.
      destruct (IH (i + 1)) as [(k & x & t & Hk & E1 & E2 & Hf)|[E1 Hf]];
        [lia|lia|intros; apply Htry; lia| |].
      * left. exists k, x, t. split_and!; try done; try lia.
        intros k' Hk'. destruct (decide (k' = i)) as [->|]; [done|]. apply Hf. lia.
      * right. split; [done|]. intros k' Hk'.
        destruct (decide (k' = i)) as [->|]; [done|]. apply Hf. lia.
Qed.

Lemma rr_scan_spec {R} (try : Z → tracks → option (option R * tracks)) slots next ts :
  slots_ok slots next →
  (∀ j, 0 ≤ j < Z.of_nat (length slots) →
     ∃ r ts', try j ts = Some (r, ts') ∧ (r = None → ts' = ts)) →
  (∃ k x ts', 0 ≤ k < Z.of_nat (length slots) ∧
     rr_scan try slots next ts = Some (Some (rr_idx slots next k, x), ts') ∧
     try (rr_idx slots next k) ts = Some (Some x, ts') ∧
     ∀ k', 0 ≤ k' < k → try (rr_idx slots next k') ts = Some (None, ts)) ∨
  (rr_scan try slots next ts = Some (None, ts) ∧
   ∀ k', 0 ≤ k' < Z.of_nat (length slots) → try (rr_idx slots next k') ts = Some (None, ts)).
Proof.
  intros Hok Htry. apply rr_loop_spec; [done|lia|lia|].
  intros k Hk. apply Htry, rr_idx_range. lia.
Qed.

(** Advancing [next] past the slot at distance [k]. *)
Lemma rr_idx_advance slots next k d :
  slots_ok slots next → 0 ≤ k < Z.of_nat (length slots) →
  rr_idx slots (u64 (rr_idx slots next k + 1) `mod` Z.of_nat (length slots)) d
  = rr_idx slots next (k + 1 + d).
Proof.
  intros [? ?] ?. pose proof (rr_idx_range slots next k ltac:(lia)).
  rewrite (wrap_small 64) by word_lia. unfold rr_idx.
  rewrite Zplus_mod_idemp_l, <-Z.add_assoc, Zplus_mod_idemp_l. f_equal. lia.
Qed.

Lemma slots_ok_advance slots next k :
  slots_ok slots next → 0 ≤ k < Z.of_nat (length slots) →
  slots_ok slots (u64 (rr_idx slots next k + 1) `mod` Z.of_nat (length slots)).
Proof.
  intros [? ?] ?. split; [done|].
  pose proof (Z.mod_pos_bound (u64 (rr_idx slots next k + 1)) (Z.of_nat (length slots))). lia.
Qed.

Context {QL : QueueLaws Q}.

(** ** The switch: first track with room *)

Definition has_room (slots : list Z) (ts : tracks) (j : Z) : Prop :=
  ∃ a q, zget slots j = Some a ∧ a ≠ nullptr ∧ ts !! a = Some q ∧
         (length (q_items q) < q_cap q)%nat.

(** One attempt: it succeeds exactly on a bound track with room, and then
    appends the pointer to that track only. *)
Lemma try_push_cases slots ptr ts j :
  tracks_ok slots ts → 0 ≤ j < Z.of_nat (length slots) →
  (∃ a q q', zget slots j = Some a ∧ a ≠ nullptr ∧ ts !! a = Some q ∧
     (length (q_items q) < q_cap q)%nat ∧
     try_push slots ptr j ts = Some (Some (), <[a := q']> ts) ∧
     q_items q' = q_items q ++ [ptr] ∧ q_cap q' = q_cap q ∧ q_inv q') ∨
  (¬ has_room slots ts j ∧ try_push slots ptr j ts = Some (None, ts)).
Proof using QL.
  intros [Hinv Hb] Hj. unfold try_push.
  destruct (zget_is_Some slots j Hj) as [a Ha]. rewrite Ha. cbn.
  destruct (Z.eqb_spec a nullptr) as [->|Hn].
  { right. split; [|done]. intros (a & q & E & ? & _). congruence. }
  destruct (Hb j a Ha Hn) as [q Hq]. rewrite Hq. cbn.
  pose proof (Hinv a q Hq) as Hqi. cbn in Hqi.
  destruct (q_push_cases ptr q Hqi) as [(q' & E & ? & ? & ? & ?)|[E Hf]]; rewrite E; cbn.
  - left. exists a, q, q'. split_and!; done.
  - right. rewrite insert_id by done. split; [|done].
    intros (a' & q0 & E' & _ & Hq' & Hlt). assert (q0 = q) as -> by congruence. lia.
Qed.

Lemma tracks_ok_insert slots ts a q :
  tracks_ok slots ts → q_inv q → tracks_ok slots (<[a := q]> ts).
Proof.
  intros [Hinv Hb] Hq. split; [by apply map_Forall_insert_2|].
  intros i b Hi Hn. apply lookup_insert_is_Some'. right. by eapply Hb.
Qed.

(** What one call of [on] does, for a non-empty event. *)
Lemma switch_on_cases {W} (ev : event_ptr W) sw ts :
  ep_bool ev = true → slots_ok (outputs_ sw) (sw_next_ sw) → tracks_ok (outputs_ sw) ts →
  (∃ k a q q',
     0 ≤ k < Z.of_nat (length (outputs_ sw)) ∧
     zget (outputs_ sw) (rr_idx (outputs_ sw) (sw_next_ sw) k) = Some a ∧
     a ≠ nullptr ∧ ts !! a = Some q ∧ (length (q_items q) < q_cap q)%nat ∧
     (∀ k', 0 ≤ k' < k → ¬ has_room (outputs_ sw) ts (rr_idx (outputs_ sw) (sw_next_ sw) k')) ∧
     q_items q' = q_items q ++ [ptr_ ev] ∧ q_cap q' = q_cap q ∧ q_inv q' ∧
     switch_on ev sw ts =
       Some (ep_clear ev,
             Switch (outputs_ sw) (u64 (rr_idx (outputs_ sw) (sw_next_ sw) k + 1)
                                     `mod` Z.of_nat (length (outputs_ sw))),
             <[a := q']> ts)) ∨
  ((∀ j, 0 ≤ j < Z.of_nat (length (outputs_ sw)) → ¬ has_room (outputs_ sw) ts j) ∧
   switch_on ev sw ts = Some (ev, sw, ts)).
Proof using QL.
  intros Hev Hs Ht. unfold switch_on. rewrite Hev. cbn [negb].
  pose proof (λ j Hj, try_push_cases (outputs_ sw) (ep_get ev) ts j Ht Hj) as Htry.
  assert (∀ j, 0 ≤ j < Z.of_nat (length (outputs_ sw)) →
            try_push (outputs_ sw) (ep_get ev) j ts = Some (None, ts) →
            ¬ has_room (outputs_ sw) ts j) as Hno.
  { intros j Hj E. destruct (Htry j Hj) as [(? & ? & ? & ? & ? & ? & ? & E' & _)|[? _]]; [|done].
    congruence. }
  destruct (rr_scan_spec (try_push (outputs_ sw) (ep_get ev)) (outputs_ sw) (sw_next_ sw) ts)
    as [(k & x & ts' & Hk & E & Ek & Hf)|[E Hf]]; [done| | |].
  - intros j Hj. destruct (Htry j Hj) as [(? & ? & ? & ? & ? & ? & ? & -> & _)|[_ ->]]; eauto.
    eexists _, _. split; [done|]. done.
  - left. pose proof (rr_idx_range (outputs_ sw) (sw_next_ sw) k ltac:(lia)) as Hr.
    destruct (Htry _ Hr) as [(a & q & q' & Ha & Hn & Hq & Hl & E' & ? & ? & ?)|[_ E']]; [|congruence].
    rewrite Ek in E'. injection E' as -> ->. rewrite E. cbn.
    exists k, a, q, q'. split_and!; try done; try lia.
    intros k' Hk'. apply Hno; [apply rr_idx_range; lia|by apply Hf].
  - right. rewrite E. cbn. split; [|done]. intros j Hj.
    destruct (rr_idx_dist (outputs_ sw) (sw_next_ sw) j Hj) as (d & Hd & <-).
    apply Hno; [done|by apply Hf].
Qed.

(** ** The poller: first track with an event *)

Definition has_event (slots : list Z) (ts : tracks) (j : Z) : Prop :=
  ∃ a q, zget slots j = Some a ∧ a ≠ nullptr ∧ ts !! a = Some q ∧ q_items q ≠ [].

(** No null pointer was ever pushed. *)
Definition no_nulls (ts : tracks) : Prop :=
  map_Forall (λ _ q, Forall (λ p, p ≠ nullptr) (q_items q)) ts.

Lemma try_pop_cases slots ts j :
  tracks_ok slots ts → no_nulls ts → 0 ≤ j < Z.of_nat (length slots) →
  (∃ a q q' ptr l, zget slots j = Some a ∧ a ≠ nullptr ∧ ts !! a = Some q ∧
     q_items q = ptr :: l ∧ try_pop slots j ts = Some (Some ptr, <[a := q']> ts) ∧
     q_items q' = l ∧ q_cap q' = q_cap q ∧ q_inv q') ∨
  (¬ has_event slots ts j ∧ try_pop slots j ts = Some (None, ts)).
Proof using QL.
  intros [Hinv Hb] Hnn Hj. unfold try_pop.
  destruct (zget_is_Some slots j Hj) as [a Ha]. rewrite Ha. cbn.
  destruct (Z.eqb_spec a nullptr) as [->|Hn].
  { right. split; [|done]. intros (a & q & E & ? & _). congruence. }
  destruct (Hb j a Ha Hn) as [q Hq]. rewrite Hq. cbn.
  pose proof (Hinv a q Hq) as Hqi. pose proof (Hnn a q Hq) as Hqn. cbn in Hqi, Hqn.
  destruct (q_pop_cases q Hqi) as [[Ei E]|(ptr & l & q' & Ei & E & ? & ? & ?)]; rewrite E; cbn.
  - right. rewrite insert_id by done. split; [|done].
    intros (a' & q0 & E' & _ & Hq' & Hlt). assert (q0 = q) as -> by congruence. done.
  - left. exists a, q, q', ptr, l. rewrite Ei in Hqn. apply Forall_cons in Hqn as [Hp _].
    rewrite (proj2 (Z.eqb_neq _ _)) by done. split_and!; done.
Qed.

Lemma poll_cases {W} (del : deleter W) p po ts :
  slots_ok (inputs_ po) (po_next_ po) → tracks_ok (inputs_ po) ts → no_nulls ts →
  (∃ k a q q' ptr l,
     0 ≤ k < Z.of_nat (length (inputs_ po)) ∧
     zget (inputs_ po) (rr_idx (inputs_ po) (po_next_ po) k) = Some a ∧
     a ≠ nullptr ∧ ts !! a = Some q ∧ q_items q = ptr :: l ∧
     (∀ k', 0 ≤ k' < k → ¬ has_event (inputs_ po) ts (rr_idx (inputs_ po) (po_next_ po) k')) ∧
     q_items q' = l ∧ q_cap q' = q_cap q ∧ q_inv q' ∧
     poll del p po ts =
       Some (ep_make ptr del p,
             Poller (inputs_ po) (u64 (rr_idx (inputs_ po) (po_next_ po) k + 1)
                                    `mod` Z.of_nat (length (inputs_ po))),
             <[a := q']> ts)) ∨
  ((∀ j, 0 ≤ j < Z.of_nat (length (inputs_ po)) → ¬ has_event (inputs_ po) ts j) ∧
   poll del p po ts = Some (ep_null, po, ts)).
Proof using QL.
  intros Hs Ht Hnn. unfold poll.
  pose proof (λ j Hj, try_pop_cases (inputs_ po) ts j Ht Hnn Hj) as Htry.
  assert (∀ j, 0 ≤ j < Z.of_nat (length (inputs_ po)) →
            try_pop (inputs_ po) j ts = Some (None, ts) → ¬ has_event (inputs_ po) ts j) as Hno.
  { intros j Hj E. destruct (Htry j Hj) as [(? & ? & ? & ? & ? & ? & ? & ? & ? & E' & _)|[? _]]; [|done].
    congruence. }
  destruct (rr_scan_spec (try_pop (inputs_ po)) (inputs_ po) (po_next_ po) ts)
    as [(k & x & ts' & Hk & E & Ek & Hf)|[E Hf]]; [done| | |].
  - intros j Hj.
    destruct (Htry j Hj) as [(? & ? & ? & ? & ? & ? & ? & ? & ? & -> & _)|[_ ->]];
      eexists _, _; split; done.
  - left. pose proof (rr_idx_range (inputs_ po) (po_next_ po) k ltac:(lia)) as Hr.
    destruct (Htry _ Hr) as [(a & q & q' & ptr & l & Ha & Hn & Hq & Hl & E' & ? & ? & ?)|[_ E']];
      [|congruence].
    rewrite Ek in E'. injection E' as -> ->. rewrite E. cbn.
    exists k, a, q, q', ptr, l. split_and!; try done; try lia.
    intros k' Hk'. apply Hno; [apply rr_idx_range; lia|by apply Hf].
  - right. rewrite E. cbn. split; [|done]. intros j Hj.
    destruct (rr_idx_dist (inputs_ po) (po_next_ po) j Hj) as (d & Hd & <-).
    apply Hno; [done|by apply Hf].
Qed.

(** ** Dealing a stream of events *)

Fixpoint switch_run {W} (evs : list (event_ptr W)) (sw : round_robin_switch) (ts : tracks)
    : option (list (event_ptr W) * round_robin_switch * tracks) :=
  match evs with
  | [] => Some ([], sw, ts)
  | ev :: evs' =>
      '(ev', sw1, ts1) ← switch_on ev sw ts;
      '(rest, sw2, ts2) ← switch_run evs' sw1 ts1;
      Some (ev' :: rest, sw2, ts2)
  end.

(** The events of a stream that fall to slot [j] when slot [x mod N] gets the
    first one. *)
Fixpoint dealt {A} (N x j : Z) (l : list A) : list A :=
  match l with
  | [] => []
  | a :: l' => (if x `mod` N =? j then [a] else []) ++ dealt N (x + 1) j l'
  end.

Lemma dealt_mod {A} N x y j (l : list A) :
  0 < N → x `mod` N = y `mod` N → dealt N x j l = dealt N y j l.
Proof.
  intros HN. revert x y. induction l as [|a l IH]; intros x y E; [done|]. cbn. rewrite E.
  f_equal. apply IH. by rewrite <-(mod_add_l N x), E, mod_add_l.
Qed.

Lemma div_step N z : 0 < N → (z + 1) `div` N = z `div` N + if (z + 1) `mod` N =? 0 then 1 else 0.
Proof.
  intros HN. pose proof (Z.div_mod (z + 1) N ltac:(lia)).
  pose proof (Z.mod_pos_bound (z + 1) N HN). pose proof (Z.div_mod z N ltac:(lia)).
  pose proof (Z.mod_pos_bound z N HN). destruct (Z.eqb_spec ((z + 1) `mod` N) 0); nia.
Qed.

(** The number of events dealt to a slot. *)
Lemma dealt_length {A} N x j (l : list A) :
  0 ≤ j < N →
  Z.of_nat (length (dealt N x j l)) =
  (x + Z.of_nat (length l) - 1 - j) `div` N - (x - 1 - j) `div` N.
Proof.
  intros Hj. revert x. induction l as [|a l IH]; intros x; cbn [dealt length].
  - replace (x + Z.of_nat 0 - 1 - j) with (x - 1 - j) by lia. cbn. lia.
  - rewrite length_app, Nat2Z.inj_add, IH.
    replace (x + 1 + Z.of_nat (length l) - 1 - j) with (x + Z.of_nat (S (length l)) - 1 - j) by lia.
    replace (x + 1 - 1 - j) with (x - 1 - j + 1) by lia.
    rewrite (div_step N (x - 1 - j)) by lia.
    replace (x - 1 - j + 1) with (x - j) by lia.
    assert ((x `mod` N =? j) = ((x - j) `mod` N =? 0)) as ->; [|destruct (_ =? 0); cbn; lia].
    apply eq_true_iff_eq. rewrite !Z.eqb_eq. rewrite <-(Z.mod_small j N) at 1 by lia. split.
    + intros E. rewrite Zminus_mod, E, Z.sub_diag. apply Zmod_0_l.
    + intros E. replace x with (x - j + j) by lia. rewrite Zplus_mod, E, Z.add_0_l. apply Zmod_mod.
Qed.

(** Each slot gets its share of a stream, up to one event. *)
Lemma dealt_even {A} N x j (l : list A) :
  0 ≤ j < N →
  Z.of_nat (length l) `div` N ≤ Z.of_nat (length (dealt N x j l))
  ≤ Z.of_nat (length l) `div` N + 1.
Proof.
  intros Hj. rewrite dealt_length by done. set (m := Z.of_nat (length l)).
  replace (x + m - 1 - j) with (x - 1 - j + m) by lia.
  pose proof (Z.div_mod (x - 1 - j + m) N ltac:(lia)).
  pose proof (Z.mod_pos_bound (x - 1 - j + m) N ltac:(lia)).
  pose proof (Z.div_mod (x - 1 - j) N ltac:(lia)).
  pose proof (Z.mod_pos_bound (x - 1 - j) N ltac:(lia)).
  pose proof (Z.div_mod m N ltac:(lia)). pose proof (Z.mod_pos_bound m N ltac:(lia)). nia.
Qed.

(** All slots bound, to different conduits, each with room for [n] more. *)
Definition tracks_free (slots : list Z) (n : nat) (ts : tracks) : Prop :=
  NoDup slots ∧
  ∀ j a, zget slots j = Some a →
    a ≠ nullptr ∧ ∃ q, ts !! a = Some q ∧ (length (q_items q) + n ≤ q_cap q)%nat.

Lemma zget_NoDup (l : list Z) i j a : NoDup l → zget l i = Some a → zget l j = Some a → i = j.
Proof.
  unfold zget. intros Hd. case_decide; [|done]. case_decide; [|done]. intros E1 E2.
  pose proof (NoDup_lookup _ _ _ _ Hd E1 E2). lia.
Qed.

(** A non-empty event goes to the very next slot when that slot has room. *)
Lemma switch_on_next {W} (ev : event_ptr W) sw ts n :
  ep_bool ev = true → slots_ok (outputs_ sw) (sw_next_ sw) → tracks_ok (outputs_ sw) ts →
  tracks_free (outputs_ sw) (S n) ts → outputs_ sw ≠ [] →
  ∃ a q q', zget (outputs_ sw) (sw_next_ sw) = Some a ∧ ts !! a = Some q ∧
    q_items q' = q_items q ++ [ptr_ ev] ∧ q_cap q' = q_cap q ∧ q_inv q' ∧
    switch_on ev sw ts =
      Some (ep_clear ev,
            Switch (outputs_ sw) (u64 (sw_next_ sw + 1) `mod` Z.of_nat (length (outputs_ sw))),
            <[a := q']> ts).
Proof using QL.
  intros Hev Hs Ht [Hnd Hfree] Hne.
  assert (0 < Z.of_nat (length (outputs_ sw))) as HN by (destruct (outputs_ sw); [done|cbn; lia]).
  assert (rr_idx (outputs_ sw) (sw_next_ sw) 0 = sw_next_ sw) as E0.
  { unfold rr_idx. rewrite Z.add_0_r. apply Z.mod_small. destruct Hs. lia. }
  assert (has_room (outputs_ sw) ts (sw_next_ sw)) as Hroom.
  { destruct (zget_is_Some (outputs_ sw) (sw_next_ sw)) as [a Ha]; [destruct Hs; lia|].
    destruct (Hfree _ _ Ha) as (? & q & ? & ?). exists a, q. split_and!; try done. lia. }
  destruct (switch_on_cases ev sw ts Hev Hs Ht)
    as [(k & a & q & q' & Hk & Ha & Hn & Hq & _ & Hf & ? & ? & ? & E)|[Hf _]].
  - destruct (decide (k = 0)) as [->|].
    + rewrite E0 in *. exists a, q, q'. split_and!; done.
    + exfalso. apply (Hf 0); [lia|]. by rewrite E0.
  - exfalso. apply (Hf (sw_next_ sw)); [destruct Hs; lia|done].
Qed.

Lemma switch_run_dealt {W} (evs : list (event_ptr W)) sw ts :
  Forall (λ ev, ep_bool ev = true) evs →
  slots_ok (outputs_ sw) (sw_next_ sw) → tracks_ok (outputs_ sw) ts →
  tracks_free (outputs_ sw) (length evs) ts → outputs_ sw ≠ [] →
  ∃ sw' ts', switch_run evs sw ts = Some (ep_clear <$> evs, sw', ts') ∧
    ∀ j a q, zget (outputs_ sw) j = Some a → ts !! a = Some q →
      ∃ q', ts' !! a = Some q' ∧
        q_items q' = q_items q ++
          dealt (Z.of_nat (length (outputs_ sw))) (sw_next_ sw) j (ptr_ <$> evs).
Proof using QL.
  intros Hevs. revert sw ts. induction Hevs as [|ev evs Hev _ IH]; intros sw ts Hs Ht Hfree Hne.
  { exists sw, ts. split; [done|]. intros j a q _ Hq. exists q. by rewrite app_nil_r. }
  assert (0 < Z.of_nat (length (outputs_ sw))) as HN by (destruct (outputs_ sw); [done|cbn; lia]).
  destruct (switch_on_next ev sw ts (length evs)) as (a & q & q' & Ha & Hq & Hi & Hc & Hinv & E); [done..|].
  cbn. rewrite E. cbn.
  destruct (IH (Switch (outputs_ sw) (u64 (sw_next_ sw + 1) `mod` Z.of_nat (length (outputs_ sw))))
    (<[a := q']> ts)) as (sw' & ts' & -> & Hall); cbn.
  - destruct Hs. split; [done|].
    pose proof (Z.mod_pos_bound (u64 (sw_next_ sw + 1)) (Z.of_nat (length (outputs_ sw)))). lia.
  - by apply tracks_ok_insert.
  - destruct Hfree as [Hnd Hfree]. split; [done|]. intros j b Hb.
    destruct (Hfree j b Hb) as (Hn & qb & Hqb & Hr). split; [done|].
    destruct (decide (a = b)) as [<-|].
    + exists q'. rewrite lookup_insert_eq. split; [done|]. assert (qb = q) as -> by congruence.
      rewrite Hi, Hc, length_app. cbn in *. lia.
    + exists qb. rewrite lookup_insert_ne by done. split; [done|]. cbn in Hr. lia.
  - done.
  - exists sw', ts'. split; [done|]. intros j b qb Hb Hqb. destruct Hs as [Hs1 Hs2].
    rewrite <-(dealt_mod _ (u64 (sw_next_ sw + 1) `mod` Z.of_nat (length (outputs_ sw)))).
    2: done. 2: rewrite wrap_small, Zmod_mod by word_lia; done.
    rewrite (Z.mod_small (sw_next_ sw)) by lia.
    destruct (Z.eqb_spec (sw_next_ sw) j) as [<-|Hj].
    + assert (b = a) as -> by congruence. assert (qb = q) as -> by congruence.
      destruct (Hall (sw_next_ sw) a q') as (q2 & ? & E2); [done|by rewrite lookup_insert_eq|].
      exists q2. split; [done|]. rewrite E2, Hi, <-app_assoc. done.
    + destruct (Hall j b qb) as (q2 & ? & E2); [done| |by exists q2].
      rewrite lookup_insert_ne; [done|]. intros ->. apply Hj.
      by apply (zget_NoDup (outputs_ sw) _ _ b (proj1 Hfree)).
Qed.

(** ** Polling while producers push *)

(** What producers may do between two polls: append to tracks. *)
Definition grows (ts ts' : tracks) : Prop :=
  no_nulls ts' ∧ map_Forall (λ _ q, q_inv q) ts' ∧
  ∀ a q, ts !! a = Some q → ∃ q', ts' !! a = Some q' ∧ q_items q `prefix_of` q_items q'.

(** The oldest event of the track at address [a] is [ptr]. *)
Definition front (ts : tracks) (a ptr : Z) : Prop :=
  ∃ q l, ts !! a = Some q ∧ q_items q = ptr :: l.

Lemma grows_front ts ts' a ptr : grows ts ts' → front ts a ptr → front ts' a ptr.
Proof.
  intros (_ & _ & H) (q & l & Hq & E). destruct (H a q Hq) as (q' & Hq' & [k Hk]).
  exists q', (l ++ k). split; [done|]. by rewrite Hk, E.
Qed.

Lemma grows_ok slots ts ts' : grows ts ts' → tracks_ok slots ts → tracks_ok slots ts'.
Proof.
  intros (_ & Hi & H) [_ Hb]. split; [done|]. intros i a Hia Hn.
  destruct (Hb i a Hia Hn) as [q Hq]. destruct (H a q Hq) as (q' & ? & _). eauto.
Qed.

(** One poll brings the poller closer to slot [j], or takes its front. *)
Lemma poll_progress {W} (del : deleter W) p po ts d a ptr :
  slots_ok (inputs_ po) (po_next_ po) → tracks_ok (inputs_ po) ts → no_nulls ts →
  0 ≤ d < Z.of_nat (length (inputs_ po)) →
  zget (inputs_ po) (rr_idx (inputs_ po) (po_next_ po) d) = Some a → a ≠ nullptr →
  front ts a ptr →
  ∃ ev po' ts', poll del p po ts = Some (ev, po', ts') ∧
    ((ev = ep_make ptr del p ∧
      ∃ q q', ts !! a = Some q ∧ ts' !! a = Some q' ∧ q_items q = ptr :: q_items q') ∨
     (∃ d', 0 ≤ d' < d ∧ inputs_ po' = inputs_ po ∧
        rr_idx (inputs_ po) (po_next_ po') d' = rr_idx (inputs_ po) (po_next_ po) d ∧
        slots_ok (inputs_ po) (po_next_ po') ∧ tracks_ok (inputs_ po) ts' ∧ front ts' a ptr)).
Proof using QL.
  intros Hs Ht Hnn Hd Ha Hn (q & l & Hq & Hql).
  destruct (poll_cases del p po ts Hs Ht Hnn)
    as [(k & b & qb & q' & pb & lb & Hk & Hb & Hbn & Hqb & Hl & Hf & Hi & Hc & Hinv & E)|[Hf _]].
  - eexists _, _, _. split; [exact E|].
    destruct (decide (b = a)) as [->|Hne].
    + left. assert (qb = q) as -> by congruence. assert (ptr = pb) as -> by congruence.
      split; [done|]. exists q, q'. rewrite lookup_insert_eq. split_and!; [done..|]. by rewrite Hi.
    + right. assert (k < d) as Hkd.
      { destruct (Z.lt_trichotomy k d) as [|[->|Hgt]]; [done|congruence|exfalso].
        apply (Hf d); [lia|]. exists a, q. split_and!; try done. by rewrite Hql. }
      exists (d - k - 1). split; [lia|]. split; [done|]. cbn. split_and!.
      * rewrite rr_idx_advance by done. f_equal. lia.
      * by apply slots_ok_advance.
      * by apply tracks_ok_insert.
      * exists q, l. by rewrite lookup_insert_ne.
  - exfalso. apply (Hf (rr_idx (inputs_ po) (po_next_ po) d)); [apply rr_idx_range; lia|].
    exists a, q. split_and!; try done. by rewrite Hql.
Qed.

(** A run of polls: before each one the producers push what they like. *)
Inductive polls {W} (del : deleter W) (p : Z)
    : nat → round_robin_poller → tracks → round_robin_poller → tracks → Prop :=
  | polls_nil po ts : polls del p 0 po ts po ts
  | polls_cons n po ts ts1 ev po1 ts2 po' ts' :
      grows ts ts1 → poll del p po ts1 = Some (ev, po1, ts2) →
      polls del p n po1 ts2 po' ts' →
      polls del p (S n) po ts po' ts'.

(** Some poll of the run took [ptr] from the front of the track at [a]. *)
Inductive taken {W} (del : deleter W) (p a ptr : Z)
    : nat → round_robin_poller → tracks → round_robin_poller → tracks → Prop :=
  | taken_here n po ts ts1 q q' po1 ts2 po' ts' :
      grows ts ts1 → ts1 !! a = Some q → ts2 !! a = Some q' →
      q_items q = ptr :: q_items q' →
      poll del p po ts1 = Some (ep_make ptr del p, po1, ts2) →
      polls del p n po1 ts2 po' ts' → taken del p a ptr (S n) po ts po' ts'
  | taken_later n po ts ts1 ev po1 ts2 po' ts' :
      grows ts ts1 → poll del p po ts1 = Some (ev, po1, ts2) →
      taken del p a ptr n po1 ts2 po' ts' → taken del p a ptr (S n) po ts po' ts'.

Lemma polls_take {W} (del : deleter W) p n po ts po' ts' d a ptr :
  polls del p n po ts po' ts' →
  slots_ok (inputs_ po) (po_next_ po) → tracks_ok (inputs_ po) ts →
  0 ≤ d < Z.of_nat (length (inputs_ po)) → d < Z.of_nat n →
  zget (inputs_ po) (rr_idx (inputs_ po) (po_next_ po) d) = Some a → a ≠ nullptr →
  front ts a ptr → taken del p a ptr n po ts po' ts'.
Proof using QL.
  intros Hp. revert d. induction Hp as [po ts|n po ts ts1 ev po1 ts2 po' ts' Hg E Hp IH];
    intros d Hs Ht Hd Hn Ha Han Hfr; [lia|].
  pose proof (grows_ok _ _ _ Hg Ht) as Ht1. pose proof (grows_front _ _ _ _ Hg Hfr) as Hfr1.
  destruct (poll_progress del p po ts1 d a ptr) as (ev1 & po2 & ts3 & E1 & Hc); try done; [apply Hg|].
  rewrite E in E1. injection E1 as <- <- <-.
  destruct Hc as [[-> (q & q' & ? & ? & ?)]|(d' & Hd' & Ei & Er & ? & ? & ?)].
  - by eapply taken_here.
  - eapply taken_later; [done..|]. rewrite <-Ei in *. eapply (IH d'); try done; try lia.
    by rewrite Er.
Qed.

(** ** Properties *)

(** C19: The switch routes each event to the first track, in cyclic order from
    [next_], that is bound and has room: the pointer is appended to that track
    and to no other, the event is given up by the caller's pointer, and the
    next scan starts behind that track.  When no bound track has room, the
    event stays with the caller and nothing changes.  So the switch never
    loses or duplicates an event. *)
Theorem switch_first_room {W} (ev : event_ptr W) sw ts :
  ep_bool ev = true → slots_ok (outputs_ sw) (sw_next_ sw) → tracks_ok (outputs_ sw) ts →
  (∃ k a q q',
     0 ≤ k < Z.of_nat (length (outputs_ sw)) ∧
     zget (outputs_ sw) (rr_idx (outputs_ sw) (sw_next_ sw) k) = Some a ∧
     a ≠ nullptr ∧ ts !! a = Some q ∧
     (∀ k', 0 ≤ k' < k → ¬ has_room (outputs_ sw) ts (rr_idx (outputs_ sw) (sw_next_ sw) k')) ∧
     q_items q' = q_items q ++ [ptr_ ev] ∧
     switch_on ev sw ts =
       Some (ep_clear ev, Switch (outputs_ sw) (rr_idx (outputs_ sw) (sw_next_ sw) (k + 1)),
             <[a := q']> ts)) ∨
  ((∀ j, 0 ≤ j < Z.of_nat (length (outputs_ sw)) → ¬ has_room (outputs_ sw) ts j) ∧
   switch_on ev sw ts = Some (ev, sw, ts)).
Proof using QL.
  intros Hev Hs Ht. destruct (switch_on_cases ev sw ts Hev Hs Ht)
    as [(k & a & q & q' & Hk & Ha & ? & ? & ? & ? & ? & ? & ? & E)|]; [left|by right].
  exists k, a, q, q'. split_and!; try done; try lia. rewrite E. do 3 f_equal.
  pose proof (rr_idx_advance (outputs_ sw) (sw_next_ sw) k 0 Hs Hk) as Hadv.
  rewrite Z.add_0_r in Hadv. rewrite <-Hadv. unfold rr_idx at 2. rewrite Z.add_0_r, Zmod_mod. done.
Qed.

(** The switch balances the load: when the tracks are distinct and have
    room, a stream of [m] events is dealt in turn, each track receives its
    events in stream order, and every track gets [m / N] or [m / N + 1]. *)
Theorem switch_balanced {W} (evs : list (event_ptr W)) sw ts :
  Forall (λ ev, ep_bool ev = true) evs →
  slots_ok (outputs_ sw) (sw_next_ sw) → tracks_ok (outputs_ sw) ts →
  tracks_free (outputs_ sw) (length evs) ts → outputs_ sw ≠ [] →
  let N := Z.of_nat (length (outputs_ sw)) in
  ∃ sw' ts', switch_run evs sw ts = Some (ep_clear <$> evs, sw', ts') ∧
    ∀ j a q, zget (outputs_ sw) j = Some a → ts !! a = Some q →
      ∃ q', ts' !! a = Some q' ∧
        q_items q' = q_items q ++ dealt N (sw_next_ sw) j (ptr_ <$> evs) ∧
        Z.of_nat (length evs) `div` N ≤ Z.of_nat (length (q_items q') - length (q_items q))
        ≤ Z.of_nat (length evs) `div` N + 1.
Proof using QL.
  intros Hevs Hs Ht Hf Hne N.
  destruct (switch_run_dealt evs sw ts Hevs Hs Ht Hf Hne) as (sw' & ts' & E & Hall).
  exists sw', ts'. split; [done|]. intros j a q Ha Hq.
  destruct (Hall j a q Ha Hq) as (q' & Hq' & Ei). exists q'. split_and!; [done..| |].
  all: pose proof (dealt_even N (sw_next_ sw) j (ptr_ <$> evs) (zget_Some_range _ _ _ Ha)) as Hd;
    rewrite Ei, length_app; rewrite length_fmap in Hd; subst N; lia.
Qed.

(** C20: No input track starves: a poll always returns, and whatever the
    producers push in between, an event at the front of a bound track is
    returned by one of the next [NumInputs] polls, straight from that track. *)
Theorem poller_fair {W} (del : deleter W) p po ts po' ts' j a ptr :
  slots_ok (inputs_ po) (po_next_ po) → tracks_ok (inputs_ po) ts →
  zget (inputs_ po) j = Some a → a ≠ nullptr → front ts a ptr →
  polls del p (length (inputs_ po)) po ts po' ts' →
  (∀ ts1, grows ts ts1 → is_Some (poll del p po ts1)) ∧
  taken del p a ptr (length (inputs_ po)) po ts po' ts'.
Proof using QL.
  intros Hs Ht Ha Hn Hfr Hp. split.
  { intros ts1 Hg. pose proof (grows_ok _ _ _ Hg Ht) as Ht1.
    destruct (poll_cases del p po ts1 Hs Ht1 (proj1 Hg))
      as [(? & ? & ? & ? & ? & ? & ? & ? & ? & ? & ? & ? & ? & ? & ? & E)|[_ E]]; eauto. }
  destruct (rr_idx_dist (inputs_ po) (po_next_ po) j (zget_Some_range _ _ _ Ha)) as (d & Hd & Ej).
  eapply polls_take; try done; [lia|]. by rewrite Ej.
Qed.

End routing.

(** ** Witnesses: two conduits of two slots behind a switch and a poller *)

Definition noop_deleter : deleter unit := λ _ _ w, Some w.

Definition two_tracks : gmap Z (conduit 3) :=
  {[ 100 := conduit_ctor [0; 0; 0]; 200 := Conduit [8; 0; 0] 1 0 ]}.

Definition two_slots : list Z := [100; 200].

Lemma two_tracks_ok : tracks_ok two_slots two_tracks.
Proof.
  split.
  - apply map_Forall_insert_2; [unfold q_inv, conduit_queue, conduit_inv; cbn; lia|].
    apply map_Forall_singleton. unfold q_inv, conduit_queue, conduit_inv. cbn. lia.
  - intros i a Ha _. unfold zget in Ha. case_decide; [|done].
    destruct (Z.to_nat i) as [|[|n]]; cbn in Ha; simplify_eq; by eexists.
Qed.

Lemma two_slots_ok n : n = 0 ∨ n = 1 → slots_ok two_slots n.
Proof. unfold slots_ok. cbn. lia. Qed.

Lemma switch_first_room_witness :
  ∃ k, 0 ≤ k < 2 ∧
    (λ r, (r.1.1, r.1.2)) <$> switch_on (ep_make 16 noop_deleter 1) (Switch two_slots 1) two_tracks
    = Some (ep_clear (ep_make 16 noop_deleter 1), Switch two_slots (rr_idx two_slots 1 (k + 1))).
Proof.
  destruct (switch_first_room (ep_make 16 noop_deleter 1) (Switch two_slots 1) two_tracks)
    as [(k & a & q & q' & Hk & Ha & Hn & Hq & Hf & Hi & E)|[Hf _]].
  - reflexivity.
  - apply two_slots_ok. by right.
  - apply two_tracks_ok.
  - exists k. split; [exact Hk|]. rewrite E. reflexivity.
  - exfalso. apply (Hf 0); [cbn; lia|]. exists 100, (conduit_ctor [0; 0; 0]).
    repeat split; try done. vm_compute. lia.
Defined.

Lemma switch_balanced_witness :
  ∃ sw' ts', switch_run [ep_make 16 noop_deleter 1] (Switch two_slots 1) two_tracks
    = Some (ep_clear <$> [ep_make 16 noop_deleter 1], sw', ts') ∧
    ∃ q', ts' !! 200 = Some q' ∧ q_items q' = [8; 16].
Proof.
  destruct (switch_balanced [ep_make 16 noop_deleter 1] (Switch two_slots 1) two_tracks)
    as (sw' & ts' & E & Hall).
  - by repeat constructor.
  - apply two_slots_ok. by right.
  - apply two_tracks_ok.
  - split; [by apply (bool_decide_unpack _)|]. intros j a Ha. unfold zget in Ha. case_decide; [|done].
    cbn [outputs_] in Ha. destruct (Z.to_nat j) as [|[|n]]; cbn in Ha; simplify_eq;
      (split; [done|]; eexists; split; [reflexivity|]; vm_compute; lia).
  - done.
  - exists sw', ts'. split; [exact E|].
    destruct (Hall 1 200 (Conduit [8; 0; 0] 1 0)) as (q' & Hq' & Ei & _); [reflexivity..|].
    exists q'. split; [done|]. rewrite Ei. reflexivity.
Defined.

Lemma poller_fair_witness :
  ∃ po' ts', taken noop_deleter 1 200 8 2 (Poller two_slots 0) two_tracks po' ts'.
Proof.
  assert (∀ ts, no_nulls ts → map_Forall (λ _ q, q_inv q) ts → grows ts (ts : gmap Z (conduit 3))) as Hg.
  { intros ts Hn Hi. split_and!; try done. intros a q Hq. by exists q. }
  assert (no_nulls two_tracks) as Hn.
  { apply map_Forall_insert_2; [by constructor|]. apply map_Forall_singleton. by repeat constructor. }
  pose proof two_tracks_ok as [Hi _].
  set (ts2 := <[200 := Conduit [8; 0; 0] 1 1]> two_tracks : gmap Z (conduit 3)).
  exists (Poller two_slots 0), ts2.
  apply (poller_fair noop_deleter 1 (Poller two_slots 0) two_tracks _ _ 1 200 8).
  - apply two_slots_ok. by left.
  - apply two_tracks_ok.
  - reflexivity.
  - done.
  - exists (Conduit [8; 0; 0] 1 0), []. by split.
  - eapply polls_cons; [apply Hg; done|vm_compute; reflexivity|].
    eapply polls_cons; [| |apply polls_nil].
    + instantiate (1 := ts2). split_and!.
      * apply map_Forall_insert_2; [by constructor|done].
      * apply map_Forall_insert_2; [|done]. unfold q_inv, conduit_queue, conduit_inv. cbn. lia.
      * intros a q Hq. exists q. split; [|done]. exact Hq.
    + vm_compute. reflexivity.
Defined.
