(* ===== verification/Domain.v ===== *)
(** * Boundaries and the runtime domain (include/conduit/core.hpp, layers 7-9)

    [bound_sink] hands events to a pipeline, [trivial_serializer] copies the
    bytes of an event, and [runtime_domain] owns one pool per event type and
    makes events from them.  The file closes with the life of an event through
    all of these: made in a domain, dispatched through a pipeline, back in its
    pool. *)

From S2P Require Import Prelude EventPtr Interfaces Pool Pipeline.

Local Open Scope Z_scope.

(** ** bound_sink *)

(** [void handle(event_ptr<Event> ev)]: the argument is the callee's own
    pointer and is destroyed when the call ends. *)
Definition bound_sink_handle {W} (pipe_ : list (handler W)) (E : ety) (ev : event_ptr W) (w : W)
    : option W :=
  '(ev', w1) ← (if ep_bool ev then dispatch pipe_ E ev w else Some (ev, w));
  ep_destroy ev' w1.

(** A sink treats its event as a dispatch by rvalue does. *)
Lemma bound_sink_is_rvalue {W} (pipe_ : list (handler W)) E ev w :
  bound_sink_handle pipe_ E ev w = snd <$> dispatch_rvalue pipe_ E ev w.
Proof.
  unfold bound_sink_handle, dispatch_rvalue. destruct ev as [p d c]. cbn [ep_move_ctor ptr_ deleter_ pool_ctx_].
  destruct (ep_bool (EventPtr p d c)) eqn:Eb; cbn [negb].
  - destruct (dispatch pipe_ E _ w) as [[ev' w']|]; [|done]. cbn -[ep_destroy].
    by destruct (ep_destroy ev' w').
  - unfold dispatch. rewrite Eb. cbn -[ep_destroy]. by destruct (ep_destroy _ w).
Qed.

(** ** trivial_serializer: the object representation, [sizeof(Event)] bytes *)

(** [encode(ev)]: the bytes of the object and their number. *)
Definition encode (repr : list Z) : list Z * Z := (repr, Z.of_nat (length repr)).

(** [decode(data, out)]: [memcpy(out, data, sizeof(Event))]; [None] when fewer
    bytes are available. *)
Definition decode (sizeof : nat) (data : list Z) : option (list Z) :=
  if decide (sizeof ≤ length data)%nat then Some (take sizeof data) else None.

Lemma decode_encode repr rest :
  decode (length repr) ((encode repr).1 ++ rest) = Some repr.
Proof.
  unfold decode. cbn. rewrite decide_True by (rewrite length_app; lia).
  by rewrite take_app_length.
Qed.

(** ** runtime_domain *)

Section domain.
Context {T : Type}.

Abbreviation pools := (gmap Z (pool T)).

(** The tuple of pools: the address of [std::get<pool<Event>>(pools_)] by the
    event type.  The pools themselves live in the store of pools. *)
Record runtime_domain := Domain { pools_ : gmap Z Z }.

(** What the constructor needs to know of one event type: its identity, where
    its pool sits in the tuple, where the vector of that pool was allocated and
    the size of its cells. *)
Record slot := Slot { sl_event : Z; sl_pool : Z; sl_data : Z; sl_cell : Z }.

(** [runtime_domain(pool_size)]: each pool is built with [pool_size] cells and
    moved into the tuple. *)
Fixpoint domain_ctor (events : list slot) (pool_size : Z)
    : option (runtime_domain * pools) :=
  match events with
  | [] => Some (Domain ∅, ∅)
  | e :: events' =>
      p ← pool_ctor (sl_data e) (sl_cell e) pool_size;
      '(d, w) ← domain_ctor events' pool_size;
      Some (Domain (<[sl_event e := sl_pool e]> (pools_ d)),
            <[sl_pool e := (pool_move p).1]> w)
  end.

(** [get_pool<Event>()]. *)
Definition get_pool (Event : Z) (d : runtime_domain) : option Z := pools_ d !! Event.

(** [make<Event>(args...)]. *)
Definition domain_make sp spd v (Event : Z) (d : runtime_domain) (w : pools)
    : option (event_ptr pools * pools) :=
  this ← get_pool Event d;
  make_event sp spd v this w.

(** [cluster::send] and [bind_route] do nothing. *)
Inductive cluster := Cluster.
Definition cluster_send {A} (_ : A) (c : cluster) : cluster := c.
Definition bind_route {A} (_ : A) : cluster := Cluster.

(** ** The domain invariant *)

Definition domain_inv (d : runtime_domain) (w : pools) : Prop :=
  map_Forall (λ _ p, al_inv p) w ∧
  map_Forall (λ _ a, is_Some (w !! a)) (pools_ d) ∧
  ∀ E1 E2 a, pools_ d !! E1 = Some a → pools_ d !! E2 = Some a → E1 = E2.

Definition slots_wf (events : list slot) (pool_size : Z) : Prop :=
  NoDup (sl_event <$> events) ∧ NoDup (sl_pool <$> events) ∧
  Forall (λ e, 0 < sl_data e ∧ 0 < sl_cell e ∧
               sl_data e + pool_size * sl_cell e ≤ 2 ^ 64) events.

Lemma domain_ctor_spec events pool_size :
  1 ≤ pool_size ≤ END → slots_wf events pool_size →
  ∃ d w, domain_ctor events pool_size = Some (d, w) ∧ domain_inv d w ∧
    (∀ e a, pools_ d !! e = Some a → ∃ s, s ∈ events ∧ sl_event s = e ∧ sl_pool s = a) ∧
    (∀ a p, w !! a = Some p → a ∈ sl_pool <$> events ∧ live p = ∅ ∧
            length (free_list p) = Z.to_nat pool_size) ∧
    (∀ s, s ∈ events → pools_ d !! sl_event s = Some (sl_pool s)).
Proof.
  intros Hps. induction events as [|e events IH]; intros (Hne & Hnp & Hl).
  { exists (Domain ∅), ∅. split; [done|]. split; [by split_and!|].
    split_and!; [by intros ??; cbn; rewrite lookup_empty|by intros ??; rewrite lookup_empty|].
    intros s Hs. by apply elem_of_nil in Hs. }
  cbn in Hne, Hnp. apply NoDup_cons in Hne as [He Hne]. apply NoDup_cons in Hnp as [Hp Hnp].
  apply Forall_cons in Hl as [(? & ? & ?) Hl].
  destruct (pool_ctor_fresh (T := T) (sl_data e) (sl_cell e) pool_size) as (p & E & Hinv & Hlive & Hfl); [done..|].
  destruct (IH (conj Hne (conj Hnp Hl))) as (d & w & Ed & (Hi1 & Hi2 & Hi3) & Hev & Hw & Hs).
  cbn [domain_ctor]. rewrite E. cbn -[domain_ctor]. rewrite Ed. cbn.
  assert (Pool (memory_ p) (free_head_ p) (data_ p) (sizeof_cell p) = p) as -> by (by destruct p).
  eexists _, _. split; [done|]. unfold domain_inv. cbn. split_and!.
  - apply map_Forall_insert_2; [by exists (seqZ 0 pool_size)|done].
  - apply map_Forall_insert_2; [by rewrite lookup_insert_eq|].
    intros e' a Ha. apply lookup_insert_is_Some'. right. by apply (Hi2 e').
  - intros E1 E2 a He1 He2. apply lookup_insert_Some in He1, He2.
    destruct He1 as [[<- Ha1]|[? He1]], He2 as [[<- Ha2]|[? He2]]; [done| | |by eapply Hi3].
    + destruct (Hev _ _ He2) as (s & Hs1 & _ & Es). destruct Hp. rewrite Ha1, <-Es.
      by apply list_elem_of_fmap_2.
    + destruct (Hev _ _ He1) as (s & Hs1 & _ & Es). destruct Hp. rewrite Ha2, <-Es.
      by apply list_elem_of_fmap_2.
  - intros e' a Ha. apply lookup_insert_Some in Ha as [[<- <-]|[? Ha]].
    + exists e. split; [by left|done].
    + destruct (Hev _ _ Ha) as (s & ? & ?). exists s. split; [by right|done].
  - intros a q Hq. apply lookup_insert_Some in Hq as [[<- <-]|[? Hq]].
    + split; [by left|]. split; [done|]. by rewrite Hfl, length_seqZ.
    + destruct (Hw _ _ Hq) as (? & ?). split; [by right|done].
  - intros s Hs'. apply elem_of_cons in Hs' as [->|Hs']; [by rewrite lookup_insert_eq|].
    rewrite lookup_insert_ne; [by apply Hs|]. intros Es. destruct He. rewrite Es.
    by apply list_elem_of_fmap_2.
Qed.

(** [make] in a domain: exactly one pool changes, and it is the pool of the
    event's own type. *)
Lemma domain_make_cases sp spd v E d (w : pools) a p :
  domain_inv d w → get_pool E d = Some a → w !! a = Some p →
  (al_room p = 0%nat ∧ domain_make sp spd v E d w = Some (ep_null, w)) ∨
  (∃ x p', x ≠ nullptr ∧ al_live p !! x = None ∧ al_live p' = <[x := v]> (al_live p) ∧
     al_room p = S (al_room p') ∧ al_inv p' ∧
     domain_make sp spd v E d w =
       Some (ep_make x (release_to_pool spd) a, <[a := p']> w)).
Proof.
  intros (Hi & _ & _) Ea Ep. unfold domain_make. rewrite Ea. cbn. unfold make_event.
  rewrite Ep. cbn. pose proof (Hi a p Ep) as Hp. cbn in Hp.
  destruct (al_make_cases sp v p) as [[? Em]|(x & p' & Em & Hx & ? & ? & ? & ?)]; [done|..];
    cbn in Em; rewrite Em; cbn.
  - left. split; [done|]. by rewrite insert_id.
  - right. exists x, p'. rewrite (proj2 (Z.eqb_neq _ _)) by done. split_and!; done.
Qed.

(** The deleter gives the cell back to the pool it came from. *)
Lemma release_back spd (w : pools) a x v p :
  w !! a = Some p → al_inv p → al_live p !! x = Some v →
  ∃ p', release_to_pool spd a x w = Some (<[a := p']> w) ∧
        al_live p' = delete x (al_live p) ∧ al_room p' = S (al_room p) ∧ al_inv p'.
Proof.
  intros Ep Hp Hx. unfold release_to_pool. rewrite Ep. cbn.
  destruct (al_free_live spd x v p) as (p' & Ef & ? & ? & ?); [done..|]. cbn in Ef.
  rewrite Ef. cbn. by exists p'.
Qed.

(** Addresses of live objects are positive. *)
Lemma live_positive (p : pool T) x v : al_inv p → al_live p !! x = Some v → 0 < x.
Proof.
  intros [L Hinv] Hx. pose proof (fi_layout _ _ Hinv) as Hlay. pose proof Hlay as (_ & ? & ? & _).
  apply live_lookup in Hx as (i & -> & Hi); [|done].
  apply zget_Some_range in Hi. unfold cell_addr. nia.
Qed.

(** ** The life of an event *)

(** The world of a running system: the pools and the state of the handlers. *)
Section lifecycle.
Context {S : Type}.
Abbreviation world := (pools * S)%type.

(** The pool deleter in that world. *)
Definition release_in (spd : list bool) : deleter world := λ ctx ptr w,
  ps ← release_to_pool spd ctx ptr w.1; Some (ps, w.2).

(** Handlers that leave the pools alone, except that on the event's own type
    they may reset the pointer. *)
Definition pools_keep (w w' : world) : Prop := w'.1 = w.1.
Definition pools_take (spd : list bool) (ev : event_ptr world) (w w' : world) : Prop :=
  release_to_pool spd (pool_ctx_ ev) (ptr_ ev) w.1 = Some w'.1.

(** C12: Nothing leaks through the whole path: an event made in a domain and
    dispatched by rvalue through any pipeline of disciplined handlers comes
    back to the pool of its own type.  Afterwards the caller's pointer is
    empty, that pool has the same live objects and the same number of free
    cells as before the [make], and every other pool is untouched. *)
Theorem event_lifecycle sp spd v d (w : pools) (s : S) (E : ety) a p hs :
  domain_inv d w → get_pool (ety_id E) d = Some a → w !! a = Some p → (0 < al_room p)%nat →
  Forall (disciplined pools_keep (pools_take spd) (ety_id E)) hs →
  Forall (λ c, 0 ≤ c.2) (linear 0 E) →
  ∃ x w1, domain_make sp spd v (ety_id E) d w = Some (ep_make x (release_to_pool spd) a, w1) ∧
    ∃ ev' p2 s', dispatch_rvalue hs E (ep_make x (release_in spd) a) (w1, s)
                   = Some (ev', (<[a := p2]> w, s')) ∧
      ep_bool ev' = false ∧ al_live p2 = al_live p ∧ al_room p2 = al_room p ∧ al_inv p2.
Proof.
  intros Hd Ea Ep Hroom Hhs Hoff.
  destruct (domain_make_cases sp spd v (ety_id E) d w a p Hd Ea Ep)
    as [[H0 _]|(x & p' & Hx & Hfresh & Hl' & Hr' & Hi' & Em)]; [lia|].
  exists x, (<[a := p']> w). split; [done|].
  assert (0 < x) as Hx0
    by (apply (live_positive p' x v); [done|]; by rewrite Hl', lookup_insert_eq).
  destruct (release_back spd (<[a := p']> w) a x v p') as (p2 & Er & Hl2 & Hr2 & Hi2);
    [by rewrite lookup_insert_eq|done|by rewrite Hl', lookup_insert_eq|].
  rewrite insert_insert_eq in Er.
  destruct (dispatch_rvalue_takes pools_keep (pools_take spd) (ety_id E))
    with (hs := hs) (E := E) (p := x) (del := release_in spd) (ctx := a)
         (w := (<[a := p']> w, s)) as ([w2 s'] & E' & Ht);
    unfold pools_keep, pools_take in *; try done.
  - intros w1 w2 w3 -> ->. done.
  - intros ev w1 w2 w3 H12 H23. by rewrite <-H12.
  - eapply Forall_impl; [exact Hoff|]. intros c Hc. cbn in Hc |- *. unfold nullptr. lia.
  - intros [w0 s0] Hk. cbn in Hk. subst w0. unfold release_in. cbn [fst snd]. rewrite Er. cbn. eauto.
  - cbn in Ht. rewrite Er in Ht. injection Ht as <-.
    exists (ep_clear (ep_make x (release_in spd) a)), p2, s'. split; [done|]. split; [done|].
    split_and!; try done; [|lia]. rewrite Hl2, Hl'. by apply delete_insert_id.
Qed.

End lifecycle.

(** ** Who ends up with an event *)

Section settlement.
Context {S : Type}.

(** The pools, the events that handlers have passed on to other owners (a pool
    and an address each) and the state of the handlers. *)
Abbreviation passing := (pools * list (Z * Z) * S)%type.




End settlement.
End domain.

(** ** Witness: a domain of two event types, a pipeline of one observer *)

Definition two_events : list slot := [Slot 1 100 4096 64; Slot 2 200 8192 64].

Definition counter : handler (gmap Z (pool Z) * Z) := λ id,
  if id =? 2 then Some (OnVoid (λ ev w, Some (ev, (w.1, w.2 + 1)))) else None.

Lemma counter_disciplined spd : disciplined pools_keep (pools_take spd) 2 counter.
Proof.
  intros id ev w Hev. unfold counter, call_on_if_exists, settles, pools_keep.
  destruct (Z.eqb_spec id 2) as [->|Hne]; cbn.
  - eexists _, _, _. split; [done|]. by left.
  - eexists _, _. done.
Qed.

Lemma event_lifecycle_witness :
  ∃ d (w : gmap Z (pool Z)) x w1 ev' w2 s',
    domain_ctor two_events 4 = Some (d, w) ∧
    domain_make [] [] 7 2 d w = Some (ep_make x (release_to_pool []) 200, w1) ∧
    dispatch_rvalue [counter] (Ety 2 (Some [(8, Ety 1 None)]))
      (ep_make x (release_in []) 200) (w1, 0) = Some (ev', (w2, s')) ∧
    dom w2 = dom w.
Proof.
  destruct (domain_ctor_spec (T := Z) two_events 4) as (d & w & E & Hinv & Hev & Hw & Hs);
    [unfold END; lia|split_and!; [by apply (bool_decide_unpack _)..|repeat constructor; cbn; lia]|].
  assert (get_pool 2 d = Some 200) as Ea by (by apply (Hs (Slot 2 200 8192 64)), list_elem_of_further, list_elem_of_here).
  destruct (proj1 (proj2 Hinv) 2 200 Ea) as [p Hp].
  destruct (event_lifecycle [] [] 7 d w 0 (Ety 2 (Some [(8, Ety 1 None)])) 200 p [counter])
    as (x & w1 & Em & ev' & p2 & s' & Ed & _).
  - exact Hinv.
  - exact Ea.
  - exact Hp.
  - cbn. destruct (Hw 200 p Hp) as (_ & _ & ->). lia.
  - constructor; [apply counter_disciplined|constructor].
  - cbn. by repeat constructor.
  - exists d, w, x, w1, ev', (<[200 := p2]> w), s'. split_and!; [done..|].
    rewrite dom_insert_L. apply elem_of_dom_2 in Hp. set_solver.
Defined.

(** A pipeline over events of type 2 with a base of type 1: a counter, a handler
    that passes odd events on, and one that resets the rest. *)
Abbreviation post := (gmap Z (pool Z) * list (Z * Z) * Z)%type.




