(* ===== verification/SpscRing.v ===== *)
(** * The power-of-two ring and the TCP sender
      (include/conduit/core/networked_conduit.hpp)

    [spsc_ring_buffer<T, Capacity>] is the conduit with masks instead of
    remainders and 32-bit indices.  The file shows that, for a capacity that
    passes the [static_assert], every operation does what the conduit of the
    same size does; the [Queue] laws follow.  [tcp_sender_node] drains the ring
    into a socket on a thread of its own. *)

From S2P Require Import Prelude Ring EventPtr Interfaces Conduit.

Local Open Scope Z_scope.

Record spsc_ring_buffer (Capacity : Z) := Spsc {
  buffer_ : list Z;
  sp_write_idx_ : Z;
  sp_read_idx_ : Z }.

Arguments Spsc {Capacity} buffer_ sp_write_idx_ sp_read_idx_.
Arguments buffer_ {Capacity} s.
Arguments sp_write_idx_ {Capacity} s.
Arguments sp_read_idx_ {Capacity} s.

Section spsc.
Context {Capacity : Z}.
Implicit Types r : spsc_ring_buffer Capacity.

(** The array is initialised with null pointers. *)
Definition spsc_ctor : spsc_ring_buffer Capacity :=
  Spsc (replicate (Z.to_nat Capacity) nullptr) 0 0.

(** [(i + 1) & (Capacity - 1)] in [uint32_t]. *)
Definition mask_next (i : Z) : Z := Z.land (u32 (i + 1)) (u32 (Capacity - 1)).

(** [bool push(T* item)]. *)
Definition spsc_push (item : Z) r : option (bool * spsc_ring_buffer Capacity) :=
  let current_write := sp_write_idx_ r in
  let next_write := mask_next current_write in
  if next_write =? sp_read_idx_ r then Some (false, r)
  else
    buf ← zset (buffer_ r) current_write item;
    Some (true, Spsc buf next_write (sp_read_idx_ r)).

(** The slot [pop] takes, [None] inside for an empty ring. *)
Definition spsc_slot r : option (option Z * spsc_ring_buffer Capacity) :=
  let current_read := sp_read_idx_ r in
  if current_read =? sp_write_idx_ r then Some (None, r)
  else
    item ← zget (buffer_ r) current_read;
    Some (Some item, Spsc (buffer_ r) (sp_write_idx_ r) (mask_next current_read)).

(** [T* pop()]: [nullptr] for an empty ring. *)
Definition spsc_pop r : option (Z * spsc_ring_buffer Capacity) :=
  '(slot, r') ← spsc_slot r; Some (default nullptr slot, r').

(** The conduit with the same contents. *)
Definition as_conduit r : conduit Capacity :=
  Conduit (buffer_ r) (sp_write_idx_ r) (sp_read_idx_ r).
Definition of_conduit (c : conduit Capacity) : spsc_ring_buffer Capacity :=
  Spsc (ring_ c) (write_idx_ c) (read_idx_ c).

(** The capacity passes the [static_assert] and fits the index type. *)
Definition pow2_capacity : Prop := ∃ k, 0 ≤ k ≤ 31 ∧ Capacity = 2 ^ k.

Definition spsc_inv r : Prop := pow2_capacity ∧ conduit_inv (as_conduit r).

Lemma pow2_capacity_range : pow2_capacity → 0 < Capacity ≤ 2 ^ 31.
Proof.
  intros (k & Hk & ->). split; [apply Z.pow_pos_nonneg; lia|apply Z.pow_le_mono_r; lia].
Qed.

Lemma mask_next_idx i :
  pow2_capacity → 0 ≤ i < Capacity → mask_next i = next_idx (Size := Capacity) i.
Proof.
  intros Hc Hi. pose proof (pow2_capacity_range Hc). destruct Hc as (k & Hk & HC).
  rewrite next_idx_val by lia. unfold mask_next.
  rewrite !(wrap_small 32) by word_lia. rewrite HC. apply land_pred_pow2. lia.
Qed.

Lemma spsc_push_conduit item r :
  spsc_inv r →
  spsc_push item r = (λ bc, (bc.1, of_conduit bc.2)) <$> push item (as_conduit r).
Proof.
  intros [Hc (_ & _ & Hw & _)]. unfold spsc_push, push. cbn [as_conduit write_idx_ read_idx_ ring_] in *.
  rewrite mask_next_idx by done. destruct (_ =? _); [by destruct r|].
  by destruct (zset _ _ _).
Qed.

Lemma spsc_slot_conduit r :
  spsc_inv r →
  spsc_slot r = (λ bc, (bc.1, of_conduit bc.2)) <$> pop_raw (as_conduit r).
Proof.
  intros [Hc (_ & _ & _ & Hr)]. unfold spsc_slot, pop_raw. cbn [as_conduit write_idx_ read_idx_ ring_] in *.
  rewrite mask_next_idx by done. destruct (_ =? _); [by destruct r|].
  by destruct (zget _ _).
Qed.

#[export] Instance spsc_queue : Queue (spsc_ring_buffer Capacity) := {
  q_push := spsc_push;
  q_pop := spsc_slot;
  q_items r := items (as_conduit r);
  q_cap _ := Z.to_nat (Capacity - 1);
  q_inv := spsc_inv }.

Lemma as_of_conduit c : as_conduit (of_conduit c) = c.
Proof. by destruct c. Qed.

#[export] Instance spsc_queue_laws : QueueLaws (spsc_ring_buffer Capacity).
Proof.
  split; cbn.
  - intros r [_ Hi]. exact (q_bounded (Q := conduit Capacity) (as_conduit r) Hi).
  - intros a r Hr Hroom. destruct Hr as [Hc Hi]. rewrite spsc_push_conduit by done.
    destruct (q_push_room a (as_conduit r)) as (c' & E & ? & ? & ?); [done|done|]. cbn in E.
    rewrite E. exists (of_conduit c'). cbn. unfold spsc_inv. rewrite as_of_conduit. by split_and!.
  - intros a r Hr Hf. destruct Hr as [Hc Hi]. rewrite spsc_push_conduit by done.
    pose proof (q_push_full (Q := conduit Capacity) a (as_conduit r) Hi Hf) as E. cbn in E. rewrite E. by destruct r.
  - intros r Hr He. destruct Hr as [Hc Hi]. rewrite spsc_slot_conduit by done.
    pose proof (q_pop_empty (Q := conduit Capacity) (as_conduit r) Hi He) as E. cbn in E. rewrite E. by destruct r.
  - intros r a l Hr He. destruct Hr as [Hc Hi]. rewrite spsc_slot_conduit by done.
    destruct (q_pop_cons (as_conduit r) a l) as (c' & E & ? & ? & ?); [done|done|]. cbn in E.
    rewrite E. exists (of_conduit c'). cbn. unfold spsc_inv. rewrite as_of_conduit. by split_and!.
Qed.

Lemma spsc_ctor_inv : pow2_capacity → spsc_inv spsc_ctor ∧ items (as_conduit spsc_ctor) = [].
Proof.
  intros Hc. pose proof (pow2_capacity_range Hc).
  destruct (conduit_ctor_inv (Size := Capacity) (buffer_ spsc_ctor)) as [Hi He];
    [lia|cbn; rewrite length_replicate; lia|]. by split.
Qed.

(** ** tcp_sender_node *)

Record tcp_sender_node := Sender {
  ring : spsc_ring_buffer Capacity;
  socket_fd_ : Z;
  is_running_ : bool }.

Definition sender_ctor (connected_socket : Z) : tcp_sender_node :=
  Sender spsc_ctor connected_socket false.

(** [send_async(ev)], on the compute thread. *)
Definition send_async (ev : Z) (n : tcp_sender_node) : option (bool * tcp_sender_node) :=
  '(ok, r) ← spsc_push ev (ring n); Some (ok, Sender r (socket_fd_ n) (is_running_ n)).

(** [stop()]. *)
Definition sender_stop (n : tcp_sender_node) : tcp_sender_node :=
  Sender (ring n) (socket_fd_ n) false.

(** [run()] before its loop: [false] when the socket is not usable. *)
Definition run_enter (n : tcp_sender_node) : bool * tcp_sender_node :=
  if socket_fd_ n <? 0 then (false, n) else (true, Sender (ring n) (socket_fd_ n) true).

(** One turn of the loop of [run()]: the event handed to [send], if any.  The
    result of [send] is not used. *)
Definition run_turn (n : tcp_sender_node) : option (option Z * tcp_sender_node) :=
  '(ev, r) ← spsc_pop (ring n);
  Some (if ev =? nullptr then None else Some ev, Sender r (socket_fd_ n) (is_running_ n)).

(** The two threads interleaved: [SAsync] is a call of the compute thread,
    [STurn] a turn of the I/O thread. *)
Inductive sender_op := SAsync (ev : Z) | STurn.

(** The accepted events and the events handed to the socket. *)
Fixpoint sender_run (os : list sender_op) (n : tcp_sender_node)
    : option (list Z * list Z * tcp_sender_node) :=
  match os with
  | [] => Some ([], [], n)
  | SAsync ev :: os' =>
      '(ok, n1) ← send_async ev n;
      '(acc, sent, n2) ← sender_run os' n1;
      Some (if ok : bool then ev :: acc else acc, sent, n2)
  | STurn :: os' =>
      '(ev, n1) ← run_turn n;
      '(acc, sent, n2) ← sender_run os' n1;
      Some (acc, option_list ev ++ sent, n2)
  end.

Lemma sender_run_spec os : ∀ n,
  spsc_inv (ring n) → Forall (λ p, p ≠ nullptr) (items (as_conduit (ring n))) →
  Forall (λ o, match o with SAsync ev => ev ≠ nullptr | STurn => True end) os →
  ∃ acc sent n', sender_run os n = Some (acc, sent, n') ∧ spsc_inv (ring n') ∧
    items (as_conduit (ring n)) ++ acc = sent ++ items (as_conduit (ring n')).
Proof.
  induction os as [|o os IH]; intros n Hi Hnn Hos.
  { exists [], [], n. by rewrite app_nil_r. }
  apply Forall_cons in Hos as [Ho Hos]. destruct o as [ev|]; cbn [sender_run].
  - unfold send_async. assert (q_inv (ring n)) as Hq by exact Hi.
    destruct (q_push_cases ev (ring n) Hq) as [(r' & E & Ei & _ & Hi' & _)|[E _]]; cbn in E;
      rewrite E; cbn [mbind option_bind]; cbn in *.
    + destruct (IH (Sender r' (socket_fd_ n) (is_running_ n))) as (acc & sent & n' & -> & ? & Eq); cbn; try done.
      { rewrite Ei. apply Forall_app. by split; [|constructor]. }
      cbn in Eq. exists (ev :: acc), sent, n'. split; [done|]. split; [done|].
      rewrite <-Eq, Ei. by rewrite <-app_assoc.
    + destruct (IH (Sender (ring n) (socket_fd_ n) (is_running_ n))) as (acc & sent & n' & -> & ? & Eq);
        cbn; try done. by exists acc, sent, n'.
  - unfold run_turn, spsc_pop. assert (q_inv (ring n)) as Hq by exact Hi.
    destruct (q_pop_cases (ring n) Hq) as [[Ei E]|(a & l & r' & Ei & E & Ei' & _ & Hi')]; cbn in E;
      rewrite E; cbn [mbind option_bind default]; cbn in *.
    + destruct (IH (Sender (ring n) (socket_fd_ n) (is_running_ n))) as (acc & sent & n' & -> & ? & Eq);
        cbn; try done. by exists acc, sent, n'.
    + rewrite Ei in Hnn. apply Forall_cons in Hnn as [Ha Hl].
      rewrite (proj2 (Z.eqb_neq a nullptr)) by done.
      destruct (IH (Sender r' (socket_fd_ n) (is_running_ n))) as (acc & sent & n' & -> & ? & Eq); cbn; try done.
      { by rewrite Ei'. }
      exists acc, (a :: sent), n'. split; [done|]. split; [done|].
      cbn in *. rewrite Ei, Ei' in *. cbn. by rewrite Eq.
Qed.

(** ** Properties *)

(** C26: The ring with masks and 32-bit indices is equivalent to the conduit of
    the same size: for every power-of-two capacity, the two run any sequence of
    operations with the same answers. *)
Theorem spsc_equiv_conduit (qs : list q_op) (junk : list Z) :
  pow2_capacity → Z.of_nat (length junk) = Capacity →
  fst <$> q_run qs spsc_ctor = fst <$> q_run qs (conduit_ctor junk : conduit Capacity) ∧
  is_Some (q_run qs spsc_ctor).
Proof.
  intros Hc Hj. pose proof (pow2_capacity_range Hc).
  destruct (spsc_ctor_inv Hc) as [Hi He].
  destruct (conduit_ctor_inv (Size := Capacity) junk) as [Hi' He']; [lia|done|].
  destruct (q_run_refines qs (spsc_ctor : spsc_ring_buffer Capacity)) as (r & E & _); [done|].
  destruct (q_run_refines qs (conduit_ctor junk : conduit Capacity)) as (c & E' & _); [done|].
  rewrite E, E'. cbn [q_items q_cap spsc_queue conduit_queue] in *. rewrite He, He'. by split.
Qed.

(** The sender hands the accepted events to the socket in order, each once,
    for every interleaving of the compute thread and the I/O thread: what was
    handed over followed by what is still queued is what was accepted. *)
Theorem sender_in_order os fd :
  pow2_capacity →
  Forall (λ o, match o with SAsync ev => ev ≠ nullptr | STurn => True end) os →
  ∃ acc sent n, sender_run os (sender_ctor fd) = Some (acc, sent, n) ∧
    acc = sent ++ items (as_conduit (ring n)) ∧
    Z.of_nat (length acc - length sent) ≤ Capacity - 1.
Proof.
  intros Hc Hos. pose proof (pow2_capacity_range Hc). destruct (spsc_ctor_inv Hc) as [Hi He].
  destruct (sender_run_spec os (sender_ctor fd)) as (acc & sent & n & E & Hi' & Eq); cbn;
    [done|by rewrite He|done|].
  cbn in Eq. rewrite He in Eq. cbn in Eq. exists acc, sent, n. split; [done|]. split; [done|].
  pose proof (q_bounded (Q := spsc_ring_buffer Capacity) (ring n) Hi') as Hb. cbn in Hb. rewrite Eq, length_app. lia.
Qed.

End spsc.

Arguments tcp_sender_node Capacity : clear implicits.

Lemma spsc_equiv_conduit_witness :
  fst <$> q_run [QPush 8; QPush 16; QPop; QPush 24; QPush 32] (spsc_ctor : spsc_ring_buffer 4)
  = fst <$> q_run [QPush 8; QPush 16; QPop; QPush 24; QPush 32] (conduit_ctor [1; 2; 3; 4] : conduit 4).
Proof.
  apply (spsc_equiv_conduit (Capacity := 4) [QPush 8; QPush 16; QPop; QPush 24; QPush 32] [1; 2; 3; 4]);
    [exists 2; split; [lia|done]|done].
Defined.

Lemma sender_in_order_witness :
  ∃ acc sent n, sender_run [SAsync 8; SAsync 16; STurn; SAsync 24; STurn; STurn; STurn]
    (sender_ctor 3 : tcp_sender_node 2) = Some (acc, sent, n) ∧ acc = [8; 24] ∧ sent = [8; 24].
Proof.
  destruct (sender_in_order (Capacity := 2)
    [SAsync 8; SAsync 16; STurn; SAsync 24; STurn; STurn; STurn] 3) as (acc & sent & n & E & _).
  - exists 1. split; [lia|done].
  - by repeat constructor.
  - exists acc, sent, n. split; [done|]. vm_compute in E. by injection E as <- <- _.
Defined.
