(* ===== verification/NetConduit.v ===== *)
(** * The networked conduit (include/conduit/net/networked_conduit.hpp)

    [networked_conduit<T, Capacity>] sends events as fixed-size frames over a
    non-blocking stream socket and reassembles the frames of the peer.  A frame
    is the byte image of [wire_frame<T>]: the type id (four bytes, little
    endian), the object representation of the event, and padding up to a
    multiple of 64.

    The kernel is the environment.  It answers each [send] by taking some of
    the offered bytes (at least one, at most all), by EWOULDBLOCK or by another
    error; [recv] hands out some of the bytes that arrived, or reports a closed
    connection, EWOULDBLOCK or an error.  Its answers are a script; a script
    that has run out answers EWOULDBLOCK.  [make], [memcpy] into the new event
    and [sink.on] are parameters, so the model does not depend on the domain or
    the sink. *)

From S2P Require Import Prelude Ring EventPtr.

Local Open Scope Z_scope.

(** The byte image of a [uint32_t]. *)
Definition le32 (x : Z) : list Z :=
  [x `mod` 256; (x `div` 256) `mod` 256; (x `div` 65536) `mod` 256;
   (x `div` 16777216) `mod` 256].

Definition un_le32 (b : list Z) : option Z :=
  match b with
  | b0 :: b1 :: b2 :: b3 :: _ => Some (b0 + 256 * b1 + 65536 * b2 + 16777216 * b3)
  | _ => None
  end.

(** The answers of the kernel: [SendSome k] takes [k + 1] bytes or all that are
    offered, whichever is less. *)
Inductive os_send := SendSome (k : nat) | SendAgain | SendErr.
Inductive os_recv := RecvSome (k : nat) | RecvAgain | RecvClosed | RecvErr.

Record networked_conduit := NetConduit {
  sock_fd_ : Z;
  is_dead_ : bool;
  tx_ring_ : list (list Z);
  tx_head_ : Z;
  tx_tail_ : Z;
  tx_inflight_offset_ : nat;
  rx_staging_ : list Z;
  rx_bytes_read_ : nat }.

Definition INVALID_SOCKET : Z := -1.

Section net.
Context (TYPE_ID : Z) (sizeof_T : nat) (Capacity : Z).

(** [sizeof(wire_frame<T>)]: [4 + sizeof(T)] rounded up to the alignment 64. *)
Definition FRAME_SIZE : nat := ((4 + sizeof_T + 63) / 64 * 64)%nat.
Definition MASK : Z := u64 (Capacity - 1).

(** A new conduit: dead until a socket is bound; the arrays hold anything. *)
Definition net_ctor (ring : list (list Z)) (staging : list Z) : networked_conduit :=
  NetConduit INVALID_SOCKET true ring 0 0 0 staging 0.

Definition bind_socket (fd : Z) (c : networked_conduit) : networked_conduit :=
  NetConduit fd false (tx_ring_ c) (tx_head_ c) (tx_tail_ c) (tx_inflight_offset_ c)
    (rx_staging_ c) (rx_bytes_read_ c).

Definition is_alive (c : networked_conduit) : bool := negb (is_dead_ c).

(** [mark_dead()]: on the first transition, drop the partial-transfer state. *)
Definition mark_dead (c : networked_conduit) : networked_conduit :=
  if is_dead_ c then c
  else NetConduit (sock_fd_ c) true (tx_ring_ c) (tx_head_ c) (tx_tail_ c) 0
         (rx_staging_ c) 0.

(** *** Sending *)

(** [frame.type_id = TYPE_ID; memcpy(frame.payload, ...)] on a frame that holds
    [old]: the padding keeps its bytes. *)
Definition fill_frame (payload old : list Z) : list Z :=
  le32 TYPE_ID ++ payload ++ drop (4 + sizeof_T) old.

Section push.
Context {W : Type}.

(** [push(ev)]; [object w p] is the representation of the object at [p]. *)
Definition push (object : W → Z → option (list Z)) (ev : event_ptr W) (c : networked_conduit)
    (w : W) : option (bool * event_ptr W * networked_conduit * W) :=
  if is_dead_ c || negb (ep_bool ev) then Some (false, ev, c, w) else
  let head := tx_head_ c in
  let tail := tx_tail_ c in
  if Capacity <=? u64 (head - tail) then Some (false, ev, c, w) else
  old ← zget (tx_ring_ c) (Z.land head MASK);
  payload ← object w (ep_get ev);
  ring ← zset (tx_ring_ c) (Z.land head MASK) (fill_frame payload old);
  '(ev', w') ← ep_reset ev w;
  Some (true, ev',
        NetConduit (sock_fd_ c) (is_dead_ c) ring (u64 (head + 1)) tail
          (tx_inflight_offset_ c) (rx_staging_ c) (rx_bytes_read_ c), w').

End push.

Definition set_inflight (n : nat) (c : networked_conduit) : networked_conduit :=
  NetConduit (sock_fd_ c) (is_dead_ c) (tx_ring_ c) (tx_head_ c) (tx_tail_ c) n
    (rx_staging_ c) (rx_bytes_read_ c).

Definition set_tail (tail : Z) (c : networked_conduit) : networked_conduit :=
  NetConduit (sock_fd_ c) (is_dead_ c) (tx_ring_ c) (tx_head_ c) tail
    (tx_inflight_offset_ c) (rx_staging_ c) (rx_bytes_read_ c).

(** The loop of [poll_tx]; [wire] collects the bytes the kernel took. *)
Fixpoint poll_tx_loop (os : list os_send) (head tail : Z) (c : networked_conduit)
    (wire : list Z) : option (Z * networked_conduit * list Z) :=
  if negb (tail <? head) then Some (tail, c, wire) else
  match os with
  | [] | SendAgain :: _ => Some (tail, c, wire)
  | SendErr :: _ => Some (tail, mark_dead c, wire)
  | SendSome k :: os' =>
      frame ← zget (tx_ring_ c) (Z.land tail MASK);
      let data := drop (tx_inflight_offset_ c) frame in
      let bytes_to_send := (FRAME_SIZE - tx_inflight_offset_ c)%nat in
      let bytes_sent := Nat.min (S k) bytes_to_send in
      let offset := (tx_inflight_offset_ c + bytes_sent)%nat in
      let wire' := wire ++ take bytes_sent data in
      if (offset =? FRAME_SIZE)%nat
      then poll_tx_loop os' head (u64 (tail + 1)) (set_inflight 0 c) wire'
      else poll_tx_loop os' head tail (set_inflight offset c) wire'
  end.

(** [poll_tx()]: the conduit and the bytes put on the wire. *)
Definition poll_tx (os : list os_send) (c : networked_conduit)
    : option (networked_conduit * list Z) :=
  if is_dead_ c then Some (c, []) else
  '(tail, c', wire) ← poll_tx_loop os (tx_head_ c) (tx_tail_ c) c [];
  Some (set_tail tail c', wire).

(** *** Receiving *)

Section poll_rx.
Context {W : Type}.

(** [local_domain.make<T>()], [memcpy(ev.get(), payload, sizeof(T))] and
    [local_sink.on(ev)]. *)
Context (make : W → option (event_ptr W * W)).
Context (store : Z → list Z → W → option W).
Context (on : event_ptr W → W → option (event_ptr W * W)).

(** A complete frame: make an event, fill it, hand it to the sink; an exhausted
    domain drops the frame.  The local event pointer is destroyed. *)
Definition deliver_frame (payload : list Z) (w : W) : option W :=
  '(ev, w1) ← make w;
  if ep_bool ev then
    w2 ← store (ep_get ev) payload w1;
    '(ev', w3) ← on ev w2;
    ep_destroy ev' w3
  else ep_destroy ev w1.

Definition set_rx (staging : list Z) (n : nat) (c : networked_conduit) : networked_conduit :=
  NetConduit (sock_fd_ c) (is_dead_ c) (tx_ring_ c) (tx_head_ c) (tx_tail_ c)
    (tx_inflight_offset_ c) staging n.

(** What [recv] writes at [offset] of the staging frame. *)
Definition patch (staging : list Z) (offset : nat) (chunk : list Z) : list Z :=
  take offset staging ++ chunk ++ drop (offset + length chunk) staging.

Definition frame_payload (frame : list Z) : list Z := take sizeof_T (drop 4 frame).

(** The loop of [poll_rx]; [stream] are the bytes that have arrived. *)
Fixpoint poll_rx_loop (os : list os_recv) (stream : list Z) (c : networked_conduit) (w : W)
    : option (networked_conduit * list Z * W) :=
  match os with
  | [] | RecvAgain :: _ => Some (c, stream, w)
  | RecvClosed :: _ | RecvErr :: _ => Some (mark_dead c, stream, w)
  | RecvSome k :: os' =>
      match stream with
      | [] => Some (c, stream, w)
      | _ =>
          let bytes_to_read := (FRAME_SIZE - rx_bytes_read_ c)%nat in
          let bytes_read := Nat.min (S k) (Nat.min bytes_to_read (length stream)) in
          let staging := patch (rx_staging_ c) (rx_bytes_read_ c) (take bytes_read stream) in
          let n := (rx_bytes_read_ c + bytes_read)%nat in
          let rest := drop bytes_read stream in
          if (n =? FRAME_SIZE)%nat then
            type_id ← un_le32 staging;
            if negb (type_id =? TYPE_ID) then Some (mark_dead (set_rx staging n c), rest, w)
            else
              w' ← deliver_frame (frame_payload staging) w;
              poll_rx_loop os' rest (set_rx staging 0 c) w'
          else poll_rx_loop os' rest (set_rx staging n c) w
      end
  end.

(** [poll_rx(domain, sink)]: the conduit, the bytes left in the kernel and the
    world. *)
Definition poll_rx (os : list os_recv) (stream : list Z) (c : networked_conduit) (w : W)
    : option (networked_conduit * list Z * W) :=
  if is_dead_ c then Some (c, stream, w) else poll_rx_loop os stream c w.

End poll_rx.

(** ** The transmit side *)

Record net_inv (c : networked_conduit) : Prop := {
  ni_cap : ∃ k, 0 ≤ k ≤ 63 ∧ Capacity = 2 ^ k;
  ni_ring : Z.of_nat (length (tx_ring_ c)) = Capacity;
  ni_frames : Forall (λ f, length f = FRAME_SIZE) (tx_ring_ c);
  ni_order : 0 ≤ tx_tail_ c ≤ tx_head_ c ∧ tx_head_ c < 2 ^ 64;
  ni_room : tx_head_ c - tx_tail_ c ≤ Capacity;
  ni_offset : (tx_inflight_offset_ c < FRAME_SIZE)%nat ∧
              ((0 < tx_inflight_offset_ c)%nat → tx_tail_ c < tx_head_ c);
  ni_rx : length (rx_staging_ c) = FRAME_SIZE ∧ (rx_bytes_read_ c < FRAME_SIZE)%nat;
  ni_dead : is_dead_ c = true → tx_inflight_offset_ c = 0%nat ∧ rx_bytes_read_ c = 0%nat }.

(** The frames waiting in the ring, oldest first. *)
Definition frames_from (ring : list (list Z)) (tail head : Z) : list (list Z) :=
  window ring tail (Z.to_nat (head - tail)).

Definition pending (c : networked_conduit) : list (list Z) :=
  frames_from (tx_ring_ c) (tx_tail_ c) (tx_head_ c).

(** The bytes still to be sent on this connection. *)
Definition outstanding (c : networked_conduit) : list Z :=
  drop (tx_inflight_offset_ c) (concat (pending c)).

Lemma FRAME_SIZE_ge : (4 + sizeof_T ≤ FRAME_SIZE)%nat.
Proof.
  unfold FRAME_SIZE. pose proof (Nat.div_mod_eq (4 + sizeof_T + 63) 64).
  pose proof (Nat.mod_upper_bound (4 + sizeof_T + 63) 64 ltac:(lia)). lia.
Qed.

Lemma mask_rpos (ring : list (list Z)) x k :
  0 ≤ k ≤ 63 → Capacity = 2 ^ k → Z.of_nat (length ring) = Capacity →
  Z.land x MASK = rpos ring x.
Proof.
  intros Hk HC Hl. unfold rpos, MASK. rewrite Hl, HC.
  assert (0 < 2 ^ k ≤ 2 ^ 63) as Hb.
  { split; [apply Z.pow_pos_nonneg; lia|]. apply Z.pow_le_mono_r; lia. }
  rewrite wrap_small by word_lia. apply land_pred_pow2. lia.
Qed.

Lemma ring_get (ring : list (list Z)) x k :
  0 ≤ k ≤ 63 → Capacity = 2 ^ k → Z.of_nat (length ring) = Capacity →
  Forall (λ f, length f = FRAME_SIZE) ring →
  ∃ f, zget ring (rpos ring x) = Some f ∧ length f = FRAME_SIZE.
Proof.
  intros Hk HC Hl Hf. assert (0 < Capacity) by (rewrite HC; apply Z.pow_pos_nonneg; lia).
  destruct (rpos_get ring x) as [f Ef]; [by intros ->; cbn in Hl; lia|].
  exists f. split; [done|]. unfold zget in Ef. case_decide; [|done].
  by apply (Forall_lookup_1 _ _ _ _ Hf Ef).
Qed.

Lemma frames_from_cons ring tail head f :
  tail < head → zget ring (rpos ring tail) = Some f →
  frames_from ring tail head = f :: frames_from ring (tail + 1) head.
Proof.
  intros Hlt Hf. unfold frames_from.
  replace (Z.to_nat (head - tail)) with (S (Z.to_nat (head - (tail + 1)))) by lia.
  by apply window_cons.
Qed.

(** One accepted [send] of [s] bytes at offset [off] of the front frame. *)
Lemma send_split (f : list Z) F off s :
  length f = FRAME_SIZE → (off + s ≤ FRAME_SIZE)%nat →
  drop off (concat (f :: F)) = take s (drop off f) ++ drop (off + s) f ++ concat F.
Proof.
  intros Hf Hs. cbn [concat]. rewrite drop_app_le by lia. rewrite app_assoc. f_equal.
  by rewrite <-drop_drop, take_drop.
Qed.

Lemma set_inflight_inv n c :
  net_inv c → is_dead_ c = false → (n < FRAME_SIZE)%nat →
  ((0 < n)%nat → tx_tail_ c < tx_head_ c) → net_inv (set_inflight n c).
Proof. intros [] ? ? ?. split; cbn; try done. congruence. Qed.

(** Compute the projections of an updated conduit, and nothing else. *)
Ltac net_cbn := cbn [sock_fd_ is_dead_ tx_ring_ tx_head_ tx_tail_ tx_inflight_offset_ rx_staging_
  rx_bytes_read_ set_inflight set_tail bind_socket set_rx] in *.

(** The loop sends the outstanding bytes in order.  When the connection dies,
    the transmit offset of the front frame is forgotten ([p] bytes of it are on
    the wire). *)
Lemma poll_tx_loop_spec os : ∀ tail c wire,
  net_inv c → is_dead_ c = false → tx_tail_ c ≤ tail ≤ tx_head_ c →
  ((0 < tx_inflight_offset_ c)%nat → tail < tx_head_ c) →
  ∃ tail' c' out p,
    poll_tx_loop os (tx_head_ c) tail c wire = Some (tail', c', wire ++ out) ∧
    out ++ drop p (concat (frames_from (tx_ring_ c) tail' (tx_head_ c)))
      = drop (tx_inflight_offset_ c) (concat (frames_from (tx_ring_ c) tail (tx_head_ c))) ∧
    tail ≤ tail' ≤ tx_head_ c ∧ (p < FRAME_SIZE)%nat ∧
    ((0 < p)%nat → tail' < tx_head_ c) ∧
    (c' = set_inflight p c ∨ c' = mark_dead (set_inflight p c)) ∧
    (Forall (λ r, r ≠ SendErr) os → is_dead_ c' = false).
Proof.
  induction os as [|o os IH]; intros tail c wire Hinv Hal Ht Hoff.
  { exists tail, c, [], (tx_inflight_offset_ c). pose proof (ni_offset _ Hinv) as [Ho _].
    rewrite app_nil_r. split_and!; try done; try lia.
    - cbn. by destruct (negb _).
    - left. by destruct c. }
  cbn [poll_tx_loop]. pose proof Hinv as [(k & Hk & HC) Hl Hfr Hord Hroom [Ho1 _] Hrx Hdead].
  assert (∃ out p, Some (tail, c, wire) = Some (tail, c, wire ++ out) ∧ out = [] ∧
            p = tx_inflight_offset_ c ∧ c = set_inflight p c) as (out0 & p0 & Estop & -> & -> & Eset).
  { exists [], (tx_inflight_offset_ c). rewrite app_nil_r. split_and!; try done. by destruct c. }
  destruct (Z.ltb_spec tail (tx_head_ c)) as [Hlt|Hge]; cbn [negb].
  2:{ exists tail, c, [], (tx_inflight_offset_ c). split_and!; try done; try lia. by left. }
  destruct o as [n| |].
  - destruct (ring_get (tx_ring_ c) tail k) as (f & Ef & Hlf); [done..|].
    rewrite (mask_rpos _ _ k) by done. rewrite Ef. cbn [mbind option_bind].
    set (s := Nat.min (S n) (FRAME_SIZE - tx_inflight_offset_ c)).
    pose proof (send_split f (frames_from (tx_ring_ c) (tail + 1) (tx_head_ c)) (tx_inflight_offset_ c) s Hlf
      ltac:(lia)) as Hsplit.
    rewrite <-frames_from_cons in Hsplit by done. rewrite Hsplit.
    destruct (Nat.eqb_spec (tx_inflight_offset_ c + s) FRAME_SIZE) as [Efull|Hpart].
    + rewrite wrap_small by word_lia.
      rewrite Efull, <-Hlf, drop_all, app_nil_l.
      destruct (IH (tail + 1) (set_inflight 0 c) (wire ++ take s (drop (tx_inflight_offset_ c) f)))
        as (tail' & c' & out & p & E & Hout & ? & ? & ? & Hc' & Hok); net_cbn; try done; try lia.
      { apply set_inflight_inv; done || lia. }
      rewrite E. exists tail', c', (take s (drop (tx_inflight_offset_ c) f) ++ out), p.
      rewrite <-!app_assoc, Hout. split_and!; try done; try lia.
      intros Hf. apply Hok. by apply Forall_cons in Hf as [_ ?].
    + destruct (IH tail (set_inflight (tx_inflight_offset_ c + s) c)
        (wire ++ take s (drop (tx_inflight_offset_ c) f)))
        as (tail' & c' & out & p & E & Hout & ? & ? & ? & Hc' & Hok); net_cbn; try done; try lia.
      { apply set_inflight_inv; done || lia. }
      rewrite E. exists tail', c', (take s (drop (tx_inflight_offset_ c) f) ++ out), p.
      rewrite <-!app_assoc, Hout. split_and!; try done; try lia.
      * f_equal. rewrite (frames_from_cons _ _ _ f) by done.
        cbn [concat]. by rewrite drop_app_le by lia.
      * intros Hf. apply Hok. by apply Forall_cons in Hf as [_ ?].
  - exists tail, c, [], (tx_inflight_offset_ c). split_and!; try done; try lia. by left.
  - exists tail, (mark_dead c), [], (tx_inflight_offset_ c). rewrite app_nil_r. split_and!; try done; try lia.
    + right. by rewrite <-Eset.
    + intros Hf. apply Forall_cons in Hf as [? _]. done.
Qed.

(** A frame that carries [payload]. *)
Definition frame_of (payload f : list Z) : Prop :=
  length f = FRAME_SIZE ∧ length payload = sizeof_T ∧
  take (4 + sizeof_T) f = le32 TYPE_ID ++ payload.

Lemma fill_frame_of payload old :
  length payload = sizeof_T → length old = FRAME_SIZE → frame_of payload (fill_frame payload old).
Proof.
  intros Hp Ho. pose proof FRAME_SIZE_ge. unfold frame_of, fill_frame. split_and!; [|done|].
  - rewrite !length_app, length_drop. cbn [le32 length]. lia.
  - rewrite app_assoc, take_app_le by (rewrite length_app; cbn [le32 length]; lia).
    apply take_ge. rewrite length_app. cbn [le32 length]. lia.
Qed.

Lemma pending_length c : net_inv c → Z.of_nat (length (pending c)) = tx_head_ c - tx_tail_ c.
Proof.
  intros [(k & Hk & HC) Hl _ Hord _ _ _ _]. unfold pending, frames_from.
  rewrite window_length; [lia|]. intros E. rewrite E in Hl. cbn in Hl.
  pose proof (Z.pow_pos_nonneg 2 k). lia.
Qed.

Lemma pending_frames c : net_inv c → Forall (λ f, length f = FRAME_SIZE) (pending c).
Proof.
  intros [_ _ Hf _ _ _ _ _]. unfold pending, frames_from.
  generalize (tx_tail_ c) at 1. induction (Z.to_nat _) as [|n IH]; intros t; [constructor|].
  rewrite window_S. destruct (zget _ _) as [f|] eqn:E; [|apply IH]. constructor; [|apply IH].
  unfold zget in E. case_decide; [|done]. by apply (Forall_lookup_1 _ _ _ _ Hf E).
Qed.

(** The transmit offset lies inside the first pending frame. *)
Lemma offset_bound c : net_inv c → (tx_inflight_offset_ c ≤ length (concat (pending c)))%nat.
Proof.
  intros Hinv. pose proof (pending_length c Hinv) as Hl. pose proof (pending_frames c Hinv) as Hf.
  destruct (ni_offset c Hinv) as [Ho1 Ho2]. destruct (pending c) as [|f F].
  - cbn in *. destruct (tx_inflight_offset_ c); [lia|]. specialize (Ho2 ltac:(lia)). lia.
  - apply Forall_cons in Hf as [Hf _]. cbn [concat]. rewrite length_app. lia.
Qed.

Section push_facts.
Context {W : Type} (object : W → Z → option (list Z)).

Lemma push_refused (ev : event_ptr W) c w :
  net_inv c →
  is_dead_ c = true ∨ ep_bool ev = false ∨ Z.of_nat (length (pending c)) = Capacity →
  push object ev c w = Some (false, ev, c, w).
Proof.
  intros Hinv H. pose proof (pending_length c Hinv) as Hl. pose proof Hinv as [? _ _ ? Hr _ _ _].
  unfold push. destruct (is_dead_ c); [done|]. destruct (ep_bool ev); [|done]. cbn [orb negb].
  rewrite wrap_small by word_lia. rewrite (proj2 (Z.leb_le _ _)); [done|].
  destruct H as [|[|]]; [done..|lia].
Qed.

Lemma push_accepted (ev : event_ptr W) c w payload ev' w' :
  net_inv c → is_dead_ c = false → ep_bool ev = true →
  Z.of_nat (length (pending c)) < Capacity → tx_head_ c + 1 < 2 ^ 64 →
  object w (ptr_ ev) = Some payload → length payload = sizeof_T → ep_reset ev w = Some (ev', w') →
  ∃ c' f, push object ev c w = Some (true, ev', c', w') ∧ frame_of payload f ∧
    pending c' = pending c ++ [f] ∧ outstanding c' = outstanding c ++ f ∧ net_inv c' ∧
    is_dead_ c' = false.
Proof.
  intros Hinv Hal Hev Hroom Hh Hobj Hpl Hreset. pose proof (pending_length c Hinv) as Hl.
  pose proof (offset_bound c Hinv) as Hob.
  pose proof Hinv as [(k & Hk & HC) Hr Hfr Hord Hrm [Ho1 Ho2] Hrx Hd].
  unfold push. rewrite Hal, Hev. cbn [orb negb]. rewrite wrap_small by word_lia.
  rewrite (proj2 (Z.leb_gt _ _)) by lia. rewrite (mask_rpos _ _ k) by done.
  destruct (ring_get (tx_ring_ c) (tx_head_ c) k) as (old & Eold & Hold); [done..|].
  rewrite Eold. cbn [mbind option_bind]. unfold ep_get. rewrite Hobj. cbn [mbind option_bind].
  set (f := fill_frame payload old). pose proof (fill_frame_of payload old Hpl Hold) as Hf. fold f in Hf.
  assert (tx_ring_ c ≠ []) as Hne.
  { intros E. rewrite E in Hr. cbn in Hr. pose proof (Z.pow_pos_nonneg 2 k). lia. }
  rewrite zset_eq by by apply rpos_range. cbn [mbind option_bind]. rewrite Hreset. cbn [mbind option_bind].
  set (c' := NetConduit _ _ _ _ _ _ _ _).
  assert (pending c' = pending c ++ [f]) as Hp.
  { unfold pending, c', frames_from. net_cbn. rewrite wrap_small by word_lia.
    replace (Z.to_nat (tx_head_ c + 1 - tx_tail_ c)) with (S (Z.to_nat (tx_head_ c - tx_tail_ c))) by lia.
    rewrite <-window_push by lia. do 4 f_equal. lia. }
  exists c', f. split; [done|]. split; [done|]. split; [done|]. split; [|split; [|done]].
  - unfold outstanding. rewrite Hp, concat_app. cbn [concat]. rewrite app_nil_r.
    unfold c'. net_cbn. by rewrite drop_app_le.
  - unfold c'. split; net_cbn; try done.
    + by exists k.
    + by rewrite length_insert.
    + apply Forall_insert; [done|]. apply Hf.
    + rewrite wrap_small by word_lia. lia.
    + rewrite wrap_small by word_lia. lia.
    + rewrite wrap_small by word_lia. lia.
Qed.

End push_facts.

Lemma mark_dead_inv c : net_inv c → net_inv (mark_dead c).
Proof.
  intros Hinv. unfold mark_dead. destruct (is_dead_ c); [done|].
  destruct Hinv. split; net_cbn; try done; lia.
Qed.

Lemma bind_socket_inv fd c : net_inv c → net_inv (bind_socket fd c).
Proof. intros []. split; net_cbn; done. Qed.

(** [poll_tx] moves bytes from the outstanding ones to the wire. *)
Lemma poll_tx_spec os c :
  net_inv c →
  ∃ c' out, poll_tx os c = Some (c', out) ∧ net_inv c' ∧ tx_head_ c' = tx_head_ c ∧
    (is_dead_ c' = is_dead_ c → out ++ outstanding c' = outstanding c) ∧
    (is_dead_ c' = true → ∃ p, out ++ drop p (concat (pending c')) = outstanding c ∧
                               (p < FRAME_SIZE)%nat) ∧
    (∃ done, pending c = done ++ pending c') ∧
    (is_dead_ c = false → Forall (λ r, r ≠ SendErr) os → is_dead_ c' = false).
Proof.
  intros Hinv. unfold poll_tx. destruct (is_dead_ c) eqn:Hdead.
  { exists c, []. split_and!; try done.
    - intros _. exists 0%nat. unfold outstanding. destruct (ni_dead _ Hinv Hdead) as [-> _].
      split; [done|]. pose proof FRAME_SIZE_ge. lia.
    - by exists []. }
  pose proof Hinv as [Hcap Hr Hfr Hord Hrm [Ho1 Ho2] Hrx Hd].
  destruct (poll_tx_loop_spec os (tx_tail_ c) c [] Hinv Hdead)
    as (tail & c1 & out & p & E & Hout & Ht & Hp & Hp0 & Hc1 & Hok); [lia|done|].
  rewrite E. cbn [mbind option_bind app]. exists (set_tail tail c1), out.
  assert (tx_ring_ c1 = tx_ring_ c ∧ tx_head_ c1 = tx_head_ c) as [Er Eh].
  { destruct Hc1 as [-> | ->]; [done|]. unfold mark_dead. net_cbn. by rewrite Hdead. }
  assert (pending (set_tail tail c1) = frames_from (tx_ring_ c) tail (tx_head_ c)) as Ep.
  { unfold pending. net_cbn. by rewrite Er, Eh. }
  split; [done|]. split.
  { destruct Hc1 as [-> | ->]; [|unfold mark_dead; net_cbn; rewrite Hdead];
      split; net_cbn; rewrite ?Hdead; try done; lia. }
  split; [done|]. split; [|split; [|split]].
  - intros Ed. unfold outstanding at 1. rewrite Ep. destruct Hc1 as [-> | ->]; [exact Hout|].
    unfold mark_dead in Ed. net_cbn. by rewrite Hdead in Ed.
  - intros _. exists p. rewrite Ep. split; [exact Hout|done].
  - rewrite Ep. exists (frames_from (tx_ring_ c) (tx_tail_ c) tail). unfold pending, frames_from.
    replace (Z.to_nat (tx_head_ c - tx_tail_ c))
      with (Z.to_nat (tail - tx_tail_ c) + Z.to_nat (tx_head_ c - tail))%nat by lia.
    rewrite window_app. do 2 f_equal. lia.
  - intros _ Hf. by apply Hok.
Qed.

Lemma net_ctor_inv ring staging k :
  0 ≤ k ≤ 63 → Capacity = 2 ^ k → Z.of_nat (length ring) = Capacity →
  Forall (λ f, length f = FRAME_SIZE) ring → length staging = FRAME_SIZE →
  net_inv (net_ctor ring staging) ∧ outstanding (net_ctor ring staging) = [].
Proof.
  intros Hk HC Hl Hf Hs. pose proof FRAME_SIZE_ge.
  assert (0 < 2 ^ k) by (apply Z.pow_pos_nonneg; lia). split; [|done].
  split; cbn -[FRAME_SIZE]; try done; try lia. by exists k.
Qed.

(** *** A connection: pushes and polls in any order *)

(** The conduit, the bytes on the wire, and the payloads of the accepted
    events. *)
Abbreviation tx_state := (networked_conduit * list Z * list (list Z))%type.

Inductive tx_step : tx_state → tx_state → Prop :=
  | TxPush {W : Type} (object : W → Z → option (list Z)) (ev : event_ptr W) w payload b ev' w'
      c c' wire ps :
      object w (ptr_ ev) = Some payload → length payload = sizeof_T →
      tx_head_ c + 1 < 2 ^ 64 →
      push object ev c w = Some (b, ev', c', w') →
      tx_step (c, wire, ps) (c', wire, if b then ps ++ [payload] else ps)
  | TxPoll os c c' out wire ps :
      Forall (λ r, r ≠ SendErr) os → poll_tx os c = Some (c', out) →
      tx_step (c, wire, ps) (c', wire ++ out, ps).

(** A successful call took the accepting branch or changed nothing. *)
Lemma push_inversion {W} object (ev : event_ptr W) c w b ev' c' w' :
  net_inv c → push object ev c w = Some (b, ev', c', w') →
  (b = false ∧ c' = c) ∨
  (b = true ∧ is_dead_ c = false ∧ ep_bool ev = true ∧
   Z.of_nat (length (pending c)) < Capacity ∧ ep_reset ev w = Some (ev', w')).
Proof.
  intros Hinv. rewrite pending_length by done. pose proof Hinv as [_ _ _ ? _ _ _ _].
  unfold push. destruct (is_dead_ c); cbn [orb]; [intros [= <- <- <- <-]; by left|].
  destruct (ep_bool ev); cbn [negb]; [|intros [= <- <- <- <-]; by left].
  rewrite wrap_small by word_lia.
  destruct (Z.leb_spec Capacity (tx_head_ c - tx_tail_ c)); [intros [= <- <- <- <-]; by left|].
  destruct (zget _ _) as [old|]; [|done]. cbn [mbind option_bind].
  destruct (object _ _); [|done]. cbn [mbind option_bind].
  destruct (zset _ _ _); [|done]. cbn [mbind option_bind].
  destruct (ep_reset ev w) as [[ev1 w1]|]; [|done]. cbn [mbind option_bind].
  intros [= <- <- <- <-]. right. split_and!; done.
Qed.

Definition tx_ok (s : tx_state) : Prop :=
  let '(c, wire, ps) := s in
  net_inv c ∧ is_dead_ c = false ∧
  ∃ fs, Forall2 frame_of ps fs ∧ wire ++ outstanding c = concat fs.

Lemma tx_step_ok s s' : tx_ok s → tx_step s s' → tx_ok s'.
Proof.
  intros Hok Hstep.
  destruct Hstep as [W object ev w payload b ev' w' c c' wire ps Hobj Hpl Hh Hpush
                    |os c c' out wire ps Hos Hpoll];
    destruct Hok as (Hinv & Hal & fs & Hfs & Hw).
  - destruct (push_inversion _ _ _ _ _ _ _ _ Hinv Hpush) as [[-> ->]|(-> & _ & Hev & Hroom & Hr)].
    { split_and!; try done. by exists fs. }
    destruct (push_accepted object ev c w payload ev' w') as (c1 & f & E & Hf & _ & Ho & Hi & Hd); [done..|].
    rewrite E in Hpush. injection Hpush as <-. split_and!; try done. exists (fs ++ [f]).
    split; [apply Forall2_app; [done|by constructor]|].
    rewrite Ho, app_assoc, Hw, concat_app. cbn [concat]. by rewrite app_nil_r.
  - destruct (poll_tx_spec os c Hinv) as (c1 & out1 & E & Hi & _ & Ho & _ & _ & Hd).
    rewrite Hpoll in E. injection E as <- <-. specialize (Hd Hal Hos).
    split_and!; try done. exists fs. split; [done|]. rewrite <-Hw, <-app_assoc, Ho; [done|congruence].
Qed.

(** ** The receive side *)

Section rx.
Context {W : Type} (make : W → option (event_ptr W * W)).
Context (store : Z → list Z → W → option W).
Context (on : event_ptr W → W → option (event_ptr W * W)).

Abbreviation deliver := (deliver_frame make store on).

(** The reference: the stream read byte by byte.  The result is the incomplete
    frame at the end, or [None] inside when a frame had a foreign type id. *)
Fixpoint feed (bytes acc : list Z) (w : W) : option (option (list Z) * W) :=
  match bytes with
  | [] => Some (Some acc, w)
  | b :: bytes' =>
      let acc' := acc ++ [b] in
      if (length acc' =? FRAME_SIZE)%nat then
        type_id ← un_le32 acc';
        if negb (type_id =? TYPE_ID) then Some (None, w)
        else w' ← deliver (frame_payload acc') w; feed bytes' [] w'
      else feed bytes' acc' w
  end.

Lemma feed_part chunk : ∀ bytes acc w,
  (length acc + length chunk < FRAME_SIZE)%nat →
  feed (chunk ++ bytes) acc w = feed bytes (acc ++ chunk) w.
Proof.
  induction chunk as [|b chunk IH]; intros bytes acc w Hl; cbn [app].
  { by rewrite app_nil_r. }
  cbn [feed]. cbn [length] in Hl. rewrite (proj2 (Nat.eqb_neq _ _)) by (rewrite length_app; cbn [length]; lia).
  rewrite IH by (rewrite length_app; cbn [length]; lia). by rewrite <-app_assoc.
Qed.

Lemma feed_full chunk bytes acc w :
  chunk ≠ [] → (length acc + length chunk = FRAME_SIZE)%nat →
  feed (chunk ++ bytes) acc w =
  type_id ← un_le32 (acc ++ chunk);
  if negb (type_id =? TYPE_ID) then Some (None, w)
  else w' ← deliver (frame_payload (acc ++ chunk)) w; feed bytes [] w'.
Proof.
  intros Hne Hl. destruct (exists_last Hne) as (d & b & ->).
  rewrite length_app in Hl. cbn [length] in Hl. rewrite <-app_assoc, feed_part by lia.
  cbn [app feed]. rewrite <-app_assoc.
  rewrite (proj2 (Nat.eqb_eq _ _)) by (rewrite !length_app; cbn [length]; lia). done.
Qed.

Definition received (c : networked_conduit) : list Z := take (rx_bytes_read_ c) (rx_staging_ c).

Lemma received_patch c chunk n :
  net_inv c → n = (rx_bytes_read_ c + length chunk)%nat → (n ≤ FRAME_SIZE)%nat →
  take n (patch (rx_staging_ c) (rx_bytes_read_ c) chunk) = received c ++ chunk ∧
  length (patch (rx_staging_ c) (rx_bytes_read_ c) chunk) = FRAME_SIZE.
Proof.
  intros Hinv -> Hn. destruct (ni_rx _ Hinv) as [Hs Hr]. unfold patch, received. split.
  - rewrite app_assoc, take_app_le by (rewrite length_app, length_take; lia).
    apply take_ge. rewrite length_app, length_take. lia.
  - rewrite !length_app, length_take, length_drop. lia.
Qed.

Lemma set_rx_inv staging n c :
  net_inv c → is_dead_ c = false → length staging = FRAME_SIZE → (n < FRAME_SIZE)%nat →
  net_inv (set_rx staging n c).
Proof. intros [] ? ? ?. split; cbn; try done. congruence. Qed.

(** The loop consumes a prefix of the stream and does what the reference does
    on it, however the kernel cuts it into chunks. *)
Lemma poll_rx_loop_spec os : ∀ stream c w,
  net_inv c → is_dead_ c = false →
  match poll_rx_loop make store on os stream c w with
  | Some (c', rest, w') =>
      ∃ used, stream = used ++ rest ∧ net_inv c' ∧
        if is_dead_ c' then ∃ r, feed used (received c) w = Some (r, w')
        else feed used (received c) w = Some (Some (received c'), w')
  | None => ∃ used rest, stream = used ++ rest ∧ feed used (received c) w = None
  end.
Proof.
  induction os as [|o os IH]; intros stream c w Hinv Hal.
  { exists []. split_and!; try done. by rewrite Hal. }
  assert (net_inv (mark_dead c) ∧ is_dead_ (mark_dead c) = true) as [Hmi Hmd].
  { split; [by apply mark_dead_inv|]. unfold mark_dead. by rewrite Hal. }
  destruct o as [k| | |]; cbn [poll_rx_loop].
  2:{ exists []. split_and!; try done. by rewrite Hal. }
  2-3: exists []; split_and!; try done; rewrite Hmd; by eexists.
  destruct stream as [|x stream]; [exists []; split_and!; try done; by rewrite Hal|].
  set (s := x :: stream). assert (0 < length s)%nat as Hs by (cbn; lia).
  destruct (ni_rx _ Hinv) as [Hst Hrb].
  set (n := Nat.min (S k) (Nat.min (FRAME_SIZE - rx_bytes_read_ c) (length s))).
  assert (length (take n s) = n) as Hln by (rewrite length_take; lia).
  assert (length (received c) = rx_bytes_read_ c) as Hrc by (unfold received; rewrite length_take; lia).
  destruct (received_patch c (take n s) (rx_bytes_read_ c + n)%nat Hinv) as [Hp Hpl]; [by rewrite Hln|lia|].
  set (staging := patch _ _ _) in *.
  destruct (Nat.eqb_spec (rx_bytes_read_ c + n) FRAME_SIZE) as [Efull|Hpart].
  - assert (staging = received c ++ take n s) as Est by (rewrite <-Hp, Efull, <-Hpl; by rewrite firstn_all).
    assert (take n s ≠ []) as Hne by (intros E; rewrite E in Hln; cbn [length] in Hln; lia).
    pose proof (λ bytes, feed_full (take n s) bytes (received c) w Hne ltac:(lia)) as Hfeed.
    rewrite <-Est in Hfeed.
    destruct (un_le32 staging) as [id|] eqn:Eid; cbn [mbind option_bind] in *.
    2:{ exists (take n s), (drop n s). split; [by rewrite take_drop|].
        pose proof (Hfeed []) as Hf. by rewrite app_nil_r in Hf. }
    destruct (negb (id =? TYPE_ID)) eqn:Eneg.
    { exists (take n s). split; [by rewrite take_drop|]. unfold mark_dead.
      cbn [set_rx is_dead_]. rewrite Hal. cbn [is_dead_]. split.
      - destruct Hinv. split; net_cbn; done || lia.
      - exists None. pose proof (Hfeed []) as Hf. by rewrite app_nil_r in Hf. }
    destruct (deliver (frame_payload staging) w) as [w1|] eqn:Ed; cbn [mbind option_bind] in *.
    2:{ exists (take n s), (drop n s). split; [by rewrite take_drop|].
        pose proof (Hfeed []) as Hf. by rewrite app_nil_r in Hf. }
    assert (net_inv (set_rx staging 0 c)) as Hi1 by (apply set_rx_inv; done || lia).
    specialize (IH (drop n s) (set_rx staging 0 c) w1 Hi1 Hal).
    change (received (set_rx staging 0 c)) with ([] : list Z) in IH.
    destruct (poll_rx_loop _ _ _ os _ _ _) as [[[c' rest] w']|].
    + destruct IH as (used & Eu & Hi & Hf). exists (take n s ++ used).
      split; [by rewrite <-app_assoc, <-Eu, take_drop|]. split; [done|]. by rewrite Hfeed.
    + destruct IH as (used & rest & Eu & Hf). exists (take n s ++ used), rest.
      split; [by rewrite <-app_assoc, <-Eu, take_drop|]. by rewrite Hfeed.
  - assert (net_inv (set_rx staging (rx_bytes_read_ c + n) c)) as Hi1 by (apply set_rx_inv; done || lia).
    specialize (IH (drop n s) _ w Hi1 Hal).
    change (received (set_rx staging (rx_bytes_read_ c + n) c))
      with (take (rx_bytes_read_ c + n) staging) in IH. rewrite Hp in IH.
    pose proof (λ bytes, feed_part (take n s) bytes (received c) w ltac:(lia)) as Hfeed.
    destruct (poll_rx_loop _ _ _ os _ _ _) as [[[c' rest] w']|].
    + destruct IH as (used & Eu & Hi & Hf). exists (take n s ++ used).
      split; [by rewrite <-app_assoc, <-Eu, take_drop|]. split; [done|]. by rewrite Hfeed.
    + destruct IH as (used & rest & Eu & Hf). exists (take n s ++ used), rest.
      split; [by rewrite <-app_assoc, <-Eu, take_drop|]. by rewrite Hfeed.
Qed.

Lemma feed_app a : ∀ b acc w,
  feed (a ++ b) acc w =
  '(r, w') ← feed a acc w;
  match r with None => Some (None, w') | Some acc' => feed b acc' w' end.
Proof.
  induction a as [|x a IH]; intros b acc w; [done|]. cbn [app feed].
  destruct (_ =? FRAME_SIZE)%nat; [|apply IH].
  destruct (un_le32 _); [|done]. cbn [mbind option_bind]. destruct (negb _); [done|].
  destruct (deliver _ _); [|done]. cbn [mbind option_bind]. apply IH.
Qed.

Fixpoint deliver_all (ps : list (list Z)) (w : W) : option W :=
  match ps with [] => Some w | p :: ps' => w' ← deliver p w; deliver_all ps' w' end.

Lemma un_le32_le32 x r : in_word 32 x → un_le32 (le32 x ++ r) = Some x.
Proof.
  intros [H0 H1]. unfold un_le32, le32. cbn [app]. f_equal.
  Z.to_euclidean_division_equations. lia.
Qed.

Context (HTYPE : in_word 32 TYPE_ID).

Lemma feed_frame payload f bytes w :
  frame_of payload f → feed (f ++ bytes) [] w = w' ← deliver payload w; feed bytes [] w'.
Proof using HTYPE.
  intros (Hl & Hp & Ht). pose proof FRAME_SIZE_ge. rewrite feed_full.
  2: by intros ->; cbn [length] in Hl; lia. 2: cbn [length]; lia.
  rewrite <-(take_drop (4 + sizeof_T) f), Ht, app_nil_l, <-app_assoc, un_le32_le32 by done.
  cbn [mbind option_bind]. rewrite Z.eqb_refl. cbn [negb].
  unfold frame_payload. change (drop 4 (le32 TYPE_ID ++ ?x)) with x. by rewrite take_app_length' by done.
Qed.

(** A prefix of a stream of frames delivers the complete frames in it. *)
Lemma feed_prefix ps fs : Forall2 frame_of ps fs → ∀ n w, (n ≤ length (concat fs))%nat →
  ∃ acc, feed (take n (concat fs)) [] w
         = w' ← deliver_all (take (n / FRAME_SIZE) ps) w; Some (Some acc, w').
Proof using HTYPE.
  pose proof FRAME_SIZE_ge. induction 1 as [|payload f ps fs Hf _ IH]; intros n w Hn.
  { cbn [concat length] in *. assert (n = 0)%nat as -> by lia. exists [].
    rewrite Nat.Div0.div_0_l. done. }
  pose proof Hf as [Hl _]. cbn [concat] in *. rewrite length_app in Hn.
  destruct (decide (n < FRAME_SIZE)%nat) as [Hlt|Hge].
  - rewrite Nat.div_small by done. exists (take n (f ++ concat fs)).
    rewrite <-(app_nil_r (take n _)) at 1.
    rewrite feed_part by (cbn [length]; rewrite length_take, length_app; lia). done.
  - destruct (IH (n - FRAME_SIZE)%nat) with (w := w) as (acc0 & _); [lia|].
    assert (n / FRAME_SIZE = S ((n - FRAME_SIZE) / FRAME_SIZE))%nat as ->.
    { replace n with ((n - FRAME_SIZE) + 1 * FRAME_SIZE)%nat at 1 by lia.
      rewrite Nat.div_add by lia. lia. }
    rewrite take_app_ge, Hl by lia. rewrite (feed_frame payload) by done. cbn [take deliver_all].
    destruct (deliver payload w) as [w1|]; [|by exists acc0]. cbn [mbind option_bind].
    apply IH. lia.
Qed.

(** A run of polls on one stream. *)
Definition rx_step (s s' : networked_conduit * list Z * W) : Prop :=
  let '(c, stream, w) := s in
  ∃ os, poll_rx make store on os stream c w = Some s'.

Definition rx_ok (wire : list Z) (w0 : W) (s : networked_conduit * list Z * W) : Prop :=
  let '(c, rest, w) := s in
  net_inv c ∧ ∃ used, wire = used ++ rest ∧
    if is_dead_ c then ∃ r, feed used [] w0 = Some (r, w)
    else feed used [] w0 = Some (Some (received c), w).

Lemma rx_step_ok wire w0 s s' : rx_ok wire w0 s → rx_step s s' → rx_ok wire w0 s'.
Proof.
  destruct s as [[c rest] w], s' as [[c' rest'] w']. intros (Hinv & used & E & Hf) [os Hp].
  unfold poll_rx in Hp. destruct (is_dead_ c) eqn:Hd.
  { injection Hp as <- <- <-. split; [done|]. exists used. split; [done|]. by rewrite Hd. }
  pose proof (poll_rx_loop_spec os rest c w Hinv Hd) as Hs. rewrite Hp in Hs.
  destruct Hs as (u & Eu & Hi & Hf'). split; [done|]. exists (used ++ u).
  split; [by rewrite <-app_assoc, <-Eu|]. rewrite feed_app, Hf. cbn [mbind option_bind]. done.
Qed.

End rx.

(** ** Properties *)

(** [push] accepts exactly when the connection is alive, the event is not
    null and fewer than [Capacity] frames are pending; then one frame with the
    event's bytes joins the pending ones and the event is given back to its
    pool.  Otherwise nothing changes and the caller keeps the event. *)
Theorem net_push_spec {W} object (ev : event_ptr W) c w payload ev' w' :
  net_inv c → tx_head_ c + 1 < 2 ^ 64 →
  object w (ptr_ ev) = Some payload → length payload = sizeof_T → ep_reset ev w = Some (ev', w') →
  ∃ b, (b = true ↔ is_dead_ c = false ∧ ep_bool ev = true ∧
                   Z.of_nat (length (pending c)) < Capacity) ∧
    if b then ∃ c' f, push object ev c w = Some (true, ev', c', w') ∧ frame_of payload f ∧
                      pending c' = pending c ++ [f] ∧ net_inv c'
    else push object ev c w = Some (false, ev, c, w).
Proof.
  intros Hinv Hh Hobj Hpl Hr. pose proof (pending_length c Hinv). pose proof (ni_room c Hinv).
  destruct (is_dead_ c) eqn:Hd; [exists false; split; [naive_solver|apply push_refused; auto]|].
  destruct (ep_bool ev) eqn:Hev; [|exists false; split; [naive_solver|apply push_refused; auto]].
  destruct (decide (Z.of_nat (length (pending c)) < Capacity)).
  - exists true. split; [done|].
    destruct (push_accepted object ev c w payload ev' w') as (c' & f & ? & ? & ? & _ & ? & _); [done..|].
    eauto 6.
  - exists false. split; [naive_solver|]. apply push_refused; [done|]. right. right. lia.
Qed.

(** The byte stream is intact: on one connection, for every interleaving of
    pushes and polls and however the kernel splits the sends, the bytes on the
    wire followed by the outstanding bytes are the frames of the accepted
    events in order.  Nothing is lost, repeated, reordered or torn. *)
Theorem net_tx_integrity c0 c wire ps :
  net_inv c0 → is_dead_ c0 = false → outstanding c0 = [] →
  rtc tx_step (c0, [], []) (c, wire, ps) →
  ∃ fs, Forall2 frame_of ps fs ∧ wire ++ outstanding c = concat fs.
Proof.
  intros Hinv Hal Ho Hr. assert (tx_ok (c0, [], [])) as H0.
  { split_and!; try done. exists []. by rewrite Ho. }
  destruct (rtc_invariant tx_step tx_ok _ _ tx_step_ok H0 Hr) as (_ & _ & H). exact H.
Qed.

(** Reassembly does not depend on how the kernel cuts the stream: a poll
    consumes a prefix of the arrived bytes and leaves the world that reading
    the same bytes one at a time leaves; while the connection is alive the
    staging buffer holds exactly the bytes of the incomplete frame. *)
Theorem net_rx_reassembly {W} make store on os stream c (w : W) c' rest w' :
  net_inv c → is_dead_ c = false → poll_rx make store on os stream c w = Some (c', rest, w') →
  ∃ used, stream = used ++ rest ∧ net_inv c' ∧
    (is_dead_ c' = false → feed make store on used (received c) w = Some (Some (received c'), w')) ∧
    (is_dead_ c' = true → ∃ r, feed make store on used (received c) w = Some (r, w')).
Proof.
  intros Hinv Hd Hp. unfold poll_rx in Hp. rewrite Hd in Hp.
  pose proof (poll_rx_loop_spec make store on os stream c w Hinv Hd) as Hs. rewrite Hp in Hs.
  destruct Hs as (used & E & Hi & Hf). exists used. split_and!; try done; intros Hd'; by rewrite Hd' in Hf.
Qed.

(** What a fresh receiver makes of the beginning of a stream of frames: the
    payloads of the complete frames, in order. *)
Lemma rx_delivers {W} make store on fs ps wire r0 r1 rest (w0 w1 : W) :
  in_word 32 TYPE_ID → Forall2 frame_of ps fs → wire `prefix_of` concat fs →
  net_inv r0 → is_dead_ r0 = false → rx_bytes_read_ r0 = 0%nat →
  rtc (rx_step make store on) (r0, wire, w0) (r1, rest, w1) →
  let n := ((length wire - length rest) / FRAME_SIZE)%nat in
  (n ≤ length ps)%nat ∧ deliver_all make store on (take n ps) w0 = Some w1.
Proof.
  intros HT Hfs [tl Hw] Hr0 Hrd Hrb Hrx n.
  assert (rx_ok make store on wire w0 (r0, wire, w0)) as Hrx0.
  { split; [done|]. exists []. split; [done|]. rewrite Hrd. unfold received. by rewrite Hrb. }
  destruct (rtc_invariant _ _ _ _ (rx_step_ok make store on wire w0) Hrx0 Hrx)
    as (_ & used & Eu & Hf).
  assert (∃ x, feed make store on used [] w0 = Some (x, w1)) as [x Hx].
  { destruct (is_dead_ r1); [done|by eexists]. }
  assert (used = take (length used) (concat fs)) as Eused.
  { rewrite Hw, Eu, <-app_assoc. by rewrite take_app_length. }
  assert (length used ≤ length (concat fs))%nat as Hle.
  { rewrite Hw, Eu, !length_app. lia. }
  assert (length wire - length rest = length used)%nat as En by (rewrite Eu, length_app; lia).
  destruct (feed_prefix make store on HT ps fs Hfs (length used) w0 Hle) as (acc & Hp).
  rewrite <-Eused, Hx in Hp. unfold n. rewrite En. split.
  - assert (length (concat fs) = length ps * FRAME_SIZE)%nat as Hc.
    { clear -Hfs. induction Hfs as [|p f ps fs [Hl _] _ IH]; [done|]. cbn [concat length].
      rewrite length_app, IH, Hl. lia. }
    rewrite Hc in Hle. pose proof FRAME_SIZE_ge. apply Nat.Div0.div_le_upper_bound. lia.
  - destruct (deliver_all _ _ _ _ w0) as [w2|]; [|done]. cbn in Hp. congruence.
Qed.

(** Whatever the chunking on both sides, the world of the receiver is the result
    of delivering the first [n] payloads the sender accepted, in order, each once,
    where [n] counts the complete frames it has read (NetSink.v says what a delivery
    does to the pool and the sink). *)
Lemma net_end_to_end {W} make store on c0 c1 wire ps r0 r1 rest (w0 w1 : W) :
  in_word 32 TYPE_ID →
  net_inv c0 → is_dead_ c0 = false → outstanding c0 = [] →
  rtc tx_step (c0, [], []) (c1, wire, ps) →
  net_inv r0 → is_dead_ r0 = false → rx_bytes_read_ r0 = 0%nat →
  rtc (rx_step make store on) (r0, wire, w0) (r1, rest, w1) →
  let n := ((length wire - length rest) / FRAME_SIZE)%nat in
  (n ≤ length ps)%nat ∧ deliver_all make store on (take n ps) w0 = Some w1.
Proof.
  intros HT Hinv Hal Ho Htx Hr0 Hrd Hrb Hrx n.
  assert (tx_ok (c0, [], [])) as H0. { split_and!; try done. exists []. by rewrite Ho. }
  destruct (rtc_invariant tx_step tx_ok _ _ tx_step_ok H0 Htx) as (_ & _ & fs & Hfs & Hw).
  apply (rx_delivers make store on fs ps wire r0 r1 rest w0 w1); try done. by eexists.
Qed.

(** No zombie frames: when the connection dies during a poll, the pending
    frames are those not sent completely, and after a new socket is bound the
    stream starts at a frame boundary with the first of them, on both the
    transmit and the receive side. *)
Theorem net_rebind_boundary os c c1 out fd os2 :
  net_inv c → is_dead_ c = false → poll_tx os c = Some (c1, out) → is_dead_ c1 = true →
  Forall (λ r, r ≠ SendErr) os2 →
  (∃ sent p, pending c = sent ++ pending c1 ∧ (p < FRAME_SIZE)%nat ∧
             out ++ drop p (concat (pending c1)) = outstanding c) ∧
  received (bind_socket fd c1) = [] ∧
  ∃ c2 out2, poll_tx os2 (bind_socket fd c1) = Some (c2, out2) ∧
             out2 ++ outstanding c2 = concat (pending c1).
Proof.
  intros Hinv Hal Hp Hd Hos2.
  destruct (poll_tx_spec os c Hinv) as (c1' & out' & E & Hi1 & _ & _ & Hdead & [sent Hs] & _).
  rewrite Hp in E. injection E as <- <-. destruct (Hdead Hd) as (p & Hout & Hpl).
  split; [by exists sent, p|]. destruct (ni_dead _ Hi1 Hd) as [Ho Hr].
  split; [unfold received; cbn; by rewrite Hr|].
  pose proof (bind_socket_inv fd c1 Hi1) as Hi2.
  destruct (poll_tx_spec os2 _ Hi2) as (c2 & out2 & E2 & _ & _ & Hal2 & _ & _ & Hok).
  exists c2, out2. split; [done|]. rewrite Hal2 by by apply Hok.
  unfold outstanding. cbn [bind_socket tx_inflight_offset_]. by rewrite Ho.
Qed.

End net.

(** ** Witnesses: events of two bytes, a ring of two frames of 64 bytes *)

Definition w_object (_ : unit) (p : Z) : option (list Z) := Some [p; 0].
Definition w_event (p : Z) : event_ptr unit := ep_make p (λ _ _ w, Some w) 1.
Definition w_conduit : networked_conduit :=
  bind_socket 3 (net_ctor (replicate 2 (replicate 64 0)) (replicate 64 0)).

Definition w_make (w : list (list Z)) : option (event_ptr (list (list Z)) * list (list Z)) :=
  Some (ep_make 8 (λ _ _ w, Some w) 1, w).
Definition w_store (_ : Z) (payload : list Z) (w : list (list Z)) := Some (w ++ [payload]).
Definition w_on (ev : event_ptr (list (list Z))) (w : list (list Z)) := Some (ev, w).

Lemma w_conduit_inv : net_inv 2 2 w_conduit ∧ outstanding w_conduit = [].
Proof.
  destruct (net_ctor_inv 2 2 (replicate 2 (replicate 64 0)) (replicate 64 0) 1) as [Hi Ho];
    [lia|done|done|by repeat constructor|done|].
  split; [by apply bind_socket_inv|exact Ho].
Qed.

Lemma net_push_spec_witness :
  ∃ c' f, push 7 2 2 w_object (w_event 5) w_conduit () = Some (true, EventPtr 0 None 1, c', ()) ∧
          frame_of 7 2 [5; 0] f.
Proof.
  destruct (net_push_spec 7 2 2 w_object (w_event 5) w_conduit () [5; 0] (EventPtr 0 None 1) ())
    as (b & Hb & H); [apply w_conduit_inv|vm_compute; reflexivity|done..|].
  assert (b = true) as -> by (apply Hb; split_and!; vm_compute; reflexivity).
  destruct H as (c' & f & E & Hf & _). by exists c', f.
Defined.

(** Two pushes, a send torn after five bytes, then the rest. *)
Definition w_tx : option (networked_conduit * list Z * list (list Z)) :=
  '(_, _, c1, _) ← push 7 2 2 w_object (w_event 5) w_conduit ();
  '(c2, out1) ← poll_tx 2 2 [SendSome 4; SendAgain] c1;
  '(_, _, c3, _) ← push 7 2 2 w_object (w_event 6) c2 ();
  '(c4, out2) ← poll_tx 2 2 [SendSome 99; SendSome 30; SendSome 200] c3;
  Some (c4, out1 ++ out2, [[5; 0]; [6; 0]]).

Lemma w_tx_run : ∃ c wire, w_tx = Some (c, wire, [[5; 0]; [6; 0]]) ∧
  rtc (tx_step 7 2 2) (w_conduit, [], []) (c, wire, [[5; 0]; [6; 0]]).
Proof.
  unfold w_tx.
  destruct (push 7 2 2 w_object (w_event 5) w_conduit ()) as [[[[b1 e1] c1] w1]|] eqn:E1;
    [|vm_compute in E1; discriminate E1].
  cbn [mbind option_bind].
  assert (b1 = true ∧ tx_head_ c1 = 1) as [-> H1] by (vm_compute in E1; by injection E1 as <- _ <- _).
  destruct (poll_tx 2 2 [SendSome 4; SendAgain] c1) as [[c2 out1]|] eqn:E2;
    [|vm_compute in E1; injection E1 as _ <- _; vm_compute in E2; discriminate E2].
  cbn [mbind option_bind].
  assert (tx_head_ c2 = 1 ∧ is_dead_ c2 = false) as [H2 _]
    by (vm_compute in E1; injection E1 as _ <- _; vm_compute in E2; by injection E2 as <- _).
  destruct (push 7 2 2 w_object (w_event 6) c2 ()) as [[[[b3 e3] c3] w3]|] eqn:E3;
    [|vm_compute in E1; injection E1 as _ <- _; vm_compute in E2; injection E2 as <- _;
      vm_compute in E3; discriminate E3].
  cbn [mbind option_bind].
  assert (b3 = true) as ->
    by (vm_compute in E1; injection E1 as _ <- _; vm_compute in E2; injection E2 as <- _;
        vm_compute in E3; by injection E3 as <- _ _ _).
  destruct (poll_tx 2 2 [SendSome 99; SendSome 30; SendSome 200] c3) as [[c4 out2]|] eqn:E4;
    [|vm_compute in E1; injection E1 as _ <- _; vm_compute in E2; injection E2 as <- _;
      vm_compute in E3; injection E3 as _ <- _; vm_compute in E4; discriminate E4].
  cbn [mbind option_bind]. exists c4, (out1 ++ out2). split; [done|].
  eapply rtc_l; [by eapply (TxPush 7 2 2 w_object (w_event 5) () [5; 0])|].
  eapply rtc_l; [eapply TxPoll; [|exact E2]; by repeat constructor|].
  eapply rtc_l; [eapply (TxPush 7 2 2 w_object (w_event 6) () [6; 0]); [done|done|lia|exact E3]|].
  eapply rtc_l; [eapply TxPoll; [|exact E4]; by repeat constructor|]. apply rtc_refl.
Qed.

Lemma net_tx_integrity_witness :
  ∃ c wire fs, w_tx = Some (c, wire, [[5; 0]; [6; 0]]) ∧
    Forall2 (frame_of 7 2) [[5; 0]; [6; 0]] fs ∧ wire ++ outstanding c = concat fs.
Proof.
  destruct w_tx_run as (c & wire & E & Hr).
  destruct (net_tx_integrity 7 2 2 w_conduit c wire [[5; 0]; [6; 0]]) as (fs & Hfs & Hw);
    [apply w_conduit_inv|done|apply w_conduit_inv|exact Hr|].
  exists c, wire, fs. done.
Defined.

Lemma net_rx_reassembly_witness :
  ∃ c' rest w' used, poll_rx 7 2 w_make w_store w_on [RecvSome 2; RecvSome 200; RecvSome 0]
      (le32 7 ++ [5; 0] ++ replicate 58 9 ++ [7; 0; 0]) w_conduit [] = Some (c', rest, w') ∧
    le32 7 ++ [5; 0] ++ replicate 58 9 ++ [7; 0; 0] = used ++ rest ∧ w' = [[5; 0]].
Proof.
  destruct (poll_rx 7 2 w_make w_store w_on [RecvSome 2; RecvSome 200; RecvSome 0]
      (le32 7 ++ [5; 0] ++ replicate 58 9 ++ [7; 0; 0]) w_conduit []) as [[[c' rest] w']|] eqn:E;
    [|vm_compute in E; discriminate E].
  destruct (net_rx_reassembly 7 2 2 w_make w_store w_on _ _ _ _ _ _ _ (proj1 w_conduit_inv) eq_refl E)
    as (used & Eu & _).
  exists c', rest, w', used. split; [done|]. split; [exact Eu|].
  vm_compute in E. by injection E as _ _ <-.
Defined.

Lemma net_rebind_boundary_witness :
  ∃ c1 c2 out2, poll_tx 2 2 [SendSome 4; SendErr] (set_tail 0 (NetConduit 3 false
       (replicate 2 (replicate 64 1)) 1 0 0 (replicate 64 0) 0)) = Some (c1, replicate 5 1) ∧
    poll_tx 2 2 [SendSome 9] (bind_socket 4 c1) = Some (c2, out2) ∧
    out2 ++ outstanding c2 = concat [replicate 64 1].
Proof.
  set (c := set_tail 0 _).
  assert (net_inv 2 2 c) as Hi.
  { split; cbn; try done; try lia; [by exists 1|by repeat constructor]. }
  destruct (poll_tx 2 2 [SendSome 4; SendErr] c) as [[c1 out]|] eqn:E;
    [|vm_compute in E; discriminate E].
  assert (is_dead_ c1 = true ∧ out = replicate 5 1 ∧ pending c1 = [replicate 64 1]) as (Hd & -> & Hp)
    by (vm_compute in E; by injection E as <- <-).
  destruct (net_rebind_boundary 2 2 [SendSome 4; SendErr] c c1 (replicate 5 1) 4 [SendSome 9] Hi eq_refl E Hd)
    as (_ & _ & c2 & out2 & E2 & Ho); [by repeat constructor|].
  exists c1, c2, out2. rewrite Hp in Ho. done.
Defined.
