(* ===== verification/NodeRuntime.v ===== *)
(** * The node runtime (include/conduit/runtime/node_runtime.hpp)

    [node_runtime] polls a fixed tuple of bindings in a loop: for a live
    connection first receive, then send; for a dead one, call the binding's
    [on_dead] callback, once.  The connections are held by reference and live in
    a store; the callbacks may change them (bind a new socket).  The kernel's
    answers for each poll are given by a script, as in NetConduit.v; its answers to
    the pinning of the thread are arguments, as in Platform.v. *)

From S2P Require Import Prelude Ring EventPtr NetConduit Platform.

Local Open Scope Z_scope.

Section node.
Context (TYPE_ID : Z) (sizeof_T : nat) (Capacity : Z).
Context {W : Type} (make : W → option (event_ptr W * W)).
Context (store : Z → list Z → W → option W).

(** [conduit_binding]: the address of the conduit, the sink, the callback. *)
Record conduit_binding := Binding {
  b_conduit : Z;
  b_sink : event_ptr W → W → option (event_ptr W * W);
  on_dead : option (networked_conduit → networked_conduit) }.

(** [bind_conduit(c, s)]: no callback. *)
Definition bind_conduit (c : Z) (s : event_ptr W → W → option (event_ptr W * W))
    : conduit_binding := Binding c s None.

(** What the kernel answers to one poll: the receive script, the bytes that
    have arrived, the send script. *)
Record kernel := Kernel { k_recv : list os_recv; k_stream : list Z; k_send : list os_send }.

(** The calls a poll made, for the binding at position [i]. *)
Inductive event :=
  | Polled (i : nat) (rest wire : list Z)   (* bytes left in the kernel, bytes sent *)
  | Notified (i : nat)                      (* on_dead was called *)
  | Idle (i : nat).                         (* dead, and no callback left *)

(** [poll_single(b)]. *)
Definition poll_single (i : nat) (k : kernel) (b : conduit_binding) (cs : gmap Z networked_conduit) (w : W)
    : option (conduit_binding * gmap Z networked_conduit * W * event) :=
  c ← cs !! b_conduit b;
  if is_alive c then
    '(c1, rest, w1) ← poll_rx TYPE_ID sizeof_T make store (b_sink b) (k_recv k) (k_stream k) c w;
    '(c2, wire) ← poll_tx sizeof_T Capacity (k_send k) c1;
    Some (b, <[b_conduit b := c2]> cs, w1, Polled i rest wire)
  else
    match on_dead b with
    | Some f => Some (Binding (b_conduit b) (b_sink b) None, <[b_conduit b := f c]> cs, w, Notified i)
    | None => Some (b, cs, w, Idle i)
    end.

(** [(..., poll_single(binding))] over the tuple. *)
Fixpoint poll_round (i : nat) (ks : list kernel) (bs : list conduit_binding)
    (cs : gmap Z networked_conduit) (w : W)
    : option (list conduit_binding * gmap Z networked_conduit * W * list event) :=
  match bs with
  | [] => Some ([], cs, w, [])
  | b :: bs' =>
      '(b1, cs1, w1, e) ← poll_single i (default (Kernel [] [] []) (head ks)) b cs w;
      '(bs2, cs2, w2, es) ← poll_round (S i) (tail ks) bs' cs1 w1;
      Some (b1 :: bs2, cs2, w2, e :: es)
  end.

Record node := Node {
  bindings_ : list conduit_binding;
  is_running_ : bool }.

(** [node_runtime(domain, binds...)]. *)
Definition node_ctor (binds : list conduit_binding) : node := Node binds false.

(** [stop()], from any thread. *)
Definition node_stop (n : node) : node := Node (bindings_ n) false.

(** The world around round [i]: whether another thread has called [stop()] when
    the loop tests the flag before it, and the kernel's answers in it. *)
Record around := Around { stopped : bool; answers : list kernel }.

(** The loop of [run], from round [i] on: every turn tests [is_running_] and polls
    the tuple.  The first component says whether the loop was left; with no fuel
    left it is still running. *)
Fixpoint run_loop (fuel i : nat) (env : nat → around) (n : node) (cs : gmap Z networked_conduit) (w : W)
    : option (bool * node * gmap Z networked_conduit * W * list event) :=
  match fuel with
  | O => Some (false, n, cs, w, [])
  | S fuel' =>
      let n := if stopped (env i) then node_stop n else n in
      if is_running_ n then
        '(bs, cs1, w1, es) ← poll_round 0 (answers (env i)) (bindings_ n) cs w;
        '(out, n2, cs2, w2, es') ← run_loop fuel' (S i) env (Node bs (is_running_ n)) cs1 w1;
        Some (out, n2, cs2, w2, es ++ es')
      else Some (true, n, cs, w, [])
  end.

(** [is_running_.store(true)], then the loop. *)
Definition run (fuel : nat) (env : nat → around) (n : node) (cs : gmap Z networked_conduit) (w : W) :=
  run_loop fuel 0 env (Node (bindings_ n) true) cs w.

(** [run(core_id)]: the calls to the scheduler and the cores in the warnings on
    [std::cerr], then the loop. *)
Definition run_on (os : platform) (sch : scheduler) (core_id : Z) (fuel : nat) (env : nat → around) (n : node)
    (cs : gmap Z networked_conduit) (w : W)
    : option (list sched_call * list Z * (bool * node * gmap Z networked_conduit * W * list event)) :=
  '(calls, warned) ←
    (if 0 <=? core_id then
       '(ok, calls) ← pin_thread_to_core os sch core_id;
       Some (calls, if ok : bool then [] else [core_id])
     else Some ([], []));
  r ← run fuel env n cs w; Some (calls, warned, r).

(** [run] sets the flag itself: a [stop()] that comes before it is lost. *)
Lemma stop_before_run_lost os sch core_id fuel env n cs w :
  run_on os sch core_id fuel env (node_stop n) cs w = run_on os sch core_id fuel env n cs w.
Proof. done. Qed.

(** ** Facts *)

Definition is_notified (j : nat) (e : event) : nat :=
  match e with Notified i => if (i =? j)%nat then 1%nat else 0%nat | _ => 0%nat end.

(** How often [on_dead] of binding [j] was called. *)
Definition notified (j : nat) (es : list event) : nat := sum_list (is_notified j <$> es).

Definition armed (b : conduit_binding) : nat := match on_dead b with Some _ => 1%nat | None => 0%nat end.

(** Polling never changes what a binding connects. *)
Definition same_binding (b b' : conduit_binding) : Prop :=
  b_conduit b' = b_conduit b ∧ b_sink b' = b_sink b.

#[local] Instance same_binding_preorder : PreOrder same_binding.
Proof. split; [done|]. intros b1 b2 b3 [??] [??]. split; congruence. Qed.

Definition event_idx (e : event) : nat :=
  match e with Polled i _ _ | Notified i | Idle i => i end.

Lemma notified_app j es es' : notified j (es ++ es') = (notified j es + notified j es')%nat.
Proof.
  unfold notified. rewrite fmap_app. induction (is_notified j <$> es) as [|x l IH]; [done|].
  cbn. rewrite IH. lia.
Qed.

(** One poll: which binding it concerned, and what became of the callback. *)
Lemma poll_single_facts i k b cs w b' cs' w' e :
  poll_single i k b cs w = Some (b', cs', w', e) →
  event_idx e = i ∧ b_conduit b' = b_conduit b ∧ b_sink b' = b_sink b ∧
  (is_notified i e + armed b' = armed b)%nat ∧ dom cs' = dom cs ∧
  (∀ c f, cs !! b_conduit b = Some c → is_alive c = false → on_dead b = Some f → e = Notified i).
Proof.
  unfold poll_single. destruct (cs !! b_conduit b) as [c|] eqn:Ec; [|done]. cbn [mbind option_bind].
  assert (b_conduit b ∈ dom cs) as Hdom by (by apply elem_of_dom_2 in Ec).
  destruct (is_alive c) eqn:Ea.
  - destruct (poll_rx _ _ _ _ _ _ _ _ _) as [[[c1 rest] w1]|]; [|done]. cbn [mbind option_bind].
    destruct (poll_tx _ _ _ _) as [[c2 wire]|]; [|done]. cbn [mbind option_bind].
    intros [= <- <- <- <-]. split_and!; try done; [set_solver|congruence].
  - destruct (on_dead b) as [f|] eqn:Ef; intros [= <- <- <- <-].
    + unfold armed. cbn. rewrite Ef, Nat.eqb_refl. split_and!; try done. set_solver.
    + split_and!; done.
Qed.

Lemma is_notified_ne i j e : event_idx e = i → i ≠ j → is_notified j e = 0%nat.
Proof. intros <- Hne. destruct e; cbn in *; try done. by rewrite (proj2 (Nat.eqb_neq _ _)). Qed.

(** A round polls every binding once, in order. *)
Lemma poll_round_facts bs : ∀ i ks cs w bs' cs' w' es,
  poll_round i ks bs cs w = Some (bs', cs', w', es) →
  event_idx <$> es = seq i (length bs) ∧
  Forall2 same_binding bs bs' ∧
  (∀ j, (j < i)%nat → notified j es = 0%nat) ∧
  (∀ j b b', bs !! j = Some b → bs' !! j = Some b' →
     (notified (i + j) es + armed b' = armed b)%nat).
Proof.
  induction bs as [|b bs IH]; intros i ks cs w bs' cs' w' es; cbn [poll_round].
  { by intros [= <- <- <- <-]. }
  destruct (poll_single _ _ _ _ _) as [[[[b1 cs1] w1] e]|] eqn:E1; [|done]. cbn [mbind option_bind].
  destruct (poll_round _ _ _ _ _) as [[[[bs2 cs2] w2] es2]|] eqn:E2; [|done]. cbn [mbind option_bind].
  intros [= <- <- <- <-].
  apply poll_single_facts in E1 as (He & Hc & Hs & Hn & _ & _).
  apply IH in E2 as (Hseq & Hall & Hlow & Hcnt). split_and!.
  - cbn. by rewrite He, Hseq.
  - by constructor.
  - intros j Hj. unfold notified in *. cbn. rewrite (is_notified_ne i j e) by (done || lia).
    cbn. apply Hlow. lia.
  - intros [|j] c c' Hb Hb'; cbn in Hb, Hb'; simplify_eq.
    + unfold notified in *. cbn. rewrite Nat.add_0_r, Hlow by lia. lia.
    + unfold notified in *. cbn. rewrite (is_notified_ne (event_idx e)) by (done || lia).
      rewrite Nat.add_succ_r. by apply (Hcnt j c c').
Qed.

(** How many rounds the loop makes from round [i] on, with [fuel] turns. *)
Fixpoint rounds_made (fuel i : nat) (env : nat → around) : nat :=
  match fuel with O => 0 | S fuel' => if stopped (env i) then 0 else S (rounds_made fuel' (S i) env) end.

Lemma run_loop_facts fuel env : ∀ i n cs w out n' cs' w' es,
  is_running_ n = true → run_loop fuel i env n cs w = Some (out, n', cs', w', es) →
  out = (rounds_made fuel i env <? fuel)%nat ∧ is_running_ n' = negb out ∧
  Forall2 same_binding (bindings_ n) (bindings_ n') ∧
  (∀ j b b', bindings_ n !! j = Some b → bindings_ n' !! j = Some b' →
     (notified j es + armed b' = armed b)%nat) ∧
  event_idx <$> es = concat (replicate (rounds_made fuel i env) (seq 0 (length (bindings_ n)))).
Proof.
  induction fuel as [|fuel IH]; intros i n cs w out n' cs' w' es Hrun; cbn [run_loop rounds_made].
  { intros [= <- <- <- <- <-]. cbn. split_and!; try done. intros j b b' Hb Hb'. by simplify_eq. }
  destruct (stopped (env i)).
  { cbn [node_stop is_running_]. intros [= <- <- <- <- <-]. cbn. split_and!; try done.
    intros j b b' Hb Hb'. by simplify_eq. }
  rewrite Hrun. destruct (poll_round _ _ _ _ _) as [[[[bs cs1] w1] es1]|] eqn:E1; [|done]. cbn [mbind option_bind].
  destruct (run_loop fuel _ _ _ _ _) as [[[[[l2 n2] cs2] w2] es2]|] eqn:E2; [|done]. cbn [mbind option_bind].
  intros [= <- <- <- <- <-].
  apply poll_round_facts in E1 as (Hseq & Hall & _ & Hcnt).
  apply IH in E2 as (Hleft & Hst & Hall2 & Hcnt2 & Hidx); [|done]. cbn [bindings_] in *. split_and!; try done.
  - by etrans.
  - intros j b b' Hb Hb'. rewrite notified_app.
    destruct (Forall2_lookup_l _ _ _ _ _ Hall Hb) as (b1 & Hb1 & _).
    specialize (Hcnt j b b1 Hb Hb1). specialize (Hcnt2 j b1 b' Hb1 Hb'). cbn in Hcnt. lia.
  - rewrite fmap_app, Hseq, Hidx. cbn. by rewrite (Forall2_length _ _ _ Hall).
Qed.



(** ** Totality *)










(** ** Properties *)


(** C25: The death of a connection is reported at most once: over any run, also
    one that has not been stopped, the
    [on_dead] callback of a binding is called once if it was set and is no
    longer set, and not at all otherwise; and a poll that finds the connection
    dead with the callback set does call it. *)
Theorem node_on_dead_once fuel env n cs w out n' cs' w' es j b :
  run fuel env n cs w = Some (out, n', cs', w', es) → bindings_ n !! j = Some b →
  (∃ b', bindings_ n' !! j = Some b' ∧ b_conduit b' = b_conduit b ∧
         (notified j es + armed b' = armed b)%nat ∧ (notified j es ≤ 1)%nat) ∧
  (∀ i k c f, cs !! b_conduit b = Some c → is_alive c = false → on_dead b = Some f →
     poll_single i k b cs w
     = Some (Binding (b_conduit b) (b_sink b) None, <[b_conduit b := f c]> cs, w, Notified i)).
Proof.
  intros E Hb. split.
  - apply run_loop_facts in E as (_ & _ & Hall & Hcnt & _); [|done]. cbn in *.
    destruct (Forall2_lookup_l _ _ _ _ _ Hall Hb) as (b' & Hb' & Hc & _).
    specialize (Hcnt j b b' Hb Hb'). exists b'. split_and!; try done.
    unfold armed in Hcnt. destruct (on_dead b); lia.
  - intros i k c f Hc Ha Hf. unfold poll_single. rewrite Hc. cbn [mbind option_bind].
    by rewrite Ha, Hf.
Qed.

End node.

(** ** Witnesses: one dead connection whose callback binds a new socket *)

Definition dead_conduit : networked_conduit :=
  net_ctor (replicate 2 (replicate 64 0)) (replicate 64 0).

Definition w_binding : conduit_binding :=
  Binding (W := list (list Z)) 100 w_on (Some (bind_socket 9)).



(** Four rounds, then [stop()] is seen. *)
Definition w_env (i : nat) : around :=
  Around (4 <=? i)%nat
    (default [] ([[]; [Kernel [RecvSome 9] [1; 2] []]; [Kernel [RecvClosed] [] []]; []] !! i)).


Lemma node_on_dead_once_witness :
  ∃ out n' cs' w' es, run 7 2 2 w_make w_store 6 w_env (node_ctor [w_binding]) {[ 100 := dead_conduit ]} []
    = Some (out, n', cs', w', es) ∧ (notified 0 es ≤ 1)%nat ∧ notified 0 es = 1%nat.
Proof.
  destruct (run 7 2 2 w_make w_store 6 w_env (node_ctor [w_binding]) {[ 100 := dead_conduit ]} [])
    as [[[[[out n'] cs'] w'] es]|] eqn:E; [|vm_compute in E; discriminate E].
  destruct (node_on_dead_once 7 2 2 w_make w_store 6 w_env (node_ctor [w_binding])
    {[ 100 := dead_conduit ]} [] out n' cs' w' es 0 w_binding E eq_refl) as [(b' & _ & _ & _ & Hn) _].
  exists out, n', cs', w', es. split; [done|]. split; [exact Hn|].
  vm_compute in E. injection E as _ _ _ _ <-. reflexivity.
Defined.
