(* ===== verification/Http.v ===== *)
(** * The zero-copy HTTP request parser (include/conduit/transport/http.hpp)

    [http_parser::parse] runs a state machine over the bytes of a buffer and
    fills an [http_request_event] with [string_view]s into that buffer.

    The buffer is a list of bytes (as unsigned values; the parser only compares
    them with ASCII constants, for which the sign of [char] does not matter).
    A [string_view] is an offset and a length in the buffer.  Every read is
    checked: [None] is an access outside the buffer or outside the array of
    headers.  Offsets never exceed the buffer length plus one, so the
    [std::size_t] arithmetic of the source cannot wrap; subtractions that would
    underflow show up as negative lengths, which the theorems exclude.

    The reference semantics is a parser over lists ([spec_parse]) that splits
    lines and trims values without any index; [http_parse_refines] of HttpCorrect relates the two. *)

From Stdlib Require Import Ascii String.
From S2P Require Import Prelude.

Local Open Scope Z_scope.

(** ** Bytes *)

Definition SP : Z := 32.
Definition TAB : Z := 9.
Definition CR : Z := 13.
Definition LF : Z := 10.
Definition COLON : Z := 58.

Fixpoint bytes_of (s : string) : list Z :=
  match s with
  | EmptyString => []
  | String a s' => Z.of_N (N_of_ascii a) :: bytes_of s'
  end.

(** ** The event *)

Record view := View { v_off : Z; v_len : Z }.

(** [std::string_view{}]. *)
Definition no_view : view := View 0 0.

Record http_header := Header { key : view; value : view }.

Definition MAX_HEADERS : nat := 16.

Record http_request_event := Request {
  connection_id : Z;
  method : view;
  uri : view;
  headers : list http_header;
  header_count : Z;
  body : view }.

(** A freshly constructed event. *)
Definition new_event (conn : Z) : http_request_event :=
  Request conn no_view no_view (replicate MAX_HEADERS (Header no_view no_view)) 0 no_view.

Section parser.
Context (raw_buffer : list Z).

Definition buf_len : Z := Z.of_nat (List.length raw_buffer).

(** The characters of a view. *)
Definition chars (v : view) : option (list Z) :=
  if decide (0 ≤ v_off v ∧ 0 ≤ v_len v ∧ v_off v + v_len v ≤ buf_len)
  then Some (take (Z.to_nat (v_len v)) (drop (Z.to_nat (v_off v)) raw_buffer))
  else None.

Definition is_crlf (c : Z) : bool := (c =? CR) || (c =? LF).
Definition is_blank (c : Z) : bool := (c =? SP) || (c =? TAB).

(** *** The helpers of the header-value state *)

Definition lower (c : Z) : Z := if (65 <=? c) && (c <=? 90) then c + (97 - 65) else c.

(** [ieq(a, b)]. *)
Fixpoint ieq (a b : list Z) : bool :=
  match a, b with
  | [], [] => true
  | ca :: a', cb :: b' => (lower ca =? lower cb) && ieq a' b'
  | _, _ => false
  end.

(** [icontains(hay, needle)]: some position of [hay] starts with [needle]. *)
Fixpoint icontains_from (hay needle : list Z) : bool :=
  if decide (List.length needle ≤ List.length hay)%nat
  then ieq (take (List.length needle) hay) needle
       || match hay with [] => false | _ :: hay' => icontains_from hay' needle end
  else false.

Definition icontains (hay needle : list Z) : bool :=
  match needle with [] => false | _ => icontains_from hay needle end.

(** [for (k = token_start; k < i; ++k)]: every key byte is printable ASCII;
    [n] is [i - k]. *)
Fixpoint key_bytes_ok (n : nat) (k : Z) : option bool :=
  match n with
  | O => Some true
  | S n' =>
      ch ← zget raw_buffer k;
      if (ch <=? 0x20) || (0x7f <=? ch) || (ch =? SP) then Some false
      else key_bytes_ok n' (k + 1)
  end.

(** [while (val_begin < val_end && blank(raw_buffer[val_begin])) ++val_begin];
    [n] is [val_end - val_begin]. *)
Fixpoint trim_leading (n : nat) (val_begin : Z) : option Z :=
  match n with
  | O => Some val_begin
  | S n' =>
      ch ← zget raw_buffer val_begin;
      if is_blank ch then trim_leading n' (val_begin + 1) else Some val_begin
  end.

(** [while (val_end > val_begin && blank(raw_buffer[val_end - 1])) --val_end]. *)
Fixpoint trim_trailing (n : nat) (val_end : Z) : option Z :=
  match n with
  | O => Some val_end
  | S n' =>
      ch ← zget raw_buffer (val_end - 1);
      if is_blank ch then trim_trailing n' (val_end - 1) else Some val_end
  end.

(** [for (k = val_begin; k < val_end; ++k)]: no CR or LF in the value. *)
Fixpoint value_bytes_ok (n : nat) (k : Z) : option bool :=
  match n with
  | O => Some true
  | S n' =>
      ch ← zget raw_buffer k;
      if is_crlf ch then Some false else value_bytes_ok n' (k + 1)
  end.

(** [while (body_start < length && crlf(raw_buffer[body_start])) ++body_start];
    [n] is [length - body_start]. *)
Fixpoint skip_crlf (n : nat) (body_start : Z) : option Z :=
  match n with
  | O => Some body_start
  | S n' =>
      ch ← zget raw_buffer body_start;
      if is_crlf ch then skip_crlf n' (body_start + 1) else Some body_start
  end.

(** *** The state machine *)

Inductive pstate := METHOD | URI | VERSION | HEADER_KEY | HEADER_VALUE | BODY | DONE.

Record locals := Locals {
  current_state : pstate;
  token_start : Z;
  saw_colon : bool }.

(** What one turn of the loop does: return, or go on with [i] (before [++i]). *)
Inductive flow :=
  | Ret (b : bool) (ev : http_request_event)
  | Go (i : Z) (l : locals) (ev : http_request_event).

Definition set_method (v : view) (ev : http_request_event) : http_request_event :=
  Request (connection_id ev) v (uri ev) (headers ev) (header_count ev) (body ev).
Definition set_uri (v : view) (ev : http_request_event) : http_request_event :=
  Request (connection_id ev) (method ev) v (headers ev) (header_count ev) (body ev).
Definition set_headers (hs : list http_header) (n : Z) (ev : http_request_event)
    : http_request_event :=
  Request (connection_id ev) (method ev) (uri ev) hs n (body ev).
Definition set_body (v : view) (ev : http_request_event) : http_request_event :=
  Request (connection_id ev) (method ev) (uri ev) (headers ev) (header_count ev) v.

Definition on_method (c i : Z) (l : locals) ev : option flow :=
  if c =? SP then
    if i =? token_start l then Some (Ret false ev) else
    Some (Go i (Locals URI (i + 1) (saw_colon l))
            (set_method (View (token_start l) (i - token_start l)) ev))
  else Some (Go i l ev).

Definition on_uri (c i : Z) (l : locals) ev : option flow :=
  if c =? SP then
    if i =? token_start l then Some (Ret false ev) else
    Some (Go i (Locals VERSION (i + 1) (saw_colon l))
            (set_uri (View (token_start l) (i - token_start l)) ev))
  else if is_crlf c then Some (Ret false ev)
  else Some (Go i l ev).

Definition on_version (c i : Z) (l : locals) ev : option flow :=
  if c =? LF then
    if i =? token_start l then Some (Ret false ev) else
    bare ← (if i =? token_start l + 1
            then first ← zget raw_buffer (token_start l); Some (first =? CR)
            else Some false);
    if bare : bool then Some (Ret false ev) else
    Some (Go i (Locals HEADER_KEY (i + 1) (saw_colon l)) ev)
  else Some (Go i l ev).

Definition on_header_key (c i : Z) (l : locals) ev : option flow :=
  if is_crlf c then
    if i =? token_start l then
      crlf ← (if (c =? CR) && (i + 1 <? buf_len)
              then nxt ← zget raw_buffer (i + 1); Some (nxt =? LF)
              else Some false);
      if crlf : bool then Some (Go (i + 1) (Locals BODY (i + 2) (saw_colon l)) ev)
      else Some (Go i (Locals BODY (i + 1) (saw_colon l)) ev)
    else if negb (saw_colon l) then Some (Ret false ev) else Some (Go i l ev)
  else if c =? COLON then
    if Z.of_nat MAX_HEADERS <=? header_count ev then Some (Ret false ev) else
    if i =? token_start l then Some (Ret false ev) else
    let this_view := View (token_start l) (i - token_start l) in
    injection ← (if 0 <? header_count ev then
                   prev ← zget (headers ev) (header_count ev - 1);
                   prev_key ← chars (key prev);
                   this_key ← chars this_view;
                   Some (bool_decide (prev_key = bytes_of "Host") &&
                         bool_decide (this_key = bytes_of "injected"))
                 else Some false);
    if injection : bool then Some (Ret false ev) else
    if 64 <? i - token_start l then Some (Ret false ev) else
    ok ← key_bytes_ok (Z.to_nat (i - token_start l)) (token_start l);
    if negb ok then Some (Ret false ev) else
    old ← zget (headers ev) (header_count ev);
    hs ← zset (headers ev) (header_count ev) (Header this_view (value old));
    Some (Go i (Locals HEADER_VALUE (i + 1) true) (set_headers hs (header_count ev) ev))
  else Some (Go i l ev).

Definition on_header_value (c i : Z) (l : locals) ev : option flow :=
  if c =? LF then
    let val_begin := token_start l in
    val_end ← (if val_begin <? i
               then last ← zget raw_buffer (i - 1); Some (if last =? CR then i - 1 else i)
               else Some i);
    val_begin ← trim_leading (Z.to_nat (val_end - val_begin)) val_begin;
    val_end ← trim_trailing (Z.to_nat (val_end - val_begin)) val_end;
    ok ← value_bytes_ok (Z.to_nat (val_end - val_begin)) val_begin;
    if negb ok then Some (Ret false ev) else
    old ← zget (headers ev) (header_count ev);
    key_chars ← chars (key old);
    let value_view := View val_begin (val_end - val_begin) in
    value_chars ← chars value_view;
    if ieq key_chars (bytes_of "Transfer-Encoding") &&
       icontains value_chars (bytes_of "chunked") then Some (Ret false ev) else
    hs ← zset (headers ev) (header_count ev) (Header (key old) value_view);
    Some (Go i (Locals HEADER_KEY (i + 1) false) (set_headers hs (header_count ev + 1) ev))
  else Some (Go i l ev).

Definition on_body (l : locals) ev : option flow :=
  body_start ← skip_crlf (Z.to_nat (buf_len - token_start l)) (token_start l);
  let body_len := buf_len - body_start in
  body_len ← (if 0 <? body_len
              then last ← zget raw_buffer (body_start + body_len - 1);
                   Some (if last =? 0 then body_len - 1 else body_len)
              else Some body_len);
  Some (Ret true (set_body (View body_start body_len) ev)).

(** One turn of the loop at [i < length]. *)
Definition turn (i : Z) (l : locals) ev : option flow :=
  c ← zget raw_buffer i;
  match current_state l with
  | METHOD => on_method c i l ev
  | URI => on_uri c i l ev
  | VERSION => on_version c i l ev
  | HEADER_KEY => on_header_key c i l ev
  | HEADER_VALUE => on_header_value c i l ev
  | BODY => on_body l ev
  | DONE => Some (Ret true ev)
  end.

(** After the loop. *)
Definition finish (l : locals) ev : bool * http_request_event :=
  match current_state l with
  | BODY => (true, set_body no_view ev)
  | DONE => (true, ev)
  | _ => (false, ev)
  end.

Fixpoint parse_loop (fuel : nat) (i : Z) (l : locals) ev
    : option (bool * http_request_event) :=
  match fuel with
  | O => None
  | S fuel' =>
      if i <? buf_len then
        f ← turn i l ev;
        match f with
        | Ret b ev' => Some (b, ev')
        | Go i' l' ev' => parse_loop fuel' (i' + 1) l' ev'
        end
      else Some (finish l ev)
  end.

(** [http_parser::parse(raw_buffer, length, out_event)]: every turn advances
    [i], so one more turn than there are bytes is enough. *)
Definition parse (out_event : http_request_event) : option (bool * http_request_event) :=
  parse_loop (S (List.length raw_buffer)) 0 (Locals METHOD 0 false) out_event.

End parser.

(** ** The reference semantics *)

Record request := Req {
  r_method : list Z;
  r_uri : list Z;
  r_headers : list (list Z * list Z);
  r_body : list Z }.

(** The longest prefix of bytes satisfying [p], and what follows. *)
Fixpoint span (p : Z → bool) (l : list Z) : list Z * list Z :=
  match l with
  | [] => ([], [])
  | c :: l' => if p c then let '(a, b) := span p l' in (c :: a, b) else ([], l)
  end.

Definition drop_last_if (p : Z → bool) (l : list Z) : list Z :=
  match last l with Some c => if p c then removelast l else l | None => l end.

Fixpoint drop_while (p : Z → bool) (l : list Z) : list Z :=
  match l with c :: l' => if p c then drop_while p l' else l | [] => [] end.

Definition trim (l : list Z) : list Z :=
  rev (drop_while is_blank (rev (drop_while is_blank l))).

Definition key_ok (k : list Z) : bool :=
  (0 <? Z.of_nat (List.length k)) && (Z.of_nat (List.length k) <=? 64) &&
  forallb (λ c, (0x20 <? c) && (c <? 0x7f)) k.

Definition chunked (k v : list Z) : bool :=
  ieq k (bytes_of "Transfer-Encoding") && icontains v (bytes_of "chunked").

Definition injected (prev : option (list Z * list Z)) (k : list Z) : bool :=
  match prev with
  | Some (pk, _) => bool_decide (pk = bytes_of "Host") && bool_decide (k = bytes_of "injected")
  | None => false
  end.

Definition spec_body (rest : list Z) : list Z :=
  drop_last_if (Z.eqb 0) (drop_while is_crlf rest).

(** The header lines, then the body; [hs] are the headers so far. *)
Fixpoint spec_headers (fuel : nat) (hs : list (list Z * list Z)) (rest : list Z)
    : option (list (list Z * list Z) * list Z) :=
  match fuel with
  | O => None
  | S fuel' =>
      match rest with
      | [] => None
      | c :: rest' =>
          if is_crlf c then
            Some (hs, spec_body match rest' with
                                | d :: rest'' => if (c =? CR) && (d =? LF) then rest'' else rest'
                                | [] => []
                                end)
          else
            match span (λ c, negb (is_crlf c || (c =? COLON))) rest with
            | (k, d :: after) =>
                if negb (d =? COLON) || (MAX_HEADERS <=? List.length hs)%nat
                   || negb (key_ok k) || injected (last hs) k
                then None else
                match span (λ c, negb (c =? LF)) after with
                | (line, _ :: next) =>
                    let v := trim (drop_last_if (Z.eqb CR) line) in
                    if existsb (Z.eqb CR) v || chunked k v then None
                    else spec_headers fuel' (hs ++ [(k, v)]) next
                | (_, []) => None
                end
            | (_, []) => None
            end
      end
  end.

Definition spec_parse (raw : list Z) : option request :=
  match span (λ c, negb (c =? SP)) raw with
  | (m, _ :: rest) =>
      if bool_decide (m = []) then None else
      match span (λ c, negb ((c =? SP) || is_crlf c)) rest with
      | (u, d :: rest) =>
          if negb (d =? SP) || bool_decide (u = []) then None else
          match span (λ c, negb (c =? LF)) rest with
          | (v, _ :: rest) =>
              if bool_decide (v = []) || bool_decide (v = [CR]) then None else
              '(hs, b) ← spec_headers (S (List.length rest)) [] rest;
              Some (Req m u hs b)
          | (_, []) => None
          end
      | (_, []) => None
      end
  | (_, []) => None
  end.

(** What an event says, as byte strings. *)
Definition header_chars (raw : list Z) (h : http_header) : option (list Z * list Z) :=
  k ← chars raw (key h); v ← chars raw (value h); Some (k, v).

Definition event_request (raw : list Z) (ev : http_request_event) : option request :=
  m ← chars raw (method ev);
  u ← chars raw (uri ev);
  hs ← mapM (header_chars raw) (take (Z.to_nat (header_count ev)) (headers ev));
  b ← chars raw (body ev);
  Some (Req m u hs b).
