(* ===== verification/HttpCorrect.v ===== *)
(** * Correctness of the HTTP parser

    The index-based state machine of Http.v refines the list-based reference
    parser: it never reads or writes out of bounds, it always returns, it
    accepts exactly the inputs the reference accepts, and the views it leaves
    in the event denote the reference's fields. *)

From Stdlib Require Import Ascii String.
From S2P Require Import Prelude Http.

Local Open Scope Z_scope.

Abbreviation len l := (Z.of_nat (List.length l)).

(** ** Lists of bytes *)

Lemma span_spec p l a b :
  span p l = (a, b) →
  l = a ++ b ∧ Forall (λ c, p c = true) a ∧
  match b with [] => True | c :: _ => p c = false end.
Proof.
  revert a b. induction l as [|c l IH]; intros a b; cbn; [by intros [= <- <-]|].
  destruct (p c) eqn:Ec.
  - destruct (span p l) as [a' b'] eqn:E. intros [= <- <-].
    destruct (IH _ _ eq_refl) as (-> & ? & ?). split_and!; try done. by constructor.
  - intros [= <- <-]. by split_and!.
Qed.

Lemma span_app p a c b :
  Forall (λ c, p c = true) a → p c = false → span p (a ++ c :: b) = (a, c :: b).
Proof.
  intros Ha Hc. induction Ha as [|x a Hx _ IH]; cbn; [by rewrite Hc|]. by rewrite Hx, IH.
Qed.

Lemma drop_while_split p l :
  ∃ a, l = a ++ drop_while p l ∧ Forall (λ c, p c = true) a.
Proof.
  induction l as [|c l (a & E & Ha)]; cbn; [by exists []|].
  destruct (p c) eqn:Ec; [|by exists []]. exists (c :: a). split; [by rewrite E at 1|by constructor].
Qed.

Definition rtrim (p : Z → bool) (l : list Z) : list Z := rev (drop_while p (rev l)).

Lemma rtrim_snoc p l c : rtrim p (l ++ [c]) = if p c then rtrim p l else l ++ [c].
Proof.
  unfold rtrim. rewrite rev_unit. cbn. destruct (p c); [done|]. cbn. by rewrite rev_involutive.
Qed.

Lemma rtrim_split p l : ∃ b, l = rtrim p l ++ b.
Proof.
  destruct (drop_while_split p (rev l)) as (a & E & _). exists (rev a).
  unfold rtrim. by rewrite <-rev_app_distr, <-E, rev_involutive.
Qed.

Lemma drop_last_if_snoc p l c :
  drop_last_if p (l ++ [c]) = if p c then l else l ++ [c].
Proof. unfold drop_last_if. rewrite last_snoc, removelast_last. done. Qed.

(** A trimmed line is a contiguous part of the line. *)
Lemma trim_line_split line :
  ∃ a b, line = a ++ trim (drop_last_if (Z.eqb CR) line) ++ b.
Proof.
  assert (∃ b, line = drop_last_if (Z.eqb CR) line ++ b) as (b & Eb).
  { destruct (decide (line = [])) as [->|]; [by exists []|].
    destruct (exists_last n) as (l & c & ->). rewrite drop_last_if_snoc.
    destruct (CR =? c); [by exists [c]|exists []; by rewrite app_nil_r]. }
  set (m := drop_last_if (Z.eqb CR) line) in *.
  destruct (drop_while_split is_blank m) as (a & Ea & _).
  destruct (rtrim_split is_blank (drop_while is_blank m)) as (b' & Eb').
  exists a, (b' ++ b). change (trim m) with (rtrim is_blank (drop_while is_blank m)).
  rewrite Eb, Ea at 1. rewrite Eb' at 1. by rewrite <-!app_assoc.
Qed.

(** ** Positions in the buffer *)

Section positions.
Context (raw : list Z).

(** From offset [i] on the buffer holds [rest]. *)
Definition at_ (i : Z) (rest : list Z) : Prop :=
  0 ≤ i ≤ buf_len raw ∧ drop (Z.to_nat i) raw = rest.

Lemma at_start : at_ 0 raw.
Proof. split; [unfold buf_len; lia|done]. Qed.

Lemma at_len i rest : at_ i rest → i + len rest = buf_len raw.
Proof. intros [? <-]. rewrite length_drop. unfold buf_len in *. lia. Qed.

Lemma at_app i a rest : at_ i (a ++ rest) → at_ (i + len a) rest.
Proof.
  intros Hat. pose proof (at_len _ _ Hat) as Hl. rewrite length_app in Hl.
  destruct Hat as [? E]. split; [lia|].
  replace (Z.to_nat (i + len a)) with (Z.to_nat i + List.length a)%nat by lia.
  rewrite <-drop_drop, E. by rewrite drop_app_length.
Qed.

Lemma at_cons i c rest : at_ i (c :: rest) → zget raw i = Some c ∧ i < buf_len raw ∧ at_ (i + 1) rest.
Proof.
  intros Hat. pose proof (at_len _ _ Hat) as Hl. cbn in Hl. split_and!; [|lia|].
  - destruct Hat as [? E]. unfold zget. rewrite decide_True by lia.
    rewrite <-(Nat.add_0_r (Z.to_nat i)), <-lookup_drop, E. done.
  - apply (at_app i [c] rest Hat).
Qed.

Lemma at_nil i : at_ i [] → i = buf_len raw.
Proof. intros H%at_len. cbn in H. lia. Qed.

Lemma at_chars i a rest : at_ i (a ++ rest) → chars raw (View i (len a)) = Some a.
Proof.
  intros Hat. pose proof (at_len _ _ Hat) as Hl. rewrite length_app in Hl.
  destruct Hat as [? E]. unfold chars. cbn. rewrite decide_True by lia.
  rewrite E, Nat2Z.id. by rewrite take_app_length.
Qed.

(** Views of a consumed token: [n] is [i - token_start]. *)
Lemma at_chars' i a rest n : at_ i (a ++ rest) → n = len a → chars raw (View i n) = Some a.
Proof. intros ? ->. by eapply at_chars. Qed.

(** ** The inner loops *)

Lemma key_bytes_ok_spec i k rest :
  at_ i (k ++ rest) →
  key_bytes_ok raw (List.length k) i = Some (forallb (λ c, (0x20 <? c) && (c <? 0x7f)) k).
Proof.
  revert i. induction k as [|c k IH]; intros i Hat; [done|].
  destruct (at_cons _ _ _ Hat) as (E & _ & Hat'). cbn. rewrite E. cbn. rewrite (IH _ Hat').
  unfold SP. destruct (Z.leb_spec c 32), (Z.leb_spec 127 c), (Z.eqb_spec c 32),
    (Z.ltb_spec 32 c), (Z.ltb_spec c 127); try lia; done.
Qed.

Lemma trim_leading_spec i v rest :
  at_ i (v ++ rest) →
  trim_leading raw (List.length v) i = Some (i + (len v - len (drop_while is_blank v))).
Proof.
  revert i. induction v as [|c v IH]; intros i Hat; [cbn; f_equal; lia|].
  destruct (at_cons _ _ _ Hat) as (E & _ & Hat'). cbn [trim_leading List.length drop_while].
  rewrite E. cbn -[Z.of_nat]. destruct (is_blank c).
  - rewrite (IH _ Hat'). f_equal. lia.
  - f_equal. cbn [List.length]. lia.
Qed.

Lemma trim_trailing_spec i v rest :
  at_ i (v ++ rest) →
  trim_trailing raw (List.length v) (i + len v) = Some (i + len (rtrim is_blank v)).
Proof.
  revert rest. induction v as [|c v IH] using rev_ind; intros rest Hat; [done|].
  rewrite <-app_assoc in Hat. pose proof (at_app _ _ _ Hat) as Hc.
  destruct (at_cons _ _ _ Hc) as (E & _ & _).
  rewrite length_app, Nat.add_1_r. cbn [trim_trailing].
  replace (i + Z.of_nat (S (List.length v)) - 1) with (i + len v) by lia. rewrite E. cbn -[Z.of_nat].
  rewrite rtrim_snoc. destruct (is_blank c).
  - by apply (IH _ Hat).
  - rewrite length_app. cbn [List.length]. f_equal. lia.
Qed.

Lemma value_bytes_ok_spec i v rest :
  at_ i (v ++ rest) → Forall (λ c, c ≠ LF) v →
  value_bytes_ok raw (List.length v) i = Some (negb (existsb (Z.eqb CR) v)).
Proof.
  revert i. induction v as [|c v IH]; intros i Hat Hlf; [done|].
  apply Forall_cons in Hlf as [Hc Hlf].
  destruct (at_cons _ _ _ Hat) as (E & _ & Hat').
  cbn [value_bytes_ok existsb List.length]. rewrite E. cbn [mbind option_bind].
  rewrite (IH _ Hat' Hlf). unfold is_crlf. rewrite (Z.eqb_sym CR c), (proj2 (Z.eqb_neq c LF)), orb_false_r by done.
  by destruct (c =? CR).
Qed.

Lemma skip_crlf_spec i rest :
  at_ i rest →
  skip_crlf raw (List.length rest) i = Some (i + (len rest - len (drop_while is_crlf rest))).
Proof.
  revert i. induction rest as [|c v IH]; intros i Hat; [cbn; f_equal; lia|].
  destruct (at_cons _ _ _ Hat) as (E & _ & Hat'). cbn [skip_crlf List.length drop_while].
  rewrite E. cbn -[Z.of_nat]. destruct (is_crlf c).
  - rewrite (IH _ Hat'). f_equal. lia.
  - f_equal. cbn [List.length]. lia.
Qed.

(** ** Scanning a token *)

(** In a state where the bytes [a] are passed over, the loop reaches the byte
    after them. *)
Lemma parse_loop_scan p fuel i l ev a rest :
  at_ i (a ++ rest) → Forall (λ c, p c = true) a →
  (∀ j c, p c = true → zget raw j = Some c → turn raw j l ev = Some (Go j l ev)) →
  parse_loop raw (List.length a + fuel) i l ev = parse_loop raw fuel (i + len a) l ev.
Proof.
  intros Hat Ha Hnoop. revert i Hat. induction Ha as [|c a Hc _ IH]; intros i Hat.
  - cbn [List.length Nat.add]. f_equal. cbn. lia.
  - destruct (at_cons _ _ _ Hat) as (E & Hlt & Hat').
    cbn [List.length Nat.add parse_loop]. rewrite (proj2 (Z.ltb_lt _ _)) by done.
    rewrite (Hnoop i c Hc E). cbn -[Z.of_nat]. rewrite (IH _ Hat'). f_equal. lia.
Qed.

(** The loop at the end of the buffer. *)
Lemma parse_loop_end fuel l ev :
  parse_loop raw (S fuel) (buf_len raw) l ev = Some (finish l ev).
Proof. cbn. by rewrite Z.ltb_irrefl. Qed.

(** One turn at a byte. *)
Lemma parse_loop_turn fuel i l ev c rest :
  at_ i (c :: rest) →
  parse_loop raw (S fuel) i l ev =
  f ← turn raw i l ev;
  match f with
  | Ret b ev' => Some (b, ev')
  | Go i' l' ev' => parse_loop raw fuel (i' + 1) l' ev'
  end.
Proof.
  intros Hat. destruct (at_cons _ _ _ Hat) as (_ & Hlt & _). cbn.
  by rewrite (proj2 (Z.ltb_lt _ _)).
Qed.

(** ** The body *)

Lemma last_byte i b :
  at_ i b → 0 < len b →
  ∃ c, zget raw (i + len b - 1) = Some c ∧ last b = Some c.
Proof.
  intros Hat Hb. destruct (exists_last (l := b)) as (d & c & ->); [by intros ->|].
  exists c. rewrite last_snoc, length_app. split; [|done].
  destruct (at_cons _ _ _ (at_app _ _ _ Hat)) as (E & _). rewrite <-E. f_equal. cbn. lia.
Qed.

Lemma body_stage fuel i rest sc ev :
  at_ i rest →
  ∃ v, parse_loop raw (S fuel) i (Locals BODY i sc) ev = Some (true, set_body v ev) ∧
       chars raw v = Some (spec_body rest).
Proof.
  intros Hat. pose proof (at_len _ _ Hat) as Hl. destruct rest as [|c rest].
  { exists no_view. rewrite (at_nil _ Hat), parse_loop_end. split; [done|].
    unfold chars. cbn. unfold buf_len. by rewrite decide_True by lia. }
  rewrite (parse_loop_turn _ _ _ _ c rest) by done.
  destruct (at_cons _ _ _ Hat) as (E & _). unfold turn. rewrite E. cbn [mbind option_bind current_state].
  unfold on_body. cbn [token_start]. replace (Z.to_nat (buf_len raw - i)) with (List.length (c :: rest)) by lia.
  rewrite skip_crlf_spec by done. cbn [mbind option_bind].
  unfold spec_body. destruct (drop_while_split is_crlf (c :: rest)) as (a & Ea & _).
  set (b := drop_while is_crlf (c :: rest)) in *. rewrite Ea in Hat. pose proof (at_app _ _ _ Hat) as Hb.
  assert (i + (len (c :: rest) - len b) = i + len a) as -> by (rewrite Ea, length_app; lia).
  pose proof (at_len _ _ Hb) as Hlb. replace (buf_len raw - (i + len a)) with (len b) by lia.
  destruct (Z.ltb_spec 0 (len b)) as [Hpos|Hz].
  - destruct (last_byte _ _ Hb Hpos) as (x & Ex & Elast). rewrite Ex. cbn [mbind option_bind].
    eexists. split; [done|]. unfold drop_last_if. rewrite Elast, (Z.eqb_sym x 0).
    rewrite <-(app_nil_r b) in Hb. destruct (0 =? x); [|by eapply at_chars].
    destruct (exists_last (l := b)) as (d & y & Ed); [by intros ->|]. rewrite Ed in *.
    rewrite removelast_last, length_app. rewrite app_nil_r in Hb.
    eapply at_chars'; [done|]. cbn. lia.
  - destruct b; [|cbn in Hz; lia]. eexists. split; [done|].
    rewrite <-(app_nil_r []) in Hb. by eapply at_chars'.
Qed.

(** ** Headers *)

(** The first [header_count] entries denote the headers [hs]. *)
Record hdr_repr (ev : http_request_event) (hs : list (list Z * list Z)) : Prop := {
  hr_count : header_count ev = len hs;
  hr_size : List.length (headers ev) = MAX_HEADERS;
  hr_max : (List.length hs ≤ MAX_HEADERS)%nat;
  hr_all : Forall2 (λ h kv, header_chars raw h = Some kv)
             (take (List.length hs) (headers ev)) hs }.

Lemma hdr_repr_last ev hs k v :
  hdr_repr ev hs → last hs = Some (k, v) →
  ∃ h, zget (headers ev) (header_count ev - 1) = Some h ∧ chars raw (key h) = Some k.
Proof.
  intros [Hc Hs Hm Ha] Hl. apply last_Some in Hl as (hs' & ->).
  rewrite length_app, Nat.add_1_r in *.
  assert ((hs' ++ [(k, v)]) !! List.length hs' = Some (k, v)) as El by by apply list_lookup_middle.
  destruct (Forall2_lookup_r _ _ _ _ _ Ha El) as (h & Eh & Hh).
  exists h. split.
  - unfold zget. rewrite Hc, decide_True by lia.
    apply lookup_take_Some in Eh as [Eh _]. rewrite <-Eh. f_equal. lia.
  - unfold header_chars in Hh. destruct (chars raw (key h)); [|done]. cbn in Hh.
    destruct (chars raw (value h)); [|done]. cbn in Hh. congruence.
Qed.

(** The event after a key has been stored, the value still to come. *)
Definition key_stored (ev ev' : http_request_event) (n : Z) (k : list Z) : Prop :=
  ∃ h hs', zset (headers ev) n h = Some hs' ∧ ev' = set_headers hs' n ev ∧
           chars raw (key h) = Some k.

Lemma turn_colon t k after ev hs :
  at_ t (k ++ COLON :: after) → hdr_repr ev hs →
  let i := t + len k in
  if (MAX_HEADERS <=? List.length hs)%nat || negb (key_ok k) || injected (last hs) k
  then turn raw i (Locals HEADER_KEY t false) ev = Some (Ret false ev)
  else ∃ ev', turn raw i (Locals HEADER_KEY t false) ev
              = Some (Go i (Locals HEADER_VALUE (i + 1) true) ev') ∧
              key_stored ev ev' (len hs) k.
Proof.
  intros Hat Hr i. pose proof (at_chars _ _ _ Hat) as Hk. pose proof Hr as [Hc Hs Hm _].
  destruct (at_cons _ _ _ (at_app _ _ _ Hat)) as (Ec & _). fold i in Ec.
  unfold turn. rewrite Ec. cbn [mbind option_bind current_state]. unfold on_header_key.
  change (is_crlf COLON) with false. change (COLON =? COLON) with true. cbn [token_start].
  replace (i - t) with (len k) by lia. rewrite Hc.
  destruct (Nat.leb_spec MAX_HEADERS (List.length hs)) as [Hfull|Hroom].
  { rewrite (proj2 (Z.leb_le _ _)) by lia. done. }
  rewrite (proj2 (Z.leb_gt _ _)) by lia. unfold key_ok. cbn [orb].
  destruct (Z.eqb_spec i t) as [E0|Hne].
  { assert (len k = 0) as -> by lia. done. }
  rewrite (proj2 (Z.ltb_lt 0 (len k))) by lia. cbn [andb].
  assert ((if 0 <? len hs
           then prev ← zget (headers ev) (len hs - 1);
                prev_key ← chars raw (key prev); this_key ← chars raw (View t (len k));
                Some (bool_decide (prev_key = bytes_of "Host") && bool_decide (this_key = bytes_of "injected"))
           else Some false) = Some (injected (last hs) k)) as ->.
  { destruct (last hs) as [[pk pv]|] eqn:El.
    - destruct (hdr_repr_last ev hs pk pv Hr El) as (h & Eh & Hh).
      destruct hs; [done|]. rewrite (proj2 (Z.ltb_lt 0 _)) by (cbn; lia).
      rewrite <-Hc, Eh. cbn [mbind option_bind]. by rewrite Hh, Hk.
    - apply last_None in El as ->. done. }
  cbn [mbind option_bind]. destruct (injected (last hs) k); [by rewrite orb_true_r|].
  rewrite orb_false_r. destruct (Z.ltb_spec 64 (len k)) as [Hbig|Hsm].
  { rewrite (proj2 (Z.leb_gt _ _)) by lia. done. }
  rewrite (proj2 (Z.leb_le _ _)) by lia. cbn [andb].
  rewrite Nat2Z.id, (key_bytes_ok_spec t k _ Hat). cbn [mbind option_bind].
  destruct (forallb _ k); [|done]. cbn [negb].
  destruct (zget_is_Some (headers ev) (len hs)) as [old Eold]; [lia|]. rewrite Eold. cbn [mbind option_bind].
  pose proof (zset_eq (headers ev) (len hs) (Header (View t (len k)) (value old)) ltac:(lia)) as Ez.
  rewrite Ez. cbn [mbind option_bind]. eexists. split; [done|]. eexists _, _. split; [exact Ez|]. done.
Qed.

(** The end of the value before trimming: a trailing CR is dropped. *)
Lemma value_end t line next :
  at_ t (line ++ LF :: next) →
  let i := t + len line in
  (if t <? i then last ← zget raw (i - 1); Some (if last =? CR then i - 1 else i) else Some i)
  = Some (t + len (drop_last_if (Z.eqb CR) line)) ∧
  ∃ b, line = drop_last_if (Z.eqb CR) line ++ b.
Proof.
  intros Hat i. subst i. destruct (decide (line = [])) as [->|Hne].
  { cbn. rewrite Z.add_0_r, Z.ltb_irrefl. split; [done|by exists []]. }
  destruct (exists_last Hne) as (l & c & ->). rewrite drop_last_if_snoc.
  rewrite <-!app_assoc in Hat. cbn in Hat.
  destruct (at_cons _ _ _ (at_app _ _ _ Hat)) as (Ec & _). rewrite !length_app.
  rewrite (proj2 (Z.ltb_lt _ _)) by (cbn; lia).
  replace (t + Z.of_nat (List.length l + List.length [c]) - 1) with (t + len l) by (cbn; lia).
  rewrite Ec. cbn [mbind option_bind]. rewrite (Z.eqb_sym c CR).
  destruct (CR =? c); rewrite ?length_app; (split; [done|]); [by exists [c]|].
  exists []. by rewrite app_nil_r.
Qed.

(** Trimming the value by indices is trimming the list. *)
Lemma value_trim t m rest :
  at_ t (m ++ rest) →
  ∃ a b, m = a ++ trim m ++ b ∧
    trim_leading raw (List.length m) t = Some (t + len a) ∧
    trim_trailing raw (Z.to_nat (t + len m - (t + len a))) (t + len m)
      = Some (t + len a + len (trim m)).
Proof.
  intros Hat. destruct (drop_while_split is_blank m) as (a & Ea & _).
  set (d := drop_while is_blank m) in *. destruct (rtrim_split is_blank d) as (b & Eb).
  exists a, b. change (trim m) with (rtrim is_blank d). split_and!.
  - rewrite Ea at 1. by rewrite Eb at 1.
  - rewrite (trim_leading_spec _ _ _ Hat). fold d. f_equal. rewrite Ea, length_app. lia.
  - rewrite Ea in Hat. rewrite <-app_assoc in Hat. pose proof (at_app _ _ _ Hat) as Hd.
    rewrite <-(trim_trailing_spec _ _ _ Hd). rewrite Ea, length_app. f_equal; lia.
Qed.

Lemma turn_value t line next ev0 ev hs k :
  at_ t (line ++ LF :: next) → Forall (λ c, negb (c =? LF) = true) line →
  hdr_repr ev0 hs → (List.length hs < MAX_HEADERS)%nat → key_stored ev0 ev (len hs) k →
  let i := t + len line in
  let v := trim (drop_last_if (Z.eqb CR) line) in
  if existsb (Z.eqb CR) v || chunked k v
  then turn raw i (Locals HEADER_VALUE t true) ev = Some (Ret false ev)
  else ∃ hs' ev', ev' = set_headers hs' (len hs + 1) ev ∧
         turn raw i (Locals HEADER_VALUE t true) ev
           = Some (Go i (Locals HEADER_KEY (i + 1) false) ev') ∧
         hdr_repr ev' (hs ++ [(k, v)]).
Proof.
  intros Hat Hlf Hr Hroom (h & hs1 & Ez & -> & Hk) i v.
  destruct (at_cons _ _ _ (at_app _ _ _ Hat)) as (Ec & _). fold i in Ec.
  destruct (value_end t line next Hat) as [Eend [b1 Eb1]]. fold i in Eend.
  set (m := drop_last_if (Z.eqb CR) line) in *.
  assert (at_ t (m ++ b1 ++ LF :: next)) as Hm by (rewrite app_assoc, <-Eb1; done).
  destruct (value_trim t m _ Hm) as (a & b & Em & El & Et). fold v in Em, Et.
  assert (at_ (t + len a) (v ++ b ++ b1 ++ LF :: next)) as Hv.
  { apply at_app. rewrite Em in Hm. by rewrite <-!app_assoc in Hm. }
  assert (Forall (λ c, c ≠ LF) v) as Hvlf.
  { assert (Forall (λ c, c ≠ LF) line) as Hl.
    { eapply Forall_impl; [exact Hlf|]. intros c Hc. cbn in Hc. by apply negb_true_iff, Z.eqb_neq in Hc. }
    rewrite Eb1, Em in Hl. apply Forall_app in Hl as [Hl _]. apply Forall_app in Hl as [_ Hl].
    by apply Forall_app in Hl as [Hl _]. }
  unfold turn. rewrite Ec. cbn [mbind option_bind current_state]. unfold on_header_value.
  change (LF =? LF) with true. cbn [token_start]. rewrite Eend. cbn [mbind option_bind].
  replace (Z.to_nat (t + len m - t)) with (List.length m) by lia. rewrite El. cbn [mbind option_bind].
  rewrite Et. cbn [mbind option_bind].
  replace (t + len a + len v - (t + len a)) with (len v) by lia. rewrite Nat2Z.id.
  rewrite (value_bytes_ok_spec _ _ _ Hv Hvlf). cbn [mbind option_bind]. rewrite negb_involutive.
  destruct (existsb (Z.eqb CR) v); [done|]. cbn [orb set_headers header_count headers].
  destruct Hr as [Hc Hs Hmx Hall].
  rewrite (zget_zset _ _ _ _ _ Ez), decide_True by done. cbn [mbind option_bind].
  rewrite Hk, (at_chars _ _ _ Hv). cbn [mbind option_bind]. unfold chunked.
  destruct (_ && _); [done|].
  apply zset_Some in Ez as [Hrange ->].
  rewrite zset_eq by (rewrite length_insert; lia). cbn [mbind option_bind].
  eexists _, _. split; [done|]. split; [done|]. rewrite Nat2Z.id, list_insert_insert_eq.
  assert (List.length hs < List.length (headers ev0))%nat by lia.
  split; cbn [set_headers header_count headers].
  - rewrite length_app. cbn. lia.
  - by rewrite length_insert.
  - rewrite length_app. cbn. lia.
  - rewrite length_app, Nat.add_1_r.
    rewrite (take_S_r _ _ (Header (key h) (View (t + len a) (len v)))) by by apply list_lookup_insert_eq.
    rewrite take_insert_ge by lia. apply Forall2_app; [done|]. constructor; [|constructor].
    unfold header_chars. cbn. by rewrite Hk, (at_chars _ _ _ Hv).
Qed.

(** ** The stages of the machine *)

(** What the header and body states leave alone. *)
Definition same_line (ev ev' : http_request_event) : Prop :=
  connection_id ev' = connection_id ev ∧ method ev' = method ev ∧ uri ev' = uri ev.

(** The machine agrees with a reference result [spec]. *)
Definition agrees ev (r : option (bool * http_request_event))
    (spec : option (list (list Z * list Z) * list Z)) : Prop :=
  ∃ ev', same_line ev ev' ∧
    match spec with
    | Some (hs, b) => r = Some (true, ev') ∧ hdr_repr ev' hs ∧ chars raw (body ev') = Some b
    | None => r = Some (false, ev')
    end.

Lemma body_agrees fuel i rest sc ev hs :
  at_ i rest → hdr_repr ev hs →
  agrees ev (parse_loop raw (S fuel) i (Locals BODY i sc) ev) (Some (hs, spec_body rest)).
Proof.
  intros Hat []. destruct (body_stage fuel i rest sc ev Hat) as (v & E & Hv).
  exists (set_body v ev). split; [done|]. by split_and!.
Qed.

(** The empty line that ends the headers. *)
Lemma blank_line_agrees fuel i c rest ev hs :
  at_ i (c :: rest) → hdr_repr ev hs → is_crlf c = true →
  agrees ev (parse_loop raw (S (S fuel)) i (Locals HEADER_KEY i false) ev)
    (Some (hs, spec_body match rest with
                         | d :: rest'' => if (c =? CR) && (d =? LF) then rest'' else rest
                         | [] => []
                         end)).
Proof.
  intros Hat Hr Hc. destruct (at_cons _ _ _ Hat) as (Ec & Hlt & Hat').
  rewrite (parse_loop_turn _ _ _ _ c rest) by done. unfold turn. rewrite Ec.
  cbn [mbind option_bind current_state]. unfold on_header_key. rewrite Hc. cbn [token_start].
  rewrite Z.eqb_refl. destruct rest as [|d rest].
  - apply at_nil in Hat' as Hi. rewrite <-Hi, Z.ltb_irrefl, andb_false_r. cbn [mbind option_bind].
    by apply body_agrees.
  - destruct (at_cons _ _ _ Hat') as (Ed & Hlt' & Hat'').
    rewrite (proj2 (Z.ltb_lt _ _)), andb_true_r, Ed by done.
    destruct (c =? CR); cbn [mbind option_bind andb]; [|by apply body_agrees].
    destruct (d =? LF); [|by apply body_agrees].
    replace (i + 2) with (i + 1 + 1) by lia. by apply body_agrees.
Qed.

(** The value of a header, from behind the colon to the end of the line. *)
Lemma value_stage fuel t ev0 ev hs k after :
  at_ t after → hdr_repr ev0 hs → (List.length hs < MAX_HEADERS)%nat →
  key_stored ev0 ev (len hs) k → (List.length after < fuel)%nat →
  ∃ f,
    (match span (λ c, negb (c =? LF)) after with
     | (_, _ :: next) => (List.length next < f)%nat ∧ (List.length next < List.length after)%nat
     | _ => True
     end) ∧
    match span (λ c, negb (c =? LF)) after with
    | (line, _ :: next) =>
        let v := trim (drop_last_if (Z.eqb CR) line) in
        if existsb (Z.eqb CR) v || chunked k v
        then parse_loop raw fuel t (Locals HEADER_VALUE t true) ev = Some (false, ev)
        else ∃ i hs' ev', parse_loop raw fuel t (Locals HEADER_VALUE t true) ev =
                 parse_loop raw f i (Locals HEADER_KEY i false) ev' ∧
               ev' = set_headers hs' (len hs + 1) ev ∧ at_ i next ∧ hdr_repr ev' (hs ++ [(k, v)])
    | (_, []) => parse_loop raw fuel t (Locals HEADER_VALUE t true) ev = Some (false, ev)
    end.
Proof.
  intros Hat Hr Hroom Hks Hfuel. destruct (span _ after) as [line tail] eqn:Es.
  apply span_spec in Es as (El & Hline & Htail). rewrite El in Hat, Hfuel |- *. rewrite length_app in Hfuel |- *.
  assert (fuel = List.length line + S (fuel - List.length line - 1))%nat as E by lia.
  exists (fuel - List.length line - 1)%nat.
  assert (parse_loop raw fuel t (Locals HEADER_VALUE t true) ev =
          parse_loop raw (S (fuel - List.length line - 1)) (t + len line) (Locals HEADER_VALUE t true) ev) as ->.
  { rewrite E at 1. apply (parse_loop_scan _ _ _ _ _ _ _ Hat Hline). intros j x Hx Ej. unfold turn. rewrite Ej.
    cbn [mbind option_bind current_state]. unfold on_header_value. apply negb_true_iff in Hx as ->. done. }
  pose proof (at_app _ _ _ Hat) as Hat3. destruct tail as [|x next].
  { split; [done|]. by rewrite (at_nil _ Hat3), parse_loop_end. }
  apply negb_false_iff, Z.eqb_eq in Htail as ->. cbn [List.length] in *. split; [lia|]. cbn zeta.
  rewrite (parse_loop_turn _ _ _ _ LF next) by done.
  pose proof (turn_value t line next ev0 ev hs k Hat Hline Hr Hroom Hks) as Hv. cbn zeta in Hv.
  destruct (_ || chunked _ _); [by rewrite Hv|]. destruct Hv as (hs' & ev2 & E2 & -> & Hr2). cbn [mbind option_bind].
  destruct (at_cons _ _ _ Hat3) as (_ & _ & Hat4). eexists _, hs', ev2. split; [done|]. done.
Qed.

Lemma headers_stage sf : ∀ rest i fuel ev hs,
  at_ i rest → hdr_repr ev hs → (List.length rest < sf)%nat → (List.length rest < fuel)%nat →
  agrees ev (parse_loop raw fuel i (Locals HEADER_KEY i false) ev) (spec_headers sf hs rest).
Proof.
  induction sf as [|sf IH]; intros rest i fuel ev hs Hat Hr Hsf Hfuel; [lia|].
  destruct rest as [|c rest].
  { cbn [spec_headers]. destruct fuel as [|fuel]; [cbn in Hfuel; lia|].
    rewrite (at_nil _ Hat), parse_loop_end. by exists ev. }
  cbn [spec_headers]. destruct (is_crlf c) eqn:Hc.
  { destruct fuel as [|[|fuel]]; [cbn in Hfuel; lia..|]. by apply blank_line_agrees. }
  destruct (span _ (c :: rest)) as [k tail] eqn:Es.
  apply span_spec in Es as (Ek & Hk & Htail).
  assert (∃ f, fuel = (List.length k + S f)%nat ∧ (List.length tail ≤ f)%nat) as (f & -> & Hf).
  { assert (List.length (c :: rest) = List.length k + List.length tail)%nat as E by (by rewrite Ek, length_app).
    exists (fuel - List.length k - 1)%nat. lia. }
  rewrite Ek in Hat. rewrite (parse_loop_scan _ _ _ _ _ _ _ Hat Hk).
  2:{ intros j d Hd Ej. unfold turn. rewrite Ej. cbn [mbind option_bind current_state].
      unfold on_header_key. apply negb_true_iff, orb_false_iff in Hd as [-> ->]. done. }
  pose proof (at_app _ _ _ Hat) as Hat1. destruct tail as [|d after].
  { rewrite (at_nil _ Hat1), parse_loop_end. by exists ev. }
  apply negb_false_iff in Htail. rewrite (parse_loop_turn _ _ _ _ d after) by done.
  destruct (Z.eqb_spec d COLON) as [->|Hd]; cbn [negb orb]; cycle 1.
  { rewrite orb_false_r in Htail. destruct (at_cons _ _ _ Hat1) as (Ed & _).
    unfold turn. rewrite Ed. cbn [mbind option_bind current_state].
    unfold on_header_key. rewrite Htail. cbn [token_start saw_colon].
    destruct (Z.eqb_spec (i + len k) i) as [E0|]; [|by exists ev].
    destruct k; [cbn in Ek; congruence|cbn in E0; lia]. }
  pose proof (turn_colon i k after ev hs Hat Hr) as Ht. cbn zeta in Ht.
  destruct (_ || injected _ _) eqn:Erej.
  { rewrite Ht. by exists ev. }
  destruct Ht as (ev1 & -> & Hks). cbn [mbind option_bind].
  destruct (at_cons _ _ _ Hat1) as (_ & _ & Hat2).
  apply orb_false_iff in Erej as [Erej _]. apply orb_false_iff in Erej as [Erej _]. apply Nat.leb_gt in Erej.
  destruct (value_stage f _ ev ev1 hs k after Hat2 Hr Erej Hks) as (f' & Hf' & Hv); [cbn in Hf; lia|].
  assert (same_line ev ev1) as Hsame by (destruct Hks as (? & ? & _ & -> & _); done).
  destruct (span _ after) as [line [|x next]]; cbv beta iota zeta in Hv; [rewrite Hv; by exists ev1|].
  destruct Hf' as [Hf' Hlen]. destruct (_ || chunked _ _); [rewrite Hv; by exists ev1|].
  destruct Hv as (i2 & hs' & ev2 & -> & E2 & Hat4 & Hr2).
  destruct (IH next i2 f' ev2 _ Hat4 Hr2) as (ev3 & (H1 & H2 & H3) & Hag); [|lia|].
  - rewrite Ek, length_app in Hsf. cbn in Hsf. lia.
  - exists ev3. split; [|done]. destruct Hsame as (? & ? & ?). subst ev2. cbn in *. split_and!; congruence.
Qed.

(** Scanning a token up to its terminator, or to the end of the buffer; [stop]
    says which bytes end the token. *)
Lemma token_stage (stop : Z → bool) fuel i l ev rest a tail :
  span (λ c, negb (stop c)) rest = (a, tail) → at_ i rest → (List.length rest < fuel)%nat →
  (∀ j c, stop c = false → zget raw j = Some c → turn raw j l ev = Some (Go j l ev)) →
  ∃ f, at_ i (a ++ tail) ∧ at_ (i + len a) tail ∧ (List.length tail ≤ f)%nat ∧
    parse_loop raw fuel i l ev =
    match tail with
    | [] => Some (finish l ev)
    | _ :: _ =>
        fl ← turn raw (i + len a) l ev;
        match fl with
        | Ret b ev' => Some (b, ev')
        | Go i' l' ev' => parse_loop raw f (i' + 1) l' ev'
        end
    end ∧
    match tail with [] => True | c :: _ => stop c = true end.
Proof.
  intros Es Hat Hfuel Hnoop. apply span_spec in Es as (-> & Ha & Ht).
  rewrite length_app in Hfuel. pose proof (at_app _ _ _ Hat) as Hat'.
  exists (fuel - List.length a - 1)%nat. split_and!; [done..|lia| |].
  - assert (fuel = List.length a + S (fuel - List.length a - 1))%nat as E by lia.
    rewrite E at 1. rewrite (parse_loop_scan _ _ _ _ _ _ _ Hat Ha).
    + destruct tail as [|c tail]; [by rewrite (at_nil _ Hat'), parse_loop_end|].
      by apply (parse_loop_turn _ _ _ _ c tail).
    + intros j c Hc. apply negb_true_iff in Hc. by apply Hnoop.
  - destruct tail; [done|]. by apply negb_false_iff in Ht.
Qed.

(** The version and what follows it. *)
Lemma version_stage fuel t ev rest v tail :
  span (λ c, negb (c =? LF)) rest = (v, tail) → at_ t rest → (List.length rest < fuel)%nat → hdr_repr ev [] →
  agrees ev (parse_loop raw fuel t (Locals VERSION t false) ev)
    match tail with
    | _ :: r => if bool_decide (v = []) || bool_decide (v = [CR]) then None
                else spec_headers (S (List.length r)) [] r
    | [] => None
    end.
Proof.
  intros Es Hat Hfuel Hr.
  destruct (token_stage (λ c, c =? LF) fuel t (Locals VERSION t false) ev _ _ _ Es Hat Hfuel)
    as (f3 & Ha3 & Hb3 & Hf3 & -> & Ht3).
  { intros j c Hc Ej. unfold turn. rewrite Ej. cbn [mbind option_bind current_state].
    unfold on_version. by rewrite Hc. }
  destruct tail as [|d3 r3]; [by exists ev|]. apply Z.eqb_eq in Ht3 as ->.
  destruct (at_cons _ _ _ Hb3) as (E3 & _ & Hat3). unfold turn. rewrite E3.
  cbn [mbind option_bind current_state]. unfold on_version. change (LF =? LF) with true.
  cbn [token_start saw_colon].
  assert ((if t + len v =? t + 1 then first ← zget raw t; Some (first =? CR) else Some false)
          = Some (bool_decide (v = [CR]))) as ->.
  { destruct v as [|x v]; [by rewrite (proj2 (Z.eqb_neq _ _)) by (cbn; lia)|].
    destruct (at_cons _ _ _ Ha3) as (-> & _). destruct v as [|y v].
    - rewrite Z.eqb_refl. cbn [mbind option_bind]. f_equal. destruct (Z.eqb_spec x CR) as [->|].
      + by rewrite bool_decide_true.
      + rewrite bool_decide_false; [done|]. congruence.
    - rewrite (proj2 (Z.eqb_neq _ _)) by (cbn; lia). by rewrite bool_decide_false. }
  destruct (decide (v = [])) as [->|Hv0].
  { rewrite (bool_decide_true ([] = [])) by done. cbn [List.length Z.of_nat orb].
    rewrite Z.add_0_r, Z.eqb_refl. by exists ev. }
  rewrite (bool_decide_false (v = [])) by done.
  rewrite (proj2 (Z.eqb_neq _ _)) by (destruct v; cbn; [done|lia]). cbn [mbind option_bind orb].
  case_bool_decide; [by exists ev|]. apply headers_stage; [done|done|lia|cbn in Hf3; lia].
Qed.

(** The same agreement for a whole request. *)
Definition agrees_req (ev0 : http_request_event) (r : option (bool * http_request_event))
    (spec : option request) : Prop :=
  ∃ ev, connection_id ev = connection_id ev0 ∧
    match spec with
    | Some q => r = Some (true, ev) ∧ event_request raw ev = Some q
    | None => r = Some (false, ev)
    end.

Lemma parse_agrees ev0 :
  List.length (headers ev0) = MAX_HEADERS → header_count ev0 = 0 →
  agrees_req ev0 (parse raw ev0) (spec_parse raw).
Proof.
  intros Hsz Hcnt. unfold parse, spec_parse.
  destruct (span (λ c, negb (c =? SP)) raw) as [m t1] eqn:Es1.
  destruct (token_stage (λ c, c =? SP) (S (List.length raw)) 0 (Locals METHOD 0 false) ev0 _ _ _ Es1 at_start)
    as (f1 & Ha1 & Hb1 & Hf1 & -> & Ht1); [lia| |].
  { intros j c Hc Ej. unfold turn. rewrite Ej. cbn [mbind option_bind current_state].
    unfold on_method. by rewrite Hc. }
  destruct t1 as [|d1 r1]; [by exists ev0|]. apply Z.eqb_eq in Ht1 as ->.
  destruct (at_cons _ _ _ Hb1) as (E1 & _ & Hat1). unfold turn. rewrite E1.
  cbn [mbind option_bind current_state]. unfold on_method. change (SP =? SP) with true.
  cbn [token_start saw_colon]. rewrite Z.add_0_l in *. rewrite Z.sub_0_r.
  case_bool_decide as Hm; [subst m; by exists ev0|].
  rewrite (proj2 (Z.eqb_neq _ _)) by (destruct m; cbn; [done|lia]). cbn [mbind option_bind].
  set (ev1 := set_method _ ev0).
  destruct (span _ r1) as [u t2] eqn:Es2.
  destruct (token_stage (λ c, (c =? SP) || is_crlf c) f1 _ (Locals URI (len m + 1) false) ev1 _ _ _ Es2 Hat1)
    as (f2 & Ha2 & Hb2 & Hf2 & -> & Ht2); [cbn in Hf1; lia| |].
  { intros j c Hc Ej. unfold turn. rewrite Ej. cbn [mbind option_bind current_state].
    unfold on_uri. by apply orb_false_iff in Hc as [-> ->]. }
  destruct t2 as [|d2 r2]; [by exists ev1|].
  destruct (at_cons _ _ _ Hb2) as (E2 & _ & Hat2). unfold turn. rewrite E2.
  cbn [mbind option_bind current_state]. unfold on_uri. cbn [token_start saw_colon].
  destruct (d2 =? SP); cbn [negb orb] in *; [|rewrite Ht2; by exists ev1].
  case_bool_decide as Hu.
  { subst u. cbn [List.length Z.of_nat]. rewrite Z.add_0_r, Z.eqb_refl. by exists ev1. }
  rewrite (proj2 (Z.eqb_neq _ _)) by (destruct u; cbn; [done|lia]). cbn [mbind option_bind].
  replace (len m + 1 + len u - (len m + 1)) with (len u) by lia. set (ev2 := set_uri _ ev1).
  assert (hdr_repr ev2 []) as Hr by (split; cbn; [done..|lia|constructor]).
  destruct (span _ r2) as [v t3] eqn:Es3.
  destruct (version_stage f2 _ ev2 r2 v t3 Es3 Hat2) as (ev & (Hc & Hm' & Hu') & Hag); [cbn in Hf2; lia|done|].
  exists ev. split; [done|]. destruct t3 as [|d3 r3]; [done|].
  destruct (bool_decide (v = []) || bool_decide (v = [CR])); [done|].
  destruct (spec_headers _ _ _) as [[hs b]|]; cbn [mbind option_bind]; [|done].
  destruct Hag as (-> & [Hc1 _ _ Hall] & Hb). split; [done|]. unfold event_request.
  rewrite Hm', Hu'. cbn [ev2 ev1 set_uri set_method method uri].
  rewrite (at_chars _ _ _ Ha1), (at_chars _ _ _ Ha2). cbn [mbind option_bind].
  rewrite Hc1, Nat2Z.id, (mapM_Some_2 _ _ _ Hall). cbn [mbind option_bind]. by rewrite Hb.
Qed.

End positions.

(** ** What an accepted request looks like *)

Definition header_wf (kv : list Z * list Z) : Prop :=
  key_ok kv.1 = true ∧ Forall (λ c, c ≠ COLON) kv.1 ∧
  trim kv.2 = kv.2 ∧ Forall (λ c, is_crlf c = false) kv.2 ∧ chunked kv.1 kv.2 = false.

(** No [injected] header directly behind a [Host] header. *)
Definition no_injection (hs : list (list Z * list Z)) : Prop :=
  ∀ h1 kv k v h2, hs = h1 ++ kv :: (k, v) :: h2 → injected (Some kv) k = false.

Definition headers_wf (hs : list (list Z * list Z)) : Prop :=
  (List.length hs ≤ MAX_HEADERS)%nat ∧ Forall header_wf hs ∧ no_injection hs.

Definition request_wf (r : request) : Prop :=
  r_method r ≠ [] ∧ Forall (λ c, c ≠ SP) (r_method r) ∧
  r_uri r ≠ [] ∧ Forall (λ c, c ≠ SP ∧ is_crlf c = false) (r_uri r) ∧
  headers_wf (r_headers r) ∧ drop_while is_crlf (r_body r) = r_body r.

Lemma no_injection_snoc hs k v :
  no_injection hs → injected (last hs) k = false → no_injection (hs ++ [(k, v)]).
Proof.
  intros Hhs Hl h1 kv k' v' h2 E. destruct h2 as [|x h2] using rev_ind.
  - assert (hs = h1 ++ [kv] ∧ (k, v) = (k', v')) as [-> E'].
    { replace (h1 ++ [kv; (k', v')]) with ((h1 ++ [kv]) ++ [(k', v')]) in E by by rewrite <-app_assoc.
      by apply app_inj_tail in E. }
    injection E' as <- <-. by rewrite last_snoc in Hl.
  - apply (Hhs h1 kv k' v' h2).
    replace (h1 ++ kv :: (k', v') :: h2 ++ [x]) with ((h1 ++ kv :: (k', v') :: h2) ++ [x]) in E
      by by rewrite <-app_assoc.
    by apply app_inj_tail in E as [-> _].
Qed.

Lemma no_injection_app hs hs' : no_injection (hs ++ hs') → no_injection hs.
Proof. intros H h1 kv k v h2 ->. apply (H h1 kv k v (h2 ++ hs')). by rewrite <-!app_assoc. Qed.

Lemma drop_while_head p l :
  match drop_while p l with [] => True | c :: _ => p c = false end.
Proof. induction l as [|c l IH]; cbn; [done|]. by destruct (p c) eqn:E. Qed.

Lemma drop_while_id p l :
  match l with [] => True | c :: _ => p c = false end → drop_while p l = l.
Proof. destruct l; [done|]. cbn. by intros ->. Qed.

Lemma rtrim_idem p l : rtrim p (rtrim p l) = rtrim p l.
Proof.
  unfold rtrim. rewrite rev_involutive. f_equal. apply drop_while_id, drop_while_head.
Qed.

(** Cutting the end of a list keeps its first element. *)
Lemma rtrim_head p q l :
  match l with [] => True | c :: _ => q c = false end →
  match rtrim p l with [] => True | c :: _ => q c = false end.
Proof.
  intros H. destruct (rtrim_split p l) as (b & E). destruct (rtrim p l) as [|c m]; [done|].
  by rewrite E in H.
Qed.

Lemma trim_idem l : trim (trim l) = trim l.
Proof.
  change (rtrim is_blank (drop_while is_blank (trim l)) = trim l).
  rewrite (drop_while_id is_blank (trim l)); [apply rtrim_idem|].
  apply rtrim_head, drop_while_head.
Qed.

Lemma drop_last_if_cases p l :
  drop_last_if p l = l ∨ ∃ c, l = drop_last_if p l ++ [c] ∧ p c = true.
Proof.
  destruct (decide (l = [])) as [->|Hne]; [by left|].
  destruct (exists_last Hne) as (d & c & ->). rewrite drop_last_if_snoc.
  destruct (p c) eqn:E; [right|by left]. by exists c.
Qed.

(** The value of a line without LF that passed the CR test. *)
Lemma value_wf line :
  Forall (λ c, negb (c =? LF) = true) line →
  let v := trim (drop_last_if (Z.eqb CR) line) in
  existsb (Z.eqb CR) v = false → Forall (λ c, is_crlf c = false) v.
Proof.
  intros Hl v Hv. destruct (trim_line_split line) as (a & b & E). fold v in E.
  apply Forall_forall. intros c Hc. unfold is_crlf. apply orb_false_iff. split.
  - destruct (Z.eqb_spec c CR) as [->|]; [|done]. exfalso.
    rewrite <-not_true_iff_false in Hv. apply Hv, existsb_exists. exists CR.
    split; [by apply list_elem_of_In|apply Z.eqb_refl].
  - rewrite E in Hl. apply Forall_app in Hl as [_ Hl]. apply Forall_app in Hl as [Hl _].
    rewrite Forall_forall in Hl. by apply negb_true_iff, Hl.
Qed.

Lemma spec_headers_wf sf : ∀ hs rest hs' b,
  headers_wf hs → spec_headers sf hs rest = Some (hs', b) →
  headers_wf hs' ∧ drop_while is_crlf b = b.
Proof.
  induction sf as [|sf IH]; intros hs rest hs' b Hwf; [done|]. destruct rest as [|c rest]; [done|].
  cbn [spec_headers]. destruct (is_crlf c).
  { intros [= <- <-]. split; [done|]. unfold spec_body.
    apply drop_while_id. set (m := drop_while is_crlf _).
    pose proof (drop_while_head is_crlf
      match rest with [] => [] | d :: r => if (c =? CR) && (d =? LF) then r else rest end) as Hm.
    fold m in Hm.
    destruct (drop_last_if_cases (Z.eqb 0) m) as [->|(x & E & _)]; [done|].
    rewrite E in Hm. by destruct (drop_last_if _ m). }
  destruct (span _ (c :: rest)) as [k [|d after]] eqn:Es; [done|].
  apply span_spec in Es as (_ & Hk & _).
  destruct (_ || injected _ _) eqn:Erej; [done|].
  apply orb_false_iff in Erej as [Erej Hinj]. apply orb_false_iff in Erej as [Erej Hok].
  apply orb_false_iff in Erej as [_ Hcnt]. apply Nat.leb_gt in Hcnt. apply negb_false_iff in Hok.
  destruct (span _ after) as [line [|x next]] eqn:Es2; [done|].
  apply span_spec in Es2 as (_ & Hline & _).
  destruct (_ || chunked _ _) eqn:Erej; [done|]. apply orb_false_iff in Erej as [Hcr Hch].
  apply IH. destruct Hwf as (_ & Hall & Hni). split_and!.
  - rewrite length_app. cbn. lia.
  - apply Forall_app. split; [done|]. constructor; [|constructor]. split_and!; cbn; try done.
    + eapply Forall_impl; [exact Hk|]. intros y Hy. cbn in Hy.
      apply negb_true_iff, orb_false_iff in Hy as [_ Hy]. by apply Z.eqb_neq.
    + apply trim_idem.
    + by apply value_wf.
  - by apply no_injection_snoc.
Qed.

Lemma spec_parse_wf raw r : spec_parse raw = Some r → request_wf r.
Proof.
  unfold spec_parse. destruct (span _ raw) as [m [|d1 r1]] eqn:E1; [done|].
  case_bool_decide; [done|]. destruct (span _ r1) as [u [|d2 r2]] eqn:E2; [done|].
  destruct (negb _ || _) eqn:Eu; [done|]. apply orb_false_iff in Eu as [_ Hu].
  destruct (span _ r2) as [v [|d3 r3]]; [done|]. destruct (_ || _); [done|].
  destruct (spec_headers _ _ _) as [[hs b]|] eqn:Eh; [|done]. cbn. intros [= <-].
  apply spec_headers_wf in Eh as [Hhs Hb].
  - apply span_spec in E1 as (_ & Hm & _). apply span_spec in E2 as (_ & Hu' & _).
    split_and!; cbn; try done.
    + eapply Forall_impl; [exact Hm|]. intros c Hc. cbn in Hc. by apply negb_true_iff, Z.eqb_neq in Hc.
    + intros ->. by rewrite bool_decide_true in Hu.
    + eapply Forall_impl; [exact Hu'|]. intros c Hc. cbn in Hc.
      apply negb_true_iff, orb_false_iff in Hc as [Hc ?]. split; [by apply Z.eqb_neq|done].
  - split_and!; [cbn; lia|constructor|]. intros h1 kv k v' h2 E. by destruct h1.
Qed.

(** ** Printing *)

Definition print_header (kv : list Z * list Z) : list Z :=
  kv.1 ++ COLON :: SP :: kv.2 ++ [CR; LF].

Definition print_headers (hs : list (list Z * list Z)) : list Z := hs ≫= print_header.

Definition print (r : request) : list Z :=
  r_method r ++ SP :: r_uri r ++ SP :: bytes_of "HTTP/1.1" ++ CR :: LF ::
  print_headers (r_headers r) ++ CR :: LF :: r_body r.

(** A body the parser returns as it is: it does not end with NUL. *)
Definition body_printable (b : list Z) : Prop := last b ≠ Some 0.

Lemma spec_body_id b : drop_while is_crlf b = b → body_printable b → spec_body b = b.
Proof.
  intros Hb Hn. unfold spec_body. rewrite Hb. unfold drop_last_if, body_printable in *.
  destruct (last b) as [c|]; [|done]. destruct (Z.eqb_spec 0 c) as [<-|]; done.
Qed.

(** The text of a value between the colon and the LF gives the value back. *)
Lemma printed_value v :
  trim v = v → trim (drop_last_if (Z.eqb CR) (SP :: v ++ [CR])) = v.
Proof.
  intros Hv. change (SP :: v ++ [CR]) with ((SP :: v) ++ [CR]). rewrite drop_last_if_snoc.
  change (CR =? CR) with true. change (trim (SP :: v)) with (trim v). done.
Qed.

Lemma not_crlf_lf v :
  Forall (λ c, is_crlf c = false) v → Forall (λ c, negb (c =? LF) = true) v.
Proof.
  intros H. eapply Forall_impl; [exact H|]. intros c Hc. cbn in *.
  apply orb_false_iff in Hc as [_ ->]. done.
Qed.

Lemma key_ok_not_crlf k : key_ok k = true → Forall (λ c, is_crlf c = false) k.
Proof.
  unfold key_ok. intros H. apply andb_true_iff in H as [_ H]. rewrite forallb_forall in H.
  apply Forall_forall. intros c Hc. apply list_elem_of_In in Hc. apply H in Hc.
  apply andb_true_iff in Hc as [Hc _]. apply Z.ltb_lt in Hc. unfold is_crlf, CR, LF.
  apply orb_false_iff. rewrite !Z.eqb_neq. lia.
Qed.

Lemma print_headers_length hs rest :
  (List.length hs ≤ List.length (print_headers hs ++ rest))%nat.
Proof.
  unfold print_headers. rewrite length_app. induction hs as [|kv hs IH]; cbn; [lia|].
  unfold print_header at 1. rewrite !length_app. cbn. lia.
Qed.

Lemma spec_headers_print b : ∀ hs hs0 sf,
  headers_wf (hs0 ++ hs) → drop_while is_crlf b = b → body_printable b →
  (List.length hs < sf)%nat →
  spec_headers sf hs0 (print_headers hs ++ CR :: LF :: b) = Some (hs0 ++ hs, b).
Proof.
  intros hs. induction hs as [|[k v] hs IH]; intros hs0 sf Hwf Hb Hbp Hsf.
  { destruct sf; [cbn in Hsf; lia|]. cbn. rewrite app_nil_r, spec_body_id by done. done. }
  destruct sf as [|sf]; [cbn in Hsf; lia|].
  pose proof Hwf as (Hlen & Hall & Hni). apply Forall_app in Hall as [_ Hall].
  apply Forall_cons in Hall as [(Hk & Hcol & Htr & Hv & Hch) _]. cbn in Hk, Hcol, Htr, Hv, Hch.
  assert (Forall (λ c, negb (is_crlf c || (c =? COLON)) = true) k) as Hspan.
  { pose proof (key_ok_not_crlf k Hk) as Hc. apply Forall_forall. intros c Hin.
    rewrite Forall_forall in Hc, Hcol. rewrite (Hc c Hin), (proj2 (Z.eqb_neq _ _)) by by apply Hcol. done. }
  assert (print_headers ((k, v) :: hs) ++ CR :: LF :: b
          = k ++ COLON :: (SP :: v ++ [CR]) ++ LF :: (print_headers hs ++ CR :: LF :: b)) as ->.
  { unfold print_headers. cbn. unfold print_header. cbn. rewrite <-!app_assoc. cbn.
    rewrite <-!app_assoc. cbn. done. }
  assert (injected (last hs0) k = false) as Hinj.
  { destruct (last hs0) as [kv|] eqn:El; [|done]. apply last_Some in El as (h & ->).
    apply (Hni h kv k v hs). by rewrite <-app_assoc. }
  rewrite length_app in Hlen. cbn [List.length] in Hlen.
  destruct k as [|c k]; [done|]. cbn [app spec_headers].
  apply Forall_cons in Hspan as Hsc. destruct Hsc as [Hc _].
  apply negb_true_iff, orb_false_iff in Hc as [-> _].
  change (c :: k ++ COLON :: ?x) with ((c :: k) ++ COLON :: x).
  rewrite span_app by done. change (COLON =? COLON) with true. cbn [negb orb].
  rewrite (proj2 (Nat.leb_gt _ _)) by lia. rewrite Hk, Hinj. cbn [negb orb].
  change (SP :: (v ++ [CR]) ++ ?x) with ((SP :: v ++ [CR]) ++ x).
  rewrite (span_app _ (SP :: v ++ [CR])).
  2:{ constructor; [done|]. apply Forall_app. split; [by apply not_crlf_lf|by repeat constructor]. }
  2: done.
  rewrite printed_value by done. rewrite Hch, orb_false_r.
  replace (existsb (Z.eqb CR) v) with false.
  2:{ symmetry. apply not_true_iff_false. rewrite existsb_exists. intros (x & Hx & Ex).
      apply Z.eqb_eq in Ex as <-. rewrite Forall_forall in Hv.
      by specialize (Hv CR (proj2 (list_elem_of_In _ _) Hx)). }
  rewrite IH; [by rewrite <-app_assoc|by rewrite <-app_assoc|done..|]. cbn in Hsf. lia.
Qed.

Lemma spec_parse_print r :
  request_wf r → body_printable (r_body r) → spec_parse (print r) = Some r.
Proof.
  intros (Hm0 & Hm & Hu0 & Hu & Hhs & Hb) Hbp. destruct r as [m u hs b].
  cbn in Hm0, Hm, Hu0, Hu, Hhs, Hb, Hbp.
  unfold spec_parse, print. cbn [r_method r_uri r_headers r_body].
  assert (∃ ver, ver = bytes_of "HTTP/1.1" ∧ Forall (λ c, negb (c =? LF) = true) (ver ++ [CR]) ∧
                 ver ++ [CR] ≠ [] ∧ ver ++ [CR] ≠ [CR]) as (ver & <- & Hver & Hv0 & Hv1)
    by (eexists; split_and!; [done|by repeat constructor|done..]).
  rewrite span_app; [|eapply Forall_impl; [exact Hm|]; intros c Hc; by rewrite (proj2 (Z.eqb_neq _ _))|done].
  cbn beta iota. rewrite bool_decide_false by done.
  rewrite span_app; [| |done].
  2:{ eapply Forall_impl; [exact Hu|]. intros c [H1 H2]. cbn in *.
      by rewrite (proj2 (Z.eqb_neq _ _) H1), H2. }
  cbn beta iota. change (SP =? SP) with true. rewrite bool_decide_false by done. cbn [negb orb].
  change (CR :: LF :: ?x) with ([CR] ++ LF :: x). rewrite (app_assoc ver).
  rewrite span_app by done. cbn beta iota.
  rewrite !bool_decide_false by done. cbn [orb].
  rewrite spec_headers_print; try done. pose proof (print_headers_length hs (CR :: LF :: b)). lia.
Qed.

(** ** Properties *)

(** An event whose header array has its size and is still empty. *)
Definition event_ready (ev : http_request_event) : Prop :=
  List.length (headers ev) = MAX_HEADERS ∧ header_count ev = 0.

(** C5: The index-based parser refines the reference parser on every buffer:
    it returns (the loops terminate), it never reads outside the buffer or
    writes outside the array of headers, it accepts exactly the buffers the
    reference accepts, and then the views it leaves in the event denote the
    method, URI, headers and body of the reference; the connection id is
    untouched. *)
Theorem http_parse_refines raw ev0 :
  event_ready ev0 →
  ∃ b ev, parse raw ev0 = Some (b, ev) ∧ connection_id ev = connection_id ev0 ∧
    (b = true → event_request raw ev = spec_parse raw) ∧
    (b = true ↔ is_Some (spec_parse raw)).
Proof.
  intros [Hs Hc]. destruct (parse_agrees raw ev0 Hs Hc) as (ev & Hid & H).
  destruct (spec_parse raw) as [r|].
  - destruct H as [E Er]. exists true, ev. by split_and!.
  - exists false, ev. by split_and!.
Qed.

(** C22: Whatever bytes arrive, an accepted event is well formed: method and URI
    are not empty and contain no separator; there are at most 16 headers, their
    keys have 1 to 64 printable bytes without a colon and their values are
    trimmed and free of CR and LF; no header is a chunked transfer encoding and
    no [injected] header follows a [Host] header; every view lies inside the
    buffer. *)
Theorem http_accepted_wf raw ev0 ev :
  event_ready ev0 → parse raw ev0 = Some (true, ev) →
  ∃ r, event_request raw ev = Some r ∧ request_wf r.
Proof.
  intros [Hs Hc] E. destruct (parse_agrees raw ev0 Hs Hc) as (ev' & _ & H).
  destruct (spec_parse raw) as [r|] eqn:Er.
  - destruct H as [E' Hr]. exists r. assert (ev' = ev) as <- by congruence.
    split; [done|]. by eapply spec_parse_wf.
  - congruence.
Qed.

(** C21: Round trip: every well-formed request, written in the usual form with
    CRLF line ends and one space behind the colon, is accepted and parsed back
    to itself, provided its body does not end with a NUL byte (which the parser
    takes for the terminator of a string literal and drops). *)
Theorem http_roundtrip r ev0 :
  event_ready ev0 → request_wf r → body_printable (r_body r) →
  ∃ ev, parse (print r) ev0 = Some (true, ev) ∧ event_request (print r) ev = Some r.
Proof.
  intros [Hs Hc] Hr Hb. destruct (parse_agrees (print r) ev0 Hs Hc) as (ev & _ & H).
  rewrite spec_parse_print in H by done. eauto.
Qed.

(** ** Witnesses *)

Definition sample : request :=
  Req (bytes_of "GET") (bytes_of "/a") [(bytes_of "Host", bytes_of "x y")] (bytes_of "hi").

Lemma sample_wf : request_wf sample.
Proof.
  split_and!; try done; try (by repeat constructor).
  split; [unfold MAX_HEADERS; cbn; lia|]. split; [by repeat constructor|].
  intros h1 kv k v h2 E. by destruct h1 as [|? [|? ?]].
Qed.

Lemma http_parse_refines_witness :
  ∃ b ev, parse (print sample) (new_event 7) = Some (b, ev) ∧ connection_id ev = 7.
Proof.
  destruct (http_parse_refines (print sample) (new_event 7)) as (b & ev & E & Hid & _);
    [by split|]. exists b, ev. done.
Defined.

Lemma http_accepted_wf_witness :
  ∃ ev r, parse (bytes_of "GET / 1" ++ [LF; LF]) (new_event 7) = Some (true, ev) ∧
          event_request (bytes_of "GET / 1" ++ [LF; LF]) ev = Some r ∧ request_wf r.
Proof.
  eexists. destruct (http_accepted_wf (bytes_of "GET / 1" ++ [LF; LF]) (new_event 7)
    (Request 7 (View 0 3) (View 4 1) (replicate MAX_HEADERS (Header no_view no_view)) 0 no_view))
    as (r & Er & Hr); [by split|vm_compute; reflexivity|].
  exists r. split; [vm_compute; reflexivity|]. done.
Defined.

Lemma http_roundtrip_witness :
  ∃ ev, parse (print sample) (new_event 7) = Some (true, ev) ∧
        event_request (print sample) ev = Some sample.
Proof. apply (http_roundtrip sample (new_event 7)); [by split|apply sample_wf|done]. Defined.
