(* ===== verification/Slab.v ===== *)
(** * The slab allocator (include/conduit/pending/core/slab_allocator.hpp)

    The slab is the tagged free list of the pool with another cell layout: each
    slot keeps its link beside the object, and an object remembers the index of
    its slot ([internal_index]), so [deallocate] needs no pointer arithmetic.

    The proofs are a simulation: [as_pool] forgets the layout, every operation
    of the slab is the corresponding operation of the pool on the image, and the
    [Allocator] laws carry over.  A slot is modelled by its object, if one is
    alive, the four bytes of [internal_index] (which outlive the object: the
    source reads them after the destructor has run) and the link. *)

From S2P Require Import Prelude EventPtr Interfaces Pool.

Local Open Scope Z_scope.

Section slab.
Context {T : Type}.

Record slot := Slot { storage : option T; internal_index : Z; next_free : Z }.

Record slab_allocator := Slab {
  slots_ : list slot;
  sl_head_ : Z;
  sl_data_ : Z;
  sl_sizeof_ : Z }.

Implicit Types (s : slab_allocator) (v : T) (sp : list bool) (mem : list slot).

Definition END_OF_LIST : Z := 0xFFFFFFFF.

(** [pack(aba_counter, index)]. *)
Definition pack (aba_counter index : Z) : Z := Z.lor (u64 (Z.shiftl aba_counter 32)) index.

(** [unpack(packed, aba_counter, index)]. *)
Definition unpack (packed : Z) : Z * Z :=
  (u32 (Z.shiftr packed 32), u32 (Z.land packed 0xFFFFFFFF)).

Definition set_next (i n : Z) mem : option (list slot) :=
  c ← zget mem i; zset mem i (Slot (storage c) (internal_index c) n).

(** The loop of the constructor. *)
Fixpoint slab_ctor_loop (fuel : nat) (limit i : Z) mem : option (list slot) :=
  match fuel with
  | O => None
  | S fuel' =>
      if i <? limit then
        mem' ← set_next i (u32 (i + 1)) mem;
        slab_ctor_loop fuel' limit (u32 (i + 1)) mem'
      else Some mem
  end.

Inductive ctor_result := Thrown | Built (s : slab_allocator).

(** [slab_allocator()]: the slots hold anything before the links are set. *)
Definition slab_ctor (base csize : Z) (raw : list slot) : option ctor_result :=
  let Capacity := Z.of_nat (length raw) in
  if Capacity =? 0 then Some Thrown
  else
    mem1 ← slab_ctor_loop (S (length raw)) (u32 (Capacity - 1)) 0 raw;
    mem2 ← set_next (u32 (Capacity - 1)) END_OF_LIST mem1;
    Some (Built (Slab mem2 (pack 0 0) base csize)).

(** [&memory_[index].storage]. *)
Definition slot_addr s (i : Z) : Z := sl_data_ s + i * sl_sizeof_ s.

(** [allocate(args...)]: [None] is an access out of range; [v] is the object
    the constructor builds. *)
Fixpoint allocate_loop sp v (current_head : Z) s : option (Z * slab_allocator) :=
  let '(aba_counter, index) := unpack current_head in
  if index =? END_OF_LIST then Some (nullptr, s)
  else
    c ← zget (slots_ s) index;
    let new_head := pack (u32 (aba_counter + 1)) (next_free c) in
    match compare_exchange_weak (hd false sp) (sl_head_ s) current_head new_head with
    | (true, cur, _) =>
        mem ← zset (slots_ s) index (Slot (Some v) index (next_free c));
        Some (slot_addr s index, Slab mem cur (sl_data_ s) (sl_sizeof_ s))
    | (false, cur, head') =>
        match sp with
        | [] => None
        | _ :: sp' => allocate_loop sp' v head' (Slab (slots_ s) cur (sl_data_ s) (sl_sizeof_ s))
        end
    end.

Definition allocate sp v s : option (Z * slab_allocator) := allocate_loop sp v (sl_head_ s) s.

(** [ptr->~T()], then [ptr->internal_index]. *)
Definition destroy_slot s (ptr : Z) : option (Z * slab_allocator) :=
  let i := (ptr - sl_data_ s) `div` sl_sizeof_ s in
  c ← zget (slots_ s) i;
  match storage c with
  | Some _ =>
      mem ← zset (slots_ s) i (Slot None (internal_index c) (next_free c));
      Some (internal_index c, Slab mem (sl_head_ s) (sl_data_ s) (sl_sizeof_ s))
  | None => None
  end.

Fixpoint deallocate_loop sp (index current_head : Z) s : option slab_allocator :=
  let '(aba_counter, current_index) := unpack current_head in
  mem ← set_next index current_index (slots_ s);
  let new_head := pack (u32 (aba_counter + 1)) index in
  match compare_exchange_weak (hd false sp) (sl_head_ s) current_head new_head with
  | (true, cur, _) => Some (Slab mem cur (sl_data_ s) (sl_sizeof_ s))
  | (false, cur, head') =>
      match sp with
      | [] => None
      | _ :: sp' => deallocate_loop sp' index head' (Slab mem cur (sl_data_ s) (sl_sizeof_ s))
      end
  end.

(** [deallocate(ptr)]. *)
Definition deallocate sp (ptr : Z) s : option slab_allocator :=
  if ptr =? nullptr then Some s
  else
    '(index, s') ← destroy_slot s ptr;
    deallocate_loop sp index (sl_head_ s') s'.

(** ** The simulation by the pool *)

Definition as_cell (c : slot) : cell T :=
  match storage c with Some v => Data v | None => Next (next_free c) end.

Definition as_pool s : pool T :=
  Pool (as_cell <$> slots_ s) (sl_head_ s) (sl_data_ s) (sl_sizeof_ s).

(** Links are 32-bit, and a live object knows its slot. *)
Definition slots_wf mem : Prop :=
  ∀ i c, zget mem i = Some c →
    in_word 32 (next_free c) ∧ (storage c = None ∨ internal_index c = i).

Lemma zget_fmap {A B} (f : A → B) (l : list A) i : zget (f <$> l) i = f <$> zget l i.
Proof. unfold zget. case_decide; [|done]. by rewrite list_lookup_fmap. Qed.

Lemma zset_fmap {A B} (f : A → B) (l : list A) i x :
  zset (f <$> l) i (f x) = (λ l' : list A, f <$> l') <$> zset l i x.
Proof.
  unfold zset. rewrite length_fmap. case_decide; [|done]. cbn. by rewrite list_fmap_insert.
Qed.

Lemma unpack_idx head : (unpack head).2 = head_idx head.
Proof. done. Qed.

Lemma pack_bump head i :
  in_word 64 head → in_word 32 i → pack (u32 ((unpack head).1 + 1)) i = bump head i.
Proof.
  intros Hh Hi. rewrite bump_val by done. unfold pack, unpack. cbn [fst].
  rewrite (wrap_small 64) by (unfold in_word; rewrite Z.shiftl_mul_pow2 by lia;
    pose proof (wrap_range 32 (u32 (Z.shiftr head 32) + 1)); unfold in_word in *; lia).
  rewrite lor_shiftl_add by (done || apply Hi).
  rewrite (Z.mod_small i) by apply Hi. rewrite shiftr_div by lia.
  rewrite (wrap_small 32 (head `div` 2 ^ 32)); [done|].
  unfold in_word in *. split; [apply Z.div_pos; lia|]. apply Z.div_lt_upper_bound; lia.
Qed.

Lemma slots_wf_insert mem i c :
  slots_wf mem → in_word 32 (next_free c) → (storage c = None ∨ internal_index c = i) →
  0 ≤ i < Z.of_nat (length mem) → slots_wf (<[Z.to_nat i := c]> mem).
Proof.
  intros Hwf Hn Hc Hi j d. rewrite (zget_zset mem i c) by (by apply zset_eq).
  case_decide as E; [|by apply Hwf]. intros [= <-]. by subst.
Qed.

(** [allocate] takes the first free slot, for every schedule. *)
Lemma allocate_take sp v s i c :
  in_word 64 (sl_head_ s) → slots_wf (slots_ s) →
  sl_head_ s `mod` 2 ^ 32 = i → i ≠ END_OF_LIST →
  zget (slots_ s) i = Some c →
  allocate sp v s
  = Some (slot_addr s i, Slab (<[Z.to_nat i := Slot (Some v) i (next_free c)]> (slots_ s))
            (bump (sl_head_ s) (next_free c)) (sl_data_ s) (sl_sizeof_ s)).
Proof.
  intros Hh Hwf Ei Hne Hc. pose proof (zget_Some_range _ _ _ Hc) as Hr.
  destruct (Hwf _ _ Hc) as [Hn _]. unfold allocate.
  induction sp as [|b sp IH]; cbn [allocate_loop]; rewrite (surjective_pairing (unpack _));
    rewrite unpack_idx, head_idx_val, Ei, (proj2 (Z.eqb_neq i END_OF_LIST) Hne), Hc;
    cbn [mbind option_bind]; rewrite pack_bump by done; unfold compare_exchange_weak;
    rewrite Z.eqb_refl; cbn [hd].
  - cbn [negb andb]. by rewrite zset_eq.
  - destruct b; cbn [negb andb]; [|by rewrite zset_eq].
    destruct s as [mem h d z]. exact IH.
Qed.

Lemma allocate_end sp v s :
  sl_head_ s `mod` 2 ^ 32 = END_OF_LIST → allocate sp v s = Some (nullptr, s).
Proof.
  intros E. unfold allocate. destruct sp; cbn [allocate_loop]; rewrite (surjective_pairing (unpack _));
    by rewrite unpack_idx, head_idx_val, E.
Qed.

(** [deallocate_loop] puts slot [i] in front, for every schedule. *)
Lemma deallocate_loop_push sp i c : ∀ s,
  in_word 64 (sl_head_ s) → in_word 32 i → zget (slots_ s) i = Some c →
  ∃ n, deallocate_loop sp i (sl_head_ s) s
       = Some (Slab (<[Z.to_nat i := Slot (storage c) (internal_index c) n]> (slots_ s))
                 (bump (sl_head_ s) i) (sl_data_ s) (sl_sizeof_ s)) ∧
       n = Z.land (sl_head_ s) 0xFFFFFFFF ∧ in_word 32 n.
Proof.
  assert (∀ h, u32 (Z.land h 0xFFFFFFFF) = Z.land h 0xFFFFFFFF) as Hland.
  { intros h. rewrite land_mask32. unfold wrap. by rewrite Zmod_mod. }
  intros s Hh Hi Hc. pose proof (zget_Some_range _ _ _ Hc) as Hr.
  exists (Z.land (sl_head_ s) 0xFFFFFFFF).
  split; [|split; [done|rewrite land_mask32; unfold in_word; apply Z.mod_pos_bound; lia]].
  revert s c Hh Hc Hr. induction sp as [|b sp IH]; intros s c Hh Hc Hr; cbn [deallocate_loop];
    rewrite (surjective_pairing (unpack _)); unfold set_next; rewrite Hc; cbn [mbind option_bind];
    rewrite zset_eq by done; cbn [mbind option_bind]; rewrite pack_bump by done;
    unfold compare_exchange_weak; rewrite Z.eqb_refl; cbn [hd unpack snd]; rewrite Hland; cbn [negb andb].
  - done.
  - destruct b; cbn [negb andb]; [|done].
    set (c1 := Slot _ _ (Z.land _ _)). set (s1 := Slab _ _ _ _).
    change (sl_head_ s) with (sl_head_ s1). rewrite (IH s1 c1); [|done| |].
    + cbn. by rewrite list_insert_insert_eq.
    + cbn. rewrite (zget_zset (slots_ s) i c1) by (by apply zset_eq). by rewrite decide_True.
    + cbn. by rewrite length_insert.
Qed.

(** *** The image of each operation *)

Lemma allocate_sim sp v s L :
  free_inv (as_pool s) L → slots_wf (slots_ s) →
  ∃ a s', allocate sp v s = Some (a, s') ∧ make sp v (as_pool s) = Some (a, as_pool s') ∧
          slots_wf (slots_ s').
Proof.
  intros Hinv Hwf. pose proof (fi_word _ _ Hinv) as Hh. pose proof (fi_chain _ _ Hinv) as Hch.
  cbn [as_pool free_head_ memory_] in *. destruct L as [|i L]; cbn in Hch.
  - exists nullptr, s. rewrite allocate_end by done. split; [done|]. split; [|done].
    by apply make_empty.
  - destruct Hch as (Ei & Hi & n & Hn & _). rewrite zget_fmap in Hn.
    destruct (zget (slots_ s) i) as [c|] eqn:Ec; [|done]. cbn in Hn.
    assert (storage c = None ∧ next_free c = n) as [Hst <-].
    { unfold as_cell in Hn. destruct (storage c); [done|]. by injection Hn as <-. }
    pose proof (zget_Some_range _ _ _ Ec) as Hr.
    rewrite (allocate_take sp v s i c) by (done || (unfold END_OF_LIST, END in *; lia)).
    eexists _, _. split; [done|]. split.
    + unfold make. rewrite (make_loop_take sp v (as_pool s) i (next_free c));
        [|done|unfold END in *; lia|].
      * do 2 f_equal. unfold popped, as_pool. cbn. by rewrite list_fmap_insert.
      * cbn. rewrite zget_fmap, Ec. cbn. unfold as_cell. by rewrite Hst.
    + cbn. destruct (Hwf _ _ Ec) as [Hn' _]. apply slots_wf_insert; cbn; auto.
Qed.

Lemma deallocate_sim sp s L a v :
  free_inv (as_pool s) L → slots_wf (slots_ s) → live (as_pool s) !! a = Some v →
  ∃ s', deallocate sp a s = Some s' ∧ free sp a (as_pool s) = Some (as_pool s') ∧
        slots_wf (slots_ s').
Proof.
  intros Hinv Hwf Ha. pose proof (fi_layout _ _ Hinv) as Hlay. pose proof (fi_word _ _ Hinv) as Hh.
  apply live_lookup in Ha as (i & -> & Hi); [|done]. cbn [as_pool memory_ free_head_] in Hi, Hh.
  pose proof Hi as Hi0. rewrite zget_fmap in Hi. destruct (zget (slots_ s) i) as [c|] eqn:Ec; [|done].
  cbn in Hi. assert (storage c = Some v) as Hst.
  { unfold as_cell in Hi. destruct (storage c); [by injection Hi as <-|done]. }
  destruct (Hwf _ _ Ec) as [Hn [Hbad|Hidx]]; [congruence|].
  pose proof (zget_Some_range _ _ _ Ec) as Hr. destruct Hlay as (Hl1 & Hl2 & Hl3 & Hl4).
  cbn in Hl1, Hl2, Hl3, Hl4. rewrite length_fmap in *.
  pose proof (free_push sp v (as_pool s) i L Hinv Hi0) as [Ef _].
  unfold deallocate. rewrite (proj2 (Z.eqb_neq _ _)) by (apply cell_addr_nonnull; [apply Hinv|lia]).
  unfold destroy_slot.
  assert ((cell_addr (as_pool s) i - sl_data_ s) `div` sl_sizeof_ s = i) as ->.
  { unfold cell_addr. cbn. replace (_ - _) with (i * sl_sizeof_ s) by lia. apply Z.div_mul. lia. }
  rewrite Ec. cbn [mbind option_bind]. rewrite Hst, zset_eq by done. cbn [mbind option_bind].
  rewrite Hidx. set (c0 := Slot None _ _). set (s0 := Slab _ _ _ _).
  assert (zget (slots_ s0) i = Some c0) as Ec0.
  { unfold s0. cbn. rewrite (zget_zset (slots_ s) i c0) by (by apply zset_eq). by rewrite decide_True. }
  destruct (deallocate_loop_push sp i c0 s0) as (n & E & Hn' & Hnw);
    [done|unfold in_word, END in *; lia|done|].
  eexists. split; [exact E|]. split.
  - rewrite Ef. f_equal. unfold pushed, as_pool, s0, c0. cbn.
    rewrite list_insert_insert_eq, list_fmap_insert. cbn. unfold as_cell. cbn. by rewrite Hn'.
  - cbn. rewrite list_insert_insert_eq. apply slots_wf_insert; cbn; auto.
Qed.

(** ** The interface *)

#[export] Instance slab_is_allocator : Allocator slab_allocator T := {
  al_make := allocate;
  al_free := deallocate;
  al_live s := live (as_pool s);
  al_room s := length (free_list (as_pool s));
  al_inv s := (∃ L, free_inv (as_pool s) L) ∧ slots_wf (slots_ s) }.

#[export] Instance slab_laws : AllocatorLaws slab_allocator T.
Proof.
  split.
  - intros sp v s [[L Hinv] Hwf] Hr. change (length (free_list (as_pool s)) = 0%nat) in Hr.
    rewrite (free_list_inv _ L) in Hr by done. apply length_zero_iff_nil in Hr as ->. apply allocate_end. apply (fi_chain _ _ Hinv).
  - intros sp v s [[L Hinv] Hwf] Hr. change (0 < length (free_list (as_pool s)))%nat in Hr.
    rewrite (free_list_inv _ L) in Hr by done. destruct L as [|i L]; cbn in Hr; [lia|].
    destruct (allocate_sim sp v s _ Hinv Hwf) as (a & s' & E & Em & Hwf').
    destruct (pool_make_spec sp v (as_pool s) _ Hinv) as (p' & Em' & Hinv' & Hn & Hnn & Hl).
    rewrite Em in Em'. injection Em' as -> Ep. rewrite <-Ep in *.
    exists (cell_addr (as_pool s) i), s'. cbn -[free_list live as_pool].
    rewrite (free_list_inv _ _ Hinv), (free_list_inv _ _ Hinv'). eauto 10.
  - done.
  - intros sp a v s [[L Hinv] Hwf] Ha.
    destruct (deallocate_sim sp s L a v Hinv Hwf Ha) as (s' & E & Ef & Hwf').
    destruct (pool_free_spec sp a v (as_pool s) L Hinv Ha) as (p' & i & -> & Ef' & Hinv' & Hl).
    rewrite Ef in Ef'. injection Ef' as Ep. rewrite <-Ep in *.
    exists s'. cbn -[free_list live as_pool]. rewrite (free_list_inv _ _ Hinv), (free_list_inv _ _ Hinv'). eauto 10.
Qed.

(** ** Construction *)

Definition link_cell (c : slot) (n : Z) : slot := Slot (storage c) (internal_index c) n.

Lemma slab_ctor_loop_spec fuel limit i mem :
  0 ≤ i ≤ limit → limit ≤ Z.of_nat (length mem) → limit < 2 ^ 32 →
  (Z.to_nat (limit - i) < fuel)%nat →
  ∃ mem', slab_ctor_loop fuel limit i mem = Some mem' ∧ length mem' = length mem ∧
    ∀ k, zget mem' k = if decide (i ≤ k < limit) then (λ c, link_cell c (u32 (k + 1))) <$> zget mem k
                       else zget mem k.
Proof.
  revert i mem. induction fuel as [|fuel IH]; intros i mem Hi Hlen Hlim Hf; [lia|].
  cbn [slab_ctor_loop]. destruct (Z.ltb_spec i limit) as [Hlt|Hge].
  - destruct (zget_is_Some mem i) as [c Hc]; [lia|]. unfold set_next. rewrite Hc. cbn [mbind option_bind].
    pose proof (zset_eq mem i (link_cell c (u32 (i + 1))) ltac:(lia)) as Hs.
    unfold link_cell in Hs at 1. rewrite Hs. cbn [mbind option_bind].
    rewrite (wrap_small 32 (i + 1)) in * by word_lia.
    destruct (IH (i + 1) (<[Z.to_nat i := link_cell c (i + 1)]> mem))
      as (mem' & E & Hl & Hg); rewrite ?length_insert in *; [lia..|].
    exists mem'. split; [done|]. split; [done|]. intros k.
    rewrite Hg, (zget_zset _ _ _ _ _ Hs).
    destruct (decide (i = k)) as [<-|]; repeat case_decide; try lia; try done.
    rewrite Hc. cbn. by rewrite (wrap_small 32) by word_lia.
  - exists mem. split; [done|]. split; [done|]. intros k. case_decide; [lia|done].
Qed.

Lemma list_zget_ext {A} (l k : list A) : (∀ i, zget l i = zget k i) → l = k.
Proof.
  intros H. apply list_eq. intros i. specialize (H (Z.of_nat i)). unfold zget in H.
  rewrite !decide_True in H by lia. by rewrite Nat2Z.id in H.
Qed.

(** Memory that holds no object; the links are whatever was there. *)
Definition raw_memory (raw : list slot) : Prop :=
  Forall (λ c, storage c = None ∧ in_word 32 (next_free c)) raw.

Lemma slab_ctor_fresh base csize raw :
  let cap := Z.of_nat (length raw) in
  1 ≤ cap ≤ END → 0 < base → 0 < csize → base + cap * csize ≤ 2 ^ 64 → raw_memory raw →
  ∃ s, slab_ctor base csize raw = Some (Built s) ∧ al_inv s ∧ al_live s = ∅ ∧
       al_room s = length raw.
Proof.
  intros cap Hcap Hb Hcs Hend Hraw. unfold slab_ctor. fold cap.
  rewrite (proj2 (Z.eqb_neq _ _)) by lia.
  rewrite (wrap_small 32) by (unfold in_word, END in *; lia).
  destruct (slab_ctor_loop_spec (S (length raw)) (cap - 1) 0 raw) as (mem1 & E1 & Hl1 & Hg1);
    [unfold END in *; lia..|]. rewrite E1. cbn [mbind option_bind].
  destruct (zget_is_Some mem1 (cap - 1)) as [c Hc]; [lia|]. unfold set_next. rewrite Hc.
  cbn [mbind option_bind].
  pose proof (zset_eq mem1 (cap - 1) (link_cell c END_OF_LIST) ltac:(lia)) as Hs.
  unfold link_cell in Hs at 1. rewrite Hs. cbn [mbind option_bind]. eexists. split; [done|].
  set (mem2 := <[_ := _]> mem1). set (s := Slab _ _ _ _).
  assert (∀ k, zget mem2 k = (λ c, link_cell c (if decide (k + 1 = cap) then END else k + 1)) <$> zget raw k)
    as Hg2.
  { intros k. unfold mem2. rewrite (zget_zset _ _ _ _ _ Hs). case_decide as Ek.
    - subst k. rewrite Hg1 in Hc. rewrite decide_False in Hc by lia. rewrite Hc. cbn.
      by rewrite decide_True by lia.
    - rewrite Hg1. case_decide as Hk.
      + rewrite decide_False by lia. by rewrite (wrap_small 32) by (unfold in_word, END in *; lia).
      + destruct (zget raw k) as [d|] eqn:Ed; [|done]. apply zget_Some_range in Ed. lia. }
  assert (∀ k d, zget raw k = Some d → storage d = None ∧ in_word 32 (next_free d)) as Hraw'.
  { intros k d Hd. unfold zget in Hd. case_decide; [|done]. by apply (Forall_lookup_1 _ _ _ _ Hraw Hd). }
  destruct (pool_ctor_fresh (T := T) base csize cap) as (p & Ep & Hinv & Hlive & Hfl); [done..|].
  assert (as_pool s = p) as Eas.
  { destruct (pool_ctor_cells (T := T) base csize cap Hcap) as (mem & Ep' & Hlm & Hgm).
    assert (p = Pool mem 0 base csize) as -> by congruence. unfold s, as_pool. cbn. f_equal.
    apply list_zget_ext. intros k. rewrite zget_fmap, Hg2.
    destruct (zget raw k) as [d|] eqn:Ed.
    - pose proof (zget_Some_range _ _ _ Ed). rewrite Hgm by lia. cbn. unfold as_cell. cbn.
      by rewrite (proj1 (Hraw' _ _ Ed)).
    - cbn. symmetry. destruct (zget mem k) eqn:Em; [|done]. apply zget_Some_range in Em.
      destruct (zget_is_Some raw k) as [x Hx]; [lia|]. congruence. }
  cbn -[live free_list as_pool]. rewrite Eas, Hlive, Hfl, length_seqZ.
  split; [split; [by exists (seqZ 0 cap)|]|split; [done|lia]].
  intros k d. rewrite Hg2. destruct (zget raw k) as [x|] eqn:Ex; [|done]. intros [= <-]. cbn.
  pose proof (zget_Some_range _ _ _ Ex). split; [|left; by apply (Hraw' _ _ Ex)].
  unfold in_word, END in *. case_decide; lia.
Qed.

(** ** Properties *)

(** The slab loses and invents no slot: a slab of capacity [n] throws for
    [n = 0]; otherwise, after any sequence of [allocate] calls and
    [deallocate] calls of live objects, under any schedules of spurious CAS
    failures, free slots plus live objects is [n], and [allocate] returns a
    slot that holds no live object, or [nullptr] exactly when all [n] are
    live. *)
Theorem slab_conservation base csize raw :
  let cap := Z.of_nat (length raw) in
  0 ≤ cap ≤ END → 0 < base → 0 < csize → base + cap * csize ≤ 2 ^ 64 → raw_memory raw →
  (cap = 0 → slab_ctor base csize raw = Some Thrown) ∧
  (cap ≠ 0 → ∃ s, slab_ctor base csize raw = Some (Built s) ∧
     ∀ s', rtc al_step s s' →
       (al_room s' + size (al_live s'))%nat = length raw ∧
       ∀ sp v, ∃ a s'', allocate sp v s' = Some (a, s'') ∧ al_live s' !! a = None ∧
         (a = nullptr ↔ Z.of_nat (size (al_live s')) = cap)).
Proof.
  intros cap Hcap Hb Hcs Hend Hraw. split.
  { intros E. unfold slab_ctor. fold cap. by rewrite E. }
  intros Hne. destruct (slab_ctor_fresh base csize raw) as (s & E & Hi & Hl & Hr); [fold cap; lia|done..|].
  exists s. split; [done|]. intros s' Hs.
  destruct (al_steps_total s s') as [Hi' Ht]; [done..|]. rewrite Hl, Hr, map_size_empty in Ht.
  split; [lia|]. intros sp v.
  destruct (al_make_cases sp v s') as [[H0 Em]|(a & s'' & Em & Ha & Hf & _ & Hrm & _)]; [done|..].
  - exists nullptr, s'. split; [done|]. split; [|split; [lia|done]].
    destruct Hi' as [[L Hinv] _]. apply eq_None_not_Some. intros [u Hu].
    apply live_lookup in Hu as (i & Ei & Hu); [|apply Hinv]. symmetry in Ei.
    apply cell_addr_nonnull in Ei; [done|apply Hinv|]. apply zget_Some_range in Hu. lia.
  - exists a, s''. split; [done|]. split; [done|]. split; [done|lia].
Qed.

End slab.

Arguments slot T : clear implicits.
Arguments slab_allocator T : clear implicits.

(** ** Witness: a slab of three slots *)

Lemma slab_conservation_witness :
  ∃ s a s', slab_ctor 4096 64 (replicate 3 (Slot (T := Z) None 0 0)) = Some (Built s) ∧
    allocate [true] 7 s = Some (a, s') ∧ a ≠ nullptr.
Proof.
  destruct (slab_conservation 4096 64 (replicate 3 (Slot (T := Z) None 0 0))) as [_ H];
    [unfold END; cbn; lia|lia|lia|cbn; lia|by repeat constructor|].
  destruct H as (s & E & Hs); [done|]. destruct (Hs s (rtc_refl _ _)) as [Hr Hm].
  destruct (Hm [true] 7) as (a & s' & Ea & _ & Hnull). exists s, a, s'. split; [done|]. split; [done|].
  intros E0. apply Hnull in E0. vm_compute in E. injection E as <-. vm_compute in E0. discriminate E0.
Defined.
