(* ===== verification/PinnedSlab.v ===== *)
(** * The pinned slab allocator (include/conduit/pending/core/pinned_slab_allocator.hpp)

    A free list threaded through page-locked blocks, with a plain 32-bit head
    index: unlike the pool and the slab, the head carries no tag.  Used by one
    thread at a time it is a correct allocator, which the first half shows; the
    second half interleaves threads and shows that the missing tag admits the
    ABA problem, with one block handed to two owners.

    The last part models the constructor and the destructor against the answers
    of the system, in both branches ([mmap] and [mlock], or [VirtualAlloc] and
    [VirtualLock]): the mappings and the locks of the process are what they were
    after either. *)

From S2P Require Import Prelude EventPtr Interfaces Pool Platform.

Local Open Scope Z_scope.

Section pinned.
Context {T : Type}.

(** A block holds an object, or the index of the next free block in its first
    four bytes. *)
Record pinned_slab := Pinned {
  raw_memory_ : list (cell T);
  head_index_ : Z;
  free_count_ : Z;
  base_ : Z;
  sizeof_ : Z }.

Implicit Types (s : pinned_slab) (v : T) (sp : list bool).

(** The constructor after the memory was obtained; [i] runs in [uint32_t]. *)
Fixpoint pinned_ctor_loop (fuel : nat) (limit i : Z) (mem : list (cell T)) : option (list (cell T)) :=
  match fuel with
  | O => None
  | S fuel' =>
      if i <? limit then
        mem' ← zset mem i (Next (u32 (i + 1)));
        pinned_ctor_loop fuel' limit (u32 (i + 1)) mem'
      else Some mem
  end.

Definition pinned_ctor (base csize PoolSize : Z) (mem : list (cell T)) : option pinned_slab :=
  mem1 ← pinned_ctor_loop (S (Z.to_nat PoolSize)) (u64 (PoolSize - 1)) 0 mem;
  mem2 ← zset mem1 (u64 (PoolSize - 1)) (Next 0xFFFFFFFF);
  Some (Pinned mem2 0 PoolSize base csize).

(** [allocate()]: the loop, then the count, then the new object. *)
Fixpoint pinned_allocate_loop sp v (current_head : Z) s : option (Z * pinned_slab) :=
  if current_head =? 0xFFFFFFFF then Some (nullptr, s)
  else
    next_head ← read_next (raw_memory_ s) current_head;
    match compare_exchange_weak (hd false sp) (head_index_ s) current_head next_head with
    | (true, cur, _) =>
        mem ← zset (raw_memory_ s) current_head (Data v);
        Some (base_ s + current_head * sizeof_ s,
              Pinned mem cur (u64 (free_count_ s - 1)) (base_ s) (sizeof_ s))
    | (false, cur, head') =>
        match sp with
        | [] => None
        | _ :: sp' => pinned_allocate_loop sp' v head'
                        (Pinned (raw_memory_ s) cur (free_count_ s) (base_ s) (sizeof_ s))
        end
    end.

Definition pinned_allocate sp v s : option (Z * pinned_slab) :=
  pinned_allocate_loop sp v (head_index_ s) s.

Fixpoint pinned_free_loop sp (block_index current_head : Z) s : option pinned_slab :=
  mem ← zset (raw_memory_ s) block_index (Next current_head);
  match compare_exchange_weak (hd false sp) (head_index_ s) current_head block_index with
  | (true, cur, _) => Some (Pinned mem cur (u64 (free_count_ s + 1)) (base_ s) (sizeof_ s))
  | (false, cur, head') =>
      match sp with
      | [] => None
      | _ :: sp' => pinned_free_loop sp' block_index head'
                      (Pinned mem cur (free_count_ s) (base_ s) (sizeof_ s))
      end
  end.

(** [deallocate(ptr)]: pointers outside the memory are ignored; the object is
    not destroyed. *)
Definition pinned_deallocate sp (ptr : Z) s : option pinned_slab :=
  let limit := base_ s + Z.of_nat (length (raw_memory_ s)) * sizeof_ s in
  if (ptr =? nullptr) || (ptr <? base_ s) || (limit <=? ptr) then Some s
  else
    let block_index := u32 ((ptr - base_ s) `div` sizeof_ s) in
    pinned_free_loop sp block_index (head_index_ s) s.

Definition get_free_count s : Z := free_count_ s.

(** ** One thread: a correct allocator *)

Definition pinned_pool s : pool T := Pool (raw_memory_ s) (head_index_ s) (base_ s) (sizeof_ s).

Definition links_wf (mem : list (cell T)) : Prop :=
  ∀ i n, zget mem i = Some (Next n) → in_word 32 n.

Record pinned_inv s (L : list Z) : Prop := {
  pi_free : free_inv (pinned_pool s) L;
  pi_head : in_word 32 (head_index_ s);
  pi_links : links_wf (raw_memory_ s);
  pi_count : free_count_ s = Z.of_nat (length L) }.

(** The invariant of the free list only looks at the low half of the head. *)
Lemma free_inv_head (mem : list (cell T)) h h' d z L :
  free_inv (Pool mem h d z) L → in_word 64 h' → h' `mod` 2 ^ 32 = h `mod` 2 ^ 32 →
  free_inv (Pool mem h' d z) L.
Proof. intros [] Hw E. split; cbn in *; try done. by rewrite E. Qed.

Lemma links_wf_insert mem i c :
  links_wf mem → match c with Next n => in_word 32 n | Data _ => True end →
  0 ≤ i < Z.of_nat (length mem) → links_wf (<[Z.to_nat i := c]> mem).
Proof.
  intros Hw Hc Hi j n. rewrite (zget_zset mem i c) by (by apply zset_eq).
  case_decide; [|apply Hw]. intros [= ->]. done.
Qed.

Lemma in_word_32_64 x : in_word 32 x → in_word 64 x.
Proof. unfold in_word. lia. Qed.

(** The free list is no longer than the memory. *)
Lemma free_inv_length (p : pool T) L : free_inv p L → (length L ≤ length (memory_ p))%nat.
Proof.
  intros Hf. replace (length (memory_ p)) with (length (seqZ 0 (Z.of_nat (length (memory_ p)))))
    by (rewrite length_seqZ; lia).
  apply submseteq_length, NoDup_submseteq; [apply Hf|]. intros i Hi. apply elem_of_seqZ.
  destruct (chain_elem _ _ _ _ (fi_chain _ _ Hf) Hi) as (n & Hn & _).
  apply zget_Some_range in Hn. lia.
Qed.

Lemma pinned_allocate_empty sp v s :
  pinned_inv s [] → pinned_allocate sp v s = Some (nullptr, s).
Proof.
  intros [Hf Hh _ _]. pose proof (fi_chain _ _ Hf) as Hc. cbn in Hc.
  rewrite Z.mod_small in Hc by apply Hh. unfold pinned_allocate.
  destruct sp; cbn [pinned_allocate_loop]; by rewrite Hc.
Qed.

Lemma pinned_allocate_take sp v s i L :
  pinned_inv s (i :: L) →
  ∃ s', pinned_allocate sp v s = Some (cell_addr (pinned_pool s) i, s') ∧ pinned_inv s' L ∧
        live (pinned_pool s') = <[cell_addr (pinned_pool s) i := v]> (live (pinned_pool s)).
Proof.
  intros [Hf Hh Hl Hcnt]. pose proof (fi_chain _ _ Hf) as (Ei & Hir & n & Hn & _).
  cbn in Ei, Hn. rewrite Z.mod_small in Ei by apply Hh. pose proof (zget_Some_range _ _ _ Hn) as Hr.
  pose proof (Hl _ _ Hn) as Hnw.
  assert (pinned_allocate sp v s = Some (base_ s + i * sizeof_ s,
    Pinned (<[Z.to_nat i := Data v]> (raw_memory_ s)) n (u64 (free_count_ s - 1)) (base_ s) (sizeof_ s))) as E.
  { unfold pinned_allocate. induction sp as [|b sp IH]; cbn [pinned_allocate_loop];
      rewrite Ei, (proj2 (Z.eqb_neq i 0xFFFFFFFF)) by (unfold END in *; lia);
      unfold read_next; rewrite Hn; cbn [mbind option_bind]; unfold compare_exchange_weak;
      rewrite Z.eqb_refl; cbn [hd].
    - cbn [negb andb]. by rewrite zset_eq.
    - destruct b; cbn [negb andb]; [|by rewrite zset_eq]. rewrite Ei in IH.
      destruct s as [mem h c d z]. cbn in Ei. subst h. exact IH. }
  eexists. split; [exact E|].
  pose proof (popped_inv (pinned_pool s) i L n v Hf Hn) as Hp. split.
  - split; cbn.
    + eapply free_inv_head; [exact Hp|by apply in_word_32_64|].
      rewrite bump_idx; [by apply Z.mod_small, Hnw|apply (fi_word _ _ Hf)|done].
    + done.
    + by apply links_wf_insert.
    + rewrite Hcnt. cbn [length]. rewrite wrap_small; [lia|].
      pose proof (fi_layout _ _ Hf) as (Hlen & _). pose proof (fi_nodup _ _ Hf) as Hnd.
      assert (length (i :: L) ≤ length (raw_memory_ s))%nat as Hle.
      { apply (free_inv_length (pinned_pool s) (i :: L) Hf). }
      cbn in Hle, Hlen. unfold in_word, END in *. lia.
  - apply (live_popped (pinned_pool s) i n v); [apply Hf|done].
Qed.

Lemma pinned_free_push sp v s i L :
  pinned_inv s L → zget (raw_memory_ s) i = Some (Data v) →
  ∃ s', pinned_deallocate sp (cell_addr (pinned_pool s) i) s = Some s' ∧ pinned_inv s' (i :: L) ∧
        live (pinned_pool s') = delete (cell_addr (pinned_pool s) i) (live (pinned_pool s)).
Proof.
  intros [Hf Hh Hl Hcnt] Hv. pose proof (zget_Some_range _ _ _ Hv) as Hr.
  pose proof (fi_layout _ _ Hf) as Hlay. pose proof Hlay as (Hl1 & Hl2 & Hl3 & Hl4). cbn in Hl1, Hl2, Hl3, Hl4.
  pose proof (pushed_inv (pinned_pool s) i L v Hf Hv) as Hp.
  pose proof (live_pushed (pinned_pool s) i Hlay Hr) as Hlive.
  assert (Z.land (head_index_ s) 0xFFFFFFFF = head_index_ s) as Hland.
  { rewrite land_mask32. apply Z.mod_small, Hh. }
  assert (pinned_free_loop sp i (head_index_ s) s =
    Some (Pinned (<[Z.to_nat i := Next (head_index_ s)]> (raw_memory_ s)) i
            (u64 (free_count_ s + 1)) (base_ s) (sizeof_ s))) as E.
  { clear -Hr. revert s Hr. induction sp as [|b sp IH]; intros s Hr; cbn [pinned_free_loop];
      rewrite zset_eq by done; cbn [mbind option_bind]; unfold compare_exchange_weak;
      rewrite Z.eqb_refl; cbn [hd]; [done|].
    destruct b; cbn [negb andb]; [|done]. set (s1 := Pinned _ _ _ _ _).
    change (head_index_ s) with (head_index_ s1) at 1. rewrite (IH s1) by (cbn; by rewrite length_insert).
    cbn. by rewrite list_insert_insert_eq. }
  assert (pinned_deallocate sp (cell_addr (pinned_pool s) i) s = pinned_free_loop sp i (head_index_ s) s) as Ed.
  { unfold pinned_deallocate, cell_addr. cbn [pinned_pool data_ sizeof_cell].
    rewrite (proj2 (Z.eqb_neq _ _)) by (unfold nullptr; nia).
    rewrite (proj2 (Z.ltb_ge _ _)) by nia. rewrite (proj2 (Z.leb_gt _ _)) by nia. cbn [orb].
    replace (base_ s + i * sizeof_ s - base_ s) with (i * sizeof_ s) by lia.
    rewrite Z.div_mul by lia. rewrite (wrap_small 32) by (unfold in_word, END in *; lia). done. }
  eexists. split; [by rewrite Ed|]. unfold pushed in Hp, Hlive. cbn [pinned_pool memory_ free_head_ data_ sizeof_cell] in Hp, Hlive.
  rewrite Hland in Hp, Hlive. split; [|exact Hlive].
  assert (in_word 32 i) as Hiw by (unfold in_word, END in *; lia). split; cbn.
  - eapply free_inv_head; [exact Hp|by apply in_word_32_64|].
    rewrite bump_idx; [by apply Z.mod_small, Hiw|apply (fi_word _ _ Hf)|done].
  - done.
  - by apply links_wf_insert.
  - rewrite Hcnt, wrap_small; [cbn [length]; lia|].
    pose proof (free_inv_length _ _ Hf) as Hle. cbn in Hle. unfold in_word, END in *. lia.
Qed.

#[export] Instance pinned_is_allocator : Allocator pinned_slab T := {
  al_make := pinned_allocate;
  al_free := pinned_deallocate;
  al_live s := live (pinned_pool s);
  al_room s := Z.to_nat (get_free_count s);
  al_inv s := ∃ L, pinned_inv s L }.

#[export] Instance pinned_laws : AllocatorLaws pinned_slab T.
Proof.
  split.
  - intros sp v s [L Hi] Hr. cbn in Hr. unfold get_free_count in Hr. rewrite (pi_count _ _ Hi) in Hr.
    destruct L; [|cbn in Hr; lia]. by apply pinned_allocate_empty.
  - intros sp v s [L Hi] Hr. cbn in Hr. unfold get_free_count in Hr. rewrite (pi_count _ _ Hi) in Hr.
    destruct L as [|i L]; [cbn in Hr; lia|].
    destruct (pinned_allocate_take sp v s i L Hi) as (s' & E & Hi' & Hl).
    pose proof (fi_chain _ _ (pi_free _ _ Hi)) as (_ & Hir & n & Hn & _).
    pose proof (fi_layout _ _ (pi_free _ _ Hi)) as Hlay.
    exists (cell_addr (pinned_pool s) i), s'. cbn -[live pinned_pool]. unfold get_free_count.
    rewrite (pi_count _ _ Hi), (pi_count _ _ Hi'). split_and!; [done| | |done| |by exists L].
    + apply cell_addr_nonnull; [done|lia].
    + by eapply live_free_cell.
    + cbn [length]. lia.
  - intros sp s _. done.
  - intros sp a v s [L Hi] Ha. pose proof (fi_layout _ _ (pi_free _ _ Hi)) as Hlay.
    apply live_lookup in Ha as (i & -> & Hv); [|done].
    destruct (pinned_free_push sp v s i L Hi Hv) as (s' & E & Hi' & Hl).
    exists s'. cbn -[live pinned_pool]. unfold get_free_count.
    rewrite (pi_count _ _ Hi), (pi_count _ _ Hi'). split_and!; [done|done| |by exists (i :: L)].
    cbn [length]. lia.
Qed.

(** Used by one thread, the pinned slab is a correct allocator: from any
    well-formed state, every sequence of allocations and of deallocations of
    live blocks keeps free blocks plus live blocks constant, and the published
    [free_count_] is the number of free blocks. *)
Theorem pinned_conservation s s' :
  (∃ L, pinned_inv s L) → rtc al_step s s' →
  (∃ L, pinned_inv s' L ∧ get_free_count s' = Z.of_nat (length L)) ∧
  get_free_count s' + Z.of_nat (size (live (pinned_pool s')))
  = get_free_count s + Z.of_nat (size (live (pinned_pool s))).
Proof.
  intros Hi Hs. assert (al_inv s) as Ha by exact Hi.
  destruct (al_steps_total s s') as [[L' Hi'] Ht]; [done..|].
  split; [exists L'; split; [done|apply Hi']|]. cbn -[live pinned_pool] in Ht.
  destruct Hi as [L Hi]. unfold get_free_count in *.
  rewrite (pi_count _ _ Hi), (pi_count _ _ Hi') in *. lia.
Qed.

End pinned.

Arguments pinned_slab T : clear implicits.

(** ** Many threads: the ABA problem *)

Module PinnedMT.

(** A thread inside [allocate] or [deallocate]. *)
Inductive pc :=
  | ALoaded (head : Z)          (* current_head loaded *)
  | ARead (head next : Z)       (* next_head read from the block *)
  | AWon (head : Z)             (* the exchange succeeded; count and construct follow *)
  | DLoaded (i head : Z)        (* deallocating block i, current_head loaded *)
  | DWritten (i head : Z)       (* the block's link was written *)
  | DWon.                       (* the exchange succeeded; the count follows *)

Record state := State {
  links : list Z;              (* the first four bytes of each block, link or event *)
  head_index : Z;
  free_count : Z;
  pcs : gmap nat pc;
  given : list Z }.            (* blocks in the hands of callers *)

Inductive label :=
  | AStart (t : nat)           (* call allocate, load the head *)
  | ANext (t : nat)            (* test for the end, read the link *)
  | ACas (t : nat) (spurious : bool)   (* compare_exchange_weak *)
  | ADone (t : nat) (word : Z) (* fetch_sub, placement new, return the block *)
  | DStart (t : nat) (i : Z)   (* call deallocate on an owned block, load the head *)
  | DLink (t : nat)            (* write the link *)
  | DCas (t : nat) (spurious : bool)   (* compare_exchange_weak *)
  | DDone (t : nat).           (* fetch_add, return *)

Definition set_pc (t : nat) (p : pc) (s : state) : state :=
  State (links s) (head_index s) (free_count s) (<[t := p]> (pcs s)) (given s).

(** Remove one occurrence. *)
Fixpoint remove1 (i : Z) (l : list Z) : option (list Z) :=
  match l with
  | [] => None
  | j :: l' => if i =? j then Some l' else cons j <$> remove1 i l'
  end.

(** [word] is what the constructed event has in its first four bytes, where the
    link was. *)
Definition step (l : label) (s : state) : option state :=
  match l with
  | AStart t =>
      match pcs s !! t with
      | None => Some (set_pc t (ALoaded (head_index s)) s)
      | Some _ => None
      end
  | ANext t =>
      match pcs s !! t with
      | Some (ALoaded h) =>
          if h =? 0xFFFFFFFF
          then Some (State (links s) (head_index s) (free_count s) (delete t (pcs s)) (given s))
          else n ← zget (links s) h; Some (set_pc t (ARead h n) s)
      | _ => None
      end
  | ACas t spurious =>
      match pcs s !! t with
      | Some (ARead h n) =>
          match compare_exchange_weak spurious (head_index s) h n with
          | (true, cur, _) => Some (State (links s) cur (free_count s) (<[t := AWon h]> (pcs s)) (given s))
          | (false, _, h') => Some (set_pc t (ALoaded h') s)
          end
      | _ => None
      end
  | ADone t word =>
      match pcs s !! t with
      | Some (AWon h) =>
          ls ← zset (links s) h (u32 word);
          Some (State ls (head_index s) (u64 (free_count s - 1)) (delete t (pcs s)) (h :: given s))
      | _ => None
      end
  | DStart t i =>
      match pcs s !! t with
      | None =>
          rest ← remove1 i (given s);
          Some (State (links s) (head_index s) (free_count s)
                  (<[t := DLoaded i (head_index s)]> (pcs s)) rest)
      | Some _ => None
      end
  | DLink t =>
      match pcs s !! t with
      | Some (DLoaded i h) =>
          ls ← zset (links s) i h;
          Some (State ls (head_index s) (free_count s) (<[t := DWritten i h]> (pcs s)) (given s))
      | _ => None
      end
  | DCas t spurious =>
      match pcs s !! t with
      | Some (DWritten i h) =>
          match compare_exchange_weak spurious (head_index s) h i with
          | (true, cur, _) => Some (State (links s) cur (free_count s) (<[t := DWon]> (pcs s)) (given s))
          | (false, _, h') => Some (set_pc t (DLoaded i h') s)
          end
      | _ => None
      end
  | DDone t =>
      match pcs s !! t with
      | Some DWon => Some (State (links s) (head_index s) (u64 (free_count s + 1)) (delete t (pcs s)) (given s))
      | _ => None
      end
  end.

Fixpoint exec (ls : list label) (s : state) : option state :=
  match ls with [] => Some s | l :: ls' => s' ← step l s; exec ls' s' end.

(** A fresh slab of [n] blocks. *)
Definition start (n : nat) : state :=
  State (omap (λ i, Some (if (i =? n - 1)%nat then 0xFFFFFFFF else Z.of_nat i + 1)) (seq 0 n))
    0 (Z.of_nat n) ∅ [].

(** Thread 1 reads head 0 and its successor 1 and is interrupted; thread 2
    takes blocks 0 and 1 and gives 0 back; the exchange of thread 1 succeeds
    and makes the live block 1 the head. *)
Definition aba : list label :=
  [AStart 1; ANext 1;
   AStart 2; ANext 2; ACas 2 false; ADone 2 77;
   AStart 2; ANext 2; ACas 2 false; ADone 2 78;
   DStart 2 0; DLink 2; DCas 2 false; DDone 2;
   ACas 1 false; ADone 1 79;
   AStart 1; ANext 1; ACas 1 false; ADone 1 80].

(** C39: With several threads the pinned slab is not safe: an interleaving of
    allocations and correct deallocations reaches a state in which the same
    block is in the hands of two callers.  The head index has no tag, so the
    compare-exchange cannot tell that the head was removed and put back. *)
Theorem pinned_double_allocation :
  ∃ ls s, exec ls (start 3) = Some s ∧ given s = [1; 0; 1] ∧ ¬ NoDup (given s).
Proof.
  exists aba. destruct (exec aba (start 3)) as [s|] eqn:E; [|vm_compute in E; discriminate E].
  exists s. assert (given s = [1; 0; 1]) as Hg by (vm_compute in E; by injection E as <-).
  split; [done|]. split; [done|]. rewrite Hg. intros H. apply NoDup_cons in H as [H _].
  apply H. right. by left.
Qed.

End PinnedMT.

(** ** Obtaining and returning the memory *)

Module PinnedOs.

(** The mappings of the process and the addresses locked in memory. *)
Record os := Os { mapped : gmap Z Z; locked : gset Z }.

Definition MAP_FAILED : Z := 2 ^ 64 - 1.

(** The exceptions, and the lines on [std::cout]. *)
Inductive os_error := MmapFailed | MlockFailed | VirtualAllocFailed | VirtualLockFailed.
Inductive message := Requesting (megabytes : Z) | Initialized.

Section os.
Context {T : Type} (sys : platform) (csize PoolSize : Z).

Definition total_bytes : Z := u64 (csize * PoolSize).

(** The answers that report failure: of [mmap] or [VirtualAlloc], and of [mlock]
    (not 0) or [VirtualLock] (0). *)
Definition map_failed (res : Z) : bool := match sys with Win32 => res =? nullptr | Posix => res =? MAP_FAILED end.
Definition lock_failed (res : Z) : bool := match sys with Win32 => res =? 0 | Posix => negb (res =? 0) end.

(** The calls with their answers: [mmap] or [VirtualAlloc]; [mlock] or
    [VirtualLock]; [munlock] or [VirtualUnlock]; [munmap] or [VirtualFree]. *)
Definition os_map (res : Z) (o : os) : os :=
  if map_failed res then o else Os (<[res := total_bytes]> (mapped o)) (locked o).
Definition os_lock (addr res : Z) (o : os) : os :=
  if lock_failed res then o else Os (mapped o) ({[addr]} ∪ locked o).
Definition os_unlock (addr : Z) (o : os) : os := Os (mapped o) (locked o ∖ {[addr]}).
Definition os_unmap (addr : Z) (o : os) : os := Os (delete addr (mapped o)) (locked o).

(** The constructor, given the answers of the system and the contents of the
    memory; an error is thrown as [inl]. *)
Definition pinned_construct (map_res lock_res : Z) (mem : list (cell T)) (o : os)
    : option ((os_error + pinned_slab T) * list message * os) :=
  let said := [Requesting ((total_bytes `div` 1024) `div` 1024)] in
  let o1 := os_map map_res o in
  if map_failed map_res
  then Some (inl match sys with Win32 => VirtualAllocFailed | Posix => MmapFailed end, said, o1)
  else
    let o2 := os_lock map_res lock_res o1 in
    if lock_failed lock_res
    then Some (inl match sys with Win32 => VirtualLockFailed | Posix => MlockFailed end, said, os_unmap map_res o2)
    else s ← pinned_ctor map_res csize PoolSize mem; Some (inr s, said ++ [Initialized], o2).

(** The destructor. *)
Definition pinned_dtor (s : pinned_slab T) (o : os) : os :=
  let owned := match sys with
               | Win32 => negb (base_ s =? nullptr)
               | Posix => negb (base_ s =? nullptr) && negb (base_ s =? MAP_FAILED)
               end in
  if owned then os_unmap (base_ s) (os_unlock (base_ s) o) else o.

(** The operations leave the address of the memory alone. *)
Lemma pinned_step_base (s s' : pinned_slab T) : al_step s s' → base_ s' = base_ s.
Proof.
  assert (∀ sp v h (s s' : pinned_slab T) a, pinned_allocate_loop sp v h s = Some (a, s') → base_ s' = base_ s) as Ha.
  { clear. induction sp as [|b sp IH]; intros v h s s' a E; cbn [pinned_allocate_loop] in E;
      (destruct (h =? _); [by inv_some|]); destruct (read_next _ _) as [n|]; try done;
      cbn [mbind option_bind] in E; unfold compare_exchange_weak in E; destruct (negb _ && _); try done.
    - destruct (zset _ _ _); [|done]. cbn in E. by inv_some.
    - destruct (zset _ _ _); [|done]. cbn in E. by inv_some.
    - by apply IH in E. }
  assert (∀ sp i h (s s' : pinned_slab T), pinned_free_loop sp i h s = Some s' → base_ s' = base_ s) as Hf.
  { clear. induction sp as [|b sp IH]; intros i h s s' E; cbn [pinned_free_loop] in E;
      destruct (zset _ _ _) as [mem|]; try done;
      cbn [mbind option_bind] in E; unfold compare_exchange_weak in E; destruct (negb _ && _); try done.
    - by inv_some.
    - by inv_some.
    - by apply IH in E. }
  intros [(sp & v & a & E)|(sp & a & v & _ & E)]; [by eapply Ha, E|].
  cbn in E. unfold pinned_deallocate in E. destruct (_ || _); [by inv_some|by eapply Hf, E].
Qed.

Lemma pinned_ctor_base base mem s :
  pinned_ctor (T := T) base csize PoolSize mem = Some s → base_ s = base.
Proof.
  unfold pinned_ctor. destruct (pinned_ctor_loop _ _ _ _) as [m1|]; [|done]. cbn [mbind option_bind].
  destruct (zset _ _ _) as [m2|]; [|done]. cbn. intros. by inv_some.
Qed.

(** The system's memory is returned on every path, on both platforms: a
    constructor that throws, because the memory could not be mapped or locked,
    leaves no mapping and no lock behind and has not announced the slab; and
    after a constructor that succeeds, any use of the allocator and the
    destructor, mappings and locks are what they were. *)
Lemma pinned_os_balanced map_res lock_res mem o r said o' :
  mapped o !! map_res = None → map_res ∉ locked o → map_res ≠ nullptr ∨ sys = Win32 →
  pinned_construct map_res lock_res mem o = Some (r, said, o') →
  match r with
  | inl e => o' = o ∧ ¬ (Initialized ∈ said) ∧
             e = (if map_failed map_res then match sys with Win32 => VirtualAllocFailed | Posix => MmapFailed end
                  else match sys with Win32 => VirtualLockFailed | Posix => MlockFailed end)
  | inr s => map_failed map_res = false ∧ lock_failed lock_res = false ∧
             mapped o' = <[map_res := total_bytes]> (mapped o) ∧ locked o' = {[map_res]} ∪ locked o ∧
             ∀ s', rtc al_step s s' → pinned_dtor s' o' = o
  end.
Proof.
  intros Hm Hl Hnn. unfold pinned_construct, os_map, os_lock.
  assert (∀ mb, Initialized ∉ [Requesting mb]) as Hsaid by (intros mb [?|?%elem_of_nil]%elem_of_cons; done).
  destruct (map_failed map_res) eqn:Ef; [intros; inv_some; by split_and!|].
  destruct (lock_failed lock_res) eqn:Elk.
  - intros. inv_some. split_and!; [|done..]. unfold os_unmap. cbn [mapped locked]. destruct o as [m l]. cbn in *.
    by rewrite delete_insert_id.
  - destruct (pinned_ctor _ _ _ _) as [s|] eqn:E; [|done]. cbn [mbind option_bind]. intros. inv_some.
    apply pinned_ctor_base in E. split_and!; [done..|]. intros s' Hs.
    assert (base_ s' = map_res) as Eb.
    { revert E. induction Hs as [|s1 s2 s3 H12 _ IH]; [done|]. intros E. apply IH.
      by rewrite (pinned_step_base _ _ H12). }
    assert (pinned_dtor s' (Os (<[map_res := total_bytes]> (mapped o)) ({[map_res]} ∪ locked o)) =
      os_unmap map_res (os_unlock map_res (Os (<[map_res := total_bytes]> (mapped o)) ({[map_res]} ∪ locked o)))) as ->.
    { unfold pinned_dtor. rewrite Eb. unfold map_failed in Ef. destruct sys; rewrite Ef; [done|].
      destruct Hnn as [Hnn|]; [|done]. by rewrite (proj2 (Z.eqb_neq _ _)). }
    unfold os_unmap, os_unlock. cbn [mapped locked]. destruct o as [m l]. cbn in *. f_equal.
    + by rewrite delete_insert_id.
    + set_solver.
Qed.

End os.
End PinnedOs.

(** ** Witness *)

Definition w_pinned : option (pinned_slab Z) := pinned_ctor 4096 64 2 (replicate 2 (Next 0)).

Lemma w_pinned_inv : ∃ s, w_pinned = Some s ∧ ∃ L, pinned_inv s L.
Proof.
  exists (Pinned [Next 1; Next 0xFFFFFFFF] 0 2 4096 64). split; [vm_compute; reflexivity|].
  destruct (pool_ctor_fresh (T := Z) 4096 64 2) as (p & E & Hinv & _); [unfold END; lia..|].
  assert (p = Pool [Next 1; Next 0xFFFFFFFF] 0 4096 64) as -> by (vm_compute in E; by injection E as <-).
  exists [0; 1]. split; [exact Hinv|unfold in_word; cbn; lia| |done].
  intros i n. unfold zget. case_decide; [|done]. cbn [raw_memory_].
  destruct (Z.to_nat i) as [|[|[|j]]]; cbn; intros E'; simplify_eq; unfold in_word; lia.
Qed.

Lemma pinned_conservation_witness :
  ∃ s a s', w_pinned = Some s ∧ pinned_allocate [true] 7 s = Some (a, s') ∧ get_free_count s' = 1.
Proof.
  destruct w_pinned_inv as (s & E & Hi). pose proof Hi as [L HL].
  destruct (pinned_allocate [true] 7 s) as [[a s']|] eqn:Ea;
    [|vm_compute in E; injection E as <-; vm_compute in Ea; discriminate Ea].
  destruct (pinned_conservation s s' Hi) as [_ Ht].
  { apply rtc_once. left. by exists [true], 7, a. }
  exists s, a, s'. split; [done|]. split; [done|].
  vm_compute in E. injection E as <-. vm_compute in Ea. injection Ea as _ <-. reflexivity.
Defined.
