(* ===== verification/TimingWheel.v ===== *)
(** * The timing wheel (include/conduit/pending/core/timing_wheel.hpp)

    Timers are nodes of a slab, linked into one doubly linked list per slot of
    the wheel.  The model keeps the nodes by index (the slab's [get_by_index]),
    the heads of the lists and the absolute tick.  The specification is a map
    from the scheduled nodes to the tick at which each is due; the wheel
    implements it ([wheel_refines]).  The file also shows what [cancel] does to
    a timer that has already expired. *)

From S2P Require Import Prelude.

Local Open Scope Z_scope.

Definition END_OF_LIST : Z := 0xFFFFFFFF.

Record timing_node := TNode {
  timer_next : Z;
  timer_prev : Z;
  wheel_bucket : Z }.

(** A node that was never scheduled. *)
Definition timing_node_ctor : timing_node := TNode END_OF_LIST END_OF_LIST END_OF_LIST.

Record timing_wheel := Wheel { buckets_ : list Z; current_tick_ : Z }.

Abbreviation nodes := (gmap Z timing_node).

Section wheel.
Context (WheelSlots : Z).

Definition SLOT_MASK : Z := u32 (WheelSlots - 1).

Definition wheel_ctor : timing_wheel :=
  Wheel (replicate (Z.to_nat WheelSlots) END_OF_LIST) 0.

(** [schedule(node_index, delay_ticks)]; [None] is an access to a node or a
    bucket that does not exist. *)
Definition schedule (node_index delay_ticks : Z) (w : timing_wheel) (ns : nodes)
    : option (timing_wheel * nodes) :=
  let delay_ticks := if WheelSlots <=? delay_ticks then u32 (WheelSlots - 1) else delay_ticks in
  let bucket_index := u32 (Z.land (u64 (current_tick_ w + delay_ticks)) SLOT_MASK) in
  _ ← ns !! node_index;
  head ← zget (buckets_ w) bucket_index;
  let ns1 := <[node_index := TNode head END_OF_LIST bucket_index]> ns in
  ns2 ← (if head =? END_OF_LIST then Some ns1
         else old_head ← ns1 !! head;
              Some (<[head := TNode (timer_next old_head) node_index (wheel_bucket old_head)]> ns1));
  buckets ← zset (buckets_ w) bucket_index node_index;
  Some (Wheel buckets (current_tick_ w), ns2).

(** [cancel(node_index)]. *)
Definition cancel (node_index : Z) (w : timing_wheel) (ns : nodes) : option (timing_wheel * nodes) :=
  node ← ns !! node_index;
  let bucket := wheel_bucket node in
  if bucket =? END_OF_LIST then Some (w, ns)
  else
    '(buckets, ns1) ←
      (if timer_prev node =? END_OF_LIST
       then b ← zset (buckets_ w) bucket (timer_next node); Some (b, ns)
       else prev ← ns !! timer_prev node;
            Some (buckets_ w,
                  <[timer_prev node := TNode (timer_next node) (timer_prev prev) (wheel_bucket prev)]> ns));
    ns2 ←
      (if timer_next node =? END_OF_LIST then Some ns1
       else next ← ns1 !! timer_next node;
            Some (<[timer_next node := TNode (timer_next next) (timer_prev node) (wheel_bucket next)]> ns1));
    node' ← ns2 !! node_index;
    Some (Wheel buckets (current_tick_ w),
          <[node_index := TNode (timer_next node') (timer_prev node') END_OF_LIST]> ns2).

(** [tick()]: the head of the list of expired timers. *)
Definition tick (w : timing_wheel) : option (Z * timing_wheel) :=
  let current_tick := u64 (current_tick_ w + 1) in
  let current_bucket := u32 (Z.land current_tick SLOT_MASK) in
  expired_head ← zget (buckets_ w) current_bucket;
  buckets ← zset (buckets_ w) current_bucket END_OF_LIST;
  Some (expired_head, Wheel buckets current_tick).

(** What the core does with the result of [tick]: follow [timer_next]. *)
Fixpoint expired (fuel : nat) (ns : nodes) (head : Z) : option (list Z) :=
  match fuel with
  | O => None
  | S fuel' =>
      if head =? END_OF_LIST then Some []
      else node ← ns !! head; rest ← expired fuel' ns (timer_next node); Some (head :: rest)
  end.

(** ** Doubly linked segments *)

(** [seg ns b p f L q l]: starting at [f], whose predecessor is [p], the nodes
    [L] of bucket [b] are linked; [q] is the last of them (or [p]) and [l]
    follows it. *)
Fixpoint seg (ns : nodes) (b p f : Z) (L : list Z) (q l : Z) : Prop :=
  match L with
  | [] => f = l ∧ p = q
  | i :: L' => f = i ∧ 0 ≤ i < END_OF_LIST ∧ ∃ n, ns !! i = Some (TNode n p b) ∧ seg ns b i n L' q l
  end.

Lemma seg_app ns b p f L1 L2 q l :
  seg ns b p f (L1 ++ L2) q l ↔ ∃ q' l', seg ns b p f L1 q' l' ∧ seg ns b q' l' L2 q l.
Proof.
  revert p f. induction L1 as [|i L1 IH]; intros p f; cbn.
  - split; [intros H; by exists p, f|]. by intros (q' & l' & [-> ->] & H).
  - split.
    + intros (-> & Hi & n & Hn & H). apply IH in H as (q' & l' & H1 & H2).
      exists q', l'. split; [|done]. eauto 6.
    + intros (q' & l' & (-> & Hi & n & Hn & H1) & H2). split; [done|]. split; [done|].
      exists n. split; [done|]. apply IH. eauto.
Qed.

(** Nodes outside the segment may change. *)
Lemma seg_frame ns ns' b p f L q l :
  (∀ i, i ∈ L → ns' !! i = ns !! i) → seg ns b p f L q l → seg ns' b p f L q l.
Proof.
  revert p f. induction L as [|i L IH]; intros p f Heq; cbn; [done|].
  intros (-> & Hi & n & Hn & H). split; [done|]. split; [done|]. exists n.
  split; [by rewrite Heq by left|]. apply IH; [|done]. intros j Hj. apply Heq. by right.
Qed.

Lemma seg_insert_out ns b p f L q l i nd :
  i ∉ L → seg ns b p f L q l → seg (<[i := nd]> ns) b p f L q l.
Proof. intros Hi. apply seg_frame. intros j Hj. apply lookup_insert_ne. by intros ->. Qed.

Lemma seg_node ns b p f L q l i :
  seg ns b p f L q l → i ∈ L → 0 ≤ i < END_OF_LIST ∧ ∃ nd, ns !! i = Some nd ∧ wheel_bucket nd = b.
Proof.
  revert p f. induction L as [|j L IH]; intros p f; [by intros _ ?%elem_of_nil|].
  intros (-> & Hi & n & Hn & H) [->|Hin]%elem_of_cons; [|by eapply IH]. split; [done|]. by eexists.
Qed.

(** Give the first node another predecessor. *)
Lemma seg_set_prev ns b p f L q l p' :
  NoDup L → seg ns b p f L q l → L ≠ [] →
  ∃ nd, ns !! f = Some nd ∧ timer_prev nd = p ∧ wheel_bucket nd = b ∧ f ∈ L ∧
        seg (<[f := TNode (timer_next nd) p' (wheel_bucket nd)]> ns) b p' f L q l.
Proof.
  destruct L as [|i L]; [done|]. intros Hnd (-> & Hi & n & Hn & H) _. apply NoDup_cons in Hnd as [Hni _].
  exists (TNode n p b). split_and!; try done; [by left|]. cbn. split; [done|]. split; [done|].
  exists n. split; [by rewrite lookup_insert_eq|]. by apply seg_insert_out.
Qed.

(** Give the last node another successor. *)
Lemma seg_set_next ns b p f L q l l' :
  NoDup L → seg ns b p f L q l → L ≠ [] →
  ∃ nd, ns !! q = Some nd ∧ wheel_bucket nd = b ∧ q ∈ L ∧ 0 ≤ q < END_OF_LIST ∧
        seg (<[q := TNode l' (timer_prev nd) (wheel_bucket nd)]> ns) b p f L q l'.
Proof.
  intros Hnd Hs Hne. destruct (exists_last Hne) as (L0 & x & ->).
  apply seg_app in Hs as (q' & f' & H1 & (-> & Hx & n & Hn & [-> ->])).
  apply NoDup_app in Hnd as (_ & Hnd & _). exists (TNode l q' b).
  split_and!; try done; try (apply elem_of_app; right; by left); try apply Hx. cbn [timer_prev wheel_bucket].
  apply seg_app. exists q', q. split.
  - apply seg_insert_out; [|done]. intros Hq. by apply (Hnd q Hq), list_elem_of_singleton.
  - cbn. split; [done|]. split; [done|]. exists l'. by rewrite lookup_insert_eq.
Qed.

(** ** The specification: when each timer is due *)

Definition pow2_slots : Prop := ∃ k, 0 ≤ k ≤ 31 ∧ WheelSlots = 2 ^ k.

(** The effective delay: long delays are cut to [WheelSlots - 1], and a delay
    of 0 waits for a full turn of the wheel. *)
Definition due_in (delay : Z) : Z :=
  let d := if WheelSlots <=? delay then WheelSlots - 1 else delay in
  if d =? 0 then WheelSlots else d.

(** The wheel represents [pending], a map from nodes to due ticks; [Ls b] is
    the list of bucket [b]. *)
Record wheel_rel (w : timing_wheel) (ns : nodes) (pending : gmap Z Z) (Ls : Z → list Z) : Prop := {
  wr_len : Z.of_nat (length (buckets_ w)) = WheelSlots;
  wr_time : 0 ≤ current_tick_ w;
  wr_lists b : 0 ≤ b < WheelSlots →
    NoDup (Ls b) ∧
    ∃ f q, zget (buckets_ w) b = Some f ∧ seg ns b END_OF_LIST f (Ls b) q END_OF_LIST;
  wr_elems b i : 0 ≤ b < WheelSlots →
    (i ∈ Ls b ↔ ∃ D, pending !! i = Some D ∧ D `mod` WheelSlots = b);
  wr_due i D : pending !! i = Some D → current_tick_ w < D ≤ current_tick_ w + WheelSlots }.

Section facts.
Context (HN : pow2_slots).

Lemma slots_range : 0 < WheelSlots ≤ 2 ^ 31.
Proof using HN.
  destruct HN as (k & Hk & ->). split; [apply Z.pow_pos_nonneg; lia|apply Z.pow_le_mono_r; lia].
Qed.

Lemma bucket_mod x : 0 ≤ x < 2 ^ 64 → u32 (Z.land (u64 x) SLOT_MASK) = x `mod` WheelSlots.
Proof using HN.
  intros Hx. pose proof slots_range. destruct HN as (k & Hk & E). unfold SLOT_MASK.
  rewrite (wrap_small 64), (wrap_small 32 (WheelSlots - 1)) by word_lia.
  rewrite E, land_pred_pow2 by lia. rewrite wrap_small; [done|].
  pose proof (Z.mod_pos_bound x (2 ^ k)). unfold in_word. lia.
Qed.

Lemma mod_slots x : 0 ≤ x `mod` WheelSlots < WheelSlots.
Proof using HN. pose proof slots_range. apply Z.mod_pos_bound. lia. Qed.

(** A node is in the list of at most one bucket. *)
Lemma in_one_list w ns pending Ls b b' i :
  wheel_rel w ns pending Ls → 0 ≤ b < WheelSlots → 0 ≤ b' < WheelSlots →
  i ∈ Ls b → i ∈ Ls b' → b = b'.
Proof.
  intros Hr Hb Hb' H1 H2. apply (wr_elems _ _ _ _ Hr) in H1 as (D & E & <-); [|done].
  apply (wr_elems _ _ _ _ Hr) in H2 as (D' & E' & <-); [|done]. congruence.
Qed.

(** Change one bucket: its list, its head and the nodes in it. *)
Lemma wheel_rel_update w ns ns' pending pending' Ls b L f q buckets :
  wheel_rel w ns pending Ls → 0 ≤ b < WheelSlots →
  zset (buckets_ w) b f = Some buckets →
  NoDup L → seg ns' b END_OF_LIST f L q END_OF_LIST →
  (∀ b' j, 0 ≤ b' < WheelSlots → b' ≠ b → j ∈ Ls b' → ns' !! j = ns !! j) →
  (∀ j, j ∈ L ↔ ∃ D, pending' !! j = Some D ∧ D `mod` WheelSlots = b) →
  (∀ j D, D `mod` WheelSlots ≠ b → (pending' !! j = Some D ↔ pending !! j = Some D)) →
  (∀ j D, pending' !! j = Some D → current_tick_ w < D ≤ current_tick_ w + WheelSlots) →
  wheel_rel (Wheel buckets (current_tick_ w)) ns' pending' (λ b', if decide (b' = b) then L else Ls b').
Proof.
  intros Hr Hb Hz Hnd Hseg Hframe Hel Hother Hdue. split; cbn [buckets_ current_tick_].
  - rewrite (zset_length _ _ _ _ Hz). apply Hr.
  - apply Hr.
  - intros b' Hb'. case_decide as Eb.
    + subst b'. split; [done|]. exists f, q. split; [|done]. rewrite (zget_zset _ _ _ _ _ Hz).
      by rewrite decide_True.
    + destruct (wr_lists _ _ _ _ Hr b' Hb') as (Hnd' & f' & q' & Hf' & Hs'). split; [done|].
      exists f', q'. rewrite (zget_zset _ _ _ _ _ Hz), decide_False by done. split; [done|].
      eapply seg_frame; [|exact Hs']. intros j Hj. by eapply Hframe.
  - intros b' j Hb'. case_decide as Eb; [subst b'; apply Hel|].
    rewrite (wr_elems _ _ _ _ Hr) by done. split; intros (D & E & Em); exists D;
      (split; [|done]); apply Hother; congruence || done.
  - apply Hdue.
Qed.

(** Putting a node in front of a segment. *)
Lemma link_head ns b f L q i nd :
  NoDup L → i ∉ L → 0 ≤ i < END_OF_LIST → ns !! i = Some nd → seg ns b END_OF_LIST f L q END_OF_LIST →
  let ns1 := <[i := TNode f END_OF_LIST b]> ns in
  ∃ ns2, (if f =? END_OF_LIST then Some ns1
          else old_head ← ns1 !! f; Some (<[f := TNode (timer_next old_head) i (wheel_bucket old_head)]> ns1))
         = Some ns2 ∧ dom ns2 = dom ns ∧ (∃ q', seg ns2 b END_OF_LIST i (i :: L) q' END_OF_LIST) ∧
         (∀ j, j ≠ i → j ∉ L → ns2 !! j = ns !! j).
Proof.
  intros HndL HiL Hi Hnd Hs ns1.
  assert (dom ns1 = dom ns) as Hd1 by (apply dom_insert_lookup_L; by eexists).
  assert (seg ns1 b END_OF_LIST f L q END_OF_LIST) as Hs1 by (by apply seg_insert_out).
  destruct (decide (L = [])) as [->|Hne].
  - destruct Hs as [-> _]. rewrite Z.eqb_refl. exists ns1. split_and!; try done.
    + exists i. cbn. split; [done|]. split; [done|]. exists END_OF_LIST. unfold ns1. by rewrite lookup_insert_eq.
    + intros j Hj _. by apply lookup_insert_ne.
  - destruct (seg_set_prev ns1 b END_OF_LIST f L q END_OF_LIST i HndL Hs1 Hne)
      as (old & Eold & _ & _ & HfL & Hs2).
    destruct (seg_node _ _ _ _ _ _ _ f Hs HfL) as [Hfr _].
    rewrite (proj2 (Z.eqb_neq _ _)) by lia. rewrite Eold. cbn [mbind option_bind].
    eexists. split; [done|]. split; [rewrite dom_insert_lookup_L; [done|by eexists]|]. split.
    + exists q. cbn. split; [done|]. split; [done|]. exists f. split; [|done].
      rewrite lookup_insert_ne by (intros ->; done). unfold ns1. by rewrite lookup_insert_eq.
    + intros j Hj HjL. rewrite lookup_insert_ne by (by intros <-). by apply lookup_insert_ne.
Qed.

(** The bucket of a timer is its due tick modulo the size of the wheel. *)
Lemma due_bucket now delay :
  0 ≤ now → 0 ≤ delay → now + WheelSlots < 2 ^ 64 →
  u32 (Z.land (u64 (now + (if WheelSlots <=? delay then u32 (WheelSlots - 1) else delay))) SLOT_MASK) =
    (now + due_in delay) `mod` WheelSlots ∧ 0 < due_in delay ≤ WheelSlots.
Proof using HN.
  intros Hnow Hd Hb64. pose proof slots_range as HNr. rewrite (wrap_small 32 (WheelSlots - 1)) by word_lia.
  unfold due_in. set (e := if WheelSlots <=? delay then WheelSlots - 1 else delay).
  assert (0 ≤ e < WheelSlots) as He by (unfold e; destruct (Z.leb_spec WheelSlots delay); lia).
  rewrite bucket_mod by lia. destruct (Z.eqb_spec e 0) as [->|]; [|split; [done|lia]].
  split; [|lia]. rewrite <-(Z_mod_plus_full (now + 0) 1). f_equal. lia.
Qed.

Lemma schedule_rel w ns pending Ls i delay :
  wheel_rel w ns pending Ls → pending !! i = None → is_Some (ns !! i) →
  0 ≤ i < END_OF_LIST → 0 ≤ delay → current_tick_ w + WheelSlots < 2 ^ 64 →
  ∃ w' ns' Ls', schedule i delay w ns = Some (w', ns') ∧ dom ns' = dom ns ∧
    current_tick_ w' = current_tick_ w ∧
    wheel_rel w' ns' (<[i := current_tick_ w + due_in delay]> pending) Ls'.
Proof using HN.
  intros Hr Hnew [nd Hnd] Hi Hd Hb64.
  destruct (due_bucket (current_tick_ w) delay (wr_time _ _ _ _ Hr) Hd Hb64) as [Ebk Hdue].
  set (D := current_tick_ w + due_in delay) in *. set (b := D `mod` WheelSlots) in *.
  pose proof (mod_slots D) as Hb. fold b in Hb.
  destruct (wr_lists _ _ _ _ Hr b Hb) as (HndL & f & q & Hf & Hs).
  assert (∀ b' j, 0 ≤ b' < WheelSlots → j ∈ Ls b' → j ≠ i) as Hji.
  { intros b' j Hb' Hin ->. apply (wr_elems _ _ _ _ Hr) in Hin as (D' & E & _); [|done]. congruence. }
  assert (i ∉ Ls b) as HiL by (intros Hin; by eapply Hji).
  destruct (link_head ns b f (Ls b) q i nd HndL HiL Hi Hnd Hs) as (ns2 & E2 & Hdom & [q' Hs2] & Hfr).
  unfold schedule. rewrite Ebk, Hnd. cbn [mbind option_bind]. rewrite Hf. cbn [mbind option_bind].
  rewrite E2. cbn [mbind option_bind].
  destruct (zset (buckets_ w) b i) as [buckets|] eqn:Ez; [|by rewrite zset_eq in Ez by (rewrite (wr_len _ _ _ _ Hr); lia)].
  cbn [mbind option_bind]. eexists _, _, _. split; [done|]. split; [done|]. split; [done|].
  eapply (wheel_rel_update w ns ns2 pending _ Ls b (i :: Ls b)); try done.
  - by apply NoDup_cons.
  - intros b' j Hb' Hne Hj. apply Hfr; [by eapply Hji|]. intros Hj'. apply Hne. by eapply in_one_list.
  - intros j. rewrite elem_of_cons, (wr_elems _ _ _ _ Hr) by done. split.
    + intros [->|(D' & E & Em)]; [exists D; by rewrite lookup_insert_eq|].
      exists D'. rewrite lookup_insert_ne by congruence. done.
    + intros (D' & E & Em). apply lookup_insert_Some in E as [[-> _]|[? E]]; [by left|right; eauto].
  - intros j D' Hne. rewrite lookup_insert_Some. split; [intros [[<- <-]|[_ ?]]; done|].
    intros E. right. split; [congruence|done].
  - intros j D' E. apply lookup_insert_Some in E as [[-> <-]|[_ E]]; [unfold D; lia|].
    by apply (wr_due _ _ _ _ Hr j).
Qed.

(** The first half of [cancel]: the predecessor, or the bucket, skips the node. *)
Lemma unlink_prev buckets ns b f L i q nd :
  zget buckets b = Some f → NoDup L → seg ns b END_OF_LIST f L q i →
  timer_prev nd = q →
  ∃ buckets' ns' f',
    (if timer_prev nd =? END_OF_LIST
     then b ← zset buckets b (timer_next nd); Some (b, ns)
     else prev ← ns !! timer_prev nd;
          Some (buckets, <[timer_prev nd := TNode (timer_next nd) (timer_prev prev) (wheel_bucket prev)]> ns))
    = Some (buckets', ns') ∧ zset buckets b f' = Some buckets' ∧
    seg ns' b END_OF_LIST f' L q (timer_next nd) ∧ dom ns' = dom ns ∧
    (∀ j, j ∉ L → ns' !! j = ns !! j).
Proof.
  intros Hf Hnd Hs ->. pose proof (zget_Some_range _ _ _ Hf) as Hb.
  destruct (decide (L = [])) as [->|Hne].
  - destruct Hs as [-> <-]. rewrite Z.eqb_refl, zset_eq by done. cbn [mbind option_bind].
    eexists _, ns, (timer_next nd). split; [done|]. by rewrite zset_eq by done.
  - destruct (seg_set_next ns b _ f L q i (timer_next nd) Hnd Hs Hne) as (pn & E & Eb & Hq & Hqr & Hs').
    rewrite (proj2 (Z.eqb_neq _ _)), E by lia. cbn [mbind option_bind].
    eexists _, _, f. split; [done|]. split; [|split; [exact Hs'|split]].
    + rewrite zset_eq by done. f_equal. apply list_insert_id.
      unfold zget in Hf. by rewrite decide_True in Hf by lia.
    + apply dom_insert_lookup_L. by eexists.
    + intros j Hj. apply lookup_insert_ne. by intros <-.
Qed.

(** The second half: the successor gets the node's predecessor. *)
Lemma unlink_next ns b L i q l nd :
  NoDup L → seg ns b i (timer_next nd) L q END_OF_LIST → timer_prev nd = l →
  ∃ ns' q',
    (if timer_next nd =? END_OF_LIST then Some ns
     else next ← ns !! timer_next nd;
          Some (<[timer_next nd := TNode (timer_next next) (timer_prev nd) (wheel_bucket next)]> ns))
    = Some ns' ∧ seg ns' b l (timer_next nd) L q' END_OF_LIST ∧ dom ns' = dom ns ∧
    (∀ j, j ∉ L → ns' !! j = ns !! j).
Proof.
  intros Hnd Hs ->. destruct (decide (L = [])) as [->|Hne].
  - destruct Hs as [-> <-]. rewrite Z.eqb_refl. by exists ns, l.
  - destruct (seg_set_prev ns b i _ L q END_OF_LIST l Hnd Hs Hne) as (nx & E & _ & _ & Hin & Hs').
    destruct (seg_node _ _ _ _ _ _ _ _ Hs Hin) as [Hr _].
    rewrite (proj2 (Z.eqb_neq _ _)), E by lia. cbn [mbind option_bind].
    eexists _, q. split; [done|]. split; [exact Hs'|]. split.
    + apply dom_insert_lookup_L. by eexists.
    + intros j Hj. apply lookup_insert_ne. by intros <-.
Qed.

(** [cancel] of a pending timer removes exactly that timer. *)
Lemma cancel_rel w ns pending Ls i D :
  wheel_rel w ns pending Ls → pending !! i = Some D →
  ∃ w' ns' Ls' nd, cancel i w ns = Some (w', ns') ∧ dom ns' = dom ns ∧
    current_tick_ w' = current_tick_ w ∧ ns' !! i = Some nd ∧ wheel_bucket nd = END_OF_LIST ∧
    wheel_rel w' ns' (delete i pending) Ls'.
Proof using HN.
  intros Hr Hp. pose proof slots_range as HNr. set (b := D `mod` WheelSlots).
  pose proof (mod_slots D) as Hb. fold b in Hb.
  destruct (wr_lists _ _ _ _ Hr b Hb) as (HndL & f & q & Hf & Hs).
  assert (i ∈ Ls b) as Hin by (apply (wr_elems _ _ _ _ Hr); [done|by exists D]).
  apply list_elem_of_split in Hin as (L1 & L2 & EL). rewrite EL in Hs, HndL.
  apply seg_app in Hs as (q1 & i' & Hs1 & (-> & Hi & n & Hn & Hs2)).
  apply NoDup_app in HndL as (Hnd1 & H12 & Hnd2). apply NoDup_cons in Hnd2 as [Hi2 Hnd2].
  assert (i ∉ L1) as Hi1 by (intros H; apply (H12 i H); by left).
  assert (∀ j, j ∈ L1 → j ∉ L2) as H12' by (intros j H H'; apply (H12 j H); by right).
  set (nd := TNode n q1 b).
  unfold cancel. rewrite Hn. cbn [mbind option_bind]. change (TNode n q1 b) with nd.
  cbn [wheel_bucket nd]. rewrite (proj2 (Z.eqb_neq _ _)) by (unfold END_OF_LIST; lia).
  destruct (unlink_prev (buckets_ w) ns b f L1 i q1 nd Hf Hnd1 Hs1 eq_refl)
    as (bk & ns1 & f' & -> & Hz & Hs1' & Hd1 & Hfr1). cbn [mbind option_bind].
  destruct (unlink_next ns1 b L2 i q q1 nd Hnd2) as (ns2 & q' & -> & Hs2' & Hd2 & Hfr2); [|done|].
  { eapply seg_frame; [|exact Hs2]. intros j Hj. apply Hfr1. intros H. by eapply H12'. }
  cbn [mbind option_bind]. rewrite Hfr2, Hfr1, Hn by done. cbn [mbind option_bind].
  eexists _, _, _, _. split; [done|]. split; [rewrite dom_insert_lookup_L, Hd2; [done|rewrite Hfr2, Hfr1 by done; by eexists]|].
  split; [done|]. split; [apply lookup_insert_eq|]. split; [done|].
  eapply (wheel_rel_update w ns _ pending _ Ls b (L1 ++ L2) f' q'); try done.
  - apply NoDup_app. done.
  - apply seg_app. exists q1, (timer_next nd). split; apply seg_insert_out; try done.
    eapply seg_frame; [|exact Hs1']. intros j Hj. apply Hfr2. by eapply H12'.
  - intros b' j Hb' Hne Hj.
    assert (j ∉ Ls b) as Hjb by (intros H; apply Hne; by eapply in_one_list).
    rewrite EL, elem_of_app, elem_of_cons in Hjb.
    rewrite lookup_insert_ne by (intros <-; tauto). rewrite Hfr2, Hfr1 by tauto. done.
  - intros j. pose proof (wr_elems _ _ _ _ Hr b j Hb) as Hj. rewrite EL in Hj.
    setoid_rewrite lookup_delete_Some. revert Hj. rewrite !elem_of_app, elem_of_cons.
    intros Hj. split.
    + intros H. destruct (proj1 Hj) as (D' & E & Em); [tauto|]. exists D'. split; [|done]. split; [|done].
      intros <-. tauto.
    + intros (D' & [Hne E] & Em). destruct (proj2 Hj) as [?|[->|?]]; [by exists D'|tauto|done|tauto].
  - intros j D' Hne. rewrite lookup_delete_Some. split; [by intros [_ ?]|]. intros E. split; [|done].
    intros <-. apply Hne. unfold b. congruence.
  - intros j D' E. apply lookup_delete_Some in E as [_ E]. by apply (wr_due _ _ _ _ Hr j).
Qed.

(** [cancel] of a node that is not linked does nothing. *)
Lemma cancel_unscheduled w ns i nd :
  ns !! i = Some nd → wheel_bucket nd = END_OF_LIST → cancel i w ns = Some (w, ns).
Proof. intros E Eb. unfold cancel. rewrite E. cbn [mbind option_bind]. by rewrite Eb, Z.eqb_refl. Qed.

(** Following [timer_next] lists a whole segment. *)
Lemma expired_seg ns b p f L q fuel :
  (length L < fuel)%nat → seg ns b p f L q END_OF_LIST → expired fuel ns f = Some L.
Proof.
  revert p f fuel. induction L as [|i L IH]; intros p f [|fuel] Hlen; cbn [length] in Hlen; try lia; cbn [expired].
  - intros [-> _]. by rewrite Z.eqb_refl.
  - intros (-> & Hi & n & E & Hs). rewrite (proj2 (Z.eqb_neq _ _)), E by lia. cbn [mbind option_bind timer_next].
    erewrite IH; [done|lia|done].
Qed.

(** [tick] hands over exactly the timers that are due. *)
Lemma tick_rel w ns pending Ls :
  wheel_rel w ns pending Ls → current_tick_ w + 1 < 2 ^ 64 →
  ∃ h w' L Ls', tick w = Some (h, w') ∧ current_tick_ w' = current_tick_ w + 1 ∧
    (∀ fuel, (length L < fuel)%nat → expired fuel ns h = Some L) ∧ NoDup L ∧
    (∀ i, i ∈ L ↔ pending !! i = Some (current_tick_ w + 1)) ∧
    wheel_rel w' ns (filter (λ x, x.2 ≠ current_tick_ w + 1) pending) Ls'.
Proof using HN.
  intros Hr Hb64. pose proof slots_range as HNr. pose proof (wr_time _ _ _ _ Hr).
  set (b := (current_tick_ w + 1) `mod` WheelSlots). pose proof (mod_slots (current_tick_ w + 1)) as Hb. fold b in Hb.
  destruct (wr_lists _ _ _ _ Hr b Hb) as (HndL & f & q & Hf & Hs).
  assert (∀ j D, pending !! j = Some D → D `mod` WheelSlots = b ↔ D = current_tick_ w + 1) as Hdue.
  { intros j D E. split; [|by intros ->]. intros Em. apply (wr_due _ _ _ _ Hr) in E.
    symmetry. apply (mod_window_inj WheelSlots); [lia|lia|done]. }
  unfold tick. rewrite (wrap_small 64) by word_lia.
  pose proof (bucket_mod (current_tick_ w + 1)) as Eb. rewrite (wrap_small 64) in Eb by word_lia.
  rewrite Eb by lia. fold b. rewrite Hf. cbn [mbind option_bind].
  destruct (zset (buckets_ w) b END_OF_LIST) as [bk|] eqn:Ez; [|by rewrite zset_eq in Ez by (rewrite (wr_len _ _ _ _ Hr); lia)].
  cbn [mbind option_bind]. eexists f, _, (Ls b), _. split; [done|]. split; [done|].
  split; [intros fuel Hl; by eapply expired_seg|]. split; [done|]. split.
  { intros j. rewrite (wr_elems _ _ _ _ Hr) by done. split.
    - intros (D & E & Em). apply (Hdue j) in Em as ->; done.
    - intros E. by exists (current_tick_ w + 1). }
  assert (wheel_rel (Wheel bk (current_tick_ w)) ns (filter (λ x, x.2 ≠ current_tick_ w + 1) pending)
            (λ b', if decide (b' = b) then [] else Ls b')) as Hr'.
  { eapply (wheel_rel_update w ns ns pending _ Ls b [] END_OF_LIST END_OF_LIST); try done.
    - constructor.
    - intros j. split; [by intros ?%elem_of_nil|]. intros (D & E & Em).
      apply map_lookup_filter_Some in E as [E Hne]. apply (Hdue j D) in Em; [done|done].
    - intros j D Hne. rewrite map_lookup_filter_Some. split; [by intros [? _]|].
      intros E. split; [done|]. cbn. intros ->. done.
    - intros j D E. apply map_lookup_filter_Some in E as [E _]. by apply (wr_due _ _ _ _ Hr j). }
  split; cbn [buckets_ current_tick_]; try apply Hr'; [lia|].
  intros j D E. pose proof E as E'. apply map_lookup_filter_Some in E as [_ Hne].
  apply (wr_due _ _ _ _ Hr') in E'. cbn in *. lia.
Qed.

Lemma wheel_ctor_rel ns : wheel_rel wheel_ctor ns ∅ (λ _, []).
Proof using HN.
  pose proof slots_range. split; cbn [buckets_ current_tick_ wheel_ctor].
  - rewrite length_replicate. lia.
  - lia.
  - intros b Hb. split; [constructor|]. exists END_OF_LIST, END_OF_LIST.
    rewrite zget_replicate by lia. done.
  - intros b i _. split; [by intros ?%elem_of_nil|]. intros (D & E & _). by rewrite lookup_empty in E.
  - intros i D E. by rewrite lookup_empty in E.
Qed.

Lemma pending_node w ns pending Ls i D :
  wheel_rel w ns pending Ls → pending !! i = Some D → i ∈ dom ns.
Proof using HN.
  intros Hr Hp. destruct (wr_lists _ _ _ _ Hr (D `mod` WheelSlots) (mod_slots D)) as (_ & f & q & _ & Hs).
  destruct (seg_node _ _ _ _ _ _ _ i Hs) as [_ (nd & E & _)]; [|by apply elem_of_dom_2 in E].
  apply (wr_elems _ _ _ _ Hr); [apply mod_slots|by exists D].
Qed.

End facts.

(** ** Sequences of operations *)

Inductive op := OSchedule (node_index delay_ticks : Z) | OCancel (node_index : Z) | OTick.

(** The wheel executes one operation and hands over the timers that expired. *)
Definition wheel_op (o : op) (s : timing_wheel * nodes) : option (list Z * (timing_wheel * nodes)) :=
  let '(w, ns) := s in
  match o with
  | OSchedule i d => s' ← schedule i d w ns; Some ([], s')
  | OCancel i => s' ← cancel i w ns; Some ([], s')
  | OTick => '(head, w') ← tick w; L ← expired (S (size ns)) ns head; Some (L, (w', ns))
  end.

(** The specification: the time and, for every pending timer of the slab
    [idx], the tick at which it is due.  A timer is scheduled only while it is
    not pending and cancelled only while it is. *)
Definition spec_op (idx : gset Z) (o : op) (s : Z * gmap Z Z) : option (list Z * (Z * gmap Z Z)) :=
  let '(now, pending) := s in
  match o with
  | OSchedule i d =>
      guard (i ∈ idx ∧ pending !! i = None ∧ 0 ≤ d);;
      Some ([], (now, <[i := now + due_in d]> pending))
  | OCancel i => guard (is_Some (pending !! i));; Some ([], (now, delete i pending))
  | OTick =>
      Some ((map_to_list (filter (λ x, x.2 = now + 1) pending)).*1,
            (now + 1, filter (λ x, x.2 ≠ now + 1) pending))
  end.

Fixpoint run_ops {S} (step : op → S → option (list Z * S)) (ops : list op) (s : S) : option (list (list Z) * S) :=
  match ops with
  | [] => Some ([], s)
  | o :: ops' => '(out, s1) ← step o s; '(outs, s2) ← run_ops step ops' s1; Some (out :: outs, s2)
  end.

Definition wheel_state_rel (idx : gset Z) (s : timing_wheel * nodes) (a : Z * gmap Z Z) : Prop :=
  dom s.2 = idx ∧ current_tick_ s.1 = a.1 ∧ ∃ Ls, wheel_rel s.1 s.2 a.2 Ls.

Lemma wheel_op_sim idx o s a out a' :
  pow2_slots → (∀ i, i ∈ idx → 0 ≤ i < END_OF_LIST) →
  a.1 + WheelSlots < 2 ^ 64 → wheel_state_rel idx s a → spec_op idx o a = Some (out, a') →
  ∃ out' s', wheel_op o s = Some (out', s') ∧ out' ≡ₚ out ∧ wheel_state_rel idx s' a'.
Proof.
  intros HN Hidx Hb64 (Hdom & Ht & Ls & Hr) Hspec. pose proof (slots_range HN).
  destruct s as [w ns], a as [now pending]; cbn [fst snd] in *. subst now.
  destruct o as [i d|i|]; cbn [spec_op wheel_op] in *.
  - case_guard as Hg; [|done]. destruct Hg as (Hi & Hp & Hd). cbn in Hspec. inv_some.
    destruct (schedule_rel HN w ns pending Ls i d) as (w' & ns' & Ls' & -> & Hd' & Et & Hr'); eauto.
    { by apply elem_of_dom. }
    eexists _, _. split; [done|]. split; [done|]. split; [done|]. eauto.
  - case_guard as Hg; [|done]. destruct Hg as [D Hp]. cbn in Hspec. inv_some.
    destruct (cancel_rel HN w ns pending Ls i D) as (w' & ns' & Ls' & nd & -> & Hd' & Et & _ & _ & Hr'); eauto.
    eexists _, _. split; [done|]. split; [done|]. split; [by cbn; rewrite Hd'|]. eauto.
  - inv_some.
    destruct (tick_rel HN w ns pending Ls Hr) as (h & w' & L & Ls' & -> & Et & HL & Hnd & Hin & Hr'); [lia|].
    cbn [mbind option_bind]. rewrite HL; cbn [mbind option_bind].
    + eexists _, _. split; [done|]. split; [|split; [done|]; eauto].
      apply NoDup_Permutation; [done|apply NoDup_fst_map_to_list|]. intros i. rewrite Hin.
      rewrite list_elem_of_fmap. split.
      * intros E. eexists (i, _). split; [done|]. by apply elem_of_map_to_list, map_lookup_filter_Some.
      * intros ([j D] & -> & Hj%elem_of_map_to_list). apply map_lookup_filter_Some in Hj as [E HD].
        cbn in *. by rewrite <-HD.
    + apply Nat.lt_succ_r. rewrite <-size_dom, <-(size_list_to_set (C := gset Z) L) by done.
      apply subseteq_size. intros i Hi%elem_of_list_to_set. apply Hin in Hi. by apply (pending_node HN _ _ _ _ _ _ Hr Hi).
Qed.

Fixpoint ticks (ops : list op) : Z :=
  match ops with [] => 0 | OTick :: ops' => 1 + ticks ops' | _ :: ops' => ticks ops' end.

Lemma spec_op_time idx o now pending out a' :
  spec_op idx o (now, pending) = Some (out, a') → a'.1 = now + ticks [o].
Proof.
  destruct o; cbn; try (case_guard; [|done]); cbn; intros; inv_some; cbn; lia.
Qed.

Lemma ticks_cons o ops : ticks (o :: ops) = ticks [o] + ticks ops.
Proof. destruct o; cbn; lia. Qed.

Lemma ticks_nonneg ops : 0 ≤ ticks ops.
Proof. induction ops as [|[] ? IH]; cbn; lia. Qed.

Lemma wheel_run_sim idx ops s a outs a' :
  pow2_slots → (∀ i, i ∈ idx → 0 ≤ i < END_OF_LIST) →
  a.1 + ticks ops + WheelSlots < 2 ^ 64 → wheel_state_rel idx s a →
  run_ops (spec_op idx) ops a = Some (outs, a') →
  ∃ outs' s', run_ops wheel_op ops s = Some (outs', s') ∧ Forall2 Permutation outs' outs ∧
    wheel_state_rel idx s' a'.
Proof.
  intros HN Hidx. revert s a outs a'. induction ops as [|o ops IH]; intros s a outs a' Hb Hrel Hrun.
  - cbn in *. inv_some. by exists [], s.
  - cbn [run_ops] in *. rewrite ticks_cons in Hb. pose proof (ticks_nonneg ops). pose proof (ticks_nonneg [o]).
    destruct (spec_op idx o a) as [[out a1]|] eqn:E1; [|done]. cbn [mbind option_bind] in Hrun.
    destruct (run_ops (spec_op idx) ops a1) as [[outs1 a2]|] eqn:E2; [|done]. cbn in Hrun. inv_some.
    destruct (wheel_op_sim idx o s a out a1) as (out' & s1 & -> & Hp & Hrel1); try done; [lia|].
    destruct a as [now pending]. apply spec_op_time in E1. cbn [fst] in *.
    destruct (IH s1 a1 outs1 a') as (outs' & s2 & Hr2 & Hp2 & Hrel2); try done; [lia|].
    cbn [mbind option_bind]. rewrite Hr2. cbn [mbind option_bind]. eexists _, _. split; [done|].
    split; [by constructor|done].
Qed.

(** C29: The timing wheel implements its specification.  For a wheel whose
    number of slots is a power of two, over a slab whose node indices are
    below the end-of-list mark, every legal sequence of [schedule], [cancel]
    and [tick] runs without touching a node or a bucket that does not exist,
    and every [tick] hands over a finite list holding exactly the timers due
    at that tick, each once, and no cancelled one; a delay [d] fires [d] ticks
    later (a delay of at least the wheel's size is cut to [WheelSlots - 1], a
    delay of 0 fires after a full turn). *)
Theorem wheel_refines idx ns ops outs now pending :
  pow2_slots → (∀ i, i ∈ idx → 0 ≤ i < END_OF_LIST) → dom ns = idx →
  ticks ops + WheelSlots < 2 ^ 64 →
  run_ops (spec_op idx) ops (0, ∅) = Some (outs, (now, pending)) →
  ∃ outs' w' ns', run_ops wheel_op ops (wheel_ctor, ns) = Some (outs', (w', ns')) ∧
    Forall2 Permutation outs' outs ∧ current_tick_ w' = now ∧ dom ns' = idx.
Proof.
  intros HN Hidx Hdom Hb Hrun.
  destruct (wheel_run_sim idx ops (wheel_ctor, ns) (0, ∅) outs (now, pending)) as (outs' & [w' ns'] & E & Hp & Hd & Ht & _);
    try done; [|by exists outs', w', ns'].
  split; [done|]. split; [done|]. exists (λ _, []). by apply wheel_ctor_rel.
Qed.

End wheel.

(** ** Witnesses *)

Definition three_nodes : gmap Z timing_node :=
  list_to_map [(0, timing_node_ctor); (1, timing_node_ctor); (2, timing_node_ctor)].

Lemma wheel_refines_witness :
  ∃ outs' w' ns',
    run_ops (wheel_op 4) [OSchedule 0 1; OSchedule 1 1; OSchedule 2 1; OCancel 1; OTick]
      (wheel_ctor 4, three_nodes) = Some (outs', (w', ns')) ∧
    Forall2 Permutation outs' [[]; []; []; []; [2; 0]] ∧ current_tick_ w' = 1 ∧
    dom ns' = (list_to_set [0; 1; 2] : gset Z).
Proof.
  apply (wheel_refines 4 (list_to_set [0; 1; 2]) three_nodes
    [OSchedule 0 1; OSchedule 1 1; OSchedule 2 1; OCancel 1; OTick] [[]; []; []; []; [2; 0]] 1 ∅).
  - exists 2. split; [lia|reflexivity].
  - intros i Hi. apply elem_of_list_to_set in Hi. unfold END_OF_LIST.
    repeat (apply elem_of_cons in Hi as [->|Hi]; [lia|]). by apply elem_of_nil in Hi.
  - vm_compute. reflexivity.
  - vm_compute. reflexivity.
  - vm_compute. reflexivity.
Defined.

(** [tick] leaves [wheel_bucket] of the timers it hands over as it was, so
    cancelling one of them afterwards is not recognised as a cancellation of a
    timer that is not scheduled.  When three timers expire in one tick (list
    2, 1, 0) and the core, walking the list, cancels the first, the bucket is
    made to point at the rest of the list, which has already been handed over:
    one turn of the wheel later these two timers fire a second time. *)
Theorem cancel_after_expiry_refires :
  ∃ w ns,
    run_ops (wheel_op 4)
      ([OSchedule 0 1; OSchedule 1 1; OSchedule 2 1; OTick; OCancel 2] ++ [OTick; OTick; OTick; OTick])
      (wheel_ctor 4, three_nodes)
    = Some ([[]; []; []; [2; 1; 0]; []; []; []; []; [1; 0]], (w, ns)).
Proof. eexists _, _. vm_compute. reflexivity. Qed.
