(* ===== verification/Gateway.v ===== *)
(** * The HTTP gateway (include/conduit/pending/transport/http_gateway.hpp)

    One thread accepts connections, reads each into one stack buffer, parses
    the bytes and pushes the event into the conduit of the compute core.  The
    allocator and the conduit are used through their interfaces ([Allocator],
    [Queue]); the fields of the events live in a heap indexed by the addresses
    the allocator hands out, and the views of an event refer to the one read
    buffer, which the next [recv] overwrites.

    The kernel's answers ([accept], [recv], [socket], [bind], [listen]) are
    arguments; the calls on the sockets are recorded in a trace. *)

From Stdlib Require Import Ascii String.
From S2P Require Import Prelude Interfaces Http HttpCorrect Conduit Pool Platform.

Local Open Scope Z_scope.

Definition READ_BUFFER_SIZE : nat := Pos.to_nat 65536.

(** A call on a socket, or [WSAStartup] and [WSACleanup] on Windows. *)
Inductive sock_op := Send (fd : Z) (data : list Z) | Close (fd : Z) | WsaStartup | WsaCleanup.

Definition crlf : list Z := [CR; LF].
Definition resp_503 : list Z := bytes_of "HTTP/1.1 503 Service Unavailable" ++ crlf ++ crlf.
Definition resp_400 : list Z := bytes_of "HTTP/1.1 400 Bad Request" ++ crlf ++ crlf.

Definition send_503 (client_fd : Z) : list sock_op := [Send client_fd resp_503; Close client_fd].
Definition send_400 (client_fd : Z) : list sock_op := [Send client_fd resp_400; Close client_fd].

Section gateway.
Context {P Q T : Type} `{!Queue Q} `{!Allocator P T}.

(** The object the allocator's constructor builds in a cell. *)
Context (v0 : T).

Record http_gateway := Gateway {
  server_fd_ : Z;
  is_running_ : bool;
  core_conduit_ : Q;
  memory_pool_ : P;
  read_buffer : list Z;
  heap : gmap Z http_request_event;
  net : list sock_op }.

Inductive start_error := SocketFailed | BindFailed | ListenFailed.

Inductive start_result :=
  | Started (g : http_gateway)
  | Thrown (e : start_error) (g : http_gateway).

(** [start()]: the answers of [socket], [bind] and [listen]. *)
Definition start (os : platform) (fd bind_res listen_res : Z) (g : http_gateway) : start_result :=
  let net1 := match os with Win32 => net g ++ [WsaStartup] | Posix => net g end in
  let g1 := Gateway fd (is_running_ g) (core_conduit_ g) (memory_pool_ g) (read_buffer g) (heap g) net1 in
  if fd <? 0 then Thrown SocketFailed g1 else
  if bind_res <? 0 then Thrown BindFailed g1 else
  if listen_res <? 0 then Thrown ListenFailed g1 else
  Started (Gateway fd true (core_conduit_ g) (memory_pool_ g) (read_buffer g) (heap g) net1).

(** [stop()]. *)
Definition stop (os : platform) (g : http_gateway) : http_gateway :=
  Gateway (server_fd_ g) false (core_conduit_ g) (memory_pool_ g) (read_buffer g) (heap g)
    ((if 0 <=? server_fd_ g then net g ++ [Close (server_fd_ g)] else net g) ++
     match os with Win32 => [WsaCleanup] | Posix => [] end).

(** [~http_gateway()]. *)
Definition gateway_dtor (os : platform) (g : http_gateway) : http_gateway := stop os g.

(** [stop()] keeps the descriptor: the destructor of a gateway that was stopped
    closes it again, and on Windows cleans up the socket library a second time
    for one [WSAStartup]. *)
Lemma gateway_closes_twice os fd g :
  0 ≤ fd →
  ∃ g1, start os fd 0 0 g = Started g1 ∧
    net (gateway_dtor os (stop os g1)) = net g ++
      match os with
      | Win32 => [WsaStartup; Close fd; WsaCleanup; Close fd; WsaCleanup]
      | Posix => [Close fd; Close fd]
      end.
Proof.
  intros Hfd. unfold start. rewrite (proj2 (Z.ltb_ge _ _)) by done. eexists. split; [done|].
  unfold gateway_dtor, stop. cbn. rewrite (proj2 (Z.leb_le _ _)) by done. destruct os; by rewrite <-!app_assoc.
Qed.

(** [recv] stores the received bytes at the front of the buffer. *)
Definition recv_into (data buffer : list Z) : list Z := data ++ drop (List.length data) buffer.

(** One turn of [accept_loop] with the answers of [accept] ([client_fd]) and
    [recv] ([None] for an error, [Some []] for a closed peer); [sp1], [sp2] are
    the schedules of the allocator's compare-and-swap loops. *)
Definition accept_turn (sp1 sp2 : list bool) (client_fd : Z) (received : option (list Z)) (g : http_gateway)
    : option http_gateway :=
  if client_fd <? 0 then Some g else
  let with_net q p b h ops := Gateway (server_fd_ g) (is_running_ g) q p b h (net g ++ ops) in
  match received with
  | None | Some [] =>
      Some (with_net (core_conduit_ g) (memory_pool_ g) (read_buffer g) (heap g) [Close client_fd])
  | Some data =>
      let buffer := recv_into data (read_buffer g) in
      '(ev, pool1) ← al_make sp1 v0 (memory_pool_ g);
      if ev =? 0 then Some (with_net (core_conduit_ g) pool1 buffer (heap g) (send_503 client_fd)) else
      '(ok, event) ← parse (take (List.length data) buffer) (new_event (u32 client_fd));
      let heap1 := <[ev := event]> (heap g) in
      if ok : bool then
        '(pushed, conduit1) ← q_push ev (core_conduit_ g);
        if pushed : bool then Some (with_net conduit1 pool1 buffer heap1 [])
        else pool2 ← al_free sp2 ev pool1;
             Some (with_net conduit1 pool2 buffer heap1 (send_503 client_fd))
      else pool2 ← al_free sp2 ev pool1;
           Some (with_net (core_conduit_ g) pool2 buffer heap1 (send_400 client_fd))
  end.

(** What the compute core does on the other side: take an event and return its
    cell to the pool. *)
Definition consume (sp : list bool) (g : http_gateway) : option http_gateway :=
  '(r, conduit1) ← q_pop (core_conduit_ g);
  pool1 ← match r with Some a => al_free sp a (memory_pool_ g) | None => Some (memory_pool_ g) end;
  Some (Gateway (server_fd_ g) (is_running_ g) conduit1 pool1 (read_buffer g) (heap g) (net g)).

Inductive gw_act :=
  | Accept (sp1 sp2 : list bool) (client_fd : Z) (received : option (list Z))
  | Consume (sp : list bool).

Definition gw_exec (a : gw_act) (g : http_gateway) : option http_gateway :=
  match a with
  | Accept sp1 sp2 fd r => accept_turn sp1 sp2 fd r g
  | Consume sp => consume sp g
  end.

Fixpoint gw_run (acts : list gw_act) (g : http_gateway) : option http_gateway :=
  match acts with
  | [] => Some g
  | a :: acts' => g1 ← gw_exec a g; gw_run acts' g1
  end.

(** [recv] returns at most the size of the buffer it is given. *)
Definition received_fits (r : option (list Z)) : Prop :=
  match r with Some d => (List.length d ≤ READ_BUFFER_SIZE)%nat | None => True end.

Definition act_ok (a : gw_act) : Prop :=
  match a with Accept _ _ _ r => received_fits r | Consume _ => True end.

(** ** The invariant: the live cells are the queued events *)

Record gw_inv (g : http_gateway) : Prop := {
  gi_pool : al_inv (memory_pool_ g);
  gi_queue : q_inv (core_conduit_ g);
  gi_nodup : NoDup (q_items (core_conduit_ g));
  gi_live a : is_Some (al_live (memory_pool_ g) !! a) ↔ a ∈ q_items (core_conduit_ g);
  gi_heap a : a ∈ q_items (core_conduit_ g) → is_Some (heap g !! a);
  gi_buffer : List.length (read_buffer g) = READ_BUFFER_SIZE }.

Context `{!QueueLaws Q} `{!AllocatorLaws P T}.

Lemma recv_into_take data buffer : take (List.length data) (recv_into data buffer) = data.
Proof. apply take_app_length. Qed.

Lemma recv_into_length data buffer :
  (List.length data ≤ List.length buffer)%nat → List.length (recv_into data buffer) = List.length buffer.
Proof. intros. unfold recv_into. rewrite length_app, length_drop. lia. Qed.

(** An event allocated and returned at once leaves the invariant. *)
Lemma free_after_make sp a (p p1 : P) :
  al_inv p1 → al_live p !! a = None → al_live p1 = <[a := v0]> (al_live p) →
  ∃ p2, al_free sp a p1 = Some p2 ∧ al_inv p2 ∧ al_live p2 = al_live p ∧ al_room p2 = S (al_room p1).
Proof.
  intros Hi Hn Hl. destruct (al_free_live sp a v0 p1) as (p2 & E & Hl2 & Hr & Hi2);
    [done|by rewrite Hl, lookup_insert_eq|].
  exists p2. split_and!; try done. by rewrite Hl2, Hl, delete_insert_id.
Qed.

(** What a connection comes to. *)
Inductive outcome (sp : list bool) (fd : Z) (data : list Z) (g g' : http_gateway) : Prop :=
  | OQueued ev event r :
      spec_parse data = Some r → event_request (read_buffer g') event = Some r →
      connection_id event = u32 fd →
      (0 < al_room (memory_pool_ g))%nat →
      (List.length (q_items (core_conduit_ g)) < q_cap (core_conduit_ g))%nat →
      al_live (memory_pool_ g) !! ev = None →
      al_live (memory_pool_ g') = <[ev := v0]> (al_live (memory_pool_ g)) →
      q_items (core_conduit_ g') = q_items (core_conduit_ g) ++ [ev] →
      heap g' = <[ev := event]> (heap g) → net g' = net g → outcome sp fd data g g'
  | OMalformed ev event :
      spec_parse data = None → (0 < al_room (memory_pool_ g))%nat →
      al_live (memory_pool_ g) !! ev = None →
      al_live (memory_pool_ g') = al_live (memory_pool_ g) → core_conduit_ g' = core_conduit_ g →
      heap g' = <[ev := event]> (heap g) →
      net g' = net g ++ send_400 fd → outcome sp fd data g g'
  | OBackpressure ev event :
      is_Some (spec_parse data) → (0 < al_room (memory_pool_ g))%nat →
      List.length (q_items (core_conduit_ g)) = q_cap (core_conduit_ g) →
      al_live (memory_pool_ g) !! ev = None →
      al_live (memory_pool_ g') = al_live (memory_pool_ g) → core_conduit_ g' = core_conduit_ g →
      heap g' = <[ev := event]> (heap g) →
      net g' = net g ++ send_503 fd → outcome sp fd data g g'
  | OExhausted :
      al_room (memory_pool_ g) = 0%nat →
      memory_pool_ g' = memory_pool_ g → core_conduit_ g' = core_conduit_ g → heap g' = heap g →
      net g' = net g ++ send_503 fd → outcome sp fd data g g'.

(** Reading a view only depends on the bytes it covers. *)
Lemma chars_app raw tail v c : chars raw v = Some c → chars (raw ++ tail) v = Some c.
Proof.
  unfold chars, buf_len. intros E. case_decide as H; [|done]. injection E as <-.
  rewrite decide_True by (rewrite length_app; lia). f_equal.
  rewrite drop_app_le, take_app_le by (rewrite ?length_drop; lia). done.
Qed.

Lemma event_request_app raw tail ev r :
  event_request raw ev = Some r → event_request (raw ++ tail) ev = Some r.
Proof.
  unfold event_request. intros E.
  destruct (chars raw (method ev)) as [m|] eqn:Em; [|done]. cbn [mbind option_bind] in E.
  destruct (chars raw (uri ev)) as [u|] eqn:Eu; [|done]. cbn [mbind option_bind] in E.
  destruct (mapM (header_chars raw) _) as [hs|] eqn:Eh; [|done]. cbn [mbind option_bind] in E.
  destruct (chars raw (body ev)) as [b|] eqn:Eb; [|done]. cbn [mbind option_bind] in E.
  rewrite (chars_app _ tail _ _ Em), (chars_app _ tail _ _ Eu), (chars_app _ tail _ _ Eb).
  cbn [mbind option_bind].
  assert (mapM (header_chars (raw ++ tail)) (take (Z.to_nat (header_count ev)) (headers ev)) = Some hs) as ->; [|done].
  apply mapM_Some in Eh. apply mapM_Some. eapply Forall2_impl; [exact Eh|]. intros h [k v] Hh.
  unfold header_chars in *. destruct (chars raw (key h)) as [k'|] eqn:Ek; [|done]. cbn [mbind option_bind] in Hh.
  destruct (chars raw (value h)) as [v'|] eqn:Ev; [|done]. cbn [mbind option_bind] in Hh.
  by rewrite (chars_app _ tail _ _ Ek), (chars_app _ tail _ _ Ev).
Qed.

Lemma accept_turn_outcome sp1 sp2 fd c data g :
  gw_inv g → 0 ≤ fd → (List.length (c :: data) ≤ READ_BUFFER_SIZE)%nat →
  ∃ g', accept_turn sp1 sp2 fd (Some (c :: data)) g = Some g' ∧ outcome sp1 fd (c :: data) g g' ∧
    al_inv (memory_pool_ g') ∧ q_inv (core_conduit_ g') ∧
    read_buffer g' = recv_into (c :: data) (read_buffer g) ∧
    (al_room (memory_pool_ g') + size (al_live (memory_pool_ g')) =
       al_room (memory_pool_ g) + size (al_live (memory_pool_ g)))%nat.
Proof.
  intros Hg Hfd Hlen. pose proof (gi_pool g Hg) as Hp. pose proof (gi_queue g Hg) as Hq.
  unfold accept_turn. rewrite (proj2 (Z.ltb_ge _ _)) by done. cbv zeta.
  destruct (al_make_cases sp1 v0 (memory_pool_ g) Hp)
    as [[Hr ->]|(a & p1 & -> & Ha & Hfresh & Hl & Hr & Hp1)]; cbn [mbind option_bind].
  { rewrite Z.eqb_refl. eexists. split; [done|]. split; [by apply OExhausted|]. done. }
  rewrite (proj2 (Z.eqb_neq _ _)) by done. rewrite recv_into_take.
  destruct (parse_agrees (c :: data) (new_event (u32 fd)) eq_refl eq_refl) as (ev & Hid & H).
  destruct (spec_parse (c :: data)) as [r|] eqn:Es.
  - destruct H as [-> Hreq]. cbn [mbind option_bind].
    destruct (q_push_cases a (core_conduit_ g) Hq)
      as [(q' & -> & Hi & Hc & Hq' & Hroom)|[-> Hfull]]; cbn [mbind option_bind].
    + eexists. split; [done|]. split; [|split_and!; try done; cbn [memory_pool_]].
      * eapply OQueued; cbn [memory_pool_ core_conduit_ read_buffer heap net]; eauto;
          [by apply event_request_app|lia|by rewrite app_nil_r].
      * rewrite Hl, map_size_insert_None by done. lia.
    + destruct (free_after_make sp2 a _ _ Hp1 Hfresh Hl) as (p2 & -> & Hp2 & Hl2 & Hr2). cbn [mbind option_bind].
      eexists. split; [done|]. split; [|split_and!; try done; cbn [memory_pool_]; rewrite ?Hl2; lia].
      eapply OBackpressure; cbn; eauto. lia.
  - rewrite H. cbn [mbind option_bind].
    destruct (free_after_make sp2 a _ _ Hp1 Hfresh Hl) as (p2 & -> & Hp2 & Hl2 & Hr2). cbn [mbind option_bind].
    eexists. split; [done|]. split; [|split_and!; try done; cbn [memory_pool_]; rewrite ?Hl2; lia].
    eapply OMalformed; cbn; eauto. lia.
Qed.

Definition cells (g : http_gateway) : nat :=
  al_room (memory_pool_ g) + size (al_live (memory_pool_ g)).

Lemma gw_inv_same g g' :
  gw_inv g → al_inv (memory_pool_ g') → core_conduit_ g' = core_conduit_ g →
  al_live (memory_pool_ g') = al_live (memory_pool_ g) →
  (∀ a, is_Some (heap g !! a) → is_Some (heap g' !! a)) →
  List.length (read_buffer g') = READ_BUFFER_SIZE → gw_inv g'.
Proof.
  intros Hg Hp Eq El Hh Hb. split; rewrite ?Eq, ?El; try done; try apply Hg.
  intros a Ha. apply Hh, (gi_heap g Hg a Ha).
Qed.

Lemma insert_keeps (h : gmap Z http_request_event) ev event a :
  is_Some (h !! a) → is_Some (<[ev := event]> h !! a).
Proof. intros. rewrite lookup_insert_is_Some. destruct (decide (ev = a)); auto. Qed.

Lemma outcome_inv sp fd data g g' :
  gw_inv g → outcome sp fd data g g' → al_inv (memory_pool_ g') → q_inv (core_conduit_ g') →
  List.length (read_buffer g') = READ_BUFFER_SIZE → gw_inv g'.
Proof.
  intros Hg Ho Hp Hq Hb. destruct Ho as [ev event r _ _ _ _ _ Hf Hl Hi Hh _
    |ev event _ _ _ Hl Hc Hh _|ev event _ _ _ _ Hl Hc Hh _|_ Hl Hc Hh _].
  - pose proof (gi_live g Hg) as Hlive. pose proof (gi_heap g Hg). pose proof (gi_nodup g Hg).
    split; rewrite ?Hi, ?Hl, ?Hh; eauto with cre.
  - eapply gw_inv_same; try done. intros a. rewrite Hh. apply insert_keeps.
  - eapply gw_inv_same; try done. intros a. rewrite Hh. apply insert_keeps.
  - eapply gw_inv_same; try done; rewrite ?Hl, ?Hh; done.
Qed.

Lemma accept_turn_inv sp1 sp2 fd r g :
  gw_inv g → received_fits r →
  ∃ g', accept_turn sp1 sp2 fd r g = Some g' ∧ gw_inv g' ∧ cells g' = cells g.
Proof.
  intros Hg Hr. destruct (Z.ltb_spec fd 0) as [Hfd|Hfd].
  { exists g. unfold accept_turn. by rewrite (proj2 (Z.ltb_lt _ _)). }
  destruct r as [[|c data]|]; cbn [received_fits] in Hr.
  - unfold accept_turn. rewrite (proj2 (Z.ltb_ge _ _)) by done. cbv zeta. eexists. split; [done|].
    split; [|done]. eapply gw_inv_same; try done; apply Hg.
  - destruct (accept_turn_outcome sp1 sp2 fd c data g Hg Hfd Hr) as (g' & E & Ho & Hp & Hq & Hb & Hc).
    exists g'. split; [done|]. split; [|done]. eapply outcome_inv; try done.
    rewrite Hb, recv_into_length; [apply Hg|]. by rewrite (gi_buffer g Hg).
  - unfold accept_turn. rewrite (proj2 (Z.ltb_ge _ _)) by done. cbv zeta. eexists. split; [done|].
    split; [|done]. eapply gw_inv_same; try done; apply Hg.
Qed.

Lemma consume_inv sp g : gw_inv g → ∃ g', consume sp g = Some g' ∧ gw_inv g' ∧ cells g' = cells g.
Proof.
  intros Hg. pose proof (gi_pool g Hg) as Hp. pose proof (gi_nodup g Hg) as Hnd. unfold consume.
  destruct (q_pop_cases (core_conduit_ g) (gi_queue g Hg))
    as [[E ->]|(a & l & q' & E & -> & Hi & Hc & Hq')]; cbn [mbind option_bind].
  - eexists. split; [done|]. split; [|done]. eapply gw_inv_same; try done; apply Hg.
  - assert (a ∈ q_items (core_conduit_ g)) as Ha by (rewrite E; left).
    destruct (proj2 (gi_live g Hg a) Ha) as [v Hv].
    destruct (al_free_live sp a v _ Hp Hv) as (p' & -> & Hl & Hr & Hp'). cbn [mbind option_bind].
    pose proof (gi_live g Hg) as Hlive. rewrite E in Hnd, Hlive.
    eexists. split; [done|]. split; [split; cbn [memory_pool_ core_conduit_ heap read_buffer]; rewrite ?Hi; try done|].
    + by apply NoDup_cons in Hnd as [_ ?].
    + rewrite <-(app_nil_r l), Hl. apply live_tail; by rewrite app_nil_r.
    + intros b Hb. apply (gi_heap g Hg). rewrite E. by right.
    + apply (gi_buffer g Hg).
    + unfold cells. cbn [memory_pool_]. rewrite Hl, Hr, (size_delete_S _ _ _ Hv). lia.
Qed.

Lemma gw_run_inv acts g :
  gw_inv g → Forall act_ok acts → ∃ g', gw_run acts g = Some g' ∧ gw_inv g' ∧ cells g' = cells g.
Proof.
  intros Hg Hok. revert g Hg. induction Hok as [|a acts Ha Hok IH]; intros g Hg; [by exists g|].
  assert (∃ g1, gw_exec a g = Some g1 ∧ gw_inv g1 ∧ cells g1 = cells g) as (g1 & E1 & Hg1 & Hc1).
  { destruct a as [sp1 sp2 fd r|sp]; [by apply accept_turn_inv|by apply consume_inv]. }
  destruct (IH g1 Hg1) as (g' & E & Hg' & Hc). exists g'. cbn [gw_run]. rewrite E1. cbn [mbind option_bind].
  split; [done|]. split; [done|]. congruence.
Qed.

(** ** Properties *)

(** C31: Whatever connections arrive and whenever the core consumes, the
    gateway neither leaks nor frees twice: every run is defined, the live
    cells of the pool are at every moment exactly the events queued in the
    conduit, and the number of cells is unchanged. *)
Theorem gateway_no_leak acts g :
  gw_inv g → Forall act_ok acts →
  ∃ g', gw_run acts g = Some g' ∧
    (∀ a, is_Some (al_live (memory_pool_ g') !! a) ↔ a ∈ q_items (core_conduit_ g')) ∧
    NoDup (q_items (core_conduit_ g')) ∧
    (al_room (memory_pool_ g') + size (al_live (memory_pool_ g')) =
       al_room (memory_pool_ g) + size (al_live (memory_pool_ g)))%nat.
Proof.
  intros Hg Hok. destruct (gw_run_inv acts g Hg Hok) as (g' & E & Hg' & Hc).
  exists g'. split; [done|]. split; [apply Hg'|]. split; [apply Hg'|done].
Qed.

(** C32: What the gateway answers to a connection whose bytes arrived: the
    request is queued, readable through the event's views, exactly when it
    parses and both the pool and the conduit have room, and the socket stays
    open; a malformed request gets 400, a full conduit or an empty pool 503,
    and in these cases the socket is closed once, no cell stays allocated and
    the conduit is as before. *)
Theorem gateway_answers sp1 sp2 fd c data g :
  gw_inv g → 0 ≤ fd → (List.length (c :: data) ≤ READ_BUFFER_SIZE)%nat →
  ∃ g', accept_turn sp1 sp2 fd (Some (c :: data)) g = Some g' ∧ outcome sp1 fd (c :: data) g g'.
Proof.
  intros Hg Hfd Hlen. destruct (accept_turn_outcome sp1 sp2 fd c data g Hg Hfd Hlen) as (g' & E & Ho & _).
  by exists g'.
Qed.

(** Two requests of the same shape. *)
Definition req_a : list Z := bytes_of "GET /a HTTP/1.1" ++ crlf ++ crlf.
Definition req_b : list Z := bytes_of "PUT /b HTTP/1.1" ++ crlf ++ crlf.

Definition event_a : http_request_event :=
  Request 5 (View 0 3) (View 4 2) (replicate MAX_HEADERS (Header no_view no_view)) 0 no_view.

Lemma parse_req_a : parse req_a (new_event (u32 5)) = Some (true, event_a).
Proof. vm_compute. reflexivity. Qed.

Lemma accept_req_a sp1 sp2 g :
  gw_inv g → (0 < al_room (memory_pool_ g))%nat →
  (List.length (q_items (core_conduit_ g)) < q_cap (core_conduit_ g))%nat →
  ∃ a g1, accept_turn sp1 sp2 5 (Some req_a) g = Some g1 ∧
    a ∈ q_items (core_conduit_ g1) ∧ heap g1 !! a = Some event_a ∧
    read_buffer g1 = recv_into req_a (read_buffer g).
Proof.
  intros Hg Hr Hroom. assert (∃ c d, req_a = c :: d) as (c & d & Ereq) by (vm_compute; eauto).
  unfold accept_turn. rewrite Ereq. change (5 <? 0) with false. cbv zeta iota. rewrite <-Ereq.
  destruct (al_make_room sp1 v0 (memory_pool_ g) (gi_pool g Hg) Hr) as (a & p1 & -> & Ha & _).
  cbn [mbind option_bind]. rewrite (proj2 (Z.eqb_neq _ _)), recv_into_take, parse_req_a by done.
  cbn [mbind option_bind].
  destruct (q_push_room a (core_conduit_ g) (gi_queue g Hg) Hroom) as (q1 & -> & Hi & _).
  cbn [mbind option_bind]. eexists a, _. split; [done|]. cbn [core_conduit_ heap read_buffer].
  rewrite Hi, lookup_insert_eq. split_and!; try done. apply elem_of_app. right. by left.
Qed.

(** C33: The views of a queued event are not stable.  All events of the gateway
    refer to the one read buffer, and the next [recv] overwrites it: a request
    for [/a] is accepted and queued, a second client sends a request of the
    same length before the core takes the first, and the first event, still in
    the conduit, now reads as the second client's request. *)
Theorem gateway_views_overwritten sp1 sp2 sp3 sp4 fd g :
  gw_inv g → (0 < al_room (memory_pool_ g))%nat →
  (List.length (q_items (core_conduit_ g)) < q_cap (core_conduit_ g))%nat → 0 ≤ fd →
  ∃ a g1 g2, accept_turn sp1 sp2 5 (Some req_a) g = Some g1 ∧
    accept_turn sp3 sp4 fd (Some req_b) g1 = Some g2 ∧
    a ∈ q_items (core_conduit_ g1) ∧ a ∈ q_items (core_conduit_ g2) ∧
    (heap g1 !! a ≫= event_request (read_buffer g1)) = Some (Req (bytes_of "GET") (bytes_of "/a") [] []) ∧
    (heap g2 !! a ≫= event_request (read_buffer g2)) = Some (Req (bytes_of "PUT") (bytes_of "/b") [] []).
Proof.
  intros Hg Hr Hroom Hfd.
  destruct (accept_req_a sp1 sp2 g Hg Hr Hroom) as (a & g1 & E1 & Ha1 & Hh1 & Hb1).
  assert (gw_inv g1) as Hg1.
  { destruct (accept_turn_inv sp1 sp2 5 (Some req_a) g Hg) as (g' & E & Hg' & _); [|congruence].
    cbn. unfold READ_BUFFER_SIZE. lia. }
  assert (∃ c d, req_b = c :: d) as (c & d & Ereq) by (vm_compute; eauto).
  destruct (accept_turn_outcome sp3 sp4 fd c d g1 Hg1 Hfd) as (g2 & E2 & Ho & _ & _ & Hb2 & _).
  { rewrite <-Ereq. cbn. unfold READ_BUFFER_SIZE. lia. }
  rewrite <-Ereq in E2, Hb2.
  assert (∀ ev, al_live (memory_pool_ g1) !! ev = None → ev ≠ a) as Hne.
  { intros ev Hev ->. apply (gi_live g1 Hg1) in Ha1 as [? ?]. congruence. }
  assert (a ∈ q_items (core_conduit_ g2) ∧ heap g2 !! a = Some event_a) as [Ha2 Hh2].
  { destruct Ho as [ev event r _ _ _ _ _ Hf _ Hi Hh _|ev event _ _ Hf _ Hc Hh _
      |ev event _ _ _ Hf _ Hc Hh _|_ _ Hc Hh _]; rewrite ?Hi, ?Hc, Hh, ?lookup_insert_ne by eauto;
      (split; [|done]); try done. apply elem_of_app. by left. }
  exists a, g1, g2. rewrite Hh1, Hh2, Hb1, Hb2. cbn [mbind option_bind].
  split_and!; try done; apply event_request_app; vm_compute; reflexivity.
Qed.

End gateway.

(** ** Witnesses *)

(** A gateway over a pool of two cells and a conduit of size 4. *)
Definition sample_gateway (p : pool Z) : http_gateway (P := pool Z) (Q := conduit 4) :=
  Gateway 3 true (conduit_ctor (replicate 4 0)) p (replicate READ_BUFFER_SIZE 0) ∅ [].

Lemma sample_gateway_inv :
  ∃ p : pool Z, pool_ctor 4096 64 2 = Some p ∧ gw_inv (sample_gateway p) ∧ al_room p = 2%nat.
Proof.
  destruct (pool_ctor_fresh (T := Z) 4096 64 2) as (p & E & Hinv & Hl & Hf); [unfold END; lia..|].
  destruct (conduit_ctor_inv (Size := 4) (replicate 4 0)) as [Hc Hi]; [lia|done|].
  exists p. split; [done|]. split; [|change (length (free_list p) = 2%nat); by rewrite Hf].
  assert (q_items (core_conduit_ (sample_gateway p)) = []) as Hq by exact Hi.
  assert (al_live (memory_pool_ (sample_gateway p)) = ∅) as Hl' by exact Hl.
  split.
  - eexists. exact Hinv.
  - exact Hc.
  - rewrite Hq. constructor.
  - intros a. rewrite Hl', Hq, lookup_empty. split; [by intros [? ?]|by intros ?%elem_of_nil].
  - intros a. rewrite Hq. by intros ?%elem_of_nil.
  - apply length_replicate.
Qed.

Lemma gateway_no_leak_witness :
  ∃ (p : pool Z) g', pool_ctor 4096 64 2 = Some p ∧
    gw_run 0 [Accept [] [] 5 (Some req_a); Consume [true]; Accept [] [] 6 (Some [0])] (sample_gateway p) = Some g' ∧
    NoDup (q_items (core_conduit_ g')).
Proof.
  destruct sample_gateway_inv as (p & E & Hg & _).
  destruct (gateway_no_leak 0 [Accept [] [] 5 (Some req_a); Consume [true]; Accept [] [] 6 (Some [0])]
    (sample_gateway p) Hg) as (g' & Er & _ & Hnd & _).
  - apply Forall_cons; split; [cbn; unfold READ_BUFFER_SIZE; lia|].
    apply Forall_cons; split; [done|].
    apply Forall_cons; split; [cbn; unfold READ_BUFFER_SIZE; lia|done].
  - exists p, g'. done.
Defined.

Lemma gateway_answers_witness :
  ∃ (p : pool Z) g', pool_ctor 4096 64 2 = Some p ∧
    accept_turn 0 [] [] 5 (Some (71 :: [0])) (sample_gateway p) = Some g' ∧
    outcome 0 [] 5 (71 :: [0]) (sample_gateway p) g'.
Proof.
  destruct sample_gateway_inv as (p & E & Hg & _).
  destruct (gateway_answers 0 [] [] 5 71 [0] (sample_gateway p) Hg) as (g' & Er & Ho).
  - lia.
  - cbn. unfold READ_BUFFER_SIZE. lia.
  - exists p, g'. done.
Defined.

Lemma gateway_views_overwritten_witness :
  ∃ (p : pool Z) a g1 g2, pool_ctor 4096 64 2 = Some p ∧
    accept_turn 0 [] [] 5 (Some req_a) (sample_gateway p) = Some g1 ∧
    accept_turn 0 [] [] 6 (Some req_b) g1 = Some g2 ∧
    (heap g2 !! a ≫= event_request (read_buffer g2)) = Some (Req (bytes_of "PUT") (bytes_of "/b") [] []).
Proof.
  destruct sample_gateway_inv as (p & E & Hg & Hr).
  destruct (gateway_views_overwritten 0 [] [] [] [] 6 (sample_gateway p) Hg)
    as (a & g1 & g2 & E1 & E2 & _ & _ & _ & H).
  - unfold sample_gateway. cbn [memory_pool_]. rewrite Hr. lia.
  - vm_compute. lia.
  - lia.
  - by exists p, a, g1, g2.
Defined.
