(* ===== verification/Durable.v ===== *)
(** * The durable log (include/conduit/pending/storage)

    [durable_sink] (durable_sink.hpp) appends the raw bytes of each event to a
    file; [durable_source] (durable_storage.hpp) reads the file back, record by
    record, into cells of a pool and pushes them into a conduit.  The pool and
    the conduit are used through their interfaces.

    The replay loop runs against a consumer (the compute core) and a thread
    that may call [stop], so it is a step function: one step is one turn of the
    outer loop up to the first [push], or one further [push] attempt.  The
    answers of [open], [write] and [read] are arguments. *)

From S2P Require Import Prelude Interfaces Conduit Pool.

Local Open Scope Z_scope.

(** ** The sink *)

Record durable_sink := Sink { sink_fd_ : Z; bytes_written_ : Z }.

(** [durable_sink(filepath)]: [None] is [std::terminate]. *)
Definition sink_ctor (fd : Z) : option durable_sink :=
  if fd =? -1 then None else Some (Sink fd 0).

Section sink.
Context (sizeof_Event : Z).

(** [on(ev)]: [ev] is the bytes of the event, [None] for a null pointer;
    [written] is the answer of [write], which appended that many bytes. *)
Definition sink_on (ev : option (list Z)) (written : Z) (st : durable_sink * list Z)
    : durable_sink * list Z :=
  let '(s, file) := st in
  match ev with
  | None => (s, file)
  | Some raw_data =>
      if sink_fd_ s =? -1 then (s, file) else
      let file' := file ++ take (Z.to_nat written) raw_data in
      if u64 written =? sizeof_Event
      then (Sink (sink_fd_ s) (u64 (bytes_written_ s + sizeof_Event)), file')
      else (s, file')
  end.

Definition total_bytes_written (s : durable_sink) : Z := bytes_written_ s.

(** [~durable_sink()]: the descriptors it closes. *)
Definition sink_dtor (s : durable_sink) : list Z := if sink_fd_ s =? -1 then [] else [sink_fd_ s].

(** Every write is complete. *)
Fixpoint sink_run (evs : list (list Z)) (st : durable_sink * list Z) : durable_sink * list Z :=
  match evs with
  | [] => st
  | ev :: evs' => sink_run evs' (sink_on (Some ev) sizeof_Event st)
  end.

Lemma sink_run_file evs s file :
  sink_fd_ s ≠ -1 → 0 ≤ sizeof_Event < 2 ^ 64 →
  Forall (λ ev, Z.of_nat (length ev) = sizeof_Event) evs →
  ∃ s', sink_run evs (s, file) = (s', file ++ concat evs) ∧ sink_fd_ s' = sink_fd_ s ∧
    (0 ≤ bytes_written_ s → bytes_written_ s + sizeof_Event * Z.of_nat (length evs) < 2 ^ 64 →
     bytes_written_ s' = bytes_written_ s + sizeof_Event * Z.of_nat (length evs)).
Proof.
  intros Hfd Hsz Hev. revert s file Hfd. induction Hev as [|ev evs He Hev IH]; intros s file Hfd.
  - exists s. cbn. rewrite app_nil_r. split_and!; try done. lia.
  - cbn [sink_run sink_on]. rewrite (proj2 (Z.eqb_neq _ _)) by done.
    rewrite (wrap_small 64 sizeof_Event), Z.eqb_refl by done. rewrite take_ge by lia.
    destruct (IH (Sink (sink_fd_ s) (u64 (bytes_written_ s + sizeof_Event))) (file ++ ev)) as (s' & E & Ef & Eb);
      [done|].
    exists s'. rewrite E. cbn [concat]. rewrite <-app_assoc. split_and!; try done.
    intros H0 Hlt. cbn [length bytes_written_] in *.
    assert (sizeof_Event * Z.of_nat (S (length evs)) =
            sizeof_Event + sizeof_Event * Z.of_nat (length evs)) as Em by lia.
    rewrite (wrap_small 64) in Eb by (unfold in_word; nia). rewrite Eb; lia.
Qed.

(** A sink closes the descriptor it opened, once. *)
Lemma sink_closes evs fd s file :
  sink_ctor fd = Some s → 0 ≤ sizeof_Event < 2 ^ 64 →
  Forall (λ ev, Z.of_nat (length ev) = sizeof_Event) evs →
  sink_dtor (sink_run evs (s, file)).1 = [fd].
Proof.
  unfold sink_ctor. destruct (Z.eqb_spec fd (-1)) as [|Hfd]; [done|]. intros [= <-] Hsz Hev.
  destruct (sink_run_file evs (Sink fd 0) file Hfd Hsz Hev) as (s' & -> & Ef & _).
  unfold sink_dtor. cbn [fst]. rewrite Ef. cbn [sink_fd_]. by rewrite (proj2 (Z.eqb_neq _ _)).
Qed.

End sink.

(** ** The source *)

Section source.
Context {P Q T : Type} `{!Queue Q} `{!Allocator P T}.
Context (v0 : T) (sizeof_Event : Z).

(** Where the replay thread is. *)
Inductive replay_pc := LoopHead | Pushing (ev : Z) | Returned.

Record durable_source := Source {
  fd_ : Z;
  is_running_ : bool;
  pc : replay_pc;
  domain_ : P;
  conduit_ : Q;
  contents : gmap Z (list Z);    (* the bytes of the event objects *)
  remaining : list Z;            (* the file behind the read position *)
  delivered : list (list Z) }.   (* what the core has taken *)

Definition with_pc (running : bool) (l : replay_pc) (s : durable_source) : durable_source :=
  Source (fd_ s) running l (domain_ s) (conduit_ s) (contents s) (remaining s) (delivered s).

(** [run_replay()] up to the loop. *)
Definition replay_enter (s : durable_source) : durable_source :=
  if fd_ s =? -1 then with_pc (is_running_ s) Returned s else with_pc true LoopHead s.

(** One step of the replay loop; [bytes_read] is the answer of [read]. *)
Definition replay_step (sp1 sp2 : list bool) (bytes_read : Z) (s : durable_source) : option durable_source :=
  match pc s with
  | Returned => Some s
  | LoopHead =>
      if negb (is_running_ s) then Some (with_pc false Returned s) else
      '(ev, p1) ← al_make sp1 v0 (domain_ s);
      if ev =? 0 then
        Some (Source (fd_ s) (is_running_ s) LoopHead p1 (conduit_ s) (contents s) (remaining s) (delivered s))
      else if u64 bytes_read =? sizeof_Event then
        Some (Source (fd_ s) (is_running_ s) (Pushing ev) p1 (conduit_ s)
                (<[ev := take (Z.to_nat bytes_read) (remaining s)]> (contents s))
                (drop (Z.to_nat bytes_read) (remaining s)) (delivered s))
      else (* end of file, or a short or failed read: both break *)
        p2 ← al_free sp2 ev p1;
        Some (Source (fd_ s) false Returned p2 (conduit_ s)
                (<[ev := take (Z.to_nat bytes_read) (remaining s)]> (contents s))
                (drop (Z.to_nat bytes_read) (remaining s)) (delivered s))
  | Pushing ev =>
      '(pushed, q1) ← q_push ev (conduit_ s);
      if pushed : bool then
        Some (Source (fd_ s) (is_running_ s) LoopHead (domain_ s) q1 (contents s) (remaining s) (delivered s))
      else if is_running_ s then Some s
      else p2 ← al_free sp2 ev (domain_ s);
           Some (Source (fd_ s) false LoopHead p2 q1 (contents s) (remaining s) (delivered s))
  end.

(** [~durable_source()]: the descriptors it closes. *)
Definition source_dtor (s : durable_source) : list Z := if fd_ s =? -1 then [] else [fd_ s].

(** [stop()]. *)
Definition source_stop (s : durable_source) : durable_source := with_pc false (pc s) s.

(** The core takes an event, reads it and returns its cell. *)
Definition core_take (sp : list bool) (s : durable_source) : option durable_source :=
  '(r, q1) ← q_pop (conduit_ s);
  match r with
  | None => Some (Source (fd_ s) (is_running_ s) (pc s) (domain_ s) q1 (contents s) (remaining s) (delivered s))
  | Some a =>
      data ← contents s !! a;
      p1 ← al_free sp a (domain_ s);
      Some (Source (fd_ s) (is_running_ s) (pc s) p1 q1 (contents s) (remaining s) (delivered s ++ [data]))
  end.

(** A [read] of a regular file returns what is left, up to the size asked. *)
Definition full_read (s : durable_source) : Z := sizeof_Event `min` Z.of_nat (length (remaining s)).

(** The core takes one event, then the replay thread makes one step. *)
Definition replay_round (sp1 sp2 sp3 : list bool) (s : durable_source) : option durable_source :=
  s1 ← core_take sp1 s; replay_step sp2 sp3 (full_read s1) s1.

Fixpoint replay_rounds (n : nat) (sp1 sp2 sp3 : list bool) (s : durable_source) : option durable_source :=
  match n with
  | O => Some s
  | S n' => s1 ← replay_round sp1 sp2 sp3 s; replay_rounds n' sp1 sp2 sp3 s1
  end.

(** The bytes of the queued events. *)
Definition payload (s : durable_source) (a : Z) : list Z := default [] (contents s !! a).
Definition queued (s : durable_source) : list (list Z) := payload s <$> q_items (conduit_ s).
Definition in_hand (s : durable_source) : list (list Z) :=
  match pc s with Pushing a => [payload s a] | _ => [] end.
Definition holding (s : durable_source) : list Z := match pc s with Pushing a => [a] | _ => [] end.

(** The invariant of a replay of [records]: what was delivered, what is
    queued, what is in hand and what is still in the file are the records. *)
Record replay_inv (records : list (list Z)) (s : durable_source) : Prop := {
  ri_pool : al_inv (domain_ s);
  ri_queue : q_inv (conduit_ s);
  ri_nodup : NoDup (q_items (conduit_ s) ++ holding s);
  ri_live a : is_Some (al_live (domain_ s) !! a) ↔ a ∈ q_items (conduit_ s) ++ holding s;
  ri_contents a : a ∈ q_items (conduit_ s) ++ holding s → is_Some (contents s !! a);
  ri_log : ∃ rest, remaining s = concat rest ∧ Forall (λ r, Z.of_nat (length r) = sizeof_Event) rest ∧
             delivered s ++ queued s ++ in_hand s ++ rest = records ∧
             (pc s = Returned → is_running_ s = false ∧ rest = []);
  ri_running : pc s ≠ Returned → is_running_ s = true }.

Context `{!QueueLaws Q} `{!AllocatorLaws P T}.

Lemma payload_insert_ne s a c (l : list Z) :
  a ∉ l → (λ b, default [] (<[a := c]> (contents s) !! b)) <$> l = payload s <$> l.
Proof.
  intros Ha. apply list_fmap_ext. intros i b Hb. unfold payload.
  rewrite lookup_insert_ne; [done|]. intros ->. apply Ha. by eapply list_elem_of_lookup_2.
Qed.

Lemma core_take_inv records sp s :
  replay_inv records s →
  ∃ s', core_take sp s = Some s' ∧ replay_inv records s' ∧ pc s' = pc s ∧ remaining s' = remaining s ∧
    q_cap (conduit_ s') = q_cap (conduit_ s) ∧
    (al_room (domain_ s') + size (al_live (domain_ s')) =
       al_room (domain_ s) + size (al_live (domain_ s)))%nat ∧
    length (q_items (conduit_ s')) = pred (length (q_items (conduit_ s))) ∧
    (q_items (conduit_ s) = [] ∧ domain_ s' = domain_ s ∨
     al_room (domain_ s') = S (al_room (domain_ s))).
Proof.
  intros Hi. pose proof (ri_nodup _ _ Hi) as Hnd. pose proof (ri_live _ _ Hi) as Hlive.
  pose proof (ri_contents _ _ Hi) as Hcont. destruct (ri_log _ _ Hi) as (rest & Er & Hf & Erec & Hret).
  unfold core_take.
  destruct (q_pop_cases (conduit_ s) (ri_queue _ _ Hi))
    as [[E ->]|(a & l & q' & E & -> & Ei & Ec & Hq')]; cbn [mbind option_bind].
  - eexists. split; [done|]. split_and!; try done; [|cbn; by rewrite E|by left].
    split; cbn; try done; try apply Hi.
  - unfold queued in Erec. rewrite E in Hnd, Hlive, Hcont, Erec.
    destruct (Hcont a) as [data Hd]; [by left|]. rewrite Hd. cbn [mbind option_bind].
    destruct (proj2 (Hlive a)) as [v Hv]; [by left|].
    destruct (al_free_live sp a v _ (ri_pool _ _ Hi) Hv) as (p' & -> & Hl & Hr & Hp'). cbn [mbind option_bind].
    eexists. split; [done|]. split_and!; try done; cbn [conduit_ domain_].
    + split; cbn [domain_ conduit_ holding contents remaining delivered pc is_running_]; try done.
      * rewrite Ei. by apply NoDup_cons in Hnd as [_ ?].
      * rewrite Hl, Ei. by apply live_tail.
      * intros b Hb. apply Hcont. rewrite Ei in Hb. by right.
      * exists rest. split_and!; try done. rewrite <-Erec. unfold queued, in_hand, payload.
        cbn [conduit_ pc contents]. rewrite Ei. cbn [fmap list_fmap app]. rewrite Hd.
        cbn [default]. rewrite <-app_assoc. done.
      * apply (ri_running _ _ Hi).
    + rewrite Hl, Hr, (size_delete_S _ _ _ Hv). lia.
    + by rewrite Ei, E.
    + by right.
Qed.

Lemma concat_length (rest : list (list Z)) :
  Forall (λ r, Z.of_nat (length r) = sizeof_Event) rest →
  Z.of_nat (length (concat rest)) = sizeof_Event * Z.of_nat (length rest).
Proof. induction 1 as [|r rest Hr _ IH]; cbn; rewrite ?length_app; lia. Qed.

(** How many steps are left. *)
Definition steps_left (s : durable_source) : nat :=
  let records := Z.to_nat (Z.of_nat (length (remaining s)) `div` sizeof_Event) in
  match pc s with
  | Returned => 0
  | LoopHead => 1 + 2 * records
  | Pushing _ => 2 + 2 * records
  end.

Definition cells_of (s : durable_source) : nat := al_room (domain_ s) + size (al_live (domain_ s)).

(** The replay thread can make progress. *)
Definition unblocked (s : durable_source) : Prop :=
  match pc s with
  | LoopHead => (0 < al_room (domain_ s))%nat
  | Pushing _ => (length (q_items (conduit_ s)) < q_cap (conduit_ s))%nat
  | Returned => False
  end.

Definition advances (records : list (list Z)) (s s' : durable_source) : Prop :=
  replay_inv records s' ∧ cells_of s' = cells_of s ∧ q_cap (conduit_ s') = q_cap (conduit_ s) ∧
  (steps_left s' < steps_left s)%nat.

Lemma step_read records sp1 sp2 s :
  0 < sizeof_Event < 2 ^ 31 → replay_inv records s → pc s = LoopHead → unblocked s →
  ∃ s', replay_step sp1 sp2 (full_read s) s = Some s' ∧ advances records s s'.
Proof using QueueLaws0 AllocatorLaws0.
  intros Hsz Hi Hpc Hub. unfold unblocked in Hub. rewrite Hpc in Hub. unfold replay_step. rewrite Hpc.
  pose proof (ri_running _ _ Hi) as Hrun. rewrite Hrun by congruence. cbn [negb].
  destruct (ri_log _ _ Hi) as (rest & Er & Hf & Erec & _).
  pose proof (ri_nodup _ _ Hi) as Hnd. pose proof (ri_live _ _ Hi) as Hlive.
  pose proof (ri_contents _ _ Hi) as Hcont. pose proof (concat_length _ Hf) as Hlen. rewrite <-Er in Hlen.
  unfold holding in *. rewrite Hpc, app_nil_r in *. unfold in_hand in Erec. rewrite Hpc in Erec.
  destruct (al_make_room sp1 v0 (domain_ s) (ri_pool _ _ Hi) Hub) as (a & p1 & -> & Ha & Hfresh & Hl & Hr & Hp1).
  cbn [mbind option_bind]. rewrite (proj2 (Z.eqb_neq _ _)) by done.
  assert (a ∉ q_items (conduit_ s)) as Han by eauto with cre.
  destruct Hf as [|r rest Hr0 Hf].
  - cbn [length] in Hlen. assert (remaining s = []) as E0 by (by rewrite Er).
    replace (full_read s) with 0 by (unfold full_read; rewrite E0; cbn; lia).
    change (u64 0) with 0. rewrite (proj2 (Z.eqb_neq _ _)) by lia.
    destruct (al_free_live sp2 a v0 p1 Hp1) as (p2 & -> & Hl2 & Hr2 & Hp2); [by rewrite Hl, lookup_insert_eq|].
    cbn [mbind option_bind]. rewrite Hl, delete_insert_id in Hl2 by done.
    eexists. split; [done|]. split.
    { split; cbn; rewrite ?app_nil_r; try done; try apply Hi.
      - intros b. by rewrite Hl2.
      - by apply fields_keep.
      - exists []. split; [by rewrite E0|]. split; [done|]. split; [|done].
        unfold queued, in_hand, payload. cbn [conduit_ contents pc]. rewrite payload_insert_ne by done. exact Erec. }
    unfold cells_of, steps_left. cbn [domain_ conduit_ pc]. rewrite Hl2, Hpc. split_and!; try done; lia.
  - assert (full_read s = sizeof_Event) as Efr by (unfold full_read; cbn [length] in Hlen; nia).
    rewrite Efr, (wrap_small 64), Z.eqb_refl by word_lia.
    assert (take (Z.to_nat sizeof_Event) (remaining s) = r) as Etk
      by (rewrite Er; cbn; rewrite take_app_length'; [done|lia]).
    assert (drop (Z.to_nat sizeof_Event) (remaining s) = concat rest) as Edr
      by (rewrite Er; cbn; rewrite drop_app_length'; [done|lia]).
    eexists. split; [done|]. split.
    { split; cbn; rewrite ?Etk, ?Edr; try done; try apply Hi.
      - by apply NoDup_snoc.
      - rewrite Hl. by apply live_snoc.
      - by apply fields_snoc.
      - exists rest. split; [done|]. split; [done|]. split; [|done]. rewrite <-Erec.
        unfold queued, in_hand, payload. cbn [conduit_ contents pc]. rewrite payload_insert_ne, lookup_insert_eq by done.
        done.
      }
    unfold cells_of, steps_left. cbn [domain_ conduit_ pc remaining]. rewrite Hl, Hpc, Edr.
    rewrite map_size_insert_None by done. rewrite (concat_length _ Hf), Hlen. cbn [length].
    rewrite !(Z.mul_comm sizeof_Event), !Z.div_mul by lia. split_and!; try done; lia.
Qed.

Lemma step_push records sp1 sp2 n s :
  replay_inv records s → (∃ a, pc s = Pushing a) → unblocked s →
  ∃ s', replay_step sp1 sp2 n s = Some s' ∧ advances records s s'.
Proof using QueueLaws0.
  intros Hi [a Hpc] Hub. unfold unblocked in Hub. rewrite Hpc in Hub. unfold replay_step. rewrite Hpc.
  destruct (ri_log _ _ Hi) as (rest & Er & Hf & Erec & _).
  pose proof (ri_nodup _ _ Hi) as Hnd. pose proof (ri_live _ _ Hi) as Hlive.
  pose proof (ri_contents _ _ Hi) as Hcont. unfold holding in *. rewrite Hpc in *.
  unfold in_hand in Erec. rewrite Hpc in Erec.
  destruct (q_push_room a (conduit_ s) (ri_queue _ _ Hi) Hub) as (q1 & -> & Ei & Ec & Hq1).
  cbn [mbind option_bind]. eexists. split; [done|]. split.
  { split; cbn; rewrite ?app_nil_r, ?Ei; try done; try apply Hi.
    - exists rest. split; [done|]. split; [done|]. split; [|done]. rewrite <-Erec.
      unfold queued, in_hand, payload. cbn [conduit_ contents pc]. rewrite Ei, fmap_app. cbn.
      by rewrite <-app_assoc.
    - intros _. apply Hi. by rewrite Hpc. }
  unfold cells_of, steps_left. cbn [domain_ conduit_ pc remaining]. rewrite Hpc. split_and!; try done; lia.
Qed.

(** After the core has taken an event, the replay thread is not blocked. *)
Lemma core_take_unblocks records sp s :
  replay_inv records s → pc s ≠ Returned → (0 < q_cap (conduit_ s))%nat → (0 < cells_of s)%nat →
  ∃ s', core_take sp s = Some s' ∧ replay_inv records s' ∧ unblocked s' ∧
    q_cap (conduit_ s') = q_cap (conduit_ s) ∧ cells_of s' = cells_of s ∧ steps_left s' = steps_left s.
Proof using QueueLaws0 AllocatorLaws0.
  intros Hi Hpc Hcap Hcells.
  destruct (core_take_inv records sp s Hi) as (s' & E & Hi' & Epc & Erem & Ecap & Ecells & Elen & Hroom).
  exists s'. split_and!; try done; [|unfold steps_left; by rewrite Epc, Erem].
  unfold unblocked. rewrite Epc. destruct (pc s) eqn:Epcs; [|rewrite Elen, Ecap; pose proof (q_bounded _ (ri_queue _ _ Hi)); lia|done].
  destruct Hroom as [[En Ed]|Er]; [|lia]. rewrite Ed.
  assert (al_live (domain_ s) = ∅) as El.
  { apply map_empty. intros b. apply eq_None_not_Some. rewrite (ri_live _ _ Hi). unfold holding.
    rewrite Epcs, En. by intros ?%elem_of_nil. }
  unfold cells_of in Hcells. rewrite El, map_size_empty in Hcells. lia.
Qed.

Lemma replay_round_advances records sp1 sp2 sp3 s :
  0 < sizeof_Event < 2 ^ 31 → replay_inv records s → pc s ≠ Returned →
  (0 < q_cap (conduit_ s))%nat → (0 < cells_of s)%nat →
  ∃ s', replay_round sp1 sp2 sp3 s = Some s' ∧ advances records s s'.
Proof using QueueLaws0 AllocatorLaws0.
  intros Hsz Hi Hpc Hcap Hcells.
  destruct (core_take_unblocks records sp1 s Hi Hpc Hcap Hcells) as (s1 & E & Hi1 & Hub & Ecap & Ecells & Esl).
  unfold replay_round. rewrite E. cbn [mbind option_bind].
  assert (∃ s', replay_step sp2 sp3 (full_read s1) s1 = Some s' ∧ advances records s1 s') as (s' & -> & Ha & Hc & Hq & Hs).
  { pose proof Hub as Hub'. unfold unblocked in Hub'.
    destruct (pc s1) as [|a|] eqn:Epc; [by apply step_read|apply step_push; eauto|done]. }
  exists s'. split; [done|]. split_and!; try done; [congruence|congruence|lia].
Qed.

Lemma replay_rounds_finish records sp1 sp2 sp3 n s :
  0 < sizeof_Event < 2 ^ 31 → replay_inv records s → (0 < q_cap (conduit_ s))%nat → (0 < cells_of s)%nat →
  (steps_left s ≤ n)%nat →
  ∃ s', replay_rounds n sp1 sp2 sp3 s = Some s' ∧ replay_inv records s' ∧ pc s' = Returned.
Proof using QueueLaws0 AllocatorLaws0.
  intros Hsz. revert s. induction n as [|n IH]; intros s Hi Hcap Hcells Hn; cbn [replay_rounds].
  - exists s. split_and!; try done. unfold steps_left in Hn. destruct (pc s); [lia|lia|done].
  - destruct (decide (steps_left s = 0%nat)) as [E0|Hne].
    + assert (pc s = Returned) as Epc by (unfold steps_left in E0; destruct (pc s); [lia|lia|done]).
      destruct (core_take_inv records sp1 s Hi) as (s1 & E & Hi1 & Epc1 & Erem & Ecap & Ecells & _).
      unfold replay_round. rewrite E. cbn [mbind option_bind]. unfold replay_step. rewrite Epc1, Epc.
      cbn [mbind option_bind]. apply IH; try done; [by rewrite Ecap|unfold cells_of; by rewrite Ecells|].
      unfold steps_left. rewrite Epc1, Epc. lia.
    + destruct (replay_round_advances records sp1 sp2 sp3 s) as (s1 & -> & Hi1 & Ec & Eq & Hs); try done.
      { intros Epc. apply Hne. unfold steps_left. by rewrite Epc. }
      cbn [mbind option_bind]. apply IH; try done; [by rewrite Eq|by rewrite Ec|lia].
Qed.

(** A source about to replay the file, on an unused pool and conduit. *)
Definition source_ctor (fd : Z) (p : P) (q : Q) (file : list Z) : durable_source :=
  Source fd false LoopHead p q ∅ file [].

Lemma source_ctor_inv records fd p q :
  fd ≠ -1 → Forall (λ r, Z.of_nat (length r) = sizeof_Event) records →
  al_inv p → al_live p = ∅ → q_inv q → q_items q = [] →
  replay_inv records (replay_enter (source_ctor fd p q (concat records))).
Proof.
  intros Hfd Hrec Hp Hl Hq Ei. unfold replay_enter. cbn [fd_ source_ctor].
  rewrite (proj2 (Z.eqb_neq _ _)) by done.
  split; cbn; rewrite ?Ei; try done.
  - constructor.
  - intros a. rewrite Hl, lookup_empty. split; [by intros [? ?]|by intros ?%elem_of_nil].
  - by intros a ?%elem_of_nil.
  - exists records. split; [done|]. split; [done|]. split; [|done]. unfold queued. cbn. by rewrite Ei.
Qed.

(** C34: The durable log loses and invents nothing.  Events written by the sink
    to an empty file, each write complete, come back in order and unchanged:
    with a pool of at least one cell and a conduit of at least one place, if
    the core takes an event between any two steps of the replay thread, then
    after one step per end of file and two per event the replay has returned,
    and what the core has taken followed by what is queued is the sequence of
    events written.  The sink's counter is the size of the file. *)
Theorem durable_roundtrip evs sfd s0 fd p q sp1 sp2 sp3 n :
  sink_ctor sfd = Some s0 → fd ≠ -1 → 0 < sizeof_Event < 2 ^ 31 →
  Forall (λ ev, Z.of_nat (length ev) = sizeof_Event) evs →
  sizeof_Event * Z.of_nat (length evs) < 2 ^ 64 →
  al_inv p → al_live p = ∅ → (0 < al_room p)%nat → q_inv q → q_items q = [] → (0 < q_cap q)%nat →
  (1 + 2 * length evs ≤ n)%nat →
  let '(s, file) := sink_run sizeof_Event evs (s0, []) in
  total_bytes_written s = Z.of_nat (length file) ∧
  ∃ src, replay_rounds n sp1 sp2 sp3 (replay_enter (source_ctor fd p q file)) = Some src ∧
    pc src = Returned ∧ delivered src ++ queued src = evs.
Proof using QueueLaws0 AllocatorLaws0.
  intros Hs0 Hfd Hsz Hev Hmax Hp Hl Hr Hq Ei Hcap Hn.
  unfold sink_ctor in Hs0. destruct (Z.eqb_spec sfd (-1)) as [|Hsfd]; [done|]. inv_some.
  destruct (sink_run_file sizeof_Event evs (Sink sfd 0) []) as (s & -> & _ & Eb); [done|lia|done|].
  cbn [app]. split.
  { unfold total_bytes_written. rewrite Eb by (cbn; lia). rewrite (concat_length _ Hev). cbn. lia. }
  pose proof (source_ctor_inv evs fd p q Hfd Hev Hp Hl Hq Ei) as Hinv.
  set (src0 := replay_enter (source_ctor fd p q (concat evs))) in *.
  assert (src0 = Source fd true LoopHead p q ∅ (concat evs) []) as E0.
  { unfold src0, replay_enter. cbn [fd_ source_ctor]. by rewrite (proj2 (Z.eqb_neq _ _)). }
  destruct (replay_rounds_finish evs sp1 sp2 sp3 n src0 Hsz Hinv) as (src & E & Hi & Epc).
  - by rewrite E0.
  - rewrite E0. unfold cells_of. cbn. lia.
  - rewrite E0. unfold steps_left. cbn [pc remaining]. rewrite (concat_length _ Hev), Z.mul_comm, Z.div_mul by lia. lia.
  - exists src. split; [done|]. split; [done|].
    destruct (ri_log _ _ Hi) as (rest & _ & _ & Erec & Hret). destruct (Hret Epc) as [_ ->].
    unfold in_hand in Erec. rewrite Epc in Erec. by rewrite !app_nil_r in Erec.
Qed.

End source.

(** A write that stops short shifts every later record: the second event is
    read back as bytes of both, and the replay ends at a partial record. *)
Example short_write_shifts :
  let st := sink_on 2 (Some [3; 4]) 2 (sink_on 2 (Some [1; 2]) 1 (Sink 3 0, [])) in
  st = (Sink 3 2, [1; 3; 4]) ∧
  ∃ (p : pool Z) src, pool_ctor 4096 64 2 = Some p ∧
    replay_rounds 0 2 4 [] [] [] (replay_enter (source_ctor 4 p (conduit_ctor (replicate 4 0) : conduit 4) st.2)) = Some src ∧
    pc src = Returned ∧ delivered src = [[1; 3]].
Proof.
  split; [reflexivity|]. destruct (pool_ctor (T := Z) 4096 64 2) as [p|] eqn:E; vm_compute in E; [|discriminate E].
  injection E as <-. eexists _, _. split; [reflexivity|]. split; [vm_compute; reflexivity|done].
Qed.

(** ** Witness *)

Lemma durable_roundtrip_witness :
  ∃ (p : pool Z) src, pool_ctor 4096 64 1 = Some p ∧
    replay_rounds 0 2 5 [] [] [] (replay_enter (source_ctor 4 p (conduit_ctor (replicate 2 0) : conduit 2)
      (sink_run 2 [[1; 2]; [3; 4]] (Sink 3 0, [])).2)) = Some src ∧
    pc src = Returned ∧ delivered src ++ queued src = [[1; 2]; [3; 4]].
Proof.
  destruct (pool_ctor_fresh (T := Z) 4096 64 1) as (p & E & Hinv & Hl & Hf); [unfold END; lia..|].
  destruct (conduit_ctor_inv (Size := 2) (replicate 2 0)) as [Hc Hi]; [lia|done|].
  pose proof (durable_roundtrip 0 2 [[1; 2]; [3; 4]] 3 (Sink 3 0) 4 p
    (conduit_ctor (replicate 2 0) : conduit 2) [] [] [] 5) as H.
  destruct H as [_ (src & Er & Hpc & Hd)]; try done; try (cbn; lia).
  - by repeat constructor.
  - by eexists.
  - change (0 < length (free_list p))%nat. rewrite Hf. rewrite length_seqZ. lia.
  - by exists p, src.
Defined.
