(* ===== verification/Saga.v ===== *)
(** * The workflow engine (include/conduit/pending/workflow/state_machine.hpp)

    [deterministic_saga] keeps one slot per workflow and applies the user's
    [WorkflowDefinition::transition] to the slot the event names.  The
    definition is a parameter; nothing is assumed of it. *)

From S2P Require Import Prelude.

Local Open Scope Z_scope.

Section saga.
Context {StateEnum Payload Event : Type}.
Context (MaxConcurrentWorkflows : Z).

Record saga_slot := SagaSlot {
  current_state : StateEnum;
  data : Payload;
  is_active : bool }.

(** [ev->workflow_id] and [WorkflowDefinition::transition]. *)
Context (workflow_id : Event → Z).
Context (transition : StateEnum → Payload → bool → Event → StateEnum * Payload * bool).

Record deterministic_saga := Saga { slots_ : list saga_slot }.

(** [slots_{}]: every slot is value-initialised. *)
Definition saga_ctor (s0 : StateEnum) (d0 : Payload) : deterministic_saga :=
  Saga (replicate (Z.to_nat MaxConcurrentWorkflows) (SagaSlot s0 d0 false)).

Definition step_slot (ev : Event) (slot : saga_slot) : saga_slot :=
  let '(s, d, a) := transition (current_state slot) (data slot) (is_active slot) ev in SagaSlot s d a.

(** [on(ev)]: the workflow id out of range, if a warning is printed, and the
    engine; [None] is an access outside the array. *)
Definition saga_on (ev : option Event) (g : deterministic_saga) : option (option Z * deterministic_saga) :=
  match ev with
  | None => Some (None, g)
  | Some e =>
      let id := u32 (workflow_id e) in
      if MaxConcurrentWorkflows <=? id then Some (Some id, g) else
      slot ← zget (slots_ g) id;
      slots ← zset (slots_ g) id (step_slot e slot);
      Some (None, Saga slots)
  end.

(** A stream of events; the warnings are collected. *)
Fixpoint saga_run (evs : list (option Event)) (g : deterministic_saga) : option (list Z * deterministic_saga) :=
  match evs with
  | [] => Some ([], g)
  | ev :: evs' =>
      '(w, g1) ← saga_on ev g;
      '(ws, g2) ← saga_run evs' g1;
      Some (option_list w ++ ws, g2)
  end.

(** ** The specification: workflows do not interact *)

Definition events_of (k : Z) (evs : list (option Event)) : list Event :=
  filter (λ e, u32 (workflow_id e) = k) (omap id evs).

Definition run_slot (evs : list Event) (slot : saga_slot) : saga_slot :=
  foldl (λ s e, step_slot e s) slot evs.

Lemma events_of_cons k ev evs : events_of k (Some ev :: evs) =
  if decide (u32 (workflow_id ev) = k) then ev :: events_of k evs else events_of k evs.
Proof.
  unfold events_of. change (omap id (Some ev :: evs)) with (ev :: omap id evs). by rewrite filter_cons.
Qed.

Lemma saga_on_spec ev g :
  Z.of_nat (length (slots_ g)) = MaxConcurrentWorkflows →
  ∃ g', saga_on ev g =
      Some (match ev with
            | Some e => if decide (MaxConcurrentWorkflows ≤ u32 (workflow_id e)) then Some (u32 (workflow_id e)) else None
            | None => None
            end, g') ∧ length (slots_ g') = length (slots_ g) ∧
    ∀ k, zget (slots_ g') k = run_slot (events_of k [ev]) <$> zget (slots_ g) k.
Proof.
  intros Hl. destruct ev as [e|]; cbn [saga_on].
  2:{ exists g. split_and!; try done. intros k. by destruct (zget (slots_ g) k). }
  pose proof (wrap_range 32 (workflow_id e)) as Hr. unfold in_word in Hr.
  destruct (Z.leb_spec MaxConcurrentWorkflows (u32 (workflow_id e))) as [Hge|Hlt].
  - exists g. rewrite decide_True by done. split_and!; try done. intros k. rewrite events_of_cons.
    case_decide as Ek; [|by destruct (zget (slots_ g) k)].
    destruct (zget (slots_ g) k) eqn:E; [|done]. apply zget_Some_range in E. lia.
  - destruct (zget_is_Some (slots_ g) (u32 (workflow_id e))) as [slot Es]; [lia|]. rewrite Es. cbn [mbind option_bind].
    destruct (zset (slots_ g) (u32 (workflow_id e)) (step_slot e slot)) as [sl|] eqn:Ez;
      [|by rewrite zset_eq in Ez by lia]. cbn [mbind option_bind].
    eexists. rewrite decide_False by lia. split; [done|]. split; [by eapply zset_length|].
    intros k. rewrite events_of_cons. cbn [slots_]. rewrite (zget_zset _ _ _ _ _ Ez).
    case_decide as Ek; [by subst k; rewrite Es|by destruct (zget (slots_ g) k)].
Qed.

Lemma events_of_app k evs evs' : events_of k (evs ++ evs') = events_of k evs ++ events_of k evs'.
Proof. unfold events_of. by rewrite omap_app, filter_app. Qed.

(** C36: Workflows are isolated.  For every stream of events (null pointers and
    out-of-range ids included) the engine stays inside its array, and the slot
    of each workflow ends where its own events, in the order of the stream,
    take it; the events of other workflows leave no trace in it.  The ids that
    are out of range are reported, in order, and change nothing. *)
Theorem saga_isolation evs g :
  Z.of_nat (length (slots_ g)) = MaxConcurrentWorkflows →
  ∃ g', saga_run evs g =
      Some (filter (λ i, MaxConcurrentWorkflows ≤ i) ((λ e, u32 (workflow_id e)) <$> omap id evs), g') ∧
    ∀ k, zget (slots_ g') k = run_slot (events_of k evs) <$> zget (slots_ g) k.
Proof.
  revert g. induction evs as [|ev evs IH]; intros g Hl; cbn [saga_run].
  { exists g. split; [done|]. intros k. by destruct (zget (slots_ g) k). }
  destruct (saga_on_spec ev g Hl) as (g1 & -> & Hl1 & Hg1). cbn [mbind option_bind].
  destruct (IH g1) as (g' & -> & Hg'); [by rewrite Hl1|]. cbn [mbind option_bind].
  exists g'. split.
  - f_equal. f_equal. destruct ev as [e|]; [|done].
    change (omap id (Some e :: evs)) with (e :: omap id evs). rewrite fmap_cons, filter_cons.
    by destruct (decide (MaxConcurrentWorkflows ≤ u32 (workflow_id e))).
  - intros k. change (ev :: evs) with ([ev] ++ evs). rewrite events_of_app, Hg', Hg1. destruct (zget (slots_ g) k); [|done].
    cbn. f_equal. unfold run_slot. by rewrite foldl_app.
Qed.

End saga.

(** ** Witness *)

(** An order workflow: a state number, a total, and whether it is open. *)
Definition order_transition (s d : Z) (a : bool) (e : Z * Z) : Z * Z * bool := (s + 1, d + e.2, true).

Lemma saga_isolation_witness :
  ∃ g', saga_run 2 fst order_transition [Some (0, 5); Some (9, 1); Some (1, 7); None; Some (0, 6)]
          (saga_ctor 2 0 0) = Some ([9], g') ∧
    zget (slots_ g') 0 = Some (SagaSlot 2 11 true).
Proof.
  destruct (saga_isolation 2 fst order_transition [Some (0, 5); Some (9, 1); Some (1, 7); None; Some (0, 6)]
    (saga_ctor 2 0 0)) as (g' & E & H); [reflexivity|].
  exists g'. split; [exact E|]. rewrite H. reflexivity.
Defined.
