(* ===== verification/Mesh.v ===== *)
(** * The mesh router (include/conduit/pending/net/mesh_router.hpp)

    A flat array of pointers to networked conduits, indexed by the node id an
    event carries.  The conduits live in a store indexed by their addresses, so
    two node ids may share one conduit. *)

From S2P Require Import Prelude EventPtr NetConduit.

Local Open Scope Z_scope.

Section mesh.
Context (TYPE_ID : Z) (sizeof_T : nat) (ConduitCapacity : Z) (MaxNodes : Z).

Record mesh_router := Mesh { routes_ : list (option Z) }.

Definition mesh_ctor : mesh_router := Mesh (replicate (Z.to_nat MaxNodes) None).

(** [bind_route(node_id, conduit)]; [None] is a write outside the array. *)
Definition mesh_bind (node_id conduit : Z) (m : mesh_router) : option mesh_router :=
  if u16 node_id <? MaxNodes
  then routes ← zset (routes_ m) (u16 node_id) (Some conduit); Some (Mesh routes)
  else Some m.

Definition mesh_unbind (node_id : Z) (m : mesh_router) : option mesh_router :=
  if u16 node_id <? MaxNodes
  then routes ← zset (routes_ m) (u16 node_id) None; Some (Mesh routes)
  else Some m.

Context {W : Type}.
(** The bytes and the [target_node_id] of the event at an address. *)
Context (object : W → Z → option (list Z)) (target_node_id : W → Z → option Z).

(** [on(ev)]: the event pointer, the conduits and the world afterwards. *)
Definition mesh_on (m : mesh_router) (ev : event_ptr W) (conduits : gmap Z networked_conduit) (w : W)
    : option (event_ptr W * gmap Z networked_conduit * W) :=
  if negb (ep_bool ev) then Some (ev, conduits, w) else
  t ← target_node_id w (ep_get ev);
  let target := u16 t in
  if MaxNodes <=? target then Some (ev, conduits, w) else
  route ← zget (routes_ m) target;
  match route with
  | None => Some (ev, conduits, w)
  | Some p =>
      c ← conduits !! p;
      if is_alive c then
        '(_, ev', c', w') ← push TYPE_ID sizeof_T ConduitCapacity object ev c w;
        Some (ev', <[p := c']> conduits, w')
      else Some (ev, conduits, w)
  end.

(** The array has its size, and the pointers in it are conduits. *)
Record mesh_inv (m : mesh_router) (conduits : gmap Z networked_conduit) : Prop := {
  mi_len : Z.of_nat (length (routes_ m)) = MaxNodes;
  mi_bound t p : zget (routes_ m) t = Some (Some p) → is_Some (conduits !! p);
  mi_conduits p c : conduits !! p = Some c → net_inv sizeof_T ConduitCapacity c ∧ tx_head_ c + 1 < 2 ^ 64 }.

(** The conduit a node id leads to. *)
Definition route_of (m : mesh_router) (target : Z) : option Z := mjoin (zget (routes_ m) target).

Lemma mesh_bind_spec node_id conduit m conduits :
  mesh_inv m conduits → is_Some (conduits !! conduit) → 0 ≤ node_id < 2 ^ 16 →
  ∃ m', mesh_bind node_id conduit m = Some m' ∧ mesh_inv m' conduits ∧
    ∀ t, route_of m' t = if decide (t = node_id ∧ node_id < MaxNodes) then Some conduit else route_of m t.
Proof.
  intros Hm Hc Hn. unfold mesh_bind. rewrite wrap_small by word_lia.
  destruct (Z.ltb_spec node_id MaxNodes).
  - destruct (zset (routes_ m) node_id (Some conduit)) as [r|] eqn:Ez;
      [|rewrite zset_eq in Ez by (rewrite (mi_len _ _ Hm); lia); done].
    eexists. split; [done|]. split.
    + split; cbn; [rewrite (zset_length _ _ _ _ Ez); apply Hm| |apply Hm].
      intros t p. rewrite (zget_zset _ _ _ _ _ Ez). case_decide; [by intros [= <-]|apply Hm].
    + intros t. unfold route_of. cbn [routes_]. rewrite (zget_zset _ _ _ _ _ Ez).
      destruct (decide (node_id = t)) as [->|]; [by rewrite decide_True|].
      rewrite decide_False; [done|]. by intros [-> _].
  - exists m. split_and!; try done. intros t. rewrite decide_False; [done|]. intros [_ ?]. lia.
Qed.

Lemma mesh_unbind_spec node_id m conduits :
  mesh_inv m conduits → 0 ≤ node_id < 2 ^ 16 →
  ∃ m', mesh_unbind node_id m = Some m' ∧ mesh_inv m' conduits ∧
    ∀ t, route_of m' t = if decide (t = node_id) then None else route_of m t.
Proof.
  intros Hm Hn. unfold mesh_unbind. rewrite wrap_small by word_lia.
  destruct (Z.ltb_spec node_id MaxNodes).
  - destruct (zset (routes_ m) node_id None) as [r|] eqn:Ez;
      [|rewrite zset_eq in Ez by (rewrite (mi_len _ _ Hm); lia); done].
    eexists. split; [done|]. split.
    + split; cbn; [rewrite (zset_length _ _ _ _ Ez); apply Hm| |apply Hm].
      intros t p. rewrite (zget_zset _ _ _ _ _ Ez). case_decide; [done|apply Hm].
    + intros t. unfold route_of. cbn [routes_]. rewrite (zget_zset _ _ _ _ _ Ez).
      destruct (decide (node_id = t)) as [->|]; [by rewrite decide_True|]. by rewrite decide_False.
  - exists m. split_and!; try done. intros t. case_decide as Et; [|done]. subst t. unfold route_of.
    destruct (zget (routes_ m) node_id) eqn:E; [|done]. apply zget_Some_range in E.
    rewrite (mi_len _ _ Hm) in E. lia.
Qed.

(** Where an event goes: the conduit bound to its target, if it can take it. *)
Definition accepts (m : mesh_router) (conduits : gmap Z networked_conduit) (target p : Z) : Prop :=
  route_of m target = Some p ∧
  ∃ c, conduits !! p = Some c ∧ is_dead_ c = false ∧
       Z.of_nat (length (pending c)) < ConduitCapacity.

(** C37: The mesh router delivers to the addressed node only.  For a non-null
    event with a given target and payload: if the target is a node id in range whose
    conduit is bound, alive and not full, exactly one frame with the payload
    joins the frames of that conduit, every other conduit is untouched and the
    event goes back to its pool at once, the payload having been copied; in every
    other case (id out of range, no route, dead or full conduit) nothing changes
    and the caller still owns the event.  No access leaves the array.  (The
    comments of [on] read otherwise: that the pipe takes the memory over, and that
    a dropped event returns to the pool there.) *)
Theorem mesh_routes m ev conduits w target payload ev' w' :
  mesh_inv m conduits → ep_bool ev = true →
  target_node_id w (ptr_ ev) = Some target → 0 ≤ target < 2 ^ 16 →
  object w (ptr_ ev) = Some payload → length payload = sizeof_T → ep_reset ev w = Some (ev', w') →
  (∃ p c c' f, accepts m conduits target p ∧ conduits !! p = Some c ∧
     mesh_on m ev conduits w = Some (ev', <[p := c']> conduits, w') ∧
     frame_of TYPE_ID sizeof_T payload f ∧ pending c' = pending c ++ [f]) ∨
  ((∀ p, ¬ accepts m conduits target p) ∧ mesh_on m ev conduits w = Some (ev, conduits, w)).
Proof.
  intros Hm Hev Ht Htr Hobj Hpl Hreset. unfold mesh_on. rewrite Hev. cbn [negb].
  change (ep_get ev) with (ptr_ ev). rewrite Ht. cbn [mbind option_bind]. rewrite wrap_small by word_lia.
  destruct (Z.leb_spec MaxNodes target) as [Hge|Hlt].
  { right. split; [|done]. intros p [Hr _]. unfold route_of in Hr.
    destruct (zget (routes_ m) target) eqn:E; [|done]. apply zget_Some_range in E. rewrite (mi_len _ _ Hm) in E. lia. }
  destruct (zget_is_Some (routes_ m) target) as [route Er]; [rewrite (mi_len _ _ Hm); lia|].
  assert (route_of m target = route) as Ero by (unfold route_of; rewrite Er; by destruct route).
  rewrite Er. cbn [mbind option_bind]. destruct route as [p|].
  2:{ right. split; [|done]. intros p [Hr _]. congruence. }
  destruct (mi_bound _ _ Hm _ _ Er) as [c Ec]. destruct (mi_conduits _ _ Hm _ _ Ec) as [Hinv Hh].
  rewrite Ec. cbn [mbind option_bind]. unfold is_alive. destruct (is_dead_ c) eqn:Hd; cbn [negb].
  { right. split; [|done]. intros p' [Hr (c0 & Ec0 & Hd0 & _)]. congruence. }
  destruct (decide (Z.of_nat (length (pending c)) < ConduitCapacity)) as [Hroom|Hfull].
  - left. destruct (push_accepted TYPE_ID sizeof_T ConduitCapacity object ev c w payload ev' w')
      as (c' & f & -> & Hf & Hp & _); [done..|].
    cbn [mbind option_bind]. exists p, c, c', f. split_and!; try done. split; [done|]. by exists c.
  - right. split.
    + intros p' [Hr (c0 & Ec0 & _ & Hroom)]. assert (p' = p) as -> by congruence. congruence.
    + rewrite (push_refused TYPE_ID sizeof_T ConduitCapacity object ev c w Hinv); cbn [mbind option_bind].
      * by rewrite insert_id.
      * right. right. pose proof (pending_length _ _ _ Hinv). pose proof (ni_room _ _ _ Hinv). lia.
Qed.

End mesh.

(** ** Witness *)

Lemma mesh_routes_witness :
  ∃ c', mesh_on 7 2 2 3 w_object (λ _ p, Some 1) (Mesh [None; Some 100; None]) (w_event 5) {[100 := w_conduit]} ()
      = Some (EventPtr 0 None 1, {[100 := c']}, ()) ∧ length (pending c') = 1%nat.
Proof.
  destruct (mesh_routes 7 2 2 3 w_object (λ _ p, Some 1) (Mesh [None; Some 100; None]) (w_event 5)
    {[100 := w_conduit]} () 1 [5; 0] (EventPtr 0 None 1) ()) as [(p & c & c' & f & Ha & Ec & E & Hf & Hp)|[Hn _]];
    try done.
  - split; [done| |].
    + intros t p Hz. destruct (decide (p = 100)) as [->|Hne]; [by rewrite lookup_singleton_eq|].
      exfalso. apply Hne. pose proof (zget_Some_range _ _ _ Hz) as Hr. cbn in Hr.
      assert (t = 0 ∨ t = 1 ∨ t = 2) as [->|[->| ->]] by lia; vm_compute in Hz; by simplify_eq.
    + intros p c Hp. apply lookup_singleton_Some in Hp as [<- <-]. split; [apply w_conduit_inv|by vm_compute].
  - apply lookup_singleton_Some in Ec as [<- <-]. rewrite insert_singleton_eq in E. exists c'. split; [exact E|].
    rewrite Hp. reflexivity.
  - exfalso. apply (Hn 100). split; [done|]. exists w_conduit. by vm_compute.
Defined.
