(* ===== verification/LoadGenerator.v ===== *)
(** * The load generator (include/conduit/pending/supplemental/load_generator.hpp)

    [arm_weapon] allocates all the events in advance, [fire] pushes them one by
    one, spinning while the conduit is full, and the destructor returns them to
    the pool.  The conduit and the pool are used through their interfaces.  The
    thread that empties the conduit appears as a schedule: before each attempt
    to push, it pops a given number of events. *)

From S2P Require Import Prelude Interfaces Conduit Pool.

Local Open Scope Z_scope.

Section generator.
Context {P Q T : Type} `{!Queue Q} `{!Allocator P T}.

(** An event with [size_bytes = sizeof(EventType)]. *)
Context (armed : T).

Record load_generator := Generator {
  target_conduit_ : Q;
  memory_pool_ : P;
  total_events_to_send_ : Z;
  pre_allocated_ammo_ : list Z }.

Definition generator_ctor (conduit : Q) (pool : P) (events_count : Z) : load_generator :=
  Generator conduit pool (u32 events_count) [].

Inductive armed_result := Armed (g : load_generator) | Exhausted (g : load_generator).

(** [arm_weapon()]; [n] is the number of turns left, [Exhausted] is the
    exception. *)
Fixpoint arm_loop (n : nat) (sp : list bool) (g : load_generator) : option armed_result :=
  match n with
  | O => Some (Armed g)
  | S n' =>
      '(ev, p1) ← al_make sp armed (memory_pool_ g);
      let g1 := Generator (target_conduit_ g) p1 (total_events_to_send_ g) (pre_allocated_ammo_ g) in
      if ev =? 0 then Some (Exhausted g1)
      else arm_loop n' sp (Generator (target_conduit_ g) p1 (total_events_to_send_ g)
                             (pre_allocated_ammo_ g ++ [ev]))
  end.

Definition arm_weapon (sp : list bool) (g : load_generator) : option armed_result :=
  arm_loop (Z.to_nat (total_events_to_send_ g)) sp g.

(** The consumer pops [n] times; the pointers it got are collected. *)
Fixpoint drain (n : nat) (q : Q) : option (list Z * Q) :=
  match n with
  | O => Some ([], q)
  | S n' => '(r, q1) ← q_pop q; '(rs, q2) ← drain n' q1; Some (option_list r ++ rs, q2)
  end.

Record firing := Firing {
  f_i : Z;
  successful_pushes : Z;
  backpressure_hits : Z;
  f_conduit : Q;
  popped : list Z }.

(** The loop of [fire()]: one entry of the schedule per attempt, the number of
    pops the consumer makes before it. *)
Fixpoint fire_loop (sched : list nat) (total : Z) (ammo : list Z) (f : firing) : option firing :=
  if negb (f_i f <? total) then Some f else
  match sched with
  | [] => Some f
  | n :: sched' =>
      '(rs, q1) ← drain n (f_conduit f);
      ev ← zget ammo (f_i f);
      '(pushed, q2) ← q_push ev q1;
      fire_loop sched' total ammo
        (if pushed : bool
         then Firing (u32 (f_i f + 1)) (u32 (successful_pushes f + 1)) (backpressure_hits f) q2 (popped f ++ rs)
         else Firing (f_i f) (successful_pushes f) (u32 (backpressure_hits f + 1)) q2 (popped f ++ rs))
  end.

Definition fire (sched : list nat) (g : load_generator) : option firing :=
  fire_loop sched (total_events_to_send_ g) (pre_allocated_ammo_ g)
    (Firing 0 0 0 (target_conduit_ g) []).

(** [~load_generator()]. *)
Fixpoint return_ammo (sp : list bool) (ammo : list Z) (p : P) : option P :=
  match ammo with
  | [] => Some p
  | ev :: ammo' => p1 ← al_free sp ev p; return_ammo sp ammo' p1
  end.

Definition generator_dtor (sp : list bool) (g : load_generator) : option P :=
  return_ammo sp (pre_allocated_ammo_ g) (memory_pool_ g).

Context `{!QueueLaws Q} `{!AllocatorLaws P T}.

(** ** Arming *)

Lemma arm_loop_ok n sp g :
  al_inv (memory_pool_ g) → (n ≤ al_room (memory_pool_ g))%nat →
  NoDup (pre_allocated_ammo_ g) →
  (∀ a, a ∈ pre_allocated_ammo_ g → al_live (memory_pool_ g) !! a = Some armed) →
  ∃ g', arm_loop n sp g = Some (Armed g') ∧ al_inv (memory_pool_ g') ∧
    target_conduit_ g' = target_conduit_ g ∧ total_events_to_send_ g' = total_events_to_send_ g ∧
    length (pre_allocated_ammo_ g') = (length (pre_allocated_ammo_ g) + n)%nat ∧
    NoDup (pre_allocated_ammo_ g') ∧
    (∀ a, a ∈ pre_allocated_ammo_ g' → al_live (memory_pool_ g') !! a = Some armed) ∧
    al_room (memory_pool_ g) = (al_room (memory_pool_ g') + n)%nat.
Proof.
  revert g. induction n as [|n IH]; intros g Hp Hr Hnd Hl; cbn [arm_loop].
  { exists g. split_and!; try done; lia. }
  destruct (al_make_room sp armed (memory_pool_ g) Hp) as (a & p1 & -> & Ha & Hf & Hl1 & Hr1 & Hp1); [lia|].
  cbn [mbind option_bind]. rewrite (proj2 (Z.eqb_neq _ _)) by done.
  destruct (IH (Generator (target_conduit_ g) p1 (total_events_to_send_ g) (pre_allocated_ammo_ g ++ [a])))
    as (g' & E & Hp' & Ec & Et & Elen & Hnd' & Hl' & Er'); cbn [memory_pool_ pre_allocated_ammo_] in *; try done.
  - lia.
  - apply NoDup_snoc; [done|]. intros Hb. apply Hl in Hb. congruence.
  - intros b. rewrite elem_of_app, list_elem_of_singleton, Hl1. intros [Hb| ->]; [|by rewrite lookup_insert_eq].
    rewrite lookup_insert_ne; [by apply Hl|]. intros ->. apply Hl in Hb. congruence.
  - exists g'. rewrite length_app in Elen. cbn in Elen. split_and!; try done; lia.
Qed.

(** ** Firing *)

Lemma drain_spec n q :
  q_inv q → ∃ q', drain n q = Some (take n (q_items q), q') ∧ q_items q' = drop n (q_items q) ∧
    q_cap q' = q_cap q ∧ q_inv q'.
Proof.
  revert q. induction n as [|n IH]; intros q Hq; cbn [drain]; [by exists q|].
  destruct (q_pop_cases q Hq) as [[E ->]|(a & l & q1 & E & -> & Ei & Ec & Hq1)]; cbn [mbind option_bind].
  - destruct (IH q Hq) as (q' & -> & Ei & Ec & Hq'). cbn [mbind option_bind]. exists q'.
    rewrite E in *. rewrite take_nil, drop_nil in *. done.
  - destruct (IH q1 Hq1) as (q' & -> & Ei' & Ec' & Hq'). cbn [mbind option_bind]. exists q'.
    rewrite E. cbn. rewrite Ei in *. split_and!; try done. congruence.
Qed.

(** What was pushed so far is what was popped, followed by what is queued. *)
Record fire_inv (total : Z) (ammo q0 : list Z) (cap : nat) (f : firing) : Prop := {
  fi_i : 0 ≤ f_i f ≤ total;
  fi_count : successful_pushes f = f_i f;
  fi_queue : q_inv (f_conduit f);
  fi_cap : q_cap (f_conduit f) = cap;
  fi_order : popped f ++ q_items (f_conduit f) = q0 ++ take (Z.to_nat (f_i f)) ammo }.

Lemma fire_inv_start total ammo q :
  0 ≤ total → q_inv q → fire_inv total ammo (q_items q) (q_cap q) (Firing 0 0 0 q []).
Proof. intros. split; cbn [f_i successful_pushes f_conduit popped]; try done. by rewrite app_nil_r. Qed.

Lemma fire_turn total ammo q0 cap n f :
  Z.of_nat (length ammo) = total → total < 2 ^ 32 → f_i f < total → fire_inv total ammo q0 cap f →
  ∃ rs q1 ev pushed q2, drain n (f_conduit f) = Some (rs, q1) ∧ zget ammo (f_i f) = Some ev ∧
    q_push ev q1 = Some (pushed, q2) ∧
    fire_inv total ammo q0 cap
      (if pushed : bool
       then Firing (u32 (f_i f + 1)) (u32 (successful_pushes f + 1)) (backpressure_hits f) q2 (popped f ++ rs)
       else Firing (f_i f) (successful_pushes f) (u32 (backpressure_hits f + 1)) q2 (popped f ++ rs)) ∧
    ((0 < n)%nat → (0 < cap)%nat → pushed = true).
Proof.
  intros Hlen Hmax Hi [Hi0 Hc Hq Hcap Ho].
  destruct (drain_spec n (f_conduit f) Hq) as (q1 & Ed & Ei & Ec & Hq1).
  destruct (zget_is_Some ammo (f_i f)) as [ev Eev]; [lia|].
  assert (popped f ++ take n (q_items (f_conduit f)) ++ q_items q1 = q0 ++ take (Z.to_nat (f_i f)) ammo) as Ho1
    by (rewrite Ei, take_drop; exact Ho).
  destruct (q_push_cases ev q1 Hq1) as [(q2 & Ep & Ei2 & Ec2 & Hq2 & _)|[Ep Hfull]].
  - exists (take n (q_items (f_conduit f))), q1, ev, true, q2. split_and!; try done.
    rewrite Hc, (wrap_small 32) by word_lia.
    split; cbn [f_i successful_pushes f_conduit popped]; try done; try congruence; [lia|].
    rewrite Ei2, Z2Nat.inj_add by lia. change (Z.to_nat 1) with 1%nat. rewrite Nat.add_1_r.
    unfold zget in Eev. rewrite decide_True in Eev by lia. rewrite (take_S_r _ _ _ Eev).
    rewrite <-app_assoc, (app_assoc (take n _)), (app_assoc (popped f)), Ho1. by rewrite <-app_assoc.
  - exists (take n (q_items (f_conduit f))), q1, ev, false, q1. split_and!; try done.
    + split; cbn [f_i successful_pushes f_conduit popped]; try done; [congruence|]. by rewrite <-app_assoc.
    + intros Hn Hcp. exfalso. rewrite Ei, length_drop, Ec, Hcap in Hfull.
      pose proof (q_bounded _ Hq). lia.
Qed.

Lemma fire_loop_inv sched total ammo q0 cap f :
  Z.of_nat (length ammo) = total → total < 2 ^ 32 → fire_inv total ammo q0 cap f →
  ∃ f', fire_loop sched total ammo f = Some f' ∧ fire_inv total ammo q0 cap f' ∧
    ((0 < cap)%nat → Forall (λ n, (0 < n)%nat) sched → total - f_i f ≤ Z.of_nat (length sched) → f_i f' = total).
Proof.
  intros Hlen Hmax. revert f. induction sched as [|n sched IH]; intros f Hf; cbn [fire_loop];
    destruct (Z.ltb_spec (f_i f) total) as [Hi|Hi]; cbn [negb].
  - exists f. split_and!; try done. cbn. lia.
  - exists f. split_and!; try done. pose proof (fi_i _ _ _ _ _ Hf). lia.
  - destruct (fire_turn total ammo q0 cap n f Hlen Hmax Hi Hf)
      as (rs & q1 & ev & pushed & q2 & -> & Eev & Ep & Hf1 & Hp). cbn [mbind option_bind].
    rewrite Eev. cbn [mbind option_bind]. rewrite Ep. cbn [mbind option_bind].
    destruct (IH _ Hf1) as (f' & E & Hf' & Hend). exists f'. split; [done|]. split; [done|].
    intros Hcap Hs Hl. apply Forall_cons in Hs as [Hn Hs]. apply Hend; try done.
    rewrite (Hp Hn Hcap) in *. cbn [f_i length] in *. pose proof (fi_i _ _ _ _ _ Hf). rewrite wrap_small by word_lia. lia.
  - exists f. split_and!; try done. pose proof (fi_i _ _ _ _ _ Hf). lia.
Qed.

Lemma return_ammo_ok sp ammo p :
  al_inv p → NoDup ammo → (∀ a, a ∈ ammo → is_Some (al_live p !! a)) →
  ∃ p', return_ammo sp ammo p = Some p' ∧ al_inv p' ∧ al_room p' = (al_room p + length ammo)%nat ∧
    ∀ a, al_live p' !! a = if decide (a ∈ ammo) then None else al_live p !! a.
Proof.
  revert p. induction ammo as [|a ammo IH]; intros p Hp Hnd Hl; cbn [return_ammo].
  { exists p. split_and!; [done|done|cbn; lia|]. intros a. by rewrite decide_False by apply not_elem_of_nil. }
  apply NoDup_cons in Hnd as [Hna Hnd]. destruct (Hl a) as [v Hv]; [by left|].
  destruct (al_free_live sp a v p Hp Hv) as (p1 & -> & Hl1 & Hr1 & Hp1). cbn [mbind option_bind].
  destruct (IH p1 Hp1 Hnd) as (p' & -> & Hp' & Hr' & Hl').
  { intros b Hb. rewrite Hl1, lookup_delete_ne by (by intros ->). apply Hl. by right. }
  exists p'. split_and!; [done|done|cbn; lia|]. intros b. rewrite Hl', Hl1.
  destruct (decide (b = a)) as [->|Hne].
  - rewrite decide_False, lookup_delete_eq by done. by rewrite decide_True by left.
  - rewrite lookup_delete_ne by done. by repeat case_decide; set_solver.
Qed.

(** ** Properties *)

(** Arming and firing.  With room for all the events, [arm_weapon]
    allocates them without an exception; then, as soon as the consumer pops at
    least one event before each attempt, [fire] returns after at most one
    attempt per event, it has pushed every event once and in order (what the
    consumer got followed by what is queued), and it has counted them. *)
Theorem generator_fires_in_order q p events sp sched :
  al_inv p → q_inv q → 0 ≤ events < 2 ^ 32 → (Z.to_nat events ≤ al_room p)%nat → (0 < q_cap q)%nat →
  Forall (λ n, (0 < n)%nat) sched → events ≤ Z.of_nat (length sched) →
  ∃ g f, arm_weapon sp (generator_ctor q p events) = Some (Armed g) ∧ fire sched g = Some f ∧
    NoDup (pre_allocated_ammo_ g) ∧ Z.of_nat (length (pre_allocated_ammo_ g)) = events ∧
    popped f ++ q_items (f_conduit f) = q_items q ++ pre_allocated_ammo_ g ∧
    successful_pushes f = events.
Proof using QueueLaws0 AllocatorLaws0.
  intros Hp Hq Hev Hroom Hcap Hs Hlen. unfold arm_weapon, generator_ctor. rewrite (wrap_small 32) by word_lia.
  cbn [total_events_to_send_].
  destruct (arm_loop_ok (Z.to_nat events) sp (Generator q p events [])) as (g & -> & Hp' & Ec & Et & El & Hnd & _ & _);
    try done; [constructor|intros a ?%elem_of_nil; done|]. cbn [pre_allocated_ammo_ length target_conduit_ total_events_to_send_] in *.
  assert (∀ f, fire_loop sched events (pre_allocated_ammo_ g) (Firing 0 0 0 q []) = Some f → fire sched g = Some f)
    as Hfire by (intros f Hf; unfold fire; by rewrite Ec, Et).
  destruct (fire_loop_inv sched events (pre_allocated_ammo_ g) (q_items q) (q_cap q) (Firing 0 0 0 q []))
    as (f & E & Hf & Hend); [lia|lia|apply fire_inv_start; [lia|done]|].
  exists g, f. split_and!; try done; [by apply Hfire|lia| |].
  - rewrite (fi_order _ _ _ _ _ Hf), Hend, take_ge; try done; cbn; lia.
  - rewrite (fi_count _ _ _ _ _ Hf). apply Hend; try done. cbn. lia.
Qed.

(** The generator frees what it has already given away.  After arming and
    firing, the destructor returns every event to the pool although the
    conduit, or a consumer, holds the pointers: no event that is still queued
    is a live object any more, so the next consumer reads a freed cell and its
    own release frees it a second time. *)
Theorem generator_dtor_dangles q p events sp sp' sched :
  al_inv p → q_inv q → q_items q = [] → 0 < events < 2 ^ 32 → (Z.to_nat events ≤ al_room p)%nat →
  (0 < q_cap q)%nat → Forall (λ n, (0 < n)%nat) sched → events ≤ Z.of_nat (length sched) →
  ∃ g f p', arm_weapon sp (generator_ctor q p events) = Some (Armed g) ∧
    fire sched g = Some f ∧ generator_dtor sp' g = Some p' ∧
    Z.of_nat (length (popped f ++ q_items (f_conduit f))) = events ∧
    ∀ a, a ∈ popped f ++ q_items (f_conduit f) → al_live p' !! a = None.
Proof using QueueLaws0 AllocatorLaws0.
  intros Hp Hq Ei Hev Hroom Hcap Hs Hlen. unfold arm_weapon, generator_ctor. rewrite (wrap_small 32) by word_lia.
  cbn [total_events_to_send_].
  destruct (arm_loop_ok (Z.to_nat events) sp (Generator q p events [])) as (g & -> & Hp' & Ec & Et & El & Hnd & Hl & _);
    try done; [constructor|intros a ?%elem_of_nil; done|]. cbn [pre_allocated_ammo_ length target_conduit_ total_events_to_send_] in *.
  assert (∀ f, fire_loop sched events (pre_allocated_ammo_ g) (Firing 0 0 0 q []) = Some f → fire sched g = Some f)
    as Hfire by (intros f Hf; unfold fire; by rewrite Ec, Et).
  destruct (fire_loop_inv sched events (pre_allocated_ammo_ g) (q_items q) (q_cap q) (Firing 0 0 0 q []))
    as (f & E & Hf & Hend); [lia|lia|apply fire_inv_start; [lia|done]|].
  destruct (return_ammo_ok sp' (pre_allocated_ammo_ g) (memory_pool_ g) Hp' Hnd) as (p' & Er & _ & _ & Hl');
    [intros a Ha; rewrite (Hl a Ha); done|].
  pose proof (fi_order _ _ _ _ _ Hf) as Ho. rewrite Hend, Ei, take_ge in Ho by (done || cbn; lia). cbn [app] in Ho.
  exists g, f, p'. split_and!; try done; [by apply Hfire|rewrite Ho; lia|].
  intros a Ha. rewrite Ho in Ha. by rewrite Hl', decide_True.
Qed.

End generator.

(** ** Witnesses *)

Definition fresh_pool_ok (n : Z) : Prop :=
  ∃ p : pool Z, pool_ctor 4096 64 n = Some p ∧ al_inv p ∧ al_room p = Z.to_nat n.

Lemma fresh_pool_2 : fresh_pool_ok 2.
Proof.
  destruct (pool_ctor_fresh (T := Z) 4096 64 2) as (p & E & Hinv & _ & Hf); [unfold END; lia..|].
  exists p. split; [done|]. split; [by eexists|]. change (length (free_list p) = Z.to_nat 2).
  by rewrite Hf.
Qed.

Definition conduit2 : conduit 2 := conduit_ctor (replicate 2 0).

Lemma conduit2_ok : q_inv conduit2 ∧ q_items conduit2 = [].
Proof. apply (conduit_ctor_inv (Size := 2) (replicate 2 0)); [lia|done]. Qed.

Lemma generator_fires_in_order_witness :
  ∃ (p : pool Z) g f, pool_ctor 4096 64 2 = Some p ∧
    arm_weapon 0 [] (generator_ctor conduit2 p 2) = Some (Armed g) ∧ fire [1; 1]%nat g = Some f ∧
    popped f ++ q_items (f_conduit f) = pre_allocated_ammo_ g.
Proof.
  destruct fresh_pool_2 as (p & E & Hp & Hr). destruct conduit2_ok as [Hq Hi].
  destruct (generator_fires_in_order 0 conduit2 p 2 [] [1; 1]%nat) as (g & f & Ea & Ef & _ & _ & Ho & _); try done.
  - by rewrite Hr.
  - apply Nat.lt_0_1.
  - repeat constructor.
  - exists p, g, f. by split_and!.
Defined.

Lemma generator_dtor_dangles_witness :
  ∃ (p : pool Z) g f p', pool_ctor 4096 64 2 = Some p ∧
    arm_weapon 0 [] (generator_ctor conduit2 p 2) = Some (Armed g) ∧ fire [1; 1]%nat g = Some f ∧
    generator_dtor [] g = Some p' ∧
    ∀ a, a ∈ popped f ++ q_items (f_conduit f) → al_live p' !! a = None.
Proof.
  destruct fresh_pool_2 as (p & E & Hp & Hr). destruct conduit2_ok as [Hq Hi].
  destruct (generator_dtor_dangles 0 conduit2 p 2 [] [] [1; 1]%nat)
    as (g & f & p' & Ea & Ef & Ed & _ & Hdead); try done.
  - by rewrite Hr.
  - apply Nat.lt_0_1.
  - repeat constructor.
  - by exists p, g, f, p'.
Defined.
