(* ===== verification/Clock.v ===== *)
(** * The clock node (include/conduit/pending/io/clock_node.hpp)

    The node polls a monotonic clock and, whenever [resolution_ms] have passed
    since the last tick, pushes a [tick_event] into the conduit of the core.
    Time points are nanosecond counts; the readings of the clock are the
    input.  [cre::sys::tick_event] is declared nowhere in the repository; the
    node uses the two fields modelled here.  The pool and the conduit are used through their interfaces. *)

From S2P Require Import Prelude Interfaces Conduit Pool.

Local Open Scope Z_scope.

Record tick_event := Tick { timestamp_ms : Z; delta_ms : Z }.

(** [std::chrono::duration_cast<milliseconds>] of a nanosecond count. *)
Definition to_ms (ns : Z) : Z := Z.quot ns 1000000.

Section clock.
Context {P Q T : Type} `{!Queue Q} `{!Allocator P T}.
Context (v0 : T).

Record clock_node := Clock {
  domain_ : P;
  target_conduit_ : Q;
  resolution_ms_ : Z;
  is_running_ : bool;
  last_tick : Z;
  absolute_start : Z;
  events : gmap Z tick_event }.   (* the fields of the event objects *)

Definition clock_ctor (p : P) (q : Q) (resolution : Z) : clock_node :=
  Clock p q (u32 resolution) false 0 0 ∅.

(** [run()] up to the loop, with the readings of the two clocks. *)
Definition clock_enter (steady system : Z) (c : clock_node) : clock_node :=
  Clock (domain_ c) (target_conduit_ c) (resolution_ms_ c) true steady system (events c).

Definition clock_stop (c : clock_node) : clock_node :=
  Clock (domain_ c) (target_conduit_ c) (resolution_ms_ c) false (last_tick c) (absolute_start c) (events c).

(** One turn of the loop at the reading [now]; the event pushed, if any. *)
Definition clock_turn (sp1 sp2 : list bool) (now : Z) (c : clock_node)
    : option (option tick_event * clock_node) :=
  let elapsed := to_ms (now - last_tick c) in
  if resolution_ms_ c <=? elapsed then
    let abs_now := to_ms (absolute_start c + (now - last_tick c)) in
    '(ev, p1) ← al_make sp1 v0 (domain_ c);
    if ev =? 0 then
      Some (None, Clock p1 (target_conduit_ c) (resolution_ms_ c) (is_running_ c) now (absolute_start c) (events c))
    else
      let tick := Tick abs_now elapsed in
      '(pushed, q1) ← q_push ev (target_conduit_ c);
      p2 ← (if (pushed : bool) then Some p1 else al_free sp2 ev p1);
      Some (if (pushed : bool) then Some tick else None,
            Clock p2 q1 (resolution_ms_ c) (is_running_ c) now (absolute_start c) (<[ev := tick]> (events c)))
  else Some (None, c).

(** The loop over a sequence of readings. *)
Fixpoint clock_run (sp1 sp2 : list bool) (nows : list Z) (c : clock_node)
    : option (list tick_event * clock_node) :=
  match nows with
  | [] => Some ([], c)
  | now :: nows' =>
      '(t, c1) ← clock_turn sp1 sp2 now c;
      '(ts, c2) ← clock_run sp1 sp2 nows' c1;
      Some (option_list t ++ ts, c2)
  end.

(** ** The specification *)

(** The due readings: those at least the resolution after the previous due
    one, with the gap to it. *)
Fixpoint due_gaps (resolution last : Z) (nows : list Z) : list Z :=
  match nows with
  | [] => []
  | now :: nows' =>
      if resolution <=? to_ms (now - last) then (now - last) :: due_gaps resolution now nows'
      else due_gaps resolution last nows'
  end.

Definition gap_tick (start gap : Z) : tick_event := Tick (to_ms (start + gap)) (to_ms gap).

Record clock_inv (c : clock_node) : Prop := {
  ci_pool : al_inv (domain_ c);
  ci_queue : q_inv (target_conduit_ c);
  ci_live a : a ∈ q_items (target_conduit_ c) → is_Some (al_live (domain_ c) !! a) }.

Context `{!QueueLaws Q} `{!AllocatorLaws P T}.

Lemma clock_turn_spec sp1 sp2 now c :
  clock_inv c →
  ∃ t c', clock_turn sp1 sp2 now c = Some (t, c') ∧ clock_inv c' ∧
    resolution_ms_ c' = resolution_ms_ c ∧ absolute_start c' = absolute_start c ∧
    (al_room (domain_ c') + length (q_items (target_conduit_ c')) =
       al_room (domain_ c) + length (q_items (target_conduit_ c)))%nat ∧
    if resolution_ms_ c <=? to_ms (now - last_tick c)
    then last_tick c' = now ∧ (t = None ∨ t = Some (gap_tick (absolute_start c) (now - last_tick c)))
    else t = None ∧ c' = c.
Proof.
  intros [Hp Hq Hl]. unfold clock_turn. cbv zeta.
  destruct (resolution_ms_ c <=? to_ms (now - last_tick c)); [|by exists None, c].
  destruct (al_make_cases sp1 v0 (domain_ c) Hp)
    as [[Hr ->]|(a & p1 & -> & Ha & Hf & Hl1 & Hr1 & Hp1)]; cbn [mbind option_bind].
  { rewrite Z.eqb_refl. eexists _, _. split; [done|]. split_and!; try done. by left. }
  rewrite (proj2 (Z.eqb_neq _ _)) by done.
  assert (∀ b, b ∈ q_items (target_conduit_ c) → is_Some (al_live p1 !! b)) as Hl1'.
  { intros b Hb. rewrite Hl1. apply lookup_insert_is_Some'. right. by apply Hl. }
  destruct (q_push_cases a (target_conduit_ c) Hq)
    as [(q1 & -> & Ei & Ec & Hq1 & _)|[-> Hfull]]; cbn [mbind option_bind].
  - eexists _, _. split; [done|]. split_and!; try done; cbn [domain_ target_conduit_].
    + split; cbn; try done. intros b. rewrite Ei, elem_of_app, list_elem_of_singleton.
      intros [Hb| ->]; [by apply Hl1'|]. rewrite Hl1, lookup_insert_eq. done.
    + rewrite Ei, length_app. cbn. lia.
    + by right.
  - destruct (al_free_live sp2 a v0 p1 Hp1) as (p2 & -> & Hl2 & Hr2 & Hp2); [by rewrite Hl1, lookup_insert_eq|].
    cbn [mbind option_bind]. eexists _, _. split; [done|]. split_and!; try done; cbn [domain_ target_conduit_].
    + split; cbn; try done. intros b Hb. rewrite Hl2, Hl1, delete_insert_id by done. by apply Hl.
    + lia.
    + by left.
Qed.

(** The clock's events say less than they promise.  For every sequence of
    clock readings the node runs without losing a cell of the pool, and the
    events it delivers are, in order, among those of the due readings, each
    with the gap to the previous due reading as [delta_ms].  Two consequences
    follow from what is computed.  The timestamp of every event is the start of
    the node plus that one gap: it does not advance with time.  A tick that is
    dropped (empty pool or full conduit) still moves [last_tick], so the time
    it covered is in no later [delta_ms]. *)
Theorem clock_ticks sp1 sp2 nows c :
  clock_inv c →
  ∃ ts c', clock_run sp1 sp2 nows c = Some (ts, c') ∧ clock_inv c' ∧
    (al_room (domain_ c') + length (q_items (target_conduit_ c')) =
       al_room (domain_ c) + length (q_items (target_conduit_ c)))%nat ∧
    ts `sublist_of` (gap_tick (absolute_start c) <$> due_gaps (resolution_ms_ c) (last_tick c) nows).
Proof.
  revert c. induction nows as [|now nows IH]; intros c Hc; cbn [clock_run due_gaps].
  { by exists [], c. }
  destruct (clock_turn_spec sp1 sp2 now c Hc) as (t & c1 & -> & Hc1 & Er & Es & Ecells & Ht).
  cbn [mbind option_bind]. destruct (IH c1 Hc1) as (ts & c2 & -> & Hc2 & Ec2 & Hsub). cbn [mbind option_bind].
  eexists _, _. split; [done|]. split; [done|]. split; [lia|].
  destruct (resolution_ms_ c <=? to_ms (now - last_tick c)).
  - destruct Ht as [El Ht]. rewrite El, Er, Es in Hsub. rewrite fmap_cons.
    destruct Ht as [->| ->]; cbn [option_list app]; by constructor.
  - destruct Ht as [-> ->]. done.
Qed.

End clock.

(** The timestamp of an event is the start of the node plus its own delta, up
    to a millisecond: after an hour of ticks it still shows the first second. *)
Lemma gap_tick_frozen start gap :
  0 ≤ start → 0 ≤ gap →
  to_ms start + delta_ms (gap_tick start gap) ≤ timestamp_ms (gap_tick start gap)
    ≤ to_ms start + delta_ms (gap_tick start gap) + 1.
Proof.
  intros. unfold gap_tick, to_ms. cbn [timestamp_ms delta_ms]. rewrite !Z.quot_div_nonneg by lia.
  pose proof (Z.div_mod start 1000000). pose proof (Z.div_mod gap 1000000).
  pose proof (Z.div_mod (start + gap) 1000000).
  pose proof (Z.mod_pos_bound start 1000000). pose proof (Z.mod_pos_bound gap 1000000).
  pose proof (Z.mod_pos_bound (start + gap) 1000000). lia.
Qed.

(** ** Witness *)

(** Four readings one millisecond apart, a pool of one cell: the first tick is
    delivered, the others are dropped. *)
Lemma clock_ticks_witness :
  ∃ (p : pool Z) ts c', pool_ctor 4096 64 1 = Some p ∧
    clock_run 0 [] [] [1000000; 2000000; 3000000]
      (clock_enter 0 5000000000 (clock_ctor p (conduit_ctor (replicate 4 0) : conduit 4) 1)) = Some (ts, c') ∧
    ts `sublist_of` [Tick 5001 1; Tick 5001 1; Tick 5001 1].
Proof.
  destruct (pool_ctor_fresh (T := Z) 4096 64 1) as (p & E & Hinv & _ & Hf); [unfold END; lia..|].
  destruct (conduit_ctor_inv (Size := 4) (replicate 4 0)) as [Hc Hi]; [lia|done|].
  destruct (clock_ticks 0 [] [] [1000000; 2000000; 3000000]
    (clock_enter 0 5000000000 (clock_ctor p (conduit_ctor (replicate 4 0) : conduit 4) 1)))
    as (ts & c' & Er & _ & _ & Hs).
  - split; [by eexists|exact Hc|]. intros a Ha.
    assert (a ∈ items (conduit_ctor (replicate 4 0) : conduit 4)) as Ha' by exact Ha.
    rewrite Hi in Ha'. by apply elem_of_nil in Ha'.
  - exists p, ts, c'. split_and!; try done.
Defined.
