(* ===== verification/Text.v ===== *)
(** * Decimal numbers and text

    [std::to_string] of a 64-bit unsigned integer and the output operator for
    it, as byte strings, with a reader; used by the telemetry and the logger. *)

From S2P Require Import Prelude.

Local Open Scope Z_scope.

Definition is_digit (c : Z) : bool := (48 <=? c) && (c <=? 57).

(** The digits of [x], most significant first; [2 ^ 64] has 20 of them. *)
Fixpoint digits (fuel : nat) (x : Z) (acc : list Z) : list Z :=
  match fuel with
  | O => acc
  | S fuel' =>
      let acc' := (48 + x `mod` 10) :: acc in
      if x `div` 10 =? 0 then acc' else digits fuel' (x `div` 10) acc'
  end.

Definition to_string (x : Z) : list Z := digits 20 (u64 x) [].

(** The value of a string of digits. *)
Definition value_of (l : list Z) : Z := foldl (λ a c, 10 * a + (c - 48)) 0 l.

Definition read_number (l : list Z) : option Z :=
  if bool_decide (l = []) || negb (forallb is_digit l) then None else Some (value_of l).

Lemma foldl_value a l : foldl (λ a c, 10 * a + (c - 48)) a l = a * 10 ^ Z.of_nat (length l) + value_of l.
Proof.
  unfold value_of. revert a. induction l as [|c l IH]; intros a; cbn [foldl length]; [cbn; lia|].
  rewrite IH, (IH (10 * 0 + (c - 48))). rewrite Nat2Z.inj_succ, Z.pow_succ_r by lia. lia.
Qed.

Lemma digits_value fuel x acc :
  0 ≤ x < 10 ^ Z.of_nat fuel → (0 < fuel)%nat →
  value_of (digits fuel x acc) = x * 10 ^ Z.of_nat (length acc) + value_of acc.
Proof.
  revert x acc. induction fuel as [|fuel IH]; intros x acc Hx Hf; [lia|]. cbn [digits].
  rewrite Nat2Z.inj_succ, Z.pow_succ_r in Hx by lia.
  pose proof (Z.div_mod x 10 ltac:(lia)) as Hdm. pose proof (Z.mod_pos_bound x 10 ltac:(lia)).
  assert (∀ d, value_of ((48 + d) :: acc) = d * 10 ^ Z.of_nat (length acc) + value_of acc) as Hcons.
  { intros d. unfold value_of at 1. cbn [foldl]. rewrite foldl_value. lia. }
  destruct (Z.eqb_spec (x `div` 10) 0) as [E|Hne].
  - rewrite Hcons. f_equal. f_equal. lia.
  - rewrite IH; [|lia|destruct fuel; [cbn in Hx; lia|lia]].
    rewrite Hcons. cbn [length]. rewrite Nat2Z.inj_succ, Z.pow_succ_r by lia.
    rewrite Hdm at 3. ring.
Qed.

Lemma digits_are_digits fuel x acc :
  0 ≤ x → forallb is_digit acc = true → forallb is_digit (digits fuel x acc) = true.
Proof.
  revert x acc. induction fuel as [|fuel IH]; intros x acc Hx Ha; [done|]. cbn [digits].
  assert (forallb is_digit ((48 + x `mod` 10) :: acc) = true) as Hc.
  { cbn [forallb]. rewrite Ha, andb_true_r. pose proof (Z.mod_pos_bound x 10). unfold is_digit. lia. }
  destruct (x `div` 10 =? 0); [done|]. apply IH; [apply Z.div_pos; lia|done].
Qed.

Lemma to_string_digits x : forallb is_digit (to_string x) = true.
Proof. apply digits_are_digits; [|done]. by apply wrap_range. Qed.

Lemma digits_not_nil fuel x acc : (0 < fuel)%nat → digits fuel x acc ≠ [].
Proof.
  revert x acc. induction fuel as [|fuel IH]; intros x acc Hf; [lia|]. cbn [digits].
  destruct (x `div` 10 =? 0); [done|]. destruct fuel; [done|]. apply IH. lia.
Qed.

Lemma to_string_not_nil x : to_string x ≠ [].
Proof. apply digits_not_nil. lia. Qed.

(** Printing and reading a 64-bit number. *)
Lemma read_to_string x : in_word 64 x → read_number (to_string x) = Some x.
Proof.
  intros Hx. unfold read_number. rewrite to_string_digits, bool_decide_eq_false_2 by apply to_string_not_nil.
  cbn [orb negb]. f_equal. unfold to_string. rewrite wrap_small by done.
  rewrite digits_value; [cbn; lia| |lia]. unfold in_word in Hx. split; [lia|].
  apply Z.lt_trans with (2 ^ 64); [lia|by vm_compute].
Qed.

(** Digits are neither line ends nor braces. *)
Lemma to_string_no_char c x : is_digit c = false → c ∉ to_string x.
Proof.
  intros Hc Hin. pose proof (to_string_digits x) as Hd. rewrite forallb_forall in Hd.
  apply list_elem_of_In, Hd in Hin. congruence.
Qed.
