(* ===== verification/Telemetry.v ===== *)
(** * Telemetry (include/conduit/pending/telemetry/telemetry.hpp,
      include/conduit/pending/supplemental/prometheus_exporter.hpp)

    [telemetry_wrapper] counts the events a node handles in a 64-bit counter
    that may wrap; [telemetry_scraper] samples the counters and reports the
    difference to the last sample; [prometheus_exporter] prints them in the
    text format of Prometheus behind an HTTP header.

    The counters are a list, one per wrapper; a registered target is the index
    of its wrapper (the lambda keeps a reference to it). *)

From Stdlib Require Import Ascii String.
From S2P Require Import Prelude Http Text.

Local Open Scope Z_scope.

(** ** The wrapper *)

Section wrapper.
Context {W : Type} (inner_on : Z → W → option W).

Record telemetry_wrapper := Wrapper { processed_events_ : Z }.

(** [on(ev)]: count, then forward. *)
Definition wrapper_on (ev : Z) (t : telemetry_wrapper) (w : W) : option (telemetry_wrapper * W) :=
  let t' := Wrapper (u64 (processed_events_ t + 1)) in
  w' ← inner_on ev w;
  Some (t', w').

Definition get_count (t : telemetry_wrapper) : Z := processed_events_ t.

Fixpoint wrapper_run (evs : list Z) (t : telemetry_wrapper) (w : W) : option (telemetry_wrapper * W) :=
  match evs with
  | [] => Some (t, w)
  | ev :: evs' => '(t1, w1) ← wrapper_on ev t w; wrapper_run evs' t1 w1
  end.

Fixpoint inner_run (evs : list Z) (w : W) : option W :=
  match evs with [] => Some w | ev :: evs' => w1 ← inner_on ev w; inner_run evs' w1 end.

(** The wrapper is transparent for the node and counts modulo [2 ^ 64]. *)
Lemma wrapper_transparent evs t w :
  in_word 64 (processed_events_ t) →
  wrapper_run evs t w =
    (w' ← inner_run evs w; Some (Wrapper (u64 (processed_events_ t + Z.of_nat (length evs))), w')).
Proof.
  revert t w. induction evs as [|ev evs IH]; intros [n] w Hn; cbn [wrapper_run inner_run length].
  - cbn [mbind option_bind processed_events_] in *. by rewrite Z.add_0_r, wrap_small.
  - unfold wrapper_on. cbn [processed_events_]. destruct (inner_on ev w) as [w1|]; [|done]. cbn [mbind option_bind].
    rewrite IH by (apply wrap_range; lia). cbn [processed_events_].
    rewrite wrap_add_wrap_l by lia. replace (n + 1 + Z.of_nat (length evs)) with (n + Z.of_nat (S (length evs))) by lia.
    done.
Qed.

End wrapper.

(** ** The scraper *)

Record telemetry_scraper := Scraper {
  targets_ : list nat;
  scraper_running_ : bool;
  last_total : Z }.

Definition register_target (t : nat) (s : telemetry_scraper) : telemetry_scraper :=
  Scraper (targets_ s ++ [t]) (scraper_running_ s) (last_total s).

Definition scraper_enter (s : telemetry_scraper) : telemetry_scraper := Scraper (targets_ s) true 0.
Definition scraper_stop (s : telemetry_scraper) : telemetry_scraper :=
  Scraper (targets_ s) false (last_total s).

(** [for (read_func : targets_) current_total += read_func()]; [None] is a
    dangling reference. *)
Fixpoint read_total (targets : list nat) (counters : list Z) (acc : Z) : option Z :=
  match targets with
  | [] => Some acc
  | t :: ts => c ← counters !! t; read_total ts counters (u64 (acc + c))
  end.

(** One turn of the loop of [run()]: the throughput and the total printed. *)
Definition scrape (counters : list Z) (s : telemetry_scraper) : option (Z * Z * telemetry_scraper) :=
  current_total ← read_total (targets_ s) counters 0;
  let eps := u64 (current_total - last_total s) in
  Some (eps, current_total, Scraper (targets_ s) (scraper_running_ s) current_total).

(** The counters when every wrapper [i] has handled [n i] events. *)
Definition counters_of (n : list Z) : list Z := (λ x, u64 x) <$> n.

Definition handled (targets : list nat) (n : list Z) : Z := foldr (λ t a, default 0 (n !! t) + a) 0 targets.

Lemma read_total_spec targets n acc :
  Forall (λ t, (t < length n)%nat) targets → in_word 64 acc →
  read_total targets (counters_of n) acc = Some (u64 (acc + handled targets n)).
Proof.
  intros Ht. revert acc. induction Ht as [|t ts Ht _ IH]; intros acc Hacc; cbn [read_total handled foldr].
  - by rewrite Z.add_0_r, wrap_small.
  - destruct (lookup_lt_is_Some_2 n t Ht) as [x Ex].
    assert (counters_of n !! t = Some (u64 x)) as -> by (unfold counters_of; by rewrite list_lookup_fmap, Ex).
    rewrite Ex. cbn [mbind option_bind default]. rewrite IH by (apply wrap_range; lia).
    f_equal. unfold wrap. rewrite Zplus_mod_idemp_r, Zplus_mod_idemp_l. f_equal. unfold handled. cbn. lia.
Qed.

(** Samples of the numbers of events handled so far. *)
Fixpoint scrapes (samples : list (list Z)) (s : telemetry_scraper) : option (list Z * telemetry_scraper) :=
  match samples with
  | [] => Some ([], s)
  | n :: ns => '(eps, _, s1) ← scrape (counters_of n) s; '(r, s2) ← scrapes ns s1; Some (eps :: r, s2)
  end.

(** The exact differences between consecutive samples. *)
Fixpoint increments (targets : list nat) (before : Z) (samples : list (list Z)) : list Z :=
  match samples with
  | [] => []
  | n :: ns => (handled targets n - before) :: increments targets (handled targets n) ns
  end.

(** The scraper's throughput is exact although the counters wrap.  For any
    samples of the numbers of events the wrappers have handled (unbounded
    numbers, of which the counters keep 64 bits), if fewer than [2 ^ 64] events
    were handled by the registered targets between two samples, the values
    printed are exactly the numbers of events handled in each interval. *)
Theorem scraper_exact samples s before :
  last_total s = u64 before →
  Forall (λ n, Forall (λ t, (t < length n)%nat) (targets_ s)) samples →
  Forall (in_word 64) (increments (targets_ s) before samples) →
  ∃ s', scrapes samples s = Some (increments (targets_ s) before samples, s').
Proof.
  revert s before. induction samples as [|n ns IH]; intros s before Hl Ht Hi; cbn [scrapes increments] in *.
  { by exists s. }
  apply Forall_cons in Ht as [Hn Ht]. apply Forall_cons in Hi as [Hd Hi].
  unfold scrape. rewrite read_total_spec by (done || word_lia). cbn [mbind option_bind].
  destruct (IH (Scraper (targets_ s) (scraper_running_ s) (u64 (0 + handled (targets_ s) n))) (handled (targets_ s) n))
    as (s' & E); try done. cbn [targets_] in E. rewrite E. cbn [mbind option_bind]. exists s'.
  f_equal. f_equal. f_equal. rewrite Hl. rewrite <-(wrap_small 64 _ Hd). unfold wrap.
  by rewrite <-Zminus_mod.
Qed.

(** ** The Prometheus exporter *)

Record prometheus_exporter := Exporter {
  server_fd_ : Z;
  is_running_ : bool;
  counters_ : list (list Z * nat) }.

Definition register_counter (metric_name : list Z) (target : nat) (e : prometheus_exporter)
    : prometheus_exporter :=
  Exporter (server_fd_ e) (is_running_ e) (counters_ e ++ [(metric_name, target)]).

(** [run()] up to the loop: the answers of [socket], [bind] and [listen]. *)
Definition exporter_enter (fd bind_res listen_res : Z) (e : prometheus_exporter) : prometheus_exporter :=
  if (fd <? 0) || (bind_res <? 0) || (listen_res <? 0)
  then Exporter fd (is_running_ e) (counters_ e)
  else Exporter fd true (counters_ e).

(** [stop()]: the socket closed, if any. *)
Definition exporter_stop (e : prometheus_exporter) : option Z * prometheus_exporter :=
  if negb (server_fd_ e =? -1) then (Some (server_fd_ e), Exporter (-1) false (counters_ e))
  else (None, Exporter (server_fd_ e) false (counters_ e)).

(** [~prometheus_exporter()]. *)
Definition exporter_dtor (e : prometheus_exporter) : option Z := (exporter_stop e).1.

(** [stop()] resets the descriptor, so the destructor closes nothing again. *)
Lemma exporter_closes_once e : exporter_dtor (exporter_stop e).2 = None.
Proof. unfold exporter_dtor, exporter_stop. destruct (Z.eqb_spec (server_fd_ e) (-1)) as [E|]; cbn; by rewrite ?E. Qed.

Definition crlf : list Z := [CR; LF].

(** The lines of one counter. *)
Definition render_counter (name : list Z) (count : Z) : list Z :=
  bytes_of "# HELP " ++ name ++ bytes_of " CONDUIT processed events." ++ [LF] ++
  bytes_of "# TYPE " ++ name ++ bytes_of " counter" ++ [LF] ++
  name ++ [SP] ++ to_string count ++ [LF; LF].

Fixpoint render_payload (cs : list (list Z * nat)) (counters : list Z) : option (list Z) :=
  match cs with
  | [] => Some []
  | (name, t) :: cs' =>
      c ← counters !! t; rest ← render_payload cs' counters; Some (render_counter name c ++ rest)
  end.

Definition http_response (body : list Z) : list Z :=
  bytes_of "HTTP/1.1 200 OK" ++ crlf ++
  bytes_of "Content-Type: text/plain; version=0.0.4" ++ crlf ++
  bytes_of "Content-Length: " ++ to_string (Z.of_nat (List.length body)) ++ crlf ++
  bytes_of "Connection: close" ++ crlf ++ crlf ++ body.

(** The answer to one connection: the bytes sent. *)
Definition exporter_turn (counters : list Z) (e : prometheus_exporter) : option (list Z) :=
  body ← render_payload (counters_ e) counters; Some (http_response body).

(** A client: the header lines up to the empty one, the declared length, and
    the samples of the body; comments and empty lines are skipped. *)
Fixpoint split_lf (l : list Z) : list (list Z) :=
  match l with
  | [] => [[]]
  | c :: l' =>
      if c =? LF then [] :: split_lf l'
      else match split_lf l' with [] => [[c]] | h :: t => (c :: h) :: t end
  end.

Definition HASH : Z := 35.

Definition parse_sample (line : list Z) : option (list Z * Z) :=
  match line with
  | [] => None
  | c :: _ =>
      if c =? HASH then None else
      match span (λ c, negb (c =? SP)) line with
      | (name, _ :: v) => n ← read_number v; Some (name, n)
      | (_, []) => None
      end
  end.

Definition parse_body (body : list Z) : list (list Z * Z) := omap parse_sample (split_lf body).

Definition strip_prefix (p l : list Z) : option (list Z) :=
  if decide (take (List.length p) l = p) then Some (drop (List.length p) l) else None.

Fixpoint read_head (fuel : nat) (len : option Z) (l : list Z) : option (option Z * list Z) :=
  match fuel with
  | O => None
  | S fuel' =>
      match span (λ c, negb (c =? LF)) l with
      | (line, _ :: rest) =>
          if bool_decide (line = [CR]) then Some (len, rest)
          else read_head fuel'
                 (match strip_prefix (bytes_of "Content-Length: ") line with
                  | Some v => read_number (removelast v)
                  | None => len
                  end) rest
      | (_, []) => None
      end
  end.

Definition read_response (resp : list Z) : option (list (list Z * Z)) :=
  '(len, body) ← read_head 6 None resp;
  n ← len;
  if n =? Z.of_nat (List.length body) then Some (parse_body body) else None.

(** A metric name: not empty, no blank, no line end, not a comment. *)
Definition name_ok (name : list Z) : Prop :=
  name ≠ [] ∧ (LF ∉ name) ∧ (SP ∉ name) ∧ head name ≠ Some HASH.

Lemma split_lf_line line rest : LF ∉ line → split_lf (line ++ LF :: rest) = line :: split_lf rest.
Proof.
  induction line as [|c line IH]; intros Hl; cbn [app split_lf]; [by rewrite Z.eqb_refl|].
  apply not_elem_of_cons in Hl as [Hc Hl]. rewrite (proj2 (Z.eqb_neq _ _)) by done. by rewrite IH.
Qed.

Lemma span_stop (stop : Z) a rest :
  stop ∉ a → span (λ c, negb (c =? stop)) (a ++ stop :: rest) = (a, stop :: rest).
Proof.
  induction a as [|c a IH]; intros Ha; cbn [app span]; [by rewrite Z.eqb_refl|].
  apply not_elem_of_cons in Ha as [Hc Ha]. rewrite (proj2 (Z.eqb_neq _ _)) by done. cbn [negb]. by rewrite IH.
Qed.

Lemma parse_sample_line name count :
  name_ok name → in_word 64 count → parse_sample (name ++ SP :: to_string count) = Some (name, count).
Proof.
  intros (Hne & _ & Hsp & Hh) Hc. unfold parse_sample. destruct name as [|c name]; [done|]. cbn [app].
  cbn [head] in Hh. rewrite (proj2 (Z.eqb_neq _ _)) by congruence.
  change (c :: name ++ SP :: to_string count) with ((c :: name) ++ SP :: to_string count).
  rewrite span_stop by done. rewrite read_to_string by done. done.
Qed.

Lemma no_lf_name_line (a name b : list Z) : LF ∉ a → LF ∉ name → LF ∉ b → LF ∉ a ++ name ++ b.
Proof. intros. rewrite !elem_of_app. tauto. Qed.

Lemma no_char c s : forallb (λ x, negb (x =? c)) s = true → c ∉ s.
Proof.
  intros H Hin. rewrite forallb_forall in H. apply list_elem_of_In, H in Hin. by rewrite Z.eqb_refl in Hin.
Qed.

Lemma parse_body_counter name count rest :
  name_ok name → in_word 64 count →
  parse_body (render_counter name count ++ rest) = (name, count) :: parse_body rest.
Proof.
  intros Hn Hc. pose proof Hn as (_ & Hlf & _). unfold parse_body, render_counter.
  replace ((bytes_of "# HELP " ++ name ++ bytes_of " CONDUIT processed events." ++ [LF] ++
    bytes_of "# TYPE " ++ name ++ bytes_of " counter" ++ [LF] ++ name ++ [SP] ++ to_string count ++ [LF; LF]) ++ rest)
    with ((bytes_of "# HELP " ++ name ++ bytes_of " CONDUIT processed events.") ++ LF ::
          (bytes_of "# TYPE " ++ name ++ bytes_of " counter") ++ LF ::
          (name ++ SP :: to_string count) ++ LF :: [] ++ LF :: rest)
    by (by rewrite <-!app_assoc; cbn [app]; rewrite <-?app_assoc).
  rewrite (split_lf_line (bytes_of "# HELP " ++ _)), (split_lf_line (bytes_of "# TYPE " ++ _));
    [|by apply no_lf_name_line; [apply no_char|done|apply no_char]..].
  rewrite (split_lf_line (name ++ _)), (split_lf_line []).
  - change (omap parse_sample (?a :: ?b :: ?c :: ?d :: ?l)) with (omap parse_sample (c :: l)).
    cbn [omap list_omap]. by rewrite parse_sample_line.
  - apply not_elem_of_nil.
  - rewrite elem_of_app, elem_of_cons. intros [?|[?|Hin]]; [done|done|]. by eapply to_string_no_char, Hin.
Qed.

Lemma read_head_line fuel len line rest :
  LF ∉ line → line ≠ [CR] →
  read_head (S fuel) len (line ++ LF :: rest) =
  read_head fuel (match strip_prefix (bytes_of "Content-Length: ") line with
                  | Some v => read_number (removelast v)
                  | None => len
                  end) rest.
Proof. intros Hl Hc. cbn [read_head]. rewrite span_stop by done. by rewrite bool_decide_eq_false_2. Qed.

Lemma read_length_line fuel len n rest :
  in_word 64 n →
  read_head (S fuel) len ((bytes_of "Content-Length: " ++ (to_string n ++ [CR])) ++ LF :: rest) =
  read_head fuel (Some n) rest.
Proof.
  intros Hn. rewrite read_head_line; [|rewrite elem_of_app; intros [H|H]; [by eapply no_char in H|]|].
  2:{ apply elem_of_app in H as [H|H]; [by eapply to_string_no_char, H|by apply list_elem_of_singleton in H]. }
  2:{ intros E. apply (f_equal head) in E. discriminate E. }
  assert (strip_prefix (bytes_of "Content-Length: ") (bytes_of "Content-Length: " ++ (to_string n ++ [CR]))
    = Some (to_string n ++ [CR])) as ->.
  { unfold strip_prefix. rewrite decide_True by apply take_app_length. by rewrite drop_app_length. }
  by rewrite removelast_last, read_to_string.
Qed.

Lemma read_http_response body :
  in_word 64 (Z.of_nat (List.length body)) →
  read_head 6 None (http_response body) = Some (Some (Z.of_nat (List.length body)), body).
Proof.
  intros Hb. set (n := Z.of_nat (List.length body)).
  assert (http_response body =
    (bytes_of "HTTP/1.1 200 OK" ++ [CR]) ++ LF ::
    (bytes_of "Content-Type: text/plain; version=0.0.4" ++ [CR]) ++ LF ::
    (bytes_of "Content-Length: " ++ (to_string n ++ [CR])) ++ LF ::
    (bytes_of "Connection: close" ++ [CR]) ++ LF :: [CR] ++ LF :: body) as ->.
  { unfold http_response, crlf. fold n. by rewrite <-!app_assoc; cbn [app]; rewrite <-?app_assoc. }
  rewrite read_head_line by (done || by apply no_char).
  rewrite read_head_line by (done || by apply no_char).
  rewrite read_length_line by done.
  rewrite read_head_line by (done || by apply no_char).
  cbn [read_head]. rewrite span_stop by (by apply no_char). by rewrite bool_decide_eq_true_2.
Qed.

Lemma render_payload_read cs n :
  Forall (λ x, name_ok x.1 ∧ (x.2 < List.length n)%nat) cs →
  ∃ body, render_payload cs (counters_of n) = Some body ∧
    parse_body body = (λ x, (x.1, u64 (default 0 (n !! x.2)))) <$> cs.
Proof.
  induction 1 as [|[name t] cs [Hn Ht] _ (body & IHr & IHp)]; cbn [render_payload]; [by exists []|].
  cbn [fst snd] in *. destruct (lookup_lt_is_Some_2 n t Ht) as [x Ex].
  assert (counters_of n !! t = Some (u64 x)) as -> by (unfold counters_of; by rewrite list_lookup_fmap, Ex).
  cbn [mbind option_bind]. rewrite IHr. cbn [mbind option_bind]. eexists. split; [done|].
  rewrite parse_body_counter by (done || apply wrap_range; lia). rewrite IHp, fmap_cons. cbn [fst snd]. by rewrite Ex.
Qed.

(** What the exporter sends can be read back.  For metric names without
    blanks or line ends, an HTTP client that reads the header, checks the
    declared content length against the body and parses the sample lines gets
    every registered metric, in the order of registration, with the current
    64-bit value of its counter. *)
Theorem exporter_roundtrip n e resp :
  Forall (λ x, name_ok x.1 ∧ (x.2 < List.length n)%nat) (counters_ e) →
  exporter_turn (counters_of n) e = Some resp → Z.of_nat (List.length resp) < 2 ^ 64 →
  read_response resp = Some ((λ x, (x.1, u64 (default 0 (n !! x.2)))) <$> counters_ e).
Proof.
  intros Hcs E Hlen. destruct (render_payload_read _ n Hcs) as (body & Er & Ep).
  unfold exporter_turn in E. rewrite Er in E. cbn [mbind option_bind] in E. injection E as <-.
  assert (List.length body ≤ List.length (http_response body))%nat as Hle
    by (unfold http_response; rewrite !length_app; lia).
  unfold read_response. rewrite read_http_response by word_lia. cbn [mbind option_bind].
  by rewrite Z.eqb_refl, Ep.
Qed.

(** ** Witnesses *)

Lemma scraper_exact_witness :
  ∃ s', scrapes [[5; 7]; [6; 9]] (Scraper [0; 1]%nat true 0) = Some ([12; 3], s').
Proof.
  apply (scraper_exact [[5; 7]; [6; 9]] (Scraper [0; 1]%nat true 0) 0).
  - reflexivity.
  - repeat constructor.
  - by repeat constructor.
Defined.

Lemma exporter_roundtrip_witness :
  ∃ resp, exporter_turn (counters_of [5; 70]) (Exporter 3 true [(bytes_of "orders", 1%nat); (bytes_of "trades", 0%nat)])
      = Some resp ∧
    read_response resp = Some [(bytes_of "orders", 70); (bytes_of "trades", 5)].
Proof.
  destruct (exporter_turn (counters_of [5; 70])
    (Exporter 3 true [(bytes_of "orders", 1%nat); (bytes_of "trades", 0%nat)])) as [resp|] eqn:E.
  - exists resp. split; [done|].
    apply (exporter_roundtrip [5; 70] (Exporter 3 true [(bytes_of "orders", 1%nat); (bytes_of "trades", 0%nat)]) resp);
      [|done|vm_compute in E; injection E as <-; by vm_compute].
    repeat (apply Forall_cons; split); [..|done]; (split; [|cbn; lia]); split_and!; try done;
      apply no_char; vm_compute; reflexivity.
  - vm_compute in E. discriminate E.
Defined.
