(* ===== verification/Logger.v ===== *)
(** * The asynchronous logger (include/conduit/pending/supplemental/async_logger.hpp)

    The hot path ([logger_client::log]) fills a [log_event] with a message id
    and two numbers and pushes it; the logger node pops events on its own
    thread, looks the format string up and replaces the placeholders.  The
    domain and the conduit are used through their interfaces. *)

From Stdlib Require Import Ascii String.
From S2P Require Import Prelude Interfaces Http Text Conduit Pool.

Local Open Scope Z_scope.

Record log_event := LogEvent {
  timestamp_ns : Z;
  message_id : Z;
  arg1 : Z;
  arg2 : Z }.

Definition LBRACE : Z := 123.
Definition RBRACE : Z := 125.

(** [msg.find("{}")]: what is before and behind the first placeholder. *)
Fixpoint find_placeholder (msg : list Z) : option (list Z * list Z) :=
  match msg with
  | c :: ((d :: rest) as msg') =>
      if (c =? LBRACE) && (d =? RBRACE) then Some ([], rest)
      else '(before, after) ← find_placeholder msg'; Some (c :: before, after)
  | _ => None
  end.

(** [if (pos != npos) msg.replace(pos, 2, std::to_string(arg))]. *)
Definition replace_placeholder (msg : list Z) (arg : Z) : list Z :=
  match find_placeholder msg with
  | Some (before, after) => before ++ to_string arg ++ after
  | None => msg
  end.

Definition format_message (msg : list Z) (ev : log_event) : list Z :=
  replace_placeholder (replace_placeholder msg (arg1 ev)) (arg2 ev).

Definition log_line (msg : list Z) (ev : log_event) : list Z :=
  bytes_of "[LOG " ++ to_string (timestamp_ns ev) ++ bytes_of "] " ++ format_message msg ev ++ [LF].

Section logger.
Context {P Q T : Type} `{!Queue Q} `{!Allocator P T}.
Context (v0 : T).

(** The node, its client's domain, the fields of the event objects and what
    was printed. *)
Record async_logger := Logger {
  conduit_ : Q;
  domain_ : P;
  is_running_ : bool;
  format_strings_ : list (list Z);
  log_events : gmap Z log_event;
  cout : list (list Z) }.

(** [register_message(format_str)]: the id is the index as a [uint16_t]. *)
Definition register_message (format_str : list Z) (s : async_logger) : Z * async_logger :=
  let fs := format_strings_ s ++ [format_str] in
  (u16 (Z.of_nat (List.length fs) - 1),
   Logger (conduit_ s) (domain_ s) (is_running_ s) fs (log_events s) (cout s)).

(** [logger_client::log(message_id, arg1, arg2)] at the clock reading [now];
    whether the event was queued.  A refused event is destroyed. *)
Definition client_log (sp1 sp2 : list bool) (now id a1 a2 : Z) (s : async_logger)
    : option (bool * async_logger) :=
  '(ev, p1) ← al_make sp1 v0 (domain_ s);
  if ev =? 0 then
    Some (false, Logger (conduit_ s) p1 (is_running_ s) (format_strings_ s) (log_events s) (cout s))
  else
    let fields := LogEvent (u64 now) (u16 id) (u64 a1) (u64 a2) in
    '(pushed, q1) ← q_push ev (conduit_ s);
    p2 ← (if (pushed : bool) then Some p1 else al_free sp2 ev p1);
    Some (pushed, Logger q1 p2 (is_running_ s) (format_strings_ s) (<[ev := fields]> (log_events s)) (cout s)).

(** What one event prints. *)
Definition printed (fs : list (list Z)) (ev : log_event) : list (list Z) :=
  match (if message_id ev <? Z.of_nat (List.length fs) then zget fs (message_id ev) else None) with
  | Some msg => [log_line msg ev]
  | None => []
  end.

(** One turn of the loop of [run()]. *)
Definition logger_turn (sp : list bool) (s : async_logger) : option async_logger :=
  '(r, q1) ← q_pop (conduit_ s);
  match r with
  | None => Some (Logger q1 (domain_ s) (is_running_ s) (format_strings_ s) (log_events s) (cout s))
  | Some a =>
      ev ← log_events s !! a;
      p1 ← al_free sp a (domain_ s);
      Some (Logger q1 p1 (is_running_ s) (format_strings_ s) (log_events s)
              (cout s ++ printed (format_strings_ s) ev))
  end.

Definition logger_stop (s : async_logger) : async_logger :=
  Logger (conduit_ s) (domain_ s) false (format_strings_ s) (log_events s) (cout s).

Inductive log_act :=
  | Log (sp1 sp2 : list bool) (now id a1 a2 : Z)
  | Turn (sp : list bool).

(** Both threads; the accepted events are collected. *)
Fixpoint log_run (acts : list log_act) (s : async_logger) : option (list log_event * async_logger) :=
  match acts with
  | [] => Some ([], s)
  | Log sp1 sp2 now id a1 a2 :: acts' =>
      '(ok, s1) ← client_log sp1 sp2 now id a1 a2 s;
      '(evs, s2) ← log_run acts' s1;
      Some ((if (ok : bool) then [LogEvent (u64 now) (u16 id) (u64 a1) (u64 a2)] else []) ++ evs, s2)
  | Turn sp :: acts' => s1 ← logger_turn sp s; log_run acts' s1
  end.

(** The id finds the message again as long as at most 65536 messages are
    registered; the next one gets the id 0 of the first. *)
Lemma register_message_id fmt s :
  let '(id, s') := register_message fmt s in
  ((List.length (format_strings_ s) < Z.to_nat 65536)%nat → zget (format_strings_ s') id = Some fmt) ∧
  (List.length (format_strings_ s) = Z.to_nat 65536 → id = 0).
Proof.
  unfold register_message. rewrite length_app. cbn [List.length format_strings_].
  replace (Z.of_nat (List.length (format_strings_ s) + 1) - 1) with (Z.of_nat (List.length (format_strings_ s))) by lia.
  split; intros H.
  - rewrite wrap_small by word_lia. unfold zget. rewrite decide_True by lia. rewrite Nat2Z.id.
    by apply list_lookup_middle.
  - rewrite H, Z2Nat.id by lia. reflexivity.
Qed.

(** ** Delivery *)

Definition queued_events (s : async_logger) : list log_event :=
  omap (λ a, log_events s !! a) (q_items (conduit_ s)).

Record logger_inv (s : async_logger) : Prop := {
  lg_pool : al_inv (domain_ s);
  lg_queue : q_inv (conduit_ s);
  lg_nodup : NoDup (q_items (conduit_ s));
  lg_live a : is_Some (al_live (domain_ s) !! a) ↔ a ∈ q_items (conduit_ s);
  lg_events a : a ∈ q_items (conduit_ s) → is_Some (log_events s !! a) }.

Context `{!QueueLaws Q} `{!AllocatorLaws P T}.

Lemma queued_insert (m : gmap Z log_event) a ev (l : list Z) :
  a ∉ l → omap (λ b, <[a := ev]> m !! b) l = omap (λ b, m !! b) l.
Proof.
  intros Ha. induction l as [|b l IH]; [done|]. apply not_elem_of_cons in Ha as [Hne Ha].
  cbn [omap list_omap]. rewrite lookup_insert_ne by done. by rewrite IH.
Qed.

Lemma client_log_spec sp1 sp2 now id a1 a2 s :
  logger_inv s →
  ∃ ok s', client_log sp1 sp2 now id a1 a2 s = Some (ok, s') ∧ logger_inv s' ∧
    format_strings_ s' = format_strings_ s ∧ cout s' = cout s ∧
    queued_events s' = queued_events s ++
      (if ok then [LogEvent (u64 now) (u16 id) (u64 a1) (u64 a2)] else []) ∧
    (ok = true ↔ (0 < al_room (domain_ s))%nat ∧
                 (List.length (q_items (conduit_ s)) < q_cap (conduit_ s))%nat).
Proof.
  intros [Hp Hq Hnd Hl He]. unfold client_log.
  destruct (al_make_cases sp1 v0 (domain_ s) Hp)
    as [[Hr ->]|(a & p1 & -> & Ha & Hf & Hl1 & Hr1 & Hp1)]; cbn [mbind option_bind].
  { rewrite Z.eqb_refl. eexists false, _. split; [done|]. split_and!; try done; [by rewrite app_nil_r|].
    split; [done|]. intros [? _]. lia. }
  rewrite (proj2 (Z.eqb_neq _ _)) by done. cbv zeta.
  assert (a ∉ q_items (conduit_ s)) as Hna by eauto with cre.
  set (ev := LogEvent (u64 now) (u16 id) (u64 a1) (u64 a2)).
  destruct (q_push_cases a (conduit_ s) Hq) as [(q1 & -> & Ei & Ec & Hq1 & Hroom)|[-> Hfull]];
    cbn [mbind option_bind].
  - eexists true, _. split; [done|]. split_and!; try done.
    + split; cbn [domain_ conduit_ log_events]; rewrite ?Ei, ?Hl1; eauto with cre.
    + unfold queued_events. cbn [conduit_ log_events]. rewrite Ei, omap_app. cbn [omap list_omap].
      rewrite lookup_insert_eq. by rewrite queued_insert.
    + split; [|done]. intros _. lia.
  - destruct (al_free_live sp2 a v0 p1 Hp1) as (p2 & -> & Hl2 & _ & Hp2); [by rewrite Hl1, lookup_insert_eq|].
    cbn [mbind option_bind]. rewrite Hl1, delete_insert_id in Hl2 by done. eexists false, _. split; [done|].
    split_and!; try done.
    + split; cbn [domain_ conduit_ log_events]; rewrite ?Hl2; eauto with cre.
    + unfold queued_events. cbn [conduit_ log_events]. by rewrite queued_insert, app_nil_r.
    + split; [done|]. intros [_ ?]. lia.
Qed.

Lemma logger_turn_spec sp s :
  logger_inv s →
  ∃ s', logger_turn sp s = Some s' ∧ logger_inv s' ∧ format_strings_ s' = format_strings_ s ∧
    cout s' ++ (queued_events s' ≫= printed (format_strings_ s)) =
    cout s ++ (queued_events s ≫= printed (format_strings_ s)).
Proof.
  intros [Hp Hq Hnd Hl He]. unfold logger_turn.
  destruct (q_pop_cases (conduit_ s) Hq) as [[E ->]|(a & l & q1 & E & -> & Ei & Ec & Hq1)]; cbn [mbind option_bind].
  { eexists. split; [done|]. split_and!; done. }
  rewrite E in Hnd, Hl, He. destruct (He a) as [ev Hev]; [by left|]. rewrite Hev. cbn [mbind option_bind].
  destruct (proj2 (Hl a)) as [v Hv]; [by left|].
  destruct (al_free_live sp a v _ Hp Hv) as (p1 & -> & Hl1 & _ & Hp1). cbn [mbind option_bind].
  eexists. split; [done|]. split_and!; try done.
  - split; cbn [domain_ conduit_ log_events]; rewrite ?Ei; try done.
    + by apply NoDup_cons in Hnd as [_ ?].
    + rewrite <-(app_nil_r l), Hl1. apply live_tail; by rewrite app_nil_r.
    + intros b Hb. apply He. by right.
  - unfold queued_events. cbn [conduit_ log_events cout]. rewrite Ei, E. cbn [omap list_omap].
    rewrite Hev. by rewrite bind_cons, app_assoc.
Qed.

(** The log is complete and in order.  For every interleaving of [log]
    calls and turns of the logger, what was printed followed by what the
    queued events will print is what the accepted events print, in the order
    of the calls: nothing is lost, duplicated or reordered.  An event is
    accepted exactly when the pool and the conduit have room ([client_log_spec]),
    and no cell of the pool leaks. *)
Theorem logger_in_order acts s :
  logger_inv s →
  ∃ evs s', log_run acts s = Some (evs, s') ∧ logger_inv s' ∧
    cout s' ++ (queued_events s' ≫= printed (format_strings_ s)) =
    cout s ++ ((queued_events s ++ evs) ≫= printed (format_strings_ s)).
Proof.
  revert s. induction acts as [|[sp1 sp2 now id a1 a2|sp] acts IH]; intros s Hs; cbn [log_run].
  - exists [], s. by rewrite app_nil_r.
  - destruct (client_log_spec sp1 sp2 now id a1 a2 s Hs) as (ok & s1 & -> & Hs1 & Ef & Eo & Eq & _).
    cbn [mbind option_bind]. destruct (IH s1 Hs1) as (evs & s' & -> & Hs' & E). cbn [mbind option_bind].
    eexists _, s'. split; [done|]. split; [done|]. rewrite Ef, Eo, Eq, <-app_assoc in E. exact E.
  - destruct (logger_turn_spec sp s Hs) as (s1 & -> & Hs1 & Ef & E1). cbn [mbind option_bind].
    destruct (IH s1 Hs1) as (evs & s' & -> & Hs' & E). exists evs, s'. split; [done|]. split; [done|].
    rewrite Ef in E. rewrite E, !bind_app, !app_assoc. by rewrite E1.
Qed.

End logger.

(** ** Formatting *)

Definition no_placeholder (l : list Z) : Prop := find_placeholder l = None.

Lemma find_placeholder_cons c d l :
  find_placeholder (c :: d :: l) =
  if (c =? LBRACE) && (d =? RBRACE) then Some ([], l)
  else '(before, after) ← find_placeholder (d :: l); Some (c :: before, after).
Proof. done. Qed.

Lemma find_placeholder_first p q :
  no_placeholder p → find_placeholder (p ++ LBRACE :: RBRACE :: q) = Some (p, q).
Proof.
  unfold no_placeholder. induction p as [|c p IH]; intros Hp; [done|].
  destruct p as [|d p]; cbn [app] in *; rewrite find_placeholder_cons.
  - change (LBRACE =? RBRACE) with false. by rewrite andb_false_r.
  - rewrite find_placeholder_cons in Hp. destruct ((c =? LBRACE) && (d =? RBRACE)) eqn:E; [done|].
    destruct (find_placeholder (d :: p)) as [[? ?]|] eqn:E2; [done|]. by rewrite IH.
Qed.

Lemma no_placeholder_app p q :
  no_placeholder p → no_placeholder q → (last p ≠ Some LBRACE ∨ head q ≠ Some RBRACE) → no_placeholder (p ++ q).
Proof.
  unfold no_placeholder. intros Hp Hq Hj. induction p as [|c p IH]; [done|].
  destruct p as [|d p]; cbn [app] in *.
  - destruct q as [|d q]; [done|]. rewrite find_placeholder_cons, Hq. cbn [mbind option_bind].
    destruct (Z.eqb_spec c LBRACE) as [->|]; [|done]. destruct (Z.eqb_spec d RBRACE) as [->|]; [|done].
    exfalso. destruct Hj as [H|H]; by apply H.
  - rewrite find_placeholder_cons in Hp |- *. destruct ((c =? LBRACE) && (d =? RBRACE)); [done|].
    destruct (find_placeholder (d :: p)) as [[? ?]|] eqn:E2; [done|].
    rewrite IH; [done|done|]. destruct Hj as [H|H]; [left|by right]. by rewrite last_cons_cons in H.
Qed.

Lemma digits_no_placeholder l : forallb is_digit l = true → no_placeholder l.
Proof.
  unfold no_placeholder. induction l as [|c l IH]; [done|]. cbn [forallb]. intros [Hc Hl]%andb_true_iff.
  destruct l as [|d l]; [done|]. rewrite find_placeholder_cons, (IH Hl).
  destruct (Z.eqb_spec c LBRACE) as [->|]; [done|]. done.
Qed.

Lemma digit_ends l :
  forallb is_digit l = true → l ≠ [] → head l ≠ Some RBRACE ∧ last l ≠ Some LBRACE.
Proof.
  intros Hd Hne. rewrite forallb_forall in Hd. split; intros E.
  - destruct l as [|c l]; [done|]. injection E as ->. by specialize (Hd RBRACE (or_introl eq_refl)).
  - apply last_Some_elem_of, list_elem_of_In, Hd in E. done.
Qed.

(** The placeholders of a format string are replaced by the arguments in
    order: a message with two placeholders prints its pieces around the two
    numbers, whatever the numbers are.  (The second search starts at the
    beginning again and cannot be misled by the first number.) *)
Theorem log_format_two p q r ev :
  no_placeholder p → no_placeholder q →
  format_message (p ++ [LBRACE; RBRACE] ++ q ++ [LBRACE; RBRACE] ++ r) ev =
  p ++ to_string (arg1 ev) ++ q ++ to_string (arg2 ev) ++ r.
Proof.
  intros Hp Hq. unfold format_message, replace_placeholder at 2. cbn [app].
  rewrite find_placeholder_first by done. unfold replace_placeholder.
  pose proof (to_string_digits (arg1 ev)) as Hd. pose proof (to_string_not_nil (arg1 ev)) as Hne.
  destruct (digit_ends _ Hd Hne) as [Hh Hl].
  assert (no_placeholder (p ++ to_string (arg1 ev) ++ q)) as Hpq.
  { apply no_placeholder_app; [done| |].
    - apply no_placeholder_app; [by apply digits_no_placeholder|done|by left].
    - right. destruct (to_string (arg1 ev)); [done|exact Hh]. }
  replace (p ++ to_string (arg1 ev) ++ q ++ LBRACE :: RBRACE :: r)
    with ((p ++ to_string (arg1 ev) ++ q) ++ LBRACE :: RBRACE :: r) by (by rewrite <-!app_assoc).
  rewrite find_placeholder_first by done. by rewrite <-!app_assoc.
Qed.

(** ** Witnesses *)

Lemma log_format_two_witness :
  format_message (bytes_of "order {} at {} EUR") (LogEvent 0 0 42 1999) = bytes_of "order 42 at 1999 EUR".
Proof. apply (log_format_two (bytes_of "order ") (bytes_of " at ") (bytes_of " EUR") (LogEvent 0 0 42 1999)); reflexivity. Defined.

Lemma logger_in_order_witness :
  ∃ (p : pool Z) evs s', pool_ctor 4096 64 2 = Some p ∧
    log_run 0 [Log [] [] 1 0 5 0; Log [] [] 2 0 6 0; Turn []; Log [] [] 3 0 7 0]
      (Logger (conduit_ctor (replicate 4 0) : conduit 4) p true [bytes_of "n {}"] ∅ []) = Some (evs, s') ∧
    cout s' ++ (queued_events s' ≫= printed [bytes_of "n {}"]) = (evs ≫= printed [bytes_of "n {}"]).
Proof.
  destruct (pool_ctor_fresh (T := Z) 4096 64 2) as (p & E & Hinv & Hl & Hf); [unfold END; lia..|].
  destruct (conduit_ctor_inv (Size := 4) (replicate 4 0)) as [Hc Hi]; [lia|done|].
  set (s := Logger (conduit_ctor (replicate 4 0) : conduit 4) p true [bytes_of "n {}"] ∅ []).
  assert (q_items (conduit_ s) = []) as Hq by exact Hi.
  assert (al_live (domain_ s) = ∅) as Hl' by exact Hl.
  destruct (logger_in_order 0 [Log [] [] 1 0 5 0; Log [] [] 2 0 6 0; Turn []; Log [] [] 3 0 7 0] s)
    as (evs & s' & Er & _ & Ho).
  - split.
    + by eexists.
    + exact Hc.
    + rewrite Hq. constructor.
    + intros a. rewrite Hl', Hq, lookup_empty. split; [by intros [? ?]|by intros ?%elem_of_nil].
    + intros a. rewrite Hq. by intros ?%elem_of_nil.
  - exists p, evs, s'. split; [done|]. split; [exact Er|]. unfold queued_events in Ho at 2. rewrite Hq in Ho. exact Ho.
Defined.
