(* ===== verification/Environment.v ===== *)
(** * The environment builder (include/conduit/pending/supplemental/environment.hpp)

    [environment] spawns one thread per worker; each worker loops while the
    flag [is_running_] of the environment is set, popping events from its
    conduit and handing them to its node.  The threads are interleaved at the
    test of the flag; the flag is read as a single shared variable (the source
    uses a plain [bool], so a reading that lags behind is possible too).

    Pinning a thread is what Platform.v says; [pinned] records what was asked.

    The node and the release of the event behind it are a parameter, and so is
    the [run()] of an I/O node, which loops on its own: the environment only
    starts it and joins it. *)

From S2P Require Import Prelude Interfaces Conduit Platform.

Local Open Scope Z_scope.

Section environment.
Context {Q W : Type} `{!Queue Q}.

Context (os : platform).

(** [node.on(ev)] of worker [i], and the destruction of [ev]. *)
Context (node_on : nat → Z → W → W).

(** One turn of [io_node.run()] of thread [i]: whether [run()] returns. *)
Context (io_turn : nat → W → bool * W).

Inductive thread := Running | RunningIo | Exited | Joined.

Record environment := Env {
  is_running_ : bool;
  workers_ : list thread;
  conduits : list Q;
  pinned : list (list sched_call);   (* what was asked of the scheduler for each thread *)
  world : W }.

Inductive env_act :=
  | SpawnWorker (rx_conduit : Q) (cpu_core : Z)
  | SpawnIo (unused : Q) (cpu_core : Z)
  | Start
  | Stop
  | Join                  (* [wait_for_shutdown()] gets past one thread *)
  | Worker (i : nat)      (* worker [i] makes one turn of its loop *)
  | IoNode (i : nat).     (* I/O thread [i] makes one turn of [run()] *)

(** [spawn_worker(node, rx_conduit, cpu_core)]: the thread is started, then
    pinned. *)
Definition spawn_worker (rx_conduit : Q) (cpu_core : Z) (e : environment) : option environment :=
  calls ← env_pin_thread_to_core os cpu_core;
  Some (Env (is_running_ e) (workers_ e ++ [Running]) (conduits e ++ [rx_conduit]) (pinned e ++ [calls]) (world e)).

(** [spawn_io_node(io_node, cpu_core)]; the thread has no conduit of its own, its
    entry in [conduits] is not used. *)
Definition spawn_io_node (unused : Q) (cpu_core : Z) (e : environment) : option environment :=
  calls ← env_pin_thread_to_core os cpu_core;
  Some (Env (is_running_ e) (workers_ e ++ [RunningIo]) (conduits e ++ [unused]) (pinned e ++ [calls]) (world e)).

Definition start (e : environment) : environment := Env true (workers_ e) (conduits e) (pinned e) (world e).
Definition stop (e : environment) : environment := Env false (workers_ e) (conduits e) (pinned e) (world e).

(** One turn of a worker: test the flag, pop, handle or yield. *)
Definition worker_turn (i : nat) (e : environment) : option environment :=
  t ← workers_ e !! i;
  match t with
  | Running =>
      if is_running_ e then
        q ← conduits e !! i;
        '(r, q1) ← q_pop q;
        Some (Env true (workers_ e) (<[i := q1]> (conduits e)) (pinned e)
                (match r with Some a => node_on i a (world e) | None => world e end))
      else Some (Env false (<[i := Exited]> (workers_ e)) (conduits e) (pinned e) (world e))
  | _ => None
  end.

(** One turn of an I/O node: the flag of the environment is not consulted. *)
Definition io_node_turn (i : nat) (e : environment) : option environment :=
  t ← workers_ e !! i;
  match t with
  | RunningIo =>
      let '(returns, w) := io_turn i (world e) in
      Some (Env (is_running_ e) (if (returns : bool) then <[i := Exited]> (workers_ e) else workers_ e)
              (conduits e) (pinned e) w)
  | _ => None
  end.

(** [wait_for_shutdown()] joins the first thread that is not joined; it blocks
    ([None]) while that thread runs. *)
Fixpoint join_first (ws : list thread) : option (list thread) :=
  match ws with
  | [] => None
  | Joined :: ws' => ws'' ← join_first ws'; Some (Joined :: ws'')
  | Exited :: ws' => Some (Joined :: ws')
  | Running :: _ | RunningIo :: _ => None
  end.

Definition env_exec (a : env_act) (e : environment) : option environment :=
  match a with
  | SpawnWorker q core => spawn_worker q core e
  | SpawnIo q core => spawn_io_node q core e
  | Start => Some (start e)
  | Stop => Some (stop e)
  | Join => ws ← join_first (workers_ e); Some (Env (is_running_ e) ws (conduits e) (pinned e) (world e))
  | Worker i => worker_turn i e
  | IoNode i => io_node_turn i e
  end.

Fixpoint env_run (acts : list env_act) (e : environment) : option environment :=
  match acts with
  | [] => Some e
  | a :: acts' => e1 ← env_exec a e; env_run acts' e1
  end.

(** [wait_for_shutdown()] has returned. *)
Definition shut_down (e : environment) : bool := forallb (λ t, match t with Joined => true | _ => false end) (workers_ e).

(** [~environment()]: [stop()], then the threads are destroyed; destroying a
    thread that was not joined calls [std::terminate] ([None]). *)
Definition env_dtor (e : environment) : option environment :=
  if shut_down e then Some (stop e) else None.

Definition env_ctor (w : W) : environment := Env false [] [] [] w.

(** ** The workers *)

(** What worker [i] does to the world with the pointers [l]. *)
Definition handle_all (i : nat) (l : list Z) (w : W) : W := foldl (λ w a, node_on i a w) w l.

Context `{!QueueLaws Q}.

(** While the flag is set, a running worker handles the events of its conduit
    in order and then idles. *)
Lemma worker_drains i q e n :
  is_running_ e = true → workers_ e !! i = Some Running → conduits e !! i = Some q → q_inv q →
  (length (q_items q) ≤ n)%nat →
  ∃ e' q', env_run (replicate n (Worker i)) e = Some e' ∧
    world e' = handle_all i (q_items q) (world e) ∧ conduits e' !! i = Some q' ∧ q_items q' = [] ∧
    is_running_ e' = true ∧ workers_ e' = workers_ e.
Proof.
  revert q e. induction n as [|n IH]; intros q e Hrun Hw Hc Hq Hn; cbn [replicate env_run].
  { exists e, q. assert (q_items q = []) as E by (destruct (q_items q); [done|cbn in Hn; lia]). by rewrite E. }
  cbn [env_exec]. unfold worker_turn. rewrite Hw. cbn [mbind option_bind]. rewrite Hrun, Hc. cbn [mbind option_bind].
  assert (∀ q1, <[i := q1]> (conduits e) !! i = Some q1) as Hins
    by (intros q1; apply list_lookup_insert_eq; by eapply lookup_lt_Some).
  destruct (q_pop_cases q Hq) as [[E ->]|(a & l & q1 & E & -> & Ei & Ec & Hq1)]; cbn [mbind option_bind].
  - destruct (IH q (Env true (workers_ e) (<[i := q]> (conduits e)) (pinned e) (world e))) as (e' & q' & Er & Ew & ?); try done.
    { by apply Hins. }
    { rewrite E. cbn. lia. }
    exists e', q'. rewrite Er, E in *. done.
  - destruct (IH q1 (Env true (workers_ e) (<[i := q1]> (conduits e)) (pinned e) (node_on i a (world e))))
      as (e' & q' & Er & Ew & ?); try done.
    { by apply Hins. }
    { rewrite E in Hn. cbn in Hn. rewrite Ei. lia. }
    exists e', q'. rewrite Er, E. rewrite Ei in Ew. done.
Qed.

(** A worker whose first test of the flag comes before [start()] exits at once:
    the builder spawns the threads before the flag is set, so the topology may
    start with dead workers, and their events are never handled. *)
Lemma worker_before_start q w :
  env_run [SpawnWorker q (-1); Worker 0; Start; Join] (env_ctor w) = Some (Env true [Joined] [q] [[]] w) ∧
  shut_down (Env true [Joined] [q] [[]] w) = true.
Proof. done. Qed.

(** After [start()] no running worker exits before [stop()]. *)
Lemma worker_stays i e e' :
  is_running_ e = true → worker_turn i e = Some e' → is_running_ e' = true ∧ workers_ e' = workers_ e.
Proof.
  unfold worker_turn. intros Hr E. rewrite Hr in E.
  destruct (workers_ e !! i) as [[]|]; cbn in E; try done.
  destruct (conduits e !! i) as [q|]; [|done]. cbn in E. destruct (q_pop q) as [[r q1]|]; [|done]. cbn in E.
  by inv_some.
Qed.

(** ** Shutting down *)

Lemma env_run_app a b e : env_run (a ++ b) e = (e1 ← env_run a e; env_run b e1).
Proof. revert e. induction a as [|x a IH]; intros e; cbn; [done|]. destruct (env_exec x e); cbn; [apply IH|done]. Qed.

(** Once the flag is cleared, one turn makes each worker exit. *)
Lemma workers_exit done_ todo e :
  is_running_ e = false → workers_ e = replicate done_ Exited ++ replicate todo Running →
  env_run (Worker <$> seq done_ todo) e =
    Some (Env false (replicate (done_ + todo) Exited) (conduits e) (pinned e) (world e)).
Proof.
  revert done_ e. induction todo as [|n IH]; intros d e Hr Hw; cbn [seq]; rewrite ?fmap_nil, ?fmap_cons; cbn [env_run].
  - destruct e; cbn in *. rewrite Hw, app_nil_r, Nat.add_0_r. by rewrite Hr.
  - cbn [env_exec]. unfold worker_turn. rewrite Hw, lookup_app_r by (by rewrite length_replicate).
    rewrite length_replicate, Nat.sub_diag. cbn [lookup list_lookup replicate mbind option_bind]. rewrite Hr. cbn [mbind option_bind].
    rewrite (IH (S d)); [|done|].
    + cbn. by rewrite Nat.add_succ_r.
    + cbn [workers_]. rewrite insert_app_r_alt by (by rewrite length_replicate). rewrite length_replicate, Nat.sub_diag.
      by rewrite (replicate_S_end d), <-app_assoc.
Qed.

Lemma joins_all joined todo e :
  workers_ e = replicate joined Joined ++ replicate todo Exited →
  env_run (replicate todo Join) e =
    Some (Env (is_running_ e) (replicate (joined + todo) Joined) (conduits e) (pinned e) (world e)).
Proof.
  assert (∀ j l, join_first (replicate j Joined ++ Exited :: l) = Some (replicate j Joined ++ Joined :: l)) as Hj.
  { intros j l. induction j as [|j IH]; cbn; [done|]. by rewrite IH. }
  revert joined e. induction todo as [|n IH]; intros j e Hw; cbn [replicate env_run].
  - destruct e; cbn in *. by rewrite Hw, app_nil_r, Nat.add_0_r.
  - cbn [env_exec]. rewrite Hw. cbn [replicate]. rewrite Hj. cbn [mbind option_bind].
    rewrite (IH (S j)); cbn [is_running_ workers_ conduits pinned world]; [by rewrite Nat.add_succ_r|].
    change (Joined :: replicate n Exited) with ([Joined] ++ replicate n Exited).
    by rewrite app_assoc, <-replicate_S_end.
Qed.

(** A running environment of workers shuts down: after [stop()], one turn of
    each worker lets [wait_for_shutdown()] join them all, no event is taken
    from a conduit any more, and the environment may be destroyed. *)
Lemma env_shuts_down n e :
  workers_ e = replicate n Running →
  ∃ e', env_run (Stop :: (Worker <$> seq 0 n) ++ replicate n Join) e = Some e' ∧
    shut_down e' = true ∧ conduits e' = conduits e ∧ world e' = world e ∧ env_dtor e' = Some (stop e').
Proof.
  intros Hw. cbn [env_run env_exec mbind option_bind]. rewrite env_run_app.
  rewrite (workers_exit 0 n) by done. cbn [mbind option_bind Nat.add]. rewrite (joins_all 0 n) by done.
  eexists. split; [done|]. cbn [Nat.add].
  match goal with |- shut_down ?e' = true ∧ _ => assert (shut_down e' = true) as Hs end.
  { unfold shut_down. cbn [workers_]. clear. by induction n. }
  unfold env_dtor. by rewrite Hs.
Qed.

(** [stop()] does not reach an I/O node: as long as its own [run()] does not
    return, [wait_for_shutdown()] blocks, whatever the other threads do. *)
Lemma io_node_blocks_shutdown i ws e :
  workers_ e = replicate i Joined ++ RunningIo :: ws →
  (∀ w, (io_turn i w).1 = false) →
  ∀ n, ∃ w, env_run (Stop :: replicate n (IoNode i)) e
              = Some (Env false (workers_ e) (conduits e) (pinned e) w) ∧
            env_exec Join (Env false (workers_ e) (conduits e) (pinned e) w) = None.
Proof.
  intros Hw Hio n. cbn [env_run env_exec mbind option_bind]. unfold stop.
  assert (join_first (workers_ e) = None) as Hj.
  { rewrite Hw. clear. induction i as [|i IH]; cbn; [done|]. by rewrite IH. }
  generalize (world e). induction n as [|n IH]; intros w; cbn [replicate env_run env_exec].
  - exists w. split; [done|]. cbn [workers_]. by rewrite Hj.
  - unfold io_node_turn. cbn [workers_].
    assert (workers_ e !! i = Some RunningIo) as -> by
      (rewrite Hw, lookup_app_r, length_replicate, Nat.sub_diag by (by rewrite length_replicate); done).
    cbn [mbind option_bind world]. destruct (io_turn i w) as [r w1] eqn:E.
    specialize (Hio w). rewrite E in Hio. cbn in Hio. subst r. apply IH.
Qed.

(** ** Pinning *)

Definition spawned_core (a : env_act) : option Z :=
  match a with SpawnWorker _ core | SpawnIo _ core => Some core | _ => None end.

(** What the scheduler is asked for a thread. *)
Definition core_request (core : Z) : list sched_call := if core <? 0 then [] else [Affinity (2 ^ core)].

(** In every run, the threads are pinned in the order they are spawned, each to
    its own core and only those with a core that is not negative; nothing else
    the environment does touches the scheduler.  A core outside the set is
    undefined behaviour. *)
Lemma env_pins acts : ∀ e e',
  env_run acts e = Some e' →
  pinned e' = pinned e ++ (core_request <$> omap spawned_core acts) ∧
  Forall (λ core, core < core_limit os) (omap spawned_core acts).
Proof.
  assert (∀ core calls, env_pin_thread_to_core os core = Some calls → calls = core_request core ∧ core < core_limit os) as Hpin.
  { intros core calls. unfold env_pin_thread_to_core, core_request. assert (0 < core_limit os) by (by destruct os).
    destruct (Z.ltb_spec core 0); [intros; inv_some; split; [done|lia]|].
    destruct (Z.lt_ge_cases core (core_limit os)) as [Hlt|Hge].
    - rewrite core_set by lia. cbn. intros. inv_some. done.
    - unfold core_mask, CPU_SET. destruct os; rewrite (proj2 (Z.ltb_ge core (core_limit _))), andb_false_r by done; done. }
  induction acts as [|a acts IH]; intros e e' E; cbn [env_run] in E.
  { inv_some. cbn. rewrite app_nil_r. split; [done|constructor]. }
  destruct (env_exec a e) as [e1|] eqn:E1; [|done]. cbn [mbind option_bind] in E. apply IH in E as [-> Hall].
  destruct a as [q core|q core| | | |i|i]; cbn [env_exec] in E1; cbn [omap list_omap spawned_core].
  1-2: unfold spawn_worker, spawn_io_node in E1; destruct (env_pin_thread_to_core os core) as [calls|] eqn:Ep; [|done];
    apply Hpin in Ep as [-> Hlt]; cbn [mbind option_bind] in E1; inv_some; cbn [pinned]; rewrite fmap_cons, <-app_assoc;
    split; [done|by constructor].
  - inv_some. done.
  - inv_some. done.
  - destruct (join_first (workers_ e)); [|done]. cbn in E1. by inv_some.
  - unfold worker_turn in E1. destruct (workers_ e !! i) as [[]|]; cbn in E1; try done. destruct (is_running_ e); [|by inv_some].
    destruct (conduits e !! i); [|done]. cbn in E1. destruct (q_pop _) as [[r q1]|]; [|done]. cbn in E1. by inv_some.
  - unfold io_node_turn in E1. destruct (workers_ e !! i) as [[]|]; cbn in E1; try done.
    destruct (io_turn i (world e)) as [r w]. by inv_some.
Qed.

End environment.
