(* ===== verification/Moe.v ===== *)
(** * The tensor dispatcher (include/conduit/pending/domain/moe_spark.hpp)

    [moe_dispatcher::process_tick] advances the timing wheel, reports a
    timeout, takes at most one request from its inbound channel, schedules a
    timeout for it and hands it to the device of its expert by storing a mask.
    The inbound channel is any [Queue]; the wheel is the one of TimingWheel.v.

    The dispatcher schedules the same node (42) for every request, also while
    it is already linked in the wheel, which the specification of the wheel
    does not allow.  The file shows that the dispatcher gets away with it:
    every request taken is reported exactly [due_in 100] ticks later. *)

From S2P Require Import Prelude Interfaces Conduit TimingWheel.

Local Open Scope Z_scope.

(** A request; [weights] is the payload. *)
Record ai_tensor_entity := Entity {
  next : Z;
  ownership_mask : Z;
  expert_id : Z;
  timeout_node_id : Z;
  weights : list Z }.

Definition set_mask (m : Z) (e : ai_tensor_entity) : ai_tensor_entity :=
  Entity (next e) m (expert_id e) (timeout_node_id e) (weights e).

(** What [process_tick] prints. *)
Inductive moe_line := TimeoutExceeded (head : Z) | Received | Transferred.

#[export] Instance moe_line_eq_dec : EqDecision moe_line.
Proof. solve_decision. Defined.

Record moe_dispatcher (Q : Type) := Moe {
  inbound_pipe_ : Q;
  timing_wheel_ : timing_wheel;
  timer_nodes : gmap Z timing_node;
  requests : gmap Z ai_tensor_entity }.

Arguments Moe {Q} inbound_pipe_ timing_wheel_ timer_nodes requests.
Arguments inbound_pipe_ {Q} m.
Arguments timing_wheel_ {Q} m.
Arguments timer_nodes {Q} m.
Arguments requests {Q} m.

Section moe.
Context (WheelSlots : Z) `{QueueLaws Q}.
Implicit Types m : moe_dispatcher Q.

(** The constructor takes references to the pool of nodes, the channel and
    the wheel. *)
Definition moe_ctor (ns : gmap Z timing_node) (pipe : Q) (time : timing_wheel)
    (reqs : gmap Z ai_tensor_entity) : moe_dispatcher Q := Moe pipe time ns reqs.

(** [while (expired_head != 0xFFFFFFFF)]: the body ends the loop. *)
Fixpoint report_expired (fuel : nat) (expired_head : Z) : option (list moe_line) :=
  match fuel with
  | O => None
  | S fuel' =>
      if expired_head =? END_OF_LIST then Some []
      else rest ← report_expired fuel' END_OF_LIST; Some (TimeoutExceeded expired_head :: rest)
  end.

(** Routing by [expert_id]: the lines printed and the entity after it. *)
Definition route (e : ai_tensor_entity) : list moe_line * ai_tensor_entity :=
  if expert_id e =? 0 then ([Transferred], set_mask 2 e)
  else if expert_id e =? 1 then ([Transferred], set_mask 4 e)
  else ([], e).

Definition entity_id : Z := 42.

(** [process_tick()]; [None] is an access to a node, a bucket or a request
    that does not exist. *)
Definition process_tick m : option (list moe_line * moe_dispatcher Q) :=
  '(expired_head, w1) ← tick WheelSlots (timing_wheel_ m);
  timeouts ← report_expired 2 expired_head;
  '(incoming_request, q1) ← q_pop (inbound_pipe_ m);
  match incoming_request with
  | None => Some (timeouts, Moe q1 w1 (timer_nodes m) (requests m))
  | Some r =>
      '(w2, ns) ← schedule WheelSlots entity_id 100 w1 (timer_nodes m);
      e ← requests m !! r;
      let '(lines, e') := route e in
      Some (timeouts ++ Received :: lines, Moe q1 w2 ns (<[r := e']> (requests m)))
  end.

(** The producers, between two ticks. *)
Inductive moe_step := Arrive (r : Z) | ProcessTick.

Definition moe_exec (s : moe_step) m : option (list moe_line * moe_dispatcher Q) :=
  match s with
  | Arrive r => '(_, q1) ← q_push r (inbound_pipe_ m);
                Some ([], Moe q1 (timing_wheel_ m) (timer_nodes m) (requests m))
  | ProcessTick => process_tick m
  end.

Fixpoint moe_run (ss : list moe_step) m : option (list (list moe_line) * moe_dispatcher Q) :=
  match ss with
  | [] => Some ([], m)
  | s :: ss' => '(o, m1) ← moe_exec s m; '(os, m2) ← moe_run ss' m1; Some (o :: os, m2)
  end.

(** ** The specification *)

(** The tick, the ticks at which a timeout is due, the requests waiting (at
    most [cap]) and the entities. *)
Record moe_spec := Spec {
  now : Z;
  due : gset Z;
  waiting : list Z;
  entities : gmap Z ai_tensor_entity }.

(** The device of an expert, by the bit that stands for it in the mask of owners:
    bit 1 is GPU #1, bit 2 is GPU #2 (the comment of [ownership_mask]). *)
Inductive expert := Nlp | Vision.
Definition experts : list (Z * expert) := [(0, Nlp); (1, Vision)].
Definition gpu_bit (x : expert) : Z := match x with Nlp => 1 | Vision => 2 end.
Definition expert_of (id : Z) : option expert := (list_to_map experts : gmap Z expert) !! id.

(** An entity after its hand-over: the device is its only owner, and nothing
    else has changed; an entity for an unknown expert stays as it is. *)
Definition handed_over (e : ai_tensor_entity) : ai_tensor_entity :=
  match expert_of (expert_id e) with
  | Some x => Entity (next e) (2 ^ gpu_bit x) (expert_id e) (timeout_node_id e) (weights e)
  | None => e
  end.

Definition announced (e : ai_tensor_entity) : list moe_line :=
  match expert_of (expert_id e) with Some _ => [Transferred] | None => [] end.

Definition spec_tick (a : moe_spec) : list moe_line * moe_spec :=
  let t := now a + 1 in
  let timeouts := if decide (t ∈ due a) then [TimeoutExceeded 42] else [] in
  match waiting a with
  | [] => (timeouts, Spec t (due a) [] (entities a))
  | r :: rest =>
      (timeouts ++ Received :: from_option announced [] (entities a !! r),
       Spec t ({[t + due_in WheelSlots 100]} ∪ due a) rest (alter handed_over r (entities a)))
  end.

Definition spec_exec (cap : nat) (s : moe_step) (a : moe_spec) : list moe_line * moe_spec :=
  match s with
  | Arrive r => ([], Spec (now a) (due a)
                       (if decide (length (waiting a) < cap)%nat then waiting a ++ [r] else waiting a) (entities a))
  | ProcessTick => spec_tick a
  end.

Fixpoint spec_run (cap : nat) (ss : list moe_step) (a : moe_spec) : list (list moe_line) * moe_spec :=
  match ss with
  | [] => ([], a)
  | s :: ss' => let '(o, a1) := spec_exec cap s a in
                let '(os, a2) := spec_run cap ss' a1 in (o :: os, a2)
  end.

(** ** The wheel the dispatcher leaves behind *)

(** Node 42 heads exactly the buckets of the ticks that are due, all others
    are empty. *)
Record single_wheel (w : timing_wheel) (ns : gmap Z timing_node) (t : Z) (D : gset Z) : Prop := {
  sw_len : Z.of_nat (length (buckets_ w)) = WheelSlots;
  sw_now : current_tick_ w = t ∧ 0 ≤ t;
  sw_node : is_Some (ns !! entity_id);
  sw_due x : x ∈ D → x ≤ t + due_in WheelSlots 100;
  sw_head b : 0 ≤ b < WheelSlots →
    ∃ h, zget (buckets_ w) b = Some h ∧
      ((h = entity_id ∧ ∃ x, x ∈ D ∧ t < x ∧ x `mod` WheelSlots = b) ∨
       (h = END_OF_LIST ∧ ∀ x, x ∈ D → t < x → x `mod` WheelSlots ≠ b)) }.

Section facts.
Context (HN : pow2_slots WheelSlots).
Abbreviation delay := (due_in WheelSlots 100).

Lemma delay_range : 0 < delay ≤ WheelSlots.
Proof using HN.
  pose proof (slots_range _ HN). unfold due_in.
  destruct (Z.leb_spec WheelSlots 100); case_match; lia.
Qed.

(** Two ticks due in the window share no bucket. *)
Lemma window_inj t x y :
  t < x ≤ t + delay → t < y ≤ t + delay → x `mod` WheelSlots = y `mod` WheelSlots → x = y.
Proof using HN.
  intros Hx Hy E. pose proof delay_range. destruct (Z.le_ge_cases x y).
  - apply (mod_window_inj WheelSlots); [lia..|done].
  - symmetry. apply (mod_window_inj WheelSlots); [lia..|done].
Qed.

Lemma single_tick w ns t D :
  single_wheel w ns t D → t + 1 < 2 ^ 64 →
  ∃ w', tick WheelSlots w = Some (if decide (t + 1 ∈ D) then entity_id else END_OF_LIST, w') ∧
        single_wheel w' ns (t + 1) D.
Proof using HN.
  intros [Hlen [Ht Ht0] Hnode Hdue Hhead] Hb. pose proof delay_range as Hd.
  unfold tick. rewrite Ht, <-(wrap_idem 64) by lia.
  rewrite (wrap_small 64 (t + 1)) by word_lia. rewrite (bucket_mod _ HN) by lia.
  rewrite (wrap_small 64 (t + 1)) by word_lia.
  pose proof (mod_slots _ HN (t + 1)) as Hm. destruct (Hhead _ Hm) as (h & Eh & Hcase).
  rewrite Eh. cbn [mbind option_bind]. rewrite zset_eq by lia. cbn [mbind option_bind].
  eexists. split.
  - f_equal. f_equal. case_decide as Hin.
    + destruct Hcase as [[-> _]|[_ Hno]]; [done|]. by destruct (Hno _ Hin); [lia|].
    + destruct Hcase as [[-> (x & Hx & Hlt & E)]|[-> _]]; [|done]. destruct Hin.
      apply (window_inj t) in E; [by subst x|specialize (Hdue x Hx); lia|lia].
  - pose proof (zset_eq (buckets_ w) ((t + 1) `mod` WheelSlots) END_OF_LIST ltac:(lia)) as Ez.
    split; cbn [buckets_ current_tick_].
    + by rewrite (zset_length _ _ _ _ Ez).
    + lia.
    + done.
    + intros x Hx. specialize (Hdue x Hx). lia.
    + intros b Hb'. rewrite (zget_zset _ _ _ _ _ Ez). case_decide as Eb.
      * exists END_OF_LIST. split; [done|]. right. split; [done|]. intros x Hx Hlt E.
        assert (x = t + 1); [|lia]. apply (window_inj t); [specialize (Hdue x Hx); lia|lia|congruence].
      * destruct (Hhead b Hb') as (h' & Eh' & Hc). exists h'. split; [done|].
        destruct Hc as [[-> (x & Hx & Hlt & E)]|[-> Hno]]; [left|right]; (split; [done|]).
        -- exists x. split; [done|]. split; [|done]. destruct (decide (x = t + 1)) as [->|]; [congruence|lia].
        -- intros x Hx Hlt. apply Hno; [done|lia].
Qed.

Lemma single_schedule w ns t D :
  single_wheel w ns t D → t + WheelSlots < 2 ^ 64 → (∀ x, x ∈ D → x < t + delay) →
  ∃ w' ns', schedule WheelSlots entity_id 100 w ns = Some (w', ns') ∧
            single_wheel w' ns' t ({[t + delay]} ∪ D).
Proof using HN.
  intros [Hlen [Ht Ht0] [nd Hnode] Hdue Hhead] Hb Hnew. pose proof delay_range as Hd.
  destruct (due_bucket _ HN t 100 Ht0 ltac:(lia) Hb) as [Ebk _].
  unfold schedule. rewrite Ht, Ebk, Hnode. cbn [mbind option_bind].
  pose proof (mod_slots _ HN (t + delay)) as Hm. destruct (Hhead _ Hm) as (h & Eh & Hcase).
  assert (h = END_OF_LIST) as ->.
  { destruct Hcase as [[_ (x & Hx & Hlt & E)]|[-> _]]; [|done].
    apply (window_inj t) in E; [specialize (Hnew x Hx); lia|specialize (Hdue x Hx); lia|lia]. }
  rewrite Eh. cbn [mbind option_bind]. rewrite Z.eqb_refl. cbn [mbind option_bind].
  pose proof (zset_eq (buckets_ w) ((t + delay) `mod` WheelSlots) entity_id ltac:(lia)) as Ez.
  rewrite Ez. cbn [mbind option_bind]. eexists _, _. split; [done|]. split; cbn [buckets_ current_tick_].
  - by rewrite (zset_length _ _ _ _ Ez).
  - done.
  - rewrite lookup_insert_eq. by eexists.
  - intros x [->%elem_of_singleton|Hx]%elem_of_union; [lia|by apply Hdue].
  - intros b Hb'. rewrite (zget_zset _ _ _ _ _ Ez). case_decide as Eb.
    + exists entity_id. split; [done|]. left. split; [done|]. exists (t + delay).
      split; [by apply elem_of_union_l, elem_of_singleton|]. split; [lia|done].
    + destruct (Hhead b Hb') as (h' & Eh' & Hc). exists h'. split; [done|].
      destruct Hc as [[-> (x & Hx & Hlt & E)]|[-> Hno]]; [left|right]; (split; [done|]).
      * exists x. split; [by apply elem_of_union_r|done].
      * intros x [->%elem_of_singleton|Hx]%elem_of_union Hlt; [congruence|by apply Hno].
Qed.

(** ** The dispatcher and its specification *)

Record moe_rel (m : moe_dispatcher Q) (cap : nat) (a : moe_spec) : Prop := {
  mr_queue : q_inv (inbound_pipe_ m) ∧ q_cap (inbound_pipe_ m) = cap;
  mr_items : q_items (inbound_pipe_ m) = waiting a;
  mr_wheel : single_wheel (timing_wheel_ m) (timer_nodes m) (now a) (due a);
  mr_entities : requests m = entities a;
  mr_live : Forall (λ r, is_Some (entities a !! r)) (waiting a) }.

Lemma report_expired_spec h :
  report_expired 2 h = Some (if h =? END_OF_LIST then [] else [TimeoutExceeded h]).
Proof. unfold report_expired. destruct (h =? END_OF_LIST); [done|]. by rewrite Z.eqb_refl. Qed.

(** The code's routing hands the entity over to the device of its expert. *)
Lemma route_spec e : route e = (announced e, handed_over e).
Proof.
  destruct e as [n om x t ws]. unfold route, announced, handed_over, expert_of, experts. cbn [expert_id].
  destruct (Z.eqb_spec x 0) as [->|H0]; [done|]. destruct (Z.eqb_spec x 1) as [->|H1]; [done|].
  cbn [list_to_map foldr]. by rewrite !lookup_insert_ne, lookup_empty by done.
Qed.

Lemma process_tick_sim m cap a :
  moe_rel m cap a → now a + WheelSlots + 1 < 2 ^ 64 →
  ∃ m', process_tick m = Some ((spec_tick a).1, m') ∧ moe_rel m' cap (spec_tick a).2.
Proof using All.
  intros [[Hq Hcap] Hit Hw Hen Hlive] Hb. pose proof (slots_range _ HN) as HNr.
  destruct (single_tick _ _ _ _ Hw ltac:(lia)) as (w1 & Et & Hw1).
  unfold process_tick, spec_tick. rewrite Et. cbn [mbind option_bind]. rewrite report_expired_spec.
  cbn [mbind option_bind].
  assert ((if (if decide (now a + 1 ∈ due a) then entity_id else END_OF_LIST) =? END_OF_LIST then []
           else [TimeoutExceeded (if decide (now a + 1 ∈ due a) then entity_id else END_OF_LIST)])
          = if decide (now a + 1 ∈ due a) then [TimeoutExceeded 42] else []) as -> by (by case_decide).
  destruct (q_pop_cases _ Hq) as [[E ->]|(r & l & q' & E & -> & Hi' & Hc' & Hq')];
    cbn [mbind option_bind]; rewrite <-Hit, E in *.
  - eexists. split; [done|]. split; cbn; try done; rewrite ?E; done.
  - destruct (single_schedule w1 (timer_nodes m) (now a + 1) (due a)) as (w2 & ns2 & -> & Hw2); [done|lia| |].
    { intros x Hx. pose proof (sw_due _ _ _ _ Hw x Hx). lia. }
    cbn [mbind option_bind]. apply Forall_cons in Hlive as [[e He] Hl].
    rewrite Hen, He. cbn [mbind option_bind from_option]. rewrite route_spec. cbn [fst snd]. eexists. split; [done|].
    split; cbn [inbound_pipe_ timing_wheel_ timer_nodes requests now due waiting entities].
    + split; [done|congruence].
    + done.
    + done.
    + apply map_eq. intros j. destruct (decide (j = r)) as [->|Hj].
      * rewrite lookup_insert_eq, lookup_alter_eq. by rewrite He.
      * by rewrite lookup_insert_ne, lookup_alter_ne.
    + eapply Forall_impl; [exact Hl|]. intros y Hy. by apply lookup_alter_is_Some.
Qed.

Fixpoint moe_ticks (ss : list moe_step) : Z :=
  match ss with [] => 0 | ProcessTick :: ss' => 1 + moe_ticks ss' | Arrive _ :: ss' => moe_ticks ss' end.

Lemma moe_ticks_nonneg ss : 0 ≤ moe_ticks ss.
Proof. induction ss as [|[] ss IH]; cbn; lia. Qed.

Lemma spec_tick_now a : now (spec_tick a).2 = now a + 1.
Proof. unfold spec_tick. by destruct (waiting a). Qed.

Lemma spec_tick_dom a : dom (entities (spec_tick a).2) = dom (entities a).
Proof. unfold spec_tick. destruct (waiting a); cbn; [done|]. apply dom_alter_L. Qed.

Lemma moe_exec_sim s m cap a :
  moe_rel m cap a → (∀ r, s = Arrive r → r ∈ dom (entities a)) → now a + WheelSlots + 1 < 2 ^ 64 →
  ∃ m', moe_exec s m = Some ((spec_exec cap s a).1, m') ∧ moe_rel m' cap (spec_exec cap s a).2 ∧
        dom (entities (spec_exec cap s a).2) = dom (entities a) ∧
        now (spec_exec cap s a).2 = now a + moe_ticks [s].
Proof using All.
  intros Hr Hlive Hb. destruct s as [r|]; cbn [moe_exec spec_exec moe_ticks].
  - destruct Hr as [[Hq Hcap] Hit Hw Hen Hl]. specialize (Hlive r eq_refl).
    destruct (q_push_cases r _ Hq) as [(q' & -> & Hi' & Hc' & Hq' & Hlt)|[-> Hfull]];
      cbn [mbind option_bind fst snd]; rewrite <-Hit, <-Hcap;
      (eexists; split; [done|]; split; [|split; [done|cbn; lia]]).
    + rewrite decide_True by done. split; cbn; try done.
      rewrite Hit. apply Forall_app. split; [done|]. apply Forall_singleton. by apply elem_of_dom.
    + rewrite decide_False by lia. split; cbn; try done. by rewrite Hit.
  - destruct (process_tick_sim m cap a Hr Hb) as (m' & -> & Hr'). eexists. split; [done|].
    split; [done|]. rewrite spec_tick_dom, spec_tick_now. split; [done|lia].
Qed.

Lemma moe_run_sim ss m cap a :
  moe_rel m cap a → (∀ r, Arrive r ∈ ss → r ∈ dom (entities a)) →
  now a + moe_ticks ss + WheelSlots + 1 < 2 ^ 64 →
  ∃ m', moe_run ss m = Some ((spec_run cap ss a).1, m') ∧ moe_rel m' cap (spec_run cap ss a).2.
Proof using All.
  revert m a. induction ss as [|s ss IH]; intros m a Hr Hlive Hb; cbn [moe_run spec_run]; [by exists m|].
  assert (moe_ticks (s :: ss) = moe_ticks [s] + moe_ticks ss) as Et by (destruct s; cbn; lia).
  pose proof (moe_ticks_nonneg ss). pose proof (moe_ticks_nonneg [s]).
  destruct (moe_exec_sim s m cap a Hr) as (m1 & -> & Hr1 & Hd & Hn); [|lia|].
  { intros r ->. apply Hlive. by left. }
  destruct (spec_exec cap s a) as [o a1]. cbn [fst snd] in *. cbn [mbind option_bind].
  destruct (IH m1 a1 Hr1) as (m2 & -> & Hr2); [|lia|].
  { intros r Hin. rewrite Hd. apply Hlive. by right. }
  destruct (spec_run cap ss a1) as [os a2]. cbn. by eexists.
Qed.

(** C30: The dispatcher meets its specification although it schedules the node
    42 again while it is linked in the wheel.  For any interleaving of
    arriving requests and calls of [process_tick], starting from a fresh wheel
    and an empty channel, no call touches a node, a bucket or a request that
    does not exist; each tick takes at most one request, the oldest; a request
    for expert 0 is owned by GPU #1 alone afterwards (bit 1 of its mask), one for
    expert 1 by GPU #2 (bit 2), and nothing else of it changes; any other is left
    as it is; and a timeout is reported at a tick exactly when a
    request was taken [due_in 100] ticks before (100, or one turn of a smaller
    wheel). *)
Theorem moe_refines ss pipe ns reqs :
  q_inv pipe → q_items pipe = [] → is_Some (ns !! entity_id) →
  (∀ r, Arrive r ∈ ss → r ∈ dom reqs) →
  moe_ticks ss + WheelSlots + 1 < 2 ^ 64 →
  let a := Spec 0 ∅ [] reqs in
  ∃ m', moe_run ss (moe_ctor ns pipe (wheel_ctor WheelSlots) reqs)
          = Some ((spec_run (q_cap pipe) ss a).1, m') ∧
        requests m' = entities (spec_run (q_cap pipe) ss a).2.
Proof using All.
  intros Hq Hi Hn Hlive Hb a. pose proof (slots_range _ HN).
  destruct (moe_run_sim ss (moe_ctor ns pipe (wheel_ctor WheelSlots) reqs) (q_cap pipe) a) as (m' & E & Hr);
    [|done|cbn; lia|exists m'; split; [done|apply Hr]].
  split; cbn [moe_ctor inbound_pipe_ timing_wheel_ timer_nodes requests now due waiting entities a]; try done.
  split; cbn [wheel_ctor buckets_ current_tick_]; try done.
  - rewrite length_replicate. lia.
  - intros b Hb'. exists END_OF_LIST. rewrite zget_replicate by lia. split; [done|]. right. split; [done|].
    intros x Hx. by apply not_elem_of_empty in Hx.
Qed.

End facts.
End moe.

(** ** A run *)

Definition moe_requests : gmap Z ai_tensor_entity :=
  list_to_map [(8, Entity 0 0 0 0 []); (16, Entity 0 0 1 0 []); (24, Entity 0 0 7 0 [])].

Definition moe_steps : list moe_step :=
  [Arrive 8; Arrive 16; ProcessTick; ProcessTick; Arrive 24; ProcessTick] ++ replicate 3 ProcessTick.

Lemma moe_refines_witness :
  ∃ m', moe_run 4 moe_steps
          (moe_ctor {[42 := timing_node_ctor]} (conduit_ctor [0; 0; 0; 0] : conduit 4) (wheel_ctor 4) moe_requests)
        = Some ([[]; []; [Received; Transferred]; [Received; Transferred]; []; [Received];
                 [TimeoutExceeded 42]; [TimeoutExceeded 42]; [TimeoutExceeded 42]], m') ∧
        ownership_mask <$> requests m' = list_to_map [(8, 2); (16, 4); (24, 0)].
Proof.
  destruct (moe_refines 4 (Q := conduit 4) ltac:(exists 2; split; [lia|reflexivity])
    moe_steps (conduit_ctor [0; 0; 0; 0]) {[42 := timing_node_ctor]} moe_requests) as (m' & E & Hm).
  - apply (conduit_ctor_inv (Size := 4)); [lia|done].
  - vm_compute. reflexivity.
  - vm_compute. by eexists.
  - intros r Hr. apply elem_of_dom.
    assert (r ∈ [8; 16; 24]) as Hin.
    { change (r ∈ omap (λ s, match s with Arrive r => Some r | ProcessTick => None end) moe_steps).
      apply list_elem_of_omap. by exists (Arrive r). }
    clear Hr. rewrite !elem_of_cons, elem_of_nil in Hin.
    destruct Hin as [->|[->|[->|[]]]]; vm_compute; by eexists.
  - vm_compute. reflexivity.
  - exists m'. rewrite E, Hm. split; [vm_compute; reflexivity|]. vm_compute. reflexivity.
Defined.
