(* ===== verification/Double.v ===== *)
(** * Floating-point numbers

    C++ [double] is the IEEE 754 binary64 format: the specification floats of
    the Standard Library with a precision of 53 bits and the maximal exponent
    1024, rounding to nearest even.  The operators used by the telemetry
    gateway and the examples, the conversion from integers, decimal literals,
    and [std::to_string(double)], that is [printf] with [%f]. *)

From Stdlib Require Import Ascii String SpecFloat.
From S2P Require Import Prelude Http Text.

Local Open Scope Z_scope.

Abbreviation double := spec_float.

Definition prec : Z := 53.
Definition emax : Z := 1024.

Definition dadd : double → double → double := SFadd prec emax.
Definition dsub : double → double → double := SFsub prec emax.
Definition dmul : double → double → double := SFmul prec emax.
Definition ddiv : double → double → double := SFdiv prec emax.

(** [a > b] and [a < b]: false when one of them is not a number. *)
Definition dlt (a b : double) : bool := SFltb a b.
Definition dgt (a b : double) : bool := SFltb b a.

(** Conversion of an integer: the nearest double. *)
Definition of_Z (x : Z) : double := binary_normalize prec emax x 0 false.

(** The literal [n / 10 ^ k], for [n] and [10 ^ k] below [2 ^ 53]: both are
    exact and the quotient is rounded once. *)
Definition lit (n k : Z) : double := ddiv (of_Z n) (of_Z (10 ^ k)).

(** Proofs treat the operations as opaque; they are computed by [vm_compute]. *)
Arguments dadd : simpl never.
Arguments dsub : simpl never.
Arguments dmul : simpl never.
Arguments ddiv : simpl never.
Arguments dlt : simpl never.
Arguments dgt : simpl never.
Arguments of_Z : simpl never.
Arguments lit : simpl never.

#[export] Instance spec_float_eq_dec : EqDecision spec_float.
Proof. solve_decision. Defined.

(** ** Printing *)

(** The nearest integer to [a / b], ties to even. *)
Definition div_even (a b : Z) : Z :=
  let q := a `div` b in
  let r := a `mod` b in
  if 2 * r <? b then q
  else if b <? 2 * r then q + 1
  else if Z.even q then q else q + 1.

(** The digits of [x < 10 ^ n], padded with zeros to [n]. *)
Fixpoint fixed_digits (n : nat) (x : Z) (acc : list Z) : list Z :=
  match n with
  | O => acc
  | S n' => fixed_digits n' (x `div` 10) ((48 + x `mod` 10) :: acc)
  end.

(** A number of millionths with six decimals; a number has no more decimal
    digits than bits. *)
Definition show_millionths (n : Z) : list Z :=
  digits (Z.to_nat (Z.log2 (n `div` 10 ^ 6) + 1)) (n `div` 10 ^ 6) [] ++
  [46] ++ fixed_digits 6 (n `mod` 10 ^ 6) [].

Definition show_sign (s : bool) : list Z := if s then [45] else [].

(** [std::to_string(double)]. *)
Definition to_string_double (d : double) : list Z :=
  match d with
  | S754_zero s => show_sign s ++ show_millionths 0
  | S754_infinity s => show_sign s ++ bytes_of "inf"
  | S754_nan => bytes_of "nan"
  | S754_finite s m e =>
      show_sign s ++
      show_millionths
        (if 0 <=? e then Z.pos m * 10 ^ 6 * 2 ^ e else div_even (Z.pos m * 10 ^ 6) (2 ^ (- e)))
  end.

(** The characters of a number. *)
Definition is_number_char (c : Z) : bool :=
  is_digit c || (c =? 45) || (c =? 46) || ((97 <=? c) && (c <=? 122)).

Lemma digit_is_number c : is_digit c = true → is_number_char c = true.
Proof. unfold is_number_char. by intros ->. Qed.

Lemma fixed_digits_are_digits n x acc :
  forallb is_digit acc = true → forallb is_digit (fixed_digits n x acc) = true.
Proof.
  revert x acc. induction n as [|n IH]; intros x acc Ha; cbn [fixed_digits]; [done|].
  apply IH. cbn [forallb]. rewrite Ha, andb_true_r. pose proof (Z.mod_pos_bound x 10 ltac:(lia)).
  unfold is_digit. lia.
Qed.

Lemma div_even_nonneg a b : 0 ≤ a → 0 < b → 0 ≤ div_even a b.
Proof. intros Ha Hb. pose proof (Z.div_pos a b Ha Hb). unfold div_even. repeat case_match; lia. Qed.

Lemma show_millionths_chars n : 0 ≤ n → forallb is_number_char (show_millionths n) = true.
Proof.
  intros Hn. unfold show_millionths. rewrite !forallb_app. cbn [forallb].
  assert (∀ l, forallb is_digit l = true → forallb is_number_char l = true) as Hd.
  { intros l. rewrite !forallb_forall. intros H c Hc. by apply digit_is_number, H. }
  rewrite (Hd (digits _ _ _)), (Hd (fixed_digits _ _ _)); [done| |].
  - by apply fixed_digits_are_digits.
  - apply digits_are_digits; [apply Z.div_pos; lia|done].
Qed.

Lemma to_string_double_chars d : forallb is_number_char (to_string_double d) = true.
Proof.
  destruct d as [s|s| |s m e]; cbn [to_string_double]; rewrite ?forallb_app.
  1: by destruct s; vm_compute. 1: by destruct s; vm_compute. 1: by vm_compute.
  rewrite show_millionths_chars; [by destruct s|].
  destruct (Z.leb_spec 0 e); [apply Z.mul_nonneg_nonneg; lia|].
  apply div_even_nonneg; [lia|apply Z.pow_pos_nonneg; lia].
Qed.

Lemma to_string_double_no_char c d : is_number_char c = false → c ∉ to_string_double d.
Proof.
  intros Hc Hin. pose proof (to_string_double_chars d) as H. rewrite forallb_forall in H.
  apply list_elem_of_In, H in Hin. congruence.
Qed.

(** ** No overflow

    [below k d]: [d] is zero or finite with an absolute value below [2 ^ k]. *)

Lemma digits2_log2 p : Zdigits2 (Z.pos p) = Z.log2 (Z.pos p) + 1.
Proof.
  assert (∀ q, Z.pos (digits2_pos q) = Z.log2 (Z.pos q) + 1) as H; [|apply H].
  induction q as [q IH|q IH|]; cbn [digits2_pos]; [..|done]; rewrite Pos2Z.inj_succ, IH.
  - rewrite Pos2Z.inj_xI, Z.log2_succ_double by lia. lia.
  - rewrite Pos2Z.inj_xO, Z.log2_double by lia. lia.
Qed.

(** The number of bits. *)
Lemma digits2_spec m k : 0 ≤ m → 0 ≤ k → Zdigits2 m ≤ k ↔ m < 2 ^ k.
Proof.
  intros Hm Hk. destruct m as [|p|p]; [|rewrite digits2_log2|lia].
  - cbn. pose proof (Z.pow_pos_nonneg 2 k). lia.
  - rewrite (Z.log2_lt_pow2 (Z.pos p) k) by lia. lia.
Qed.

Lemma digits2_nonneg m : 0 ≤ Zdigits2 m.
Proof. destruct m; cbn; lia. Qed.

Lemma digits2_pos_ge p : 1 ≤ Zdigits2 (Z.pos p).
Proof. cbn. lia. Qed.

Lemma digits2_mono a b : 0 ≤ a ≤ b → Zdigits2 a ≤ Zdigits2 b.
Proof.
  intros H. pose proof (digits2_nonneg b). apply digits2_spec; [lia..|].
  apply Z.le_lt_trans with b; [lia|]. by apply digits2_spec; [lia..|].
Qed.

Lemma digits2_mul a b : 0 ≤ a → 0 ≤ b → Zdigits2 (a * b) ≤ Zdigits2 a + Zdigits2 b.
Proof.
  intros Ha Hb. pose proof (digits2_nonneg a). pose proof (digits2_nonneg b).
  apply digits2_spec; [lia..|]. rewrite Z.pow_add_r by lia.
  assert (a < 2 ^ Zdigits2 a) by (by apply digits2_spec).
  assert (b < 2 ^ Zdigits2 b) by (by apply digits2_spec). nia.
Qed.

Lemma digits2_shift a k : 0 ≤ a → 0 ≤ k → Zdigits2 (a * 2 ^ k) ≤ Zdigits2 a + k.
Proof.
  intros Ha Hk. pose proof (digits2_nonneg a). pose proof (Z.pow_pos_nonneg 2 k).
  apply digits2_spec; [lia..|]. rewrite Z.pow_add_r by lia.
  assert (a < 2 ^ Zdigits2 a) by (by apply digits2_spec). nia.
Qed.

Lemma digits2_add k a b : Zdigits2 a ≤ k → Zdigits2 b ≤ k → 0 ≤ a → 0 ≤ b → Zdigits2 (a + b) ≤ k + 1.
Proof.
  intros Ha Hb Ha0 Hb0. pose proof (digits2_nonneg a). assert (0 ≤ k) by lia.
  apply digits2_spec in Ha, Hb; [|done..].
  apply digits2_spec; [lia..|]. rewrite Z.pow_add_r by lia. lia.
Qed.

Lemma digits2_succ a : 0 ≤ a → Zdigits2 (a + 1) ≤ Zdigits2 a + 1.
Proof.
  intros Ha. destruct a as [|p|p]; [done| |lia].
  apply digits2_add; [done|apply (digits2_pos_ge p)|done|lia].
Qed.

Lemma digits2_abs a : Zdigits2 a = Zdigits2 (Z.abs a).
Proof. by destruct a. Qed.

Lemma digits2_abs_sum D sx sy a b :
  Zdigits2 (Z.pos a) ≤ D → Zdigits2 (Z.pos b) ≤ D →
  Zdigits2 (cond_Zopp sx (Z.pos a) - cond_Zopp sy (Z.pos b)) ≤ D + 1.
Proof.
  intros Ha Hb. rewrite digits2_abs.
  pose proof (digits2_add D (Z.pos a) (Z.pos b) Ha Hb ltac:(lia) ltac:(lia)) as Hs.
  eapply Z.le_trans; [apply (digits2_mono _ (Z.pos a + Z.pos b))|exact Hs].
  destruct sx, sy; cbn [cond_Zopp]; lia.
Qed.

Definition below (k : Z) (d : double) : Prop :=
  match d with
  | S754_zero _ => True
  | S754_finite _ m e => Zdigits2 (Z.pos m) + e ≤ k
  | _ => False
  end.

(** Shifting right: the mantissa loses as many bits as the exponent gains. *)
Lemma shr_1_spec mrs :
  0 ≤ shr_m mrs → 0 ≤ shr_m (shr_1 mrs) ∧ Zdigits2 (shr_m (shr_1 mrs)) = Z.max 0 (Zdigits2 (shr_m mrs) - 1).
Proof.
  destruct mrs as [m r s]. cbn [shr_m]. intros Hm. destruct m as [|[p|p|]|p]; cbn; [lia| | |lia|lia].
  - rewrite Pos2Z.inj_succ. lia.
  - rewrite Pos2Z.inj_succ. lia.
Qed.

Lemma iter_shr_spec p mrs :
  0 ≤ shr_m mrs →
  0 ≤ shr_m (SpecFloat.iter_pos shr_1 p mrs) ∧
  Zdigits2 (shr_m (SpecFloat.iter_pos shr_1 p mrs)) = Z.max 0 (Zdigits2 (shr_m mrs) - Z.pos p).
Proof.
  revert mrs. induction p as [p IH|p IH|]; intros mrs Hm; cbn [SpecFloat.iter_pos]; [..|by apply shr_1_spec].
  - destruct (shr_1_spec mrs Hm) as [H0 D0]. destruct (IH _ H0) as [H1 D1]. destruct (IH _ H1) as [H2 D2].
    split; [done|]. lia.
  - destruct (IH _ Hm) as [H1 D1]. destruct (IH _ H1) as [H2 D2]. split; [done|]. lia.
Qed.

Lemma shr_fexp_spec m e l k :
  0 ≤ m → Zdigits2 m + e ≤ k → emin prec emax ≤ k →
  let '(mrs, e') := shr_fexp prec emax m e l in
  0 ≤ shr_m mrs ∧ Zdigits2 (shr_m mrs) + e' ≤ k ∧ e ≤ e' ∧
  (0 < m → emin prec emax ≤ e → 0 < shr_m mrs).
Proof.
  intros Hm Hk Hmin. unfold shr_fexp, fexp.
  assert (shr_m (shr_record_of_loc m l) = m) as Em by (by destruct l as [|[]]).
  set (n := Z.max (Zdigits2 m + e - prec) (emin prec emax) - e). pose proof (digits2_nonneg m).
  destruct n as [|p|p] eqn:En; cbn [shr]; [rewrite Em; lia| |rewrite Em; lia].
  destruct (iter_shr_spec p (shr_record_of_loc m l)) as [H0 D0]; [by rewrite Em|]. rewrite Em in D0.
  unfold prec in *. split; [done|]. split; [lia|]. split; [lia|]. intros Hpos Hle.
  assert (1 ≤ Zdigits2 m) by (destruct m as [|q|q]; [lia|apply digits2_pos_ge|lia]).
  assert (1 ≤ Zdigits2 (shr_m (SpecFloat.iter_pos shr_1 p (shr_record_of_loc m l)))) as HD by lia.
  destruct (shr_m (SpecFloat.iter_pos _ _ _)); cbn [Zdigits2] in HD; lia.
Qed.

(** A double whose last bit counts at least [2 ^ k]; not zero. *)
Definition unit_ge (k : Z) (d : double) : Prop :=
  match d with S754_finite _ _ e => k ≤ e | _ => False end.

Lemma binary_round_aux_spec sx mx ex lx k :
  0 ≤ mx → Zdigits2 mx + ex ≤ k → emin prec emax ≤ k → k ≤ emax - prec →
  below (k + 1) (binary_round_aux prec emax sx mx ex lx) ∧
  (0 < mx → emin prec emax ≤ ex → unit_ge ex (binary_round_aux prec emax sx mx ex lx)).
Proof.
  intros Hm Hk Hmin Hmax. unfold binary_round_aux.
  pose proof (shr_fexp_spec mx ex lx k Hm Hk Hmin) as H1.
  destruct (shr_fexp prec emax mx ex lx) as [mrs1 e1]. destruct H1 as (H1 & D1 & E1 & P1).
  set (m1 := round_nearest_even _ _).
  assert (shr_m mrs1 ≤ m1 ∧ 0 ≤ m1 ∧ Zdigits2 m1 + e1 ≤ k + 1) as (Hm0 & Hm1 & Dm1).
  { assert (shr_m mrs1 ≤ m1 ≤ shr_m mrs1 + 1) as Hr.
    { unfold m1, round_nearest_even. destruct (loc_of_shr_record mrs1) as [|[]]; [lia| |lia..].
      destruct (Z.even _); lia. }
    split; [lia|]. split; [lia|]. pose proof (digits2_mono m1 (shr_m mrs1 + 1) ltac:(lia)).
    pose proof (digits2_succ (shr_m mrs1) H1). lia. }
  pose proof (shr_fexp_spec m1 e1 loc_Exact (k + 1) Hm1 Dm1 ltac:(lia)) as H2.
  destruct (shr_fexp prec emax m1 e1 loc_Exact) as [mrs2 e2]. destruct H2 as (H2 & D2 & E2 & P2).
  destruct (shr_m mrs2) as [|p|p]; [split; [done|intros; lia]| |lia]. pose proof (digits2_pos_ge p).
  rewrite (proj2 (Z.leb_le _ _)) by lia. split; [exact D2|]. intros _ _. cbn. lia.
Qed.

Lemma shl_align_spec mx ex ex' :
  let '(mz, ez) := shl_align mx ex ex' in
  Zdigits2 (Z.pos mz) + ez = Zdigits2 (Z.pos mx) + ex ∧ ez = Z.min ex ex'.
Proof.
  assert (∀ d, Zdigits2 (Z.pos (Pos.iter xO mx d)) = Zdigits2 (Z.pos mx) + Z.pos d) as Hd.
  { intros d. induction d as [|d IH] using Pos.peano_ind; [cbn; lia|].
    rewrite Pos.iter_succ. change (Zdigits2 (Z.pos (Pos.iter xO mx d)~0))
      with (Z.pos (Pos.succ (digits2_pos (Pos.iter xO mx d)))).
    change (Zdigits2 (Z.pos (Pos.iter xO mx d))) with (Z.pos (digits2_pos (Pos.iter xO mx d))) in IH. lia. }
  unfold shl_align. destruct (ex' - ex) as [|d|d] eqn:E; [lia|lia|]. rewrite Hd. lia.
Qed.

Lemma binary_normalize_below m e s k :
  Zdigits2 m + e ≤ k → emin prec emax ≤ k → k ≤ emax - prec →
  below (k + 1) (binary_normalize prec emax m e s).
Proof.
  intros Hk Hmin Hmax. destruct m as [|p|p]; cbn [binary_normalize]; [done|..]; unfold binary_round;
    pose proof (shl_align_spec p e (fexp prec emax (Z.pos (digits2_pos p) + e))) as Hs;
    destruct (shl_align _ _ _) as [mz ez]; destruct Hs as [Hs _];
    (apply binary_round_aux_spec; [lia| |done..]); rewrite Hs; exact Hk.
Qed.

Lemma dmul_below j k x y :
  below j x → below k y → emin prec emax ≤ j + k → j + k ≤ emax - prec → below (j + k + 1) (dmul x y).
Proof.
  intros Hx Hy Hmin Hmax. destruct x as [| | |sx mx ex], y as [| | |sy my ey]; cbn in Hx, Hy; try done.
  apply binary_round_aux_spec; [lia| |done..]. rewrite Pos2Z.inj_mul.
  pose proof (digits2_mul (Z.pos mx) (Z.pos my)). cbn [Zdigits2] in *. lia.
Qed.

Lemma of_Z_below x k : 0 ≤ x < 2 ^ k → 0 ≤ k → k ≤ emax - prec → below (k + 1) (of_Z x).
Proof.
  intros Hx Hk Hmax. apply binary_normalize_below; [|unfold emin, prec, emax; lia|done].
  rewrite Z.add_0_r. apply digits2_spec; lia.
Qed.

(** A positive integer is not rounded to zero, and its last bit counts at
    least [2 ^ -52]. *)
Lemma of_Z_unit x : 0 < x < 2 ^ 64 → unit_ge (-52) (of_Z x).
Proof.
  intros Hx. destruct x as [|p|p]; [lia| |lia]. unfold of_Z, binary_normalize, binary_round.
  set (f := fexp prec emax _).
  pose proof (shl_align_spec p 0 f) as Hs. destruct (shl_align p 0 f) as [mz ez]. destruct Hs as [Hs Ez].
  pose proof (digits2_pos_ge p). assert (Zdigits2 (Z.pos p) ≤ 64) as H64 by (apply digits2_spec; lia).
  assert (f = Z.max (Zdigits2 (Z.pos p) + 0 - prec) (emin prec emax)) as Ef by done.
  assert (-52 ≤ ez) as He by (rewrite Ez, Ef; unfold prec; lia).
  assert (unit_ge ez (binary_round_aux prec emax false (Z.pos mz) ez loc_Exact)) as Hu.
  { apply (binary_round_aux_spec false (Z.pos mz) ez loc_Exact 64); unfold emin, prec, emax; lia. }
  destruct (binary_round_aux _ _ _ _ _ _); cbn in *; lia.
Qed.

Lemma ddiv_below j x y :
  below j x → unit_ge (-52) y → 0 ≤ j → j + 52 ≤ emax - prec → below (j + 53) (ddiv x y).
Proof.
  intros Hx Hy Hj Hmax. destruct x as [| | |sx mx ex], y as [| | |sy my ey]; cbn in Hx, Hy; try done.
  unfold ddiv, SFdiv, SFdiv_core_binary.
  set (e' := Z.min _ _). set (m' := match _ with Z0 => _ | _ => _ end).
  destruct (Z.div_eucl m' (Z.pos my)) as [q r] eqn:Eq.
  assert (0 ≤ ex - ey - e') as Hs by lia.
  assert (m' = Z.pos mx * 2 ^ (ex - ey - e')) as Em.
  { unfold m'. destruct (ex - ey - e') eqn:E; [cbn; lia| |lia]. rewrite Z.shiftl_mul_pow2 by lia. done. }
  assert (0 ≤ q ≤ m') as Hq.
  { assert (q = m' `div` Z.pos my) as -> by (unfold Z.div; by rewrite Eq).
    assert (0 ≤ m') by (rewrite Em; pose proof (Z.pow_pos_nonneg 2 (ex - ey - e')); nia).
    split; [apply Z.div_pos; lia|]. apply Z.div_le_upper_bound; nia. }
  replace (j + 53) with ((j + 52) + 1) by lia. apply binary_round_aux_spec; [lia| |unfold emin, prec, emax; lia|done].
  pose proof (digits2_mono q m' Hq). pose proof (digits2_shift (Z.pos mx) (ex - ey - e')).
  rewrite <-Em in *. cbn [Zdigits2] in *. lia.
Qed.

Lemma dsub_below j k x y :
  below j x → below k y → emin prec emax ≤ Z.max j k → Z.max j k + 1 ≤ emax - prec →
  below (Z.max j k + 2) (dsub x y).
Proof.
  intros Hx Hy Hmin Hmax. destruct x as [sx| | |sx mx ex], y as [sy| | |sy my ey]; cbn in Hx, Hy; try done.
  - unfold dsub. by destruct sx, sy.
  - unfold dsub. cbn. lia.
  - unfold dsub. cbn. lia.
  - unfold dsub, SFsub. replace (Z.max j k + 2) with ((Z.max j k + 1) + 1) by lia.
    apply binary_normalize_below; [|lia|done].
    pose proof (shl_align_spec mx ex (Z.min ex ey)) as H1. pose proof (shl_align_spec my ey (Z.min ex ey)) as H2.
    destruct (shl_align mx ex _) as [ma ea], (shl_align my ey _) as [mb eb]. destruct H1 as [H1 E1], H2 as [H2 E2].
    cbn [fst]. assert (ea = Z.min ex ey) as -> by lia. assert (eb = Z.min ex ey) as -> by lia.
    cbn [Zdigits2] in H1, H2. set (D := Z.max j k - Z.min ex ey).
    assert (Zdigits2 (Z.pos ma) ≤ D) as Ha by (unfold D; cbn [Zdigits2]; lia).
    assert (Zdigits2 (Z.pos mb) ≤ D) as Hb by (unfold D; cbn [Zdigits2]; lia).
    pose proof (digits2_abs_sum D sx sy ma mb Ha Hb). lia.
Qed.

(** ** Lower bounds *)

(** A positive double of at least [2 ^ (k - 1)]. *)
Definition above (k : Z) (d : double) : Prop :=
  match d with S754_finite false m e => k ≤ Zdigits2 (Z.pos m) + e | _ => False end.

(** In the normal range shifting keeps the place of the first bit. *)
Lemma shr_fexp_normal m e l :
  0 < m → emin prec emax + prec ≤ Zdigits2 m + e →
  let '(mrs, e') := shr_fexp prec emax m e l in
  0 < shr_m mrs ∧ Zdigits2 (shr_m mrs) + e' = Zdigits2 m + e.
Proof.
  intros Hm Hmin. unfold shr_fexp, fexp.
  assert (shr_m (shr_record_of_loc m l) = m) as Em by (by destruct l as [|[]]).
  set (n := Z.max (Zdigits2 m + e - prec) (emin prec emax) - e).
  destruct n as [|p|p] eqn:En; cbn [shr]; [rewrite Em; lia| |rewrite Em; lia].
  destruct (iter_shr_spec p (shr_record_of_loc m l)) as [H0 D0]; [rewrite Em; lia|]. rewrite Em in D0.
  assert (Zdigits2 (shr_m (SpecFloat.iter_pos shr_1 p (shr_record_of_loc m l))) = prec) as HD by (unfold prec in *; lia).
  split; [|unfold prec in *; lia].
  destruct (shr_m (SpecFloat.iter_pos _ _ _)); cbn [Zdigits2] in HD; unfold prec in *; lia.
Qed.

Lemma binary_round_aux_above mx ex lx k :
  0 < mx → k ≤ Zdigits2 mx + ex → emin prec emax + prec ≤ Zdigits2 mx + ex → Zdigits2 mx + ex ≤ emax - prec →
  above k (binary_round_aux prec emax false mx ex lx).
Proof.
  intros Hm Hk Hmin Hmax.
  destruct (binary_round_aux_spec false mx ex lx (Zdigits2 mx + ex)) as [Hb _];
    [lia|lia|unfold prec, emin, emax in *; lia|done|]. revert Hb.
  unfold binary_round_aux. pose proof (shr_fexp_normal mx ex lx Hm Hmin) as H1.
  destruct (shr_fexp prec emax mx ex lx) as [mrs1 e1]. destruct H1 as (H1 & D1).
  set (m1 := round_nearest_even _ _).
  assert (shr_m mrs1 ≤ m1) as Hr.
  { unfold m1, round_nearest_even. destruct (loc_of_shr_record mrs1) as [|[]]; [lia| |lia..]. destruct (Z.even _); lia. }
  pose proof (digits2_mono (shr_m mrs1) m1 ltac:(lia)) as Hd.
  pose proof (shr_fexp_normal m1 e1 loc_Exact ltac:(lia) ltac:(lia)) as H2.
  destruct (shr_fexp prec emax m1 e1 loc_Exact) as [mrs2 e2]. destruct H2 as (H2 & D2).
  destruct (shr_m mrs2) as [|p|p]; [lia| |lia]. destruct (_ <=? _); [|done]. intros _. cbn [above]. lia.
Qed.

Lemma of_Z_above x k : 2 ^ (k - 1) ≤ x < 2 ^ 64 → 1 ≤ k → above k (of_Z x).
Proof.
  intros Hx Hk. pose proof (Z.pow_pos_nonneg 2 (k - 1) ltac:(lia) ltac:(lia)).
  destruct x as [|p|p]; [lia| |lia]. unfold of_Z, binary_normalize, binary_round.
  set (f := fexp prec emax _). pose proof (shl_align_spec p 0 f) as Hs.
  destruct (shl_align p 0 f) as [mz ez]. destruct Hs as [Hs _].
  assert (k ≤ Zdigits2 (Z.pos p)) as Hd.
  { destruct (Z.le_gt_cases k (Zdigits2 (Z.pos p))) as [|Hlt]; [done|].
    assert (Z.pos p < 2 ^ (k - 1)) by (apply digits2_spec; lia). lia. }
  assert (Zdigits2 (Z.pos p) ≤ 64) as H64 by (apply digits2_spec; lia).
  apply binary_round_aux_above; unfold emin, prec, emax; lia.
Qed.

(** The size of a number from below. *)
Lemma digits2_lower m k : 0 ≤ k → 2 ^ k ≤ m → k + 1 ≤ Zdigits2 m.
Proof.
  intros Hk Hm. destruct (Z.le_gt_cases (k + 1) (Zdigits2 m)) as [|Hlt]; [done|].
  pose proof (Z.pow_pos_nonneg 2 k ltac:(lia) Hk).
  assert (m < 2 ^ k) by (apply digits2_spec; lia). lia.
Qed.

Lemma digits2_range m : 0 < m → 2 ^ (Zdigits2 m - 1) ≤ m < 2 ^ Zdigits2 m.
Proof.
  intros Hm. pose proof (digits2_nonneg m). split; [|apply digits2_spec; lia].
  destruct (Z.le_gt_cases (2 ^ (Zdigits2 m - 1)) m) as [|Hlt]; [done|].
  assert (1 ≤ Zdigits2 m) by (destruct m as [|q|q]; [lia|apply digits2_pos_ge|lia]).
  assert (Zdigits2 m ≤ Zdigits2 m - 1) by (apply digits2_spec; lia). lia.
Qed.

(** The size of a quotient. *)
Lemma digits2_div a b :
  0 < a → 0 < b → Zdigits2 b < Zdigits2 a →
  Zdigits2 a - Zdigits2 b ≤ Zdigits2 (a `div` b) ≤ Zdigits2 a - Zdigits2 b + 1.
Proof.
  intros Ha Hb Hd. pose proof (digits2_range a Ha). pose proof (digits2_range b Hb).
  pose proof (digits2_nonneg b). split.
  - replace (Zdigits2 a - Zdigits2 b) with (Zdigits2 a - Zdigits2 b - 1 + 1) by lia.
    apply digits2_lower; [lia|]. apply Z.div_le_lower_bound; [done|].
    assert (2 ^ (Zdigits2 a - 1) = 2 ^ Zdigits2 b * 2 ^ (Zdigits2 a - Zdigits2 b - 1)) as E
      by (rewrite <-Z.pow_add_r by lia; f_equal; lia).
    pose proof (Z.pow_pos_nonneg 2 (Zdigits2 a - Zdigits2 b - 1)). nia.
  - apply digits2_spec; [apply Z.div_pos; lia|lia|]. apply Z.div_lt_upper_bound; [done|].
    assert (2 ^ Zdigits2 a = 2 ^ (Zdigits2 b - 1) * 2 ^ (Zdigits2 a - Zdigits2 b + 1)) as E.
    { rewrite <-Z.pow_add_r; [f_equal; lia| |lia].
      destruct b as [|q|q]; [lia|pose proof (digits2_pos_ge q); lia|lia]. }
    pose proof (Z.pow_pos_nonneg 2 (Zdigits2 a - Zdigits2 b + 1)). nia.
Qed.

Lemma digits2_shift_eq a k : 0 < a → 0 ≤ k → Zdigits2 (a * 2 ^ k) = Zdigits2 a + k.
Proof.
  intros Ha Hk. apply Z.le_antisymm; [apply digits2_shift; lia|].
  pose proof (digits2_range a Ha). pose proof (Z.pow_pos_nonneg 2 k ltac:(lia) Hk).
  assert (1 ≤ Zdigits2 a) by (destruct a as [|q|q]; [lia|apply digits2_pos_ge|lia]).
  replace (Zdigits2 a + k) with (Zdigits2 a - 1 + k + 1) by lia. apply digits2_lower; [lia|].
  rewrite Z.pow_add_r by lia. nia.
Qed.

(** Dividing in the normal range: the size of the quotient. *)
Lemma ddiv_range mx ex my ey :
  let D := Zdigits2 (Z.pos mx) + ex - (Zdigits2 (Z.pos my) + ey) in
  emin prec emax + prec ≤ D → D + 1 ≤ emax - prec →
  above D (ddiv (S754_finite false mx ex) (S754_finite false my ey)) ∧
  below (D + 2) (ddiv (S754_finite false mx ex) (S754_finite false my ey)).
Proof.
  intros D Hmin Hmax. unfold ddiv, SFdiv, SFdiv_core_binary.
  set (e' := Z.min _ _). set (m' := match _ with Z0 => _ | _ => _ end).
  assert (e' ≤ D - prec ∧ 0 ≤ ex - ey - e') as [He Hs] by (unfold e', fexp; fold D; lia).
  assert (m' = Z.pos mx * 2 ^ (ex - ey - e')) as Em.
  { unfold m'. destruct (ex - ey - e') eqn:E; [cbn; lia| |lia]. rewrite Z.shiftl_mul_pow2 by lia. done. }
  assert (0 < m') as Hm by (rewrite Em; pose proof (Z.pow_pos_nonneg 2 (ex - ey - e')); nia).
  pose proof (digits2_shift_eq (Z.pos mx) (ex - ey - e') ltac:(lia) Hs) as Hd. rewrite <-Em in Hd.
  destruct (Z.div_eucl m' (Z.pos my)) as [q r] eqn:Eq.
  assert (q = m' `div` Z.pos my) as -> by (unfold Z.div; by rewrite Eq).
  destruct (digits2_div m' (Z.pos my)) as [Hlo Hhi]; [done|lia|unfold prec in *; lia|].
  set (q := m' `div` Z.pos my) in *.
  assert (0 ≤ q) as Hq0 by (apply Z.div_pos; lia).
  assert (0 < q) as Hq.
  { destruct (Z.eq_dec q 0) as [E0|]; [|lia]. rewrite E0 in Hlo. change (Zdigits2 0) with 0 in Hlo. unfold prec in *. lia. }
  change (xorb false false) with false. split.
  - apply binary_round_aux_above; unfold emin, prec, emax in *; lia.
  - replace (D + 2) with (D + 1 + 1) by lia. apply binary_round_aux_spec; unfold emin, prec, emax in *; lia.
Qed.

(** ** Rounding up *)

Lemma shr_1_div mrs : 0 ≤ shr_m mrs → shr_m (shr_1 mrs) = shr_m mrs `div` 2.
Proof.
  destruct mrs as [m r s]. cbn [shr_m]. intros Hm. rewrite <-Z.div2_div. by destruct m as [|[p|p|]|p].
Qed.

Lemma iter_shr_div p mrs :
  0 ≤ shr_m mrs → shr_m (SpecFloat.iter_pos shr_1 p mrs) = shr_m mrs `div` 2 ^ Z.pos p.
Proof.
  revert mrs. induction p as [p IH|p IH|]; intros mrs Hm; cbn [SpecFloat.iter_pos]; [..|by apply shr_1_div].
  - pose proof (shr_1_spec mrs Hm) as [H0 _]. pose proof (iter_shr_spec p _ H0) as [H1 _].
    rewrite !IH, shr_1_div, !Z.div_div by lia. f_equal.
    replace (Z.pos p~1) with (1 + Z.pos p + Z.pos p) by lia. rewrite !Z.pow_add_r by lia. lia.
  - pose proof (iter_shr_spec p _ Hm) as [H1 _]. rewrite !IH, !Z.div_div by lia. f_equal.
    replace (Z.pos p~0) with (Z.pos p + Z.pos p) by lia. by rewrite Z.pow_add_r by lia.
Qed.

(** Shifting in the normal range, as a division. *)
Lemma shr_fexp_div m e :
  0 < m → emin prec emax + prec ≤ Zdigits2 m + e →
  let k := Z.max 0 (Zdigits2 m - prec) in
  let '(mrs, e') := shr_fexp prec emax m e loc_Exact in
  shr_m mrs = m `div` 2 ^ k ∧ e' = e + k ∧ (k = 0 → loc_of_shr_record mrs = loc_Exact).
Proof.
  intros Hm Hmin k. unfold shr_fexp, fexp.
  assert (shr_m (shr_record_of_loc m loc_Exact) = m) as Em by done.
  set (n := Z.max (Zdigits2 m + e - prec) (emin prec emax) - e).
  assert (k = Z.max 0 n) as Ek by (unfold k, n, emin, prec, emax in *; lia).
  destruct n as [|p|p]; cbn [shr].
  - rewrite Ek. change (Z.max 0 0) with 0. rewrite Z.div_1_r, Z.add_0_r. done.
  - rewrite iter_shr_div, Em, Ek by (rewrite Em; lia). rewrite Z.max_r by lia. split; [done|]. split; [done|]. lia.
  - rewrite Ek. change (Z.max 0 (Z.neg p)) with 0. rewrite Z.div_1_r, Z.add_0_r. done.
Qed.

(** A positive number is rounded up by at most one part in [2 ^ 52]. *)
Lemma binary_round_aux_upper mx ex :
  prec ≤ Zdigits2 mx → 0 < mx → emin prec emax + prec ≤ Zdigits2 mx + ex → Zdigits2 mx + ex ≤ emax - prec →
  match binary_round_aux prec emax false mx ex loc_Exact with
  | S754_finite false m e => ex ≤ e ∧ Z.pos m * 2 ^ (e - ex) * 2 ^ 52 ≤ mx * (2 ^ 52 + 1)
  | _ => False
  end.
Proof.
  intros Hd Hm Hmin Hmax.
  pose proof (binary_round_aux_above mx ex loc_Exact (Zdigits2 mx + ex) Hm ltac:(lia) Hmin Hmax) as Ha.
  revert Ha. unfold binary_round_aux. pose proof (shr_fexp_div mx ex Hm Hmin) as H1. cbv zeta in H1.
  pose proof (shr_fexp_normal mx ex loc_Exact Hm Hmin) as N1.
  destruct (shr_fexp prec emax mx ex loc_Exact) as [mrs1 e1]. destruct H1 as (Hm1 & He1 & Hx1). destruct N1 as [P1 D1].
  set (k := Z.max 0 (Zdigits2 mx - prec)) in *. set (m1 := round_nearest_even _ _).
  assert (shr_m mrs1 ≤ m1 ≤ shr_m mrs1 + (if decide (k = 0) then 0 else 1)) as Hr.
  { unfold m1, round_nearest_even. case_decide as Ek; [rewrite (Hx1 Ek); lia|].
    destruct (loc_of_shr_record mrs1) as [|[]]; [lia| |lia..]. destruct (Z.even _); lia. }
  pose proof (digits2_mono (shr_m mrs1) m1 ltac:(lia)) as Hd1.
  pose proof (shr_fexp_div m1 e1 ltac:(lia) ltac:(lia)) as H2. cbv zeta in H2.
  destruct (shr_fexp prec emax m1 e1 loc_Exact) as [mrs2 e2]. destruct H2 as (Hm2 & He2 & _).
  set (k2 := Z.max 0 (Zdigits2 m1 - prec)) in *.
  destruct (shr_m mrs2) as [|p|p] eqn:Ep; [done| |done]. destruct (_ <=? _); [|done]. intros _.
  assert (0 ≤ k ∧ 0 ≤ k2) as [Hk Hk2] by (unfold k, k2; lia). split; [lia|].
  replace (e2 - ex) with (k2 + k) by lia. rewrite Z.pow_add_r by lia.
  pose proof (Z.pow_pos_nonneg 2 k ltac:(lia) Hk). pose proof (Z.pow_pos_nonneg 2 k2 ltac:(lia) Hk2).
  pose proof (Z.mul_div_le m1 (2 ^ k2) ltac:(lia)). pose proof (Z.mul_div_le mx (2 ^ k) ltac:(lia)).
  assert (Z.pos p * (2 ^ k2 * 2 ^ k) ≤ m1 * 2 ^ k) as Hp by nia.
  destruct (decide (k = 0)) as [Ek|Ek].
  - rewrite Ek in *. change (2 ^ 0) with 1 in *. nia.
  - assert (2 ^ k * 2 ^ 52 ≤ mx) as Hu.
    { rewrite <-Z.pow_add_r by lia. replace (k + 52) with (Zdigits2 mx - 1) by (unfold k, prec in *; lia).
      by apply digits2_range. }
    assert (m1 * 2 ^ k ≤ mx + 2 ^ k) by nia. nia.
Qed.

(** Integers below [2 ^ 53] are exact. *)
Lemma of_Z_exact n :
  0 < n < 2 ^ 53 →
  ∃ m, of_Z n = S754_finite false m (Zdigits2 n - 53) ∧ Z.pos m = n * 2 ^ (53 - Zdigits2 n) ∧ Zdigits2 (Z.pos m) = 53.
Proof.
  intros Hn. destruct n as [|p|p]; [lia| |lia]. set (d := Zdigits2 (Z.pos p)).
  assert (1 ≤ d ≤ 53) as Hd by (split; [apply digits2_pos_ge|apply digits2_spec; lia]).
  unfold of_Z, binary_normalize, binary_round.
  assert (fexp prec emax (Z.pos (digits2_pos p) + 0) = d - 53) as ->.
  { unfold fexp. change (Z.pos (digits2_pos p)) with d. unfold prec, emin, emax. lia. }
  assert (∃ m, shl_align p 0 (d - 53) = (m, d - 53) ∧ Z.pos m = Z.pos p * 2 ^ (53 - d)) as (m & -> & Em).
  { unfold shl_align. rewrite Z.sub_0_r. destruct (d - 53) as [|q|q] eqn:E; [|lia|].
    - exists p. replace (53 - d) with 0 by lia. split; [done|]. rewrite Z.pow_0_r. lia.
    - exists (Pos.iter xO p q). split; [done|]. replace (53 - d) with (Z.pos q) by lia. rewrite <-Z.shiftl_mul_pow2 by lia.
      clear. induction q as [|q IH] using Pos.peano_ind; [done|].
      rewrite Pos.iter_succ, Pos2Z.inj_xO, IH, Pos2Z.inj_succ, <-Z.add_1_r, <-Z.shiftl_shiftl by lia.
      by rewrite (Z.shiftl_mul_pow2 _ 1), Z.mul_comm. }
  assert (Zdigits2 (Z.pos m) = 53) as D by (rewrite Em, digits2_shift_eq by lia; fold d; lia).
  exists m. split; [|done]. unfold binary_round_aux.
  pose proof (shr_fexp_div (Z.pos m) (d - 53) ltac:(lia)) as H1. cbv zeta in H1. rewrite D in H1.
  change (Z.max 0 (53 - prec)) with 0 in H1.
  destruct (shr_fexp prec emax (Z.pos m) (d - 53) loc_Exact) as [mrs1 e1].
  destruct H1 as (Hm1 & He1 & Hx1); [unfold emin, prec, emax; lia|]. rewrite Z.div_1_r in Hm1. rewrite (Hx1 eq_refl), Hm1.
  cbn [round_nearest_even]. rewrite Z.add_0_r in He1. subst e1.
  pose proof (shr_fexp_div (Z.pos m) (d - 53) ltac:(lia)) as H2. cbv zeta in H2. rewrite D in H2.
  change (Z.max 0 (53 - prec)) with 0 in H2.
  destruct (shr_fexp prec emax (Z.pos m) (d - 53) loc_Exact) as [mrs2 e2].
  destruct H2 as (Hm2 & He2 & _); [unfold emin, prec, emax; lia|]. rewrite Z.div_1_r in Hm2. rewrite Hm2, Z.add_0_r in *.
  rewrite (proj2 (Z.leb_le _ _)) by (unfold emax, prec; lia). congruence.
Qed.

(** A product with a factor [m / 2 ^ 53] that is not too close to 1 stays below
    the integer. *)
Lemma dmul_fraction n m :
  0 < n < 2 ^ 53 → Zdigits2 (Z.pos m) = 53 → Z.pos m * (2 ^ 52 + 1) < 2 ^ 53 * 2 ^ 52 →
  match dmul (of_Z n) (S754_finite false m (-53)) with
  | S754_finite false p e => (0 ≤ e → Z.pos p * 2 ^ e < n) ∧ (e < 0 → Z.pos p < n * 2 ^ (- e))
  | _ => False
  end.
Proof.
  intros Hn Dm Hlt. destruct (of_Z_exact n Hn) as (q & -> & Eq & Dq). set (d := Zdigits2 n) in *.
  assert (1 ≤ d ≤ 53) as Hd.
  { split; [destruct n as [|p|p]; [lia|apply digits2_pos_ge|lia]|apply digits2_spec; lia]. }
  unfold dmul, SFmul. change (xorb false false) with false.
  pose proof (digits2_mul (Z.pos q) (Z.pos m) ltac:(lia) ltac:(lia)) as Dhi.
  assert (105 ≤ Zdigits2 (Z.pos q * Z.pos m)) as Dlo.
  { pose proof (digits2_range (Z.pos q) ltac:(lia)) as [Hq _]. pose proof (digits2_range (Z.pos m) ltac:(lia)) as [Hm _].
    rewrite Dq in Hq. rewrite Dm in Hm. change 105 with (104 + 1). apply digits2_lower; [lia|].
    change (2 ^ 104) with (2 ^ (53 - 1) * 2 ^ (53 - 1)). apply Z.mul_le_mono_nonneg; lia. }
  rewrite Pos2Z.inj_mul.
  pose proof (binary_round_aux_upper (Z.pos q * Z.pos m) (d - 53 + -53)) as Hu.
  destruct (binary_round_aux _ _ _ _ _ _) as [| | |[] p e];
    try (apply Hu; unfold prec, emin, emax; lia).
  destruct Hu as [He Hp]; [unfold prec, emin, emax; lia..|].
  replace (e - (d - 53 + -53)) with (e + (106 - d)) in Hp by lia.
  assert (Z.pos p * 2 ^ (e + (106 - d)) < n * 2 ^ (106 - d)) as Hlow.
  { assert (n * 2 ^ (106 - d) = Z.pos q * 2 ^ 53) as ->.
    { rewrite Eq, <-Z.mul_assoc, <-Z.pow_add_r by lia. f_equal. f_equal. lia. }
    assert (Z.pos q * (Z.pos m * (2 ^ 52 + 1)) < Z.pos q * (2 ^ 53 * 2 ^ 52)) by (apply Z.mul_lt_mono_pos_l; lia). lia. }
  pose proof (Z.pow_pos_nonneg 2 (106 - d) ltac:(lia) ltac:(lia)). split; intros Hs.
  - rewrite Z.pow_add_r in Hlow by lia. nia.
  - replace (106 - d) with ((e + (106 - d)) + (- e)) in Hlow at 2 by lia.
    pose proof (Z.pow_pos_nonneg 2 (e + (106 - d)) ltac:(lia) ltac:(lia)). rewrite (Z.pow_add_r 2 _ (- e)) in Hlow by lia.
    pose proof (Z.pow_pos_nonneg 2 (- e)). nia.
Qed.
