(* ===== verification/JsonGrammar.v ===== *)
(** * JSON texts

    The grammar of RFC 8259 over bytes, as an inductive predicate: [null], [true],
    [false], numbers with exponents, strings with escapes, arrays and objects with
    white space between their tokens.  TelemetryGateway.v uses it to say which of
    its responses are JSON; a reader that rejects a text proves nothing.

    [json_scan] is a necessary condition that can be computed: outside strings the
    letter [i] does not occur, and after an [n] comes a [u]. *)

From Stdlib Require Import String.
From S2P Require Import Prelude Http Text.

Local Open Scope Z_scope.

Definition is_ws (c : Z) : bool := (c =? SP) || (c =? LF) || (c =? CR) || (c =? 9).

(** White space. *)
Definition json_ws (w : list Z) : Prop := forallb is_ws w = true.

(** ** Numbers *)

(** Digits without leading zeros. *)
Definition int_ok (i : list Z) : bool :=
  match i with [] => false | [_] => true | c :: _ => negb (c =? 48) end.

Definition some_digits (l : list Z) : Prop := l ≠ [] ∧ forallb is_digit l = true.

Inductive json_number_text : list Z → Prop :=
  | NumberText sign int frac ex :
      sign = [] ∨ sign = [45] → int_ok int = true → forallb is_digit int = true →
      frac = [] ∨ (∃ ds, frac = 46 :: ds ∧ some_digits ds) →
      ex = [] ∨ (∃ e s ds, ex = e :: s ++ ds ∧ (e = 101 ∨ e = 69) ∧ (s = [] ∨ s = [43] ∨ s = [45]) ∧ some_digits ds) →
      json_number_text (sign ++ int ++ frac ++ ex).

(** ** Strings *)

Definition json_plain (c : Z) : bool := (32 <=? c) && negb (c =? 34) && negb (c =? 92).

(** The characters behind a backslash, other than [u]. *)
Definition json_escapes : list Z := [34; 92; 47; 98; 102; 110; 114; 116].

Definition is_hex (c : Z) : bool :=
  is_digit c || ((97 <=? c) && (c <=? 102)) || ((65 <=? c) && (c <=? 70)).

Inductive json_chars : list Z → Prop :=
  | CharsNil : json_chars []
  | CharsPlain c s : json_plain c = true → json_chars s → json_chars (c :: s)
  | CharsEscape c s : c ∈ json_escapes → json_chars s → json_chars (92 :: c :: s)
  | CharsUnicode a b c d s : forallb is_hex [a; b; c; d] = true → json_chars s → json_chars (92 :: 117 :: a :: b :: c :: d :: s).

Definition json_string_text (t : list Z) : Prop := ∃ s, t = 34 :: s ++ [34] ∧ json_chars s.

(** ** Values *)

(** A value, the elements of an array, the members of an object. *)
Inductive json_sort := Value | Elements | Members.

Inductive json_text : json_sort → list Z → Prop :=
  | TextNull : json_text Value (bytes_of "null")
  | TextTrue : json_text Value (bytes_of "true")
  | TextFalse : json_text Value (bytes_of "false")
  | TextNumber t : json_number_text t → json_text Value t
  | TextString t : json_string_text t → json_text Value t
  | TextNoElements w : json_ws w → json_text Value (91 :: w ++ [93])
  | TextArray t : json_text Elements t → json_text Value (91 :: t ++ [93])
  | TextNoMembers w : json_ws w → json_text Value (123 :: w ++ [125])
  | TextObject t : json_text Members t → json_text Value (123 :: t ++ [125])
  | TextElement w1 t w2 : json_ws w1 → json_text Value t → json_ws w2 → json_text Elements (w1 ++ t ++ w2)
  | TextElements w1 t w2 ts :
      json_ws w1 → json_text Value t → json_ws w2 → json_text Elements ts →
      json_text Elements (w1 ++ t ++ w2 ++ 44 :: ts)
  | TextMember w1 k w2 w3 t w4 :
      json_ws w1 → json_string_text k → json_ws w2 → json_ws w3 → json_text Value t → json_ws w4 →
      json_text Members (w1 ++ k ++ w2 ++ 58 :: w3 ++ t ++ w4)
  | TextMembers w1 k w2 w3 t w4 ts :
      json_ws w1 → json_string_text k → json_ws w2 → json_ws w3 → json_text Value t → json_ws w4 →
      json_text Members ts → json_text Members (w1 ++ k ++ w2 ++ 58 :: w3 ++ t ++ w4 ++ 44 :: ts).

(** A whole text: one value, white space around it. *)
Definition json_document (l : list Z) : Prop :=
  ∃ w1 t w2, l = w1 ++ t ++ w2 ∧ json_ws w1 ∧ json_text Value t ∧ json_ws w2.

(** ** A necessary condition *)

Inductive scan := Out | In | Escaped | AfterN | Rejected.

#[export] Instance scan_eq_dec : EqDecision scan.
Proof. solve_decision. Defined.

Definition scan_step (s : scan) (c : Z) : scan :=
  match s with
  | Out => if c =? 34 then In else if c =? 110 then AfterN else if c =? 105 then Rejected else Out
  | In => if c =? 34 then Out else if c =? 92 then Escaped else In
  | Escaped => In
  | AfterN => if c =? 117 then Out else Rejected
  | Rejected => Rejected
  end.

Definition json_scan (s : scan) (l : list Z) : scan := foldl scan_step s l.

Lemma json_scan_app s a b : json_scan s (a ++ b) = json_scan (json_scan s a) b.
Proof. apply foldl_app. Qed.

Lemma scan_rejected l : json_scan Rejected l = Rejected.
Proof. by induction l. Qed.

(** Characters that leave the scan where it is. *)
Definition neutral (c : Z) : bool := negb ((c =? 34) || (c =? 110) || (c =? 105)).

Lemma scan_neutral l : forallb neutral l = true → json_scan Out l = Out.
Proof.
  induction l as [|c l IH]; [done|]. cbn [forallb]. intros [Hc Hl]%andb_true_iff. cbn. unfold neutral in Hc.
  destruct (c =? 34), (c =? 110), (c =? 105); try done. by apply IH.
Qed.

Lemma forallb_weaken {A} (p q : A → bool) l : (∀ c, p c = true → q c = true) → forallb p l = true → forallb q l = true.
Proof. intros H. rewrite !forallb_forall. eauto. Qed.

Lemma digit_neutral c : is_digit c = true → neutral c = true.
Proof. unfold is_digit, neutral. intros H. lia. Qed.

Lemma scan_ws w : json_ws w → json_scan Out w = Out.
Proof. intros H. apply scan_neutral, (forallb_weaken is_ws); [|done]. unfold is_ws, neutral, SP, LF, CR. intros c Hc. lia. Qed.

Lemma scan_digits l : forallb is_digit l = true → json_scan Out l = Out.
Proof. intros H. by apply scan_neutral, (forallb_weaken is_digit); [apply digit_neutral|]. Qed.

Lemma scan_number t : json_number_text t → json_scan Out t = Out.
Proof.
  intros [sign int frac ex Hs _ Hi Hf He]. rewrite !json_scan_app.
  assert (json_scan Out sign = Out) as -> by by destruct Hs as [-> | ->]. rewrite scan_digits by done.
  assert (json_scan Out frac = Out) as ->.
  { destruct Hf as [->|(ds & -> & _ & Hd)]; [done|]. change (json_scan Out ds = Out). by apply scan_digits. }
  destruct He as [->|(e & s & ds & -> & Hec & Hsc & _ & Hd)]; [done|].
  change (e :: s ++ ds) with ([e] ++ s ++ ds). rewrite !json_scan_app.
  assert (json_scan Out [e] = Out) as -> by by destruct Hec as [-> | ->].
  assert (json_scan Out s = Out) as -> by by destruct Hsc as [->|[->| ->]]. by apply scan_digits.
Qed.

Lemma scan_chars s : json_chars s → json_scan In s = In.
Proof.
  induction 1 as [|c s Hc _ IH|c s Hc _ IH|a b c d s Hh _ IH]; [done|..].
  - unfold json_plain in Hc. cbn. destruct (c =? 34), (c =? 92); cbn in *; try by rewrite ?andb_false_r in Hc.
  - done.
  - assert (∀ x l, is_hex x = true → json_scan In (x :: l) = json_scan In l) as Hx.
    { intros x l Hx. assert ((x =? 34) = false ∧ (x =? 92) = false) as [E1 E2] by (unfold is_hex, is_digit in Hx; lia).
      unfold json_scan. cbn. by rewrite E1, E2. }
    cbn in Hh. rewrite !andb_true_iff in Hh. destruct Hh as (Ha & Hb & Hc & Hd & _).
    change (json_scan In (92 :: 117 :: a :: b :: c :: d :: s)) with (json_scan In (a :: b :: c :: d :: s)).
    by rewrite !Hx.
Qed.

Lemma scan_string t : json_string_text t → json_scan Out t = Out.
Proof.
  intros (s & -> & Hs). change (34 :: s ++ [34]) with ([34] ++ s ++ [34]). rewrite !json_scan_app.
  change (json_scan Out [34]) with In. by rewrite scan_chars.
Qed.

Lemma scan_text s t : json_text s t → json_scan Out t = Out.
Proof.
  assert (∀ c l, neutral c = true → json_scan Out (c :: l) = json_scan Out l) as Hcons.
  { intros c l Hc. change (c :: l) with ([c] ++ l). rewrite json_scan_app. by rewrite (scan_neutral [c]) by (cbn; by rewrite Hc). }
  induction 1; rewrite ?Hcons by done; rewrite ?json_scan_app, ?Hcons by done; rewrite ?json_scan_app; try done;
    [by apply scan_number|by apply scan_string|..];
    repeat match goal with
    | H : json_ws ?w |- context [json_scan Out ?w] => rewrite (scan_ws w H)
    | H : json_scan Out ?t = Out |- context [json_scan Out ?t] => rewrite H
    | H : json_string_text ?k |- context [json_scan Out ?k] => rewrite (scan_string k H)
    | |- context [json_scan Out (?c :: ?l)] => rewrite (Hcons c l) by done
    | |- context [json_scan Out (?a ++ ?b)] => rewrite (json_scan_app Out a b)
    end; done.
Qed.

(** A text that the scan rejects is not JSON. *)
Lemma scan_document l : json_scan Out l = Rejected → ¬ json_document l.
Proof.
  intros H (w1 & t & w2 & -> & H1 & Ht & H2).
  rewrite !json_scan_app, scan_ws, (scan_text Value), scan_ws in H by done. done.
Qed.
