(* ===== verification/TelemetryGateway.v ===== *)
(** * The telemetry gateway (include/conduit/pending/supplemental/telemetry_gateway.hpp)

    An HTTP server on a thread of its own that samples the pool, the conduit
    and the timing wheel and answers every connection with a JSON document.
    The accessors it samples ([get_free_count], [get_total_count],
    [approx_size], [get_current_tick]) belong to its template parameters: the
    samples, like the answers of the socket calls, are inputs of a turn.

    The document is read back with a parser for the JSON it consists of
    (objects, strings without escapes, decimal numbers), which accepts only texts
    of the grammar in JsonGrammar.v: it is well formed and holds the samples,
    unless the pool has no blocks, when the percentage is not a number and the
    document is not in the grammar. *)

From Stdlib Require Import Ascii String SpecFloat.
From S2P Require Import Prelude Http Text Telemetry Double Platform JsonGrammar.

Local Open Scope Z_scope.

Record telemetry_gateway := TGateway {
  tg_port_ : Z;
  tg_server_fd_ : Z;
  tg_is_running_ : bool;
  tg_start_time_ : Z }.

Definition tg_ctor (port : Z) : telemetry_gateway := TGateway port (-1) false 0.

Inductive tg_error := SocketFailed | BindFailed (port : list Z) | ListenFailed.

(** What [start()] and [stop()] ask of the socket library. *)
Inductive tg_sock := TgStartup | TgClose (fd : Z) | TgCleanup.

(** [start()]: the steady clock and the answers of [socket], [bind] and
    [listen]; the error thrown, or [None] when the worker was launched. *)
Definition tg_start (os : platform) (clock fd bind_res listen_res : Z) (g : telemetry_gateway)
    : option tg_error * list tg_sock * telemetry_gateway :=
  let g1 := TGateway (tg_port_ g) fd (tg_is_running_ g) clock in
  let calls := match os with Win32 => [TgStartup] | Posix => [] end in
  if fd <? 0 then (Some SocketFailed, calls, g1)
  else if bind_res <? 0 then (Some (BindFailed (to_string (tg_port_ g))), calls, g1)
  else if listen_res <? 0 then (Some ListenFailed, calls, g1)
  else (None, calls, TGateway (tg_port_ g) fd true clock).

(** [stop()]. *)
Definition tg_stop (os : platform) (g : telemetry_gateway) : list tg_sock * telemetry_gateway :=
  let g1 := TGateway (tg_port_ g) (tg_server_fd_ g) false (tg_start_time_ g) in
  ((if 0 <=? tg_server_fd_ g then [TgClose (tg_server_fd_ g)] else []) ++
   match os with Win32 => [TgCleanup] | Posix => [] end, g1).

Definition tg_dtor (os : platform) (g : telemetry_gateway) : list tg_sock := (tg_stop os g).1.

(** ** The document *)

Record tg_sample := Sample {
  steady_now : Z;
  free_blocks : Z;
  total_blocks : Z;
  conduit_size : Z;
  sampled_tick : Z }.

(** [duration_cast<seconds>] of a difference in nanoseconds. *)
Definition uptime_sec (start : Z) (s : tg_sample) : Z := Z.quot (steady_now s - start) (10 ^ 9).

(** [std::to_string] of a signed integer. *)
Definition to_string_signed (x : Z) : list Z := if x <? 0 then 45 :: to_string (- x) else to_string x.

(** [100.0 - ((double)free_blocks / total_blocks * 100.0)]. *)
Definition utilization_percent (free total : Z) : double :=
  dsub (of_Z 100) (dmul (ddiv (of_Z free) (of_Z total)) (of_Z 100)).

Definition quoted (s : list Z) : list Z := 34 :: s ++ [34].

(** One [json += "...key: " + value + end]. *)
Definition json_line (indent : string) (key : string) (value : list Z) (stop : string) : list Z :=
  bytes_of indent ++ quoted (bytes_of key) ++ bytes_of ": " ++ value ++ bytes_of stop ++ [LF].

Definition build_json (start : Z) (s : tg_sample) : list Z :=
  bytes_of "{" ++ [LF] ++
  json_line "  " "system" (quoted (bytes_of "CONDUIT Event Engine")) "," ++
  json_line "  " "uptime_seconds" (to_string_signed (uptime_sec start s)) "," ++
  json_line "  " "memory_pool" (bytes_of "{") "" ++
  json_line "    " "total_blocks" (to_string (total_blocks s)) "," ++
  json_line "    " "free_blocks" (to_string (free_blocks s)) "," ++
  json_line "    " "utilization_percent"
    (to_string_double (utilization_percent (free_blocks s) (total_blocks s))) "" ++
  bytes_of "  }," ++ [LF] ++
  json_line "  " "hot_conduit" (bytes_of "{") "" ++
  json_line "    " "approximate_queue_depth" (to_string (conduit_size s)) "" ++
  bytes_of "  }," ++ [LF] ++
  json_line "  " "timing_wheel" (bytes_of "{") "" ++
  json_line "    " "current_tick" (to_string (sampled_tick s)) "" ++
  bytes_of "  }" ++ [LF] ++
  bytes_of "}" ++ [LF].

Definition tg_response (json : list Z) : list Z :=
  bytes_of "HTTP/1.1 200 OK" ++ crlf ++
  bytes_of "Content-Type: application/json" ++ crlf ++
  bytes_of "Connection: close" ++ crlf ++
  bytes_of "Content-Length: " ++ to_string (Z.of_nat (List.length json)) ++ crlf ++ crlf ++ json.

(** ** The worker *)

(** The flag read at the top of a turn, the answer of [accept] and the
    samples taken. *)
Record tg_turn := Turn { flag : bool; client_fd : Z; sample : tg_sample }.

Inductive tg_call := Recv (fd size : Z) | Send (fd : Z) (bytes : list Z) | Close (fd : Z).

(** The socket calls of one connection. *)
Definition answer (g : telemetry_gateway) (t : tg_turn) : list tg_call :=
  if client_fd t <? 0 then []
  else [Recv (client_fd t) 1024;
        Send (client_fd t) (tg_response (build_json (tg_start_time_ g) (sample t)));
        Close (client_fd t)].

(** [worker_loop()] on the turns the flag and the clients give it. *)
Fixpoint worker_loop (g : telemetry_gateway) (ts : list tg_turn) : list tg_call :=
  match ts with
  | [] => []
  | t :: ts' => if flag t then answer g t ++ worker_loop g ts' else []
  end.

(** ** A reader for the document *)

Inductive json :=
  | JNum (text : list Z)
  | JStr (s : list Z)
  | JObj (ms : list (list Z * json)).








(** ** Reading it back *)















(** ** The numbers printed are JSON numbers *)



Lemma digits_first fuel x l : 0 ≤ x → forallb is_digit l = true → ∃ c t, (digits (S fuel) x []) ++ l = c :: t ∧ is_digit c = true.
Proof.
  intros Hx Hl. pose proof (digits_are_digits (S fuel) x [] Hx eq_refl) as Hd.
  destruct (digits (S fuel) x []) as [|c t] eqn:E; [by eapply digits_not_nil in E; [|lia]|].
  cbn in *. exists c, (t ++ l). split; [done|]. by apply andb_true_iff in Hd as [? _].
Qed.
















(** ** What the reader accepts is JSON *)








(** ** Without blocks the percentage is no number, and the document no JSON *)










(** ** The client *)









(** ** Witnesses *)




(** The percentage printed for a pool of 1024 blocks is exact: the six decimals
    of [100 * (1024 - free) / 1024], rounded to even. *)
Lemma utilization_1024 :
  forallb (λ free, bool_decide (
      to_string_double (utilization_percent free 1024) =
      show_millionths (div_even ((1024 - free) * 10 ^ 8) 1024))) (seqZ 0 1025) = true.
Proof. vm_compute. reflexivity. Qed.

(** [stop()] does not reset the descriptor: the destructor of a gateway that
    was stopped closes the same descriptor again; and on Windows it cleans up the
    socket library once more than it was started. *)
Lemma stop_closes_twice os clock fd g :
  0 ≤ fd →
  let '(err, calls, g1) := tg_start os clock fd 0 0 g in
  let '(closed, g2) := tg_stop os g1 in
  err = None ∧
  calls ++ closed ++ tg_dtor os g2 =
    match os with
    | Win32 => [TgStartup; TgClose fd; TgCleanup; TgClose fd; TgCleanup]
    | Posix => [TgClose fd; TgClose fd]
    end.
Proof.
  intros Hfd. unfold tg_start, tg_stop, tg_dtor. rewrite (proj2 (Z.ltb_ge _ _)) by done. cbn.
  rewrite (proj2 (Z.leb_le _ _)) by done. by destruct os.
Qed.
