(* ===== verification/Stages.v ===== *)
(** * Pipelines of stages over a pool

    The programs under examples/ share a shape: a pool of one event type, a
    pipeline of handlers that read or change the event and print, and a [main]
    that makes events and dispatches them.  This file composes the pool
    (Pool.v), the smart pointer (EventPtr.v) and the dispatch (Pipeline.v) into
    that shape: the handlers are real handlers of Pipeline.v that dereference
    the pointer they are given, inside the memory of the pool.

    The reference semantics is [flow]: a fold over the stages that carries only
    the value of the event.  [made_dispatch] shows that making an event and
    dispatching it prints what [flow] says and leaves the pool as it was. *)

From Stdlib Require Import String.
From S2P Require Import Prelude EventPtr Interfaces Pool Pipeline Double.

Local Open Scope Z_scope.

(** ** Output *)

(** What is inserted into [std::cout]. *)
Inductive tok := Txt (s : string) | Int (z : Z) | Dbl (d : double).

#[export] Instance tok_eq_dec : EqDecision tok.
Proof. solve_decision. Defined.

Abbreviation line := (list tok).

Section stages.
Context {T St : Type}.
Implicit Types (q : pool T) (v : T) (L : list Z).

(** The pools, and the state of the handlers with what was printed so far. *)
Record world := World { w_pools : gmap Z (pool T); w_st : St }.

(** ** Objects in the memory of a pool *)

(** The object a pointer points to: a cell that holds one. *)
Definition object_at (q : pool T) (a : Z) : option T :=
  let idx := cell_index q a in
  if a =? cell_addr q idx
  then match zget (memory_ q) idx with Some (Data v) => Some v | _ => None end
  else None.

(** Writing to members of the object. *)
Definition write_at (q : pool T) (a : Z) (v : T) : option (pool T) :=
  _ ← object_at q a;
  mem ← zset (memory_ q) (cell_index q a) (Data v);
  Some (Pool mem (free_head_ q) (data_ q) (sizeof_cell q)).

Lemma object_at_live q a (v : T) : layout q → live q !! a = Some v → object_at q a = Some v.
Proof.
  intros Hlay Hl. apply live_lookup in Hl as (i & -> & Hz); [|done].
  pose proof (zget_Some_range _ _ _ Hz). unfold object_at.
  by rewrite cell_index_addr, Z.eqb_refl, Hz.
Qed.

Lemma free_inv_write q L i (v v' : T) :
  free_inv q L → zget (memory_ q) i = Some (Data v) →
  free_inv (Pool (<[Z.to_nat i := Data v']> (memory_ q)) (free_head_ q) (data_ q) (sizeof_cell q)) L.
Proof.
  intros [Hlay Hw Hc Hnd Hall] Hv. pose proof (zget_Some_range _ _ _ Hv) as Hr.
  pose proof (zset_eq (memory_ q) i (Data v') Hr) as Hz. split; cbn.
  - apply layout_same; [by rewrite length_insert|done].
  - done.
  - eapply chain_insert; [exact Hc| |exact Hz]. intros Hin.
    destruct (chain_elem _ _ _ _ Hc Hin) as (n & Hn & _). congruence.
  - done.
  - intros j n Hj. rewrite (zget_zset _ _ _ _ _ Hz) in Hj. case_decide; [done|]. by eapply Hall.
Qed.

Lemma write_at_spec q L a (v v' : T) :
  free_inv q L → live q !! a = Some v →
  ∃ q', write_at q a v' = Some q' ∧ free_inv q' L ∧ live q' = <[a := v']> (live q).
Proof.
  intros Hq Hl. pose proof (fi_layout _ _ Hq) as Hlay. unfold write_at.
  rewrite (object_at_live _ _ _ Hlay Hl). cbn [mbind option_bind].
  apply live_lookup in Hl as (i & -> & Hz); [|done]. pose proof (zget_Some_range _ _ _ Hz) as Hr.
  rewrite cell_index_addr, zset_eq by done. cbn [mbind option_bind]. eexists. split; [done|].
  split; [by eapply free_inv_write|].
  pose proof (live_popped q i 0 v' Hlay Hr) as Hp. unfold live in *. exact Hp.
Qed.

(** ** The pool behind the smart pointer *)

Definition world_release (sp : list bool) : deleter world := λ ctx ptr w,
  ps ← release_to_pool sp ctx ptr (w_pools w); Some (World ps (w_st w)).

(** [pool.make(args...)] where [args] build [v]. *)
Definition world_make (sp spd : list bool) (v : T) (this : Z) (w : world) : option (event_ptr world * world) :=
  q ← w_pools w !! this;
  '(ptr, q') ← make sp v q;
  Some (if ptr =? nullptr then ep_null else ep_make ptr (world_release spd) this,
        World (<[this := q']> (w_pools w)) (w_st w)).

(** ** Stages *)

(** The body of one [on]: it reads through [const event_ptr&], with or without
    a verdict, or writes through [event_ptr&]. *)
Inductive body :=
  | ReadVoid (f : T → St → St)
  | ReadBool (f : T → St → bool * St)
  | WriteVoid (f : T → St → T * St).

(** The overloads of a handler, by the type of the event. *)
Definition stage : Type := Z → option body.

(** The object behind a pointer to the subobject of type [id]: [sub id] is the
    offset of that type in the event, [home id] the pool events of it live in. *)
Context (sub home : Z → Z).

Definition load (id : Z) (ev : event_ptr world) (w : world) : option T :=
  q ← w_pools w !! home id; object_at q (ptr_ ev - sub id).

Definition store (id : Z) (ev : event_ptr world) (v : T) (w : world) : option world :=
  q ← w_pools w !! home id;
  q' ← write_at q (ptr_ ev - sub id) v;
  Some (World (<[home id := q']> (w_pools w)) (w_st w)).

Definition set_st (s : St) (w : world) : world := World (w_pools w) s.

Definition stage_handler (s : stage) : handler world := λ id,
  match s id with
  | None => None
  | Some (ReadVoid f) => Some (OnVoid (λ ev w, v ← load id ev w; Some (ev, set_st (f v (w_st w)) w)))
  | Some (ReadBool f) =>
      Some (OnBool (λ ev w, v ← load id ev w; let '(b, s) := f v (w_st w) in Some (b, ev, set_st s w)))
  | Some (WriteVoid f) =>
      Some (OnVoid (λ ev w, v ← load id ev w; let '(v', s) := f v (w_st w) in
                            w' ← store id ev v' w; Some (ev, set_st s w')))
  end.

(** ** The reference semantics *)

(** One stage at one type: whether it lets the event pass, the value and the
    state after it. *)
Definition act (s : stage) (id : Z) (v : T) (st : St) : bool * (T * St) :=
  match s id with
  | None => (true, (v, st))
  | Some (ReadVoid f) => (true, (v, f v st))
  | Some (ReadBool f) => let '(b, st') := f v st in (b, (v, st'))
  | Some (WriteVoid f) => (true, f v st)
  end.

(** The value and the state after the stages, until one says no. *)
Fixpoint flow (cs : list (stage * Z)) (v : T) (st : St) : T * St :=
  match cs with
  | [] => (v, st)
  | (s, id) :: cs' =>
      let '(b, (v1, st1)) := act s id v st in
      if (b : bool) then flow cs' v1 st1 else (v1, st1)
  end.

(** The stages in the order of the pipeline, each at the types of the event,
    bases first. *)
Definition stage_calls (ss : list stage) (E : ety) : list (stage * Z) :=
  ss ≫= λ s, (λ c, (s, c.1)) <$> linear 0 E.

(** *** Delivery follows the flow *)

(** [ev] points to the live object [v] of the pool [this]. *)
Definition points_to (this : Z) (ev : event_ptr world) (v : T) (L : list Z) (m : gmap Z T) (w : world) : Prop :=
  ∃ q, w_pools w !! this = Some q ∧ free_inv q L ∧ live q = m ∧ live q !! ptr_ ev = Some v.

Lemma load_spec this id ev ev' v L m w :
  home id = this → ptr_ ev' = ptr_ ev + sub id → points_to this ev v L m w → load id ev' w = Some v.
Proof.
  intros Hh Hp (q & Hq & Hinv & _ & Hl). unfold load. rewrite Hh, Hq. cbn [mbind option_bind].
  replace (ptr_ ev' - sub id) with (ptr_ ev) by lia. by apply object_at_live; [apply Hinv|].
Qed.

Lemma store_spec this id ev ev' (v v' : T) L m w :
  home id = this → ptr_ ev' = ptr_ ev + sub id → points_to this ev v L m w →
  ∃ w', store id ev' v' w = Some w' ∧ points_to this ev v' L (<[ptr_ ev := v']> m) w' ∧
        w_st w' = w_st w ∧ ∀ k, k ≠ this → w_pools w' !! k = w_pools w !! k.
Proof.
  intros Hh Hp (q & Hq & Hinv & Hm & Hl). unfold store. rewrite Hh, Hq. cbn [mbind option_bind].
  replace (ptr_ ev' - sub id) with (ptr_ ev) by lia.
  destruct (write_at_spec q L (ptr_ ev) v v' Hinv Hl) as (q' & -> & Hinv' & Hl').
  cbn [mbind option_bind]. eexists. split; [done|]. split; [|split; [done|]].
  - exists q'. cbn. rewrite lookup_insert_eq, Hl', Hm, lookup_insert_eq. done.
  - intros k Hk. cbn. by rewrite lookup_insert_ne.
Qed.

Lemma points_to_set this ev v L m w st : points_to this ev v L m w → points_to this ev v L m (set_st st w).
Proof. done. Qed.

(** What a delivery did: the pointer is as it was, the object has its new value
    in place, the state is the new one, other pools were not touched. *)
Definition delivered (this : Z) (ev : event_ptr world) (r : T * St) (L : list Z) (m : gmap Z T)
    (w w' : world) : Prop :=
  points_to this ev r.1 L (<[ptr_ ev := r.1]> m) w' ∧ w_st w' = r.2 ∧
  ∀ k, k ≠ this → w_pools w' !! k = w_pools w !! k.

Lemma points_to_insert this ev v L m w :
  points_to this ev v L m w → points_to this ev v L (<[ptr_ ev := v]> m) w.
Proof.
  intros (q & Hq & Hi & <- & Hl). exists q. split_and!; try done. by rewrite insert_id.
Qed.

Lemma call_stage this s id ev ev' v L m w :
  home id = this → ptr_ ev' = ptr_ ev + sub id → points_to this ev v L m w →
  ∃ w', call_on_if_exists (stage_handler s) id ev' w = Some ((act s id v (w_st w)).1, ev', w') ∧
        delivered this ev (act s id v (w_st w)).2 L m w w'.
Proof.
  intros Hh Hp Hpt. unfold call_on_if_exists, stage_handler, act.
  pose proof (load_spec _ _ _ _ _ _ _ _ Hh Hp Hpt) as El. pose proof (points_to_insert _ _ _ _ _ _ Hpt) as Hpi.
  destruct (s id) as [[f|f|f]|].
  - rewrite El. cbn [mbind option_bind]. eexists. split; [done|]. split; [by apply points_to_set|]. done.
  - rewrite El. cbn [mbind option_bind]. destruct (f v (w_st w)) as [b st]. eexists. split; [done|].
    split; [by apply points_to_set|]. done.
  - rewrite El. cbn [mbind option_bind]. destruct (f v (w_st w)) as [v' st].
    destruct (store_spec _ _ _ _ _ v' _ _ _ Hh Hp Hpt) as (w' & -> & Hpt' & Ho & Hk).
    cbn [mbind option_bind]. eexists. split; [done|]. split; [by apply points_to_set|]. done.
  - exists w. split; [done|]. split; [done|]. done.
Qed.

Lemma current_stage this s Event id off ev v L m w :
  home id = this → off = sub id → (id = Event → off = 0) → ptr_ ev ≠ nullptr → ptr_ ev + off ≠ nullptr →
  points_to this ev v L m w →
  ∃ w', call_current (stage_handler s) Event id off ev w = Some ((act s id v (w_st w)).1, ev, w') ∧
        delivered this ev (act s id v (w_st w)).2 L m w w'.
Proof.
  intros Hh Hoff H0 Hev Hp Hpt. assert (ep_bool ev = true) as Hb by (by apply ep_bool_true).
  unfold call_current. destruct (Z.eqb_spec Event id) as [->|Hne].
  - apply call_stage; [done|rewrite <-Hoff, H0 by done; lia|done].
  - pose proof (ep_view_bool off ev Hb Hp) as Hv.
    destruct (call_stage this s id ev (ep_view off ev) v L m w) as (w' & -> & Hd); [done| |done|].
    { unfold ep_view. rewrite Hb. cbn [ptr_]. lia. }
    cbn [mbind option_bind]. rewrite Hv. cbn [negb]. rewrite ep_view_destroy. cbn [mbind option_bind]. by exists w'.
Qed.

Lemma deliver_stages this Event cs ev v L m w :
  ptr_ ev ≠ nullptr →
  Forall (λ c, home c.2.1 = this ∧ c.2.2 = sub c.2.1 ∧ (c.2.1 = Event → c.2.2 = 0) ∧
               ptr_ ev + c.2.2 ≠ nullptr) cs →
  points_to this ev v L m w →
  ∃ b w', deliver Event ((λ c, (stage_handler c.1, c.2)) <$> cs) ev w = Some (b, ev, w') ∧
          delivered this ev (flow ((λ c, (c.1, c.2.1)) <$> cs) v (w_st w)) L m w w'.
Proof.
  intros Hev Hcs. assert (ep_bool ev = true) as Hb by (by apply ep_bool_true). revert v m w.
  induction Hcs as [|[s [id off]] cs (Hh & Hoff & H0 & Hp) _ IH]; intros v m w Hpt.
  - exists true, w. split; [done|]. split; [by apply points_to_insert|]. done.
  - cbn in Hh, Hoff, H0, Hp. rewrite !fmap_cons. cbn [deliver flow fst snd].
    destruct (current_stage this s Event id off ev v L m w) as (w1 & -> & Hp1 & Ho1 & Hk1); try done.
    destruct (act s id v (w_st w)) as [b [v1 st1]]. cbn [fst snd mbind option_bind] in *. rewrite Hb, andb_true_r.
    destruct b; [|by exists false, w1].
    destruct (IH v1 (<[ptr_ ev := v1]> m) w1 Hp1) as (b & w2 & -> & Hp2 & Ho2 & Hk2). exists b, w2. split; [done|].
    rewrite Ho1 in Hp2, Ho2. destruct (flow _ v1 st1) as [v' st']. cbn [fst snd] in *.
    split; [by rewrite insert_insert_eq in Hp2|]. split; [done|]. intros k Hk. by rewrite Hk2, Hk1.
Qed.

(** The layout of an event type: every type in it is in its place, lives in the
    pool [this], and the event itself is at offset 0. *)
Definition placed (this : Z) (E : ety) : Prop :=
  Forall (λ c, home c.1 = this ∧ c.2 = sub c.1 ∧ (c.1 = ety_id E → c.2 = 0) ∧ 0 ≤ c.2) (linear 0 E).

Lemma stage_calls_spec ss E :
  calls (stage_handler <$> ss) E =
    (λ c, (stage_handler c.1, c.2)) <$> (ss ≫= λ s, pair s <$> linear 0 E) ∧
  stage_calls ss E = (λ c, (c.1, c.2.1)) <$> (ss ≫= λ s, pair s <$> linear 0 E).
Proof.
  unfold calls, stage_calls. induction ss as [|s ss [IH1 IH2]]; [done|].
  rewrite fmap_cons, !bind_cons, !fmap_app, IH1, IH2. split; f_equal; by rewrite <-list_fmap_compose.
Qed.

(** Dispatching an event that is not empty runs the flow. *)
Lemma dispatch_stages this E ss ev v L m w :
  placed this E → 0 < ptr_ ev → points_to this ev v L m w →
  ∃ w', dispatch (stage_handler <$> ss) E ev w = Some (ev, w') ∧
        delivered this ev (flow (stage_calls ss E) v (w_st w)) L m w w'.
Proof.
  intros Hpl Hev Hpt. assert (ptr_ ev ≠ nullptr) as Hne by (unfold nullptr; lia).
  assert (ep_bool ev = true) as Hb by (by apply ep_bool_true).
  destruct (stage_calls_spec ss E) as [Ec Es]. unfold dispatch. rewrite Hb. cbn [negb].
  rewrite dispatch_all_deliver, Ec, Es by done.
  destruct (deliver_stages this (ety_id E) (ss ≫= λ s, pair s <$> linear 0 E) ev v L m w Hne)
    as (b & w' & -> & Hd); [|done|by exists w'].
  apply Forall_bind, Forall_true. intros s. apply Forall_fmap. eapply Forall_impl; [exact Hpl|].
  intros [id off] (H1 & H2 & H3 & H4). cbn in *. split_and!; try done. unfold nullptr. lia.
Qed.

(** ** Making an event and dispatching it *)

(** [pipe.dispatch(pool.make(args...))]: the temporary is destroyed at the end
    of the statement. *)
Definition dispatch_made (sp spd : list bool) (ss : list stage) (E : ety) (this : Z) (v : T) (w : world)
    : option world :=
  '(tmp, w1) ← world_make sp spd v this w;
  '(tmp', w2) ← dispatch_rvalue (stage_handler <$> ss) E tmp w1;
  ep_destroy tmp' w2.

(** The pool [this] has the free list [L] and the live objects [m]. *)
Definition pool_is (this : Z) (L : list Z) (m : gmap Z T) (w : world) : Prop :=
  ∃ q, w_pools w !! this = Some q ∧ free_inv q L ∧ live q = m.

Lemma world_make_empty sp spd v this m w :
  pool_is this [] m w → ∃ w', world_make sp spd v this w = Some (ep_null, w') ∧
    pool_is this [] m w' ∧ w_st w' = w_st w ∧ ∀ k, k ≠ this → w_pools w' !! k = w_pools w !! k.
Proof.
  intros (q & Hq & Hi & Hm). unfold world_make. rewrite Hq. cbn [mbind option_bind].
  rewrite make_empty by done. cbn [mbind option_bind]. rewrite Z.eqb_refl. eexists. split; [done|]. split.
  - exists q. cbn. by rewrite lookup_insert_eq.
  - split; [done|]. intros k Hk. cbn. by rewrite lookup_insert_ne.
Qed.

Lemma world_make_room sp spd v this i L m w :
  pool_is this (i :: L) m w →
  ∃ a w', world_make sp spd v this w = Some (ep_make a (world_release spd) this, w') ∧
    0 < a ∧ m !! a = None ∧ points_to this (ep_make a (world_release spd) this) v L (<[a := v]> m) w' ∧
    w_st w' = w_st w ∧ ∀ k, k ≠ this → w_pools w' !! k = w_pools w !! k.
Proof.
  intros (q & Hq & Hi & Hm). unfold world_make. rewrite Hq. cbn [mbind option_bind].
  pose proof (fi_layout _ _ Hi) as Hlay.
  destruct (make_take sp v q i L Hi) as (n & Hn & -> & Hi'). cbn [mbind option_bind].
  pose proof (zget_Some_range _ _ _ Hn) as Hr.
  assert (0 < cell_addr q i) as Ha by (destruct Hlay as (_ & ? & ? & _); unfold cell_addr; nia).
  rewrite (proj2 (Z.eqb_neq _ _)) by (unfold nullptr; lia).
  eexists _, _. split; [done|]. split; [done|]. split; [|split; [|split; [done|]]].
  - rewrite <-Hm. by eapply live_free_cell.
  - eexists. cbn. rewrite lookup_insert_eq. split; [done|]. split; [done|].
    rewrite (live_popped q i n v Hlay) by done. rewrite Hm, lookup_insert_eq. done.
  - intros k Hk. cbn. by rewrite lookup_insert_ne.
Qed.

Lemma ep_destroy_owner {W} p (del : deleter W) ctx w :
  p ≠ nullptr → ep_destroy (ep_make p del ctx) w = del ctx p w.
Proof. intros Hp. unfold ep_destroy. rewrite ep_reset_owner by done. by destruct (del ctx p w). Qed.

(** The destructor of the owning pointer gives the cell back. *)
Lemma world_release_spec spd this a v L m w :
  0 < a → points_to this (ep_make a (world_release spd) this) v L m w →
  ∃ i w', world_release spd this a w = Some w' ∧ pool_is this (i :: L) (delete a m) w' ∧
    w_st w' = w_st w ∧ ∀ k, k ≠ this → w_pools w' !! k = w_pools w !! k.
Proof.
  intros Ha (q & Hq & Hi & Hm & Hl). pose proof (fi_layout _ _ Hi) as Hlay. cbn [ep_make ptr_] in Hl.
  apply live_lookup in Hl as (i & -> & Hz); [|done]. pose proof (zget_Some_range _ _ _ Hz) as Hr.
  destruct (free_push spd v q i L Hi Hz) as [Ef Hi'].
  unfold world_release, release_to_pool. rewrite Hq. cbn [mbind option_bind]. rewrite Ef. cbn [mbind option_bind].
  exists i. eexists. split; [done|]. split; [|split; [done|]].
  - eexists. cbn. rewrite lookup_insert_eq. split; [done|]. split; [done|].
    by rewrite live_pushed, Hm.
  - intros k Hk. cbn. by rewrite lookup_insert_ne.
Qed.

(** The pool [this] has [n] free cells and the live objects [m]. *)
Definition pool_has (this : Z) (n : nat) (m : gmap Z T) (w : world) : Prop :=
  ∃ L, length L = n ∧ pool_is this L m w.

(** An event made, dispatched and destroyed: it prints its flow, or nothing if
    the pool had no room, and the pool is as before. *)
Lemma made_dispatch sp spd ss E this v n m w :
  placed this E → pool_has this n m w →
  ∃ w', dispatch_made sp spd ss E this v w = Some w' ∧ pool_has this n m w' ∧
    w_st w' = (if decide (n = 0%nat) then w_st w else (flow (stage_calls ss E) v (w_st w)).2) ∧
    ∀ k, k ≠ this → w_pools w' !! k = w_pools w !! k.
Proof.
  intros Hpl (L & Hn & Hp). unfold dispatch_made. destruct L as [|i L].
  - destruct (world_make_empty sp spd v this m w Hp) as (w1 & -> & Hp1 & Ho & Hk).
    subst n. cbn [mbind option_bind length]. unfold dispatch_rvalue. cbn.
    exists w1. split; [done|]. split; [by exists []|]. done.
  - destruct (world_make_room sp spd v this i L m w Hp) as (a & w1 & -> & Ha & Hf & Hpt & Ho & Hk).
    cbn [mbind option_bind]. set (ev := ep_make a (world_release spd) this) in *.
    unfold dispatch_rvalue. cbn [ep_move_ctor]. change (EventPtr (ptr_ ev) (deleter_ ev) (pool_ctx_ ev)) with ev.
    destruct (dispatch_stages this E ss ev v L (<[a := v]> m) w1 Hpl Ha Hpt) as (w2 & -> & Hp2 & Ho2 & Hk2).
    cbn [mbind option_bind]. rewrite Ho in Hp2, Ho2. destruct (flow (stage_calls ss E) v (w_st w)) as [v' st'].
    cbn [fst snd] in *.
    destruct (world_release_spec spd this a v' L _ w2 Ha Hp2) as (j & w3 & Er & Hp3 & Ho3 & Hk3).
    rewrite (ep_destroy_owner a (world_release spd) this), Er by (unfold nullptr; lia).
    cbn [mbind option_bind]. exists w3. split; [done|]. split; [|split].
    + exists (j :: L). split; [done|]. cbn [ev ep_make ptr_] in Hp3.
      rewrite insert_insert_eq, delete_insert_id in Hp3; done.
    + subst n. by rewrite decide_False, Ho3, Ho2 by done.
    + intros k Hne. by rewrite Hk3, Hk2, Hk.
Qed.

(** A sequence of such statements. *)
Fixpoint dispatch_each (ss : list stage) (E : ety) (this : Z) (vs : list T) (w : world) : option world :=
  match vs with
  | [] => Some w
  | v :: vs' => w1 ← dispatch_made [] [] ss E this v w; dispatch_each ss E this vs' w1
  end.

Lemma each_dispatch ss E this vs n m w :
  placed this E → pool_has this (S n) m w →
  ∃ w', dispatch_each ss E this vs w = Some w' ∧ pool_has this (S n) m w' ∧
    w_st w' = foldl (λ st v, (flow (stage_calls ss E) v st).2) (w_st w) vs.
Proof.
  intros Hpl. revert w. induction vs as [|v vs IH]; intros w Hp; cbn [dispatch_each].
  - by exists w.
  - destruct (made_dispatch [] [] ss E this v (S n) m w Hpl Hp) as (w1 & -> & Hp1 & Ho1 & _).
    cbn [mbind option_bind]. destruct (IH w1 Hp1) as (w2 & -> & Hp2 & Ho2). exists w2. split; [done|].
    split; [done|]. by rewrite Ho2, Ho1, decide_False by done.
Qed.

(** Local variables of a [main]: each event is made, dispatched by reference,
    and destroyed at the end, the last one first.  [say] happens before. *)
Fixpoint dispatch_locals (ss : list stage) (E : ety) (this : Z) (vs : list ((St → St) * T)) (w : world)
    : option world :=
  match vs with
  | [] => Some w
  | (say, v) :: vs' =>
      '(ev, w1) ← world_make [] [] v this (set_st (say (w_st w)) w);
      '(ev', w2) ← dispatch (stage_handler <$> ss) E ev w1;
      w3 ← dispatch_locals ss E this vs' w2;
      ep_destroy ev' w3
  end.

Lemma locals_dispatch ss E this vs n m w :
  placed this E → pool_has this n m w → (length vs ≤ n)%nat →
  ∃ w', dispatch_locals ss E this vs w = Some w' ∧ pool_has this n m w' ∧
    w_st w' = foldl (λ st sv, (flow (stage_calls ss E) sv.2 (sv.1 st)).2) (w_st w) vs.
Proof.
  intros Hpl. revert n m w. induction vs as [|[say v] vs IH]; intros n m w (L & Hn & Hp) Hle; cbn [dispatch_locals].
  { exists w. split; [done|]. split; [by exists L|done]. }
  destruct L as [|i L]; [cbn in *; lia|].
  destruct (world_make_room [] [] v this i L m (set_st (say (w_st w)) w) Hp)
    as (a & w1 & -> & Ha & Hf & Hpt & Ho & _).
  cbn [mbind option_bind]. set (ev := ep_make a (world_release []) this) in *.
  destruct (dispatch_stages this E ss ev v L (<[a := v]> m) w1 Hpl Ha Hpt) as (w2 & -> & Hp2 & Ho2 & _).
  cbn [mbind option_bind]. rewrite Ho in Hp2, Ho2. cbn [foldl fst snd]. cbn [set_st w_st] in *.
  destruct (flow (stage_calls ss E) v (say (w_st w))) as [v' st']. cbn [fst snd ev ep_make ptr_] in *.
  rewrite insert_insert_eq in Hp2. destruct Hp2 as (q & Hq & Hi & Hm & Hl).
  destruct (IH (length L) (<[a := v']> m) w2) as (w3 & -> & (L3 & Hn3 & q3 & Hq3 & Hi3 & Hm3) & Ho3);
    [by exists L; split; [done|]; exists q|cbn in *; lia|].
  cbn [mbind option_bind]. fold ev.
  destruct (world_release_spec [] this a v' L3 (<[a := v']> m) w3 Ha) as (j & w4 & Er & Hp4 & Ho4 & _).
  { exists q3. split_and!; try done. rewrite Hm3. apply lookup_insert_eq. }
  rewrite (ep_destroy_owner a (world_release []) this), Er by (unfold nullptr; lia).
  exists w4. split; [done|]. rewrite delete_insert_id in Hp4 by done. split; [|by rewrite Ho4, Ho3, Ho2].
  exists (j :: L3). split; [cbn in *; lia|done].
Qed.

End stages.

(** The layout of a concrete event type. *)
Ltac solve_placed :=
  unfold placed; cbn [linear app ety_id];
  repeat (apply Forall_cons; split); [..|done]; cbn; split_and!; try done; lia.

(** Stages that print what [log] says of the event. *)
Lemma flows_print {T} (F : T → list line → T * list line) (log : T → list line) vs out :
  (∀ v out, (F v out).2 = out ++ log v) → foldl (λ st v, (F v st).2) out vs = out ++ (vs ≫= log).
Proof.
  intros HF. revert out. induction vs as [|v vs IH]; intros out; cbn [foldl]; [by rewrite app_nil_r|].
  by rewrite IH, HF, bind_cons, <-app_assoc.
Qed.

Arguments world T St : clear implicits.
Arguments stage T St : clear implicits.
Arguments body T St : clear implicits.

(** A fresh pool, as the [main] functions declare it. *)
Definition one_pool {T St} (this base csize cap : Z) (st : St) : option (world T St) :=
  q ← pool_ctor base csize cap; Some (World {[this := q]} st).

Lemma one_pool_has {T St} this base csize cap (st : St) :
  1 ≤ cap ≤ END → 0 < base → 0 < csize → base + cap * csize ≤ 2 ^ 64 →
  ∃ w : world T St, one_pool this base csize cap st = Some w ∧ pool_has this (Z.to_nat cap) ∅ w ∧ w_st w = st.
Proof.
  intros Hc Hb Hs Hl. destruct (pool_ctor_fresh (T := T) base csize cap) as (q & E & Hi & Hlive & _); [done..|].
  unfold one_pool. rewrite E. cbn [mbind option_bind]. eexists. split; [done|]. split; [|done].
  exists (seqZ 0 cap). split; [by rewrite length_seqZ|]. exists q. cbn. by rewrite lookup_singleton_eq.
Qed.
