(* ===== verification/Showcase.v ===== *)
(** * The showcase programs (examples/04_showcase)

    Three programs that dispatch pool-made events through pipelines of stages:
    the flight controller (01), the zero-allocation hot path (03) and the order
    pipeline (04).  Each handler is a stage with the arithmetic of its [on] in
    IEEE doubles; each [main] is the sequence of its statements.  For every
    pipeline a reference function says what one event prints; the theorems
    state when an event reaches the last stage and that the pool is as before. *)

From Stdlib Require Import String SpecFloat.
From S2P Require Import Prelude EventPtr Interfaces Pool Pipeline Double Stages.

Local Open Scope Z_scope.

(** [std::cout << ...]. *)
Definition cout {T} (l : line) (w : world T (list line)) : world T (list line) :=
  set_st (w_st w ++ [l]) w.

(** The pool of the program. *)
Definition this_pool : Z := 1.

(** ** 01_autonomous_drone_ecs.cpp *)

Module Drone.

Record navigation_vector := Nav {
  capture_ns : Z;
  sensor_id : Z;
  velocity_x : double;
  velocity_y : double;
  altitude : double;
  sensor_ok : bool }.

(** [navigation_vector(s_id, vx, vy, alt, healthy)]. *)
Definition nav_ctor (s_id : Z) (vx vy alt : double) (healthy : bool) : navigation_vector :=
  Nav 1682390400000000000 s_id vx vy alt healthy.

Definition is_hardware_healthy (n : navigation_vector) : bool := sensor_ok n.

Abbreviation stage := (stage navigation_vector (list line)).

(** The types of the matrix. *)
Definition hardware_interrupt : Z := 1.
Definition safety_critical_system : Z := 2.
Definition navigation_vector_id : Z := 3.

(** Stage 1, on [const event_ptr<hardware_interrupt>&]. *)
Definition blackbox_logger : stage := λ id,
  if id =? hardware_interrupt then Some (ReadVoid (λ n out,
    out ++ [[Txt "[L0 BLACKBOX] Sensor #"; Int (sensor_id n); Txt " fired at "; Int (capture_ns n); Txt " ns"]]))
  else None.

(** Stage 2, on [const event_ptr<safety_critical_system>&]. *)
Definition safety_watchdog : stage := λ id,
  if id =? safety_critical_system then Some (ReadBool (λ n out,
    if negb (is_hardware_healthy n)
    then (false, out ++ [[Txt "[L1 SAFETY] CRITICAL FAULT! Sensor malfunction. Dropping vector!"]])
    else (true, out ++ [[Txt "[L1 SAFETY] Hardware OK."]])))
  else None.

(** Stage 3, for every type with a velocity: the vector itself. *)
Definition speed_squared (n : navigation_vector) : double :=
  dadd (dmul (velocity_x n) (velocity_x n)) (dmul (velocity_y n) (velocity_y n)).

Definition collision_avoidance : stage := λ id,
  if id =? navigation_vector_id then Some (ReadBool (λ n out,
    if dgt (speed_squared n) (of_Z 10000)
    then (false, out ++ [[Txt "[L2 RADAR] WARNING: Approach too fast! Engaging airbrakes."]])
    else (true, out)))
  else None.

(** Stage 4, on [event_ptr<navigation_vector>&]. *)
Definition wind_resistance_x : double := lit (-25) 1.

Definition drift (n : navigation_vector) : navigation_vector :=
  Nav (capture_ns n) (sensor_id n) (dadd (velocity_x n) wind_resistance_x) (velocity_y n) (altitude n) (sensor_ok n).

Definition wind_compensator : stage := λ id,
  if id =? navigation_vector_id then Some (WriteVoid (λ n out,
    let n' := drift n in
    (n', out ++ [[Txt "[L2 PHYSICS] Applied wind drift. New X velocity: "; Dbl (velocity_x n'); Txt " m/s"]])))
  else None.

(** Stage 5, on [const event_ptr<navigation_vector>&]. *)
Definition motor_actuator : stage := λ id,
  if id =? navigation_vector_id then Some (ReadVoid (λ n out,
    out ++ [[Txt "[L2 MOTORS] Actuating rotors. Target altitude: "; Dbl (altitude n); Txt "m"]]))
  else None.

Definition flight_computer : list stage :=
  [blackbox_logger; safety_watchdog; collision_avoidance; wind_compensator; motor_actuator].

(** Where the bases lie inside the event depends on the compiler. *)
Section layout.
Context (off_hardware off_safety : Z).

Definition matrix : ety :=
  Ety navigation_vector_id
    (Some [(off_hardware, Ety hardware_interrupt None); (off_safety, Ety safety_critical_system None)]).

Definition sub (id : Z) : Z :=
  if id =? hardware_interrupt then off_hardware else if id =? safety_critical_system then off_safety else 0.

Definition main_program (w : world navigation_vector (list line))
    : option (world navigation_vector (list line)) :=
  let fly n w := dispatch_made sub (λ _, this_pool) [] [] flight_computer matrix this_pool n w in
  let w := cout [Txt "=== CRE Autonomous Flight Controller ==="] w in
  let w := cout [Txt "--- SCENARIO 1: Normal Flight Vector ---"] w in
  w ← fly (nav_ctor 10 (of_Z 15) (of_Z 5) (of_Z 120) true) w;
  let w := cout [Txt "--- SCENARIO 2: Hardware Malfunction ---"] w in
  w ← fly (nav_ctor 11 (of_Z 0) (of_Z 0) (of_Z 50) false) w;
  let w := cout [Txt "--- SCENARIO 3: Collision Course (Overspeed) ---"] w in
  fly (nav_ctor 12 (of_Z 150) (of_Z 0) (of_Z 80) true) w.

(** *** What one vector prints *)

Definition overspeed (n : navigation_vector) : bool := dgt (speed_squared n) (of_Z 10000).

Definition actuated (n : navigation_vector) : line :=
  [Txt "[L2 MOTORS] Actuating rotors. Target altitude: "; Dbl (altitude n); Txt "m"].

Definition flight_log (n : navigation_vector) : list line :=
  [[Txt "[L0 BLACKBOX] Sensor #"; Int (sensor_id n); Txt " fired at "; Int (capture_ns n); Txt " ns"]] ++
  if negb (sensor_ok n) then [[Txt "[L1 SAFETY] CRITICAL FAULT! Sensor malfunction. Dropping vector!"]]
  else [[Txt "[L1 SAFETY] Hardware OK."]] ++
    if overspeed n then [[Txt "[L2 RADAR] WARNING: Approach too fast! Engaging airbrakes."]]
    else [[Txt "[L2 PHYSICS] Applied wind drift. New X velocity: ";
           Dbl (dadd (velocity_x n) wind_resistance_x); Txt " m/s"]; actuated n].

Lemma flight_flow n out : (flow (stage_calls flight_computer matrix) n out).2 = out ++ flight_log n.
Proof.
  unfold flight_log, overspeed. cbn. unfold is_hardware_healthy.
  destruct (sensor_ok n); cbn; [|by rewrite <-app_assoc].
  destruct (dgt (speed_squared n) (of_Z 10000)); cbn; by rewrite <-!app_assoc.
Qed.

Lemma flight_placed :
  0 ≤ off_hardware → 0 ≤ off_safety → placed sub (λ _, this_pool) this_pool matrix.
Proof. intros H1 H2. solve_placed. Qed.

Lemma actuated_iff n : actuated n ∈ flight_log n ↔ sensor_ok n = true ∧ overspeed n = false.
Proof.
  unfold flight_log, actuated. destruct (sensor_ok n), (overspeed n); cbn [negb app]; rewrite !elem_of_cons, elem_of_nil;
    naive_solver.
Qed.

(** C38: The flight controller commands the motors exactly for healthy, slow
    vectors.  For every sequence of navigation vectors, any placement of the
    base classes in the event, and a pool with room, each vector is printed by
    the black box; a vector with a faulty sensor stops at the watchdog, one
    whose squared speed exceeds 10000 in double arithmetic stops at the radar,
    and every other one is corrected for wind and commanded to the motors with
    its own altitude (also when a speed is not a number, which no comparison
    exceeds); afterwards the pool has the free cells and objects it had. *)
Theorem flight_commands ns free m w :
  0 ≤ off_hardware → 0 ≤ off_safety → pool_has this_pool (S free) m w →
  ∃ w', dispatch_each sub (λ _, this_pool) flight_computer matrix this_pool ns w = Some w' ∧
    w_st w' = w_st w ++ (ns ≫= flight_log) ∧ pool_has this_pool (S free) m w' ∧
    (∀ n, actuated n ∈ flight_log n ↔ sensor_ok n = true ∧ overspeed n = false).
Proof.
  intros H1 H2 Hp. destruct (each_dispatch sub (λ _, this_pool) flight_computer matrix this_pool ns free m w)
    as (w' & E & Hp' & Ho); [by apply flight_placed|done|].
  exists w'. split; [done|]. split; [|split; [done|apply actuated_iff]]. rewrite Ho. apply flows_print, flight_flow.
Qed.

End layout.

(** *** The program *)

Definition flight_run (off_hardware off_safety : Z) : option (list line) :=
  w ← one_pool this_pool 4096 64 256 [];
  w' ← main_program off_hardware off_safety w; Some (w_st w').

Example flight_output :
  flight_run 8 0 = Some [
    [Txt "=== CRE Autonomous Flight Controller ==="];
    [Txt "--- SCENARIO 1: Normal Flight Vector ---"];
    [Txt "[L0 BLACKBOX] Sensor #"; Int 10; Txt " fired at "; Int 1682390400000000000; Txt " ns"];
    [Txt "[L1 SAFETY] Hardware OK."];
    [Txt "[L2 PHYSICS] Applied wind drift. New X velocity: "; Dbl (lit 125 1); Txt " m/s"];
    [Txt "[L2 MOTORS] Actuating rotors. Target altitude: "; Dbl (of_Z 120); Txt "m"];
    [Txt "--- SCENARIO 2: Hardware Malfunction ---"];
    [Txt "[L0 BLACKBOX] Sensor #"; Int 11; Txt " fired at "; Int 1682390400000000000; Txt " ns"];
    [Txt "[L1 SAFETY] CRITICAL FAULT! Sensor malfunction. Dropping vector!"];
    [Txt "--- SCENARIO 3: Collision Course (Overspeed) ---"];
    [Txt "[L0 BLACKBOX] Sensor #"; Int 12; Txt " fired at "; Int 1682390400000000000; Txt " ns"];
    [Txt "[L1 SAFETY] Hardware OK."];
    [Txt "[L2 RADAR] WARNING: Approach too fast! Engaging airbrakes."]].
Proof. vm_compute. reflexivity. Qed.

Lemma flight_commands_witness :
  ∃ w w', one_pool this_pool 4096 64 2 [] = Some w ∧
    dispatch_each (sub 8 0) (λ _, this_pool) flight_computer (matrix 8 0) this_pool
      [nav_ctor 10 (of_Z 15) (of_Z 5) (of_Z 120) true; nav_ctor 12 (of_Z 150) (of_Z 0) (of_Z 80) true] w = Some w' ∧
    actuated (nav_ctor 10 (of_Z 15) (of_Z 5) (of_Z 120) true) ∈ w_st w'.
Proof.
  destruct (one_pool_has (T := navigation_vector) this_pool 4096 64 2 ([] : list line))
    as (w & E & Hp & Ho); [unfold END; lia..|].
  destruct (flight_commands 8 0
    [nav_ctor 10 (of_Z 15) (of_Z 5) (of_Z 120) true; nav_ctor 12 (of_Z 150) (of_Z 0) (of_Z 80) true] 1 ∅ w
    ltac:(lia) ltac:(lia) Hp) as (w' & E' & Ho' & _ & Hm).
  exists w, w'. split; [done|]. split; [done|]. rewrite Ho', Ho, bind_cons. apply elem_of_app. right.
  apply elem_of_app. left. apply Hm. split; vm_compute; reflexivity.
Defined.

End Drone.

(** ** 03_zero_allocation_hotpath.cpp *)

Module HotPath.

Record new_order_single := Order {
  seq_num : Z;
  msg_type : Z;
  symbol : string;
  price : double;
  internal_ts : Z }.

(** [new_order_single(seq, sym, p)]; the message type is ['D']. *)
Definition order_ctor (seq : Z) (sym : string) (p : double) : new_order_single := Order (u32 seq) 68 sym p 0.

Abbreviation stage := (stage new_order_single (list line)).

Definition fix_header : Z := 1.
Definition allocated_base : Z := 2.
Definition new_order_single_id : Z := 3.

(** Stage 1, on [const event_ptr<fix_header>&]. *)
Definition sequence_validator : stage := λ id,
  if id =? fix_header then Some (ReadBool (λ o out,
    if seq_num o =? 0 then (false, out ++ [[Txt "[REJECT] Invalid sequence number: 0"]])
    else (true, out ++ [[Txt "[VALID] Sequence #"; Int (seq_num o); Txt " accepted."]])))
  else None.

(** Stage 2, on [event_ptr<new_order_single>&]. *)
Definition stamp (o : new_order_single) : new_order_single :=
  Order (seq_num o) (msg_type o) (symbol o) (price o) 1680000000000.

Definition hardware_timestamper : stage := λ id,
  if id =? new_order_single_id then Some (WriteVoid (λ o out,
    let o' := stamp o in
    (o', out ++ [[Txt "[HW-TAG] Event stamped at "; Int (internal_ts o'); Txt " ns."]])))
  else None.

(** Stage 3, on [const event_ptr<new_order_single>&]. *)
Definition matching_engine : stage := λ id,
  if id =? new_order_single_id then Some (ReadVoid (λ o out,
    out ++ [[Txt "[EXEC] Routing "; Txt (symbol o); Txt " @ $"; Dbl (price o); Txt " to matching core."]]))
  else None.

Definition core_pipeline : list stage := [sequence_validator; hardware_timestamper; matching_engine].

Section layout.
Context (off_allocated off_header : Z).

(** [extends<allocated_event<...>, fix_header>]: both bases are visited. *)
Definition order_type : ety :=
  Ety new_order_single_id
    (Some [(off_allocated, Ety allocated_base None); (off_header, Ety fix_header None)]).

Definition sub (id : Z) : Z :=
  if id =? allocated_base then off_allocated else if id =? fix_header then off_header else 0.

Definition main_program (w : world new_order_single (list line))
    : option (world new_order_single (list line)) :=
  let go o w := dispatch_made sub (λ _, this_pool) [] [] core_pipeline order_type this_pool o w in
  let w := cout [Txt "=== Showcase 01: Zero-Allocation Hot Path ==="] w in
  let w := cout [Txt "--- Tick 1: Valid Order ---"] w in
  w ← go (order_ctor 101 "AAPL" (lit 15025 2)) w;
  let w := cout [Txt "--- Tick 2: Corrupted Order ---"] w in
  go (order_ctor 0 "TSLA" (lit 20000 2)) w.

(** What one order prints. *)
Definition order_log (o : new_order_single) : list line :=
  if seq_num o =? 0 then [[Txt "[REJECT] Invalid sequence number: 0"]]
  else [[Txt "[VALID] Sequence #"; Int (seq_num o); Txt " accepted."];
        [Txt "[HW-TAG] Event stamped at "; Int 1680000000000; Txt " ns."];
        [Txt "[EXEC] Routing "; Txt (symbol o); Txt " @ $"; Dbl (price o); Txt " to matching core."]].

Lemma order_flow o out :
  flow (stage_calls core_pipeline order_type) o out =
    (if seq_num o =? 0 then o else stamp o, out ++ order_log o).
Proof.
  unfold order_log. cbn. destruct (seq_num o =? 0); cbn; [done|]. by rewrite <-!app_assoc.
Qed.

Lemma order_placed : 0 ≤ off_allocated → 0 ≤ off_header → placed sub (λ _, this_pool) this_pool order_type.
Proof. intros H1 H2. solve_placed. Qed.

(** Orders are stamped and executed exactly when their sequence number is not
    0, in the order they were made, and the pool is as before. *)
Lemma hot_path_executes os free m w :
  0 ≤ off_allocated → 0 ≤ off_header → pool_has this_pool (S free) m w →
  ∃ w', dispatch_each sub (λ _, this_pool) core_pipeline order_type this_pool os w = Some w' ∧
    w_st w' = w_st w ++ (os ≫= order_log) ∧ pool_has this_pool (S free) m w'.
Proof.
  intros H1 H2 Hp. destruct (each_dispatch sub (λ _, this_pool) core_pipeline order_type this_pool os free m w)
    as (w' & E & Hp' & Ho); [by apply order_placed|done|].
  exists w'. split; [done|]. split; [|done]. rewrite Ho. apply flows_print. intros o out. by rewrite order_flow.
Qed.

End layout.

Definition hot_path_run : option (list line) :=
  w ← one_pool this_pool 4096 64 1024 [];
  w' ← main_program 0 0 w; Some (w_st w').

Example hot_path_output :
  hot_path_run = Some [
    [Txt "=== Showcase 01: Zero-Allocation Hot Path ==="];
    [Txt "--- Tick 1: Valid Order ---"];
    [Txt "[VALID] Sequence #"; Int 101; Txt " accepted."];
    [Txt "[HW-TAG] Event stamped at "; Int 1680000000000; Txt " ns."];
    [Txt "[EXEC] Routing "; Txt "AAPL"; Txt " @ $"; Dbl (lit 15025 2); Txt " to matching core."];
    [Txt "--- Tick 2: Corrupted Order ---"];
    [Txt "[REJECT] Invalid sequence number: 0"]].
Proof. vm_compute. reflexivity. Qed.

End HotPath.

(** ** 04_ultimate_logic_synthetis.cpp *)

Module Synthesis.

Record direct_market_order := DirectOrder {
  capture_ns : Z;
  ip_address : string;
  order_id : Z;
  price : double;
  quantity : double;
  kyc_approved : bool }.

(** [direct_market_order(ip, id, p, q, kyc)]. *)
Definition direct_ctor (ip : string) (id : Z) (p q : double) (kyc : bool) : direct_market_order :=
  DirectOrder 1682390400000000000 ip (u32 id) p q kyc.

Definition is_kyc_cleared (o : direct_market_order) : bool := kyc_approved o.

Abbreviation stage := (stage direct_market_order (list line)).

Definition wire_metadata : Z := 1.
Definition compliance_interface : Z := 2.
Definition direct_market_order_id : Z := 3.

(** Stage 1, on [const event_ptr<wire_metadata>&]. *)
Definition latency_monitor : stage := λ id,
  if id =? wire_metadata then Some (ReadVoid (λ o out,
    out ++ [[Txt "[L0 INFRA] Packet from "; Txt (ip_address o); Txt " | TS: "; Int (capture_ns o); Txt " ns"]]))
  else None.

(** Stage 2, on [const event_ptr<compliance_interface>&]. *)
Definition compliance_auditor : stage := λ id,
  if id =? compliance_interface then Some (ReadBool (λ o out,
    if negb (is_kyc_cleared o)
    then (false, out ++ [[Txt "[L1 COMPLIANCE] REJECTED: KYC validation failed."]])
    else (true, out ++ [[Txt "[L1 COMPLIANCE] APPROVED: KYC valid."]])))
  else None.

(** Stage 3, for every type with a price and a quantity. *)
Definition exposure (o : direct_market_order) : double := dmul (price o) (quantity o).

Definition risk_gatekeeper : stage := λ id,
  if id =? direct_market_order_id then Some (ReadBool (λ o out,
    if dgt (exposure o) (of_Z 1000000)
    then (false, out ++ [[Txt "[L2 RISK] REJECTED: Exposure too high ($"; Dbl (exposure o); Txt ")"]])
    else (true, out ++ [[Txt "[L2 RISK] APPROVED: Exposure within limits."]])))
  else None.

(** Stage 4, on [event_ptr<direct_market_order>&]. *)
Definition add_fee (o : direct_market_order) : direct_market_order :=
  let exchange_fee := dmul (quantity o) (lit 1 2) in
  DirectOrder (capture_ns o) (ip_address o) (order_id o) (dadd (price o) exchange_fee) (quantity o) (kyc_approved o).

Definition accounting_processor : stage := λ id,
  if id =? direct_market_order_id then Some (WriteVoid (λ o out,
    let o' := add_fee o in
    (o', out ++ [[Txt "[L2 ACCOUNTING] Added exchange fee. New routing price: $"; Dbl (price o')]])))
  else None.

(** Stage 5, on [const event_ptr<direct_market_order>&]. *)
Definition execution_engine : stage := λ id,
  if id =? direct_market_order_id then Some (ReadVoid (λ o out,
    out ++ [[Txt "[L2 EXECUTION] Routing Order #"; Int (order_id o); Txt " to matching engine."]]))
  else None.

Definition matrix_pipe : list stage :=
  [latency_monitor; compliance_auditor; risk_gatekeeper; accounting_processor; execution_engine].

Section layout.
Context (off_wire off_compliance : Z).

Definition order_type : ety :=
  Ety direct_market_order_id
    (Some [(off_wire, Ety wire_metadata None); (off_compliance, Ety compliance_interface None)]).

Definition sub (id : Z) : Z :=
  if id =? wire_metadata then off_wire else if id =? compliance_interface then off_compliance else 0.

(** The three orders are local variables of [main]. *)
Definition scenarios : list ((list line → list line) * direct_market_order) :=
  [(λ out, out ++ [[Txt "--- SCENARIO 1: Valid Retail Order ---"]],
    direct_ctor "10.0.1.55" 1001 (of_Z 150) (of_Z 100) true);
   (λ out, out ++ [[Txt "--- SCENARIO 2: Toxic Whale Order (Risk Breach) ---"]],
    direct_ctor "10.0.1.99" 1002 (of_Z 200) (of_Z 10000) true);
   (λ out, out ++ [[Txt "--- SCENARIO 3: Illegal Order (KYC Failed) ---"]],
    direct_ctor "192.168.1.1" 1003 (of_Z 50) (of_Z 10) false)].

Definition main_program (w : world direct_market_order (list line))
    : option (world direct_market_order (list line)) :=
  let w := cout [Txt "=== Conduit Ultimate Logic Synthesis ==="] w in
  dispatch_locals sub (λ _, this_pool) matrix_pipe order_type this_pool scenarios w.

(** What one order prints. *)
Definition order_log (o : direct_market_order) : list line :=
  [[Txt "[L0 INFRA] Packet from "; Txt (ip_address o); Txt " | TS: "; Int (capture_ns o); Txt " ns"]] ++
  if negb (kyc_approved o) then [[Txt "[L1 COMPLIANCE] REJECTED: KYC validation failed."]]
  else [[Txt "[L1 COMPLIANCE] APPROVED: KYC valid."]] ++
    if dgt (exposure o) (of_Z 1000000)
    then [[Txt "[L2 RISK] REJECTED: Exposure too high ($"; Dbl (exposure o); Txt ")"]]
    else [[Txt "[L2 RISK] APPROVED: Exposure within limits."];
          [Txt "[L2 ACCOUNTING] Added exchange fee. New routing price: $"; Dbl (price (add_fee o))];
          [Txt "[L2 EXECUTION] Routing Order #"; Int (order_id o); Txt " to matching engine."]].

Lemma direct_flow o out : (flow (stage_calls matrix_pipe order_type) o out).2 = out ++ order_log o.
Proof.
  unfold order_log. cbn. unfold is_kyc_cleared.
  destruct (kyc_approved o); cbn; [|by rewrite <-app_assoc].
  destruct (dgt (exposure o) (of_Z 1000000)); cbn; by rewrite <-!app_assoc.
Qed.

Lemma direct_placed : 0 ≤ off_wire → 0 ≤ off_compliance → placed sub (λ _, this_pool) this_pool order_type.
Proof. intros H1 H2. solve_placed. Qed.

(** Orders kept in local variables: each prints its log after its heading, and
    at the end of the scope all cells are back in the pool. *)
Lemma synthesis_locals (os : list (line * direct_market_order)) n m w :
  0 ≤ off_wire → 0 ≤ off_compliance → pool_has this_pool n m w → (length os ≤ n)%nat →
  ∃ w', dispatch_locals sub (λ _, this_pool) matrix_pipe order_type this_pool
          ((λ lo, (λ out, out ++ [lo.1], lo.2)) <$> os) w = Some w' ∧
    w_st w' = w_st w ++ (os ≫= λ lo, lo.1 :: order_log lo.2) ∧ pool_has this_pool n m w'.
Proof.
  intros H1 H2 Hp Hn.
  destruct (locals_dispatch sub (λ _, this_pool) matrix_pipe order_type this_pool
    ((λ lo, (λ out, out ++ [lo.1], lo.2)) <$> os) n m w) as (w' & E & Hp' & Ho);
    [by apply direct_placed|done|by rewrite length_fmap|].
  exists w'. split; [done|]. split; [|done]. rewrite Ho. clear. generalize (w_st w).
  induction os as [|[l o] os IH]; intros out; [cbn; by rewrite app_nil_r|].
  rewrite fmap_cons, bind_cons. cbn [foldl fst snd]. by rewrite IH, direct_flow, <-!app_assoc.
Qed.

End layout.

Definition synthesis_run : option (list line) :=
  w ← one_pool this_pool 4096 128 256 [];
  w' ← main_program 8 0 w; Some (w_st w').

(** 0.01 is not a double; its product with 100 is rounded to 1. *)
Example synthesis_output :
  synthesis_run = Some [
    [Txt "=== Conduit Ultimate Logic Synthesis ==="];
    [Txt "--- SCENARIO 1: Valid Retail Order ---"];
    [Txt "[L0 INFRA] Packet from "; Txt "10.0.1.55"; Txt " | TS: "; Int 1682390400000000000; Txt " ns"];
    [Txt "[L1 COMPLIANCE] APPROVED: KYC valid."];
    [Txt "[L2 RISK] APPROVED: Exposure within limits."];
    [Txt "[L2 ACCOUNTING] Added exchange fee. New routing price: $"; Dbl (of_Z 151)];
    [Txt "[L2 EXECUTION] Routing Order #"; Int 1001; Txt " to matching engine."];
    [Txt "--- SCENARIO 2: Toxic Whale Order (Risk Breach) ---"];
    [Txt "[L0 INFRA] Packet from "; Txt "10.0.1.99"; Txt " | TS: "; Int 1682390400000000000; Txt " ns"];
    [Txt "[L1 COMPLIANCE] APPROVED: KYC valid."];
    [Txt "[L2 RISK] REJECTED: Exposure too high ($"; Dbl (of_Z 2000000); Txt ")"];
    [Txt "--- SCENARIO 3: Illegal Order (KYC Failed) ---"];
    [Txt "[L0 INFRA] Packet from "; Txt "192.168.1.1"; Txt " | TS: "; Int 1682390400000000000; Txt " ns"];
    [Txt "[L1 COMPLIANCE] REJECTED: KYC validation failed."]].
Proof. vm_compute. reflexivity. Qed.

End Synthesis.
