(* ===== verification/NetSink.v ===== *)
(** * What the sink of a networked conduit gets

    NetConduit.v takes the receiving side (the domain, the sink) as parameters.
    Here they are the real ones: [local_domain.make] is the pool of Pool.v, the
    payload is copied into the memory of its cell, and the sink reads the event
    there, keeps a record of it, and either leaves the pointer to [poll_rx], which
    destroys it, or takes the event over.  The specification, [sunk], knows
    nothing of frames, cells or pointers: it is a function on the list of
    payloads, the number of free cells and the sink's decisions. *)

From S2P Require Import Prelude EventPtr Interfaces Pool Pipeline NetConduit Stages Showcase.

Local Open Scope Z_scope.

(** The sink: the payloads it was called with, and the events it has taken over
    (the newest first), each with what it read in it. *)
Record receiver := Recv { seen : list (list Z); kept : list (Z * list Z) }.

Section sink.
Context (TYPE_ID : Z) (sizeof_T : nat) (Capacity : Z).

(** The sink's decision, the schedules of the pool's loops, and what a new event
    holds before the copy. *)
Context (takes : list Z → bool) (sp spd : list bool) (junk : list Z).

Abbreviation node := (world (list Z) receiver).
Implicit Types (w : node) (m : gmap Z (list Z)).

(** [auto ev = local_domain.make<T>()]. *)
Definition rx_make (w : node) : option (event_ptr node * node) := world_make sp spd junk this_pool w.

(** [memcpy(ev.get(), rx_staging_.payload, sizeof(T))]. *)
Definition rx_store (a : Z) (payload : list Z) (w : node) : option node :=
  q ← w_pools w !! this_pool;
  q' ← write_at q a payload;
  Some (World (<[this_pool := q']> (w_pools w)) (w_st w)).

(** [local_sink.on(ev)]. *)
Definition rx_on (ev : event_ptr node) (w : node) : option (event_ptr node * node) :=
  q ← w_pools w !! this_pool;
  v ← object_at q (ep_get ev);
  let st := w_st w in
  if takes v then
    let '(raw, ev') := ep_release ev in
    Some (ev', World (w_pools w) (Recv (seen st ++ [v]) ((raw, v) :: kept st)))
  else Some (ev, World (w_pools w) (Recv (seen st ++ [v]) (kept st))).

(** ** The specification *)

(** The payloads that reach the sink when [room] cells are free: every one, until
    the events the sink keeps have used up the cells. *)
Fixpoint sunk (room : nat) (ps : list (list Z)) : list (list Z) :=
  match room, ps with
  | S r, p :: ps' => p :: sunk (if takes p then r else room) ps'
  | _, _ => []
  end.

Definition count_taken (ps : list (list Z)) : nat := length (List.filter takes ps).

Lemma sunk_all room ps : (count_taken ps < room)%nat → sunk room ps = ps.
Proof.
  revert room. induction ps as [|p ps IH]; intros room Hr; [by destruct room|].
  destruct room as [|r]; [lia|]. cbn. f_equal. unfold count_taken in *. cbn in Hr.
  destruct (takes p); cbn in Hr; apply IH; lia.
Qed.

(** ** The receiver meets it *)

(** [room] cells are free; the live objects are the events the sink has kept, with
    their payloads, and those of [m0]. *)
Definition rx_state (m0 : gmap Z (list Z)) (room : nat) (ps : list (list Z)) (w : node) : Prop :=
  ∃ ks, w_st w = Recv ps ks ∧ ks.*2 = reverse (List.filter takes ps) ∧
        pool_has this_pool room (list_to_map ks ∪ m0) w.

Lemma store_live a v payload L m w :
  points_to this_pool (ep_make a (world_release spd) this_pool) v L m w →
  ∃ w', rx_store a payload w = Some w' ∧ w_st w' = w_st w ∧
    points_to this_pool (ep_make a (world_release spd) this_pool) payload L (<[a := payload]> m) w'.
Proof.
  intros Hp. destruct (store_spec (λ _, 0) (λ _, this_pool) this_pool 0 (ep_make a (world_release spd) this_pool)
    (ep_make a (world_release spd) this_pool) v payload L m w) as (w' & E & Hp' & Hs & _); [done|cbn; lia|done|].
  exists w'. split; [|done]. unfold store in E. cbn [ep_make ptr_] in E. rewrite Z.sub_0_r in E. exact E.
Qed.

(** Delivering one payload. *)
Lemma deliver_sunk m0 room ps payload w :
  rx_state m0 room ps w →
  ∃ w', deliver_frame rx_make rx_store rx_on payload w = Some w' ∧
    match room with
    | O => rx_state m0 0 ps w'
    | S r => rx_state m0 (if takes payload then r else room) (ps ++ [payload]) w'
    end.
Proof.
  intros (ks & Hst & Hks & L & HL & Hp). unfold deliver_frame, rx_make.
  destruct L as [|i L]; cbn in HL; subst room.
  - destruct (world_make_empty sp spd junk this_pool _ w Hp) as (w1 & -> & Hp1 & Hs1 & _). cbn. exists w1. split; [done|].
    exists ks. split; [congruence|]. split; [done|]. by exists [].
  - destruct (world_make_room sp spd junk this_pool i L _ w Hp) as (a & w1 & -> & Ha & Hf & Hpt & Hs1 & _).
    cbn [mbind option_bind]. 
    assert (ep_bool (ep_make a (world_release spd) this_pool) = true) as -> by (apply ep_bool_true; cbn; unfold nullptr; lia).
    change (ep_get (ep_make a (world_release spd) this_pool)) with a.
    destruct (store_live a junk payload L _ w1 Hpt) as (w2 & -> & Hs2 & Hpt2). cbn [mbind option_bind].
    rewrite insert_insert_eq in Hpt2.
    assert (∃ q, w_pools w2 !! this_pool = Some q ∧ object_at q a = Some payload) as (q & Hq & Ho).
    { destruct Hpt2 as (q & Hq & Hi & _ & Hl). exists q. split; [done|]. by apply object_at_live; [apply Hi|]. }
    unfold rx_on. rewrite Hq. cbn [mbind option_bind]. change (ep_get (ep_make a (world_release spd) this_pool)) with a.
    rewrite Ho. cbn [mbind option_bind]. assert (w_st w2 = Recv ps ks) as Est by congruence.
    rewrite Est. cbn [seen kept ep_release ep_make ptr_].
    destruct (takes payload) eqn:Et; cbn [mbind option_bind].
    + eexists. split; [done|]. exists ((a, payload) :: ks). split; [done|]. split.
      * rewrite List.filter_app. cbn. by rewrite Et, reverse_app, Hks.
      * exists L. split; [done|]. destruct Hpt2 as (q' & Hq' & Hi & Hm & _). exists q'. split_and!; try done.
        cbn. by rewrite <-insert_union_l.
    + assert (points_to this_pool (ep_make a (world_release spd) this_pool) payload L
        (<[a := payload]> (list_to_map ks ∪ m0)) (World (w_pools w2) (Recv (ps ++ [payload]) ks))) as Hpt3 by exact Hpt2.
      destruct (world_release_spec spd this_pool a payload L _ _ Ha Hpt3) as (j & w3 & Er & Hw3 & Hs3 & _).
      rewrite ep_destroy_owner by (unfold nullptr; lia). exists w3. split; [done|]. exists ks. split; [by rewrite Hs3|]. split.
      * rewrite List.filter_app. cbn. by rewrite Et, app_nil_r.
      * exists (j :: L). split; [done|]. by rewrite delete_insert_id in Hw3.
Qed.

Lemma deliver_all_sunk m0 ps : ∀ room before w,
  rx_state m0 room before w →
  ∃ w' room', deliver_all rx_make rx_store rx_on ps w = Some w' ∧
    rx_state m0 room' (before ++ sunk room ps) w' ∧ (room' + count_taken (sunk room ps) = room)%nat.
Proof.
  induction ps as [|p ps IH]; intros room before w Hs; cbn [deliver_all].
  { exists w, room. destruct room; cbn; by rewrite app_nil_r. }
  destruct (deliver_sunk m0 room before p w Hs) as (w1 & -> & Hw1). cbn [mbind option_bind].
  destruct room as [|r]; cbn [sunk].
  - destruct (IH 0%nat before w1 Hw1) as (w' & room' & E & Hs' & Hc). exists w', room'. split; [done|].
    by destruct ps.
  - destruct (IH _ _ w1 Hw1) as (w' & room' & E & Hs' & Hc). exists w', room'. split; [done|].
    rewrite <-app_assoc in Hs'. split; [done|]. unfold count_taken in *. cbn. destruct (takes p); cbn; lia.
Qed.

(** Every poll of such a receiver is defined, whatever bytes arrive. *)
Lemma feed_defined m0 bytes : ∀ acc room before w,
  rx_state m0 room before w → is_Some (feed TYPE_ID sizeof_T rx_make rx_store rx_on bytes acc w).
Proof.
  induction bytes as [|x bytes IH]; intros acc room before w Hs; cbn [feed]; [by eexists|].
  destruct (Nat.eqb_spec (length (acc ++ [x])) (FRAME_SIZE sizeof_T)) as [E|]; [|by eapply IH].
  pose proof (FRAME_SIZE_ge sizeof_T). assert (∃ id, un_le32 (acc ++ [x]) = Some id) as [id ->].
  { destruct (acc ++ [x]) as [|? [|? [|? [|? ?]]]]; cbn in *; try lia. by eexists. }
  cbn [mbind option_bind]. destruct (negb _); [by eexists|].
  destruct (deliver_sunk m0 room before (frame_payload sizeof_T (acc ++ [x])) w Hs) as (w1 & -> & Hw1).
  cbn [mbind option_bind]. destruct room; by eapply IH.
Qed.

Lemma poll_defined m0 os stream c room before w :
  net_inv sizeof_T Capacity c → rx_state m0 room before w →
  is_Some (poll_rx TYPE_ID sizeof_T rx_make rx_store rx_on os stream c w).
Proof.
  intros Hi Hs. unfold poll_rx. destruct (is_dead_ c) eqn:Hd; [by eexists|].
  pose proof (poll_rx_loop_spec TYPE_ID sizeof_T Capacity rx_make rx_store rx_on os stream c w Hi Hd) as Hl.
  destruct (poll_rx_loop _ _ _ _ _ _ _ _ _) as [r|]; [by eexists|]. destruct Hl as (used & rest & _ & Hf).
  destruct (feed_defined m0 used (received c) room before w Hs) as [? E]. congruence.
Qed.

(** C6: End to end, from the sender's [push] to the receiver's sink.  Whatever the
    chunks the kernels take and give on both sides, when the receiver has read [n]
    complete frames its sink was called with exactly the first [n] payloads the
    sender accepted, in order, each once, as long as the receiver's pool had a
    free cell for each ([sunk]: frames that find the pool exhausted, because the
    sink has kept too many events, are dropped; with fewer kept events than cells
    none is).  The events the sink has kept still hold their payloads, all others
    have been given back to the pool, and every further poll is defined. *)
Theorem net_sink_gets_all c0 c1 wire ps r0 r1 rest m0 room w0 w1 :
  in_word 32 TYPE_ID →
  net_inv sizeof_T Capacity c0 → is_dead_ c0 = false → outstanding c0 = [] →
  rtc (tx_step TYPE_ID sizeof_T Capacity) (c0, [], []) (c1, wire, ps) →
  net_inv sizeof_T Capacity r0 → is_dead_ r0 = false → rx_bytes_read_ r0 = 0%nat →
  pool_has this_pool room m0 w0 → w_st w0 = Recv [] [] →
  rtc (rx_step TYPE_ID sizeof_T rx_make rx_store rx_on) (r0, wire, w0) (r1, rest, w1) →
  let n := ((length wire - length rest) / FRAME_SIZE sizeof_T)%nat in
  (n ≤ length ps)%nat ∧ seen (w_st w1) = sunk room (take n ps) ∧
  ((count_taken (take n ps) < room)%nat → seen (w_st w1) = take n ps) ∧
  (kept (w_st w1)).*2 = reverse (List.filter takes (seen (w_st w1))) ∧
  pool_has this_pool (room - length (kept (w_st w1))) (list_to_map (kept (w_st w1)) ∪ m0) w1 ∧
  (∀ os, is_Some (poll_rx TYPE_ID sizeof_T rx_make rx_store rx_on os rest r1 w1)).
Proof.
  intros HT Hinv Hal Ho Htx Hr0 Hrd Hrb Hpool Hst Hrx n.
  destruct (net_end_to_end TYPE_ID sizeof_T Capacity rx_make rx_store rx_on c0 c1 wire ps r0 r1 rest w0 w1)
    as [Hn Hall]; [done..|]. fold n in Hn, Hall.
  assert (rx_state m0 room [] w0) as Hs0.
  { exists []. split; [done|]. split; [done|]. cbn. by rewrite (left_id_L ∅ (∪)). }
  destruct (deliver_all_sunk m0 (take n ps) room [] w0 Hs0) as (w' & room' & E & Hs & Hc).
  rewrite Hall in E. injection E as <-. pose proof Hs as (ks & Ew & Hks & Hp). cbn [app] in *. rewrite Ew. cbn [seen kept].
  split; [done|]. split; [done|]. split; [apply sunk_all|]. split; [done|]. split.
  - assert (length ks = count_taken (sunk room (take n ps))) as Hlen.
    { unfold count_taken. rewrite <-(length_fmap snd ks), Hks. apply length_reverse. }
    by replace (room - length ks)%nat with room' by lia.
  - intros os. eapply poll_defined; [|exact Hs].
    assert (rx_ok TYPE_ID sizeof_T Capacity rx_make rx_store rx_on wire w0 (r0, wire, w0)) as Hrx0.
    { split; [done|]. exists []. split; [done|]. rewrite Hrd. unfold received. by rewrite Hrb. }
    by destruct (rtc_invariant _ _ _ _ (rx_step_ok TYPE_ID sizeof_T Capacity rx_make rx_store rx_on wire w0) Hrx0 Hrx).
Qed.

End sink.

(** Two payloads through a ring of two frames; the sink keeps those that start
    with 5, in a pool of two cells. *)
Definition keeps_five (v : list Z) : bool := match v with 5 :: _ => true | _ => false end.

Lemma net_sink_gets_all_witness :
  ∃ c wire w0 r rest w, w_tx = Some (c, wire, [[5; 0]; [6; 0]]) ∧
    one_pool this_pool 4096 64 2 (Recv [] []) = Some w0 ∧
    poll_rx 7 2 (rx_make [] [] []) rx_store (rx_on keeps_five) [RecvSome 2; RecvSome 200; RecvSome 70] wire w_conduit w0
      = Some (r, rest, w) ∧
    seen (w_st w) = [[5; 0]; [6; 0]] ∧ (kept (w_st w)).*2 = [[5; 0]] ∧
    pool_has this_pool 1 (list_to_map (kept (w_st w)) ∪ ∅) w.
Proof.
  destruct w_tx_run as (c & wire & E & Hr).
  destruct (one_pool_has (T := list Z) this_pool 4096 64 2 (Recv [] [])) as (w0 & E0 & Hp & Hst); [unfold END; lia..|].
  destruct (poll_rx 7 2 (rx_make [] [] []) rx_store (rx_on keeps_five) [RecvSome 2; RecvSome 200; RecvSome 70] wire w_conduit w0)
    as [[[r rest] w]|] eqn:Er;
    [|vm_compute in E; injection E as _ <-; vm_compute in E0; injection E0 as <-; vm_compute in Er; discriminate Er].
  assert (((length wire - length rest) / FRAME_SIZE 2)%nat = 2%nat) as En.
  { vm_compute in E. injection E as _ <-. vm_compute in E0. injection E0 as <-. vm_compute in Er. by injection Er as _ <- _. }
  destruct (net_sink_gets_all 7 2 2 keeps_five [] [] [] w_conduit c wire [[5; 0]; [6; 0]] w_conduit r rest ∅ 2 w0 w)
    as (_ & _ & Hall & Hk & Hpool & _);
    [unfold in_word; lia|apply w_conduit_inv|done|apply w_conduit_inv|exact Hr|apply w_conduit_inv|done|done|done|done| |].
  { apply rtc_once. by exists [RecvSome 2; RecvSome 200; RecvSome 70]. }
  rewrite En in Hall. specialize (Hall ltac:(cbn; lia)). cbn in Hall. rewrite Hall in Hk. cbn in Hk.
  exists c, wire, w0, r, rest, w. split_and!; try done.
  assert (length (kept (w_st w)) = 1%nat) as Hl by (rewrite <-(length_fmap snd), Hk; done). by rewrite Hl in Hpool.
Defined.
