(* ===== verification/CoreExamples.v ===== *)
(** * The pattern programs (examples/01_core_patterns, examples/03_resilience_and_control)

    Four programs around one pipeline: the cascading request processor (01/01),
    the handler bound by a concept (01/02), the firewall that drops orders
    (03/01) and the order book that keeps state (03/04).  The first and the last
    make their events in a [runtime_domain], whose pool has the default size of
    1024 cells. *)

From Stdlib Require Import String SpecFloat.
From S2P Require Import Prelude EventPtr Interfaces Pool Pipeline Double Stages Showcase.

Local Open Scope Z_scope.

(** ** 01_cascading_pipeline.cpp *)

Module Cascading.

Record http_request := Request { net_ip : string; session_id : Z; payload : string }.

(** [http_request(ip, sid, p)]. *)
Definition request_ctor (ip : string) (sid : Z) (p : string) : http_request := Request ip sid p.

(** [firewall_stage::on(net_layer&)] and [auth_stage::on(auth_layer&)]. *)
Definition firewall_stage (ip : string) (out : list line) : list line :=
  out ++ [[Txt "[Firewall] Checking IP: "; Txt ip]].
Definition auth_stage (sid : Z) (out : list line) : list line :=
  out ++ [[Txt "[Auth] Validating session: "; Int sid]].

Definition http_request_id : Z := 10.

(** [request_processor::on(event_ptr<http_request>&)]; the pipeline never calls
    it with an empty pointer. *)
Definition request_processor : stage http_request (list line) := λ id,
  if id =? http_request_id then Some (ReadVoid (λ r out,
    let out := out ++ [[Txt "--- Processing new request ---"]] in
    let out := firewall_stage (net_ip r) out in
    let out := auth_stage (session_id r) out in
    out ++ [[Txt "[App] Processing payload: "; Txt (payload r)]]))
  else None.

Definition request_type : ety := Ety http_request_id None.

Definition main_program (w : world http_request (list line)) : option (world http_request (list line)) :=
  dispatch_locals (λ _, 0) (λ _, this_pool) [request_processor] request_type this_pool
    [(id, request_ctor "192.168.1.100" 404 "GET /index.html"); (id, request_ctor "10.0.0.5" 200 "POST /login")] w.

(** The layers are visited in the order network, session, application, request
    by request; the requests go back to the pool when [main] returns. *)
Definition request_log (r : http_request) : list line :=
  [[Txt "--- Processing new request ---"]; [Txt "[Firewall] Checking IP: "; Txt (net_ip r)];
   [Txt "[Auth] Validating session: "; Int (session_id r)]; [Txt "[App] Processing payload: "; Txt (payload r)]].

Lemma cascade_processes rs n m w :
  pool_has this_pool n m w → (length rs ≤ n)%nat →
  ∃ w', dispatch_locals (λ _, 0) (λ _, this_pool) [request_processor] request_type this_pool
          (pair id <$> rs) w = Some w' ∧
    w_st w' = w_st w ++ (rs ≫= request_log) ∧ pool_has this_pool n m w'.
Proof.
  intros Hp Hn.
  destruct (locals_dispatch (λ _, 0) (λ _, this_pool) [request_processor] request_type this_pool
    (pair id <$> rs) n m w) as (w' & E & Hp' & Ho); [solve_placed|done|by rewrite length_fmap|].
  exists w'. split; [done|]. split; [|done]. rewrite Ho. clear. generalize (w_st w).
  induction rs as [|r rs IH]; intros out; [cbn; by rewrite app_nil_r|].
  rewrite fmap_cons, bind_cons. cbn [foldl]. rewrite IH. cbn. unfold firewall_stage, auth_stage.
  by rewrite <-!app_assoc.
Qed.

Definition cascading_run : option (list line) :=
  w ← one_pool this_pool 4096 128 1024 []; w' ← main_program w; Some (w_st w').

Example cascading_output :
  cascading_run = Some (request_log (request_ctor "192.168.1.100" 404 "GET /index.html") ++
                        request_log (request_ctor "10.0.0.5" 200 "POST /login")).
Proof. vm_compute. reflexivity. Qed.

End Cascading.

(** ** 02_cxx20_concepts.cpp *)

Module Concepts.

(** Two event types without a common base. *)
Inductive priced := MarketTrade (price : double) | FxQuote (price : double).

Definition price (e : priced) : double := match e with MarketTrade p | FxQuote p => p end.

Definition market_trade : Z := 10.
Definition fx_quote : Z := 11.

(** [HasPrice]. *)
Definition has_price (id : Z) : bool := (id =? market_trade) || (id =? fx_quote).

Definition pricing_analytics : stage priced (list line) := λ id,
  if has_price id
  then Some (ReadVoid (λ e out, out ++ [[Txt "Analytics processed price: $"; Dbl (price e)]]))
  else None.

Definition trade_pool : Z := 1.
Definition quote_pool : Z := 2.
Definition home (id : Z) : Z := if id =? market_trade then trade_pool else quote_pool.

Definition main_program (p1 p2 : double) (w : world priced (list line)) : option (world priced (list line)) :=
  let pipe := [stage_handler (λ _, 0) home pricing_analytics] in
  '(trade, w) ← world_make [] [] (MarketTrade p1) trade_pool w;
  '(quote, w) ← world_make [] [] (FxQuote p2) quote_pool w;
  '(trade, w) ← dispatch pipe (Ety market_trade None) trade w;
  '(quote, w) ← dispatch pipe (Ety fx_quote None) quote w;
  w ← ep_destroy quote w;
  ep_destroy trade w.

Definition two_pools : option (world priced (list line)) :=
  q1 ← pool_ctor 4096 8 5; q2 ← pool_ctor 8192 8 5;
  Some (World {[trade_pool := q1; quote_pool := q2]} []).

(** The free cells of both pools. *)
Definition room (w : world priced (list line)) : option (nat * nat) :=
  q1 ← w_pools w !! trade_pool; q2 ← w_pools w !! quote_pool;
  Some (length (free_list q1), length (free_list q2)).

(** One handler serves both types: whatever the prices, both are printed and
    both pools are full again. *)
Lemma concepts_both p1 p2 :
  (w ← two_pools; w' ← main_program p1 p2 w; r ← room w'; Some (w_st w', r)) =
  Some ([[Txt "Analytics processed price: $"; Dbl p1]; [Txt "Analytics processed price: $"; Dbl p2]], (5%nat, 5%nat)).
Proof. vm_compute. reflexivity. Qed.

End Concepts.

(** ** 01_backpressure_drops.cpp *)

Module Drops.

Record order := Order { qty : double }.

Definition order_id : Z := 33.

Definition risk_firewall : stage order (list line) := λ id,
  if id =? order_id then Some (ReadBool (λ o out,
    if dgt (qty o) (of_Z 10000)
    then (false, out ++ [[Txt "[FIREWALL] Order too large ("; Dbl (qty o); Txt "). DROPPED."]])
    else (true, out)))
  else None.

Definition execution_engine : stage order (list line) := λ id,
  if id =? order_id then Some (ReadVoid (λ o out, out ++ [[Txt "[EXEC] Order executed for qty: "; Dbl (qty o)]]))
  else None.

Definition pipe : list (stage order (list line)) := [risk_firewall; execution_engine].

Definition order_type : ety := Ety order_id None.

Definition main_program (w : world order (list line)) : option (world order (list line)) :=
  let go o w := dispatch_made (λ _, 0) (λ _, this_pool) [] [] pipe order_type this_pool o w in
  let w := cout [Txt "Sending small order..."] w in
  w ← go (Order (of_Z 150)) w;
  let w := cout [Txt "Sending toxic order..."] w in
  go (Order (of_Z 50000)) w.

Definition order_log (o : order) : list line :=
  if dgt (qty o) (of_Z 10000)
  then [[Txt "[FIREWALL] Order too large ("; Dbl (qty o); Txt "). DROPPED."]]
  else [[Txt "[EXEC] Order executed for qty: "; Dbl (qty o)]].

(** Any number of orders goes through a pool of any size: a dropped order gives
    its cell back like an executed one. *)
Lemma drops_leak_nothing os free m w :
  pool_has this_pool (S free) m w →
  ∃ w', dispatch_each (λ _, 0) (λ _, this_pool) pipe order_type this_pool os w = Some w' ∧
    w_st w' = w_st w ++ (os ≫= order_log) ∧ pool_has this_pool (S free) m w'.
Proof.
  intros Hp. destruct (each_dispatch (λ _, 0) (λ _, this_pool) pipe order_type this_pool os free m w)
    as (w' & E & Hp' & Ho); [solve_placed|done|].
  exists w'. split; [done|]. split; [|done]. rewrite Ho. apply flows_print. intros o out.
  unfold order_log. cbn. by destruct (dgt (qty o) (of_Z 10000)).
Qed.

Example drops_output :
  (w ← one_pool this_pool 4096 8 10 []; w' ← main_program w; Some (w_st w')) = Some [
    [Txt "Sending small order..."]; [Txt "[EXEC] Order executed for qty: "; Dbl (of_Z 150)];
    [Txt "Sending toxic order..."]; [Txt "[FIREWALL] Order too large ("; Dbl (of_Z 50000); Txt "). DROPPED."]].
Proof. vm_compute. reflexivity. Qed.

End Drops.

(** ** 04_cache_line_isolation.cpp *)

Module OrderBook.

Record trade_tick := Tick { symbol_id : Z; tick_price : double }.

(** The state of the handler; the array has ten elements, zero at first. *)
Record order_book_handler := Book { last_prices : list double; total_trades : Z }.

Definition book_ctor : order_book_handler := Book (replicate 10 (of_Z 0)) 0.

Definition trade_tick_id : Z := 70.

Abbreviation book_state := (order_book_handler * list line)%type.

(** [on(event_ptr<trade_tick>&)]. *)
Definition book_on (t : trade_tick) (b : order_book_handler) : order_book_handler :=
  if (0 <=? symbol_id t) && (symbol_id t <? 10)
  then Book (<[Z.to_nat (symbol_id t) := tick_price t]> (last_prices b)) (total_trades b + 1)
  else b.

Definition ob_handler : stage trade_tick book_state := λ id,
  if id =? trade_tick_id then Some (ReadVoid (λ t st, (book_on t st.1, st.2))) else None.

(** [print_snapshot()]. *)
Definition print_snapshot (b : order_book_handler) : list line :=
  [Txt "--- Order Book Snapshot ("; Int (total_trades b); Txt " trades) ---"] ::
  ((λ i : Z, [Txt "Symbol "; Int i; Txt " last price: $";
              Dbl (default (of_Z 0) (last_prices b !! Z.to_nat i))]) <$> [0; 1; 2]).

Definition tick_type : ety := Ety trade_tick_id None.

Definition main_program (w : world trade_tick book_state) : option (list line) :=
  let go t w := dispatch_made (λ _, 0) (λ _, this_pool) [] [] [ob_handler] tick_type this_pool t w in
  w ← go (Tick 0 (lit 1505 1)) w;
  w ← go (Tick 1 (of_Z 2800)) w;
  w ← go (Tick 0 (of_Z 151)) w;
  Some ((w_st w).2 ++ print_snapshot (w_st w).1).

(** *** The book shows the latest price of every symbol *)

Definition in_book (t : trade_tick) : bool := (0 <=? symbol_id t) && (symbol_id t <? 10).

(** The last price seen for symbol [i], 0 if there was none. *)
Fixpoint latest (i : Z) (ts : list trade_tick) (before : double) : double :=
  match ts with
  | [] => before
  | t :: ts' => latest i ts' (if symbol_id t =? i then tick_price t else before)
  end.

Definition shows (b : order_book_handler) (prices : Z → double) (n : Z) : Prop :=
  length (last_prices b) = 10%nat ∧ total_trades b = n ∧
  ∀ i, 0 ≤ i < 10 → last_prices b !! Z.to_nat i = Some (prices i).

Lemma book_on_shows t b prices n :
  shows b prices n →
  shows (book_on t b) (λ i, if symbol_id t =? i then tick_price t else prices i)
    (if in_book t then n + 1 else n).
Proof.
  intros (Hl & Hn & Hp). unfold book_on, in_book.
  destruct ((0 <=? symbol_id t) && (symbol_id t <? 10)) eqn:E.
  - split; [cbn; by rewrite length_insert|]. split; [cbn; lia|]. intros i Hi. cbn [last_prices].
    destruct (Z.eqb_spec (symbol_id t) i) as [<-|Hne].
    + apply list_lookup_insert_eq. lia.
    + rewrite list_lookup_insert_ne by lia. by apply Hp.
  - split_and!; try done. intros i Hi. rewrite (proj2 (Z.eqb_neq _ _)) by lia. by apply Hp.
Qed.

(** The book after a sequence of ticks: the last price of each of the ten
    symbols and the number of ticks with such a symbol (fewer than [2 ^ 31] of
    them fit the counter); other ticks change nothing; the pool is as before. *)
Lemma book_latest ts free m w :
  pool_has this_pool (S free) m w → (w_st w).1 = book_ctor →
  ∃ w', dispatch_each (λ _, 0) (λ _, this_pool) [ob_handler] tick_type this_pool ts w = Some w' ∧
    shows (w_st w').1 (λ i, latest i ts (of_Z 0)) (Z.of_nat (length (List.filter in_book ts))) ∧
    (w_st w').2 = (w_st w).2 ∧ pool_has this_pool (S free) m w'.
Proof.
  intros Hp Hb. destruct (each_dispatch (λ _, 0) (λ _, this_pool) [ob_handler] tick_type this_pool ts free m w)
    as (w' & E & Hp' & Ho); [solve_placed|done|].
  exists w'. split; [done|]. rewrite Ho.
  assert (∀ ts st prices n, shows st.1 prices n →
    let st' := foldl (λ st v, (flow (stage_calls [ob_handler] tick_type) v st).2) st ts in
    shows st'.1 (λ i, latest i ts (prices i)) (n + Z.of_nat (length (List.filter in_book ts))) ∧ st'.2 = st.2) as Hall.
  { clear. induction ts as [|t ts IH]; intros st prices n Hs; cbn [foldl latest List.filter].
    - cbn. by rewrite Z.add_0_r.
    - cbn [flow stage_calls tick_type linear]. destruct (IH (book_on t st.1, st.2) _ _ (book_on_shows t _ _ _ Hs)) as [H1 H2].
      cbn in H1, H2 |- *. rewrite H2. split; [|done]. clear -H1. destruct (in_book t); [|done].
      cbn [length]. rewrite Nat2Z.inj_succ. replace (n + Z.succ _) with (n + 1 + Z.of_nat (length (List.filter in_book ts))) by lia.
      exact H1. }
  assert (shows (w_st w).1 (λ _, of_Z 0) 0) as H0.
  { rewrite Hb. split; [done|]. split; [done|]. intros i Hi. cbn [book_ctor last_prices].
    rewrite lookup_replicate. split; [done|lia]. }
  destruct (Hall ts _ _ _ H0) as [H1 H2]. split; [exact H1|]. done.
Qed.

Example book_output :
  (w ← one_pool this_pool 4096 16 1024 (book_ctor, []); main_program w) = Some [
    [Txt "--- Order Book Snapshot ("; Int 3; Txt " trades) ---"];
    [Txt "Symbol "; Int 0; Txt " last price: $"; Dbl (of_Z 151)];
    [Txt "Symbol "; Int 1; Txt " last price: $"; Dbl (of_Z 2800)];
    [Txt "Symbol "; Int 2; Txt " last price: $"; Dbl (of_Z 0)]].
Proof. vm_compute. reflexivity. Qed.

End OrderBook.
