(* ===== verification/Channel.v ===== *)
(** * One producer, one consumer: a pool and a conduit between two threads

    The threaded programs under examples/ share a shape: one thread makes
    events in a pool, releases them and pushes the raw pointers into a conduit;
    another pops them, looks at them and lets the smart pointer return them to
    the pool, until it meets a sentinel.  This file models that shape against
    the [Allocator] and [Queue] interfaces, with the calls of the two threads
    interleaved in any order, each call being one step.  (FineChannel.v splits
    the calls of the conduit, and PoolClient.v those of the pool.)

    What the producer does between two pushes is a local machine, given by the
    program.  The pushes of the programs are [pipe.push(make(args).release())]:
    a refused push loses the pointer, and a [make] that finds no room pushes a
    null pointer, which the consumer ignores. *)

From S2P Require Import Prelude EventPtr Interfaces.

Local Open Scope Z_scope.

(** Where the consumer is: before [pop], with an event, or past its loop. *)
Inductive consumer := Idle | Have (p : Z) | Stopped.

Section channel.
Context {P Q V L : Type} `{!Allocator P V} `{!Queue Q}.

(** The producer: the event it makes next ([None] when it is not at a push),
    its state after the push answered, and its other steps. *)
Context (produce : L → option V) (advance : L → bool → L) (other : Z → L → option L).

(** The event that ends the consumer's loop. *)
Context (stop : V → bool).

Record chan := Chan {
  c_pool : P;
  c_queue : Q;
  c_local : L;
  c_flight : option Z;         (* made and released, not yet pushed *)
  c_consumer : consumer;
  c_sent : list V;             (* accepted by the queue, in order *)
  c_got : list V;              (* handled by the consumer, in order *)
  c_leaked : list Z }.         (* pointers of refused pushes *)

Inductive chan_label :=
  | PMake (sp : list bool)     (* [make(args).release()] *)
  | PPush                      (* [push(ptr)] *)
  | PLocal (n : Z)             (* another step of the producer *)
  | CPop                       (* [if (auto ev = pipe.pop(pool))] *)
  | CHandle (sp : list bool).  (* the body of the [if]; [ev] is destroyed *)

Definition chan_step (l : chan_label) (s : chan) : option chan :=
  match l with
  | PMake sp =>
      match c_flight s with
      | Some _ => None
      | None =>
          v ← produce (c_local s);
          '(ptr, p') ← al_make sp v (c_pool s);
          Some (Chan p' (c_queue s) (c_local s) (Some ptr) (c_consumer s) (c_sent s) (c_got s) (c_leaked s))
      end
  | PPush =>
      ptr ← c_flight s;
      '(ok, q') ← q_push ptr (c_queue s);
      let local := advance (c_local s) ok in
      if ptr =? nullptr then
        Some (Chan (c_pool s) q' local None (c_consumer s) (c_sent s) (c_got s) (c_leaked s))
      else if ok : bool then
        v ← al_live (c_pool s) !! ptr;
        Some (Chan (c_pool s) q' local None (c_consumer s) (c_sent s ++ [v]) (c_got s) (c_leaked s))
      else
        Some (Chan (c_pool s) q' local None (c_consumer s) (c_sent s) (c_got s) (ptr :: c_leaked s))
  | PLocal n =>
      local ← other n (c_local s);
      Some (Chan (c_pool s) (c_queue s) local (c_flight s) (c_consumer s) (c_sent s) (c_got s) (c_leaked s))
  | CPop =>
      match c_consumer s with
      | Idle =>
          '(r, q') ← q_pop (c_queue s);
          let ptr := default nullptr r in
          Some (Chan (c_pool s) q' (c_local s) (c_flight s) (if ptr =? nullptr then Idle else Have ptr)
                  (c_sent s) (c_got s) (c_leaked s))
      | _ => None
      end
  | CHandle sp =>
      match c_consumer s with
      | Have p =>
          v ← al_live (c_pool s) !! p;
          p' ← al_free sp p (c_pool s);
          Some (Chan p' (c_queue s) (c_local s) (c_flight s) (if stop v then Stopped else Idle)
                  (c_sent s) (c_got s ++ [v]) (c_leaked s))
      | _ => None
      end
  end.

Definition chan_start (p : P) (q : Q) (l : L) : chan := Chan p q l None Idle [] [] [].

Definition chan_reach (s s' : chan) : Prop := rtc (λ s s', ∃ l, chan_step l s = Some s') s s'.

(** A schedule. *)
Fixpoint chan_run (ls : list chan_label) (s : chan) : option chan :=
  match ls with [] => Some s | l :: ls' => s1 ← chan_step l s; chan_run ls' s1 end.

Lemma chan_run_reach ls s s' : chan_run ls s = Some s' → chan_reach s s'.
Proof.
  revert s. induction ls as [|l ls IH]; intros s E; cbn in E; [inv_some; apply rtc_refl|].
  destruct (chan_step l s) as [s1|] eqn:E1; [|done]. eapply rtc_l; [by exists l|by apply IH].
Qed.

(** The steps a thread may take. *)
Definition chan_enabled (l : chan_label) (s : chan) : bool :=
  match l with
  | PMake _ => match c_flight s with None => bool_decide (is_Some (produce (c_local s))) | _ => false end
  | PPush => match c_flight s with Some _ => true | None => false end
  | PLocal n => bool_decide (is_Some (other n (c_local s)))
  | CPop => match c_consumer s with Idle => true | _ => false end
  | CHandle _ => match c_consumer s with Have _ => true | _ => false end
  end.

(** ** The invariant *)

Definition nonnull (l : list Z) : list Z := List.filter (λ p, negb (p =? nullptr)) l.

Definition held (s : chan) : list Z := match c_consumer s with Have p => [p] | _ => [] end.
Definition flying (s : chan) : list Z := match c_flight s with Some p => nonnull [p] | None => [] end.

(** The pointers in the system: with the consumer, in the queue, in flight. *)
Definition pointers (s : chan) : list Z :=
  held s ++ nonnull (q_items (c_queue s)) ++ flying s ++ c_leaked s.

(** The values behind pointers. *)
Definition values (m : gmap Z V) (l : list Z) : list V := omap (λ p, m !! p) l.

Record chan_inv (cap : nat) (s : chan) : Prop := {
  ci_al : al_inv (c_pool s);
  ci_q : q_inv (c_queue s);
  ci_room : (al_room (c_pool s) + size (al_live (c_pool s)) = cap)%nat;
  ci_nodup : NoDup (pointers s);
  ci_nonnull : nullptr ∉ pointers s;
  ci_live a : is_Some (al_live (c_pool s) !! a) ↔ a ∈ pointers s;
  ci_fifo : c_sent s = c_got s ++ values (al_live (c_pool s)) (held s ++ nonnull (q_items (c_queue s)));
  ci_stop : match c_consumer s with
            | Stopped => ∃ g v, c_got s = g ++ [v] ∧ stop v = true ∧ Forall (λ v, stop v = false) g
            | _ => Forall (λ v, stop v = false) (c_got s)
            end }.

Lemma values_insert m l a (v : V) : a ∉ l → values (<[a := v]> m) l = values m l.
Proof.
  induction l as [|p l IH]; intros Ha; [done|]. apply not_elem_of_cons in Ha as [Hp Ha].
  unfold values in *. cbn. rewrite lookup_insert_ne, IH by done. done.
Qed.

Lemma values_delete m l a : a ∉ l → values (delete a m) l = values m l.
Proof.
  induction l as [|p l IH]; intros Ha; [done|]. apply not_elem_of_cons in Ha as [Hp Ha].
  unfold values in *. cbn. rewrite lookup_delete_ne, IH by done. done.
Qed.

Lemma values_app m l1 l2 : values m (l1 ++ l2) = values m l1 ++ values m l2.
Proof. apply omap_app. Qed.

Lemma values_length m l : (∀ a, a ∈ l → is_Some (m !! a)) → length (values m l) = length l.
Proof.
  induction l as [|p l IH]; intros Hl; [done|]. unfold values in *. cbn.
  destruct (Hl p) as [v ->]; [by left|]. cbn. f_equal. apply IH. intros a Ha. apply Hl. by right.
Qed.

Lemma nonnull_app l1 l2 : nonnull (l1 ++ l2) = nonnull l1 ++ nonnull l2.
Proof. apply List.filter_app. Qed.

Lemma nonnull_one p : p ≠ nullptr → nonnull [p] = [p].
Proof. intros Hp. cbn. by rewrite (proj2 (Z.eqb_neq _ _)). Qed.

Lemma exists_last_or_nil {A} (l : list A) : l = [] ∨ ∃ r x, l = r ++ [x].
Proof. destruct l as [|a l]; [by left|]. right. destruct (exists_last (l := a :: l)) as (r & x & ->); [done|]. eauto. Qed.

Context `{!AllocatorLaws P V} `{!QueueLaws Q}.

Lemma chan_start_inv p q l :
  al_inv p → al_live p = ∅ → q_inv q → q_items q = [] → chan_inv (al_room p) (chan_start p q l).
Proof.
  intros Hp Hl Hq Hi. unfold chan_start. split; unfold pointers, held, flying; cbn -[values]; rewrite ?Hi; try done.
  - rewrite Hl, map_size_empty. lia.
  - constructor.
  - apply not_elem_of_nil.
  - intros a. rewrite Hl, lookup_empty, elem_of_nil. split; [by intros []|done].
Qed.

(** A new object, owned by the pointer in flight. *)
Lemma chan_inv_make cap s sp v a p' :
  chan_inv cap s → c_flight s = None →
  al_make sp v (c_pool s) = Some (a, p') → a ≠ nullptr → al_live (c_pool s) !! a = None →
  al_live p' = <[a := v]> (al_live (c_pool s)) → al_room (c_pool s) = S (al_room p') → al_inv p' →
  chan_inv cap (Chan p' (c_queue s) (c_local s) (Some a) (c_consumer s) (c_sent s) (c_got s) (c_leaked s)).
Proof.
  intros [Hal Hq Hroom Hnd Hnn Hlive Hfifo Hstop] Hf Hmake Ha Hfree Hl Hr Hp'.
  set (s' := Chan _ _ _ _ _ _ _ _).
  assert (pointers s' ≡ₚ a :: pointers s) as Hperm.
  { unfold pointers, flying, s', held. cbn [c_flight c_consumer c_queue c_leaked].
    rewrite Hf, nonnull_one by done. cbn [app]. by rewrite !app_assoc, <-Permutation_middle. }
  assert (a ∉ pointers s) as Hna by (intros Hin; apply Hlive in Hin as [? ?]; congruence).
  split; cbn [s' c_pool c_queue c_sent c_got].
  - done.
  - done.
  - rewrite Hl, map_size_insert_None by done. lia.
  - rewrite Hperm. by apply NoDup_cons.
  - rewrite Hperm. apply not_elem_of_cons. done.
  - intros b. rewrite Hperm, elem_of_cons, Hl, lookup_insert_is_Some, <-Hlive.
    destruct (decide (a = b)); naive_solver.
  - rewrite Hl. change (held s') with (held s). rewrite values_insert; [done|].
    intros Hin. apply Hna. unfold pointers. rewrite app_assoc. apply elem_of_app. by left.
  - done.
Qed.

Lemma chan_make_ok cap s sp :
  chan_inv cap s → chan_enabled (PMake sp) s = true →
  ∃ s', chan_step (PMake sp) s = Some s' ∧ chan_inv cap s'.
Proof.
  intros Hi He. cbn in *. destruct (c_flight s) eqn:Ef; [done|].
  apply bool_decide_eq_true in He as [v Ev]. rewrite Ev. cbn [mbind option_bind].
  destruct (al_make_cases sp v (c_pool s) (ci_al _ _ Hi)) as [[Hr E]|(a & p' & E & Ha & Hf & Hl & Hr & Hp')];
    rewrite E; cbn [mbind option_bind]; eexists; (split; [done|]).
  - destruct Hi as [? ? ? Hnd Hnn Hlive Hfifo Hstop].
    assert (∀ l, flying (Chan (c_pool s) (c_queue s) l (Some 0) (c_consumer s) (c_sent s) (c_got s) (c_leaked s)) = flying s)
      as Efl by (intros l; unfold flying; by rewrite Ef).
    split; unfold pointers; rewrite ?Efl; done.
  - by eapply chan_inv_make.
Qed.

(** The pointer in flight moves to the end of the queue, or to the leaked
    ones; the list of pointers stays the same. *)
Lemma chan_push_ok cap s :
  chan_inv cap s → chan_enabled PPush s = true →
  ∃ s', chan_step PPush s = Some s' ∧ chan_inv cap s'.
Proof.
  intros Hi He. cbn in *. destruct (c_flight s) as [ptr|] eqn:Ef; [|done]. cbn [mbind option_bind].
  destruct Hi as [Hal Hq Hroom Hnd Hnn Hlive Hfifo Hstop].
  unfold pointers, flying in Hnd, Hnn, Hlive. rewrite Ef in Hnd, Hnn, Hlive.
  assert (∃ ok q', q_push ptr (c_queue s) = Some (ok, q') ∧ q_inv q' ∧
            q_items q' = if ok then q_items (c_queue s) ++ [ptr] else q_items (c_queue s)) as (ok & q' & -> & Hq' & Ei).
  { destruct (q_push_cases ptr _ Hq) as [(q' & E & Ei & _ & Hq' & _)|[E _]]; rewrite E; eauto. }
  cbn [mbind option_bind].
  destruct (Z.eqb_spec ptr nullptr) as [->|Hne].
  - eexists. split; [done|].
    assert (nonnull (q_items q') = nonnull (q_items (c_queue s))) as En
      by (rewrite Ei; destruct ok; [by rewrite nonnull_app, app_nil_r|done]).
    split; unfold pointers, flying, held in *; cbn in *; rewrite ?En; done.
  - rewrite nonnull_one in Hnd, Hnn, Hlive by done. destruct ok.
    + destruct (proj2 (Hlive ptr)) as [v Ev]; [rewrite !elem_of_app, list_elem_of_singleton; auto|].
      rewrite Ev. cbn [mbind option_bind]. eexists. split; [done|].
      assert (nonnull (q_items q') = nonnull (q_items (c_queue s)) ++ [ptr]) as En
        by (rewrite Ei, nonnull_app, nonnull_one by done; done).
      assert (values (al_live (c_pool s)) [ptr] = [v]) as Eval by (unfold values; cbn; by rewrite Ev).
      split; unfold pointers, flying, held in *; cbn -[values] in *; rewrite ?En, <-?app_assoc; try done.
      by rewrite app_assoc, values_app, Eval, Hfifo, <-app_assoc.
    + eexists. split; [done|]. split; unfold pointers, flying, held in *; cbn -[values] in *; rewrite ?Ei; done.
Qed.

Lemma chan_pop_ok cap s :
  chan_inv cap s → chan_enabled CPop s = true →
  ∃ s', chan_step CPop s = Some s' ∧ chan_inv cap s'.
Proof.
  intros Hi He. cbn in *. destruct (c_consumer s) eqn:Ec; try done.
  destruct Hi as [Hal Hq Hroom Hnd Hnn Hlive Hfifo Hstop]. unfold pointers, held in Hnd, Hnn, Hlive, Hfifo.
  rewrite Ec in Hnd, Hnn, Hlive, Hfifo, Hstop.
  destruct (q_pop_cases _ Hq) as [[E ->]|(p & l & q' & E & -> & Ei & _ & Hq')]; cbn.
  - eexists. split; [done|]. split; unfold pointers, held; cbn -[values nonnull flying]; done.
  - rewrite E in Hnd, Hnn, Hlive, Hfifo. cbn [nonnull List.filter] in Hnd, Hnn, Hlive, Hfifo.
    fold (nonnull l) in Hnd, Hnn, Hlive, Hfifo. unfold nullptr in *.
    destruct (p =? 0); cbn [negb] in *; (eexists; split; [done|]);
      split; unfold pointers, held; cbn -[values nonnull flying] in *; rewrite ?Ei; done.
Qed.

Lemma chan_handle_ok cap s sp :
  chan_inv cap s → chan_enabled (CHandle sp) s = true →
  ∃ s', chan_step (CHandle sp) s = Some s' ∧ chan_inv cap s'.
Proof.
  intros Hi He. cbn in *. destruct (c_consumer s) as [|p|] eqn:Ec; try done.
  destruct Hi as [Hal Hq Hroom Hnd Hnn Hlive Hfifo Hstop]. unfold pointers, held in Hnd, Hnn, Hlive, Hfifo.
  rewrite Ec in Hnd, Hnn, Hlive, Hfifo, Hstop. cbn [app] in Hnd, Hnn, Hlive, Hfifo.
  destruct (proj2 (Hlive p)) as [v Ev]; [by left|]. rewrite Ev. cbn [mbind option_bind].
  destruct (al_free_live sp p v (c_pool s) Hal Ev) as (p' & -> & Hl & Hr & Hp').
  cbn [mbind option_bind]. eexists. split; [done|].
  apply NoDup_cons in Hnd as [Hpn Hnd]. apply not_elem_of_cons in Hnn as [Hp0 Hnn].
  assert (∀ b, is_Some (delete p (al_live (c_pool s)) !! b) ↔
               b ∈ nonnull (q_items (c_queue s)) ++ flying s ++ c_leaked s) as Hdel.
  { intros b. rewrite lookup_delete_is_Some, Hlive, elem_of_cons. naive_solver. }
  assert (values (al_live (c_pool s)) (p :: nonnull (q_items (c_queue s))) =
          v :: values (al_live (c_pool s)) (nonnull (q_items (c_queue s)))) as Eval by (unfold values; cbn; by rewrite Ev).
  split; unfold pointers, held; cbn -[values nonnull flying]; rewrite ?Hl; destruct (stop v) eqn:Es; cbn [app]; try done;
    [..|by exists (c_got s), v|apply Forall_app; split; [done|by apply Forall_singleton]].
  1,2: rewrite Hr; pose proof (size_delete_S _ _ _ Ev); lia.
  all: rewrite values_delete by (intros Hin; apply Hpn, elem_of_app; by left);
    rewrite Hfifo, Eval, <-app_assoc; done.
Qed.

(** Every step a thread may take can be taken, touches only live objects, and
    keeps the invariant. *)
Lemma chan_step_ok cap s l :
  chan_inv cap s → chan_enabled l s = true → ∃ s', chan_step l s = Some s' ∧ chan_inv cap s'.
Proof.
  intros Hi He. destruct l as [sp| |n| |sp].
  - by apply chan_make_ok.
  - by apply chan_push_ok.
  - cbn in *. apply bool_decide_eq_true in He as [l' El]. rewrite El.
    cbn [mbind option_bind]. eexists. split; [done|]. by destruct Hi.
  - by apply chan_pop_ok.
  - by apply chan_handle_ok.
Qed.

Lemma chan_step_enabled s l s' : chan_step l s = Some s' → chan_enabled l s = true.
Proof.
  destruct l; cbn; intros E.
  - destruct (c_flight s); [done|]. destruct (produce (c_local s)); [|done]. apply bool_decide_eq_true. by eexists.
  - by destruct (c_flight s).
  - destruct (other n (c_local s)); [|done]. apply bool_decide_eq_true. by eexists.
  - by destruct (c_consumer s).
  - by destruct (c_consumer s).
Qed.

Lemma chan_reach_inv cap s s' : chan_inv cap s → chan_reach s s' → chan_inv cap s'.
Proof.
  intros Hi Hr. induction Hr as [|s s1 s' [l E] _ IH]; [done|]. apply IH.
  destruct (chan_step_ok cap s l Hi (chan_step_enabled _ _ _ E)) as (s2 & E2 & Hi2). congruence.
Qed.

(** ** Counting *)

(** Live objects are the events accepted and not yet handled, the one in flight
    and the leaked ones. *)
Lemma chan_live_count cap s :
  chan_inv cap s →
  (size (al_live (c_pool s)) + length (c_got s) =
   length (c_sent s) + length (flying s) + length (c_leaked s))%nat.
Proof.
  intros [_ _ _ Hnd _ Hlive Hfifo _].
  rewrite (size_keys _ (pointers s)) by done.
  rewrite Hfifo, length_app, values_length.
  - unfold pointers. rewrite !length_app. lia.
  - intros a Ha. apply Hlive. unfold pointers. rewrite app_assoc. apply elem_of_app. by left.
Qed.

(** ** Programs that never overrun their pool or their conduit

    [script l] is what the producer has sent when its local state is [l], and
    [budget l] bounds what it will still send. *)
Class Lossless (wf : L → Prop) (budget : L → nat) (script : L → list V) : Prop := {
  ll_push l v : wf l → produce l = Some v →
    wf (advance l true) ∧ (budget (advance l true) < budget l)%nat ∧ script (advance l true) = script l ++ [v];
  ll_other n l l' : wf l → other n l = Some l' →
    wf l' ∧ (budget l' ≤ budget l)%nat ∧ script l' = script l ∧
    (is_Some (produce l) → produce l' = produce l) }.

Context (wf : L → Prop) (budget : L → nat) (script : L → list V) `{HL : !Lossless wf budget script}.

(** With room for [N] events in the pool and in the queue, nothing is refused
    and nothing is lost. *)
Record chan_good (N cap : nat) (s : chan) : Prop := {
  cg_inv : chan_inv cap s;
  cg_wf : wf (c_local s);
  cg_cap : (N ≤ q_cap (c_queue s))%nat;
  cg_budget : (length (c_sent s) + budget (c_local s) ≤ N)%nat;
  cg_leaked : c_leaked s = [];
  cg_nulls : nonnull (q_items (c_queue s)) = q_items (c_queue s);
  cg_flight a : c_flight s = Some a →
    a ≠ nullptr ∧ is_Some (produce (c_local s)) ∧ al_live (c_pool s) !! a = produce (c_local s);
  cg_script : c_sent s = script (c_local s) }.

Lemma chan_start_good N p q l :
  al_inv p → al_live p = ∅ → q_inv q → q_items q = [] →
  wf l → script l = [] → (budget l ≤ N)%nat → (N ≤ q_cap q)%nat → chan_good N (al_room p) (chan_start p q l).
Proof.
  intros Hp Hl Hq Hi Hw Hs HN Hc. split; try done; [by apply chan_start_inv|cbn; by rewrite Hi].
Qed.

Lemma good_make N cap s sp s' :
  (N ≤ cap)%nat → chan_good N cap s → chan_step (PMake sp) s = Some s' → chan_good N cap s'.
Proof using All.
  intros HN Hg E. pose proof (chan_step_enabled _ _ _ E) as He.
  destruct (chan_step_ok cap s _ (cg_inv _ _ _ Hg) He) as (s1 & E1 & Hi'). rewrite E in E1. injection E1 as <-.
  pose proof (chan_live_count _ _ (cg_inv _ _ _ Hg)) as Hcount.
  destruct Hg as [Hi Hwf Hcap Hbud Hleak Hnull Hfl Hscr]. cbn in E. destruct (c_flight s) eqn:Ef; [done|].
  destruct (produce (c_local s)) as [v|] eqn:Ev; [|done]. cbn [mbind option_bind] in E.
  destruct (ll_push _ v Hwf Ev) as (_ & Hlt & _).
  assert (flying s = []) as Efl by (unfold flying; by rewrite Ef). rewrite Efl, Hleak in Hcount. cbn in Hcount.
  pose proof (ci_room _ _ Hi) as Hroom.
  destruct (al_make_cases sp v (c_pool s) (ci_al _ _ Hi)) as [[Hr _]|(a & p' & Em & Ha & Hf & Hl & Hr & Hp')]; [lia|].
  rewrite Em in E. cbn [mbind option_bind] in E. injection E as <-. split; try done.
  cbn. intros b [= <-]. rewrite Hl, lookup_insert_eq, Ev. split; [done|]. split; [by eexists|done].
Qed.

Lemma good_push N cap s s' :
  chan_good N cap s → chan_step PPush s = Some s' → chan_good N cap s'.
Proof using All.
  intros Hg E. pose proof (chan_step_enabled _ _ _ E) as He.
  destruct (chan_step_ok cap s _ (cg_inv _ _ _ Hg) He) as (s1 & E1 & Hi'). rewrite E in E1. injection E1 as <-.
  destruct Hg as [Hi Hwf Hcap Hbud Hleak Hnull Hfl Hscr]. cbn in E.
  destruct (c_flight s) as [a|] eqn:Ef; [|done]. cbn [mbind option_bind] in E.
  destruct (Hfl a eq_refl) as (Ha & [v Ev] & Hav). destruct (ll_push _ v Hwf Ev) as (Hwf' & Hlt & Hscr').
  assert (length (q_items (c_queue s)) ≤ length (c_sent s))%nat as Hlen.
  { rewrite (ci_fifo _ _ Hi), length_app, values_length, length_app, Hnull; [lia|].
    intros b Hb. apply (ci_live _ _ Hi). unfold pointers. rewrite app_assoc. apply elem_of_app. by left. }
  destruct (q_push_room a (c_queue s) (ci_q _ _ Hi)) as (q' & Eq & Ei & Ec & Hq'); [lia|].
  rewrite Eq in E. cbn [mbind option_bind] in E. rewrite (proj2 (Z.eqb_neq _ _)) in E by done.
  rewrite Hav, Ev in E. cbn [mbind option_bind] in E. injection E as <-. split; cbn; try done.
  - by rewrite Ec.
  - rewrite length_app. cbn. lia.
  - by rewrite Ei, nonnull_app, Hnull, nonnull_one.
  - by rewrite Hscr, Hscr'.
Qed.

Lemma good_consumer N cap s l s' :
  (l = CPop ∨ ∃ sp, l = CHandle sp) → chan_good N cap s → chan_step l s = Some s' → chan_good N cap s'.
Proof using All.
  intros Hl Hg E. pose proof (chan_step_enabled _ _ _ E) as He.
  destruct (chan_step_ok cap s _ (cg_inv _ _ _ Hg) He) as (s1 & E1 & Hi'). rewrite E in E1. injection E1 as <-.
  destruct Hg as [Hi Hwf Hcap Hbud Hleak Hnull Hfl Hscr]. destruct Hl as [->|[sp ->]]; cbn in E.
  - destruct (c_consumer s); try done.
    destruct (q_pop_cases _ (ci_q _ _ Hi)) as [[Eq Ep]|(p & l & q' & Eq & Ep & Ei & Ec & Hq')];
      rewrite Ep in E; cbn in E; injection E as <-; split; cbn; try done; [by rewrite Ec|].
    rewrite Ei. rewrite Eq in Hnull. cbn in Hnull. destruct (negb (p =? nullptr)); [by injection Hnull|].
    exfalso. apply (f_equal length) in Hnull. pose proof (List.filter_length_le (λ p, negb (p =? nullptr)) l).
    cbn in Hnull. lia.
  - destruct (c_consumer s) as [|p|] eqn:Ec; try done.
    destruct (al_live (c_pool s) !! p) as [v|] eqn:Ev; [|done]. cbn [mbind option_bind] in E.
    destruct (al_free_live sp p v (c_pool s) (ci_al _ _ Hi) Ev) as (p' & Ef & Hl & _).
    rewrite Ef in E. cbn [mbind option_bind] in E. injection E as <-. split; cbn; try done.
    intros a Ea. destruct (Hfl a Ea) as (Ha & Hs & Hav). rewrite Hl, lookup_delete_ne; [done|].
    intros <-. pose proof (ci_nodup _ _ Hi) as Hnd. unfold pointers, held, flying in Hnd.
    rewrite Ec, Ea, nonnull_one in Hnd by done. apply NoDup_cons in Hnd as [Hnd _]. apply Hnd.
    rewrite !elem_of_app, list_elem_of_singleton. auto.
Qed.

Lemma good_reach N cap s s' : (N ≤ cap)%nat → chan_good N cap s → chan_reach s s' → chan_good N cap s'.
Proof using All.
  intros HN Hg Hr. induction Hr as [|s s1 s' [l E] _ IH]; [done|]. apply IH. clear IH.
  destruct l as [sp| |n| |sp].
  - by eapply good_make.
  - by eapply good_push.
  - cbn in E. destruct (other n (c_local s)) as [l'|] eqn:El; [|done]. cbn in E. injection E as <-.
    destruct Hg as [Hi Hwf Hcap Hbud Hleak Hnull Hfl Hscr]. destruct (ll_other n _ _ Hwf El) as (Hwf' & Hb & Hs & Hp).
    split; cbn; try done; [by destruct Hi|lia| |congruence].
    intros a Ea. destruct (Hfl a Ea) as (? & Hsome & ?). rewrite Hp by done. done.
  - apply (good_consumer N cap s CPop); [by left|done..].
  - apply (good_consumer N cap s (CHandle sp)); [right; by exists sp|done..].
Qed.

(** The consumer has met the sentinel, which the producer sends last: every
    event was handled, in order, and every cell is back in the pool. *)
Lemma good_complete N cap s g v :
  chan_good N cap s → c_consumer s = Stopped → c_flight s = None →
  script (c_local s) = g ++ [v] → Forall (λ v, stop v = false) g →
  c_got s = g ++ [v] ∧ q_items (c_queue s) = [] ∧ al_live (c_pool s) = ∅ ∧ al_room (c_pool s) = cap.
Proof.
  intros Hg Hc Hf Hs Hall. pose proof (chan_live_count _ _ (cg_inv _ _ _ Hg)) as Hcount.
  destruct Hg as [Hi Hwf Hcap Hbud Hleak Hnull Hfl Hscr].
  pose proof (ci_stop _ _ Hi) as Hst. rewrite Hc in Hst. destruct Hst as (g' & v' & Eg & Hv' & Hg').
  pose proof (ci_fifo _ _ Hi) as Hfifo. rewrite Hscr, Hs, Eg in Hfifo.
  set (rest := values _ _) in Hfifo. assert (rest = []) as Erest.
  { destruct (exists_last_or_nil rest) as [->|(r & x & Er)]; [done|]. rewrite Er, app_assoc in Hfifo.
    apply app_inj_tail in Hfifo as [Hg1 _]. rewrite Hg1 in Hall. rewrite !Forall_app in Hall.
    destruct Hall as [[_ Hv] _]. apply Forall_cons in Hv as [Hv _]. congruence. }
  rewrite Erest, app_nil_r in Hfifo. apply app_inj_tail in Hfifo as [<- <-].
  assert (size (al_live (c_pool s)) = 0%nat) as H0.
  { rewrite Hscr, Hs, Eg, Hleak in Hcount. unfold flying in Hcount. rewrite Hf in Hcount. cbn in Hcount. lia. }
  split; [done|]. pose proof (ci_room _ _ Hi). split; [|split; [by apply map_size_empty_inv|lia]].
  assert (length rest = length (held s ++ nonnull (q_items (c_queue s)))) as Hlen.
  { apply values_length. intros a Ha. apply (ci_live _ _ Hi). unfold pointers. rewrite app_assoc. apply elem_of_app. by left. }
  rewrite Erest, length_app, Hnull in Hlen. cbn in Hlen. destruct (q_items (c_queue s)); [done|cbn in Hlen; lia].
Qed.

End channel.

Arguments chan P Q V L : clear implicits.
