(* ===== verification/Workers.v ===== *)
(** * The two-thread programs (examples/02_concurrency_and_routing/01,
      examples/03_resilience_and_control/02 and 03)

    Instances of Channel.v: the telemetry bus, the heartbeat and the graceful
    drain.  Each gives the local machine of its producer thread and the
    sentinel of its consumer; the theorems hold for every interleaving of the
    two threads, over any pool and any conduit with enough room. *)

From Stdlib Require Import String SpecFloat.
From S2P Require Import Prelude EventPtr Interfaces Pool Conduit Double Stages Channel.

Local Open Scope Z_scope.

(** ** 03_graceful_drain.cpp *)

Module Drain.

Record work_event := Work { id : Z; is_poison_pill : bool }.

Definition pill : work_event := Work (-1) true.

(** The main thread: at the test of the loop, at the push, at the test of the
    counter, at the push of the pill, at the join. *)
Inductive phase := Test | Push | Check | PushPill | Join.

Record main_thread := Main {
  event_counter : Z;
  global_shutdown_requested : bool;
  at_ : phase }.

Definition main_start : main_thread := Main 0 false Test.

(** The event of the push the thread is at. *)
Definition produce (m : main_thread) : option work_event :=
  match at_ m with
  | Push => Some (Work (event_counter m) false)
  | PushPill => Some pill
  | _ => None
  end.

(** After the push: the counter was incremented with the argument; the pill is
    pushed until it is accepted. *)
Definition advance (m : main_thread) (accepted : bool) : main_thread :=
  match at_ m with
  | Push => Main (event_counter m + 1) (global_shutdown_requested m) Check
  | PushPill => if accepted then Main (event_counter m) (global_shutdown_requested m) Join else m
  | _ => m
  end.

(** The other steps: 0 is the test of the loop, 1 the test of the counter, 2
    the signal handler. *)
Definition other (n : Z) (m : main_thread) : option main_thread :=
  match at_ m with
  | Test => if n =? 0 then
              Some (Main (event_counter m) (global_shutdown_requested m)
                      (if global_shutdown_requested m then PushPill else Push))
            else if n =? 2 then Some (Main (event_counter m) true Test) else None
  | Check => if n =? 1 then
               Some (Main (event_counter m)
                       (if event_counter m =? 50 then true else global_shutdown_requested m) Test)
             else if n =? 2 then Some (Main (event_counter m) true Check) else None
  | p => if n =? 2 then Some (Main (event_counter m) true p) else None
  end.

(** The worker counts until it meets the pill. *)
Definition stop (e : work_event) : bool := is_poison_pill e.
Definition processed (got : list work_event) : nat := length (List.filter (λ e, negb (is_poison_pill e)) got).

(** *** The events of a run *)

Definition works (n : Z) : list work_event := (λ i, Work i false) <$> seqZ 0 n.

Definition wf (m : main_thread) : Prop :=
  0 ≤ event_counter m ≤ 50 ∧
  match at_ m with
  | Test => event_counter m = 50 → global_shutdown_requested m = true
  | Push => event_counter m < 50
  | _ => True
  end.

Definition budget (m : main_thread) : nat :=
  match at_ m with
  | PushPill => 1
  | Join => 0
  | _ => Z.to_nat (50 - event_counter m) + 1
  end.

Definition script (m : main_thread) : list work_event :=
  works (event_counter m) ++ match at_ m with Join => [pill] | _ => [] end.

Lemma works_succ n : 0 ≤ n → works (n + 1) = works n ++ [Work n false].
Proof.
  intros Hn. unfold works. rewrite seqZ_app by lia. rewrite fmap_app. f_equal.
Qed.

Lemma processed_works n : 0 ≤ n ≤ 50 → Z.of_nat (processed (works n ++ [pill])) = n.
Proof.
  intros Hn. unfold processed. rewrite List.filter_app. cbn. rewrite app_nil_r.
  assert (List.filter (λ e, negb (is_poison_pill e)) (works n) = works n) as ->.
  { unfold works. generalize (seqZ 0 n). intros l. induction l as [|i l IH]; [done|]. cbn in *. by rewrite IH. }
  unfold works. rewrite length_fmap, length_seqZ. lia.
Qed.

#[export] Instance drain_lossless : Lossless produce advance other wf budget script.
Proof.
  split.
  - intros [c sd p] v [Hc Hp] Hv. destruct p; cbn in *; try done; injection Hv as <-.
    + split; [split; cbn; [lia|done]|]. split; [unfold budget; cbn; lia|].
      unfold script. cbn. by rewrite !app_nil_r, works_succ by lia.
    + split; [done|]. split; [unfold budget; cbn; lia|]. unfold script. cbn. by rewrite app_nil_r.
  - intros n [c sd p] m' [Hc Hp] Hm. unfold other in Hm. cbn in Hc, Hp, Hm. unfold wf, budget, script, produce.
    destruct p; destruct (Z.eqb_spec n 2) as [->|]; cbn in Hm;
      repeat match type of Hm with context [n =? ?k] => destruct (Z.eqb_spec n k) end; try done;
      inv_some; cbn; destruct (Z.eqb_spec c 50); try destruct sd; cbn; split_and!; try done; try lia; by intros [].
Qed.

Section drain.
Context {P Q : Type} `{AllocatorLaws P work_event} `{QueueLaws Q}.

Abbreviation state := (chan P Q work_event main_thread).

Definition drain_start (p : P) (q : Q) : state := chan_start p q main_start.
Definition reachable (s s' : state) : Prop := chan_reach produce advance other stop s s'.

(** Both threads are through: the pill was accepted, the worker has left its
    loop. *)
Definition joined (s : state) : Prop := at_ (c_local s) = Join ∧ c_consumer s = Stopped.

(** What the two threads have when the conduit and the pool are large enough. *)
Lemma drain_good_facts cap (s : state) :
  chan_good produce stop wf budget script 51 cap s →
  c_leaked s = [] ∧ c_sent s = script (c_local s) ∧ c_got s `prefix_of` c_sent s ∧
  (joined s → c_got s = works (event_counter (c_local s)) ++ [pill] ∧
              Z.of_nat (processed (c_got s)) = event_counter (c_local s) ∧
              q_items (c_queue s) = [] ∧ al_live (c_pool s) = ∅ ∧ al_room (c_pool s) = cap).
Proof.
  intros Hg. pose proof (cg_inv _ _ _ _ _ _ _ _ Hg) as Hinv.
  split; [apply Hg|]. split; [apply Hg|]. split; [rewrite (ci_fifo _ _ _ Hinv); by eexists|].
  intros [Hj Hs].
  assert (c_flight s = None) as Hf.
  { destruct (c_flight s) as [a|] eqn:Ef; [|done].
    destruct (cg_flight _ _ _ _ _ _ _ _ Hg a Ef) as (_ & [v Hv] & _). unfold produce in Hv. by rewrite Hj in Hv. }
  destruct (good_complete _ _ _ _ _ _ _ _ (works (event_counter (c_local s))) pill Hg Hs Hf) as (Hgot & ? & ? & ?).
  { unfold script. by rewrite Hj. }
  { unfold works. apply Forall_fmap, Forall_true. done. }
  split; [done|]. split; [|done]. rewrite Hgot. destruct (cg_wf _ _ _ _ _ _ _ _ Hg) as [Hc _].
  by apply processed_works.
Qed.

(** The graceful drain loses nothing.  For every interleaving of the main
    thread, the worker and the signal, over a fresh pool and a conduit with
    room for the at most 50 events and the pill: no step touches a dead object
    or overruns the conduit; the events accepted are numbered without gaps and
    the worker handles them in order; no push is ever refused, so no cell is
    lost; and once the worker was joined it has processed every event the main
    thread generated, the conduit is empty and every cell is back in the pool. *)
Theorem drain_complete p q s :
  al_inv p → al_live p = ∅ → q_inv q → q_items q = [] → (51 ≤ al_room p)%nat → (51 ≤ q_cap q)%nat →
  reachable (drain_start p q) s →
  (∀ l, chan_enabled produce other l s = true → is_Some (chan_step produce advance other stop l s)) ∧
  c_leaked s = [] ∧ c_sent s = script (c_local s) ∧ c_got s `prefix_of` c_sent s ∧
  (joined s → c_got s = works (event_counter (c_local s)) ++ [pill] ∧
              Z.of_nat (processed (c_got s)) = event_counter (c_local s) ∧
              q_items (c_queue s) = [] ∧ al_live (c_pool s) = ∅ ∧ al_room (c_pool s) = al_room p).
Proof.
  intros Hp Hl Hq Hi Hroom Hcap Hr.
  assert (chan_good produce stop wf budget script 51 (al_room p) s) as Hg.
  { apply (good_reach produce advance other stop wf budget script 51 (al_room p) (drain_start p q)); [done| |done].
    by apply chan_start_good. }
  split; [|by apply drain_good_facts]. intros l Hen.
  by destruct (chan_step_ok _ advance _ _ _ _ _ (cg_inv _ _ _ _ _ _ _ _ Hg) Hen) as (s' & -> & _).
Qed.

End drain.

(** *** A run: one event, the signal, the pill *)

Definition drain_schedule : list chan_label :=
  [PLocal 0; PMake []; CPop; PPush; PLocal 1; CPop; PLocal 2; PLocal 0; PMake []; CHandle []; PPush; CPop; CHandle []].

Lemma drain_complete_witness :
  ∃ (p : pool work_event) s, pool_ctor 4096 16 64 = Some p ∧
    chan_run produce advance other stop drain_schedule
      (drain_start p (conduit_ctor (replicate 64 0) : conduit 64)) = Some s ∧
    c_got s = [Work 0 false; pill] ∧ al_room (c_pool s) = 64%nat.
Proof.
  destruct (pool_ctor_fresh (T := work_event) 4096 16 64) as (p & E & Hinv & Hlive & Hfl); [unfold END; lia..|].
  destruct (conduit_ctor_inv (Size := 64) (replicate 64 0)) as [Hc Hi]; [lia|done|].
  destruct (chan_run produce advance other stop drain_schedule
    (drain_start p (conduit_ctor (replicate 64 0) : conduit 64))) as [s|] eqn:Es;
    [|vm_compute in E; injection E as <-; vm_compute in Es; discriminate Es].
  assert (al_room p = 64%nat) as Hroom by (cbn; by rewrite Hfl).
  destruct (drain_complete p (conduit_ctor (replicate 64 0) : conduit 64) s) as (_ & _ & _ & _ & Hj).
  - by exists (seqZ 0 64).
  - done.
  - done.
  - done.
  - rewrite Hroom. lia.
  - vm_compute. lia.
  - by eapply chan_run_reach.
  - exists p, s. split; [done|]. split; [done|].
    assert (joined s ∧ event_counter (c_local s) = 1) as [Hjoin Hcnt].
    { vm_compute in E. injection E as <-. vm_compute in Es. injection Es as <-. done. }
    destruct (Hj Hjoin) as (Hgot & _ & _ & _ & Hr). rewrite Hgot, Hcnt, Hr, Hroom. split; reflexivity.
Defined.

End Drain.

(** *** When the conduit is full

    The loop around the pill makes a new event at every attempt and loses the
    pointer when the push is refused; with a smaller conduit than the one of
    the program the attempts use up the pool, the next [make] yields null, the
    null is accepted, and the pill never arrives. *)

Definition overrun_schedule : list chan_label :=
  [PLocal 0; PMake []; PPush; PLocal 1; PLocal 2; PLocal 0; PMake []; PPush; PMake []; PPush;
   PMake []; CPop; CHandle []; PPush; CPop].

(** Main waits for a worker that finds its conduit empty; two of the three
    cells hold events nobody points to. *)
Example pill_lost :
  (p ← pool_ctor (T := Drain.work_event) 4096 16 3;
   s ← chan_run Drain.produce Drain.advance Drain.other Drain.stop overrun_schedule
         (Drain.drain_start p (conduit_ctor [0; 0] : conduit 2));
   Some (Drain.at_ (c_local s), c_consumer s, items (c_queue s), length (c_leaked s), size (al_live (c_pool s))))
  = Some (Drain.Join, Idle, [], 2%nat, 2%nat).
Proof. vm_compute. reflexivity. Qed.

(** ** 01_lockfree_spsc_bus.cpp *)

Module Bus.

Record telemetry_event := Telemetry { sensor_id : Z; value : double }.

(** The three pushes of [main]; the last is the poison pill. *)
Definition traffic : list telemetry_event :=
  [Telemetry 1 (lit 425 1); Telemetry 2 (lit 999 1); Telemetry (-1) (of_Z 0)].

(** The main thread is at push number [k]; the answer of [push] is ignored. *)
Definition produce (k : nat) : option telemetry_event := traffic !! k.
Definition advance (k : nat) (accepted : bool) : nat := S k.
Definition other (n : Z) (k : nat) : option nat := None.

Definition stop (e : telemetry_event) : bool := sensor_id e =? -1.

(** What the thread prints for the events it got. *)
Definition printed (got : list telemetry_event) : list line :=
  (λ e, [Txt "[Thread] Processed sensor "; Int (sensor_id e); Txt " value: "; Dbl (value e)]) <$>
    List.filter (λ e, negb (stop e)) got.

#[export] Instance bus_lossless :
  Lossless produce advance other (λ k, (k ≤ 3)%nat) (λ k, 3 - k)%nat (λ k, take k traffic).
Proof.
  split; [|done]. intros k v Hk Hv. unfold advance. pose proof (lookup_lt_Some _ _ _ Hv) as Hlt. cbn in Hlt.
  split; [lia|]. split; [lia|]. by apply take_S_r.
Qed.

Section bus.
Context {P Q : Type} `{AllocatorLaws P telemetry_event} `{QueueLaws Q}.

(** What the threads have when the bus and the pool are large enough: when the
    consumer has left its loop it has printed both readings in order, the bus is
    empty and the pool complete. *)
Lemma bus_good_facts cap (s : chan P Q telemetry_event nat) :
  chan_good produce stop (λ k, (k ≤ 3)%nat) (λ k, 3 - k)%nat (λ k, take k traffic) 3 cap s →
  c_local s = 3%nat → c_consumer s = Stopped →
  printed (c_got s) = [[Txt "[Thread] Processed sensor "; Int 1; Txt " value: "; Dbl (lit 425 1)];
                       [Txt "[Thread] Processed sensor "; Int 2; Txt " value: "; Dbl (lit 999 1)]] ∧
  q_items (c_queue s) = [] ∧ al_room (c_pool s) = cap.
Proof.
  intros Hg Hk Hs. assert (c_flight s = None) as Hf.
  { destruct (c_flight s) as [a|] eqn:Ef; [|done].
    destruct (cg_flight _ _ _ _ _ _ _ _ Hg a Ef) as (_ & [v Hv] & _). by rewrite Hk in Hv. }
  destruct (good_complete _ _ _ _ _ _ _ _ (take 2 traffic) (Telemetry (-1) (of_Z 0)) Hg Hs Hf)
    as (-> & ? & ? & ?); [by rewrite Hk|by repeat constructor|]. done.
Qed.

End bus.
End Bus.

(** ** 02_heartbeat_timeouts.cpp *)

Module Heartbeat.

(** The event is its timestamp.  The chronos thread: the heartbeats pushed so
    far, and whether it is asleep, at the push of a heartbeat, at the push of
    the exit signal, or through. *)
Inductive chronos_at := Asleep | Beat (now : Z) | ExitSignal | Through.

Record chronos := Chronos { beats : list Z; c_at : chronos_at }.

Definition chronos_start : chronos := Chronos [] Asleep.

Definition produce (c : chronos) : option Z :=
  match c_at c with Beat now => Some now | ExitSignal => Some 0 | _ => None end.

(** A refused heartbeat is made again; the answer to the exit signal is
    ignored. *)
Definition advance (c : chronos) (accepted : bool) : chronos :=
  match c_at c with
  | Beat now =>
      if accepted
      then Chronos (beats c ++ [now]) (if (length (beats c) <? 2)%nat then Asleep else ExitSignal)
      else c
  | ExitSignal => Chronos (beats c) Through
  | _ => c
  end.

(** Waking up: [ticks] is the count of the system clock, in nanoseconds. *)
Definition other (ticks : Z) (c : chronos) : option chronos :=
  match c_at c with
  | Asleep => Some (Chronos (beats c) (Beat (u64 (Z.quot ticks 1000000))))
  | _ => None
  end.

Definition stop (timestamp_ms : Z) : bool := timestamp_ms =? 0.

(** [connection_monitor::on]: the idle time and whether the session is
    dropped. *)
Definition monitor_on (last_activity_ms timestamp_ms : Z) : Z * bool :=
  let idle_time := u64 (timestamp_ms - last_activity_ms) in (idle_time, 2000 <? idle_time).

(** What the main loop hands to the monitor. *)
Definition monitored (last_activity_ms : Z) (got : list Z) : list (Z * bool) :=
  monitor_on last_activity_ms <$> List.filter (λ t, negb (stop t)) got.

Definition wf (c : chronos) : Prop :=
  match c_at c with
  | Asleep => (length (beats c) ≤ 2)%nat
  | Beat _ => (length (beats c) ≤ 2)%nat
  | _ => length (beats c) = 3%nat
  end.

Definition budget (c : chronos) : nat :=
  match c_at c with ExitSignal => 1 | Through => 0 | _ => 4 - length (beats c) end.

Definition script (c : chronos) : list Z := beats c ++ match c_at c with Through => [0] | _ => [] end.

#[export] Instance heartbeat_lossless : Lossless produce advance other wf budget script.
Proof.
  split.
  - intros [bs []] v Hw Hv; unfold wf, budget, script, advance, produce in *; cbn in *; try done; injection Hv as <-.
    + rewrite length_app. cbn. destruct (Nat.leb_spec (length bs) 1); rewrite ?app_nil_r; split_and!; try done; lia.
    + rewrite app_nil_r. split_and!; [done|lia|done].
  - intros n [bs []] c' Hw Hc; unfold wf, budget, script, other, produce in *; cbn in *; try done; injection Hc as <-.
    cbn. split_and!; [done|lia|done|]. by intros [].
Qed.

Section heartbeat.
Context {P Q : Type} `{AllocatorLaws P Z} `{QueueLaws Q}.

(** When both loops have ended, the monitor was called with the three
    heartbeats in order, and the conduit and the pool are as at the start
    (a heartbeat whose time is 0 would be taken for the exit signal). *)
Lemma heartbeat_good_facts last cap (s : chan P Q Z chronos) :
  chan_good produce stop wf budget script 4 cap s →
  c_at (c_local s) = Through → c_consumer s = Stopped → 0 ∉ beats (c_local s) →
  monitored last (c_got s) = monitor_on last <$> beats (c_local s) ∧ length (beats (c_local s)) = 3%nat ∧
  q_items (c_queue s) = [] ∧ al_room (c_pool s) = cap.
Proof.
  intros Hg Hk Hs Hz. assert (c_flight s = None) as Hf.
  { destruct (c_flight s) as [a|] eqn:Ef; [|done].
    destruct (cg_flight _ _ _ _ _ _ _ _ Hg a Ef) as (_ & [v Hv] & _). unfold produce in Hv. by rewrite Hk in Hv. }
  assert (∀ l, 0 ∉ l → List.filter (λ t, negb (stop t)) l = l) as Hfil.
  { intros l. induction l as [|t l IH]; [done|]. intros Ht%not_elem_of_cons. destruct Ht as [Ht Hl']. cbn.
    unfold stop at 1. rewrite (proj2 (Z.eqb_neq _ _)) by done. cbn. by rewrite IH. }
  destruct (good_complete _ _ _ _ _ _ _ _ (beats (c_local s)) 0 Hg Hs Hf) as (-> & ? & ? & ?).
  { unfold script. by rewrite Hk. }
  { apply Forall_forall. intros t Ht. apply Z.eqb_neq. by intros ->. }
  pose proof (cg_wf _ _ _ _ _ _ _ _ Hg) as Hw. unfold wf in Hw. rewrite Hk in Hw.
  split; [|done]. unfold monitored. rewrite List.filter_app, Hfil by done. cbn. by rewrite app_nil_r.
Qed.

End heartbeat.

(** The clock is the system clock: when it is set back, the difference wraps
    and the session is dropped although the connection was never idle. *)
Lemma clock_set_back_drops last now :
  0 ≤ now < last → last < 2 ^ 63 → (monitor_on last now).2 = true.
Proof.
  intros Hn Hl. unfold monitor_on. cbn [snd]. apply Z.ltb_lt. unfold wrap.
  rewrite <-(Z_mod_plus_full (now - last) 1), Z.mod_small; lia.
Qed.

End Heartbeat.
