(* ===== verification/RoutingExamples.v ===== *)
(** * The routing programs (examples/04_showcase/02, examples/02_concurrency_and_routing/02 and 03)

    The deterministic router of the showcase, a program without input whose
    whole run is computed, and the sharding programs, in which a
    [round_robin_switch] deals tasks to two worker threads.  Their calls on the
    tracks are single steps; those on the pool are split (PoolClient.v). *)

From Stdlib Require Import String SpecFloat.
From S2P Require Import Prelude EventPtr Interfaces Pool PoolWeak PoolClient Conduit Routing Double Stages Showcase Channel.

Local Open Scope Z_scope.

(** ** 02_deterministic_network_routing.cpp *)

Module NetworkRouting.

Record market_tick := Tick { feed_source : Z; price : double }.

Abbreviation W := (world market_tick (list line)).

(** [feed.push(memory.make(src, p).release())]; the answer is ignored. *)
Definition push_tick {Size} (src : Z) (p : double) (c : conduit Size) (w : W) : option (conduit Size * W) :=
  '(ev, w1) ← world_make [] [] (Tick src p) this_pool w;
  let '(ptr, ev') := ep_release ev in
  '(_, c') ← push ptr c;
  w2 ← ep_destroy ev' w1;
  Some (c', w2).

(** [while (auto tick = ingress_router.poll(memory))]: print the tick, hand it
    to the switch, count; the pointer is destroyed at the end of the body. *)
Fixpoint polling_loop (fuel : nat) (po : round_robin_poller) (ins : gmap Z (conduit 1024))
    (sw : round_robin_switch) (outs : gmap Z (conduit 1)) (routed_count : Z) (w : W)
    : option (Z * gmap Z (conduit 1) * W) :=
  match fuel with
  | O => None
  | S fuel' =>
      '(tick, po1, ins1) ← poll (world_release []) this_pool po ins;
      if negb (ep_bool tick) then Some (routed_count, outs, w)
      else
        q ← w_pools w !! this_pool;
        v ← object_at q (ptr_ tick);
        let w1 := cout [Txt "  -> Polled tick from Feed "; Int (feed_source v); Txt " | Price: $"; Dbl (price v)] w in
        '(tick', sw1, outs1) ← switch_on tick sw outs;
        w2 ← ep_destroy tick' w1;
        polling_loop fuel' po1 ins1 sw1 outs1 (routed_count + 1) w2
  end.

(** Addresses of the conduits. *)
Definition feed_primary : Z := 101.
Definition feed_backup : Z := 102.
Definition exchange_a : Z := 201.
Definition exchange_b : Z := 202.

Definition yes_no (b : bool) : tok := Txt (if b then "YES" else "NO")%string.

Definition main_program (w : W) : option W :=
  let w := cout [Txt "=== Showcase 02: Deterministic Network Routing ==="] w in
  let c0 := conduit_ctor (replicate 1024 0) in
  let po := poller_bind 1 feed_backup (poller_bind 0 feed_primary (poller_ctor 2)) in
  '(c1, w) ← push_tick 0 (lit 450025 2) c0 w;
  '(c1, w) ← push_tick 0 (lit 450050 2) c1 w;
  '(c2, w) ← push_tick 1 (lit 450030 2) c0 w;
  let e0 := conduit_ctor [0] in
  let sw := switch_bind 1 exchange_b (switch_bind 0 exchange_a (switch_ctor 2)) in
  let w := cout [Txt "[ROUTER] Starting polling loop..."] w in
  '(routed_count, outs, w) ← polling_loop 10 po {[feed_primary := c1; feed_backup := c2]} sw
                               {[exchange_a := e0; exchange_b := e0]} 0 w;
  let w := cout [Txt "[ROUTER] Ingress queues empty. Routed "; Int routed_count; Txt " ticks."] w in
  let w := cout [Txt "[SWITCH] Checking egress queues (Capacity: 1 each)..."] w in
  qa ← outs !! exchange_a;
  '(out_a, _) ← pop (world_release []) this_pool qa;
  qb ← outs !! exchange_b;
  '(out_b, _) ← pop (world_release []) this_pool qb;
  let w := cout [Txt "  Exchange A has data: "; yes_no (ep_bool out_a)] w in
  let w := cout [Txt "  Exchange B has data: "; yes_no (ep_bool out_b)] w in
  w ← ep_destroy out_b w;
  ep_destroy out_a w.

(** The program polls the feeds alternately and counts three ticks as routed,
    but none of them reaches an exchange: a conduit of size 1 holds nothing, so
    the switch refuses every tick and all of them go back to the pool. *)
Example network_routing_output :
  (w ← one_pool this_pool 4096 16 256 [];
   w' ← main_program w;
   q ← w_pools w' !! this_pool;
   Some (w_st w', size (live q))) = Some ([
    [Txt "=== Showcase 02: Deterministic Network Routing ==="];
    [Txt "[ROUTER] Starting polling loop..."];
    [Txt "  -> Polled tick from Feed "; Int 0; Txt " | Price: $"; Dbl (lit 450025 2)];
    [Txt "  -> Polled tick from Feed "; Int 1; Txt " | Price: $"; Dbl (lit 450030 2)];
    [Txt "  -> Polled tick from Feed "; Int 0; Txt " | Price: $"; Dbl (lit 450050 2)];
    [Txt "[ROUTER] Ingress queues empty. Routed "; Int 3; Txt " ticks."];
    [Txt "[SWITCH] Checking egress queues (Capacity: 1 each)..."];
    [Txt "  Exchange A has data: "; Txt "NO"];
    [Txt "  Exchange B has data: "; Txt "NO"]], 0%nat).
Proof. vm_compute. reflexivity. Qed.

End NetworkRouting.

(** ** 02_fan_in_polling.cpp and 03_sharding.cpp

    The two programs differ in the number of tasks only (100000 and 2000).  The
    main thread makes a task and hands it to the switch, again and again; at the
    end it makes two poison pills and hands them over.  An event the switch
    refuses returns to the pool with the local variable that holds it. *)

Module Sharding.

(** The statements of [main]: [auto x = memory.make(job)] and
    [load_balancer.on(x)] for the oldest event not handed over yet. *)
Inductive action := AMake (job : Z) | AOn.

Definition main_actions (tasks : Z) : list action :=
  (seqZ 0 tasks ≫= λ i, [AMake i; AOn]) ++ [AMake (-1); AMake (-1); AOn; AOn].

(** [shard_worker]: where it is and the jobs it took, the pill included. *)
Record worker := Wk { wk_at : consumer; wk_got : list Z }.

Definition stop (job_id : Z) : bool := job_id =? -1.
Definition processed (w : worker) : nat := length (List.filter (λ j, negb (stop j)) (wk_got w)).

(** The addresses of [track_A] and [track_B], and of the pool. *)
Definition track (b : bool) : Z := if b then 2 else 1.
Definition memory : Z := 7.

Section sharding.
Context {P Q : Type} `{!Allocator P Z} `{!Queue Q}.

Definition give_back : deleter P := λ _ ptr p, al_free [] ptr p.

Record shards := Shards {
  s_pool : P;
  s_tracks : gmap Z Q;
  s_switch : round_robin_switch;
  s_main : list action;
  s_flight : list (event_ptr P);
  s_worker : bool → worker }.

(** A step of the main thread or of a worker; [sp] says which compare-and-swap
    attempts of the pool fail spuriously. *)
Inductive label := MainStep (sp : list bool) | WPop (b : bool) | WHandle (b : bool) (sp : list bool).

Definition set_worker (b : bool) (w : worker) (f : bool → worker) : bool → worker :=
  λ b', if Bool.eqb b' b then w else f b'.

Definition shard_step (l : label) (s : shards) : option shards :=
  match l with
  | MainStep sp =>
      match s_main s with
      | AMake job :: rest =>
          '(ptr, p') ← al_make sp job (s_pool s);
          let ev := if ptr =? nullptr then ep_null else ep_make ptr give_back memory in
          Some (Shards p' (s_tracks s) (s_switch s) rest (s_flight s ++ [ev]) (s_worker s))
      | AOn :: rest =>
          match s_flight s with
          | ev :: fl =>
              '(ev', sw', ts') ← switch_on ev (s_switch s) (s_tracks s);
              p' ← ep_destroy ev' (s_pool s);
              Some (Shards p' ts' sw' rest fl (s_worker s))
          | [] => None
          end
      | [] => None
      end
  | WPop b =>
      match wk_at (s_worker s b) with
      | Idle =>
          q ← s_tracks s !! track b;
          '(r, q') ← q_pop q;
          let ptr := default nullptr r in
          Some (Shards (s_pool s) (<[track b := q']> (s_tracks s)) (s_switch s) (s_main s) (s_flight s)
                  (set_worker b (Wk (if ptr =? nullptr then Idle else Have ptr) (wk_got (s_worker s b))) (s_worker s)))
      | _ => None
      end
  | WHandle b sp =>
      match wk_at (s_worker s b) with
      | Have ptr =>
          v ← al_live (s_pool s) !! ptr;
          p' ← al_free sp ptr (s_pool s);
          Some (Shards p' (s_tracks s) (s_switch s) (s_main s) (s_flight s)
                  (set_worker b (Wk (if stop v then Stopped else Idle) (wk_got (s_worker s b) ++ [v])) (s_worker s)))
      | _ => None
      end
  end.

(** The event an [on] gives back: the switch has refused it, and the pointer's
    destructor frees it at the end of the statement. *)
Definition refused (s : shards) : option Z :=
  match s_main s, s_flight s with
  | AOn :: _, ev :: _ =>
      '(ev', _, _) ← switch_on ev (s_switch s) (s_tracks s);
      if ptr_ ev' =? nullptr then None else Some (ptr_ ev')
  | _, _ => None
  end.

Definition shard_start (tasks : Z) (p : P) (qa qb : Q) : shards :=
  Shards p {[track false := qa; track true := qb]}
    (switch_bind 1 (track true) (switch_bind 0 (track false) (switch_ctor 2)))
    (main_actions tasks) [] (λ _, Wk Idle []).

(** [main] of the two programs. *)
Definition sharding (p : P) (qa qb : Q) : shards := shard_start 2000 p qa qb.
Definition fan_in_polling (p : P) (qa qb : Q) : shards := shard_start 100000 p qa qb.

Definition shard_reach (s s' : shards) : Prop := rtc (λ s s', ∃ l, shard_step l s = Some s') s s'.

(** ** The invariant of a run without overload *)

Fixpoint makes (acts : list action) : list Z :=
  match acts with [] => [] | AMake j :: r => j :: makes r | AOn :: r => makes r end.

(** Every [on] finds an event: [f] are in flight. *)
Fixpoint balanced (f : nat) (acts : list action) : Prop :=
  match acts with
  | [] => f = 0%nat
  | AMake _ :: r => balanced (S f) r
  | AOn :: r => match f with O => False | S f' => balanced f' r end
  end.

Definition script (tasks : Z) : list Z := seqZ 0 tasks ++ [-1; -1].

Definition at_worker (w : worker) : list Z := match wk_at w with Have p => [p] | _ => [] end.

(** What worker [b] has or will get: in its hands, then in its track. *)
Definition side (s : shards) (q : bool → Q) (b : bool) : list Z := at_worker (s_worker s b) ++ q_items (q b).

Definition shard_pointers (s : shards) (fl : list Z) (q : bool → Q) : list Z :=
  fl ++ side s q false ++ side s q true.

Definition bool_Z (b : bool) : Z := if b then 1 else 0.

Record shard_inv (tasks : Z) (C cap : nat) (s : shards) (sent fl : list Z) (q : bool → Q) : Prop := {
  si_al : al_inv (s_pool s);
  si_room : (al_room (s_pool s) + size (al_live (s_pool s)) = cap)%nat;
  si_tracks : s_tracks s = {[track false := q false; track true := q true]};
  si_q b : q_inv (q b) ∧ q_cap (q b) = C;
  si_switch : s_switch s = Switch [track false; track true] (Z.of_nat (length sent) `mod` 2);
  si_main : balanced (length fl) (s_main s);
  si_script : sent ++ values (al_live (s_pool s)) fl ++ makes (s_main s) = script tasks;
  si_flight : s_flight s = (λ a, ep_make a give_back memory) <$> fl;
  si_nodup : NoDup (shard_pointers s fl q);
  si_null : nullptr ∉ shard_pointers s fl q;
  si_live a : is_Some (al_live (s_pool s) !! a) ↔ a ∈ shard_pointers s fl q;
  si_dealt b : wk_got (s_worker s b) ++ values (al_live (s_pool s)) (side s q b) = dealt 2 0 (bool_Z b) sent;
  si_stop b : match wk_at (s_worker s b) with
              | Stopped => ∃ g, wk_got (s_worker s b) = g ++ [-1] ∧ -1 ∉ g
              | _ => -1 ∉ wk_got (s_worker s b)
              end }.

Lemma side_perm s fl q b :
  shard_pointers s fl q ≡ₚ side s q b ++ fl ++ side s q (negb b).
Proof. unfold shard_pointers. destruct b; cbn [negb]; solve_Permutation. Qed.

Lemma dealt_app {A} N x j (l1 l2 : list A) :
  dealt N x j (l1 ++ l2) = dealt N x j l1 ++ dealt N (x + Z.of_nat (length l1)) j l2.
Proof.
  revert x. induction l1 as [|a l1 IH]; intros x; cbn [app dealt length].
  - by rewrite Z.add_0_r.
  - rewrite IH, <-app_assoc. do 2 f_equal. f_equal. lia.
Qed.

Context `{!AllocatorLaws P Z} `{!QueueLaws Q}.

Lemma balanced_tasks l f acts : balanced f acts → balanced f ((l ≫= λ i : Z, [AMake i; AOn]) ++ acts).
Proof. induction l as [|i l IH]; [done|]. intros H. rewrite bind_cons. cbn. by apply IH. Qed.

Lemma makes_tasks l acts : makes ((l ≫= λ i : Z, [AMake i; AOn]) ++ acts) = l ++ makes acts.
Proof. induction l as [|i l IH]; [done|]. rewrite bind_cons. cbn. by rewrite IH. Qed.

Lemma shard_start_inv tasks p qa qb C :
  al_inv p → al_live p = ∅ → q_inv qa → q_items qa = [] → q_inv qb → q_items qb = [] →
  q_cap qa = C → q_cap qb = C →
  shard_inv tasks C (al_room p) (shard_start tasks p qa qb) [] [] (λ b, if b then qb else qa).
Proof.
  intros Hp Hl Hqa Hia Hqb Hib Hca Hcb.
  assert (∀ b, side (shard_start tasks p qa qb) (λ b, if b then qb else qa) b = []) as Hside
    by (intros []; unfold side; cbn; [by rewrite Hib|by rewrite Hia]).
  split; unfold shard_pointers; rewrite ?Hside; cbn -[values seqZ side]; try done.
  - rewrite Hl, map_size_empty. lia.
  - by intros [].
  - by apply balanced_tasks.
  - unfold main_actions. by rewrite makes_tasks.
  - constructor.
  - apply not_elem_of_nil.
  - intros a. rewrite Hl, lookup_empty, elem_of_nil. split; [by intros []|done].
  - intros b. by rewrite Hside.
  - intros b. apply not_elem_of_nil.
Qed.

(** ** Counting *)

Lemma dealt_both {A} x (l : list A) : (length (dealt 2 x 0 l) + length (dealt 2 x 1 l) = length l)%nat.
Proof.
  revert x. induction l as [|a l IH]; intros x; [done|]. cbn [dealt length]. rewrite !length_app. specialize (IH (x + 1)).
  pose proof (Z.mod_pos_bound x 2 ltac:(lia)). assert (x `mod` 2 = 0 ∨ x `mod` 2 = 1) as [-> | ->] by lia; cbn; lia.
Qed.

Section counting.
Context {tasks : Z} {C cap : nat} {s : shards} {sent fl : list Z} {q : bool → Q} (Hi : shard_inv tasks C cap s sent fl q).

Lemma side_live b a : a ∈ side s q b → is_Some (al_live (s_pool s) !! a).
Proof using Hi. intros Ha. apply (si_live _ _ _ _ _ _ _ Hi). rewrite (side_perm _ _ _ b), elem_of_app. by left. Qed.

Lemma side_length b :
  (length (wk_got (s_worker s b)) + length (side s q b) = length (dealt 2 0 (bool_Z b) sent))%nat.
Proof using Hi.
  rewrite <-(si_dealt _ _ _ _ _ _ _ Hi b), length_app, values_length; [done|]. by apply side_live.
Qed.

Lemma flight_length : (length sent + length fl + length (makes (s_main s)) = length (script tasks))%nat.
Proof using Hi.
  rewrite <-(si_script _ _ _ _ _ _ _ Hi), !length_app, values_length; [lia|]. intros a Ha.
  apply (si_live _ _ _ _ _ _ _ Hi). apply elem_of_app. by left.
Qed.

Lemma shard_live_count : size (al_live (s_pool s)) = (length fl + length (side s q false) + length (side s q true))%nat.
Proof using Hi.
  rewrite (size_keys _ (shard_pointers s fl q) (si_nodup _ _ _ _ _ _ _ Hi) (si_live _ _ _ _ _ _ _ Hi)).
  unfold shard_pointers. rewrite !length_app. lia.
Qed.

Lemma shard_live_bound : (size (al_live (s_pool s)) ≤ length fl + length sent)%nat.
Proof using Hi.
  rewrite shard_live_count. pose proof (side_length false). pose proof (side_length true).
  pose proof (dealt_both 0 sent). cbn [bool_Z] in *. lia.
Qed.

End counting.

(** ** The steps *)

(** [auto task = memory.make(i)] finds a cell. *)
Lemma shard_make_ok tasks C cap s sent fl q sp job rest :
  (length (script tasks) ≤ cap)%nat → shard_inv tasks C cap s sent fl q → s_main s = AMake job :: rest →
  ∃ s' a, shard_step (MainStep sp) s = Some s' ∧ s_main s' = rest ∧ s_worker s' = s_worker s ∧
    shard_inv tasks C cap s' sent (fl ++ [a]) q.
Proof.
  intros Hcap Hi Em. pose proof (shard_live_bound Hi) as Hb. pose proof (flight_length Hi) as Hf.
  destruct Hi as [Hal Hroom Htr Hq Hsw Hbal Hscr Hfl Hnd Hnn Hlive Hd Hst].
  unfold shard_step. rewrite Em in *. cbn [makes length balanced] in *.
  destruct (al_make_room sp job (s_pool s) Hal) as (a & p' & E & Ha & Hfree & Hl & Hr & Hp'); [lia|].
  rewrite E. cbn [mbind option_bind]. rewrite (proj2 (Z.eqb_neq a nullptr)) by done.
  eexists _, a. split; [done|]. split; [done|]. split; [done|]. set (s' := Shards _ _ _ _ _ _).
  assert (shard_pointers s' (fl ++ [a]) q ≡ₚ a :: shard_pointers s fl q) as Hperm
    by (unfold shard_pointers, s', side; cbn [s_worker]; solve_Permutation).
  assert (a ∉ shard_pointers s fl q) as Hna by (intros Hin; apply Hlive in Hin as [? ?]; congruence).
  assert (∀ b, a ∉ side s q b) as Hns
    by (intros b Hin; apply Hna; rewrite (side_perm _ _ _ b), elem_of_app; by left).
  assert (a ∉ fl) as Hnf by (intros Hin; apply Hna, elem_of_app; by left).
  split; cbn [s' s_pool s_tracks s_switch s_main s_flight s_worker]; try done.
  - rewrite Hl, map_size_insert_None by done. lia.
  - rewrite length_app. by rewrite Nat.add_comm.
  - rewrite <-Hscr, Hl, values_app, values_insert by done. unfold values at 2. cbn. rewrite lookup_insert_eq.
    by rewrite <-app_assoc.
  - by rewrite fmap_app, Hfl.
  - rewrite Hperm. by apply NoDup_cons.
  - rewrite Hperm. by apply not_elem_of_cons.
  - intros b. rewrite Hperm, elem_of_cons, Hl, lookup_insert_is_Some, <-Hlive. destruct (decide (a = b)); naive_solver.
  - intros b. rewrite Hl. change (side s' q b) with (side s q b). by rewrite values_insert.
Qed.

(** The track whose turn it is. *)
Definition turn (sent : list Z) : bool := Z.of_nat (length sent) `mod` 2 =? 1.

Lemma bool_Z_turn sent : bool_Z (turn sent) = Z.of_nat (length sent) `mod` 2.
Proof.
  unfold turn. pose proof (Z.mod_pos_bound (Z.of_nat (length sent)) 2 ltac:(lia)).
  destruct (Z.eqb_spec (Z.of_nat (length sent) `mod` 2) 1); cbn; lia.
Qed.

Lemma dealt_snoc b sent v :
  dealt 2 0 (bool_Z b) (sent ++ [v]) = dealt 2 0 (bool_Z b) sent ++ if Bool.eqb b (turn sent) then [v] else [].
Proof.
  rewrite dealt_app. cbn [dealt]. rewrite app_nil_r, Z.add_0_l, <-bool_Z_turn. by destruct b, (turn sent).
Qed.

Definition set_queue (b : bool) (x : Q) (q : bool → Q) : bool → Q := λ b', if Bool.eqb b' b then x else q b'.

Lemma set_queue_tracks b x (q : bool → Q) :
  <[track b := x]> ({[track false := q false; track true := q true]} : gmap Z Q) =
  {[track false := set_queue b x q false; track true := set_queue b x q true]}.
Proof.
  apply map_eq. intros a. unfold track, set_queue. destruct b; cbn;
    destruct (decide (a = 1)) as [->|]; try destruct (decide (a = 2)) as [->|]; by simplify_map_eq.
Qed.

(** Neither track is ever full. *)
Lemma shard_tracks_free tasks C cap s sent fl q :
  (length (script tasks) + 3 ≤ 2 * C)%nat → shard_inv tasks C cap s sent fl q → fl ≠ [] →
  tracks_ok [track false; track true] (s_tracks s) ∧ tracks_free [track false; track true] 1 (s_tracks s).
Proof.
  intros HC Hi Hfl.
  assert (∀ b, length (q_items (q b)) + 1 ≤ C)%nat as Hroom.
  { intros b. pose proof (side_length Hi b) as Hs. unfold side in Hs. rewrite length_app in Hs.
    pose proof (flight_length Hi). pose proof (dealt_even 2 0 (bool_Z b) sent ltac:(by destruct b)) as Hd.
    destruct fl as [|f fl]; [done|]. cbn [length] in *.
    pose proof (Z.div_mod (Z.of_nat (length sent)) 2 ltac:(lia)).
    pose proof (Z.mod_pos_bound (Z.of_nat (length sent)) 2 ltac:(lia)). lia. }
  assert (∀ j a, zget [track false; track true] j = Some a → ∃ b, a = track b) as Hz.
  { intros j a Ha. unfold zget in Ha. case_decide; [|done]. apply list_elem_of_lookup_2 in Ha.
    rewrite !elem_of_cons, elem_of_nil in Ha. destruct Ha as [->|[->|[]]]; eauto. }
  assert (∀ b, s_tracks s !! track b = Some (q b)) as Hlk
    by (intros []; rewrite (si_tracks _ _ _ _ _ _ _ Hi); by simplify_map_eq).
  split; split.
  - rewrite (si_tracks _ _ _ _ _ _ _ Hi). apply map_Forall_insert_2; [apply (si_q _ _ _ _ _ _ _ Hi false)|].
    apply map_Forall_singleton, (si_q _ _ _ _ _ _ _ Hi true).
  - intros j a Ha Hn. destruct (Hz j a Ha) as [b ->]. by exists (q b).
  - apply NoDup_cons. split; [|apply NoDup_singleton]. rewrite list_elem_of_singleton. done.
  - intros j a Ha. destruct (Hz j a Ha) as [b ->]. split; [by destruct b|]. exists (q b). split; [done|].
    rewrite (proj2 (si_q _ _ _ _ _ _ _ Hi b)). apply Hroom.
Qed.

(** A pointer appended to track [b] is appended to that side only. *)
Lemma side_push s s' (q : bool → Q) b x a b' :
  s_worker s' = s_worker s → q_items x = q_items (q b) ++ [a] →
  side s' (set_queue b x q) b' = side s q b' ++ if Bool.eqb b' b then [a] else [].
Proof.
  intros Ew Ex. unfold side, set_queue. rewrite Ew. destruct (Bool.eqb_spec b' b) as [->|].
  - by rewrite Ex, app_assoc.
  - by rewrite app_nil_r.
Qed.

(** [load_balancer.on(task)] hands the task to the track whose turn it is. *)
Lemma shard_on_ok tasks C cap s sent fl q sp rest :
  (length (script tasks) + 3 ≤ 2 * C)%nat → shard_inv tasks C cap s sent fl q → s_main s = AOn :: rest →
  ∃ s' v fl' x, shard_step (MainStep sp) s = Some s' ∧ s_main s' = rest ∧ s_worker s' = s_worker s ∧
    s_pool s' = s_pool s ∧ refused s = None ∧
    length (q_items x) = S (length (q_items (q (turn sent)))) ∧
    shard_inv tasks C cap s' (sent ++ [v]) fl' (set_queue (turn sent) x q).
Proof.
  intros HC Hi Em. destruct fl as [|a fl]; [by pose proof (si_main _ _ _ _ _ _ _ Hi) as Hm; rewrite Em in Hm|].
  destruct (shard_tracks_free _ _ _ _ _ _ _ HC Hi ltac:(done)) as [Hok Hfree].
  destruct Hi as [Hal Hroom Htr Hq Hsw Hbal Hscr Hfl Hnd Hnn Hlive Hd Hst].
  unfold shard_step, refused. rewrite Em in *. cbn [makes balanced length] in *. rewrite Hfl, Hsw. cbn [fmap list_fmap].
  assert (a ≠ nullptr) as Ha by (intros ->; apply Hnn, elem_of_app; left; by left).
  destruct (proj2 (Hlive a)) as [v Ev]; [apply elem_of_app; left; by left|].
  pose proof (Z.mod_pos_bound (Z.of_nat (length sent)) 2 ltac:(lia)) as Hmod.
  destruct (switch_on_next (ep_make a give_back memory) (Switch [track false; track true] (Z.of_nat (length sent) `mod` 2))
    (s_tracks s) 0) as (t & q0 & x & Ht & Hq0 & Hx & Hxc & Hxi & Eon).
  { unfold ep_bool, ep_make. cbn. by rewrite (proj2 (Z.eqb_neq a nullptr)). }
  { split; cbn [outputs_ sw_next_ length]; lia. }
  1,2,3: done.
  cbn [outputs_ sw_next_] in Ht, Eon. rewrite Eon. cbn [mbind option_bind].
  assert (t = track (turn sent)) as ->.
  { rewrite <-bool_Z_turn in Ht. destruct (turn sent); cbv in Ht; by injection Ht as <-. }
  assert (q0 = q (turn sent)) as ->.
  { rewrite Htr in Hq0. destruct (turn sent); simplify_map_eq; done. }
  unfold ep_destroy. rewrite ep_reset_not_owner by done. cbn [mbind option_bind].
  eexists _, v, fl, x. do 5 (split; [done|]). split; [rewrite Hx, length_app; cbn; lia|].
  set (s' := Shards _ _ _ _ _ _).
  assert (∀ b, side s' (set_queue (turn sent) x q) b = side s q b ++ if Bool.eqb b (turn sent) then [a] else []) as Hside
    by (intros b; by apply side_push).
  assert (shard_pointers s' fl (set_queue (turn sent) x q) ≡ₚ shard_pointers s (a :: fl) q) as Hperm
    by (unfold shard_pointers; rewrite !Hside; destruct (turn sent); cbn [Bool.eqb]; solve_Permutation).
  split; cbn [s' s_pool s_tracks s_switch s_main s_flight s_worker]; rewrite ?Hperm; try done.
  - by rewrite Htr, set_queue_tracks.
  - intros b. unfold set_queue. destruct (Bool.eqb b _); [|done]. rewrite Hxc. split; [done|apply Hq].
  - f_equal. rewrite length_app. cbn [length outputs_]. rewrite wrap_small by word_lia.
    rewrite mod_add_l by lia. f_equal. lia.
  - rewrite <-Hscr, <-app_assoc. unfold values at 2. cbn. rewrite Ev. done.
  - intros b. by rewrite Hperm.
  - intros b. rewrite Hside, values_app, app_assoc, Hd, dealt_snoc. f_equal. destruct (Bool.eqb b _); [|done].
    unfold values. cbn. by rewrite Ev.
Qed.

Lemma side_worker s s' (q : bool → Q) b w x b' :
  s_worker s' = set_worker b w (s_worker s) →
  side s' (set_queue b x q) b' = if Bool.eqb b' b then at_worker w ++ q_items x else side s q b'.
Proof. intros Ew. unfold side, set_queue. rewrite Ew. unfold set_worker. by destruct (Bool.eqb b' b). Qed.

(** [in_pipe.pop(p)]: a pointer moves from the track to the worker's hands, and
    nothing happens when the track is empty. *)
Lemma shard_pop_ok tasks C cap s sent fl q b :
  shard_inv tasks C cap s sent fl q → wk_at (s_worker s b) = Idle →
  ∃ s' w x, shard_step (WPop b) s = Some s' ∧ s_main s' = s_main s ∧ s_worker s' = set_worker b w (s_worker s) ∧
    (length (at_worker w) + length (q_items x) = length (q_items (q b)))%nat ∧
    (q_items (q b) ≠ [] → length (at_worker w) = 1%nat) ∧
    shard_inv tasks C cap s' sent fl (set_queue b x q).
Proof.
  intros [Hal Hroom Htr Hq Hsw Hbal Hscr Hfl Hnd Hnn Hlive Hd Hst] Ew.
  assert (s_tracks s !! track b = Some (q b)) as Hlk by (rewrite Htr; destruct b; by simplify_map_eq).
  assert (∃ w x, shard_step (WPop b) s = Some (Shards (s_pool s) (<[track b := x]> (s_tracks s)) (s_switch s) (s_main s)
            (s_flight s) (set_worker b w (s_worker s))) ∧
          at_worker w ++ q_items x = q_items (q b) ∧ q_inv x ∧ q_cap x = C ∧ wk_got w = wk_got (s_worker s b) ∧
          wk_at w ≠ Stopped ∧ (q_items (q b) ≠ [] → length (at_worker w) = 1%nat))
    as (w & x & E & Hitems & Hx & Hxc & Hgot & Hns & Hone).
  { unfold shard_step. rewrite Ew, Hlk. cbn [mbind option_bind]. destruct (Hq b) as [Hqb Hcb].
    destruct (q_pop_cases (q b) Hqb) as [[Ei ->]|(a & l & x & Ei & -> & Ex & Ec & Hx)]; cbn.
    - exists (Wk Idle (wk_got (s_worker s b))), (q b). by rewrite Ei.
    - assert (a ≠ nullptr) as Ha.
      { intros ->. apply Hnn. rewrite (side_perm _ _ _ b), elem_of_app. left. unfold side. rewrite Ei, elem_of_app.
        right. by left. }
      exists (Wk (Have a) (wk_got (s_worker s b))), x. rewrite (proj2 (Z.eqb_neq a nullptr)) by done. rewrite Ei, Ex, Ec. done. }
  eexists _, w, x. split; [exact E|]. split; [done|]. split; [done|]. split; [by rewrite <-Hitems, length_app|].
  split; [done|]. set (s' := Shards _ _ _ _ _ _).
  assert (∀ b', side s' (set_queue b x q) b' = side s q b') as Hside.
  { intros b'. rewrite (side_worker s s' q b w x b') by done. destruct (Bool.eqb_spec b' b) as [->|]; [|done].
    rewrite Hitems. unfold side, at_worker. by rewrite Ew. }
  assert (shard_pointers s' fl (set_queue b x q) = shard_pointers s fl q) as Hptrs
    by (unfold shard_pointers; by rewrite !Hside).
  split; rewrite ?Hptrs; cbn [s' s_pool s_tracks s_switch s_main s_flight s_worker]; try done.
  - by rewrite Htr, set_queue_tracks.
  - intros b'. unfold set_queue. destruct (Bool.eqb b' b); [done|apply Hq].
  - intros b'. rewrite Hside, <-Hd. unfold set_worker. destruct (Bool.eqb_spec b' b) as [->|]; [by rewrite Hgot|done].
  - intros b'. unfold set_worker. destruct (Bool.eqb_spec b' b) as [->|]; [|apply Hst].
    specialize (Hst b). rewrite Ew in Hst. rewrite Hgot. by destruct (wk_at w).
Qed.

(** The body of [shard_worker]'s loop: the job is read, and the pointer's
    destructor returns the cell. *)
Lemma shard_handle_ok tasks C cap s sent fl q b a sp :
  shard_inv tasks C cap s sent fl q → wk_at (s_worker s b) = Have a →
  ∃ s' w, shard_step (WHandle b sp) s = Some s' ∧ s_main s' = s_main s ∧ s_worker s' = set_worker b w (s_worker s) ∧
    at_worker w = [] ∧ shard_inv tasks C cap s' sent fl (set_queue b (q b) q).
Proof.
  intros [Hal Hroom Htr Hq Hsw Hbal Hscr Hfl Hnd Hnn Hlive Hd Hst] Ew.
  assert (side s q b = a :: q_items (q b)) as Eb by (unfold side, at_worker; by rewrite Ew).
  assert (shard_pointers s fl q ≡ₚ a :: q_items (q b) ++ fl ++ side s q (negb b)) as Hp
    by (by rewrite (side_perm _ _ _ b), Eb).
  destruct (proj2 (Hlive a)) as [v Ev]; [rewrite Hp; by left|].
  unfold shard_step. rewrite Ew, Ev. cbn [mbind option_bind].
  destruct (al_free_live sp a v (s_pool s) Hal Ev) as (p' & -> & Hl & Hr & Hp'). cbn [mbind option_bind].
  eexists _, _. split; [done|]. split; [done|]. split; [done|]. split; [by destruct (stop v)|].
  set (w := Wk _ _). set (s' := Shards _ _ _ _ _ _).
  assert (at_worker w = []) as Eat by (unfold at_worker, w; cbn; by destruct (stop v)).
  assert (∀ b', side s' (set_queue b (q b) q) b' = if Bool.eqb b' b then q_items (q b) else side s q b') as Hside
    by (intros b'; by rewrite (side_worker s s' q b w (q b) b'), Eat).
  assert (shard_pointers s' fl (set_queue b (q b) q) ≡ₚ q_items (q b) ++ fl ++ side s q (negb b)) as Hptrs
    by (rewrite (side_perm _ _ _ b), !Hside, Bool.eqb_reflx; by destruct b).
  rewrite Hp in Hnd, Hnn. apply NoDup_cons in Hnd as [Han Hnd]. apply not_elem_of_cons in Hnn as [Ha Hnn].
  rewrite !elem_of_app in Han.
  split; cbn [s' s_pool s_tracks s_switch s_main s_flight s_worker]; rewrite ?Hptrs, ?Hl; try done.
  - rewrite Hr. pose proof (size_delete_S _ _ _ Ev). lia.
  - rewrite Htr. by destruct b.
  - intros b'. unfold set_queue. destruct (Bool.eqb_spec b' b) as [->|]; apply Hq.
  - rewrite values_delete; [done|]. naive_solver.
  - intros c. rewrite Hptrs, lookup_delete_is_Some, Hlive, Hp, elem_of_cons.
    assert (a ∉ q_items (q b) ++ fl ++ side s q (negb b)) by (rewrite !elem_of_app; done). naive_solver.
  - intros b'. rewrite Hside, <-Hd. unfold set_worker. destruct (Bool.eqb_spec b' b) as [->|Hb'].
    + rewrite values_delete by naive_solver. rewrite Eb. unfold w. cbn [wk_got].
      unfold values at 2. cbn [omap list_omap]. rewrite Ev. by rewrite <-app_assoc.
    + rewrite values_delete; [done|]. destruct b, b'; naive_solver.
  - intros b'. unfold set_worker. destruct (Bool.eqb_spec b' b) as [->|]; [|apply Hst].
    specialize (Hst b). rewrite Ew in Hst. unfold w, stop. cbn. destruct (Z.eqb_spec v (-1)) as [->|Hv]; [by eexists|].
    rewrite elem_of_app, list_elem_of_singleton. naive_solver.
Qed.

(** ** Runs *)

(** The thread's next statement is this one. *)
Definition enabled (l : label) (s : shards) : Prop :=
  match l with
  | MainStep _ => s_main s ≠ []
  | WPop b => wk_at (s_worker s b) = Idle
  | WHandle b _ => ∃ a, wk_at (s_worker s b) = Have a
  end.

(** The main thread stands at [t1.join()], both workers have left their loop. *)
Definition finished (s : shards) : Prop := s_main s = [] ∧ ∀ b, wk_at (s_worker s b) = Stopped.

(** The work left. *)
Definition load (w : worker) (q : Q) : nat := (length (at_worker w) + 2 * length (q_items q))%nat.
Definition measure (s : shards) (q : bool → Q) : nat :=
  (4 * length (s_main s) + load (s_worker s false) (q false) + load (s_worker s true) (q true))%nat.

(** A step that is not a look into an empty track. *)
Definition productive (l : label) (q : bool → Q) : Prop :=
  match l with WPop b => q_items (q b) ≠ [] | _ => True end.

Section runs.
Context (tasks : Z) (C cap : nat) (Hcap : (length (script tasks) ≤ cap)%nat) (HC : (length (script tasks) + 3 ≤ 2 * C)%nat).

Lemma shard_step_ok s sent fl q l :
  shard_inv tasks C cap s sent fl q → enabled l s →
  ∃ s' sent' fl' q', shard_step l s = Some s' ∧ shard_inv tasks C cap s' sent' fl' q' ∧
    (productive l q → (measure s' q' < measure s q)%nat).
Proof using All.
  intros Hi He. destruct l as [sp|b|b sp]; cbn in He.
  - destruct (s_main s) as [|[job|] rest] eqn:Em; [done|..].
    + destruct (shard_make_ok _ _ _ _ _ _ _ sp _ _ Hcap Hi Em) as (s' & a & E & Hm & Hw & Hi').
      eexists s', _, _, _. split; [done|]. split; [done|]. intros _. unfold measure. rewrite Hm, Hw, Em. cbn. lia.
    + destruct (shard_on_ok _ _ _ _ _ _ _ sp _ HC Hi Em) as (s' & v & fl' & x & E & Hm & Hw & _ & _ & Hx & Hi').
      eexists s', _, _, _. split; [done|]. split; [done|]. intros _. unfold measure, load, set_queue.
      rewrite Hm, Hw, Em. destruct (turn sent); cbn [Bool.eqb length]; lia.
  - destruct (shard_pop_ok _ _ _ _ _ _ _ b Hi He) as (s' & w & x & E & Hm & Hw & Hlen & Hone & Hi').
    eexists s', _, _, _. split; [done|]. split; [done|]. cbn. intros Hne. specialize (Hone Hne).
    assert (at_worker (s_worker s b) = []) as H0 by (unfold at_worker; by rewrite He).
    unfold measure, load, set_queue. rewrite Hm, Hw. unfold set_worker. destruct b; cbn [Bool.eqb] in *; lia.
  - destruct He as [a He]. destruct (shard_handle_ok _ _ _ _ _ _ _ b a sp Hi He) as (s' & w & E & Hm & Hw & Hat & Hi').
    eexists s', _, _, _. split; [done|]. split; [done|]. intros _.
    assert (at_worker (s_worker s b) = [a]) as H0 by (unfold at_worker; by rewrite He).
    unfold measure, load, set_queue. rewrite Hm, Hw. unfold set_worker.
    destruct b; cbn [Bool.eqb] in *; rewrite Hat, H0; cbn [length]; lia.
Qed.

Lemma shard_step_enabled l s s' : shard_step l s = Some s' → enabled l s.
Proof.
  destruct l as [sp|b|b sp]; cbn; [by destruct (s_main s)|..]; destruct (wk_at (s_worker s b)); eauto; done.
Qed.

Lemma shard_reach_inv s s' sent fl q :
  shard_inv tasks C cap s sent fl q → shard_reach s s' → ∃ sent' fl' q', shard_inv tasks C cap s' sent' fl' q'.
Proof using All.
  intros Hi Hr. revert sent fl q Hi. induction Hr as [s|s s1 s' [l E] _ IH]; intros sent fl q Hi; [by eexists _, _, _|].
  destruct (shard_step_ok _ _ _ _ _ Hi (shard_step_enabled _ _ _ E)) as (s2 & ? & ? & ? & E2 & Hi2 & _).
  rewrite E in E2. injection E2 as <-. by eapply IH.
Qed.

Lemma dealt_elem {A} N x j (l : list A) a : a ∈ dealt N x j l → a ∈ l.
Proof.
  revert x. induction l as [|c l IH]; intros x; [done|]. cbn. rewrite elem_of_app, elem_of_cons. intros [Ha|Ha].
  - left. destruct (x `mod` N =? j); [by apply list_elem_of_singleton|by apply elem_of_nil in Ha].
  - right. by eapply IH.
Qed.

(** What each worker gets of the whole script: its half of the tasks and one
    pill. *)
Lemma dealt_script b :
  0 ≤ tasks → tasks `mod` 2 = 0 →
  dealt 2 0 (bool_Z b) (script tasks) = dealt 2 0 (bool_Z b) (seqZ 0 tasks) ++ [-1].
Proof.
  intros H0 He. unfold script. rewrite dealt_app, length_seqZ, Z2Nat.id, Z.add_0_l by done. f_equal.
  cbn [dealt]. rewrite <-(mod_add_l 2 tasks), He by lia. by destruct b.
Qed.

Lemma pill_not_dealt b : -1 ∉ dealt 2 0 (bool_Z b) (seqZ 0 tasks).
Proof using. intros Hin. apply dealt_elem, elem_of_seqZ in Hin. clear -Hin. lia. Qed.

(** Once the main thread has handed everything over. *)
Lemma shard_all_sent s sent fl q :
  shard_inv tasks C cap s sent fl q → s_main s = [] → sent = script tasks ∧ fl = [].
Proof.
  intros Hi Em. pose proof (si_main _ _ _ _ _ _ _ Hi) as Hb. rewrite Em in Hb. cbn in Hb.
  destruct fl; [|done]. pose proof (si_script _ _ _ _ _ _ _ Hi) as Hs. rewrite Em in Hs. cbn in Hs.
  by rewrite app_nil_r in Hs.
Qed.

Context (H0 : 0 ≤ tasks) (He : tasks `mod` 2 = 0).

(** A state that is not final has a productive step. *)
Lemma shard_progress s sent fl q :
  shard_inv tasks C cap s sent fl q → ¬ finished s → ∃ l, enabled l s ∧ productive l q.
Proof using All.
  intros Hi Hnf. destruct (s_main s) as [|act rest] eqn:Em; [|exists (MainStep []); cbn; by rewrite Em].
  destruct (shard_all_sent _ _ _ _ Hi Em) as [-> ->].
  assert (∃ b, wk_at (s_worker s b) ≠ Stopped) as [b Hb].
  { destruct (wk_at (s_worker s false)) eqn:Ef; [by exists false; rewrite Ef..|].
    destruct (wk_at (s_worker s true)) eqn:Et; [by exists true; rewrite Et..|].
    exfalso. apply Hnf. split; [done|]. by intros []. }
  destruct (wk_at (s_worker s b)) as [|a|] eqn:Ew; [|exists (WHandle b []); cbn; eauto|done].
  exists (WPop b). split; [done|]. cbn. intros Hempty.
  pose proof (si_dealt _ _ _ _ _ _ _ Hi b) as Hd. pose proof (si_stop _ _ _ _ _ _ _ Hi b) as Hst.
  unfold side, at_worker in Hd. rewrite Ew in Hst. rewrite Ew, Hempty, dealt_script in Hd by done. cbn in Hd.
  rewrite app_nil_r in Hd. apply Hst. rewrite Hd, elem_of_app. right. by left.
Qed.

(** Every run can be completed. *)
Lemma shard_finishes s sent fl q :
  shard_inv tasks C cap s sent fl q → ∃ s', shard_reach s s' ∧ finished s'.
Proof using All.
  remember (measure s q) as n eqn:En. revert s sent fl q En.
  induction (lt_wf n) as [n _ IH]. intros s sent fl q -> Hi.
  destruct (s_main s) as [|act rest] eqn:Em; [destruct (wk_at (s_worker s false)) eqn:Ef; [| |destruct (wk_at (s_worker s true)) eqn:Et]|].
  5: exists s; split; [apply rtc_refl|split; [done|by intros []]].
  all: destruct (shard_progress _ _ _ _ Hi) as (l & Hen & Hp); [intros [? Hs]; pose proof (Hs false); pose proof (Hs true); congruence|];
    destruct (shard_step_ok _ _ _ _ _ Hi Hen) as (s1 & ? & ? & ? & E & Hi1 & Hlt);
    destruct (IH _ (Hlt Hp) _ _ _ _ eq_refl Hi1) as (s' & Hr & Hf); exists s'; (split; [eapply rtc_l; [by exists l|done]|done]).
Qed.

(** The final state: each worker had its share, in order, and one pill. *)
Lemma finished_worker s sent fl q b :
  shard_inv tasks C cap s sent fl q → finished s →
  wk_got (s_worker s b) = dealt 2 0 (bool_Z b) (seqZ 0 tasks) ++ [-1] ∧ side s q b = [].
Proof using All.
  intros Hi [Em Hs]. destruct (shard_all_sent _ _ _ _ Hi Em) as [-> ->].
  pose proof (si_dealt _ _ _ _ _ _ _ Hi b) as Hd. pose proof (si_stop _ _ _ _ _ _ _ Hi b) as Hst.
  pose proof (side_length Hi b) as Hlen. rewrite Hs in Hst. destruct Hst as (g & Eg & _).
  rewrite dealt_script in Hd, Hlen by done.
  set (rest := values _ _) in Hd. destruct (exists_last_or_nil rest) as [Er|(r & x & Er)]; rewrite Er in Hd.
  - rewrite app_nil_r in Hd. split; [done|]. rewrite Hd in Hlen. destruct (side s q b); [done|cbn in Hlen; lia].
  - rewrite app_assoc in Hd. apply app_inj_tail in Hd as [Hd _]. exfalso. apply (pill_not_dealt b).
    rewrite <-Hd, Eg, !elem_of_app. left. right. by left.
Qed.

Lemma dealt_processed b :
  Z.of_nat (length (List.filter (λ j, negb (stop j)) (dealt 2 0 (bool_Z b) (seqZ 0 tasks) ++ [-1]))) = tasks `div` 2.
Proof using H0 He.
  clear Hcap HC.
  rewrite List.filter_app, length_app, (List.forallb_filter_id (λ j, negb (stop j)) (dealt _ _ _ _)).
  - rewrite Nat2Z.inj_add, dealt_length, length_seqZ, Z2Nat.id by (done || by destruct b). cbn.
    pose proof (Z.div_mod tasks 2 ltac:(lia)). destruct b; cbn;
      [replace (0 + tasks - 1 - 1) with (tasks `div` 2 * 2 + (-2)) by lia|replace (0 + tasks - 1 - 0) with (tasks `div` 2 * 2 + (-1)) by lia];
      rewrite Z.div_add_l by lia; change ((-2) `div` 2) with (-1); change ((-1) `div` 2) with (-1);
      change ((0 - 1 - 1) `div` 2) with (-1); change ((0 - 1 - 0) `div` 2) with (-1); lia.
  - apply List.forallb_forall. intros j Hj. apply list_elem_of_In in Hj. unfold stop.
    destruct (Z.eqb_spec j (-1)) as [->|]; [by apply pill_not_dealt in Hj|done].
Qed.

(** The final state as a whole. *)
Lemma finished_facts s sent fl q :
  shard_inv tasks C cap s sent fl q → finished s →
  al_live (s_pool s) = ∅ ∧
  ∀ b, wk_got (s_worker s b) = dealt 2 0 (bool_Z b) (seqZ 0 tasks) ++ [-1] ∧
       Z.of_nat (processed (s_worker s b)) = tasks `div` 2 ∧
       q_items <$> s_tracks s !! track b = Some [].
Proof using All.
  intros Hi Hf. assert (∀ b, wk_got (s_worker s b) = dealt 2 0 (bool_Z b) (seqZ 0 tasks) ++ [-1] ∧ side s q b = []) as Hw
    by (intros b; by apply (finished_worker s sent fl)).
  assert (size (al_live (s_pool s)) = 0%nat) as Hz.
  { rewrite (shard_live_count Hi), !(proj2 (Hw _)). destruct (shard_all_sent _ _ _ _ Hi (proj1 Hf)) as [_ ->]. done. }
  split; [by apply map_size_empty_inv|].
  intros b. destruct (Hw b) as [Hg Hs]. split; [done|]. split; [unfold processed; rewrite Hg; by apply dealt_processed|].
  rewrite (si_tracks _ _ _ _ _ _ _ Hi). apply app_nil in Hs as [_ Hs]. destruct b; simplify_map_eq; by rewrite Hs.
Qed.

End runs.

End sharding.

(** ** The pool's calls split *)

Section split.
Context {Q : Type} `{QueueLaws Q}.

Abbreviation shards := (@shards (spool Z) Q).

Definition shard_thread (l : label) : nat :=
  match l with MainStep _ => 0 | WPop b | WHandle b _ => if b then 2 else 1 end.

#[export] Instance shard_client : Client Z shards label := {|
  cl_step := shard_step;
  cl_thread := shard_thread;
  cl_pool := s_pool;
  cl_makes s := match s_main s with AMake job :: _ => Some job | _ => None end;
  cl_make := MainStep;
  cl_use l s :=
    match l with
    | MainStep _ => Free <$> refused s
    | WPop _ => None
    | WHandle b _ => match wk_at (s_worker s b) with Have ptr => Some (Free ptr) | _ => None end
    end |}.

Context (tasks : Z) (C : nat) (cap : Z).
Context (Hcap : tasks + 2 ≤ cap ≤ END) (HC : (Z.to_nat tasks + 5 ≤ 2 * C)%nat) (H0 : 0 ≤ tasks) (He : tasks `mod` 2 = 0).

Definition shard_good (s : shards) : Prop := ∃ sent fl q, shard_inv tasks C (Z.to_nat cap) s sent fl q.

(** The events made so far. *)
Definition shard_made (s : shards) : nat := (length (script tasks) - length (makes (s_main s)))%nat.

Lemma script_length : length (script tasks) = (Z.to_nat tasks + 2)%nat.
Proof using. unfold script. by rewrite length_app, length_seqZ. Qed.

Lemma script_fits : (length (script tasks) ≤ Z.to_nat cap)%nat ∧ (length (script tasks) + 3 ≤ 2 * C)%nat.
Proof using Hcap HC H0. rewrite script_length. lia. Qed.

Lemma shard_good_step l s s' : shard_good s → shard_step l s = Some s' → shard_good s'.
Proof using All.
  intros (sent & fl & q & Hi) E. destruct script_fits as [F1 F2].
  destruct (shard_step_ok tasks C (Z.to_nat cap) F1 F2 _ _ _ _ _ Hi (shard_step_enabled _ _ _ E)) as (s2 & ? & ? & ? & E2 & Hi2 & _).
  rewrite E in E2. injection E2 as <-. by eexists _, _, _.
Qed.

#[export] Instance shard_laws : ClientLaws Z shards label cap shard_good shard_made.
Proof using All.
  destruct script_fits as [F1 F2]. split; cbn [cl_step cl_thread cl_pool cl_makes cl_make cl_use shard_client].
  - intros s v (sent & fl & q & Hi) Hm. destruct (s_main s) as [|[job|] rest] eqn:Em; try done.
    unfold shard_made. rewrite Em. cbn. pose proof (flight_length Hi) as Hf. rewrite Em in Hf. cbn in Hf. lia.
  - intros s v sp a Hg Hm Hch. destruct (s_main s) as [|[job|] rest] eqn:Em; try done. injection Hm as <-.
    destruct (shard_step (MainStep sp) s) as [s'|] eqn:E;
      [|cbn [shard_step] in E; rewrite Em in E; cbn [al_make spool_allocator] in E; by rewrite Hch in E].
    exists s'. split; [done|]. split; [by eapply shard_good_step|]. destruct Hg as (sent & fl & q & Hi).
    cbn [shard_step] in E. rewrite Em in E. cbn [al_make spool_allocator] in E. rewrite Hch in E. cbn in E. injection E as <-.
    split; [|done]. pose proof (flight_length Hi) as Hf. unfold shard_made. rewrite Em in *. cbn in *. lia.
  - intros l s s' Hg E Hm. split; [by eapply shard_good_step|]. destruct Hg as (sent & fl & q & Hi).
    destruct l as [sp|b|b sp]; cbn [shard_thread] in *.
    + specialize (Hm eq_refl). destruct (s_main s) as [|[job|] rest] eqn:Em; [by cbn in E; rewrite Em in E|done|].
      destruct (shard_on_ok _ _ _ _ _ _ _ sp _ F2 Hi Em) as (s1 & v & fl' & x & E1 & Hmain & _ & Hp & -> & _).
      rewrite E in E1. injection E1 as <-. unfold shard_made. rewrite Hmain, Em. done.
    + cbn in E. destruct (wk_at (s_worker s b)); try done. destruct (s_tracks s !! track b); [|done]. cbn in E.
      destruct (q_pop q0) as [[r q']|]; [|done]. cbn in E. injection E as <-. done.
    + destruct (wk_at (s_worker s b)) as [|a|] eqn:Ew; try (by cbn in E; rewrite Ew in E).
      destruct (shard_handle_ok _ _ _ _ _ _ _ b a sp Hi Ew) as (s1 & w & E1 & _).
      cbn in E. rewrite Ew in E. destruct (sp_live (s_pool s) !! a) as [v|] eqn:Ev; [|done]. cbn in E.
      destruct (a =? nullptr) eqn:En.
      { exfalso. apply Z.eqb_eq in En as ->. destruct (si_al _ _ _ _ _ _ _ Hi) as (_ & Hn & Hin). apply Hn, Hin. by eexists. }
      cbn in E. injection E as <-. split; [done|]. split; [done|]. split; [by eexists|done].
Qed.

Context (o : PoolWeak.order) (base csize : Z) (Hbase : 0 < base) (Hcsize : 0 < csize).

(** From a state with no thread inside the pool the run can be completed, with
    one call after the other. *)
Lemma split_finishes w s sent fl q :
  cinv base csize cap shard_good shard_made w s → at_rest w → shard_inv tasks C (Z.to_nat cap) s sent fl q →
  ∃ w' s', rtc (costep o base csize) (w, s) (w', s') ∧ at_rest w' ∧ finished s'.
Proof using All.
  destruct script_fits as [F1 F2]. assert (1 ≤ cap ≤ END) as Hc1 by lia.
  remember (measure s q) as n eqn:En. revert w s sent fl q En. induction (lt_wf n) as [n _ IH].
  intros w s sent fl q -> Hv Hrest Hi.
  assert (finished s ∨ ¬ finished s) as [Hf|Hnf]; [|by exists w, s; split; [apply rtc_refl|]|].
  { unfold finished. destruct (s_main s); [|by right; intros [? _]].
    destruct (wk_at (s_worker s false)) eqn:E1; [right; intros [_ Hb]; specialize (Hb false); congruence..|].
    destruct (wk_at (s_worker s true)) eqn:E2; [right; intros [_ Hb]; specialize (Hb true); congruence..|].
    left. split; [done|]. by intros []. }
  destruct (shard_progress tasks C (Z.to_nat cap) F1 F2 H0 He _ _ _ _ Hi Hnf) as (l & Hen & Hp).
  assert (∃ w1 s1 l1, rtc (costep o base csize) (w, s) (w1, s1) ∧ at_rest w1 ∧ shard_step l1 s = Some s1 ∧ enabled l1 s ∧ productive l1 q)
    as (w1 & s1 & l1 & Hr & Hrest1 & E1 & Hen1 & Hp1).
  { destruct (shard_step_ok tasks C (Z.to_nat cap) F1 F2 _ _ _ _ _ Hi Hen) as (s1 & _ & _ & _ & E1 & _).
    destruct (cl_makes s) as [job|] eqn:Emk.
    - destruct (make_alone o base csize cap shard_good shard_made Hbase Hcsize Hc1 w s job Hv Hrest Emk) as (w1 & s2 & sp & Hr & Es & Hr1).
      exists w1, s2, (MainStep sp). split_and!; try done. by eapply shard_step_enabled.
    - destruct (statement_alone o base csize cap shard_good shard_made Hbase Hcsize Hc1 w s l s1 Hv Hrest (λ _, Emk) E1) as (w1 & Hr & Hr1).
      by exists w1, s1, l. }
  destruct (shard_step_ok tasks C (Z.to_nat cap) F1 F2 _ _ _ _ _ Hi Hen1) as (s2 & sent2 & fl2 & q2 & E2 & Hi2 & Hlt).
  rewrite E1 in E2. injection E2 as <-.
  destruct (csteps_inv o base csize cap shard_good shard_made Hbase Hcsize Hc1 _ _ _ _ Hv Hr) as [Hv1 _].
  destruct (IH _ (Hlt Hp1) w1 s1 sent2 fl2 q2 eq_refl Hv1 Hrest1 Hi2) as (w' & s' & Hr' & ? & ?).
  exists w', s'. split; [by etrans|done].
Qed.

End split.

(** C13: The sharded workers get everything.  The main thread and the two workers
    interleave at every access of [make] and [free] to the pool, whose loads may
    be stale; a call on a track is one step.  The order of a failed exchange is
    the acquire of slab_allocator.hpp, or the relaxed of core.hpp as long as no
    exchange of [make] loses against another thread (inside the tag window).
    With an even number of tasks, a pool with a cell for each task and pill, and
    tracks that hold half of them: no cell is accessed without a happens-before
    order, every cell of the pool is in one place and holds the task the worker
    reads there; a thread inside the pool, at a [make] or at a statement can go
    on, and no [make] yields null; whenever no thread is inside the pool the run
    can be completed, so that the workers do meet their pills; and when they were
    joined, each has received every other task, in order, then exactly one pill,
    the tracks are empty and the free list has every cell. *)
Theorem sharding_complete `{QueueLaws Q} o base csize cap p tasks (qa qb : Q) C w s :
  0 ≤ tasks → tasks `mod` 2 = 0 → tasks + 2 ≤ cap ≤ END →
  0 < base → 0 < csize → base + cap * csize ≤ 2 ^ 64 → pool_ctor base csize cap = Some p →
  q_inv qa → q_items qa = [] → q_inv qb → q_items qb = [] → q_cap qa = C → q_cap qb = C → (Z.to_nat tasks + 5 ≤ 2 * C)%nat →
  rtc (costep o base csize) (fresh_memory p, shard_start tasks (sfresh base csize cap) qa qb) (w, s) →
  pool_sound base csize cap w s ∧ never_stuck o base csize w s ∧
  (∀ l, enabled l s → is_Some (shard_step l s)) ∧
  (at_rest w → ∃ w' s', rtc (costep o base csize) (w, s) (w', s') ∧ at_rest w' ∧ finished s') ∧
  (finished s → at_rest w → all_free cap w ∧
    ∀ b, wk_got (s_worker s b) = dealt 2 0 (bool_Z b) (seqZ 0 tasks) ++ [-1] ∧
         Z.of_nat (processed (s_worker s b)) = tasks `div` 2 ∧
         q_items <$> s_tracks s !! track b = Some []).
Proof.
  intros H0 He Hcap Hb Hs Hl E Hqa Hia Hqb Hib Hca Hcb HC Hr. assert (1 ≤ cap ≤ END) as Hc1 by lia.
  destruct (script_fits tasks C cap Hcap HC H0) as [F1 F2].
  destruct (sfresh_inv (T := Z) base csize cap Hb Hs Hc1 Hl) as (Hfi & Hfl & Hfr).
  pose proof (shard_laws tasks C cap Hcap HC H0 He) as Hlaws.
  destruct (client_run o base csize cap (shard_good tasks C cap) (shard_made tasks) Hb Hs Hc1 p
    (shard_start tasks (sfresh base csize cap) qa qb) w s) as [Hv _]; try done.
  { eexists _, _, _. rewrite <-Hfr. by apply shard_start_inv. }
  { unfold shard_made. cbn [shard_start s_main]. unfold main_actions. rewrite makes_tasks. unfold script. rewrite !length_app. cbn. lia. }
  destruct (cv_good _ _ _ _ _ _ _ Hv) as (sent & fl & q & Hi). split; [by eapply cinv_sound|].
  split; [exact (cinv_next o base csize cap _ _ Hb Hs Hc1 w s Hv)|]. split.
  { intros l Hen. destruct (shard_step_ok tasks C (Z.to_nat cap) F1 F2 _ _ _ _ _ Hi Hen) as (? & ? & ? & ? & -> & _). by eexists. }
  split; [intros Hrest; by apply (split_finishes tasks C cap Hcap HC H0 He o base csize Hb Hs w s sent fl q)|].
  intros Hf Hrest. destruct (finished_facts tasks C (Z.to_nat cap) F1 F2 H0 He _ _ _ _ Hi Hf) as [Hlive Hw].
  split; [exact (client_all_free o base csize cap _ _ Hb Hs Hc1 w s Hv Hrest Hlive)|done].
Qed.

(** The numbers of 03_sharding.cpp: 2000 tasks, 4096 cells, conduits of 1024
    slots; each worker reports 1000 tasks. *)
Lemma sharding_complete_witness :
  ∃ (p : pool Z) w s, pool_ctor 65536 16 4096 = Some p ∧
    rtc (costep PoolWeak.pool_failure 65536 16)
      (fresh_memory p, sharding (sfresh 65536 16 4096) (conduit_ctor (replicate 1024 0) : conduit 1024)
                         (conduit_ctor (replicate 1024 0) : conduit 1024)) (w, s) ∧
    finished s ∧ all_free 4096 w ∧ ∀ b, Z.of_nat (processed (s_worker s b)) = 1000.
Proof.
  destruct (pool_ctor_fresh (T := Z) 65536 16 4096) as (p & E & _); [unfold END; lia..|].
  destruct (conduit_ctor_inv (Size := 1024) (replicate 1024 0)) as [Hc Hi]; [lia|done|].
  set (c := conduit_ctor (replicate 1024 0) : conduit 1024) in *.
  assert (∀ w s, rtc (costep PoolWeak.pool_failure 65536 16) (fresh_memory p, sharding (sfresh 65536 16 4096) c c) (w, s) → _) as Happly
    by (intros w s Hs; refine (sharding_complete PoolWeak.pool_failure 65536 16 4096 p 2000 c c 1023 w s _ _ _ _ _ _ _ _ _ _ _ _ _ _ Hs);
        [lia|done|unfold END; lia|lia|lia|lia|exact E|exact Hc|exact Hi|exact Hc|exact Hi|reflexivity|reflexivity|lia]).
  destruct (Happly _ _ (rtc_refl _ _)) as (_ & _ & _ & Hfin & _).
  destruct (Hfin eq_refl) as (w & s & Hr & Hrest & Hf).
  destruct (Happly w s Hr) as (_ & _ & _ & _ & Hend). destruct (Hend Hf Hrest) as (Hfree & Hb).
  exists p, w, s. split; [done|]. split; [done|]. split; [done|]. split; [done|]. intros b. by destruct (Hb b) as (_ & -> & _).
Defined.

(** *** Overload

    02_fan_in_polling.cpp has 100000 tasks for the same conduits.  When the
    workers lag behind, the switch refuses events, the pills among them; here
    with conduits that hold one event and the main thread running first. *)

Fixpoint shard_run {P Q} `{!Allocator P Z} `{!Queue Q} (ls : list label) (s : @shards P Q) : option (@shards P Q) :=
  match ls with [] => Some s | l :: ls' => s1 ← shard_step l s; shard_run ls' s1 end.

(** Main stands at [join], the workers poll empty tracks and have no pill. *)
Example overload_loses_pills :
  (p ← pool_ctor (T := Z) 4096 16 8;
   s ← shard_run (replicate 8 (MainStep []) ++ [WPop false; WHandle false []; WPop true; WHandle true []; WPop false; WPop true])
         (shard_start 2 p (conduit_ctor [0; 0] : conduit 2) (conduit_ctor [0; 0] : conduit 2));
   Some (s_main s, s_worker s false, s_worker s true, q_items <$> s_tracks s !! track false, q_items <$> s_tracks s !! track true,
         size (al_live (s_pool s))))
  = Some ([], Wk Idle [0], Wk Idle [1], Some [], Some [], 0%nat).
Proof. vm_compute. reflexivity. Qed.

End Sharding.
