(* ===== verification/Layout.v ===== *)
(** * Where the members lie in memory (alignas in core.hpp, core/networked_conduit.hpp,
      net/networked_conduit.hpp, runtime/node_runtime.hpp and pending/)

    The library separates the members that different threads write by
    [alignas(64)], so that no cache line is written by two threads.  This file
    lays a class out as the compiler does (each member at the next multiple of
    its alignment, the size rounded up to the alignment of the class), names for
    each member the thread that uses it, and decides whether two threads can
    write to one cache line of an object or of two neighbours in an array. *)

From S2P Require Import Prelude EventPtr Interfaces Pool NetConduit.

Local Open Scope Z_scope.

(** [CACHE_LINE_SIZE]. *)
Definition CACHE_LINE_SIZE : Z := 64.

(** The thread that uses a member, as far as the classes tell threads apart: the
    one that writes it, or for a member that is written by the constructor only
    the one that reads it.  [Any] is a member that several threads write,
    [Fixed] one that several threads read and nobody writes. *)
Inductive role := Fixed | Producer | Consumer | Any.

#[export] Instance role_eq_dec : EqDecision role.
Proof. solve_decision. Defined.

Record member := Member { m_size : Z; m_align : Z; m_writer : role }.

(** A class: its own [alignas] (1 when it has none) and its members in order. *)
Record cclass := Class { c_alignas : Z; c_members : list member }.

Definition round_up (x a : Z) : Z := (x + a - 1) `div` a * a.

(** The offsets of members that follow position [pos]. *)
Fixpoint place (pos : Z) (ms : list member) : list Z :=
  match ms with
  | [] => []
  | m :: ms' => let o := round_up pos (m_align m) in o :: place (o + m_size m) ms'
  end.

Fixpoint end_of (pos : Z) (ms : list member) : Z :=
  match ms with
  | [] => pos
  | m :: ms' => end_of (round_up pos (m_align m) + m_size m) ms'
  end.

Definition alignof (c : cclass) : Z := foldr (λ m, Z.max (m_align m)) (c_alignas c) (c_members c).
Definition sizeof (c : cclass) : Z := round_up (end_of 0 (c_members c)) (alignof c).

(** The lines that [size] bytes from address [a] on touch. *)
Definition first_line (a : Z) : Z := a `div` CACHE_LINE_SIZE.
Definition last_line (a size : Z) : Z := (a + size - 1) `div` CACHE_LINE_SIZE.

Definition share_line (a s b t : Z) : Prop :=
  first_line a ≤ last_line b t ∧ first_line b ≤ last_line a s.

(** Members [x] and [y] of objects number [e] and [f] of an array at [base] that
    different threads may write never share a line.  In two different objects
    every two members count, as the objects may serve different threads. *)
Definition no_false_sharing (c : cclass) : Prop :=
  ∀ base e f i j x y ox oy,
    base `mod` CACHE_LINE_SIZE = 0 →
    c_members c !! i = Some x → place 0 (c_members c) !! i = Some ox →
    c_members c !! j = Some y → place 0 (c_members c) !! j = Some oy →
    e ≠ f ∨ m_writer x ≠ m_writer y →
    ¬ share_line (base + e * sizeof c + ox) (m_size x) (base + f * sizeof c + oy) (m_size y).

(** ** Deciding it *)

(** The first member on the current line has writer [cur]; a member that does
    not start a new line must have the same writer. *)
Fixpoint lines_ok (cur : option role) (ms : list member) : bool :=
  match ms with
  | [] => true
  | m :: ms' =>
      (bool_decide (cur = None) || (m_align m `mod` CACHE_LINE_SIZE =? 0) || bool_decide (cur = Some (m_writer m))) &&
      lines_ok (Some (m_writer m)) ms'
  end.

Definition member_ok (m : member) : bool := (0 <? m_size m) && (0 <? m_align m).

Definition isolates (c : cclass) : bool :=
  forallb member_ok (c_members c) && (0 <? alignof c) && (alignof c `mod` CACHE_LINE_SIZE =? 0) &&
  lines_ok None (c_members c).

Lemma round_up_spec x a : 0 < a → x ≤ round_up x a < x + a ∧ round_up x a `mod` a = 0.
Proof.
  intros Ha. unfold round_up. pose proof (Z.div_mod (x + a - 1) a ltac:(lia)).
  pose proof (Z.mod_pos_bound (x + a - 1) a Ha). split; [nia|apply Z.mod_mul; lia].
Qed.

Lemma mod_line x a : 0 < a → a `mod` CACHE_LINE_SIZE = 0 → x `mod` a = 0 → x `mod` CACHE_LINE_SIZE = 0.
Proof.
  intros Ha Hd Hx. apply Z.mod_divide in Hd; [|done]. apply Z.mod_divide in Hx; [|lia].
  apply Z.mod_divide; [done|]. exact (Z.divide_trans _ _ _ Hd Hx).
Qed.

Lemma place_length pos ms : length (place pos ms) = length ms.
Proof. revert pos. induction ms as [|m ms IH]; intros pos; cbn; [done|]. by rewrite IH. Qed.

(** Every member lies between the starting position and the end. *)
Lemma place_range pos ms i m o :
  forallb member_ok ms = true → ms !! i = Some m → place pos ms !! i = Some o →
  pos ≤ o ∧ o + m_size m ≤ end_of pos ms ∧ 0 < m_size m.
Proof.
  assert (∀ ms pos, forallb member_ok ms = true → pos ≤ end_of pos ms) as Hend.
  { clear. induction ms as [|m ms IH]; intros pos H; cbn in *; [lia|].
    apply andb_true_iff in H as [Hm H]. apply andb_true_iff in Hm as [Hs Ha]. apply Z.ltb_lt in Hs, Ha.
    pose proof (round_up_spec pos (m_align m) Ha). specialize (IH (round_up pos (m_align m) + m_size m) H). lia. }
  revert pos i. induction ms as [|m' ms IH]; intros pos i H Hm Ho; [done|]. cbn in *.
  apply andb_true_iff in H as [Hm' H]. apply andb_true_iff in Hm' as [Hs Ha]. apply Z.ltb_lt in Hs, Ha.
  pose proof (round_up_spec pos (m_align m') Ha). destruct i as [|i]; cbn in *.
  - simplify_eq. pose proof (Hend ms (round_up pos (m_align m) + m_size m) H). lia.
  - destruct (IH _ _ H Hm Ho) as (? & ? & ?). lia.
Qed.

(** A member with another writer than the members before it is preceded by a
    member that starts a new line, or starts one. *)
Lemma lines_ok_sep cur pos ms j y oy :
  forallb member_ok ms = true → lines_ok (Some cur) ms = true →
  ms !! j = Some y → place pos ms !! j = Some oy → m_writer y ≠ cur →
  ∃ b, pos ≤ b ≤ oy ∧ b `mod` CACHE_LINE_SIZE = 0.
Proof.
  revert cur pos j. induction ms as [|m ms IH]; intros cur pos j H Hl Hy Ho Hne; [done|]. cbn in *.
  apply andb_true_iff in H as [Hm H]. pose proof Hm as Hm'.
  apply andb_true_iff in Hm as [Hs Ha]. apply Z.ltb_lt in Hs, Ha.
  apply andb_true_iff in Hl as [Hc Hl].
  pose proof (round_up_spec pos (m_align m) Ha) as [Hr Hmod].
  assert (round_up pos (m_align m) ≤ oy) as Hle.
  { destruct j; cbn in *; [simplify_eq; lia|].
    destruct (place_range (round_up pos (m_align m) + m_size m) ms j y oy) as (? & ? & ?); [done..|]. lia. }
  apply orb_true_iff in Hc as [Hc|Hc].
  - apply Z.eqb_eq in Hc. exists (round_up pos (m_align m)). split; [lia|]. by eapply mod_line.
  - apply bool_decide_eq_true in Hc. injection Hc as ->. destruct j as [|j]; cbn in *; [by simplify_eq|].
    destruct (IH _ _ j H Hl Hy Ho Hne) as (b & ? & ?). exists b. split; [lia|done].
Qed.

(** So it lies on later lines than they do. *)
Lemma lines_ok_before cur pos ms i j x y ox oy :
  forallb member_ok ms = true → lines_ok cur ms = true → (i < j)%nat →
  ms !! i = Some x → place pos ms !! i = Some ox → ms !! j = Some y → place pos ms !! j = Some oy →
  m_writer x ≠ m_writer y → last_line ox (m_size x) < first_line oy.
Proof.
  revert cur pos i j. induction ms as [|m ms IH]; intros cur pos i j H Hl Hij Hx Hox Hy Hoy Hne; [done|].
  destruct j as [|j]; [lia|]. cbn in H, Hl. apply andb_true_iff in H as [_ H]. apply andb_true_iff in Hl as [_ Hl].
  destruct i as [|i]; cbn in Hx, Hox, Hy, Hoy; [|eapply (IH (Some (m_writer m)) _ i j); try done; lia].
  simplify_eq. destruct (lines_ok_sep _ _ ms j y oy H Hl Hy Hoy) as (b & Hb & Hmod); [congruence|].
  unfold last_line, first_line, CACHE_LINE_SIZE in *. apply Z.mod_divide in Hmod as [n ->]; [|done].
  assert ((round_up pos (m_align x) + m_size x - 1) `div` 64 < n) by (apply Z.div_lt_upper_bound; lia).
  assert (n ≤ oy `div` 64) by (apply Z.div_le_lower_bound; lia). lia.
Qed.

Lemma line_shift k a : first_line (k * CACHE_LINE_SIZE + a) = k + first_line a.
Proof. unfold first_line. by rewrite Z.div_add_l. Qed.

Lemma last_line_shift k a s : last_line (k * CACHE_LINE_SIZE + a) s = k + last_line a s.
Proof.
  unfold last_line. replace (k * CACHE_LINE_SIZE + a + s - 1) with (k * CACHE_LINE_SIZE + (a + s - 1)) by lia.
  by rewrite Z.div_add_l.
Qed.

(** The check is sound. *)
Lemma isolates_sound c : isolates c = true → no_false_sharing c.
Proof.
  unfold isolates. rewrite !andb_true_iff. intros (((Hms & Ha) & Hd) & Hl) base e f i j x y ox oy Hb Hx Hox Hy Hoy Hdiff [S1 S2].
  apply Z.ltb_lt in Ha. apply Z.eqb_eq in Hd.
  pose proof (round_up_spec (end_of 0 (c_members c)) (alignof c) Ha) as [Hsz Hmod].
  pose proof (mod_line _ _ Ha Hd Hmod) as Hline. fold (sizeof c) in Hsz, Hline.
  apply Z.mod_divide in Hb as [kb ->], Hline as [n Hn]; [|done..].
  destruct (place_range _ _ _ _ _ Hms Hx Hox) as (X0 & X1 & X2).
  destruct (place_range _ _ _ _ _ Hms Hy Hoy) as (Y0 & Y1 & Y2).
  rewrite Hn in S1, S2.
  replace (kb * CACHE_LINE_SIZE + e * (n * CACHE_LINE_SIZE) + ox) with ((kb + e * n) * CACHE_LINE_SIZE + ox) in S1, S2 by lia.
  replace (kb * CACHE_LINE_SIZE + f * (n * CACHE_LINE_SIZE) + oy) with ((kb + f * n) * CACHE_LINE_SIZE + oy) in S1, S2 by lia.
  rewrite line_shift, last_line_shift in S1, S2.
  assert (∀ o s, 0 ≤ o → o + s ≤ sizeof c → 0 < s → 0 ≤ first_line o ∧ last_line o s < n) as Hin.
  { intros o s H0 H1 H2. unfold first_line, last_line, CACHE_LINE_SIZE in *.
    split; [apply Z.div_pos; lia|apply Z.div_lt_upper_bound; lia]. }
  destruct (Hin ox (m_size x)) as [? ?]; [lia..|]. destruct (Hin oy (m_size y)) as [? ?]; [lia..|].
  destruct (Z.lt_trichotomy e f) as [Hef|[->|Hef]]; [nia| |nia].
  destruct Hdiff as [|Hne]; [done|].
  destruct (Nat.lt_trichotomy i j) as [Hij|[->|Hij]]; [|congruence|].
  - pose proof (lines_ok_before None 0 (c_members c) i j x y ox oy Hms Hl Hij Hx Hox Hy Hoy Hne). lia.
  - pose proof (lines_ok_before None 0 (c_members c) j i y x oy ox Hms Hl Hij Hy Hoy Hx Hox ltac:(congruence)). lia.
Qed.

(** ** The classes of the library

    [sz] and [al] are the size and the alignment of the event type. *)

Section classes.
Context (sz al : Z).

Definition pointer (w : role) : member := Member 8 8 w.
Definition word64 (w : role) : member := Member 8 8 w.
Definition line64 (size : Z) (w : role) : member := Member size 64 w.

(** [padded_wrapper<T>]. *)
Definition padded_wrapper (w : role) : cclass := Class CACHE_LINE_SIZE [Member sz al w].

(** [conduit<T, Size>]: [push] writes the slots and [write_idx_], [pop] writes
    [read_idx_]. *)
Definition conduit_class (Size : Z) : cclass :=
  Class 1 [Member (8 * Size) 8 Producer; line64 8 Producer; line64 8 Consumer].

(** [spsc_ring_buffer<T, Capacity>], whose indices have 32 bits. *)
Definition spsc_class (Capacity : Z) : cclass :=
  Class 1 [Member (8 * Capacity) 8 Producer; line64 4 Producer; line64 4 Consumer].

(** [pool<T>]: the vector is not written after the constructor, the head is
    written by all threads. *)
Definition pool_class : cclass := Class 1 [Member 24 8 Fixed; line64 8 Any].

(** [pool<T>::cell]. *)
Definition cell_class : cclass := Class 1 [Member (Z.max sz 8) (Z.max al 8) Any].

(** [slab_allocator<T, Capacity>] and its [slot], which holds a [T] and a
    32-bit index. *)
Definition slot_class : cclass := Class CACHE_LINE_SIZE [Member sz al Any; Member 4 4 Any].
Definition slab_class (Capacity : Z) : cclass :=
  Class 1 [Member (sizeof slot_class * Capacity) (alignof slot_class) Fixed; line64 8 Any].

(** [wire_frame<T>] and [networked_conduit<T, Capacity>]: [push] writes the ring
    and [tx_head_], the polling thread the rest; [is_dead_] is written by both
    sides, the socket by whoever binds it. *)
Definition wire_frame_class : cclass := Class 64 [Member 4 4 Any; Member sz 1 Any].
Definition net_class (Capacity : Z) : cclass :=
  Class 64 [Member 4 4 Fixed; line64 1 Any;
            line64 (sizeof wire_frame_class * Capacity) Producer; line64 8 Producer;
            line64 8 Consumer; word64 Consumer;
            line64 (sizeof wire_frame_class) Consumer; word64 Consumer].

(** [node_runtime<DomainType, Bindings...>]: the thread in [run] uses the domain
    and the bindings, [stop] is called by another thread; a binding is three
    pointers. *)
Definition node_class (bindings : Z) : cclass :=
  Class 64 [pointer Consumer; Member (24 * bindings) 8 Consumer; line64 1 Any].

(** [telemetry_wrapper<InnerNode>]. *)
Definition wrapper_class : cclass := Class 1 [pointer Fixed; line64 8 Producer].

End classes.

Lemma pow2_line al : (∃ k, 0 ≤ k ∧ al = 2 ^ k) → 0 < al ∧ Z.max al 64 `mod` 64 = 0.
Proof.
  intros (k & Hk & ->). split; [by apply Z.pow_pos_nonneg|].
  destruct (Z.le_gt_cases k 6) as [Hle|Hgt].
  - pose proof (Z.pow_le_mono_r 2 k 6 ltac:(lia) Hle). by rewrite Z.max_r by lia.
  - pose proof (Z.pow_le_mono_r 2 6 k ltac:(lia) ltac:(lia)). rewrite Z.max_l by lia.
    replace k with (k - 6 + 6) by lia. rewrite Z.pow_add_r by lia. by apply Z.mod_mul.
Qed.

Lemma sizeof_pos c :
  forallb member_ok (c_members c) = true → c_members c ≠ [] → 0 < alignof c → 0 < sizeof c.
Proof.
  intros Hms Hne Ha. unfold sizeof. pose proof (round_up_spec (end_of 0 (c_members c)) (alignof c) Ha).
  destruct (c_members c) as [|m ms] eqn:E; [done|].
  destruct (place_range 0 (m :: ms) 0 m (round_up 0 (m_align m)) Hms eq_refl eq_refl) as (? & ? & ?). lia.
Qed.

(** The size the transport uses is the one the compiler computes. *)
Lemma frame_size_layout (n : nat) : sizeof (wire_frame_class (Z.of_nat n)) = Z.of_nat (FRAME_SIZE n).
Proof.
  unfold sizeof, FRAME_SIZE. cbn [wire_frame_class c_members end_of m_align m_size].
  change (alignof (wire_frame_class (Z.of_nat n))) with 64. change (round_up 0 4) with 0. unfold round_up.
  rewrite Nat2Z.inj_mul, Nat2Z.inj_div, !Nat2Z.inj_add. rewrite Z.div_1_r. f_equal. f_equal. lia.
Qed.

Lemma members_ok ms : Forall (λ m, 0 < m_size m ∧ 0 < m_align m) ms → forallb member_ok ms = true.
Proof.
  induction 1 as [|m ms [Hs Ha] _ IH]; [done|]. cbn. rewrite IH. unfold member_ok.
  by rewrite !(proj2 (Z.ltb_lt _ _)).
Qed.

(** Discharge [Forall] over the members of a class. *)
Ltac members := repeat (apply Forall_cons; split; [cbn [m_size m_align line64 word64 pointer]; nia|]); apply Forall_nil_2.

Lemma frame_pos sz : 0 < sz → 0 < sizeof (wire_frame_class sz).
Proof. intros Hsz. apply sizeof_pos; [apply members_ok; members|done|done]. Qed.

Lemma isolated c :
  Forall (λ m, 0 < m_size m ∧ 0 < m_align m) (c_members c) → 0 < alignof c → alignof c `mod` 64 = 0 →
  lines_ok None (c_members c) = true → no_false_sharing c.
Proof.
  intros Hms Ha Hd Hl. apply isolates_sound. unfold isolates. rewrite members_ok, Hl by done.
  rewrite (proj2 (Z.ltb_lt _ _)), (proj2 (Z.eqb_eq _ _)) by done. done.
Qed.

(** C28: No cache line is written by two threads.  For every event type and every
    capacity, in objects that start at a line and in arrays of them: the
    producer's and the consumer's members of a conduit, of the SPSC ring and of
    a networked conduit lie on different lines, and so do the head of a pool or
    of a slab and what is read beside it, the stop flag of a node runtime and
    its bindings, and the counter of a telemetry wrapper; two slots of a slab
    and two padded wrappers never share a line. *)
Theorem library_no_false_sharing sz al Size Capacity bindings :
  0 < sz → (∃ k, 0 ≤ k ∧ al = 2 ^ k) → 0 < Size → 0 < Capacity → 0 < bindings →
  no_false_sharing (conduit_class Size) ∧ no_false_sharing (spsc_class Capacity) ∧
  no_false_sharing (net_class sz Capacity) ∧ no_false_sharing pool_class ∧
  no_false_sharing (slab_class sz al Capacity) ∧ no_false_sharing (slot_class sz al) ∧
  no_false_sharing (node_class bindings) ∧ no_false_sharing wrapper_class ∧
  no_false_sharing (padded_wrapper sz al Any).
Proof.
  intros Hsz Hal HSize HCap Hb. destruct (pow2_line al Hal) as [Ha Hm]. pose proof (frame_pos sz Hsz) as Hf.
  assert (alignof (slot_class sz al) = Z.max al 64) as Eslot by (cbn; unfold CACHE_LINE_SIZE; lia).
  assert (0 < sizeof (slot_class sz al)) as Hslot by (apply sizeof_pos; [apply members_ok; members|done|lia]).
  assert (alignof (slab_class sz al Capacity) = Z.max al 64) as Eslab
    by (change (alignof (slab_class sz al Capacity)) with (Z.max (alignof (slot_class sz al)) (Z.max 64 1)); lia).
  assert (alignof (padded_wrapper sz al Any) = Z.max al 64) as Epad by (cbn; unfold CACHE_LINE_SIZE; lia).
  split_and!; apply isolated; rewrite ?Eslot, ?Eslab, ?Epad; try done; try lia; try (by cbn; members).
Qed.

(** The line of a slot in the pool, in contrast, can hold several events. *)
Lemma pool_cells_share_line :
  sizeof (cell_class 16 8) = 16 ∧ share_line 0 16 (sizeof (cell_class 16 8)) 16.
Proof. by split. Qed.

Lemma library_no_false_sharing_witness :
  no_false_sharing (conduit_class 1024) ∧ place 0 (c_members (conduit_class 1024)) = [0; 8192; 8256] ∧
  sizeof (conduit_class 1024) = 8320.
Proof.
  destruct (library_no_false_sharing 48 8 1024 1024 2 ltac:(lia) ltac:(exists 3; split; [lia|reflexivity])
    ltac:(lia) ltac:(lia) ltac:(lia)) as (H & _).
  split; [exact H|]. split; reflexivity.
Defined.

(** [numa_allocator]: the node is ignored, the memory comes from [operator new],
    the parameter [op_new]. *)
Section numa.
Context {H : Type} (op_new : Z → H → option (Z * H)) (op_delete : Z → H → option H).

Definition numa_allocate (size node_id : Z) (h : H) : option (Z * H) := op_new size h.
Definition numa_deallocate (ptr size : Z) (h : H) : option H := op_delete ptr h.

End numa.
