(* ===== verification/Classes.v ===== *)
(** * Event classes and handler classes (include/conduit/core.hpp, layers 1, 2, 2.5 and 6)

    What the compiler does before [pipeline::dispatch] runs: the classes
    [allocated_event], [extends] and [extended_event], the lookup of
    [CurrentType::base_types] through the base classes, the conversion of the
    event to each base type, and the choice of an [on] overload for an lvalue
    [event_ptr<E>&].  Pipeline.v takes the results, a tree of types and a table
    of overloads; here they are computed from the declarations. *)

From S2P Require Import Prelude EventPtr Pipeline.

Local Open Scope Z_scope.

(** ** Classes *)

(** A class: its identity, its direct base classes with their offsets, and its
    own [using base_types = std::tuple<...>], if it declares one. *)
Inductive cls := Cls (id : Z) (bases : list (Z * cls)) (base_types : option (list cls)).

Definition cls_id (c : cls) : Z := let 'Cls id _ _ := c in id.

(** [allocated_event<Derived, RoutingID>]; [id] names the specialization. *)
Definition allocated_event (id : Z) : cls := Cls id [] None.

(** [extends<Bases...>]: inherits the bases and declares [base_types]. *)
Definition extends (id : Z) (bases : list (Z * cls)) : cls := Cls id bases (Some bases.*2).

(** [extended_event<Derived, RoutingID, Bases...>]; the [extends] part lies at
    offset [off], the bases at their offsets inside it. *)
Definition extended_event (id alloc ext off : Z) (bases : list (Z * cls)) : cls :=
  Cls id [(0, allocated_event alloc); (off, extends ext bases)] None.

(** The subobjects of a class, with their offsets. *)
Fixpoint subobjects (c : cls) : list (Z * Z) :=
  let 'Cls id bases _ := c in
  (id, 0) ::
  (fix each (bs : list (Z * cls)) :=
     match bs with
     | [] => []
     | (o, b) :: bs' => ((λ s, (s.1, o + s.2)) <$> subobjects b) ++ each bs'
     end) bases.

(** The cast of the view constructor, under [requires std::derived_from<U, T>]: the
    offset of the only subobject of class [T]; [None] does not compile. *)
Definition base_offset (E : cls) (T : Z) : option Z :=
  match List.filter (λ s, s.1 =? T) (subobjects E) with [(_, o)] => Some o | _ => None end.

(** ** Looking up [base_types] *)

(** The types to visit: identity, offset in the event, types below. *)
Inductive plan := Plan (id off : Z) (below : option (list plan)).

Definition plan_id (p : plan) : Z := let 'Plan id _ _ := p in id.
Definition plan_off (p : plan) : Z := let 'Plan _ off _ := p in off.

(** The result of a member lookup: the class that declares the name. *)
Inductive found := Absent | Found (decl : Z) (types : list (option plan)) | Ambiguous.

(** Declarations found in two base classes: the same one, or an ambiguity. *)
Definition merge (a b : found) : found :=
  match a, b with
  | Absent, r | r, Absent => r
  | Found d ts, Found d' _ => if d =? d' then a else Ambiguous
  | _, _ => Ambiguous
  end.

(** One instance of [traverse_and_call<Handler, Event, CurrentType>]: the view of
    the event as a [CurrentType], and the base types when
    [requires { typename CurrentType::base_types; }] holds. *)
Definition node (E : cls) (Current : Z) (f : found) : option plan :=
  o ← base_offset E Current;
  match f with
  | Found _ ts => ps ← mapM id ts; Some (Plan Current o (Some ps))
  | _ => Some (Plan Current o None)
  end.

(** The lookup of [base_types] in [c], with the instances for the types named: a
    declaration in [c] hides those of its bases. *)
Fixpoint visit (E c : cls) : found :=
  let 'Cls id bases base_types := c in
  match base_types with
  | Some ts =>
      Found id ((fix each (ts : list cls) :=
                   match ts with [] => [] | t :: ts' => node E (cls_id t) (visit E t) :: each ts' end) ts)
  | None =>
      (fix each (bs : list (Z * cls)) :=
         match bs with [] => Absent | (_, b) :: bs' => merge (visit E b) (each bs') end) bases
  end.

(** The tree of Pipeline.v, with offsets relative to the parent. *)
Fixpoint to_ety (p : plan) : ety :=
  let 'Plan id off below := p in
  Ety id (match below with
          | None => None
          | Some ps => Some ((fix each (ps : list plan) :=
                                match ps with [] => [] | q :: ps' => (plan_off q - off, to_ety q) :: each ps' end) ps)
          end).

(** The instance tree of [dispatch(event_ptr<E>&)]; [None] does not compile. *)
Definition dispatch_plan (E : cls) : option plan := node E (cls_id E) (visit E E).
Definition dispatch_type (E : cls) : option ety := to_ety <$> dispatch_plan E.

(** ** Induction on classes and plans *)

Section inductions.
Context (P : cls → Prop).
Context (Hcls : ∀ id bs ts, Forall (λ ob, P ob.2) bs → from_option (Forall P) True ts → P (Cls id bs ts)).

Fixpoint cls_tree_ind (c : cls) : P c :=
  let 'Cls id bs ts := c in
  Hcls id bs ts
    ((fix go (bs : list (Z * cls)) : Forall (λ ob, P ob.2) bs :=
        match bs with [] => Forall_nil_2 _ | (o, b) :: bs' => Forall_cons_2 _ (o, b) bs' (cls_tree_ind b) (go bs') end) bs)
    (match ts with
     | None => I
     | Some ts => (fix go (ts : list cls) : Forall P ts :=
                     match ts with [] => Forall_nil_2 _ | t :: ts' => Forall_cons_2 _ t ts' (cls_tree_ind t) (go ts') end) ts
     end).
End inductions.

Section plan_induction.
Context (P : plan → Prop).
Context (Hplan : ∀ id off ps, from_option (Forall P) True ps → P (Plan id off ps)).

Fixpoint plan_tree_ind (p : plan) : P p :=
  let 'Plan id off ps := p in
  Hplan id off ps
    (match ps with
     | None => I
     | Some ps => (fix go (ps : list plan) : Forall P ps :=
                     match ps with [] => Forall_nil_2 _ | q :: ps' => Forall_cons_2 _ q ps' (plan_tree_ind q) (go ps') end) ps
     end).
End plan_induction.

(** The types in the order of the calls, with their offsets in the event. *)
Fixpoint postorder (p : plan) : list (Z * Z) :=
  let 'Plan id off below := p in
  match below with
  | None => []
  | Some ps => (fix each (ps : list plan) := match ps with [] => [] | q :: ps' => postorder q ++ each ps' end) ps
  end ++ [(id, off)].

Lemma postorder_bind id off ps : postorder (Plan id off (Some ps)) = (ps ≫= postorder) ++ [(id, off)].
Proof. reflexivity. Qed.

(** The tree given to the dispatcher makes these calls. *)
Lemma linear_to_ety p off : linear off (to_ety p) = (λ c, (c.1, c.2 - plan_off p + off)) <$> postorder p.
Proof.
  revert off. induction p as [id o ps IH] using plan_tree_ind. intros off. destruct ps as [ps|]; cbn.
  - rewrite fmap_app. cbn. f_equal; [|do 2 f_equal; lia].
    cbn in IH. induction IH as [|q ps Hq _ IHps]; [done|]. rewrite fmap_app, <-IHps, Hq. f_equal.
    apply list_fmap_ext. intros _ c _. f_equal. lia.
  - do 2 f_equal. lia.
Qed.

(** ** The calls and the subobjects *)

Definition placed_at (E : cls) (p : plan) : Prop :=
  Forall (λ c, base_offset E c.1 = Some c.2) (postorder p).

Definition found_placed (E : cls) (f : found) : Prop :=
  match f with Found _ ts => Forall (λ o, ∀ p, o = Some p → placed_at E p) ts | _ => True end.

Lemma node_placed E Current f p : found_placed E f → node E Current f = Some p → placed_at E p.
Proof.
  unfold node, placed_at. intros Hf. destruct (base_offset E Current) as [o|] eqn:Eo; [|done]. cbn.
  destruct f as [|d ts|]; [by intros [= <-]; cbn; apply Forall_singleton| |by intros [= <-]; cbn; apply Forall_singleton].
  destruct (mapM id ts) as [ps|] eqn:Em; [|done]. cbn. intros [= <-]. rewrite postorder_bind.
  apply Forall_app. split; [|by apply Forall_singleton]. apply Forall_bind. cbn in Hf.
  apply mapM_Some in Em. induction Em as [|t q ts ps Ht _ IH]; [by constructor|].
  apply Forall_cons in Hf as [Hq Hf]. apply Forall_cons. split; [by apply Hq|by apply IH].
Qed.

Lemma merge_placed E a b : found_placed E a → found_placed E b → found_placed E (merge a b).
Proof. destruct a, b; cbn; try done. by destruct (_ =? _). Qed.

Lemma visit_placed E c : found_placed E (visit E c).
Proof.
  induction c as [id bs ts Hbs Hts] using cls_tree_ind. destruct ts as [ts|]; cbn.
  - cbn in Hts. induction Hts as [|t ts Ht _ IH]; [by constructor|]. apply Forall_cons. split; [|done].
    intros p. by apply node_placed.
  - induction Hbs as [|[o b] bs Hb _ IH]; [done|]. by apply merge_placed.
Qed.

Lemma base_offset_self E o : base_offset E (cls_id E) = Some o → o = 0.
Proof.
  destruct E as [id bs ts]. unfold base_offset. cbn. rewrite Z.eqb_refl. destruct (List.filter _ _); [|done].
  by intros [= <-].
Qed.

(** What a tree that compiles contains: every call is for a class of which the
    event has one subobject, at its offset; the event's own class comes last. *)
Lemma dispatch_type_spec E t :
  dispatch_type E = Some t →
  ety_id t = cls_id E ∧ Forall (λ c, base_offset E c.1 = Some c.2) (linear 0 t) ∧
  ∃ l, linear 0 t = l ++ [(cls_id E, 0)].
Proof.
  unfold dispatch_type. destruct (dispatch_plan E) as [p|] eqn:Ep; [|done]. intros [= <-].
  unfold dispatch_plan in Ep. pose proof (node_placed _ _ _ _ (visit_placed E E) Ep) as Hp.
  assert (plan_id p = cls_id E ∧ base_offset E (cls_id E) = Some (plan_off p)) as [Hid Hoff].
  { unfold node in Ep. destruct (base_offset E (cls_id E)) as [o|]; [|done]. cbn in Ep.
    destruct (visit E E); [by inv_some| |by inv_some]. destruct (mapM id types); cbn in Ep; by inv_some. }
  apply base_offset_self in Hoff.
  assert (linear 0 (to_ety p) = postorder p) as El.
  { rewrite linear_to_ety, Hoff. rewrite <-(list_fmap_id (postorder p)) at 2. apply list_fmap_ext.
    intros i [a b] _. cbn. f_equal. lia. }
  rewrite El. destruct p as [id off below]. cbn in Hid, Hoff. subst. split; [done|]. split; [done|].
  destruct below as [ps|]; [rewrite postorder_bind|]; by eexists.
Qed.

(** ** Handler classes *)

(** How an [on] takes its [event_ptr<E>]: [&], [const &], by value or [&&]. *)
Inductive pass := LRef | ConstLRef | ByValue | RRef.

(** One [on]: the types [E] it accepts, a single one or those of a concept, and
    whether it is a template.  No constraint of a template subsumes another. *)
Record on_decl := On { on_pass : pass; on_accepts : Z → bool; on_template : bool }.

(** Candidates for [h.on(ev)], where [ev] is an lvalue: [&&] does not bind. *)
Definition viable (E : Z) (d : on_decl) : bool :=
  on_accepts d E && match on_pass d with RRef => false | _ => true end.

(** The better conversion: [&] before [const &]; by value compares with neither. *)
Definition better_conversion (a b : on_decl) : bool :=
  match on_pass a, on_pass b with LRef, ConstLRef => true | _, _ => false end.

Definition better (a b : on_decl) : bool :=
  better_conversion a b || (negb (better_conversion b a) && negb (on_template a) && on_template b).

(** Candidate [i] is better than all others. *)
Definition beats (ds : list on_decl) (i : nat) (d : on_decl) : bool :=
  forallb (λ j, (j =? i)%nat || from_option (better d) true (ds !! j)) (seq 0 (length ds)).

Definition best (ds : list on_decl) : option on_decl :=
  head (omap (λ i, d ← ds !! i; if beats ds i d then Some d else None) (seq 0 (length ds))).

(** [requires { h.on(ev); }] and the function called: the best candidate, unless
    it copies the pointer, whose copy constructor is deleted. *)
Definition chosen (ds : list on_decl) (E : Z) : option on_decl :=
  d ← best (List.filter (viable E) ds);
  match on_pass d with ByValue => None | _ => Some d end.

Lemma better_asym a b : better a b = true → better b a = false.
Proof. destruct a as [[] fa []], b as [[] fb []]; cbn; done. Qed.

Lemma beats_spec ds i d :
  beats ds i d = true ↔ ∀ j b, ds !! j = Some b → j ≠ i → better d b = true.
Proof.
  unfold beats. rewrite forallb_forall. split.
  - intros H j b Hj Hne. specialize (H j). rewrite Hj in H. cbn in H.
    rewrite (proj2 (Nat.eqb_neq _ _)) in H by done. apply H, in_seq. apply lookup_lt_Some in Hj. lia.
  - intros H j _. destruct (Nat.eqb_spec j i) as [->|Hne]; [done|]. cbn.
    destruct (ds !! j) as [b|] eqn:Hj; [|done]. by eapply H.
Qed.

(** Two candidates cannot both be better than each other. *)
Lemma beats_unique ds i j a b :
  ds !! i = Some a → ds !! j = Some b → beats ds i a = true → beats ds j b = true → i = j.
Proof.
  intros Hi Hj Ha Hb. destruct (decide (i = j)) as [|Hne]; [done|]. rewrite beats_spec in Ha, Hb.
  pose proof (better_asym _ _ (Ha j b Hj ltac:(done))). by rewrite (Hb i a Hi Hne) in *.
Qed.

(** The candidate selected is the one better than all others, if there is one. *)
Lemma best_spec ds d : best ds = Some d ↔ ∃ i, ds !! i = Some d ∧ beats ds i d = true.
Proof.
  unfold best. set (l := omap _ _).
  assert (∀ x, x ∈ l ↔ ∃ i, ds !! i = Some x ∧ beats ds i x = true) as Hl.
  { intros x. unfold l. rewrite list_elem_of_omap. split.
    - intros (i & Hi & Hx). exists i. destruct (ds !! i) as [y|] eqn:Ey; [|done]. cbn in Hx.
      destruct (beats ds i y) eqn:Eb; [|done]. by injection Hx as <-.
    - intros (i & Hi & Hb). exists i. rewrite Hi. cbn. rewrite Hb. split; [|done].
      apply elem_of_seq. apply lookup_lt_Some in Hi. lia. }
  split.
  - intros Hh. apply Hl. destruct l; [done|]. injection Hh as ->. by left.
  - intros (i & Hi & Hb). assert (d ∈ l) as Hd by (apply Hl; eauto).
    destruct l as [|x l']; [by apply elem_of_nil in Hd|]. cbn. f_equal.
    destruct (proj1 (Hl x)) as (j & Hj & Hbj); [by left|].
    pose proof (beats_unique _ _ _ _ _ Hi Hj Hb Hbj) as <-. congruence.
Qed.

(** A handler class: its [on] functions and what they do for a type. *)
Section handlers.
Context {W : Type}.
Implicit Types (ev : event_ptr W) (w : W).

(** An [on] that takes [const event_ptr<E>&] cannot change the pointer. *)
Definition const_overload (o : overload W) : overload W :=
  match o with
  | OnVoid on => OnVoid (λ ev w, '(_, w') ← on ev w; Some (ev, w'))
  | OnBool on => OnBool (λ ev w, '(b, _, w') ← on ev w; Some (b, ev, w'))
  end.

Record handler_class := HandlerClass { hc_on : list on_decl; hc_body : on_decl → Z → overload W }.

(** [call_on_if_exists] on a handler of the class: the overload for each type. *)
Definition handler_of (h : handler_class) : handler W := λ E,
  d ← chosen (hc_on h) E;
  Some (match on_pass d with ConstLRef => const_overload (hc_body h d E) | _ => hc_body h d E end).

(** The check that [ev'] points to the subobject of class [id] of the event at
    [p]. *)
Definition at_subobject (E : cls) (p id : Z) (ev' : event_ptr W) : bool :=
  bool_decide (base_offset E id = Some (ptr_ ev' - p)).

(** The calls that are made: those for which the class of the handler has an
    [on] that can be called. *)
Definition callable (h : handler_class) (E : Z) : bool := match chosen (hc_on h) E with Some _ => true | None => false end.

Definition real_calls (hs : list handler_class) (t : ety) : list (handler W * (Z * Z)) :=
  hs ≫= λ h, pair (handler_of h) <$> List.filter (λ c, callable h c.1) (linear 0 t).

(** An [on] by [const &] never changes the pointer it is given. *)
Lemma const_keeps h E d :
  chosen (hc_on h) E = Some d → on_pass d = ConstLRef → keeps_pointer E (handler_of h).
Proof.
  intros Hd Hp ev w b ev' w'. unfold call_on_if_exists, handler_of. rewrite Hd. cbn. rewrite Hp.
  destruct (hc_body h d E) as [on|on]; cbn.
  - destruct (on ev w) as [[ev1 w1]|]; cbn; [|done]. intros [= <- <- <-]. by left.
  - destruct (on ev w) as [[[b1 ev1] w1]|]; cbn; [|done]. intros [= <- <- <-]. by left.
Qed.

(** A class with no [on] for a type leaves events of that type alone. *)
Lemma no_on_keeps h E : callable h E = false → keeps_pointer E (handler_of h).
Proof.
  unfold callable. intros Hc ev w b ev' w'. unfold call_on_if_exists, handler_of.
  destruct (chosen (hc_on h) E); [done|]. cbn. intros [= <- <- <-]. by left.
Qed.

Lemma handler_of_none h E : callable h E = false → handler_of h E = None.
Proof. unfold callable, handler_of. by destruct (chosen (hc_on h) E). Qed.

(** Calls for which there is no [on] do nothing. *)
Lemma deliver_real_calls t h cs rest rest' ev w :
  keeps_pointer (ety_id t) (handler_of h) → ep_bool ev = true →
  Forall (λ c, ptr_ ev + c.2 ≠ nullptr) cs →
  (∀ ev' w', ep_bool ev' = true → ptr_ ev' = ptr_ ev → deliver (ety_id t) rest ev' w' = deliver (ety_id t) rest' ev' w') →
  deliver (ety_id t) ((pair (handler_of h) <$> cs) ++ rest) ev w =
  deliver (ety_id t) ((pair (handler_of h) <$> List.filter (λ c, callable h c.1) cs) ++ rest') ev w.
Proof.
  set (p := ptr_ ev). assert (ptr_ ev = p) as Hp by done. clearbody p. intros Hk Hb Hcs Hend.
  revert ev w Hp Hb. induction Hcs as [|[id off] cs Hoff _ IH]; intros ev w Hp Hb; [by apply Hend|].
  cbn [List.filter fst]. destruct (callable h id) eqn:Ec.
  - cbn [fmap list_fmap app deliver].
    destruct (call_current (handler_of h) (ety_id t) id off ev w) as [[[r ev1] w1]|] eqn:E1; [|done].
    cbn [mbind option_bind]. destruct (r && ep_bool ev1) eqn:Er; [|done].
    apply andb_true_iff in Er as [_ Hb1]. apply IH; [|done].
    by rewrite (current_keeps _ _ _ _ _ _ _ _ _ Hk E1 Hb1).
  - cbn [fmap list_fmap app deliver].
    rewrite call_current_skip; [|done|by apply handler_of_none|by rewrite Hp].
    cbn [mbind option_bind]. rewrite Hb. by apply IH.
Qed.

Lemma deliver_real hs t ev w :
  Forall (keeps_pointer (ety_id t)) (handler_of <$> hs) → ep_bool ev = true →
  Forall (λ c, ptr_ ev + c.2 ≠ nullptr) (linear 0 t) →
  deliver (ety_id t) (calls (handler_of <$> hs) t) ev w = deliver (ety_id t) (real_calls hs t) ev w.
Proof.
  intros Hhs. revert ev w. induction hs as [|h hs IH]; intros ev w Hb Hoff; [done|].
  rewrite fmap_cons in Hhs. apply Forall_cons in Hhs as [Hh Hhs].
  change (calls (handler_of <$> h :: hs) t) with ((pair (handler_of h) <$> linear 0 t) ++ calls (handler_of <$> hs) t).
  unfold real_calls at 1. rewrite bind_cons. apply deliver_real_calls; [done..|].
  intros ev' w' Hb' Hp'. apply IH; [done..|]. by rewrite Hp'.
Qed.

(** C16: Dispatching an event of class [E], as its declaration reads.  When the
    templates instantiate (the base types named by [base_types], looked up through
    the base classes, are unambiguous bases), the dispatch makes exactly the
    calls for which overload resolution finds an [on] in the class of the
    handler: handler by handler, the base types first and [E] itself last.
    Every call gets a pointer to the one subobject of its class inside the
    event (handlers that fail on any other pointer behave the same), provided
    that no handler exchanges the event for another one. *)
Theorem class_dispatch_typed E t hs ev w :
  dispatch_type E = Some t → ep_bool ev = true →
  Forall (keeps_pointer (cls_id E)) (handler_of <$> hs) →
  Forall (λ c, ptr_ ev + c.2 ≠ nullptr) (linear 0 t) →
  dispatch (handler_of <$> hs) t ev w
    = ('(_, ev', w') ← deliver (cls_id E) (real_calls hs t) ev w; Some (ev', w')) ∧
  dispatch (guarded (at_subobject E (ptr_ ev)) <$> (handler_of <$> hs)) t ev w
    = dispatch (handler_of <$> hs) t ev w ∧
  ∃ l, linear 0 t = l ++ [(cls_id E, 0)].
Proof.
  intros Ht Hb Hhs Hoff. destruct (dispatch_type_spec E t Ht) as (Hid & Hpl & Hl). rewrite <-Hid in *.
  split_and!; [| |done].
  - unfold dispatch. rewrite Hb. cbn [negb]. by rewrite dispatch_all_deliver, deliver_real.
  - apply dispatch_guarded; [done|]. eapply Forall_impl; [exact Hpl|]. intros [id off] Hbo. cbn in Hbo |- *. split.
    + intros ->. rewrite Hid in Hbo. by apply base_offset_self in Hbo.
    + intros ev' Hp. unfold at_subobject. apply bool_decide_eq_true. rewrite Hp, Hbo. f_equal. lia.
Qed.

End handlers.

(** ** Consequences of the language rules *)

(** [on] functions by value or by [&&] are never called. *)
Lemma chosen_by_reference ds E d :
  chosen ds E = Some d → d ∈ ds ∧ on_accepts d E = true ∧ (on_pass d = LRef ∨ on_pass d = ConstLRef).
Proof.
  unfold chosen. destruct (best _) as [b|] eqn:Hb; [|done]. cbn. apply best_spec in Hb as (i & Hi & _).
  apply list_elem_of_lookup_2, list_elem_of_In, filter_In in Hi as [Hin Hv]. apply list_elem_of_In in Hin.
  unfold viable in Hv. apply andb_true_iff in Hv as [Ha Hp].
  destruct (on_pass b) eqn:Ep; try done; intros [= <-]; rewrite Ep; auto.
Qed.

(** With an [on] of the class for [E] by [&], and all others templates or by
    [const &], the former is called. *)
Lemma exact_on_chosen ds E i d :
  ds !! i = Some d → on_pass d = LRef → on_template d = false → on_accepts d E = true →
  (∀ j b, ds !! j = Some b → j ≠ i → on_accepts b E = true →
     on_pass b = ConstLRef ∨ on_pass b = RRef ∨ (on_pass b = LRef ∧ on_template b = true)) →
  chosen ds E = Some d.
Proof.
  intros Hi Hp Ht Ha Hothers. unfold chosen.
  assert (best (List.filter (viable E) ds) = Some d) as ->; [|cbn; by rewrite Hp].
  apply best_spec. revert i Hi Hothers.
  induction ds as [|x ds IH]; intros i Hi Hothers; [done|].
  assert (∀ b, b ∈ List.filter (viable E) ds → ∃ j, ds !! j = Some b ∧ viable E b = true) as Hf.
  { intros b Hb. apply list_elem_of_In, filter_In in Hb as [Hin Hv]. apply list_elem_of_In in Hin.
    apply list_elem_of_lookup in Hin as [j Hj]. eauto. }
  assert (∀ j b, (x :: ds) !! j = Some b → j ≠ i → viable E b = true → better d b = true) as Hbetter.
  { intros j b Hj Hne Hv. unfold viable in Hv. apply andb_true_iff in Hv as [Hav Hpv].
    unfold better, better_conversion. rewrite Hp, Ht.
    destruct (Hothers j b Hj Hne Hav) as [-> | [Hr | [-> ->]]]; [done| |done]. by rewrite Hr in Hpv. }
  destruct i as [|i].
  - injection Hi as ->. exists 0%nat. cbn. assert (viable E d = true) as -> by (unfold viable; by rewrite Ha, Hp).
    split; [done|]. apply beats_spec. intros [|j] b Hj Hne; [done|]. cbn in Hj.
    destruct (Hf b) as (k & Hk & Hv); [by eapply list_elem_of_lookup_2|]. by apply (Hbetter (S k) b).
  - cbn in Hi. destruct (IH i Hi) as (k & Hk & Hb).
    { intros j b Hj Hne. apply (Hothers (S j) b Hj). lia. }
    cbn. destruct (viable E x) eqn:Hvx; [|by exists k]. exists (S k). split; [done|].
    apply beats_spec. intros [|j] b Hj Hne; cbn in Hj.
    + injection Hj as <-. by apply (Hbetter 0%nat x).
    + rewrite beats_spec in Hb. apply (Hb j b Hj). lia.
Qed.

(** A class without a [base_types] of its own takes that of its only base: the
    handlers of the base itself are not offered the event. *)
Lemma derived_inherits_base_types E id o b : visit E (Cls id [(o, b)] None) = visit E b.
Proof. cbn. by destruct (visit E b). Qed.

(** Two bases that declare [base_types] make the name ambiguous: only handlers
    of the event's own class are called. *)
Lemma two_extends_own_class_only id o1 i1 bs1 o2 i2 bs2 t :
  i1 ≠ i2 → dispatch_type (Cls id [(o1, extends i1 bs1); (o2, extends i2 bs2)] None) = Some t →
  linear 0 t = [(id, 0)].
Proof.
  intros Hne. unfold dispatch_type, dispatch_plan. unfold extends. set (E := Cls _ _ _).
  cbn [visit E]. fold E. cbn [merge]. rewrite (proj2 (Z.eqb_neq _ _)) by done. unfold node.
  destruct (base_offset E (cls_id E)) as [o|]; [|done]. cbn. by intros [= <-].
Qed.

(** ** The hierarchy of tests/test_hierarchical_dispatch_chain.cpp *)

Definition network_frame : cls := Cls 1 [] None.
Definition transport_packet : cls := Cls 3 [(0, extends 2 [(0, network_frame)])] None.
Definition security_alert : cls :=
  Cls 6 [(0, extends 5 [(0, allocated_event 4); (0, transport_packet)])] None.

(** [forensics_engine]: frames traced, packets inspected, alerts processed. *)
Definition forensics_engine : handler_class :=
  let on T := On ConstLRef (Z.eqb T) false in
  HandlerClass [on 1; on 3; on 6] (λ _ E,
    OnVoid (λ ev '(f, p, a), Some (ev, (if E =? 1 then f + 1 else f, if E =? 3 then p + 1 else p,
                                        if E =? 6 then a + 1 else a)))).

Example security_alert_order :
  linear 0 <$> dispatch_type security_alert = Some [(4, 0); (1, 0); (3, 0); (6, 0)].
Proof. reflexivity. Qed.

Lemma class_dispatch_typed_witness :
  ∃ t, dispatch_type security_alert = Some t ∧
  dispatch [handler_of forensics_engine] t (ep_make 4096 (λ _ _ w, Some w) 0) (0, 0, 0)
    = Some (ep_make 4096 (λ _ _ w, Some w) 0, (1, 1, 1)) ∧
  dispatch [guarded (at_subobject security_alert 4096) (handler_of forensics_engine)] t
      (ep_make 4096 (λ _ _ w, Some w) 0) (0, 0, 0)
    = Some (ep_make 4096 (λ _ _ w, Some w) 0, (1, 1, 1)).
Proof.
  destruct (dispatch_type security_alert) as [t|] eqn:Et; [|by vm_compute in Et].
  exists t. split; [done|].
  destruct (class_dispatch_typed security_alert t [forensics_engine]
              (ep_make 4096 (λ _ _ w, Some w) 0) (0, 0, 0) Et) as (H1 & H2 & _).
  - done.
  - apply Forall_cons. split; [|constructor].
    apply (const_keeps _ _ (On ConstLRef (Z.eqb 6) false)); reflexivity.
  - vm_compute in Et. injection Et as <-. repeat constructor; done.
  - vm_compute in Et. injection Et as <-. split; [etransitivity; [exact H1|reflexivity]|].
    etransitivity; [exact H2|]. etransitivity; [exact H1|reflexivity].
Defined.
