(* ===== verification/FineChannel.v ===== *)
(** * The two-thread programs at the grain of memory accesses

    Channel.v lets the two threads of a program call [push] and [pop] as single
    steps.  Here the conduit between them is the one of ConduitConcurrent.v: the
    calls are split at every access to the indices and slots, the threads
    interleave between the accesses, and a load of the other thread's index may
    return any message that is not older than the last one seen.

    The events themselves are plain memory too: the producer constructs an
    event before its push, the consumer reads it after its pop, and nothing but
    the release store and acquire load of [write_idx_] orders the two.  Each
    event is stamped with the slot write that follows its construction; a read
    by a consumer whose clock has not reached the stamp is a data race.  (The
    reuse of a cell is ordered by the pool, see PoolClient.v.)

    The refinement shows that a program that fits its conduit behaves at this
    grain exactly as with calls in one step, so the results of Workers.v carry
    over.  Up to there the calls on the pool are single steps of an [Allocator];
    section [fine_client] makes the program a client of the pool of PoolWeak.v,
    whose calls are split too, and Module DrainMT is the graceful drain over
    it. *)

From Stdlib Require Import String.
From S2P Require Import Prelude EventPtr Interfaces Pool PoolConcurrent PoolWeak PoolClient Conduit ConduitConcurrent Double Stages Channel Workers.
Import PoolWeak.PoolWeak ConduitMT.

Local Open Scope Z_scope.

(** ** The specification's queue: a bounded list *)

Record fifo := Fifo { fifo_items : list Z; fifo_cap : nat }.

#[export] Instance fifo_queue : Queue fifo := {|
  q_push a q := if decide (length (fifo_items q) < fifo_cap q)%nat
                then Some (true, Fifo (fifo_items q ++ [a]) (fifo_cap q)) else Some (false, q);
  q_pop q := match fifo_items q with
             | [] => Some (None, q)
             | a :: l => Some (Some a, Fifo l (fifo_cap q))
             end;
  q_items := fifo_items;
  q_cap := fifo_cap;
  q_inv q := (length (fifo_items q) ≤ fifo_cap q)%nat |}.

#[export] Instance fifo_laws : QueueLaws fifo.
Proof.
  split; cbn.
  - done.
  - intros a q Hq Hr. rewrite decide_True by done. eexists. split_and!; try done. cbn. rewrite length_app. cbn. lia.
  - intros a q Hq Hr. by rewrite decide_False by lia.
  - by intros [] _ ->.
  - intros q a l Hq E. rewrite E in *. eexists. split_and!; try done. cbn in *. lia.
Qed.

(** ** The program *)

Section fine.
Context (Size : Z).
Context {P V L : Type} `{!Allocator P V}.
Context (produce : L → option V) (advance : L → bool → L) (other : Z → L → option L).
Context (stop : V → bool).

Record fine := Fine {
  f_pool : P;
  f_ring : state;
  f_local : L;
  f_flight : option Z;         (* made and released, its push not yet answered *)
  f_consumer : consumer;
  f_sent : list V;
  f_got : list V;
  f_leaked : list Z;
  f_stamp : gmap Z Z;          (* per event: the first slot write after its construction *)
  f_race : bool }.             (* an event was read without order *)

Inductive fine_label :=
  | FMake (sp : list bool)     (* [make(args).release()] *)
  | FRing (l : label)          (* an access of [push] or [pop] *)
  | FLocal (n : Z)             (* another step of the producer *)
  | FHandle (sp : list bool).  (* the consumer's loop body *)

Definition with_ring (r : state) (f : fine) : fine :=
  Fine (f_pool f) r (f_local f) (f_flight f) (f_consumer f) (f_sent f) (f_got f) (f_leaked f) (f_stamp f) (f_race f).

(** [push] has answered; [sent] and [leaked] afterwards. *)
Definition answered (r : state) (ok : bool) (sent : list V) (leaked : list Z) (f : fine) : fine :=
  Fine (f_pool f) r (advance (f_local f) ok) None (f_consumer f) sent (f_got f) leaked (f_stamp f) (f_race f).

Definition with_consumer (r : state) (c : consumer) (f : fine) : fine :=
  Fine (f_pool f) r (f_local f) (f_flight f) c (f_sent f) (f_got f) (f_leaked f) (f_stamp f) (f_race f).

(** The accesses of [push] and [pop], with what their answers mean to the
    threads. *)
Definition ring_step (l : label) (f : fine) : option fine :=
  r ← step Size l (f_ring f);
  match l with
  | PStart ptr => if decide (f_flight f = Some ptr) then Some (with_ring r f) else None
  | PCheck _ =>
      match prod r with
      | PIdle =>
          ptr ← f_flight f;
          Some (answered r false (f_sent f) (if ptr =? nullptr then f_leaked f else ptr :: f_leaked f) f)
      | _ => Some (with_ring r f)
      end
  | PPublish =>
      ptr ← f_flight f;
      if ptr =? nullptr then Some (answered r true (f_sent f) (f_leaked f) f)
      else v ← al_live (f_pool f) !! ptr; Some (answered r true (f_sent f ++ [v]) (f_leaked f) f)
  | CStart => match f_consumer f with Idle => Some (with_ring r f) | _ => None end
  | CPublish =>
      match cons (f_ring f) with
      | CTaken _ ptr => Some (with_consumer r (if ptr =? nullptr then Idle else Have ptr) f)
      | _ => None
      end
  | PWrite | CCheck _ | CRead => Some (with_ring r f)
  end.

Definition fine_step (l : fine_label) (f : fine) : option fine :=
  match l with
  | FMake sp =>
      match f_flight f with
      | Some _ => None
      | None =>
          v ← produce (f_local f);
          '(ptr, p') ← al_make sp v (f_pool f);
          Some (Fine p' (f_ring f) (f_local f) (Some ptr) (f_consumer f) (f_sent f) (f_got f) (f_leaked f)
                  (<[ptr := pwrites (f_ring f) + 1]> (f_stamp f)) (f_race f))
      end
  | FRing l => ring_step l f
  | FLocal n =>
      local ← other n (f_local f);
      Some (Fine (f_pool f) (f_ring f) local (f_flight f) (f_consumer f) (f_sent f) (f_got f) (f_leaked f)
              (f_stamp f) (f_race f))
  | FHandle sp =>
      match f_consumer f with
      | Have p =>
          v ← al_live (f_pool f) !! p;
          stamp ← f_stamp f !! p;
          p' ← al_free sp p (f_pool f);
          Some (Fine p' (f_ring f) (f_local f) (f_flight f) (if stop v then Stopped else Idle) (f_sent f)
                  (f_got f ++ [v]) (f_leaked f) (f_stamp f) (f_race f || negb (stamp <=? cseen (f_ring f))))
      | _ => None
      end
  end.

Definition fine_start (p : P) (junk : list Z) (l : L) : fine :=
  Fine p (start Size junk) l None Idle [] [] [] ∅ false.

Definition fine_reach (f f' : fine) : Prop := rtc (λ f f', ∃ l, fine_step l f = Some f') f f'.

Fixpoint fine_run (ls : list fine_label) (f : fine) : option fine :=
  match ls with [] => Some f | l :: ls' => f1 ← fine_step l f; fine_run ls' f1 end.

Lemma fine_run_reach ls f f' : fine_run ls f = Some f' → fine_reach f f'.
Proof.
  revert f. induction ls as [|l ls IH]; intros f E; cbn in E; [inv_some; apply rtc_refl|].
  destruct (fine_step l f) as [f1|] eqn:E1; [|done]. eapply rtc_l; [by exists l|by apply IH].
Qed.

(** The accesses each thread may make next: a load may read any message from
    the last one seen on. *)
Definition fine_enabled (l : fine_label) (f : fine) : bool :=
  let r := f_ring f in
  match l with
  | FMake _ => match f_flight f with None => bool_decide (is_Some (produce (f_local f))) | _ => false end
  | FLocal n => bool_decide (is_Some (other n (f_local f)))
  | FHandle _ => match f_consumer f with Have _ => true | _ => false end
  | FRing (PStart ptr) => match prod r with PIdle => bool_decide (f_flight f = Some ptr) | _ => false end
  | FRing (PCheck j) => match prod r with PLoaded _ _ => (pview r <=? j)%nat && (j <? length (rlog r))%nat | _ => false end
  | FRing PWrite => match prod r with PChecked _ _ _ => true | _ => false end
  | FRing PPublish => match prod r with PStored _ _ => true | _ => false end
  | FRing CStart => match cons r, f_consumer f with CIdle, Idle => true | _, _ => false end
  | FRing (CCheck j) => match cons r with CLoaded _ => (cview r <=? j)%nat && (j <? length (wlog r))%nat | _ => false end
  | FRing CRead => match cons r with CChecked _ => true | _ => false end
  | FRing CPublish => match cons r with CTaken _ _ => true | _ => false end
  end.

(** ** The abstraction *)

(** The conduit as a list: pushed and not yet popped. *)
Definition in_ring (r : state) : list Z := drop (length (popped r)) (pushed r).

Definition abs (f : fine) : chan P fifo V L :=
  Chan (f_pool f) (Fifo (in_ring (f_ring f)) (Z.to_nat (Size - 1))) (f_local f) (f_flight f) (f_consumer f)
    (f_sent f) (f_got f) (f_leaked f).

(** The call that takes effect at an access. *)
Definition abs_label (l : fine_label) : option chan_label :=
  match l with
  | FMake sp => Some (PMake sp)
  | FRing PPublish => Some PPush
  | FRing CPublish => Some CPop
  | FRing _ => None
  | FLocal n => Some (PLocal n)
  | FHandle sp => Some (CHandle sp)
  end.

(** The pointer of the push the producer is inside of. *)
Definition pushing (p : ppc) : option Z :=
  match p with PIdle => None | PLoaded ptr _ | PChecked ptr _ _ | PStored ptr _ => Some ptr end.

(** The events that were made and not yet handled, oldest first. *)
Definition outstanding (f : fine) : list Z :=
  drop (length (f_got f)) (pushed (f_ring f)) ++ option_list (f_flight f).

(** ** The invariant *)

Context `{!AllocatorLaws P V}.
Context (wf : L → Prop) (budget : L → nat) (script : L → list V) `{HL : !Lossless produce advance other wf budget script}.
Context (HSize : 0 < Size < 2 ^ 64).

Record fine_good (N cap : nat) (f : fine) : Prop := {
  fg_ring : inv Size (f_ring f);
  fg_chan : chan_good produce stop wf budget script N cap (abs f);
  fg_pushing ptr : pushing (prod (f_ring f)) = Some ptr → f_flight f = Some ptr;
  fg_popping : f_consumer f = Idle ∨ cons (f_ring f) = CIdle;
  fg_sent : length (f_sent f) = length (pushed (f_ring f));
  fg_held : drop (length (f_got f)) (pushed (f_ring f)) = held (abs f) ++ in_ring (f_ring f);
  fg_popped : length (popped (f_ring f)) = (length (f_got f) + length (held (abs f)))%nat;
  fg_stamp i p : outstanding f !! i = Some p → f_stamp f !! p = Some (Z.of_nat (length (f_got f) + i) + 1);
  fg_race : f_race f = false }.

(** The outstanding events are the pointers of the abstract program. *)
Lemma outstanding_pointers N cap f : fine_good N cap f → pointers (abs f) = outstanding f.
Proof.
  intros []. unfold pointers, outstanding. rewrite fg_held0.
  destruct fg_chan0 as [_ _ _ _ Hleak Hnull Hfl _]. rewrite Hleak, Hnull, app_nil_r, <-app_assoc. do 2 f_equal.
  unfold flying. cbn [c_flight abs] in *. destruct (f_flight f) as [a|]; [|done].
  destruct (Hfl a eq_refl) as (Ha & _). by apply nonnull_one.
Qed.

Lemma fine_start_good N p junk l :
  al_inv p → al_live p = ∅ → wf l → script l = [] → (budget l ≤ N)%nat → (N ≤ Z.to_nat (Size - 1))%nat →
  Z.of_nat (length junk) = Size → fine_good N (al_room p) (fine_start p junk l).
Proof.
  intros Hp Hl Hw Hs Hb HN Hj. split; try done.
  - by apply ring_start_inv.
  - apply (chan_start_good produce stop wf budget script N p (Fifo [] (Z.to_nat (Size - 1))) l); try done. cbn. lia.
  - by left.
Qed.

(** *** What the ring's steps leave alone *)

Lemma ring_frame l r r' :
  step Size l r = Some r' →
  match l with
  | PPublish => ∃ ptr, pushing (prod r) = Some ptr ∧ pushed r' = pushed r ++ [ptr] ∧ popped r' = popped r ∧ pushing (prod r') = None ∧ cons r' = cons r
  | CPublish => ∃ cr ptr, cons r = CTaken cr ptr ∧ popped r' = popped r ++ [ptr] ∧ pushed r' = pushed r ∧ prod r' = prod r ∧ cons r' = CIdle
  | PStart ptr => pushing (prod r') = Some ptr ∧ pushing (prod r) = None ∧ pushed r' = pushed r ∧ popped r' = popped r ∧ cons r' = cons r
  | PCheck _ | PWrite =>
      (prod r' = PIdle ∨ pushing (prod r') = pushing (prod r)) ∧ is_Some (pushing (prod r)) ∧
      pushed r' = pushed r ∧ popped r' = popped r ∧ cons r' = cons r
  | CStart => prod r' = prod r ∧ pushed r' = pushed r ∧ popped r' = popped r
  | CCheck _ | CRead => cons r ≠ CIdle ∧ prod r' = prod r ∧ pushed r' = pushed r ∧ popped r' = popped r
  end.
Proof.
  destruct l; cbn; intros E;
    repeat match type of E with
    | context [match ?x with _ => _ end] => destruct x eqn:?; cbn in E; try done
    | context [mbind _ ?x] => destruct x eqn:?; cbn in E; try done
    end; try injection E as <-; cbn; try (destruct (_ =? _)); cbn; eauto 10.
Qed.

Lemma in_ring_length r : inv Size r → Z.of_nat (length (in_ring r)) = pushed_n r - popped_n r.
Proof. intros []. unfold in_ring, pushed_n, popped_n in *. rewrite length_drop. lia. Qed.

Lemma in_ring_push r ptr :
  inv Size r → drop (length (popped r)) (pushed r ++ [ptr]) = in_ring r ++ [ptr].
Proof. intros []. unfold in_ring, pushed_n, popped_n in *. apply drop_app_le. lia. Qed.

Lemma in_ring_pop r cr ptr :
  inv Size r → cons r = CTaken cr ptr → in_ring r = ptr :: drop (S (length (popped r))) (pushed r).
Proof.
  intros [] Ec. rewrite Ec in i_cons0. destruct i_cons0 as (_ & _ & Hg). unfold in_ring.
  unfold popped_n, zget in Hg. rewrite decide_True in Hg by lia. rewrite Nat2Z.id in Hg. by apply drop_S.
Qed.

(** A push of a program that fits its conduit is never refused, whichever
    message of [read_idx_] it reads. *)
Lemma check_not_refused N cap f j r :
  (N ≤ Z.to_nat (Size - 1))%nat → fine_good N cap f → step Size (PCheck j) (f_ring f) = Some r → prod r ≠ PIdle.
Proof using All.
  intros HN Hg E Hp. pose proof (ring_frame _ _ _ E) as (_ & [ptr Hpush] & _).
  pose proof (fg_pushing _ _ _ Hg _ Hpush) as Hfl. pose proof (fg_sent _ _ _ Hg) as Hsent.
  destruct (fg_ring _ _ _ Hg), (fg_chan _ _ _ Hg) as [_ Hwf _ Hbud _ _ Hflight _].
  destruct (Hflight ptr Hfl) as (_ & [v Hv] & _). destruct (ll_push produce advance other _ v Hwf Hv) as (_ & Hlt & _). cbn in Hbud, Hlt.
  unfold step in E. destruct (prod (f_ring f)) as [|ptr' cw| |]; try done.
  destruct (Nat.ltb_spec j (pview (f_ring f))); [done|].
  destruct (rlog (f_ring f) !! j) as [m|] eqn:Em; [|done]. pose proof (lookup_lt_Some _ _ _ Em).
  apply i_rlog0 in Em. subst m. cbn in *. injection E as <-. cbn in Hp. subst cw. unfold pushed_n, popped_n in *.
  rewrite next_idx_mod, full_test in Hp by (done || lia).
  match type of Hp with context [Z.eqb ?a ?b] => destruct (Z.eqb_spec a b) end; [lia|done].
Qed.

(** *** The simulation *)

Lemma push_sim N cap f r ptr :
  fine_good N cap f → step Size PPublish (f_ring f) = Some r → f_flight f = Some ptr →
  q_push ptr (c_queue (abs f)) = Some (true, Fifo (in_ring r) (Z.to_nat (Size - 1))).
Proof using All.
  intros Hg E Hfl. pose proof (ring_frame _ _ _ E) as (ptr' & Hp & Epush & Epop & _ & _).
  pose proof (fg_pushing _ _ _ Hg _ Hp). assert (ptr' = ptr) as -> by congruence.
  pose proof (fg_ring _ _ _ Hg) as Hi. pose proof (in_ring_length _ Hi) as Hlen. cbn.
  rewrite decide_True.
  - do 3 f_equal. unfold in_ring at 2. by rewrite Epush, Epop, in_ring_push.
  - destruct Hi. cbn in E. destruct (prod (f_ring f)) as [| | |q nw]; try done.
    destruct i_prod0 as (_ & Hroom & _). unfold pushed_n, popped_n in *. lia.
Qed.

Lemma fine_sim N cap l f f' :
  (N ≤ Z.to_nat (Size - 1))%nat → fine_good N cap f → fine_step l f = Some f' →
  match abs_label l with
  | Some al => chan_step produce advance other stop al (abs f) = Some (abs f')
  | None => abs f' = abs f
  end.
Proof using All.
  intros HN Hg E. destruct l as [sp|l|n|sp].
  - cbn in E |- *. destruct (f_flight f); [done|]. destruct (produce (f_local f)) as [v|]; [|done]. cbn in E |- *.
    destruct (al_make sp v (f_pool f)) as [[ptr p']|]; [|done]. cbn in E |- *. by injection E as <-.
  - cbn [fine_step] in E. unfold ring_step in E. destruct (step Size l (f_ring f)) as [r|] eqn:Er; [|done].
    cbn [mbind option_bind] in E. pose proof (ring_frame _ _ _ Er) as Hfr.
    assert (pushed r = pushed (f_ring f) → popped r = popped (f_ring f) → abs (with_ring r f) = abs f) as Hsame.
    { intros E1 E2. unfold abs, with_ring, in_ring. cbn. by rewrite E1, E2. }
    destruct l as [ptr|j| | | |j| |]; cbn [abs_label].
    + case_decide; [|done]. injection E as <-. destruct Hfr as (_ & _ & ? & ? & _). by apply Hsame.
    + pose proof (check_not_refused _ _ _ _ _ HN Hg Er). destruct Hfr as (_ & _ & ? & ? & _).
      destruct (prod r); [done|..]; injection E as <-; by apply Hsame.
    + injection E as <-. destruct Hfr as (_ & _ & ? & ? & _). by apply Hsame.
    + destruct (f_flight f) as [ptr|] eqn:Ef; [|done]. cbn [mbind option_bind] in E.
      pose proof (push_sim _ _ _ _ _ Hg Er Ef) as Hpush.
      cbn [chan_step]. change (c_flight (abs f)) with (f_flight f). rewrite Ef. cbn [mbind option_bind].
      rewrite Hpush. cbn [mbind option_bind]. destruct (ptr =? nullptr); [by injection E as <-|].
      change (c_pool (abs f)) with (f_pool f). destruct (al_live (f_pool f) !! ptr) as [v|]; [|done]. cbn in E |- *.
      by injection E as <-.
    + destruct (f_consumer f); try done. injection E as <-. destruct Hfr as (_ & ? & ?). by apply Hsame.
    + injection E as <-. destruct Hfr as (_ & _ & ? & ?). by apply Hsame.
    + injection E as <-. destruct Hfr as (_ & _ & ? & ?). by apply Hsame.
    + destruct Hfr as (cr & ptr & Ec & Epop & Epush & _ & _). rewrite Ec in E. injection E as <-.
      destruct (fg_popping _ _ _ Hg) as [Hidle|?]; [|congruence].
      cbn [chan_step]. change (c_consumer (abs f)) with (f_consumer f). rewrite Hidle.
      cbn -[in_ring]. rewrite (in_ring_pop _ _ _ (fg_ring _ _ _ Hg) Ec). cbn. unfold abs. cbn.
      do 2 f_equal. unfold in_ring. by rewrite Epop, Epush, length_app, Nat.add_1_r.
  - cbn in E |- *. destruct (other n (f_local f)); [|done]. cbn in E |- *. by injection E as <-.
  - cbn in E |- *. destruct (f_consumer f) as [|p|]; try done.
    destruct (al_live (f_pool f) !! p) as [v|]; [|done]. cbn in E |- *.
    destruct (f_stamp f !! p); [|done]. cbn in E |- *. destruct (al_free sp p (f_pool f)); [|done]. cbn in E |- *.
    by injection E as <-.
Qed.

Lemma chan_good_step N cap l f f' :
  (N ≤ cap)%nat → (N ≤ Z.to_nat (Size - 1))%nat → fine_good N cap f → fine_step l f = Some f' →
  chan_good produce stop wf budget script N cap (abs f').
Proof using All.
  intros Hc HN Hg E. pose proof (fine_sim _ _ _ _ _ HN Hg E) as Hs. pose proof (fg_chan _ _ _ Hg) as Hch.
  destruct (abs_label l) as [al|]; [|by rewrite Hs].
  apply (good_reach produce advance other stop wf budget script N cap (abs f)); [done..|]. apply rtc_once. by exists al.
Qed.

(** Steps that do not touch the lists of events. *)
Lemma fine_good_ring N cap f r :
  fine_good N cap f → inv Size r → chan_good produce stop wf budget script N cap (abs (with_ring r f)) →
  (∀ ptr, pushing (prod r) = Some ptr → f_flight f = Some ptr) →
  (f_consumer f = Idle ∨ cons r = CIdle) →
  pushed r = pushed (f_ring f) → popped r = popped (f_ring f) → fine_good N cap (with_ring r f).
Proof.
  intros [] Hi Hch Hpush Hcons E1 E2. unfold in_ring, outstanding in *.
  split; unfold in_ring, outstanding; cbn; rewrite ?E1, ?E2; done.
Qed.

Lemma fine_good_make N cap sp f f' :
  (N ≤ cap)%nat → (N ≤ Z.to_nat (Size - 1))%nat → fine_good N cap f → fine_step (FMake sp) f = Some f' →
  fine_good N cap f'.
Proof using All.
  intros Hc HN Hg E. pose proof (chan_good_step _ _ _ _ _ Hc HN Hg E) as Hch.
  pose proof (outstanding_pointers _ _ _ Hg) as Hpt. destruct Hg. cbn in E.
  destruct (f_flight f) eqn:Ef; [done|]. destruct (produce (f_local f)) as [v|]; [|done]. cbn in E.
  destruct (al_make_cases sp v (f_pool f) (ci_al _ _ _ (cg_inv _ _ _ _ _ _ _ _ fg_chan0)))
    as [[_ Em]|(a & p' & Em & Ha & Hfree & Hl & Hr & Hp')]; rewrite Em in E; cbn in E; injection E as <-.
  { destruct (cg_flight _ _ _ _ _ _ _ _ Hch 0 eq_refl) as [Hnull _]. done. }
  assert (a ∉ outstanding f) as Hna.
  { rewrite <-Hpt, <-(ci_live _ _ _ (cg_inv _ _ _ _ _ _ _ _ fg_chan0)). cbn. rewrite Hfree. by intros []. }
  assert (pushing (prod (f_ring f)) = None) as Hidle.
  { destruct (pushing _) as [ptr|] eqn:Ep; [|done]. discriminate (fg_pushing0 _ eq_refl). }
  split; cbn; try done; [by rewrite Hidle|].
  unfold outstanding in *. cbn. rewrite Ef in *. cbn in *. rewrite app_nil_r in *. intros i q.
  rewrite lookup_app_Some. intros [Hi|[Hi Hq]].
  - rewrite lookup_insert_ne by (intros <-; by apply Hna, (list_elem_of_lookup_2 _ i)). by apply fg_stamp0.
  - apply list_lookup_singleton_Some in Hq as [Hq <-]. rewrite lookup_insert_eq. f_equal.
    destruct fg_ring0. rewrite length_drop in *. unfold pushed_n in *.
    pose proof fg_popped0. unfold popped_n in *.
    destruct i_count0 as [-> _]. destruct (prod (f_ring f)); try done. cbn. lia.
Qed.

Lemma fine_good_handle N cap sp f f' :
  (N ≤ cap)%nat → (N ≤ Z.to_nat (Size - 1))%nat → fine_good N cap f → fine_step (FHandle sp) f = Some f' →
  fine_good N cap f'.
Proof using All.
  intros Hc HN Hg E. pose proof (chan_good_step _ _ _ _ _ Hc HN Hg E) as Hch.
  destruct Hg. cbn in E. destruct (f_consumer f) as [|p|] eqn:Ec; try done.
  destruct (al_live (f_pool f) !! p) as [v|]; [|done]. cbn in E.
  destruct (f_stamp f !! p) as [stamp|] eqn:Est; [|done]. cbn in E.
  destruct (al_free sp p (f_pool f)) as [p'|]; [|done]. cbn in E. injection E as <-.
  unfold held in *. cbn [c_consumer abs] in *. rewrite Ec in *. cbn [app length] in *.
  assert (stamp = Z.of_nat (length (f_got f)) + 1) as ->.
  { rewrite (fg_stamp0 0%nat p) in Est; [injection Est as <-; lia|]. unfold outstanding. by rewrite fg_held0. }
  assert (drop (length (f_got f ++ [v])) (pushed (f_ring f)) = in_ring (f_ring f)) as Hdrop.
  { rewrite length_app. rewrite <-drop_drop, fg_held0. done. }
  split; cbn -[in_ring]; try done.
  - destruct fg_popping0; [done|by right].
  - rewrite Hdrop. unfold held. cbn -[in_ring]. by destruct (stop v).
  - rewrite length_app. unfold held. cbn. destruct (stop v); cbn; lia.
  - unfold outstanding in *. cbn -[in_ring] in *. rewrite Hdrop. intros i q Hi. rewrite (fg_stamp0 (S i) q).
    + rewrite length_app. cbn. f_equal. lia.
    + by rewrite fg_held0.
  - rewrite fg_race0. cbn. rewrite (proj2 (Z.leb_le _ _)); [done|]. destruct fg_ring0. unfold popped_n in *. lia.
Qed.

Lemma fine_good_publish N cap f f' :
  (N ≤ cap)%nat → (N ≤ Z.to_nat (Size - 1))%nat → fine_good N cap f → fine_step (FRing PPublish) f = Some f' →
  fine_good N cap f'.
Proof using All.
  intros Hc HN Hg E. pose proof (chan_good_step _ _ _ _ _ Hc HN Hg E) as Hch. cbn [fine_step ring_step] in E.
  unfold ring_step in E. destruct (step Size PPublish (f_ring f)) as [r|] eqn:Er; [|done].
  cbn [mbind option_bind] in E. pose proof (ring_frame _ _ _ Er) as (ptr & Hp & Epush & Epop & Hidle & Econs).
  destruct Hg. pose proof (fg_pushing0 _ Hp) as Hfl. rewrite Hfl in E. cbn [mbind option_bind] in E.
  destruct (cg_flight _ _ _ _ _ _ _ _ fg_chan0 ptr Hfl) as (Hne & _).
  rewrite (proj2 (Z.eqb_neq _ _)) in E by done. destruct (al_live (f_pool f) !! ptr) as [v|]; [|done]. cbn in E.
  injection E as <-. pose proof (ring_step_inv Size HSize _ _ _ fg_ring0 Er) as Hi'.
  assert (length (f_got f) ≤ length (pushed (f_ring f)))%nat as Hgot.
  { destruct fg_ring0. unfold pushed_n, popped_n in *. lia. }
  split; try done.
  - cbn. by rewrite Hidle.
  - cbn. by rewrite Econs.
  - cbn. rewrite Epush, !length_app, fg_sent0. done.
  - cbn. unfold in_ring. rewrite Epush, Epop, in_ring_push, drop_app_le by done. by rewrite fg_held0, <-app_assoc.
  - cbn. by rewrite Epop.
  - unfold outstanding in *. cbn. rewrite Epush, drop_app_le, app_nil_r by done. rewrite Hfl in fg_stamp0. done.
Qed.

Lemma fine_good_taken N cap f f' :
  (N ≤ cap)%nat → (N ≤ Z.to_nat (Size - 1))%nat → fine_good N cap f → fine_step (FRing CPublish) f = Some f' →
  fine_good N cap f'.
Proof using All.
  intros Hc HN Hg E. pose proof (chan_good_step _ _ _ _ _ Hc HN Hg E) as Hch. cbn [fine_step] in E.
  unfold ring_step in E. destruct (step Size CPublish (f_ring f)) as [r|] eqn:Er; [|done].
  cbn [mbind option_bind] in E. pose proof (ring_frame _ _ _ Er) as (cr & ptr & Ec & Epop & Epush & Eprod & Econs).
  rewrite Ec in E. injection E as <-. destruct Hg.
  destruct fg_popping0 as [Hidle|?]; [|congruence].
  pose proof (in_ring_pop _ _ _ fg_ring0 Ec) as Hin. pose proof (ring_step_inv Size HSize _ _ _ fg_ring0 Er) as Hi'.
  unfold held in *. cbn [c_consumer abs] in *. rewrite Hidle in *. cbn [app length] in *.
  assert (ptr ≠ nullptr) as Hne.
  { intros ->. apply (ci_nonnull _ _ _ (cg_inv _ _ _ _ _ _ _ _ fg_chan0)). unfold pointers.
    rewrite (cg_nulls _ _ _ _ _ _ _ _ fg_chan0). cbn -[in_ring]. rewrite Hin.
    apply elem_of_app. right. by left. }
  split; cbn; unfold held, outstanding in *; cbn; rewrite ?Epush, ?Eprod, ?(proj2 (Z.eqb_neq ptr nullptr)) by done;
    try done.
  - by rewrite (proj2 (Z.eqb_neq ptr nullptr)) in Hch.
  - by right.
  - rewrite fg_held0, Hin. unfold in_ring. by rewrite Epop, Epush, length_app, Nat.add_1_r.
  - rewrite Epop, length_app, fg_popped0. cbn. lia.
Qed.

Lemma fine_good_access N cap l f f' :
  (N ≤ cap)%nat → (N ≤ Z.to_nat (Size - 1))%nat → fine_good N cap f → fine_step (FRing l) f = Some f' →
  l ≠ PPublish → l ≠ CPublish → fine_good N cap f'.
Proof using All.
  intros Hc HN Hg E H1 H2. pose proof (chan_good_step _ _ _ _ _ Hc HN Hg E) as Hch. cbn [fine_step] in E.
  unfold ring_step in E. destruct (step Size l (f_ring f)) as [r|] eqn:Er; [|done]. cbn [mbind option_bind] in E.
  pose proof (ring_frame _ _ _ Er) as Hfr. pose proof (ring_step_inv Size HSize _ _ _ (fg_ring _ _ _ Hg) Er) as Hi'.
  pose proof (fg_pushing _ _ _ Hg) as Hpu. pose proof (fg_popping _ _ _ Hg) as Hpo.
  assert (f' = with_ring r f ∧ (∀ q, pushing (prod r) = Some q → f_flight f = Some q) ∧
          (f_consumer f = Idle ∨ cons r = CIdle) ∧ pushed r = pushed (f_ring f) ∧ popped r = popped (f_ring f))
    as (-> & ? & ? & ? & ?); [|by apply fine_good_ring].
  destruct l as [ptr|j| | | |j| |]; try done.
  - destruct Hfr as (Hp & _ & ? & ? & ->). case_decide; [|done]. injection E as <-. split_and!; try done.
    intros q. by rewrite Hp; intros [= <-].
  - destruct Hfr as (Hp & _ & ? & ? & ->). pose proof (check_not_refused _ _ _ _ _ HN Hg Er) as Hne.
    destruct Hp as [Hp|Hp]; [done|]. rewrite Hp.
    destruct (prod r); [done|injection E as <-..]; done.
  - destruct Hfr as (Hp & _ & ? & ? & ->). injection E as <-. split_and!; try done.
    by destruct Hp as [->|Hp]; [|rewrite Hp].
  - destruct Hfr as (-> & ? & ?). destruct (f_consumer f); [injection E as <-|done..]. auto 10.
  - destruct Hfr as (Hne & -> & ? & ?). injection E as <-. destruct Hpo; [auto 10|done].
  - destruct Hfr as (Hne & -> & ? & ?). injection E as <-. destruct Hpo; [auto 10|done].
Qed.

Lemma fine_good_step N cap l f f' :
  (N ≤ cap)%nat → (N ≤ Z.to_nat (Size - 1))%nat → fine_good N cap f → fine_step l f = Some f' → fine_good N cap f'.
Proof using All.
  intros Hc HN Hg E. destruct l as [sp|l|n|sp].
  - by apply (fine_good_make _ _ sp f).
  - destruct l; try (by eapply fine_good_access); [by apply (fine_good_publish _ _ f)|by apply (fine_good_taken _ _ f)].
  - pose proof (chan_good_step _ _ _ _ _ Hc HN Hg E) as Hch. cbn in E.
    destruct (other n (f_local f)); [|done]. cbn in E. injection E as <-. by destruct Hg.
  - by apply (fine_good_handle _ _ sp f).
Qed.

(** The refinement: every run at the grain of accesses is a run of calls. *)
Lemma fine_refines N cap f f' :
  (N ≤ cap)%nat → (N ≤ Z.to_nat (Size - 1))%nat → fine_good N cap f → fine_reach f f' →
  fine_good N cap f' ∧ chan_reach produce advance other stop (abs f) (abs f').
Proof using All.
  intros Hc HN Hg Hr. induction Hr as [f|f f1 f' [l E] _ IH]; [split; [done|apply rtc_refl]|].
  destruct IH as [Hg' Hr']; [by eapply fine_good_step|]. split; [done|].
  pose proof (fine_sim _ _ _ _ _ HN Hg E) as Hs. destruct (abs_label l) as [al|]; [|by rewrite <-Hs].
  eapply rtc_l; [by exists al|done].
Qed.

(** No access a thread may make next can fail. *)
Lemma fine_ring_progress N cap l f :
  fine_good N cap f → fine_enabled (FRing l) f = true → is_Some (fine_step (FRing l) f).
Proof using All.
  intros Hg He. pose proof Hg as []. cbn [fine_step fine_enabled] in *. unfold ring_step.
  pose proof fg_ring0 as []. destruct l as [ptr|j| | | |j| |].
  - cbn. destruct (prod (f_ring f)); try done. rewrite (log_last Size _ _ (proj1 i_wlog0) (proj2 i_wlog0)).
    apply bool_decide_eq_true in He. cbn. by rewrite decide_True.
  - unfold step. destruct (prod (f_ring f)) as [|ptr cw| |]; try done. apply andb_true_iff in He as [H1 H2].
    apply Nat.leb_le in H1. apply Nat.ltb_lt in H2. rewrite (proj2 (Nat.ltb_ge _ _)) by done.
    destruct (lookup_lt_is_Some_2 (rlog (f_ring f)) j H2) as [m ->]. cbn.
    rewrite (fg_pushing0 ptr eq_refl). destruct (_ =? _); by eexists.
  - destruct (prod (f_ring f)) as [| |ptr cw nw|] eqn:Ep; try done.
    destruct (prod_slot Size HSize _ _ _ _ fg_ring0 Ep) as [r ->]. by eexists.
  - cbn. destruct (prod (f_ring f)) as [| | |ptr nw]; try done. cbn. pose proof (fg_pushing0 ptr eq_refl) as Hf.
    rewrite Hf. cbn. destruct (cg_flight _ _ _ _ _ _ _ _ fg_chan0 ptr Hf) as (Hne & [v Hv] & Hl).
    rewrite (proj2 (Z.eqb_neq _ _)) by done. cbn in Hl, Hv. rewrite Hl, Hv. by eexists.
  - cbn. destruct (cons (f_ring f)), (f_consumer f); try done.
    rewrite (log_last Size _ _ (proj1 i_rlog0) (proj2 i_rlog0)). by eexists.
  - unfold step. destruct (cons (f_ring f)); try done. apply andb_true_iff in He as [H1 H2].
    apply Nat.leb_le in H1. apply Nat.ltb_lt in H2. rewrite (proj2 (Nat.ltb_ge _ _)) by done.
    destruct (lookup_lt_is_Some_2 (wlog (f_ring f)) j H2) as [m ->]. by eexists.
  - destruct (cons (f_ring f)) as [| |cr|] eqn:Ep; try done.
    destruct (cons_slot Size HSize _ _ fg_ring0 Ep) as [r ->]. by eexists.
  - cbn. destruct (cons (f_ring f)); done.
Qed.

Lemma fine_progress N cap l f :
  fine_good N cap f → fine_enabled l f = true → is_Some (fine_step l f).
Proof using All.
  intros Hg He. destruct l as [sp|l|n|sp]; [|by eapply fine_ring_progress| |].
  - pose proof (cg_inv _ _ _ _ _ _ _ _ (fg_chan _ _ _ Hg)) as Hi. cbn in *. destruct (f_flight f); [done|].
    apply bool_decide_eq_true in He as [v ->]. cbn.
    destruct (al_make_cases sp v (f_pool f) (ci_al _ _ _ Hi)) as [[_ ->]|(a & p' & -> & _)]; by eexists.
  - cbn in *. apply bool_decide_eq_true in He as [l ->]. by eexists.
  - pose proof (cg_inv _ _ _ _ _ _ _ _ (fg_chan _ _ _ Hg)) as Hi. destruct Hg. cbn in *.
    unfold held in *. cbn in fg_held0. destruct (f_consumer f) as [|p|] eqn:Ec; try done.
    destruct (proj2 (ci_live _ _ _ Hi p)) as [v Hv].
    { unfold pointers, held. cbn. rewrite Ec. by left. }
    cbn in Hv. rewrite Hv. cbn. rewrite (fg_stamp0 0%nat p) by (unfold outstanding; by rewrite fg_held0). cbn.
    destruct (al_free_live sp p v (f_pool f) (ci_al _ _ _ Hi) Hv) as (p' & -> & _). by eexists.
Qed.

(** A program that fits its pool and its conduit, at the grain of accesses:
    neither a slot nor an event is accessed without a happens-before order, every
    access a thread is about to make is possible, and the run is one of the
    program whose calls are single steps. *)
Lemma fine_safe N p junk l f :
  al_inv p → al_live p = ∅ → (N ≤ al_room p)%nat → (N ≤ Z.to_nat (Size - 1))%nat → Z.of_nat (length junk) = Size →
  wf l → script l = [] → (budget l ≤ N)%nat → fine_reach (fine_start p junk l) f →
  (f_race f = false ∧ race (f_ring f) = false ∧
   (∀ l, fine_enabled l f = true → is_Some (fine_step l f)) ∧
   chan_reach produce advance other stop (chan_start p (Fifo [] (Z.to_nat (Size - 1))) l) (abs f)) ∧
  chan_good produce stop wf budget script N (al_room p) (abs f).
Proof using All.
  intros Hp Hl Hroom HN Hj Hw Hs Hb Hr.
  destruct (fine_refines N (al_room p) (fine_start p junk l) f) as [Hg Hch];
    [done|done|by apply fine_start_good|done|].
  split_and!; [apply Hg|apply Hg| |done|apply Hg]. intros l' He. by eapply fine_progress.
Qed.

End fine.

Arguments fine P V L : clear implicits.

(** ** The pool's calls split as well *)

Section fine_client.
Context (Size : Z) {V L : Type}.
Context (produce : L → option V) (advance : L → bool → L) (other : Z → L → option L) (stop : V → bool).

(** The thread of a local step of the program: the producer's (0), or another
    one that leaves the producer's next event alone. *)
Context (who : Z → nat).

Definition fine_thread (l : fine_label) : nat :=
  match l with
  | FMake _ | FRing (PStart _) | FRing (PCheck _) | FRing PWrite | FRing PPublish => 0
  | FRing CStart | FRing (CCheck _) | FRing CRead | FRing CPublish | FHandle _ => 1
  | FLocal n => who n
  end.

(** The producer stands at [make] when it has a push to do and no event. *)
Definition fine_makes (f : fine (spool V) V L) : option V :=
  match f_flight f with None => produce (f_local f) | Some _ => None end.

(** The consumer's loop body ends with [free]. *)
Definition fine_use (l : fine_label) (f : fine (spool V) V L) : option (use V) :=
  match l, f_consumer f with FHandle _, Have p => Some (Free p) | _, _ => None end.

#[local] Instance fine_client : Client V (fine (spool V) V L) fine_label := {|
  cl_step := fine_step Size produce advance other stop;
  cl_thread := fine_thread;
  cl_pool := f_pool;
  cl_makes := fine_makes;
  cl_make := FMake;
  cl_use := fine_use |}.

Context (wf : L → Prop) (budget : L → nat) (script : L → list V) `{HL : !Lossless produce advance other wf budget script}.
Context (HSize : 0 < Size < 2 ^ 64) (N : nat) (cap : Z) (HN : (N ≤ Z.to_nat cap)%nat) (HNS : (N ≤ Z.to_nat (Size - 1))%nat).
Context (Hwho : ∀ n l l', who n ≠ 0%nat → other n l = Some l' → produce l' = produce l).

(** The events made so far. *)
Definition fine_made (f : fine (spool V) V L) : nat :=
  (length (f_sent f) + match f_flight f with Some _ => 1 | None => 0 end)%nat.

Abbreviation good := (fine_good Size produce stop wf budget script N (Z.to_nat cap)).

(** What an access of [push] or [pop] changes besides the ring. *)
Lemma ring_step_keeps l (f f' : fine (spool V) V L) :
  good f → fine_step Size produce advance other stop (FRing l) f = Some f' →
  f_pool f' = f_pool f ∧ fine_made f' = fine_made f ∧ (fine_thread (FRing l) ≠ 0%nat → fine_makes f' = fine_makes f).
Proof using All.
  intros Hg E. cbn [fine_step] in E. unfold ring_step in E.
  destruct (step Size l (f_ring f)) as [r|] eqn:Er; [|done]. cbn [mbind option_bind] in E.
  destruct l as [ptr|j| | | |j| |]; cbn [fine_thread] in *.
  - case_decide; [|done]. by injection E as <-.
  - pose proof (check_not_refused Size produce advance other stop wf budget script HSize _ _ _ _ _ HNS Hg Er).
    destruct (prod r); [done|by injection E as <-..].
  - by injection E as <-.
  - destruct (f_flight f) as [ptr|] eqn:Ef; [|done]. cbn [mbind option_bind] in E.
    destruct (cg_flight _ _ _ _ _ _ _ _ (fg_chan _ _ _ _ _ _ _ _ _ Hg) ptr Ef) as (Hne & _).
    rewrite (proj2 (Z.eqb_neq _ _)) in E by done. destruct (al_live (f_pool f) !! ptr); [|done]. cbn in E. injection E as <-.
    split; [done|]. split; [|done]. unfold fine_made. cbn. rewrite Ef, length_app. cbn. lia.
  - destruct (f_consumer f); try done. by injection E as <-.
  - by injection E as <-.
  - by injection E as <-.
  - destruct (cons (f_ring f)); try done. by injection E as <-.
Qed.

#[local] Instance fine_client_laws : ClientLaws V (fine (spool V) V L) fine_label cap good fine_made.
Proof using All.
  split; cbn [cl_step cl_thread cl_pool cl_makes cl_make cl_use fine_client].
  - intros f v Hg Hm. unfold fine_makes in Hm. unfold fine_made. destruct (f_flight f); [done|].
    pose proof (fg_chan _ _ _ _ _ _ _ _ _ Hg) as Hc. destruct (ll_push produce advance other _ v (cg_wf _ _ _ _ _ _ _ _ Hc) Hm) as (_ & Hlt & _).
    pose proof (cg_budget _ _ _ _ _ _ _ _ Hc) as Hb. cbn in Hb, Hlt. lia.
  - intros f v sp a Hg Hm Hch. unfold fine_makes in Hm. destruct (f_flight f) eqn:Ef; [done|].
    destruct (fine_step Size produce advance other stop (FMake sp) f) as [f'|] eqn:E;
      [|cbn [fine_step al_make spool_allocator] in E; by rewrite Ef, Hm in E; cbn [mbind option_bind] in E; rewrite Hch in E].
    exists f'. split; [done|]. split; [exact (fine_good_step Size produce advance other stop wf budget script HSize N _ _ f f' HN HNS Hg E)|]. cbn [fine_step al_make spool_allocator] in E.
    rewrite Ef, Hm in E. cbn [mbind option_bind] in E. rewrite Hch in E. cbn in E. injection E as <-.
    unfold fine_made. cbn. rewrite Ef. split; [lia|done].
  - intros l f f' Hg E Hm. split; [exact (fine_good_step Size produce advance other stop wf budget script HSize N _ _ f f' HN HNS Hg E)|]. destruct l as [sp|l|n|sp].
    + exfalso. specialize (Hm eq_refl). unfold fine_makes in Hm. cbn in E. destruct (f_flight f); [done|]. by rewrite Hm in E.
    + destruct (ring_step_keeps l f f' Hg E) as (Hp & Hmd & Hmk). split; [done|]. split; [done|]. exact Hp.
    + cbn in E. destruct (other n (f_local f)) as [l'|] eqn:El; [|done]. cbn in E. injection E as <-. split; [done|].
      split; [|done]. intros Hw. unfold fine_makes. cbn. by rewrite (Hwho _ _ _ Hw El).
    + pose proof (cg_inv _ _ _ _ _ _ _ _ (fg_chan _ _ _ _ _ _ _ _ _ Hg)) as Hi. cbn in E. unfold fine_use.
      destruct (f_consumer f) as [|p|]; try done. destruct (sp_live (f_pool f) !! p) as [v|] eqn:Ev; [|done]. cbn in E.
      destruct (f_stamp f !! p); [|done]. cbn in E.
      destruct (p =? nullptr) eqn:En.
      * exfalso. apply Z.eqb_eq in En as ->. destruct (ci_al _ _ _ Hi) as (_ & Hn & Hin). apply Hn, Hin. by eexists.
      * cbn in E. injection E as <-. split; [done|]. split; [done|]. split; [by eexists|done].
Qed.

End fine_client.

(** ** 03_graceful_drain.cpp *)

Module DrainMT.
Import Drain.

Section drain.
Context (Size : Z).

(** The signal handler (step 2) is not the main thread. *)
Definition signal_thread (n : Z) : nat := if n =? 2 then 2%nat else 0%nat.

#[export] Instance drain_client : Client work_event (fine (spool work_event) work_event main_thread) fine_label :=
  fine_client Size produce advance other stop signal_thread.

(** The program on a fresh pool and a fresh conduit. *)
Definition drain_mt_start (base csize cap : Z) (junk : list Z) : fine (spool work_event) work_event main_thread :=
  fine_start Size (sfresh base csize cap) junk main_start.

Lemma signal_keeps n l l' : signal_thread n ≠ 0%nat → other n l = Some l' → produce l' = produce l.
Proof.
  unfold signal_thread. destruct (Z.eqb_spec n 2) as [->|]; [|done]. intros _.
  destruct l as [c b []]; cbn; intros E; by injection E as <-.
Qed.

(** C14: The graceful drain on the real conduit and the real pool.  The main
    thread, the worker and the signal handler interleave at every access to the
    conduit's indices and slots and at every access of [make] and [free] to the
    pool's head and cells; a load may return a stale index or a stale head.  The
    order of a failed exchange is the acquire of slab_allocator.hpp, or the
    relaxed of core.hpp as long as no exchange of [make] loses against another
    thread (inside the tag window).  Over a fresh pool and a conduit with room
    for the 50 events and the pill: no slot, no event and no cell is accessed
    without a happens-before order, every cell of the pool is in one place and
    holds the event the program reads there; a thread inside the pool, at a
    [make] or at a statement can go on, and no [make] yields null; the run is one
    of the program whose calls are single steps; no push is refused; and when
    both threads are through, the worker has processed the events in order and
    without gaps, the conduit is empty and the free list has every cell. *)
Theorem drain_mt_complete o base csize cap p junk w f :
  51 ≤ cap ≤ END → 0 < base → 0 < csize → base + cap * csize ≤ 2 ^ 64 → pool_ctor base csize cap = Some p →
  52 ≤ Size < 2 ^ 64 → Z.of_nat (length junk) = Size →
  rtc (costep o base csize) (fresh_memory p, drain_mt_start base csize cap junk) (w, f) →
  pool_sound base csize cap w f ∧ f_race f = false ∧ race (f_ring f) = false ∧
  never_stuck o base csize w f ∧
  (∀ l, fine_enabled produce other l f = true → is_Some (fine_step Size produce advance other stop l f)) ∧
  reachable (drain_start (sfresh base csize cap) (Fifo [] (Z.to_nat (Size - 1)))) (abs Size f) ∧
  f_leaked f = [] ∧ f_sent f = script (f_local f) ∧ f_got f `prefix_of` f_sent f ∧
  (joined (abs Size f) → at_rest w →
     f_got f = works (event_counter (f_local f)) ++ [pill] ∧
     Z.of_nat (processed (f_got f)) = event_counter (f_local f) ∧
     in_ring (f_ring f) = [] ∧ al_live (f_pool f) = ∅ ∧ all_free cap w).
Proof.
  intros Hcap Hb Hs He E HS Hj Hr. assert (0 < Size < 2 ^ 64) as HSize by lia.
  destruct (sfresh_inv (T := work_event) base csize cap) as (Hfi & Hfl & Hfr); [lia..|].
  pose proof (fine_client_laws Size produce advance other stop signal_thread wf budget script HSize 51 cap ltac:(lia) ltac:(lia)
    signal_keeps) as Hlaws.
  destruct (client_run o base csize cap _ _ Hb Hs ltac:(lia) p (drain_mt_start base csize cap junk) w f) as [Hi Hrun]; try done.
  { unfold drain_mt_start. rewrite <-Hfr. apply fine_start_good; try done; [cbn; lia..]. }
  destruct (fine_safe Size produce advance other stop wf budget script HSize 51 (sfresh base csize cap) junk main_start f)
    as [(Hrace & Hring & Hen & Hch) Hg]; [done|done|lia|lia|done|done|done|cbn; lia|done|].
  destruct (drain_good_facts _ _ Hg) as (Hlk & Hsent & Hpre & Hjoin).
  split; [by eapply cinv_sound|]. do 2 (split; [done|]). split; [exact (cinv_next o base csize cap _ _ Hb Hs ltac:(lia) w f Hi)|].
  do 5 (split; [done|]). intros Hjn Hp. destruct (Hjoin Hjn) as (Hg1 & Hg2 & Hg3 & Hg4 & _).
  do 4 (split; [done|]). exact (client_all_free o base csize cap _ _ Hb Hs ltac:(lia) w f Hi Hp Hg4).
Qed.

End drain.

(** *** A run with stale loads: the worker's first [pop] misses the event that
    was just published, and its first [free] loses against a [make] *)

Abbreviation drain_label := (clabel work_event fine_label).

Definition push_accesses (ptr : Z) (j : nat) : list drain_label :=
  CStep <$> [FRing (PStart ptr); FRing (PCheck j); FRing PWrite; FRing PPublish].
Definition pop_accesses (j : nat) : list drain_label :=
  CStep <$> [FRing CStart; FRing (CCheck j); FRing CRead; FRing CPublish].

(** [make] of a fresh cell, and [free] up to its exchange, with message [j]. *)
Definition make_accesses (j : nat) : list drain_label :=
  [CMake j; CAccess (WRead 0 0 0); CAccess (WCas 0 false j); CReturn].
Definition free_accesses (j : nat) : list drain_label :=
  [CStep (FHandle []); CAccess (WLoad 1 j); CAccess (WWrite 1)].

Definition drain_mt_schedule (a b : Z) : list drain_label :=
  [CStep (FLocal 0)] ++ make_accesses 0 ++ [CStep (FRing CStart)] ++ push_accesses a 0 ++
  [CStep (FRing (CCheck 0)); CStep (FLocal 1); CStep (FLocal 2)] ++ pop_accesses 1 ++ [CStep (FLocal 0)] ++
  free_accesses 1 ++ make_accesses 1 ++ [CAccess (WCas 1 false 2); CAccess (WWrite 1); CAccess (WCas 1 false 2)] ++
  push_accesses b 1 ++ pop_accesses 2 ++ free_accesses 3 ++ [CAccess (WCas 1 false 3)].

(** The run, and what the threads have at its end. *)
Definition drain_run (p : pool work_event) :=
  crun (Client0 := drain_client 64) pool_failure 4096 16 (drain_mt_schedule 4096 4112)
    (fresh_memory p, drain_mt_start 64 4096 16 64 (replicate 64 0)).

Lemma drain_run_ends :
  (p ← pool_ctor 4096 16 64; '(w, f) ← drain_run p;
   Some (calls_open w, at_ (f_local f), f_consumer f, event_counter (f_local f))) = Some (0%nat, Join, Stopped, 1).
Proof. vm_compute. reflexivity. Qed.

Lemma drain_mt_complete_witness :
  ∃ (p : pool work_event) w f, pool_ctor 4096 16 64 = Some p ∧ drain_run p = Some (w, f) ∧
    f_got f = [Work 0 false; pill] ∧ f_race f = false ∧ all_free 64 w.
Proof.
  pose proof drain_run_ends as He.
  destruct (pool_ctor_fresh (T := work_event) 4096 16 64) as (p & E & _); [unfold END; lia..|].
  rewrite E in He. cbn [mbind option_bind] in He.
  destruct (drain_run p) as [[w f]|] eqn:Ef; [|discriminate He]. cbn [mbind option_bind] in He.
  injection He as Hp Ha Hc Hn. exists p, w, f. split; [done|]. split; [done|].
  destruct (drain_mt_complete 64 pool_failure 4096 16 64 p (replicate 64 0) w f)
    as (_ & Hrace & _ & _ & _ & _ & _ & _ & _ & Hj); [unfold END; lia..|exact E|lia|done| |].
  { by apply (crun_steps _ _ _ (drain_mt_schedule 4096 4112)). }
  destruct (Hj (conj Ha Hc) (no_calls_open w Hp)) as (Hgot & _ & _ & _ & Hfree). rewrite Hgot, Hn. by split_and!.
Defined.

End DrainMT.

(** ** 01_lockfree_spsc_bus.cpp *)

Module BusMT.
Import Bus.

(** The bus on the real conduit, with calls on the pool in one step: no race, no access fails, and when both
    threads are through, the readings were printed in order and every cell is
    back in the pool. *)
Theorem bus_mt_delivers {P} `{AllocatorLaws P telemetry_event} Size (p : P) junk f :
  al_inv p → al_live p = ∅ → (3 ≤ al_room p)%nat → 4 ≤ Size < 2 ^ 64 → Z.of_nat (length junk) = Size →
  fine_reach Size produce advance other stop (fine_start Size p junk 0%nat) f →
  f_race f = false ∧ race (f_ring f) = false ∧
  (∀ l, fine_enabled produce other l f = true → is_Some (fine_step Size produce advance other stop l f)) ∧
  (f_local f = 3%nat → f_consumer f = Stopped →
     printed (f_got f) = [[Txt "[Thread] Processed sensor "; Int 1; Txt " value: "; Dbl (lit 425 1)];
                          [Txt "[Thread] Processed sensor "; Int 2; Txt " value: "; Dbl (lit 999 1)]] ∧
     in_ring (f_ring f) = [] ∧ al_room (f_pool f) = al_room p).
Proof.
  intros Hp Hl Hroom HS Hj Hr. assert (0 < Size < 2 ^ 64) as HSize by lia.
  destruct (fine_safe Size produce advance other stop (λ k, (k ≤ 3)%nat) (λ k, 3 - k)%nat (λ k, take k traffic) HSize
    3 p junk 0%nat f) as [(Hrace & Hring & Hen & _) Hg]; [done|done|done|lia|done|lia|done|lia|done|].
  do 3 (split; [done|]). exact (bus_good_facts (al_room p) (abs Size f) Hg).
Qed.

End BusMT.

(** ** 02_heartbeat_timeouts.cpp *)

Module HeartbeatMT.
Import Heartbeat.

(** The heartbeats on the real conduit, with calls on the pool in one step. *)
Theorem heartbeat_mt_delivers {P} `{AllocatorLaws P Z} Size last (p : P) junk f :
  al_inv p → al_live p = ∅ → (4 ≤ al_room p)%nat → 5 ≤ Size < 2 ^ 64 → Z.of_nat (length junk) = Size →
  fine_reach Size produce advance other stop (fine_start Size p junk chronos_start) f →
  f_race f = false ∧ race (f_ring f) = false ∧
  (∀ l, fine_enabled produce other l f = true → is_Some (fine_step Size produce advance other stop l f)) ∧
  (c_at (f_local f) = Through → f_consumer f = Stopped → 0 ∉ beats (f_local f) →
     monitored last (f_got f) = monitor_on last <$> beats (f_local f) ∧ length (beats (f_local f)) = 3%nat ∧
     in_ring (f_ring f) = [] ∧ al_room (f_pool f) = al_room p).
Proof.
  intros Hp Hl Hroom HS Hj Hr. assert (0 < Size < 2 ^ 64) as HSize by lia.
  destruct (fine_safe Size produce advance other stop wf budget script HSize 4 p junk chronos_start f)
    as [(Hrace & Hring & Hen & _) Hg]; [done|done|done|lia|done|unfold wf; cbn; lia|done|cbn; lia|done|].
  do 3 (split; [done|]). exact (heartbeat_good_facts last (al_room p) (abs Size f) Hg).
Qed.

End HeartbeatMT.
