(* ===== verification/LoadReport.v ===== *)
(** * The report of the load generator
      (include/conduit/pending/supplemental/load_generator.hpp, the end of [fire])

    After the last push [fire] reads the clock, divides the number of pushes by
    the elapsed seconds in double arithmetic and prints the quotient as an
    integer.  The conversion of a double that does not fit [uint64_t] is
    undefined behaviour ([None]); a clock that has not advanced gives an
    infinity or, without pushes, a nan. *)

From Stdlib Require Import String SpecFloat.
From S2P Require Import Prelude Interfaces Double Stages LoadGenerator.

Local Open Scope Z_scope.

(** [std::chrono::duration<double>] of a difference in nanoseconds. *)
Definition elapsed_seconds (start_time end_time : Z) : double :=
  ddiv (of_Z (end_time - start_time)) (of_Z 1000000000).

(** [successful_pushes / elapsed_seconds.count()]. *)
Definition ops_per_sec (successful_pushes : Z) (elapsed : double) : double := ddiv (of_Z successful_pushes) elapsed.

(** The integer part of [m * 2 ^ e]. *)
Definition trunc (m : positive) (e : Z) : Z := if 0 <=? e then Z.pos m * 2 ^ e else Z.pos m `div` 2 ^ (- e).

(** [static_cast<uint64_t>(d)]. *)
Definition to_uint64 (d : double) : option Z :=
  match d with
  | S754_zero _ => Some 0
  | S754_finite false m e => if trunc m e <? 2 ^ 64 then Some (trunc m e) else None
  | S754_finite true m e => if trunc m e =? 0 then Some 0 else None
  | S754_infinity _ | S754_nan => None
  end.

(** What [fire] prints. *)
Definition report {Q} (f : firing (Q := Q)) (start_time end_time : Z) : option (list line) :=
  let elapsed := elapsed_seconds start_time end_time in
  throughput ← to_uint64 (ops_per_sec (successful_pushes f) elapsed);
  Some [[Txt "========================================="];
        [Txt " CONDUIT PHYSICAL STRESS TEST RESULTS"];
        [Txt "========================================="];
        [Txt " Total Events Sent : "; Int (successful_pushes f)];
        [Txt " Time Elapsed      : "; Dbl elapsed; Txt " seconds"];
        [Txt " Backpressure Hits : "; Int (backpressure_hits f); Txt " (Conduit full events)"];
        [Txt "-----------------------------------------"];
        [Txt " THROUGHPUT        : "; Int throughput; Txt " events/sec"];
        [Txt "========================================="]].

(** ** When the report is defined *)

Lemma trunc_bound m e k : 0 ≤ k → Zdigits2 (Z.pos m) + e ≤ k → 0 ≤ trunc m e < 2 ^ k.
Proof.
  intros Hk Hb. unfold trunc. pose proof (digits2_range (Z.pos m) ltac:(lia)) as [_ Hm].
  pose proof (digits2_pos_ge m). destruct (Z.leb_spec 0 e).
  - pose proof (Z.pow_pos_nonneg 2 e ltac:(lia) ltac:(lia)). split; [nia|].
    apply Z.lt_le_trans with (2 ^ (Zdigits2 (Z.pos m) + e)); [|apply Z.pow_le_mono_r; lia].
    rewrite Z.pow_add_r by lia. nia.
  - pose proof (Z.pow_pos_nonneg 2 (- e) ltac:(lia) ltac:(lia)).
    split; [apply Z.div_pos; lia|]. apply Z.div_lt_upper_bound; [done|]. rewrite <-Z.pow_add_r by lia.
    eapply Z.lt_le_trans; [exact Hm|]. apply Z.pow_le_mono_r; lia.
Qed.

(** A clock that advanced gives a positive number of seconds. *)
Lemma elapsed_range n :
  0 < n < 2 ^ 63 → above (-29) (elapsed_seconds 0 n) ∧ below 37 (elapsed_seconds 0 n).
Proof.
  intros Hn. unfold elapsed_seconds. rewrite Z.sub_0_r.
  pose proof (of_Z_above n 1 ltac:(cbn; lia) ltac:(lia)) as Ha.
  pose proof (of_Z_below n 63 ltac:(lia) ltac:(lia) ltac:(unfold emax, prec; lia)) as Hb.
  destruct (of_Z n) as [| | |[] mx ex]; try done. cbn [above below] in Ha, Hb.
  assert (of_Z 1000000000 = S754_finite false 8388608000000000 (-23)) as -> by reflexivity.
  pose proof (ddiv_range mx ex 8388608000000000 (-23)) as Hd. cbn zeta in Hd.
  assert (Zdigits2 8388608000000000 = 53) as E53 by reflexivity. rewrite E53 in Hd.
  destruct Hd as [Hlo Hhi]; [unfold emin, emax, prec; lia..|].
  destruct (ddiv _ _) as [| | |[] m e]; cbn [above below] in *; try done. lia.
Qed.

Lemma elapsed_shift s t : elapsed_seconds s t = elapsed_seconds 0 (t - s).
Proof. unfold elapsed_seconds. by rewrite Z.sub_0_r. Qed.

(** When the clock advanced, the report is printed, for every number of pushes
    the counter can hold; when it did not, the conversion is undefined. *)
Theorem report_defined {Q} (f : firing (Q := Q)) start_time end_time :
  0 ≤ successful_pushes f < 2 ^ 32 → 0 ≤ end_time - start_time < 2 ^ 63 →
  is_Some (report f start_time end_time) ↔ start_time < end_time.
Proof.
  intros Hp Ht. unfold report. split.
  - intros [r Hr]. destruct (Z.eq_dec end_time start_time) as [->|]; [exfalso|lia].
    assert (elapsed_seconds start_time start_time = S754_zero false) as E.
    { rewrite elapsed_shift, Z.sub_diag. reflexivity. }
    rewrite E in Hr. unfold ops_per_sec in Hr.
    destruct (Z.eq_dec (successful_pushes f) 0) as [Ez|Hz]; [rewrite Ez in Hr; done|].
    pose proof (of_Z_above (successful_pushes f) 1 ltac:(cbn; lia) ltac:(lia)) as Ha.
    by destruct (of_Z (successful_pushes f)) as [| | |[] m e].
  - intros Hlt. rewrite elapsed_shift. destruct (elapsed_range (end_time - start_time)) as [Ha Hb]; [lia|].
    assert (is_Some (to_uint64 (ops_per_sec (successful_pushes f) (elapsed_seconds 0 (end_time - start_time))))) as [v ->];
      [|by eexists].
    unfold ops_per_sec. destruct (elapsed_seconds 0 (end_time - start_time)) as [| | |[] my ey]; try done.
    destruct (Z.eq_dec (successful_pushes f) 0) as [Ez|Hz]; [rewrite Ez; by eexists|].
    pose proof (of_Z_above (successful_pushes f) 1 ltac:(cbn; lia) ltac:(lia)) as Hpa.
    pose proof (of_Z_below (successful_pushes f) 32 ltac:(lia) ltac:(lia) ltac:(unfold emax, prec; lia)) as Hpb.
    destruct (of_Z (successful_pushes f)) as [| | |[] mx ex]; try done. cbn [above below] in *.
    destruct (ddiv_range mx ex my ey) as [Hlo Hhi]; [unfold emin, emax, prec; lia..|].
    destruct (ddiv _ _) as [| | |[] m e]; cbn [above below] in *; try done.
    cbn [to_uint64]. destruct (trunc_bound m e 64) as [_ Hv]; [lia|lia|]. rewrite (proj2 (Z.ltb_lt _ _)) by done. by eexists.
Qed.

(** Ten million pushes in two seconds. *)
Example report_throughput :
  (report (Q := unit) (Firing 0 10000000 5 () []) 1000 2000001000 ≫= λ ls, ls !! 7%nat)
  = Some [Txt " THROUGHPUT        : "; Int 5000000; Txt " events/sec"].
Proof. vm_compute. reflexivity. Qed.
