(* ===== verification/NetConcurrent.v ===== *)
(** * The networked conduit between two threads
      (include/conduit/net/networked_conduit.hpp)

    A producer thread runs [push]; the thread of the node runtime polls: it runs
    [poll_tx], may find the connection dead in [poll_rx], and binds new sockets
    from its callback.  Between them lie the ring of frames and the two
    counters [tx_head_] and [tx_tail_], read and written with the memory orders
    of the source; the steps are the single accesses, as in
    ConduitConcurrent.v.

    Each counter has its modification order, and a load of the other thread's
    counter may return any message from the last one seen on.  The value of a
    message says what happens before it: the writes of the frames below
    [tx_head_], the reads of the frames below [tx_tail_].  The frames are plain
    memory; an access that is not ordered after the last conflicting one sets
    [race].  [is_dead_] only makes [push] refuse, at any time. *)

From S2P Require Import Prelude Ring EventPtr NetConduit.

Local Open Scope Z_scope.

Module NetMT.

Inductive ppc :=
  | PIdle
  | PLoaded (payload : list Z) (head : Z)    (* tx_head_ loaded (relaxed) *)
  | PChecked (payload : list Z) (head : Z)   (* room: the frame may be written *)
  | PStored (payload : list Z) (head : Z).   (* frame written *)

Inductive cpc :=
  | CIdle
  | CLoaded (tail : Z)            (* tx_tail_ loaded (relaxed) *)
  | CLoop (tail head : Z)         (* in the loop of poll_tx *)
  | CDone (tail : Z).             (* past the loop *)

Record state := State {
  slots : list (list Z);          (* tx_ring_ *)
  hlog : list Z;                  (* modification order of tx_head_ *)
  tlog : list Z;                  (* modification order of tx_tail_ *)
  prod : ppc;
  pview : nat;                    (* newest message of tx_tail_ the producer saw *)
  pseen : Z;                      (* frames whose reads happen before *)
  cons : cpc;
  cview : nat;                    (* newest message of tx_head_ the poller saw *)
  cseen : Z;                      (* frames whose writes happen before *)
  offset : nat;                   (* tx_inflight_offset_ *)
  dead : bool;                    (* is_dead_, as the poller set it *)
  wclk : list Z;                  (* per slot: 1 + number of the frame last written *)
  rclk : list Z;                  (* per slot: 1 + number of the frame last read *)
  race : bool;
  payloads : list (list Z);       (* events whose push answered true *)
  pushed : list (list Z);         (* their frames *)
  base : nat;                     (* first frame of this connection *)
  wire : list Z;                  (* bytes sent on this connection *)
  past : list (nat * list Z) }.   (* the same for the connections that died *)

Inductive label :=
  | PStart (payload : list Z)     (* push(ev): not dead, load tx_head_ *)
  | PCheck (j : nat)              (* load tx_tail_ (acquire), test for room *)
  | PWrite                        (* fill the frame *)
  | PPublish                      (* tx_head_.store(head + 1, release) *)
  | CStart                        (* poll_tx(): not dead, load tx_tail_ *)
  | CCheck (j : nat)              (* load tx_head_ (acquire) *)
  | CSend (k : nat)               (* send takes k + 1 bytes or all *)
  | CStop                         (* nothing left, or EWOULDBLOCK *)
  | CFail                         (* another error: mark_dead() *)
  | CPublish                      (* tx_tail_.store(tail, release) *)
  | CDie                          (* poll_rx(): mark_dead() *)
  | CBind.                        (* bind_socket(fd), in on_dead *)

Section steps.
Context (TYPE_ID : Z) (sizeof_T : nat) (Capacity : Z).

Abbreviation FS := (FRAME_SIZE sizeof_T).
Definition slot (x : Z) : Z := Z.land x (MASK Capacity).

Definition start (ring : list (list Z)) : state :=
  State ring [0] [0] PIdle 0 0 CIdle 0 0 0 true
    (replicate (Z.to_nat Capacity) 0) (replicate (Z.to_nat Capacity) 0) false [] [] 0 [] [].

Definition set_prod (p : ppc) (j : nat) (v : Z) (s : state) : state :=
  State (slots s) (hlog s) (tlog s) p j v (cons s) (cview s) (cseen s) (offset s) (dead s) (wclk s) (rclk s)
    (race s) (payloads s) (pushed s) (base s) (wire s) (past s).

Definition set_cons (c : cpc) (j : nat) (v : Z) (s : state) : state :=
  State (slots s) (hlog s) (tlog s) (prod s) (pview s) (pseen s) c j v (offset s) (dead s) (wclk s) (rclk s)
    (race s) (payloads s) (pushed s) (base s) (wire s) (past s).

(** [mark_dead()] in a poll that has reached frame [tail]. *)
Definition die (c : cpc) (tail : Z) (s : state) : state :=
  State (slots s) (hlog s) (tlog s) (prod s) (pview s) (pseen s) c (cview s) (cseen s) 0 true (wclk s) (rclk s)
    (race s) (payloads s) (pushed s) (Z.to_nat tail) [] (past s ++ [(base s, wire s)]).

Definition step (l : label) (s : state) : option state :=
  match l with
  | PStart payload =>
      match prod s, last (hlog s) with
      | PIdle, Some head => Some (set_prod (PLoaded payload head) (pview s) (pseen s) s)
      | _, _ => None
      end
  | PCheck j =>
      match prod s with
      | PLoaded payload head =>
          if (j <? pview s)%nat then None else
          tail ← tlog s !! j;
          Some (set_prod (if Capacity <=? u64 (head - tail) then PIdle else PChecked payload head)
                  j (Z.max (pseen s) tail) s)
      | _ => None
      end
  | PWrite =>
      match prod s with
      | PChecked payload head =>
          old ← zget (slots s) (slot head);
          ring ← zset (slots s) (slot head) (fill_frame TYPE_ID sizeof_T payload old);
          lastread ← zget (rclk s) (slot head);
          clk ← zset (wclk s) (slot head) (head + 1);
          Some (State ring (hlog s) (tlog s) (PStored payload head) (pview s) (pseen s) (cons s) (cview s) (cseen s)
                  (offset s) (dead s) clk (rclk s) (race s || negb (lastread <=? pseen s)) (payloads s) (pushed s)
                  (base s) (wire s) (past s))
      | _ => None
      end
  | PPublish =>
      match prod s with
      | PStored payload head =>
          frame ← zget (slots s) (slot head);
          Some (State (slots s) (hlog s ++ [u64 (head + 1)]) (tlog s) PIdle (pview s) (pseen s) (cons s) (cview s)
                  (cseen s) (offset s) (dead s) (wclk s) (rclk s) (race s) (payloads s ++ [payload])
                  (pushed s ++ [frame]) (base s) (wire s) (past s))
      | _ => None
      end
  | CStart =>
      match cons s, last (tlog s) with
      | CIdle, Some tail => if dead s then None else Some (set_cons (CLoaded tail) (cview s) (cseen s) s)
      | _, _ => None
      end
  | CCheck j =>
      match cons s with
      | CLoaded tail =>
          if (j <? cview s)%nat then None else
          head ← hlog s !! j;
          Some (set_cons (CLoop tail head) j (Z.max (cseen s) head) s)
      | _ => None
      end
  | CSend k =>
      match cons s with
      | CLoop tail head =>
          if negb (tail <? head) then None else
          frame ← zget (slots s) (slot tail);
          lastwrite ← zget (wclk s) (slot tail);
          clk ← zset (rclk s) (slot tail) (tail + 1);
          let n := Nat.min (S k) (FS - offset s) in
          let sent := (offset s + n)%nat in
          let full := (sent =? FS)%nat in
          Some (State (slots s) (hlog s) (tlog s) (prod s) (pview s) (pseen s)
                  (CLoop (if full then u64 (tail + 1) else tail) head) (cview s) (cseen s)
                  (if full then 0%nat else sent) (dead s) (wclk s) clk (race s || negb (lastwrite <=? cseen s))
                  (payloads s) (pushed s) (base s) (wire s ++ take n (drop (offset s) frame)) (past s))
      | _ => None
      end
  | CStop =>
      match cons s with CLoop tail head => Some (set_cons (CDone tail) (cview s) (cseen s) s) | _ => None end
  | CFail =>
      match cons s with
      | CLoop tail head => if negb (tail <? head) then None else Some (die (CDone tail) tail s)
      | _ => None
      end
  | CPublish =>
      match cons s with
      | CDone tail =>
          Some (State (slots s) (hlog s) (tlog s ++ [tail]) (prod s) (pview s) (pseen s) CIdle (cview s) (cseen s)
                  (offset s) (dead s) (wclk s) (rclk s) (race s) (payloads s) (pushed s) (base s) (wire s) (past s))
      | _ => None
      end
  | CDie =>
      match cons s, last (tlog s) with
      | CIdle, Some tail => if dead s then None else Some (die CIdle tail s)
      | _, _ => None
      end
  | CBind =>
      match cons s with
      | CIdle =>
          if negb (dead s) then None else
          Some (State (slots s) (hlog s) (tlog s) (prod s) (pview s) (pseen s) CIdle (cview s) (cseen s)
                  (offset s) false (wclk s) (rclk s) (race s) (payloads s) (pushed s) (base s) (wire s) (past s))
      | _ => None
      end
  end.

(** The events have the size of the type, and fewer than 2^64 frames are sent. *)
Definition admissible (l : label) (s : state) : bool :=
  match l with
  | PStart payload => (length payload =? sizeof_T)%nat
  | PPublish => Z.of_nat (length (pushed s)) + 1 <? 2 ^ 64
  | _ => true
  end.

Definition tstep (s s' : state) : Prop := ∃ l, step l s = Some s' ∧ admissible l s = true.

(** ** The bytes of a connection *)

Definition sent_bytes (frames : list (list Z)) (base tail off : nat) : list Z :=
  concat (take (tail - base) (drop base frames)) ++ take off (default [] (frames !! tail)).

Lemma sent_bytes_start frames b : sent_bytes frames b b 0 = [].
Proof. unfold sent_bytes. by rewrite Nat.sub_diag. Qed.

Lemma sent_bytes_snoc frames f b t off :
  (b ≤ t ≤ length frames)%nat → (off = 0 ∨ t < length frames)%nat →
  sent_bytes (frames ++ [f]) b t off = sent_bytes frames b t off.
Proof.
  intros Hb Ho. unfold sent_bytes. rewrite drop_app_le by lia. rewrite take_app_le by (rewrite length_drop; lia).
  f_equal. destruct Ho as [->|Ht]; [done|]. by rewrite lookup_app_l.
Qed.

Lemma sent_bytes_part frames b t off n f :
  frames !! t = Some f → sent_bytes frames b t off ++ take n (drop off f) = sent_bytes frames b t (off + n).
Proof.
  intros Hf. unfold sent_bytes. rewrite Hf. cbn [default from_option id]. rewrite <-app_assoc. f_equal.
  by rewrite take_take_drop.
Qed.

Lemma sent_bytes_full frames b t f :
  (b ≤ t)%nat → frames !! t = Some f → sent_bytes frames b t (length f) = sent_bytes frames b (S t) 0.
Proof.
  intros Hb Hf. unfold sent_bytes. rewrite Hf. cbn [default from_option id]. rewrite (take_ge f) by lia.
  replace (S t - b)%nat with (S (t - b)) by lia. rewrite (take_S_r _ _ f).
  - rewrite concat_app. cbn. by rewrite !app_nil_r.
  - rewrite lookup_drop. rewrite <-Hf. f_equal. lia.
Qed.

Lemma sent_bytes_prefix frames b t off :
  (b ≤ t)%nat → sent_bytes frames b t off `prefix_of` concat (drop b frames).
Proof.
  intros Hb. unfold sent_bytes. destruct (frames !! t) as [f|] eqn:Hf; cbn [default from_option id].
  - exists (drop off f ++ concat (drop (S t) frames)). rewrite <-app_assoc, (app_assoc (take off f)), take_drop.
    rewrite <-(take_drop (t - b) (drop b frames)) at 1. rewrite concat_app. f_equal.
    rewrite drop_drop. replace (b + (t - b))%nat with t by lia. by rewrite (drop_S _ _ _ Hf).
  - rewrite take_nil, app_nil_r. exists (concat (drop (t - b) (drop b frames))). by rewrite <-concat_app, take_drop.
Qed.

Lemma sent_bytes_grow frames f b w : (w : list Z) `prefix_of` concat (drop b frames) → w `prefix_of` concat (drop b (frames ++ [f])).
Proof.
  intros [r Hr]. destruct (decide (b ≤ length frames)%nat) as [Hb|Hb].
  - rewrite drop_app_le, concat_app, Hr by done. exists (r ++ concat [f]). by rewrite <-app_assoc.
  - rewrite drop_ge in Hr by lia. cbn in Hr. symmetry in Hr. apply app_nil in Hr as [-> _]. apply prefix_nil.
Qed.

(** ** The invariant *)

Definition T (s : state) : Z := default 0 (last (tlog s)).
Definition P (s : state) : Z := Z.of_nat (length (pushed s)).

(** The frame the poller has reached. *)
Definition ctail (s : state) : Z :=
  match cons s with CIdle => T s | CLoaded t | CLoop t _ | CDone t => t end.

Definition p_pending (p : ppc) : Z := match p with PStored _ _ => 1 | _ => 0 end.

Definition prod_ok (p v : Z) (slots : list (list Z)) (pc : ppc) : Prop :=
  match pc with
  | PIdle => True
  | PLoaded payload head => head = p ∧ length payload = sizeof_T
  | PChecked payload head => head = p ∧ length payload = sizeof_T ∧ p - v ≤ Capacity - 1
  | PStored payload head =>
      head = p ∧ p - v ≤ Capacity - 1 ∧ ∃ f, zget slots (p `mod` Capacity) = Some f ∧ frame_of TYPE_ID sizeof_T payload f
  end.

Definition cons_ok (t v : Z) (c : cpc) : Prop :=
  match c with CLoaded tail => tail = t | CLoop tail head => tail ≤ head ≤ v | _ => True end.

(** The clock of a slot names a frame below [bound] that lies in the slot. *)
Definition clk_ok (clk : list Z) (bound : Z) : Prop :=
  ∀ i w, zget clk i = Some w → w = 0 ∨ (1 ≤ w ≤ bound ∧ (w - 1) `mod` Capacity = i).

Record inv (s : state) : Prop := Inv {
  i_len : Z.of_nat (length (slots s)) = Capacity ∧ Z.of_nat (length (wclk s)) = Capacity ∧
          Z.of_nat (length (rclk s)) = Capacity ∧ Forall (λ f, length f = FS) (slots s);
  i_hlog : length (hlog s) = S (length (pushed s)) ∧ ∀ k v, hlog s !! k = Some v → v = Z.of_nat k;
  i_tlog : last (tlog s) = Some (T s) ∧ ∀ k v, tlog s !! k = Some v → 0 ≤ v ≤ T s;
  i_order : 0 ≤ pseen s ≤ T s ∧ T s ≤ ctail s ∧ ctail s ≤ cseen s ∧ cseen s ≤ P s ∧
            P s - pseen s ≤ Capacity ∧ P s < 2 ^ 64;
  i_view : cseen s = Z.of_nat (cview s);
  i_prod : prod_ok (P s) (pseen s) (slots s) (prod s);
  i_cons : cons_ok (T s) (cseen s) (cons s);
  i_slots : ∀ k, pseen s ≤ k < P s → zget (slots s) (k `mod` Capacity) = zget (pushed s) k;
  i_wclk : clk_ok (wclk s) (P s + p_pending (prod s));
  i_rclk : clk_ok (rclk s) (Z.min (ctail s + 1) (cseen s));
  i_frames : Forall2 (frame_of TYPE_ID sizeof_T) (payloads s) (pushed s);
  i_off : (offset s < FS)%nat ∧ (offset s = 0%nat ∨ ctail s < cseen s);
  i_wire : (base s ≤ Z.to_nat (ctail s))%nat ∧
           wire s = sent_bytes (pushed s) (base s) (Z.to_nat (ctail s)) (offset s);
  i_past : Forall (λ c, c.2 `prefix_of` concat (drop c.1 (pushed s))) (past s);
  i_race : race s = false }.

Section preservation.
Context (n : Z) (Hn : 0 ≤ n ≤ 63) (HCap : Capacity = 2 ^ n).

Lemma cap_pos : 0 < Capacity ≤ 2 ^ 63.
Proof using Hn HCap.
  rewrite HCap. split; [apply Z.pow_pos_nonneg; lia|]. apply Z.pow_le_mono_r; lia.
Qed.

Lemma slot_mod x : slot x = x `mod` Capacity.
Proof using Hn HCap.
  pose proof cap_pos. unfold slot, MASK. rewrite wrap_small by (unfold in_word; lia). rewrite HCap.
  apply land_pred_pow2. lia.
Qed.

Lemma clk_ok_mono clk b b' : b ≤ b' → clk_ok clk b → clk_ok clk b'.
Proof. intros Hb Hc i w Hw. destruct (Hc i w Hw) as [|[??]]; [by left|right; split; [lia|done]]. Qed.

Lemma net_clk_ok_set clk clk' x b :
  clk_ok clk b → zset clk (x `mod` Capacity) (x + 1) = Some clk' → 0 ≤ x → x + 1 ≤ b → clk_ok clk' b.
Proof.
  intros Hc Hz Hx Hb j w. rewrite (zget_zset _ _ _ _ _ Hz). case_decide as E; [|apply Hc].
  intros [= <-]. right. split; [lia|]. rewrite <-E. f_equal. lia.
Qed.

Lemma slots_get s x : inv s → ∃ f, zget (slots s) (x `mod` Capacity) = Some f ∧ length f = FS.
Proof using Hn HCap.
  intros []. pose proof cap_pos. pose proof (Z.mod_pos_bound x Capacity ltac:(lia)).
  destruct (zget_is_Some (slots s) (x `mod` Capacity)) as [f Hf]; [lia|]. exists f. split; [done|].
  destruct i_len0 as (_ & _ & _ & Hall). unfold zget in Hf. rewrite decide_True in Hf by lia.
  by apply (Forall_lookup_1 _ _ _ _ Hall Hf).
Qed.

(** *** The producer *)

Lemma net_start_inv ring :
  Z.of_nat (length ring) = Capacity → Forall (λ f, length f = FS) ring → inv (start ring).
Proof using Hn HCap.
  intros Hr Hf. pose proof cap_pos. pose proof (FRAME_SIZE_ge sizeof_T).
  assert (clk_ok (replicate (Z.to_nat Capacity) 0) 0) as Hclk.
  { intros i w E. pose proof (zget_Some_range _ _ _ E) as Hi. rewrite length_replicate in Hi.
    rewrite zget_replicate in E by done. injection E as <-. by left. }
  split; unfold T, P, ctail; cbn -[FRAME_SIZE]; rewrite ?length_replicate; try done; try lia; split_and!; try done; try lia;
    try (intros [|k] v; [|done]; intros [= <-]; lia).
Qed.

(** The producer moves on, having seen more of [tx_tail_]. *)
Lemma inv_prod s p j v :
  inv s → pseen s ≤ v ≤ T s → prod_ok (P s) v (slots s) p → p_pending p = p_pending (prod s) →
  inv (set_prod p j v s).
Proof.
  intros [] Hv Hp Hpend. split; try done; cbn [pseen prod slots pushed wclk set_prod]; change (P (set_prod p j v s)) with (P s);
    change (T (set_prod p j v s)) with (T s); change (ctail (set_prod p j v s)) with (ctail s);
    change (cseen (set_prod p j v s)) with (cseen s).
  - lia.
  - intros k Hk. apply i_slots0. lia.
  - by rewrite Hpend.
Qed.

Lemma net_prod_start_inv payload s s' :
  inv s → length payload = sizeof_T → step (PStart payload) s = Some s' → inv s'.
Proof.
  intros Hi Hp. pose proof Hi as []. cbn. destruct (prod s) eqn:Ep; [|done..].
  destruct (last (hlog s)) as [head|] eqn:El; [|done]. intros [= <-].
  assert (head = P s) as ->.
  { rewrite last_lookup in El. destruct i_hlog0 as [Hl Hv]. rewrite Hl in El. by apply Hv in El. }
  apply inv_prod; [done|lia|done|by rewrite Ep].
Qed.

Lemma net_prod_check_inv j s s' : inv s → step (PCheck j) s = Some s' → inv s'.
Proof using Hn HCap.
  intros Hi. pose proof Hi as []. pose proof cap_pos. unfold step. destruct (prod s) as [|payload head| |] eqn:Ep; try done.
  destruct (j <? pview s)%nat; [done|]. destruct (tlog s !! j) as [tail|] eqn:Ej; [|done].
  cbn [mbind option_bind]. intros [= <-]. pose proof (proj2 i_tlog0 _ _ Ej) as Ht. cbn in i_prod0.
  destruct i_prod0 as [-> Hlen]. rewrite wrap_small by word_lia. apply inv_prod; [done|lia| |].
  - destruct (Z.leb_spec Capacity (P s - tail)); [done|]. cbn. split_and!; try done. lia.
  - rewrite Ep. by destruct (_ <=? _).
Qed.

(** The frame the producer is about to overwrite was last read before a
    message it has acquired. *)
Lemma net_prod_write_ordered s payload head r :
  inv s → prod s = PChecked payload head → zget (rclk s) (head `mod` Capacity) = Some r → r ≤ pseen s.
Proof using Hn HCap.
  intros [] Ep Hr. pose proof cap_pos. rewrite Ep in *. cbn in *. destruct i_prod0 as (-> & _ & Hroom).
  destruct (i_rclk0 _ _ Hr) as [->|[Hb E]]; [lia|].
  destruct (Z.le_gt_cases r (pseen s)) as [|Hgt]; [done|exfalso].
  apply mod_window_inj in E; lia.
Qed.

Lemma net_prod_write_inv s s' : inv s → step PWrite s = Some s' → inv s'.
Proof using Hn HCap.
  intros Hi. pose proof Hi as []. pose proof cap_pos. unfold step.
  destruct (prod s) as [| |payload head|] eqn:Ep; try done. rewrite slot_mod.
  destruct (slots_get s head Hi) as (old & Hold & Hlen). rewrite Hold. cbn [mbind option_bind].
  destruct (zset (slots s) _ _) as [ring|] eqn:Es; [|done]. cbn [mbind option_bind].
  destruct (zget (rclk s) (head `mod` Capacity)) as [r|] eqn:Er; [|done]. cbn [mbind option_bind].
  destruct (zset (wclk s) _ _) as [clk|] eqn:Ec; [|done]. cbn [mbind option_bind]. intros [= <-].
  pose proof (net_prod_write_ordered s payload head r Hi Ep Er) as Hord. cbn in i_prod0, i_wclk0.
  destruct i_prod0 as (-> & Hpl & Hroom). pose proof (fill_frame_of TYPE_ID sizeof_T payload old Hpl Hlen) as Hf.
  pose proof (zset_length _ _ _ _ Es). pose proof (zset_length _ _ _ _ Ec).
  split; try done; cbn [slots wclk rclk prod pseen race].
  - destruct i_len0 as (? & ? & ? & Hall). split_and!; try lia.
    apply Forall_forall. intros f [i Hi']%list_elem_of_lookup. pose proof (lookup_lt_Some _ _ _ Hi').
    assert (zget ring (Z.of_nat i) = Some f) as Hz by (unfold zget; rewrite decide_True, Nat2Z.id by lia; done).
    rewrite (zget_zset _ _ _ _ _ Es) in Hz. case_decide; [injection Hz as <-; apply Hf|].
    unfold zget in Hz. rewrite decide_True, Nat2Z.id in Hz by lia. by apply (Forall_lookup_1 _ _ _ _ Hall Hz).
  - cbn. split_and!; try done. eexists. split; [|exact Hf]. rewrite (zget_zset _ _ _ _ _ Es). by rewrite decide_True.
  - intros k Hk. rewrite (zget_zset _ _ _ _ _ Es), decide_False; [by apply i_slots0|].
    unfold P in *. cbn in *. intros E. symmetry in E. apply mod_window_inj in E; lia.
  - change (clk_ok clk (P s + 1)). apply (net_clk_ok_set (wclk s) _ (P s)); [|done|unfold P; lia|lia].
    eapply clk_ok_mono, i_wclk0. lia.
  - rewrite i_race0, (proj2 (Z.leb_le _ _)) by done. done.
Qed.

Lemma net_prod_publish_inv s s' :
  inv s → P s + 1 < 2 ^ 64 → step PPublish s = Some s' → inv s'.
Proof using Hn HCap.
  intros Hi Hb. pose proof Hi as []. pose proof cap_pos. unfold step.
  destruct (prod s) as [| | |payload head] eqn:Ep; try done. rewrite slot_mod. cbn in i_prod0, i_wclk0.
  destruct i_prod0 as (-> & Hroom & f & Hf & Hfr). rewrite Hf. cbn [mbind option_bind]. intros [= <-].
  rewrite wrap_small by word_lia. set (s' := State _ _ _ _ _ _ _ _ _ _ _ _ _ _ _ _ _ _ _).
  assert (P s' = P s + 1) as EP by (unfold P, s'; cbn; rewrite length_app; cbn; lia).
  assert (Z.to_nat (ctail s) ≤ length (pushed s))%nat as Ht by (unfold P in *; lia).
  split; change (T s') with (T s); change (ctail s') with (ctail s); rewrite ?EP; cbn [s' slots wclk rclk hlog tlog
    prod pview pseen cons cview cseen offset wire base past pushed payloads race]; try done.
  - destruct i_hlog0 as [Hl Hv]. rewrite !length_app. cbn [length]. split; [lia|].
    intros k v [Hk|[Hk Hv']]%lookup_app_Some; [by apply Hv|].
    apply list_lookup_singleton_Some in Hv' as [Hk' <-]. unfold P. lia.
  - lia.
  - intros k Hk. unfold P in *. destruct (decide (k = Z.of_nat (length (pushed s)))) as [->|].
    + rewrite Hf. unfold zget. rewrite decide_True, Nat2Z.id by lia. by rewrite list_lookup_middle.
    + rewrite i_slots0 by lia. unfold zget. rewrite !decide_True by lia. by rewrite lookup_app_l by lia.
  - cbn. eapply clk_ok_mono, i_wclk0. lia.
  - apply Forall2_app; [done|]. by constructor.
  - destruct i_wire0 as [Hbase ->]. split; [done|]. symmetry. apply sent_bytes_snoc; [lia|]. unfold P in *. lia.
  - eapply Forall_impl; [exact i_past0|]. intros c. apply sent_bytes_grow.
Qed.

(** *** The poller *)

(** The poller moves on without sending, having seen more of [tx_head_]. *)
Lemma inv_cons s c j v :
  inv s → ctail (set_cons c j v s) = ctail s → cseen s ≤ v ≤ P s → v = Z.of_nat j → cons_ok (T s) v c →
  inv (set_cons c j v s).
Proof.
  intros [] Ht Hv Hj Hc. split; change (T (set_cons c j v s)) with (T s); change (P (set_cons c j v s)) with (P s);
    rewrite ?Ht; try done; cbn [cseen set_cons pseen rclk offset].
  - lia.
  - eapply clk_ok_mono, i_rclk0. lia.
  - destruct i_off0 as [? [?|?]]; (split; [done|]); [by left|right; lia].
Qed.

Lemma net_cons_start_inv s s' : inv s → step CStart s = Some s' → inv s'.
Proof.
  intros Hi. pose proof Hi as []. cbn. destruct (cons s) eqn:Ec; [|done..].
  rewrite (proj1 i_tlog0). destruct (dead s); [done|]. intros [= <-].
  apply inv_cons; [done| |lia|done|done]. unfold ctail. by rewrite Ec.
Qed.

Lemma net_cons_check_inv j s s' : inv s → step (CCheck j) s = Some s' → inv s'.
Proof.
  intros Hi. pose proof Hi as []. unfold step. destruct (cons s) as [|tail| |] eqn:Ec; try done.
  destruct (Nat.ltb_spec j (cview s)); [done|]. destruct (hlog s !! j) as [head|] eqn:Ej; [|done].
  cbn [mbind option_bind]. intros [= <-]. pose proof (lookup_lt_Some _ _ _ Ej). apply (proj2 i_hlog0) in Ej as ->.
  assert (ctail s = tail) as Et by (unfold ctail; by rewrite Ec). cbn in i_cons0.
  apply inv_cons; [done|by unfold ctail; rewrite Ec|unfold P; lia|lia|]. cbn. lia.
Qed.

Lemma cons_stop_inv s s' : inv s → step CStop s = Some s' → inv s'.
Proof.
  intros Hi. pose proof Hi as []. cbn. destruct (cons s) as [| |tail head|] eqn:Ec; try done. intros [= <-].
  apply inv_cons; [done|by unfold ctail; rewrite Ec|lia|done|done].
Qed.

(** The frame the poller sends was written before a message it has acquired. *)
Lemma net_cons_read_ordered s t w :
  inv s → ctail s = t → t < cseen s → zget (wclk s) (t `mod` Capacity) = Some w → w ≤ cseen s.
Proof using Hn HCap.
  intros [] Ht Hlt Hw. pose proof cap_pos. destruct (i_wclk0 _ _ Hw) as [->|[Hb E]]; [lia|].
  destruct (Z.le_gt_cases w (cseen s)) as [|Hgt]; [done|exfalso]. symmetry in E.
  destruct (prod s); cbn in *; try (apply mod_window_inj in E; lia).
Qed.

Lemma cons_send_inv k s s' : inv s → step (CSend k) s = Some s' → inv s'.
Proof using Hn HCap.
  intros Hi. pose proof Hi as []. pose proof cap_pos. unfold step.
  destruct (cons s) as [| |tail head|] eqn:Ec; try done. destruct (Z.ltb_spec tail head) as [Hlt|]; [|done].
  cbn [negb]. rewrite slot_mod. assert (ctail s = tail) as Et by (unfold ctail; by rewrite Ec).
  cbn in i_cons0. rewrite Et in *.
  destruct (slots_get s tail Hi) as (f & Hf & Hlen). rewrite Hf. cbn [mbind option_bind].
  destruct (zget (wclk s) (tail `mod` Capacity)) as [w|] eqn:Ew; [|done]. cbn [mbind option_bind].
  destruct (zset (rclk s) _ _) as [clk|] eqn:Er; [|done]. cbn [mbind option_bind]. intros [= <-].
  pose proof (net_cons_read_ordered s tail w Hi Et ltac:(lia) Ew) as Hord. pose proof (zset_length _ _ _ _ Er).
  assert (pushed s !! Z.to_nat tail = Some f) as Hpf.
  { rewrite i_slots0 in Hf by lia. unfold zget in Hf. by rewrite decide_True in Hf by lia. }
  set (m := Nat.min (S k) (FS - offset s)). set (s' := State _ _ _ _ _ _ _ _ _ _ _ _ _ _ _ _ _ _ _).
  assert (ctail s' = if (offset s + m =? FS)%nat then tail + 1 else tail) as Et'.
  { unfold s', ctail. cbn -[FRAME_SIZE Nat.eqb]. destruct (_ =? _)%nat; [|done]. rewrite wrap_small by word_lia. done. }
  destruct i_wire0 as [Hbase Hwire].
  assert (wire s ++ take m (drop (offset s) f) = sent_bytes (pushed s) (base s) (Z.to_nat tail) (offset s + m)) as Hw'.
  { rewrite Hwire. by apply sent_bytes_part. }
  split; change (T s') with (T s); change (P s') with (P s); rewrite ?Et'; try done.
  - cbn. destruct i_len0 as (? & ? & ? & ?). split_and!; try done. lia.
  - cbn. destruct (_ =? _)%nat; lia.
  - cbn [cons s' cons_ok cseen]. destruct (_ =? _)%nat; [rewrite wrap_small by word_lia|]; lia.
  - change (rclk s') with clk. change (cseen s') with (cseen s).
    apply (clk_ok_mono clk (Z.min (tail + 1) (cseen s))); [destruct (offset s + m =? FS)%nat; lia|].
    apply (net_clk_ok_set (rclk s) _ tail); [done|done|lia|lia].
  - change (offset s') with (if (offset s + m =? FS)%nat then 0%nat else (offset s + m)%nat).
    change (cseen s') with (cseen s). destruct i_off0 as [Ho _]. destruct (Nat.eqb_spec (offset s + m) FS);
      (split; [unfold m in *; lia|]); [by left|right; lia].
  - change (offset s') with (if (offset s + m =? FS)%nat then 0%nat else (offset s + m)%nat).
    change (wire s') with (wire s ++ take m (drop (offset s) f)). change (base s') with (base s).
    change (pushed s') with (pushed s). destruct (Nat.eqb_spec (offset s + m) FS) as [Efull|].
    + split; [lia|]. rewrite Hw', Efull, <-Hlen, sent_bytes_full by done. f_equal. lia.
    + done.
  - cbn [race s']. rewrite i_race0, (proj2 (Z.leb_le _ _)) by done. done.
Qed.

(** The connection dies: the next one starts with the frame that was not sent
    completely. *)
Lemma die_inv c s :
  inv s → ctail (die c (ctail s) s) = ctail s → cons_ok (T s) (cseen s) c → inv (die c (ctail s) s).
Proof.
  intros Hi Hc Hok. pose proof Hi as []. pose proof (FRAME_SIZE_ge sizeof_T).
  set (s' := die c (ctail s) s) in *.
  split; change (T s') with (T s); change (P s') with (P s); rewrite ?Hc; try done.
  - change (offset s') with 0%nat. split; [lia|by left].
  - cbn. split; [done|]. by rewrite sent_bytes_start.
  - cbn. apply Forall_app. split; [done|]. apply Forall_singleton. cbn. destruct i_wire0 as [Hb ->].
    by apply sent_bytes_prefix.
Qed.

Lemma cons_fail_inv s s' : inv s → step CFail s = Some s' → inv s'.
Proof.
  intros Hi. cbn. destruct (cons s) as [| |tail head|] eqn:Ec; try done. destruct (negb _); [done|]. intros [= <-].
  assert (tail = ctail s) as -> by (unfold ctail; by rewrite Ec). by apply die_inv.
Qed.

Lemma cons_die_inv s s' : inv s → step CDie s = Some s' → inv s'.
Proof.
  intros Hi. pose proof Hi as []. cbn. destruct (cons s) eqn:Ec; try done. rewrite (proj1 i_tlog0).
  destruct (dead s); [done|]. intros [= <-]. assert (T s = ctail s) as -> by (unfold ctail; by rewrite Ec).
  apply die_inv; [done| |done]. unfold ctail. cbn. by rewrite Ec.
Qed.

Lemma net_cons_publish_inv s s' : inv s → step CPublish s = Some s' → inv s'.
Proof.
  intros Hi. pose proof Hi as []. cbn. destruct (cons s) as [| | |tail] eqn:Ec; try done. intros [= <-].
  assert (ctail s = tail) as Et by (unfold ctail; by rewrite Ec). rewrite Et in *.
  set (s' := State _ _ _ _ _ _ _ _ _ _ _ _ _ _ _ _ _ _ _).
  assert (T s' = tail) as ET by (unfold T, s'; cbn; by rewrite last_snoc).
  assert (ctail s' = tail) as Et' by (unfold ctail, s'; cbn; exact ET).
  split; rewrite ?ET, ?Et'; change (P s') with (P s); try done.
  - cbn [tlog s']. split; [apply last_snoc|]. intros k v [Hk|[Hk Hv]]%lookup_app_Some.
    + apply (proj2 i_tlog0) in Hk. lia.
    + apply list_lookup_singleton_Some in Hv as [_ <-]. lia.
  - cbn [pseen cseen s']. lia.
Qed.

Lemma cons_bind_inv s s' : inv s → step CBind s = Some s' → inv s'.
Proof.
  intros Hi. pose proof Hi as []. cbn. destruct (cons s) eqn:Ec; try done. destruct (dead s); [|done]. intros [= <-].
  set (s' := State _ _ _ _ _ _ _ _ _ _ _ _ _ _ _ _ _ _ _).
  assert (ctail s' = ctail s) as Et by (unfold ctail; by rewrite Ec).
  split; change (T s') with (T s); change (P s') with (P s); rewrite ?Et; done.
Qed.

Lemma net_step_inv l s s' : inv s → step l s = Some s' → admissible l s = true → inv s'.
Proof using Hn HCap.
  intros Hi E Ha. destruct l; cbn in Ha.
  - apply (net_prod_start_inv payload s); [done| |done]. by apply Nat.eqb_eq.
  - by eapply net_prod_check_inv.
  - by eapply net_prod_write_inv.
  - apply (net_prod_publish_inv s); [done| |done]. by apply Z.ltb_lt.
  - by eapply net_cons_start_inv.
  - by eapply net_cons_check_inv.
  - by eapply cons_send_inv.
  - by eapply cons_stop_inv.
  - by eapply cons_fail_inv.
  - by eapply net_cons_publish_inv.
  - by eapply cons_die_inv.
  - by eapply cons_bind_inv.
Qed.

Lemma net_reachable_inv ring s :
  Z.of_nat (length ring) = Capacity → Forall (λ f, length f = FS) ring → rtc tstep (start ring) s → inv s.
Proof using Hn HCap.
  intros Hr Hf. apply rtc_invariant; [|by apply net_start_inv].
  intros a b Ha (l & E & Hadm). by eapply net_step_inv.
Qed.

End preservation.

(** *** Accesses that cannot fail *)

Lemma write_possible n s payload head :
  0 ≤ n ≤ 63 → Capacity = 2 ^ n → inv s → prod s = PChecked payload head → is_Some (step PWrite s).
Proof.
  intros Hn HC Hi Ep. pose proof (cap_pos n Hn HC). pose proof (Z.mod_pos_bound head Capacity ltac:(lia)).
  unfold step. rewrite Ep, (slot_mod n Hn HC). destruct (slots_get n Hn HC s head Hi) as (old & -> & _).
  destruct Hi. cbn [mbind option_bind]. rewrite !zset_eq by lia. cbn [mbind option_bind].
  destruct (zget_is_Some (rclk s) (head `mod` Capacity)) as [r ->]; [lia|]. by eexists.
Qed.

Lemma send_possible n s tail head k :
  0 ≤ n ≤ 63 → Capacity = 2 ^ n → inv s → cons s = CLoop tail head → tail < head → is_Some (step (CSend k) s).
Proof.
  intros Hn HC Hi Ec Hlt. pose proof (cap_pos n Hn HC). pose proof (Z.mod_pos_bound tail Capacity ltac:(lia)).
  unfold step. rewrite Ec, (proj2 (Z.ltb_lt _ _)), (slot_mod n Hn HC) by done. cbn [negb].
  destruct (slots_get n Hn HC s tail Hi) as (f & -> & _). destruct Hi. cbn [mbind option_bind].
  destruct (zget_is_Some (wclk s) (tail `mod` Capacity)) as [w ->]; [lia|]. cbn [mbind option_bind].
  rewrite zset_eq by lia. by eexists.
Qed.

(** The connections so far: where each starts in the sequence of accepted
    events, and the bytes it carried. *)
Definition connections (s : state) : list (nat * list Z) := past s ++ [(base s, wire s)].

(** ** Property *)

(** C7: The networked conduit between two threads, end to end.  For every
    interleaving of the accesses of [push] and [poll_tx], with stale counters,
    partial sends, connections that die in the middle of a frame and sockets
    that are bound anew: no frame is accessed by both threads without a
    happens-before order, no access leaves the ring, and a receiver of any of
    the connections, however it cuts the bytes into reads, delivers exactly
    the accepted events from the number at which the connection starts, in
    order, each once, as many as frames arrived completely. *)
Theorem net_mt_end_to_end {W} n ring s (make : W → option (event_ptr W * W)) store on b bytes r0 r1 rest w0 w1 :
  in_word 32 TYPE_ID → 0 ≤ n ≤ 63 → Capacity = 2 ^ n →
  Z.of_nat (length ring) = Capacity → Forall (λ f, length f = FS) ring → rtc tstep (start ring) s →
  (b, bytes) ∈ connections s →
  net_inv sizeof_T Capacity r0 → is_dead_ r0 = false → rx_bytes_read_ r0 = 0%nat →
  rtc (rx_step TYPE_ID sizeof_T make store on) (r0, bytes, w0) (r1, rest, w1) →
  race s = false ∧
  (∀ payload head, prod s = PChecked payload head → is_Some (step PWrite s)) ∧
  (∀ tail head k, cons s = CLoop tail head → tail < head → is_Some (step (CSend k) s)) ∧
  let m := ((length bytes - length rest) / FS)%nat in
  (m ≤ length (drop b (payloads s)))%nat ∧
  deliver_all make store on (take m (drop b (payloads s))) w0 = Some w1.
Proof.
  intros HT Hn HC Hr Hf Hreach Hc Hr0 Hrd Hrb Hrx. pose proof (net_reachable_inv n Hn HC ring s Hr Hf Hreach) as Hi.
  pose proof Hi as []. split; [done|]. split; [by intros; eapply write_possible|].
  split; [by intros; eapply send_possible|].
  apply (rx_delivers TYPE_ID sizeof_T Capacity make store on (drop b (pushed s)) (drop b (payloads s)) bytes r0 r1 rest w0 w1);
    try done; [by apply Forall2_drop|].
  unfold connections in Hc. apply elem_of_app in Hc as [Hc|Hc].
  - rewrite Forall_forall in i_past0. by apply (i_past0 (b, bytes)).
  - apply list_elem_of_singleton in Hc as [= -> ->]. destruct i_wire0 as [Hb ->]. by apply sent_bytes_prefix.
Qed.

End steps.

Fixpoint exec (TYPE_ID : Z) (sizeof_T : nat) (Capacity : Z) (ls : list label) (s : state) : option state :=
  match ls with
  | [] => Some s
  | l :: ls' =>
      if admissible sizeof_T l s then s' ← step TYPE_ID sizeof_T Capacity l s; exec TYPE_ID sizeof_T Capacity ls' s'
      else None
  end.

Lemma exec_steps TYPE_ID sizeof_T Capacity ls s s' :
  exec TYPE_ID sizeof_T Capacity ls s = Some s' → rtc (tstep TYPE_ID sizeof_T Capacity) s s'.
Proof.
  revert s. induction ls as [|l ls IH]; intros s E; cbn in E; [inv_some; apply rtc_refl|].
  destruct (admissible sizeof_T l s) eqn:Ea; [|done].
  destruct (step TYPE_ID sizeof_T Capacity l s) as [s1|] eqn:Es; cbn in E; [|done].
  eapply rtc_l; [by exists l|]. by apply IH.
Qed.

(** Two events on a ring of two; the first connection dies after ten bytes of
    the first frame, the second one carries both frames. *)
Definition net_schedule : list label :=
  [CBind; PStart [5; 0]; PCheck 0; CStart; PWrite; PPublish; CCheck 1; PStart [6; 0]; CSend 9; PCheck 0; CFail;
   PWrite; CPublish; PPublish; CBind; CStart; CCheck 2; CSend 99; PStart [7; 0]; CSend 30; PCheck 0; CSend 99;
   CStop; CPublish].

Lemma net_mt_end_to_end_witness :
  ∃ s r rest w, exec 7 2 2 net_schedule (start 2 (replicate 2 (replicate 64 1))) = Some s ∧
    length <$> (connections s).*2 = [10; 128]%nat ∧
    poll_rx 7 2 w_make w_store w_on [RecvSome 2; RecvSome 200; RecvSome 70] (wire s) w_conduit [] = Some (r, rest, w) ∧
    deliver_all w_make w_store w_on (take ((length (wire s) - length rest) / FRAME_SIZE 2) [[5; 0]; [6; 0]]) [] = Some w.
Proof.
  destruct (exec 7 2 2 net_schedule (start 2 (replicate 2 (replicate 64 1)))) as [s|] eqn:Es;
    [|vm_compute in Es; discriminate Es].
  destruct (poll_rx 7 2 w_make w_store w_on [RecvSome 2; RecvSome 200; RecvSome 70] (wire s) w_conduit [])
    as [[[r rest] w]|] eqn:Er; [|vm_compute in Es; injection Es as <-; vm_compute in Er; discriminate Er].
  exists s, r, rest, w. split; [done|].
  assert (length <$> (connections s).*2 = [10; 128]%nat ∧ drop (base s) (payloads s) = [[5; 0]; [6; 0]]) as [Hc Hd]
    by (vm_compute in Es; injection Es as <-; done).
  split; [done|]. split; [done|]. rewrite <-Hd.
  apply (net_mt_end_to_end 7 2 2 1 (replicate 2 (replicate 64 1)) s w_make w_store w_on (base s) (wire s)
           w_conduit r rest [] w); [unfold in_word; lia|lia|done|done|by repeat constructor| | | | | |].
  - by apply (exec_steps 7 2 2 net_schedule).
  - apply elem_of_app. right. by left.
  - apply w_conduit_inv.
  - done.
  - done.
  - apply rtc_once. by exists [RecvSome 2; RecvSome 200; RecvSome 70].
Defined.

End NetMT.
