(* ===== verification/PinnedWeak.v ===== *)
(** * The memory orders of the pinned slab
      (include/conduit/pending/core/pinned_slab_allocator.hpp)

    [allocate] loads [head_index_] with [memory_order_relaxed], reads the link
    in the block and exchanges the head with release on success and relaxed on
    failure: nothing orders the read of the link after the [deallocate] that
    wrote it.  The model is that of PoolWeak.v with the steps of Module PinnedMT
    of PinnedSlab.v: the head is a list of messages with clocks, a block has its
    history of writes, and a plain read may return any write that is not
    followed by one the thread knows of.

    The order of the loads is an argument, so that the source can be compared
    with acquire loads. *)

From stdpp Require Import functions.
From S2P Require Import Prelude EventPtr Interfaces Pool PinnedSlab PoolConcurrent PoolWeak.
Import PoolWeak.

Local Open Scope Z_scope.

Module PinnedWeak.

(** The order of every load of the head in the source. *)
Definition source_order : order := Relaxed.

Section weak.
Context (loads : order).

Record state := State {
  hist : Z → list (wr Z);               (* the writes to each block *)
  log : list msg;                       (* the modification order of head_index_ *)
  free_count : Z;                       (* modified by read-modify-writes only *)
  clk : nat → vc;
  seen : nat → nat;
  pcs : gmap nat PinnedMT.pc;
  given : list (Z * vc) }.              (* blocks in the hands of callers, with what the owner knows *)

Inductive label :=
  | AStart (t j : nat)                  (* allocate: load the head, message j *)
  | ANext (t j : nat) (garbage : Z)     (* test for the end, read the link, write j *)
  | ACas (t : nat) (spurious : bool) (j : nat)
  | ADone (t : nat) (v : Z)             (* fetch_sub, placement new of v, return *)
  | DStart (t j : nat) (i : Z)          (* deallocate block i, which was handed to t; load the head *)
  | DLink (t : nat)                     (* write the link *)
  | DCas (t : nat) (spurious : bool) (j : nat)
  | DDone (t : nat).                    (* fetch_add, return *)

(** A load of the head: the value and what the thread knows afterwards. *)
Definition load_head (t j : nat) (s : state) : option (Z * vc) :=
  if (j <? seen s t)%nat then None else
  m ← log s !! j;
  Some (mval m, match loads with Acquire => vjoin (clk s t) (mview m) | Relaxed => clk s t end).

Definition at_pc (t : nat) (p : PinnedMT.pc) (c : vc) (j : nat) (s : state) : state :=
  State (hist s) (log s) (free_count s) (<[t := c]> (clk s)) (<[t := j]> (seen s)) (<[t := p]> (pcs s)) (given s).

(** A plain write of thread [t] to block [i]. *)
Definition write_block (t : nat) (i : Z) (x : cell Z) (s : state) : state :=
  let k := S (clk s t t) in
  State (<[i := hist s i ++ [Wr x t k]]> (hist s)) (log s) (free_count s)
    (<[t := <[t := k]> (clk s t)]> (clk s)) (seen s) (pcs s) (given s).

(** [compare_exchange_weak(h, h', release, loads)]: a success has to read the
    newest message. *)
Definition exchange (t : nat) (spurious : bool) (j : nat) (h h' : Z) (won : PinnedMT.pc) (lost : Z → PinnedMT.pc)
    (s : state) : option state :=
  '(v, c) ← load_head t j s;
  if negb spurious && (v =? h) then
    if (S j =? length (log s))%nat then
      m ← log s !! j;
      Some (State (hist s) (log s ++ [Msg h' (vjoin (mview m) (clk s t))]) (free_count s) (clk s)
              (<[t := S j]> (seen s)) (<[t := won]> (pcs s)) (given s))
    else None
  else Some (at_pc t (lost v) c j s).

(** Remove the first entry of block [i]. *)
Fixpoint take_back (i : Z) (l : list (Z * vc)) : option (vc * list (Z * vc)) :=
  match l with
  | [] => None
  | (j, c) :: l' => if i =? j then Some (c, l') else '(c', r) ← take_back i l'; Some (c', (j, c) :: r)
  end.

Definition step (l : label) (s : state) : option state :=
  match l with
  | AStart t j =>
      match pcs s !! t with
      | None => '(h, c) ← load_head t j s; Some (at_pc t (PinnedMT.ALoaded h) c j s)
      | Some _ => None
      end
  | ANext t j garbage =>
      match pcs s !! t with
      | Some (PinnedMT.ALoaded h) =>
          if h =? 0xFFFFFFFF
          then Some (State (hist s) (log s) (free_count s) (clk s) (seen s) (delete t (pcs s)) (given s))
          else
            w ← hist s h !! j;
            if existsb (λ w', hb w' (clk s t)) (drop (S j) (hist s h)) then None else
            let n := match w_cell w with Next n => n | Data _ => u32 garbage end in
            Some (at_pc t (PinnedMT.ARead h n) (clk s t) (seen s t) s)
      | _ => None
      end
  | ACas t sp j =>
      match pcs s !! t with
      | Some (PinnedMT.ARead h n) => exchange t sp j h n (PinnedMT.AWon h) PinnedMT.ALoaded s
      | _ => None
      end
  | ADone t v =>
      match pcs s !! t with
      | Some (PinnedMT.AWon h) =>
          let s' := write_block t h (Data v) s in
          Some (State (hist s') (log s') (u64 (free_count s' - 1)) (clk s') (seen s') (delete t (pcs s'))
                  ((h, clk s' t) :: given s'))
      | _ => None
      end
  | DStart t j i =>
      match pcs s !! t with
      | None =>
          '(known, rest) ← take_back i (given s);
          let s' := State (hist s) (log s) (free_count s) (<[t := vjoin (clk s t) known]> (clk s)) (seen s) (pcs s) rest in
          '(h, c) ← load_head t j s'; Some (at_pc t (PinnedMT.DLoaded i h) c j s')
      | Some _ => None
      end
  | DLink t =>
      match pcs s !! t with
      | Some (PinnedMT.DLoaded i h) =>
          let s' := write_block t i (Next h) s in Some (at_pc t (PinnedMT.DWritten i h) (clk s' t) (seen s' t) s')
      | _ => None
      end
  | DCas t sp j =>
      match pcs s !! t with
      | Some (PinnedMT.DWritten i h) => exchange t sp j h i PinnedMT.DWon (PinnedMT.DLoaded i) s
      | _ => None
      end
  | DDone t =>
      match pcs s !! t with
      | Some PinnedMT.DWon =>
          Some (State (hist s) (log s) (u64 (free_count s + 1)) (clk s) (seen s) (delete t (pcs s)) (given s))
      | _ => None
      end
  end.

(** A fresh slab of [n] blocks; its construction happens before all threads. *)
Definition start (n : nat) : state :=
  State (λ i, if (0 <=? i) && (i <? Z.of_nat n)
              then [Wr (Next (if i =? Z.of_nat n - 1 then 0xFFFFFFFF else i + 1)) 0 0] else [])
    [Msg 0 (λ _, 0%nat)] (Z.of_nat n) (λ _ _, 0%nat) (λ _, 0%nat) ∅ [].

Fixpoint exec (ls : list label) (s : state) : option state :=
  match ls with [] => Some s | l :: ls' => s' ← step l s; exec ls' s' end.

(** A call of [allocate] that nobody interrupts: it loads message [j], reads
    write [k] of the block, and its exchange succeeds. *)
Definition allocate_call (t j k : nat) (v : Z) : list label := [AStart t j; ANext t k 0; ACas t false j; ADone t v].

(** A call of [deallocate] that nobody interrupts. *)
Definition deallocate_call (t j : nat) (i : Z) : list label := [DStart t j i; DLink t; DCas t false j; DDone t].

End weak.

(** Thread 2 takes blocks 0 and 1 and returns block 0; then thread 1 allocates
    twice.  Every load of the head returns the newest value.  The first call of
    thread 1 finds block 0 at the head and reads the link that the constructor
    wrote, although thread 2 has overwritten it. *)
Definition one_by_one : list label :=
  allocate_call 2 0 0 200 ++ allocate_call 2 1 0 201 ++ deallocate_call 2 2 0 ++
  allocate_call 1 3 0 100 ++ allocate_call 1 4 1 101.

Definition blocks (s : state) : list Z := fst <$> given s.

(** The pinned slab is not safe even when the calls of its threads never
    overlap and every load of the head returns its newest value: the relaxed
    load does not order the read of the link, so it may return the one before
    the last, the exchange makes a block in use the head, and the next call
    hands it out a second time. *)
Theorem pinned_relaxed_corrupts :
  ∃ s, exec source_order one_by_one (start 3) = Some s ∧ blocks s = [1; 0; 1] ∧ ¬ NoDup (blocks s).
Proof.
  destruct (exec source_order one_by_one (start 3)) as [s|] eqn:E.
  - exists s. assert (blocks <$> exec source_order one_by_one (start 3) = Some (blocks s)) as Eb by by rewrite E.
    assert (blocks s = [1; 0; 1]) as Hb.
    { clear E. generalize dependent (blocks s). intros bs Eb. vm_compute in Eb. by injection Eb as <-. }
    split; [done|]. split; [done|]. rewrite Hb. intros H. apply NoDup_cons in H as [H _]. apply H. right. by left.
  - exfalso. assert (blocks <$> exec source_order one_by_one (start 3) = None) as Eb by by rewrite E.
    vm_compute in Eb. discriminate Eb.
Qed.

(** With acquire loads the read has to return the last link, and the same calls
    give thread 1 the blocks 0 and 2. *)
Example acquire_reads_new_link :
  exec Acquire one_by_one (start 3) = None ∧
  blocks <$> exec Acquire (allocate_call 2 0 0 200 ++ allocate_call 2 1 0 201 ++ deallocate_call 2 2 0 ++
                           allocate_call 1 3 2 100 ++ allocate_call 1 4 0 101) (start 3) = Some [2; 0; 1].
Proof. split; vm_compute; reflexivity. Qed.

End PinnedWeak.
