(* ===== verification/Benchmarks.v ===== *)
(** * The benchmark programs (benchmarks/)

    The single-threaded programs: bench_conduit.cpp, bench_wrap_around.cpp,
    bench_latency_histogram.cpp, bench_pipeline_dispatch.cpp and bench_http.cpp
    (BenchThreads.v holds the two with threads).  A benchmark is a function on
    the state it declares before its loop and the number of turns the harness
    asks for; what it measures, the time, is not part of the model, but what it
    hands to the harness (answers of calls, pointers, samples) is.

    The readings of the cycle counter are arguments; the schedules say which
    compare-exchange attempts of the pool fail spuriously in each turn. *)

From Stdlib Require Import String SpecFloat.
From stdpp Require Import sorting.
From S2P Require Import Prelude EventPtr Interfaces Pool Conduit Pipeline Http Double Stages Showcase LoadReport.

Local Open Scope Z_scope.

(** ** One event on a round trip

    Most of the programs make an event, push it, pop it and destroy it. *)

Section trips.
Context {Size : Z}.

Abbreviation store_world := (world Z ()).
Implicit Types (w : store_world) (c : conduit Size).

(** The schedules of one turn: of [make], and of the deleter. *)
Record turn := Turn { t_make : list bool; t_free : list bool }.

Definition member (ev : event_ptr store_world) (x : Z) (w : store_world) : option store_world :=
  store (λ _, 0) (λ _, this_pool) 0 ev x w.
Definition member_of (ev : event_ptr store_world) (w : store_world) : option Z :=
  load (λ _, 0) (λ _, this_pool) 0 ev w.

(** The deleter of an event in a turn. *)
Abbreviation back t := (world_release (T := Z) (St := ()) (t_free t)).

(** [BM_Conduit_FullFlux]: [c.push(p.make().release()); auto ev = c.pop(p)];
    [junk] is what the payload of the new event happens to hold.  The harness
    sees [ev]. *)
Definition flux_turn (junk : Z) (t : turn) (w : store_world) (c : conduit Size)
    : option (Z * store_world * conduit Size) :=
  '(tmp, w) ← world_make (t_make t) (t_free t) junk this_pool w;
  let '(raw, tmp) := ep_release tmp in
  '(_, c) ← push raw c;
  w ← ep_destroy tmp w;
  '(ev, c) ← pop (back t) this_pool c;
  let seen := ep_get ev in
  w ← ep_destroy ev w;
  Some (seen, w, c).

(** The loop body of [BM_Conduit_WrapAround] for [i]: the harness sees the
    answer of [push] and the popped pointer; [value] is what its member holds. *)
Definition wrap_turn (junk i : Z) (t : turn) (w : store_world) (c : conduit Size)
    : option (bool * option Z * store_world * conduit Size) :=
  '(e, w) ← world_make (t_make t) (t_free t) junk this_pool w;
  w ← member e i w;
  '(ok, c) ← push (ep_get e) c;
  let '(_, e) := ep_release e in
  '(ev, c) ← pop (back t) this_pool c;
  let value := member_of ev w in
  w ← ep_destroy ev w;
  w ← ep_destroy e w;
  Some (ok, value, w, c).

(** The loop body of [BM_Conduit_LatencyHistogram]; [t0] and [t1] are the two
    readings of the counter. *)
Definition latency_turn (junk t0 t1 : Z) (t : turn) (w : store_world) (c : conduit Size)
    : option (Z * store_world * conduit Size) :=
  '(ev, w) ← world_make (t_make t) (t_free t) junk this_pool w;
  w ← member ev t0 w;
  '(_, c) ← push (ep_get ev) c;
  let '(_, ev) := ep_release ev in
  '(out, c) ← pop (back t) this_pool c;
  start ← member_of out w;
  let dt := u64 (t1 - start) in
  w ← ep_destroy out w;
  w ← ep_destroy ev w;
  Some (dt, w, c).

(** *** What a trip does *)

(** Between two turns: a pool with a free cell and an empty conduit that has
    room for one pointer. *)
Definition ready (n : nat) (m : gmap Z Z) (w : store_world) (c : conduit Size) : Prop :=
  pool_has this_pool (S n) m w ∧ conduit_inv c ∧ items c = [] ∧ 2 ≤ Size.

(** An empty conduit hands the pointer just pushed to the next [pop]. *)
Lemma push_pop {W} (del : deleter W) p a c :
  conduit_inv c → items c = [] → 2 ≤ Size →
  ∃ c1 c2, push a c = Some (true, c1) ∧ pop del p c1 = Some (ep_make a del p, c2) ∧
    conduit_inv c2 ∧ items c2 = [].
Proof.
  intros Hc Hi Hs.
  destruct (q_push_room (Q := conduit Size) a c) as (c1 & E1 & Ei1 & _ & Hc1); [done|cbn; rewrite Hi; cbn; lia|].
  cbn in E1, Ei1, Hc1. rewrite Hi in Ei1.
  destruct (q_pop_cons (Q := conduit Size) c1 a []) as (c2 & E2 & Ei2 & _ & Hc2); [done..|].
  cbn in E2, Ei2, Hc2. exists c1, c2. split; [done|]. unfold pop. rewrite E2. done.
Qed.

(** The owner of a live object at [a] is destroyed: the cell goes back. *)
Lemma owner_destroyed spd a (v : Z) L m (w : store_world) :
  0 < a → m !! a = None → points_to this_pool (ep_make a (world_release spd) this_pool) v L (<[a := v]> m) w →
  ∃ w', ep_destroy (ep_make a (world_release spd) this_pool) w = Some w' ∧
    pool_has this_pool (S (length L)) m w'.
Proof.
  intros Ha Hf Hp. destruct (world_release_spec spd this_pool a v L _ w Ha Hp) as (j & w' & E & Hw & _).
  exists w'. rewrite ep_destroy_owner by (unfold nullptr; lia). split; [done|].
  exists (j :: L). split; [done|]. by rewrite delete_insert_id in Hw.
Qed.

Lemma cleared_destroy (e : event_ptr store_world) w : ep_destroy (ep_clear e) w = Some w.
Proof. done. Qed.

Lemma flux_turn_spec junk t n m w c :
  ready n m w c →
  ∃ a w' c', flux_turn junk t w c = Some (a, w', c') ∧ a ≠ nullptr ∧ ready n m w' c'.
Proof.
  intros ((L & Hn & Hp) & Hc & Hi & Hs). destruct L as [|i L]; [done|]. injection Hn as Hn.
  destruct (world_make_room (t_make t) (t_free t) junk this_pool i L m w Hp) as (a & w1 & E & Ha & Hf & Hpt & _ & _).
  unfold flux_turn. rewrite E. cbn [mbind option_bind]. unfold ep_release. cbn [ep_make ptr_].
  destruct (push_pop (back t) this_pool a c Hc Hi Hs) as (c1 & c2 & -> & E2 & Hc2 & Hi2).
  cbn [mbind option_bind]. rewrite cleared_destroy. cbn [mbind option_bind]. rewrite E2. cbn [mbind option_bind].
  destruct (owner_destroyed (t_free t) a junk L m w1 Ha Hf Hpt) as (w2 & -> & Hw2). cbn [mbind option_bind].
  exists a, w2, c2. split; [done|]. split; [unfold nullptr; lia|]. rewrite Hn in Hw2. by split_and!.
Qed.

(** The event that comes out is the one that went in, with its member. *)
Lemma trip junk x t n m w c :
  ready n m w c →
  ∃ a w1 w2 c1 c2 w3, 0 < a ∧
    world_make (t_make t) (t_free t) junk this_pool w = Some (ep_make a (back t) this_pool, w1) ∧
    member (ep_make a (back t) this_pool) x w1 = Some w2 ∧
    push a c = Some (true, c1) ∧
    pop (back t) this_pool c1 = Some (ep_make a (back t) this_pool, c2) ∧
    member_of (ep_make a (back t) this_pool) w2 = Some x ∧
    ep_destroy (ep_make a (back t) this_pool) w2 = Some w3 ∧ ready n m w3 c2.
Proof.
  intros ((L & Hn & Hp) & Hc & Hi & Hs). destruct L as [|i L]; [done|]. injection Hn as Hn.
  destruct (world_make_room (t_make t) (t_free t) junk this_pool i L m w Hp) as (a & w1 & E & Ha & Hf & Hpt & _ & _).
  set (ev := ep_make a (back t) this_pool) in *.
  destruct (store_spec (λ _, 0) (λ _, this_pool) this_pool 0 ev ev junk x L (<[a := junk]> m) w1) as (w2 & E2 & Hpt2 & _ & _);
    [done|cbn; lia|done|].
  cbn [ev ep_make ptr_] in Hpt2. fold ev in Hpt2. rewrite insert_insert_eq in Hpt2.
  destruct (push_pop (back t) this_pool a c Hc Hi Hs) as (c1 & c2 & E3 & E4 & Hc2 & Hi2).
  destruct (owner_destroyed (t_free t) a x L m w2 Ha Hf Hpt2) as (w3 & E5 & Hw3).
  exists a, w1, w2, c1, c2, w3. split_and!; try done.
  - eapply load_spec; [done| |exact Hpt2]. cbn. lia.
  - rewrite Hn in Hw3. by split_and!.
Qed.

Lemma wrap_turn_spec junk i t n m w c :
  ready n m w c →
  ∃ w' c', wrap_turn junk i t w c = Some (true, Some i, w', c') ∧ ready n m w' c'.
Proof.
  intros Hr. destruct (trip junk i t n m w c Hr) as (a & w1 & w2 & c1 & c2 & w3 & _ & E1 & E2 & E3 & E4 & E5 & E6 & Hr').
  exists w3, c2. split; [|done]. unfold wrap_turn. rewrite E1. cbn [mbind option_bind]. rewrite E2. cbn [mbind option_bind].
  cbn [ep_get ep_make ptr_]. rewrite E3. cbn [mbind option_bind ep_release]. rewrite E4. cbn [mbind option_bind].
  rewrite E5, E6. cbn [mbind option_bind]. done.
Qed.

Lemma latency_turn_spec junk t0 t1 t n m w c :
  ready n m w c →
  ∃ w' c', latency_turn junk t0 t1 t w c = Some (u64 (t1 - t0), w', c') ∧ ready n m w' c'.
Proof.
  intros Hr. destruct (trip junk t0 t n m w c Hr) as (a & w1 & w2 & c1 & c2 & w3 & _ & E1 & E2 & E3 & E4 & E5 & E6 & Hr').
  exists w3, c2. split; [|done]. unfold latency_turn. rewrite E1. cbn [mbind option_bind]. rewrite E2. cbn [mbind option_bind].
  cbn [ep_get ep_make ptr_]. rewrite E3. cbn [mbind option_bind ep_release]. rewrite E4. cbn [mbind option_bind].
  rewrite E5. cbn [mbind option_bind]. rewrite E6. cbn [mbind option_bind]. done.
Qed.

(** ** The loops *)

(** [BM_Conduit_FullFlux]: one list entry per turn; the pointers the harness
    sees. *)
Fixpoint flux_loop (junk : Z) (ts : list turn) (w : store_world) (c : conduit Size)
    : option (list Z * store_world * conduit Size) :=
  match ts with
  | [] => Some ([], w, c)
  | t :: ts' =>
      '(a, w, c) ← flux_turn junk t w c;
      '(seen, w, c) ← flux_loop junk ts' w c;
      Some (a :: seen, w, c)
  end.

(** The inner loop of [BM_Conduit_WrapAround], from [i] on. *)
Fixpoint wrap_loop (junk i : Z) (ts : list turn) (w : store_world) (c : conduit Size)
    : option (list (bool * option Z) * store_world * conduit Size) :=
  match ts with
  | [] => Some ([], w, c)
  | t :: ts' =>
      '(ok, v, w, c) ← wrap_turn junk i t w c;
      '(seen, w, c) ← wrap_loop junk (i + 1) ts' w c;
      Some ((ok, v) :: seen, w, c)
  end.

(** Its outer loop; each entry holds the turns of one inner loop. *)
Fixpoint wrap_bench (junk : Z) (tss : list (list turn)) (w : store_world) (c : conduit Size)
    : option (list (list (bool * option Z)) * store_world * conduit Size) :=
  match tss with
  | [] => Some ([], w, c)
  | ts :: tss' =>
      '(seen, w, c) ← wrap_loop junk 0 ts w c;
      '(rest, w, c) ← wrap_bench junk tss' w c;
      Some (seen :: rest, w, c)
  end.

(** The loop of [BM_Conduit_LatencyHistogram]: the samples, in order. *)
Fixpoint latency_loop (junk : Z) (ts : list (turn * (Z * Z))) (w : store_world) (c : conduit Size)
    : option (list Z * store_world * conduit Size) :=
  match ts with
  | [] => Some ([], w, c)
  | (t, (t0, t1)) :: ts' =>
      '(dt, w, c) ← latency_turn junk t0 t1 t w c;
      '(samples, w, c) ← latency_loop junk ts' w c;
      Some (dt :: samples, w, c)
  end.

(** The full lifecycle can be repeated for ever: no turn pops a null pointer. *)
Lemma flux_loop_spec junk ts n m w c :
  ready n m w c →
  ∃ seen w' c', flux_loop junk ts w c = Some (seen, w', c') ∧ length seen = length ts ∧
    Forall (λ a, a ≠ nullptr) seen ∧ ready n m w' c'.
Proof.
  revert w c. induction ts as [|t ts IH]; intros w c Hr; cbn [flux_loop].
  { exists [], w, c. split_and!; [done..|constructor|done]. }
  destruct (flux_turn_spec junk t n m w c Hr) as (a & w1 & c1 & -> & Ha & Hr1). cbn [mbind option_bind].
  destruct (IH w1 c1 Hr1) as (seen & w2 & c2 & -> & Hl & Hs & Hr2). cbn [mbind option_bind].
  exists (a :: seen), w2, c2. split_and!; [done|cbn; by rewrite Hl|by constructor|done].
Qed.

Lemma wrap_loop_spec junk ts : ∀ i n m w c,
  ready n m w c →
  ∃ w' c', wrap_loop junk i ts w c = Some ((λ j, (true, Some j)) <$> seqZ i (Z.of_nat (length ts)), w', c') ∧ ready n m w' c'.
Proof.
  induction ts as [|t ts IH]; intros i n m w c Hr; cbn [wrap_loop length]; [by exists w, c|].
  destruct (wrap_turn_spec junk i t n m w c Hr) as (w1 & c1 & -> & Hr1). cbn [mbind option_bind].
  destruct (IH (i + 1) n m w1 c1 Hr1) as (w2 & c2 & -> & Hr2). cbn [mbind option_bind].
  exists w2, c2. split; [|done]. rewrite (seqZ_cons i) by lia. rewrite fmap_cons.
  by replace (Z.pred (Z.of_nat (S (length ts)))) with (Z.of_nat (length ts)) by lia.
Qed.

Lemma wrap_bench_spec junk tss n m w c :
  ready n m w c →
  ∃ w' c', wrap_bench junk tss w c
    = Some ((λ ts, (λ j, (true, Some j)) <$> seqZ 0 (Z.of_nat (length ts))) <$> tss, w', c') ∧ ready n m w' c'.
Proof.
  revert w c. induction tss as [|ts tss IH]; intros w c Hr; cbn [wrap_bench]; [by exists w, c|].
  destruct (wrap_loop_spec junk ts 0 n m w c Hr) as (w1 & c1 & -> & Hr1). cbn [mbind option_bind].
  destruct (IH w1 c1 Hr1) as (w2 & c2 & -> & Hr2). cbn [mbind option_bind]. by exists w2, c2.
Qed.

Lemma latency_loop_spec junk ts n m w c :
  ready n m w c →
  ∃ w' c', latency_loop junk ts w c = Some ((λ r : turn * (Z * Z), u64 (r.2.2 - r.2.1)) <$> ts, w', c') ∧ ready n m w' c'.
Proof.
  revert w c. induction ts as [|[t [t0 t1]] ts IH]; intros w c Hr; cbn [latency_loop]; [by exists w, c|].
  destruct (latency_turn_spec junk t0 t1 t n m w c Hr) as (w1 & c1 & -> & Hr1). cbn [mbind option_bind].
  destruct (IH w1 c1 Hr1) as (w2 & c2 & -> & Hr2). cbn [mbind option_bind]. by exists w2, c2.
Qed.

End trips.

(** What the programs declare: [pool<E> p(capacity); conduit<E, Size> c]. *)
Definition declare {Size} (base csize capacity : Z) (ring : list Z) : option (world Z () * conduit Size) :=
  w ← one_pool this_pool base csize capacity (); Some (w, conduit_ctor ring).

Lemma declare_ready {Size} base csize capacity ring :
  1 ≤ capacity ≤ END → 0 < base → 0 < csize → base + capacity * csize ≤ 2 ^ 64 →
  2 ≤ Size < 2 ^ 64 → Z.of_nat (length ring) = Size →
  ∃ w c, declare (Size := Size) base csize capacity ring = Some (w, c) ∧ ready (Z.to_nat capacity - 1) ∅ w c.
Proof.
  intros Hc Hb Hs Hl HS Hr.
  destruct (one_pool_has (T := Z) this_pool base csize capacity ()) as (w & E & Hp & _); [done..|].
  destruct (conduit_ctor_inv (Size := Size) ring) as [Hi He]; [lia|done|].
  unfold declare. rewrite E. cbn [mbind option_bind]. eexists _, _. split; [done|]. split_and!; [|done|done|lia].
  by replace (S (Z.to_nat capacity - 1)) with (Z.to_nat capacity) by lia.
Qed.

(** ** bench_wrap_around.cpp and bench_latency_histogram.cpp *)

(** The indices of the conduit wrap around as often as the harness likes: every
    push of [BM_Conduit_WrapAround] succeeds and every pop returns the event
    just pushed, with its value, for any number of turns and whatever the
    spurious failures; afterwards the pool is full and the conduit empty. *)
Theorem wrap_always_succeeds Size base csize N ring junk (tss : list (list turn)) :
  1 ≤ N + 16 ≤ END → 0 < base → 0 < csize → base + (N + 16) * csize ≤ 2 ^ 64 →
  2 ≤ Size < 2 ^ 64 → Z.of_nat (length ring) = Size → Forall (λ ts, Z.of_nat (length ts) = N) tss →
  ∃ w c w' c', declare (Size := Size) base csize (N + 16) ring = Some (w, c) ∧
    wrap_bench junk tss w c = Some (replicate (length tss) ((λ j, (true, Some j)) <$> seqZ 0 N), w', c') ∧
    pool_has this_pool (Z.to_nat (N + 16)) ∅ w' ∧ items c' = [].
Proof.
  intros Hc Hb Hs Hl HS Hr Hts.
  destruct (declare_ready (Size := Size) base csize (N + 16) ring) as (w & c & E & Hrd); [done..|].
  destruct (wrap_bench_spec junk tss _ _ w c Hrd) as (w' & c' & Eb & Hrd').
  exists w, c, w', c'. split; [done|]. split; [|destruct Hrd' as (Hp & _ & He & _); split; [|done]].
  - rewrite Eb. repeat f_equal. clear -Hts. induction Hts as [|ts tss Hl _ IH]; [done|].
    rewrite fmap_cons, IH. cbn. by rewrite Hl.
  - by replace (Z.to_nat (N + 16)) with (S (Z.to_nat (N + 16) - 1)) by lia.
Qed.

(** [std::sort(samples...)] and [samples[size_t(samples.size() * x)]]. *)
Definition pct (samples : list Z) (x : double) : option Z :=
  i ← to_uint64 (dmul (of_Z (Z.of_nat (length samples))) x);
  zget (merge_sort Z.le samples) i.

(** [BM_Conduit_LatencyHistogram]: the counters p50, p90, p99 and p999 of the
    turns [ts]. *)
Definition histogram {Size} (junk base csize capacity : Z) (ring : list Z) (ts : list (turn * (Z * Z)))
    : option (list Z) :=
  '(w, c) ← declare (Size := Size) base csize capacity ring;
  '(samples, w, c) ← latency_loop junk ts w c;
  mapM (pct samples) [lit 50 2; lit 90 2; lit 99 2; lit 999 3].

(** A quantile below 1 indexes inside the samples, for as many samples as a
    double can count, although the index is computed in floating point. *)
Lemma pct_sample samples x m :
  x = S754_finite false m (-53) → Zdigits2 (Z.pos m) = 53 → Z.pos m * (2 ^ 52 + 1) < 2 ^ 53 * 2 ^ 52 →
  samples ≠ [] → Z.of_nat (length samples) < 2 ^ 53 →
  ∃ v, pct samples x = Some v ∧ v ∈ samples.
Proof.
  intros -> Hd Hm Hne Hn. unfold pct.
  assert (0 < Z.of_nat (length samples)) as H0 by (destruct samples; [done|cbn; lia]).
  pose proof (dmul_fraction (Z.of_nat (length samples)) m ltac:(lia) Hd Hm) as Hp.
  destruct (dmul _ _) as [| | |[] p e]; try done. destruct Hp as [Hp1 Hp2].
  assert (0 ≤ trunc p e < Z.of_nat (length samples)) as Ht.
  { unfold trunc. destruct (Z.leb_spec 0 e) as [He|He].
    - pose proof (Z.pow_pos_nonneg 2 e ltac:(lia) He). specialize (Hp1 He). nia.
    - pose proof (Z.pow_pos_nonneg 2 (- e) ltac:(lia) ltac:(lia)). split; [apply Z.div_pos; lia|].
      apply Z.div_lt_upper_bound; [done|]. specialize (Hp2 He). lia. }
  cbn [to_uint64]. rewrite (proj2 (Z.ltb_lt _ _)) by lia. cbn [mbind option_bind].
  pose proof (merge_sort_Permutation Z.le samples) as Hs.
  destruct (zget_is_Some (merge_sort Z.le samples) (trunc p e)) as [v Hv]; [by rewrite Hs|].
  exists v. split; [done|]. rewrite <-Hs. unfold zget in Hv. case_decide; [|done].
  by eapply list_elem_of_lookup_2.
Qed.

(** The four counters are latencies that were measured: whatever the readings
    of the counter, no sample is lost, the indices are inside the array, and
    every latency is the difference of its own two readings. *)
Theorem histogram_samples Size junk base csize capacity ring (ts : list (turn * (Z * Z))) :
  1 ≤ capacity ≤ END → 0 < base → 0 < csize → base + capacity * csize ≤ 2 ^ 64 →
  2 ≤ Size < 2 ^ 64 → Z.of_nat (length ring) = Size → ts ≠ [] → Z.of_nat (length ts) < 2 ^ 53 →
  ∃ ps, histogram (Size := Size) junk base csize capacity ring ts = Some ps ∧ length ps = 4%nat ∧
    Forall (λ v, v ∈ (λ r : turn * (Z * Z), u64 (r.2.2 - r.2.1)) <$> ts) ps.
Proof.
  intros Hc Hb Hs Hl HS Hr Hne Hts. unfold histogram.
  destruct (declare_ready (Size := Size) base csize capacity ring) as (w & c & -> & Hrd); [done..|].
  cbn [mbind option_bind]. destruct (latency_loop_spec junk ts _ _ w c Hrd) as (w' & c' & -> & _). cbn [mbind option_bind].
  set (samples := _ <$> ts).
  assert (samples ≠ []) as Hsn by (by destruct ts).
  assert (Z.of_nat (length samples) < 2 ^ 53) as Hsl by (unfold samples; by rewrite length_fmap).
  destruct (pct_sample samples (lit 50 2) 4503599627370496) as (v1 & E1 & H1); [done..|].
  destruct (pct_sample samples (lit 90 2) 8106479329266893) as (v2 & E2 & H2); [done..|].
  destruct (pct_sample samples (lit 99 2) 8917127262193582) as (v3 & E3 & H3); [done..|].
  destruct (pct_sample samples (lit 999 3) 8998192055486251) as (v4 & E4 & H4); [done..|].
  exists [v1; v2; v3; v4]. cbn [mapM]. rewrite E1, E2, E3, E4. cbn. split_and!; [done..|].
  by repeat constructor.
Qed.

(** ** bench_conduit.cpp: [BM_Conduit_Push] *)

Section push_bench.
Context {Size : Z}.

(** [for (int i = 0; i < state.range(0) - 1; ++i)
       pre_allocated.push_back(p.make().release());] *)
Fixpoint preallocate (junk : Z) (ts : list turn) (w : world Z ()) : option (list Z * world Z ()) :=
  match ts with
  | [] => Some ([], w)
  | t :: ts' =>
      '(tmp, w) ← world_make (t_make t) (t_free t) junk this_pool w;
      let '(raw, tmp) := ep_release tmp in
      w ← ep_destroy tmp w;
      '(pre, w) ← preallocate junk ts' w;
      Some (raw :: pre, w)
  end.

(** [c.push(pre_allocated[idx++ % pre_allocated.size()])], [n] times; [idx] is
    an [int], whose overflow is undefined. *)
Fixpoint push_loop (n : nat) (idx : Z) (pre : list Z) (c : conduit Size) : option (list bool * conduit Size) :=
  match n with
  | O => Some ([], c)
  | S n' =>
      if idx + 1 <? 2 ^ 31 then
        a ← zget pre (idx `mod` Z.of_nat (length pre));
        '(ok, c) ← push a c;
        '(oks, c) ← push_loop n' (idx + 1) pre c;
        Some (ok :: oks, c)
      else None
  end.

Lemma preallocate_spec junk ts : ∀ n m w,
  pool_has this_pool n m w → (length ts ≤ n)%nat →
  ∃ pre m' w', preallocate junk ts w = Some (pre, w') ∧ length pre = length ts ∧
    Forall (λ a, a ≠ nullptr) pre ∧ NoDup pre ∧ (∀ a, a ∈ pre → m !! a = None) ∧
    pool_has this_pool (n - length ts) m' w'.
Proof.
  induction ts as [|t ts IH]; intros n m w Hp Hn; cbn [preallocate].
  { exists [], m, w. split_and!; [done|done|by apply Forall_nil|by apply NoDup_nil_2|by intros a ?%elem_of_nil|].
    cbn. by rewrite Nat.sub_0_r. }
  destruct Hp as (L & HL & Hp). destruct L as [|i L]; [cbn in *; lia|].
  destruct (world_make_room (t_make t) (t_free t) junk this_pool i L m w Hp) as (a & w1 & -> & Ha & Hf & Hpt & _ & _).
  cbn [mbind option_bind ep_release ep_make ptr_]. rewrite cleared_destroy. cbn [mbind option_bind].
  destruct Hpt as (q & Hq & Hi & Hm & _).
  destruct (IH (length L) (<[a := junk]> m) w1) as (pre & m' & w' & -> & Hl & Hnn & Hnd & Hfr & Hp');
    [by exists L; split; [done|]; exists q|cbn in *; lia|].
  cbn [mbind option_bind]. exists (a :: pre), m', w'. split_and!; [done|cbn; by rewrite Hl| | | |].
  - constructor; [unfold nullptr; lia|done].
  - apply NoDup_cons. split; [|done]. intros Hin%Hfr. by rewrite lookup_insert_eq in Hin.
  - intros b [->|Hb]%elem_of_cons; [done|]. apply Hfr, lookup_insert_None in Hb as [? _]. done.
  - cbn [length]. replace (n - S (length ts))%nat with (length L - length ts)%nat by (cbn in *; lia). done.
Qed.

(** The answers of [push] when the conduit holds [k] pointers and nobody pops:
    true while there is room, false ever after. *)
Definition saturating (k n : nat) : list bool :=
  replicate (n `min` (Z.to_nat (Size - 1) - k)) true ++ replicate (n - (Z.to_nat (Size - 1) - k)) false.

Lemma push_loop_spec pre n : ∀ idx c,
  conduit_inv c → pre ≠ [] → 0 ≤ idx → idx + Z.of_nat n < 2 ^ 31 →
  ∃ c', push_loop n idx pre c = Some (saturating (length (items c)) n, c') ∧ conduit_inv c' ∧
    length (items c') = ((length (items c) + n) `min` Z.to_nat (Size - 1))%nat.
Proof.
  induction n as [|n IH]; intros idx c Hc Hpre Hi Hn; cbn [push_loop].
  - exists c. split_and!; [done..|]. pose proof (q_bounded (Q := conduit Size) c Hc) as Hb. cbn in Hb.
    lia.
  - rewrite (proj2 (Z.ltb_lt _ _)) by lia.
    assert (0 < Z.of_nat (length pre)) as Hlen by (destruct pre; [done|cbn; lia]).
    destruct (zget_is_Some pre (idx `mod` Z.of_nat (length pre))) as [a ->]; [by apply Z.mod_pos_bound|].
    cbn [mbind option_bind].
    destruct (q_push_cases (Q := conduit Size) a c) as [(c1 & E & Ei & _ & Hc1 & Hlt)|[E Hfull]];
      [done|..]; cbn in E; rewrite E; cbn [mbind option_bind].
    + cbn in Ei, Hc1, Hlt. destruct (IH (idx + 1) c1) as (c2 & -> & Hc2 & Hl2); [done|done|lia|lia|].
      cbn [mbind option_bind]. exists c2. rewrite Ei, length_app in *. cbn [length] in *. split_and!; [|done|lia].
      unfold saturating. set (cap := Z.to_nat (Size - 1)) in *.
      replace (S n `min` (cap - length (items c)))%nat with (S (n `min` (cap - (length (items c) + 1))))%nat by lia.
      replace (S n - (cap - length (items c)))%nat with (n - (cap - (length (items c) + 1)))%nat by lia. done.
    + cbn in Hfull. destruct (IH (idx + 1) c) as (c2 & -> & Hc2 & Hl2); [done|done|lia|lia|].
      cbn [mbind option_bind]. exists c2. split_and!; [|done|rewrite Hl2; lia].
      unfold saturating. rewrite Hfull, Nat.sub_diag, !Nat.min_0_r, !Nat.sub_0_r. done.
Qed.

(** [BM_Conduit_Push] with the argument [range], for [n] turns. *)
Definition push_bench (junk base csize range : Z) (ring : list Z) (ts : list turn) (n : nat)
    : option (list bool) :=
  '(w, c) ← declare (Size := Size) base csize range ring;
  '(pre, w) ← preallocate junk ts w;
  '(oks, c) ← push_loop n 0 pre c;
  Some oks.

(** Nothing is ever popped: the program times [Size - 1] successful pushes and
    then only refused ones. *)
Theorem push_bench_saturates junk base csize range ring (ts : list turn) n :
  2 ≤ range ≤ END → 0 < base → 0 < csize → base + range * csize ≤ 2 ^ 64 →
  2 ≤ Size < 2 ^ 64 → Z.of_nat (length ring) = Size →
  Z.of_nat (length ts) = range - 1 → Z.of_nat n < 2 ^ 31 →
  push_bench junk base csize range ring ts n =
    Some (replicate (n `min` Z.to_nat (Size - 1)) true ++ replicate (n - Z.to_nat (Size - 1)) false).
Proof.
  intros Hc Hb Hs Hl HS Hr Hts Hn. unfold push_bench.
  destruct (declare_ready (Size := Size) base csize range ring) as (w & c & -> & Hp & Hi & He & _); [lia|done..|].
  cbn [mbind option_bind]. destruct (preallocate_spec junk ts _ _ w Hp) as (pre & m' & w' & -> & Hlen & _); [lia|].
  cbn [mbind option_bind].
  destruct (push_loop_spec pre n 0 c) as (c' & -> & _); [done| |lia|lia|].
  { intros ->. cbn in Hlen. lia. }
  rewrite He. unfold saturating. cbn [length]. by rewrite Nat.sub_0_r.
Qed.

End push_bench.

(** ** bench_pipeline_dispatch.cpp *)

Module PipelineBench.

Definition ev_id : Z := 1.

(** [struct A], [struct B], [struct C]: [e->x += k]; [x] is an [int]. *)
Definition adder (k : Z) : stage Z () := λ id, if id =? ev_id then Some (WriteVoid (λ x st, (x + k, st))) else None.

Definition pipe : list (stage Z ()) := [adder 1; adder 2; adder 3].

Definition ev_type : ety := Ety ev_id None.

(** One turn: [auto e = p.make(); pipe.dispatch(e)]; the harness sees [e]. *)
Definition pipe_turn (t : turn) (w : world Z ()) : option (Z * world Z ()) :=
  '(e, w) ← world_make (t_make t) (t_free t) 0 this_pool w;
  '(e, w) ← dispatch (stage_handler (λ _, 0) (λ _, this_pool) <$> pipe) ev_type e w;
  x ← member_of e w;
  w ← ep_destroy e w;
  Some (x, w).

Fixpoint pipe_loop (ts : list turn) (w : world Z ()) : option (list Z * world Z ()) :=
  match ts with
  | [] => Some ([], w)
  | t :: ts' => '(x, w) ← pipe_turn t w; '(xs, w) ← pipe_loop ts' w; Some (x :: xs, w)
  end.

Lemma pipe_turn_spec t n m w :
  pool_has this_pool (S n) m w → ∃ w', pipe_turn t w = Some (6, w') ∧ pool_has this_pool (S n) m w'.
Proof.
  intros (L & Hn & Hp). destruct L as [|i L]; [done|]. injection Hn as Hn.
  destruct (world_make_room (t_make t) (t_free t) 0 this_pool i L m w Hp) as (a & w1 & E & Ha & Hf & Hpt & _ & _).
  unfold pipe_turn. rewrite E. cbn [mbind option_bind].
  destruct (dispatch_stages (λ _, 0) (λ _, this_pool) this_pool ev_type pipe
    (ep_make a (world_release (t_free t)) this_pool) 0 L (<[a := 0]> m) w1) as (w2 & -> & Hp2 & _ & _);
    [solve_placed|done|done|]. cbn [mbind option_bind].
  change (flow (stage_calls pipe ev_type) 0 (w_st w1)).1 with 6 in Hp2. cbn [ep_make ptr_] in Hp2.
  rewrite insert_insert_eq in Hp2.
  assert (member_of (ep_make a (world_release (t_free t)) this_pool) w2 = Some 6) as ->.
  { eapply load_spec; [done| |exact Hp2]. cbn. lia. }
  cbn [mbind option_bind]. destruct (owner_destroyed (t_free t) a 6 L m w2 Ha Hf Hp2) as (w3 & -> & Hw3).
  cbn [mbind option_bind]. exists w3. split; [done|]. by rewrite Hn in Hw3.
Qed.

(** Every event leaves the pipeline with 6, in every turn, and the pool is as
    before. *)
Lemma pipe_loop_spec ts n m w :
  pool_has this_pool (S n) m w →
  ∃ w', pipe_loop ts w = Some (replicate (length ts) 6, w') ∧ pool_has this_pool (S n) m w'.
Proof.
  revert w. induction ts as [|t ts IH]; intros w Hp; cbn [pipe_loop]; [by exists w|].
  destruct (pipe_turn_spec t n m w Hp) as (w1 & -> & Hp1). cbn [mbind option_bind].
  destruct (IH w1 Hp1) as (w2 & -> & Hp2). cbn [mbind option_bind]. by exists w2.
Qed.

End PipelineBench.

(** ** bench_http.cpp *)

Module HttpBench.

(** [RAW_HTTP]; each line ends with CR LF. *)
Definition line_of (s : string) : list Z := bytes_of s ++ [CR; LF].
Definition RAW_HTTP : list Z :=
  line_of "GET /price?symbol=AAPL HTTP/1.1" ++ line_of "Host: example.com" ++
  line_of "User-Agent: CRE-Bench" ++ line_of "Accept: */*" ++ line_of "".

(** One turn: a fresh event and the answer of the parser. *)
Definition http_turn : option (bool * http_request_event) := parse RAW_HTTP (new_event 0).

(** Every turn parses the whole request. *)
Example http_bench_parses :
  ('(ok, ev) ← http_turn; r ← event_request RAW_HTTP ev; Some (ok, r)) =
  Some (true, Req (bytes_of "GET") (bytes_of "/price?symbol=AAPL")
    [(bytes_of "Host", bytes_of "example.com"); (bytes_of "User-Agent", bytes_of "CRE-Bench");
     (bytes_of "Accept", bytes_of "*/*")] []).
Proof. vm_compute. reflexivity. Qed.

End HttpBench.
