(* ===== verification/BenchThreads.v ===== *)
(** * The benchmarks with threads (bench_producer_consumer.cpp, bench_cache_line_false_sharing.cpp)

    [BM_Conduit_SPSC_Throughput] sends [total] numbered events from a producer
    thread to a consumer thread, which reports an error when the numbers do not
    arrive in order.  Its turn is a machine whose steps are the statements of
    the two threads, each call on the conduit being one step (ConduitConcurrent.v
    splits them); [make], [free] and the assignment to an event run over the pool
    of PoolWeak.v, access by access (PoolClient.v).  The producer
    retries a refused push with the same pointer, and releases its [event_ptr]
    only after the push, when the consumer may already have freed the event.

    [BM_Conduit_FalseSharing] lets two threads increment a counter each. *)

From S2P Require Import Prelude EventPtr Interfaces Pool PoolWeak PoolClient Conduit Stages Channel.

Local Open Scope Z_scope.

(** ** Events from one thread to another *)

Module SpscBench.

(** The producer, in turn [i] of its loop. *)
Inductive producer :=
  | PLoop (i : Z)            (* [i < total] comes next *)
  | PMade (i ptr : Z)        (* [ev] holds [ptr] *)
  | PNumbered (i ptr : Z)    (* [ev->seq = i] is done *)
  | PPushed (i ptr : Z)      (* the push was accepted, [ev] still holds [ptr] *)
  | PReturned.               (* [done = true] is done *)

Inductive consumer :=
  | CLoop                    (* [!done] comes next *)
  | CDone                    (* [done] was set; [consumed < total] comes next *)
  | CPop                     (* the loop body *)
  | CHave (ptr : Z)          (* [ev] holds an event *)
  | CCounted (ptr : Z)       (* it was counted; [ev] goes out of scope next *)
  | CFailed (ptr : Z)        (* the error was reported; [ev] goes out of scope next *)
  | CReturned.

Section spsc.
Context {Size : Z} (total init : Z).    (* [init] is the number of a new event *)

Record state := State {
  p_ : spool Z;
  c_ : conduit Size;
  done_ : bool;
  consumed : Z;
  expected : Z;
  prod : producer;
  cons : consumer;
  error : bool }.            (* [state.SkipWithError] was called *)

Inductive label := Produce (sp : list bool) | Consume (sp : list bool).

(** One step of the producer.  Writing through a null pointer is undefined
    ([None]). *)
Definition produce (sp : list bool) (s : state) : option state :=
  match prod s with
  | PLoop i =>
      if i <? total then
        '(ptr, p) ← al_make sp init (p_ s);
        Some (State p (c_ s) (done_ s) (consumed s) (expected s) (PMade i ptr) (cons s) (error s))
      else Some (State (p_ s) (c_ s) true (consumed s) (expected s) PReturned (cons s) (error s))
  | PMade i ptr =>
      p ← sp_assign (p_ s) ptr (u64 i);
      Some (State p (c_ s) (done_ s) (consumed s) (expected s) (PNumbered i ptr) (cons s) (error s))
  | PNumbered i ptr =>
      '(ok, c) ← push ptr (c_ s);
      Some (State (p_ s) c (done_ s) (consumed s) (expected s)
              (if ok : bool then PPushed i ptr else PNumbered i ptr) (cons s) (error s))
  | PPushed i ptr =>
      Some (State (p_ s) (c_ s) (done_ s) (consumed s) (expected s) (PLoop (i + 1)) (cons s) (error s))
  | PReturned => None
  end.

Definition set_cons (k : consumer) (s : state) : state :=
  State (p_ s) (c_ s) (done_ s) (consumed s) (expected s) (prod s) k (error s).

Definition consume (sp : list bool) (s : state) : option state :=
  match cons s with
  | CLoop => Some (set_cons (if done_ s then CDone else CPop) s)
  | CDone => Some (set_cons (if consumed s <? total then CPop else CReturned) s)
  | CPop =>
      '(slot, c) ← pop_raw (c_ s);
      let ptr := default nullptr slot in
      Some (State (p_ s) c (done_ s) (consumed s) (expected s) (prod s)
              (if ptr =? nullptr then CLoop else CHave ptr) (error s))
  | CHave ptr =>
      seq ← sp_live (p_ s) !! ptr;
      if negb (seq =? expected s)
      then Some (State (p_ s) (c_ s) (done_ s) (consumed s) (expected s) (prod s) (CFailed ptr) true)
      else Some (State (p_ s) (c_ s) (done_ s) (consumed s + 1) (u64 (expected s + 1)) (prod s) (CCounted ptr) (error s))
  | CCounted ptr =>
      p ← al_free sp ptr (p_ s);
      Some (State p (c_ s) (done_ s) (consumed s) (expected s) (prod s) CLoop (error s))
  | CFailed ptr =>
      p ← al_free sp ptr (p_ s);
      Some (State p (c_ s) (done_ s) (consumed s) (expected s) (prod s) CReturned (error s))
  | CReturned => None
  end.

Definition step (l : label) (s : state) : option state :=
  match l with Produce sp => produce sp s | Consume sp => consume sp s end.

(** [pool<flux_event> p(total); conduit<flux_event, 4096> c;] and the two
    threads. *)
Definition start (base csize : Z) (ring : list Z) : state :=
  State (sfresh base csize total) (conduit_ctor ring) false 0 0 (PLoop 0) CLoop false.

(** Both threads were joined. *)
Definition joined (s : state) : Prop := prod s = PReturned ∧ cons s = CReturned.

Definition reach : relation state := rtc (λ s s', ∃ l, step l s = Some s').

(** ** The invariant *)

(** The pointers of the program, in the order the events were made: with the
    consumer, in the conduit, with the producer and not yet pushed. *)
Definition held (s : state) : list Z :=
  match cons s with CHave a | CCounted a | CFailed a => [a] | _ => [] end.
Definition flying (s : state) : list Z :=
  match prod s with PMade _ a | PNumbered _ a => [a] | _ => [] end.
Definition pointers (s : state) : list Z := held s ++ items (c_ s) ++ flying s.

(** How many events were accepted by the conduit, and how many it gave out. *)
Definition pushed (s : state) : Z :=
  match prod s with
  | PLoop i | PMade i _ | PNumbered i _ => i
  | PPushed i _ => i + 1
  | PReturned => total
  end.
Definition popped (s : state) : Z := match cons s with CHave _ => consumed s + 1 | _ => consumed s end.

Definition counted (s : state) : Z := match cons s with CCounted _ => consumed s - 1 | _ => consumed s end.

Record inv (s : state) : Prop := {
  iv_pool : al_inv (p_ s);
  iv_room : (al_room (p_ s) + size (sp_live (p_ s)) = Z.to_nat total)%nat;
  iv_conduit : conduit_inv (c_ s);
  iv_nodup : NoDup (pointers s);
  iv_nonnull : nullptr ∉ pointers s;
  iv_live a : is_Some (sp_live (p_ s) !! a) ↔ a ∈ pointers s;
  (* the numbers behind the pointers the consumer has and will get *)
  iv_seq : values (sp_live (p_ s)) (held s ++ items (c_ s)) = seqZ (counted s) (pushed s - counted s);
  iv_numbered i a : prod s = PNumbered i a → sp_live (p_ s) !! a = Some i;
  iv_index : match prod s with
             | PLoop i => 0 ≤ i ≤ total
             | PMade i _ | PNumbered i _ | PPushed i _ => 0 ≤ i < total
             | PReturned => True
             end;
  iv_done : done_ s = true ↔ prod s = PReturned;
  iv_expected : expected s = consumed s;
  iv_consumed : 0 ≤ counted s ∧ popped s ≤ pushed s;
  iv_cons : match cons s with
            | CDone => done_ s = true
            | CReturned => consumed s = total ∧ done_ s = true
            | CFailed _ => False
            | _ => True
            end;
  iv_error : error s = false }.

Context (Htotal : 1 ≤ total < 2 ^ 31).

Lemma spsc_start_inv base csize ring :
  0 < base → 0 < csize → base + total * csize ≤ 2 ^ 64 → 0 < Size < 2 ^ 64 → Z.of_nat (length ring) = Size →
  inv (start base csize ring).
Proof using Htotal.
  intros Hb Hs Hl HS Hr.
  destruct (sfresh_inv (T := Z) base csize total) as (Hi & Hlive & Hroom); [lia|lia|unfold END; lia|lia|].
  destruct (conduit_ctor_inv (Size := Size) ring) as [Hc He]; [done..|].
  split; unfold pointers, held, flying, popped, counted, pushed; cbn [start prod cons c_ p_ consumed expected done_ error app];
    rewrite ?He; cbn [app]; try done; try lia.
  - rewrite Hroom. cbn. rewrite map_size_empty. lia.
  - apply NoDup_nil_2.
  - apply not_elem_of_nil.
  - intros a. cbn. rewrite lookup_empty, elem_of_nil. split; [by intros []|done].
Qed.

(** The pointers up to the conduit's are one per number in transit. *)
Lemma transit_length s :
  inv s → Z.of_nat (length (held s ++ items (c_ s))) = pushed s - counted s.
Proof.
  intros Hi. pose proof (f_equal length (iv_seq _ Hi)) as E. rewrite values_length, length_seqZ in E.
  - rewrite E. destruct (iv_consumed _ Hi) as [_ Hp]. unfold popped, counted in *. destruct (cons s); lia.
  - intros a Ha. apply (iv_live _ Hi). unfold pointers. rewrite app_assoc. apply elem_of_app. by left.
Qed.

Lemma live_size s : inv s → Z.of_nat (size (sp_live (p_ s))) = pushed s - counted s + Z.of_nat (length (flying s)).
Proof.
  intros Hi. rewrite (size_keys _ (pointers s)) by apply Hi. unfold pointers. rewrite app_assoc, length_app.
  pose proof (transit_length s Hi). lia.
Qed.

Lemma make_ok sp s i :
  inv s → prod s = PLoop i → i < total → ∃ s', produce sp s = Some s' ∧ inv s'.
Proof.
  intros Hi Hp Hlt. pose proof (live_size s Hi) as Hsize. pose proof (iv_index _ Hi) as Hidx.
  destruct (iv_consumed _ Hi) as [Hc0 _]. unfold produce. rewrite Hp in *. rewrite (proj2 (Z.ltb_lt _ _)) by done.
  assert (flying s = []) as Efl by (unfold flying; by rewrite Hp).
  assert (pushed s = i) as Epu by (unfold pushed; by rewrite Hp). rewrite Efl, Epu in Hsize. cbn in Hsize.
  pose proof (iv_room _ Hi) as Hroom.
  destruct (al_make_room (P := spool Z) sp init (p_ s)) as (a & p' & E & Ha & Hfree & Hl & Hr & Hp'); [apply Hi|lia|].
  change (al_live p') with (sp_live p') in Hl. change (al_live (p_ s)) with (sp_live (p_ s)) in Hl, Hfree. rewrite E. cbn [mbind option_bind]. eexists. split; [done|].
  destruct Hi as [Hal _ Hcd Hnd Hnn Hlive Hseq Hnum _ Hdone Hexp Hcon Hcs Herr].
  assert (a ∉ pointers s) as Hna by (intros Hin; apply Hlive in Hin as [? ?]; congruence).
  assert (pointers s = held s ++ items (c_ s)) as Eps by (unfold pointers; by rewrite Efl, app_nil_r).
  rewrite Eps in *. set (s' := State _ _ _ _ _ _ _ _).
  assert (pointers s' = (held s ++ items (c_ s)) ++ [a]) as Eps' by (unfold pointers; by rewrite app_assoc).
  split; rewrite ?Eps'; change (held s') with (held s); change (c_ s') with (c_ s); change (counted s') with (counted s);
    change (popped s') with (popped s); change (pushed s') with i; rewrite <-?Epu; cbn [s' p_ cons prod done_ consumed expected error]; try done.
  - rewrite Hl, map_size_insert_None by done. lia.
  - by apply NoDup_snoc.
  - rewrite elem_of_app, list_elem_of_singleton. by intros [?|<-].
  - rewrite Hl. by apply live_snoc.
  - rewrite Hl, values_insert by done. done.
  - lia.
  - rewrite Hdone, Hp. done.
Qed.

Lemma stop_ok sp s i :
  inv s → prod s = PLoop i → total ≤ i → ∃ s', produce sp s = Some s' ∧ inv s'.
Proof.
  intros Hi Hp Hge. unfold produce. rewrite Hp. rewrite (proj2 (Z.ltb_ge _ _)) by done. eexists. split; [done|].
  destruct Hi as [Hal Hroom Hcd Hnd Hnn Hlive Hseq Hnum Hidx Hdone Hexp Hcon Hcs Herr]. rewrite Hp in Hidx.
  assert (pushed s = total) as Epu by (unfold pushed; rewrite Hp; lia). rewrite Epu in *.
  set (s' := State _ _ _ _ _ _ _ _).
  assert (pointers s' = pointers s) as Eps by (unfold pointers, flying; by rewrite Hp).
  split; rewrite ?Eps; change (held s') with (held s); change (c_ s') with (c_ s); change (counted s') with (counted s);
    change (popped s') with (popped s); change (pushed s') with total; cbn [s' p_ cons prod done_ consumed expected error]; try done.
  destruct (cons s); naive_solver.
Qed.

Lemma number_ok sp s i a :
  inv s → prod s = PMade i a → ∃ s', produce sp s = Some s' ∧ inv s'.
Proof using Htotal.
  intros Hi Hp. unfold produce. rewrite Hp.
  destruct Hi as [Hal Hroom Hcd Hnd Hnn Hlive Hseq Hnum Hidx Hdone Hexp Hcon Hcs Herr]. rewrite Hp in Hidx.
  assert (pointers s = (held s ++ items (c_ s)) ++ [a]) as Eps by (unfold pointers, flying; by rewrite Hp, app_assoc).
  rewrite Eps in *. assert (a ∉ held s ++ items (c_ s)) as Hna.
  { intros Hin. apply NoDup_app in Hnd as (_ & Hd & _). apply (Hd a Hin). by apply list_elem_of_singleton. }
  destruct (proj2 (Hlive a)) as [v Hv]; [apply elem_of_app; right; by apply list_elem_of_singleton|].
  destruct (sp_assign_spec (p_ s) a v (u64 i) Hal Hv) as (-> & Hal' & Hrm). set (p' := SPool _ _) in *. cbn [mbind option_bind].
  assert (sp_live p' = <[a := u64 i]> (sp_live (p_ s))) as Hl by done.
  eexists. split; [done|]. set (s' := State _ _ _ _ _ _ _ _).
  assert (pointers s' = (held s ++ items (c_ s)) ++ [a]) as Eps' by (unfold pointers; by rewrite app_assoc).
  assert (pushed s = i) as Epu by (unfold pushed; by rewrite Hp). rewrite (wrap_small 64) in Hl by (unfold in_word; lia).
  split; rewrite ?Eps'; change (held s') with (held s); change (c_ s') with (c_ s); change (counted s') with (counted s);
    change (popped s') with (popped s); change (pushed s') with i; rewrite <-?Epu; cbn [s' p_ cons prod done_ consumed expected error]; try done.
  - rewrite Hrm, Hl. by rewrite map_size_insert_Some by (by eexists).
  - intros b. rewrite Hl, lookup_insert_is_Some, <-Hlive. destruct (decide (a = b)) as [<-|]; [|naive_solver].
    split; [by eexists|by left].
  - rewrite Hl, values_insert by done. done.
  - intros j b [= <- <-]. by rewrite Hl, lookup_insert_eq, ?Epu.
  - rewrite Hdone, Hp. done.
Qed.

Lemma push_ok sp s i a :
  inv s → prod s = PNumbered i a → ∃ s', produce sp s = Some s' ∧ inv s'.
Proof.
  intros Hi Hp. pose proof (transit_length s Hi) as Hlen. unfold produce. rewrite Hp.
  destruct (q_push_cases (Q := conduit Size) a (c_ s)) as [(c' & E & Ei & _ & Hc' & _)|[E _]];
    [apply Hi|..]; cbn in E; rewrite E; cbn [mbind option_bind]; (eexists; split; [done|]).
  2: { rewrite <-Hp. by destruct s. }
  destruct Hi as [Hal Hroom Hcd Hnd Hnn Hlive Hseq Hnum Hidx Hdone Hexp Hcon Hcs Herr]. rewrite Hp in Hidx.
  cbn in Ei, Hc'. set (s' := State _ _ _ _ _ _ _ _).
  assert (pushed s = i) as Epu by (unfold pushed; by rewrite Hp).
  assert (pointers s' = pointers s) as Eps.
  { unfold pointers, flying. rewrite Hp. cbn [s' prod c_]. rewrite Ei, app_nil_r. done. }
  split; rewrite ?Eps; change (held s') with (held s); change (counted s') with (counted s);
    change (popped s') with (popped s); change (pushed s') with (i + 1); cbn [s' p_ c_ cons prod done_ consumed expected error]; try done.
  - rewrite Ei, app_assoc, values_app, Hseq, Epu. unfold values at 1. cbn [omap list_omap]. rewrite (Hnum i a Hp).
    replace (i + 1 - counted s) with ((i - counted s) + 1) by lia. rewrite seqZ_app by lia. f_equal.
    replace (counted s + (i - counted s)) with i by lia. by rewrite seqZ_cons by lia.
  - rewrite Hdone, Hp. done.
  - lia.
Qed.

Lemma release_ok sp s i a :
  inv s → prod s = PPushed i a → ∃ s', produce sp s = Some s' ∧ inv s'.
Proof.
  intros Hi Hp. unfold produce. rewrite Hp. eexists. split; [done|].
  destruct Hi as [Hal Hroom Hcd Hnd Hnn Hlive Hseq Hnum Hidx Hdone Hexp Hcon Hcs Herr]. rewrite Hp in Hidx.
  assert (pushed s = i + 1) as Epu by (unfold pushed; by rewrite Hp). rewrite Epu in *.
  set (s' := State _ _ _ _ _ _ _ _).
  assert (pointers s' = pointers s) as Eps by (unfold pointers, flying; by rewrite Hp).
  split; rewrite ?Eps; change (held s') with (held s); change (c_ s') with (c_ s); change (counted s') with (counted s);
    change (popped s') with (popped s); change (pushed s') with (i + 1); cbn [s' p_ cons prod done_ consumed expected error]; try done.
  - lia.
  - rewrite Hdone, Hp. done.
Qed.

(** Every step the producer can take is defined and keeps the invariant. *)
Lemma produce_ok sp s : inv s → prod s ≠ PReturned → ∃ s', produce sp s = Some s' ∧ inv s'.
Proof using Htotal.
  intros Hi Hne. destruct (prod s) as [i|i a|i a|i a|] eqn:Hp; [|by eapply number_ok|by eapply push_ok|by eapply release_ok|done].
  destruct (Z.lt_ge_cases i total); [by eapply make_ok|by eapply stop_ok].
Qed.

Lemma pushed_total s : inv s → pushed s ≤ total ∧ (prod s = PReturned → pushed s = total).
Proof using Htotal.
  intros Hi. pose proof (iv_index _ Hi) as H. unfold pushed. destruct (prod s); split; try done; lia.
Qed.

(** The consumer does not change what was pushed. *)
Ltac same_pushed s :=
  repeat match goal with |- context [pushed ?x] => progress change (pushed x) with (pushed s) end.

(** The consumer looks at the flag and the counter. *)
Lemma test_ok sp s :
  inv s → cons s = CLoop ∨ cons s = CDone → ∃ s', consume sp s = Some s' ∧ inv s'.
Proof using Htotal.
  intros Hi Hc. destruct (pushed_total s Hi) as [Hle _]. unfold consume.
  destruct Hi as [Hal Hroom Hcd Hnd Hnn Hlive Hseq Hnum Hidx Hdone Hexp Hcon Hcs Herr].
  destruct Hc as [Hc|Hc]; rewrite Hc in *; (eexists; split; [done|]);
    unfold pointers, held, counted, popped in *; rewrite Hc in *; [destruct (done_ s) eqn:Ed|destruct (Z.ltb_spec (consumed s) total)];
    split; unfold pointers, held, counted, popped; cbn [set_cons p_ c_ cons prod done_ consumed expected error];
    rewrite ?Ed; try done.
  split; [lia|done].
Qed.

Lemma take_ok sp s : inv s → cons s = CPop → ∃ s', consume sp s = Some s' ∧ inv s'.
Proof using Htotal.
  intros Hi Hc. pose proof (transit_length s Hi) as Hlen. destruct (pushed_total s Hi) as [Hle _]. unfold consume. rewrite Hc.
  destruct Hi as [Hal Hroom Hcd Hnd Hnn Hlive Hseq Hnum Hidx Hdone Hexp Hcon Hcs Herr].
  unfold pointers, held, counted, popped in *. rewrite Hc in *. cbn [app] in *.
  destruct (q_pop_cases (Q := conduit Size) (c_ s)) as [[Ei E]|(a & l & c' & Ei & E & El & _ & Hc')];
    [done|..]; cbn in Ei, E; rewrite E; cbn [mbind option_bind].
  - eexists. split; [done|]. cbn. split; unfold pointers, held, counted, popped; cbn -[values]; done.
  - cbn in El, Hc'. rewrite Ei in *. change (default nullptr (Some a)) with a. rewrite (proj2 (Z.eqb_neq a nullptr)).
    2: { intros ->. apply Hnn. by left. }
    eexists. split; [done|].
    split; unfold pointers, held, counted, popped; cbn -[values]; same_pushed s; rewrite ?El; try done.
    cbn [length] in Hlen. split; [lia|]. lia.
Qed.

Lemma check_ok sp s a : inv s → cons s = CHave a → ∃ s', consume sp s = Some s' ∧ inv s'.
Proof using Htotal.
  intros Hi Hc. pose proof (transit_length s Hi) as Hlen. destruct (pushed_total s Hi) as [Hle _]. unfold consume. rewrite Hc.
  destruct Hi as [Hal Hroom Hcd Hnd Hnn Hlive Hseq Hnum Hidx Hdone Hexp Hcon Hcs Herr].
  unfold pointers, held, counted, popped in *. rewrite Hc in *. cbn [app] in *.
  assert (sp_live (p_ s) !! a = Some (consumed s)) as Ha.
  { destruct (proj2 (Hlive a)) as [v Hv]; [by left|]. unfold values in Hseq. cbn [omap list_omap] in Hseq. rewrite Hv in Hseq.
    rewrite seqZ_cons in Hseq by lia. injection Hseq as Ev _. by subst v. }
  rewrite Ha. cbn [mbind option_bind]. rewrite Hexp, Z.eqb_refl. cbn [negb].
  rewrite wrap_small by (unfold in_word; lia). eexists. split; [done|].
  split; unfold pointers, held, counted, popped; cbn -[values]; same_pushed s;
    replace (consumed s + 1 - 1) with (consumed s) by lia; try done; lia.
Qed.

Lemma give_back_ok sp s a : inv s → cons s = CCounted a → ∃ s', consume sp s = Some s' ∧ inv s'.
Proof using Htotal.
  intros Hi Hc. pose proof (transit_length s Hi) as Hlen. unfold consume. rewrite Hc.
  destruct Hi as [Hal Hroom Hcd Hnd Hnn Hlive Hseq Hnum Hidx Hdone Hexp Hcon Hcs Herr].
  unfold pointers, held, counted, popped in *. rewrite Hc in *. cbn [app] in *.
  destruct (proj2 (Hlive a)) as [v Hv]; [by left|].
  destruct (al_free_live (P := spool Z) sp a v (p_ s) Hal Hv) as (p' & E & Hl & Hr & Hp').
  change (al_live p') with (sp_live p') in Hl. change (al_live (p_ s)) with (sp_live (p_ s)) in Hl. rewrite E. cbn [mbind option_bind]. eexists. split; [done|].
  apply NoDup_cons in Hnd as [Hna Hnd]. apply not_elem_of_cons in Hnn as [Hn0 Hnn].
  split; unfold pointers, held, counted, popped; cbn -[values al_room al_inv]; same_pushed s; rewrite ?Hl; try done.
  - pose proof (size_delete_S _ _ _ Hv). rewrite Hr. lia.
  - intros b. rewrite lookup_delete_is_Some, Hlive, elem_of_cons. naive_solver.
  - rewrite values_delete by (intros Hin; apply Hna, elem_of_app; by left).
    unfold values in Hseq. cbn [omap list_omap] in Hseq. rewrite Hv in Hseq. rewrite seqZ_cons in Hseq by (cbn [length] in Hlen; lia).
    injection Hseq as _ Hseq. unfold values. rewrite Hseq. f_equal; lia.
  - intros i b Hp. rewrite lookup_delete_ne; [by apply Hnum|]. intros <-. apply Hna. unfold flying. rewrite Hp.
    apply elem_of_app. right. by left.
  - lia.
Qed.

(** Every step the consumer can take is defined and keeps the invariant. *)
Lemma consume_ok sp s : inv s → cons s ≠ CReturned → ∃ s', consume sp s = Some s' ∧ inv s'.
Proof using Htotal.
  intros Hi Hne. destruct (cons s) as [| | |a|a|a|] eqn:Hc;
    [apply test_ok; auto|apply test_ok; auto|by apply take_ok|by eapply check_ok|by eapply give_back_ok| |done].
  pose proof (iv_cons _ Hi) as Hf. by rewrite Hc in Hf.
Qed.

Lemma spsc_step_inv s l s' : inv s → step l s = Some s' → inv s'.
Proof using Htotal.
  intros Hi E. destruct l as [sp|sp]; cbn in E.
  - destruct (produce_ok sp s Hi) as (s1 & E1 & Hi1); [|congruence]. intros Hp. unfold produce in E. by rewrite Hp in E.
  - destruct (consume_ok sp s Hi) as (s1 & E1 & Hi1); [|congruence]. intros Hc. unfold consume in E. by rewrite Hc in E.
Qed.

Lemma reach_inv s s' : inv s → reach s s' → inv s'.
Proof using Htotal. apply rtc_invariant. intros a b Ha [l E]. by eapply spsc_step_inv. Qed.

(** ** Progress *)

(** What the threads have left to do. *)
Definition prod_left (s : state) : Z :=
  match prod s with
  | PLoop i => 4 * (total - i) + 1
  | PMade i _ => 4 * (total - i)
  | PNumbered i _ => 4 * (total - i) - 1
  | PPushed i _ => 4 * (total - i) - 2
  | PReturned => 0
  end.
Definition cons_left (s : state) : Z :=
  7 * (total - consumed s) +
  match cons s with
  | CCounted _ | CFailed _ => 6
  | CLoop => 5
  | CDone => 4
  | CPop => match items (c_ s) with [] => 6 | _ => 3 end
  | CHave _ => 2
  | CReturned => 0
  end.

Lemma left_nonneg s : inv s → 0 ≤ prod_left s ∧ 0 ≤ cons_left s.
Proof using Htotal.
  intros Hi. destruct (pushed_total s Hi) as [Hle _]. pose proof (iv_index _ Hi) as Hx.
  destruct (iv_consumed _ Hi) as [_ Hp]. split.
  - unfold prod_left. destruct (prod s); lia.
  - unfold cons_left, popped in *. destruct (cons s); try lia. destruct (items (c_ s)); lia.
Qed.

(** The consumer moves on when there is an event or nothing more will come. *)
Lemma consume_progress s :
  inv s → cons s ≠ CReturned → done_ s = true ∨ items (c_ s) ≠ [] →
  ∃ s', step (Consume []) s = Some s' ∧ cons_left s' < cons_left s ∧ prod_left s' = prod_left s.
Proof using Htotal.
  intros Hi Hne Hwork. destruct (consume_ok [] s Hi Hne) as (s' & E & Hi'). exists s'. split; [done|].
  pose proof (transit_length s Hi) as Hlen. destruct (pushed_total s Hi) as [Hle Hret].
  pose proof (iv_done _ Hi) as Hdone. pose proof (iv_cons _ Hi) as Hcs. revert E. unfold consume.
  unfold cons_left at 2. destruct (cons s) as [| | |a|a|a|] eqn:Hc; try done.
  - intros [= <-]. unfold cons_left. cbn [set_cons cons consumed c_]. destruct (done_ s); [by split; [lia|]|].
    destruct Hwork as [|Hw]; [done|]. destruct (items (c_ s)); [done|]. split; [lia|done].
  - intros [= <-]. unfold cons_left. cbn [set_cons cons consumed c_].
    destruct (Z.ltb_spec (consumed s) total); [|by split; [lia|]].
    unfold held, counted in Hlen. rewrite Hc in Hlen. cbn [app] in Hlen. rewrite Hret in Hlen by (by apply Hdone).
    destruct (items (c_ s)); [cbn in Hlen; lia|]. split; [lia|done].
  - destruct (q_pop_cases (Q := conduit Size) (c_ s)) as [[Ei E]|(a & l & c' & Ei & E & El & _ & Hc')];
      [apply Hi|..]; cbn in Ei, E; rewrite E, Ei; cbn; intros [= <-]; unfold cons_left; cbn [cons consumed c_].
    + split; [lia|done].
    + destruct (a =? nullptr) eqn:Ea; [|split; [lia|done]]. exfalso. apply Z.eqb_eq in Ea as ->.
      apply (iv_nonnull _ Hi). unfold pointers. rewrite !elem_of_app, Ei. right. left. by left.
  - destruct (sp_live (p_ s) !! a) as [v|]; [|done]. cbn [mbind option_bind]. destruct (negb _).
    + intros [= <-]. pose proof (iv_error _ Hi'). done.
    + intros [= <-]. unfold cons_left. cbn [cons consumed c_]. split; [lia|done].
  - destruct (al_free [] a (p_ s)) as [p'|]; [|done]. cbn [mbind option_bind]. intros [= <-].
    unfold cons_left. cbn [cons consumed c_]. split; [lia|done].
Qed.

(** The producer moves on unless it waits for room. *)
Lemma produce_progress sp s :
  inv s → prod s ≠ PReturned →
  (∀ i a, prod s = PNumbered i a → (length (items (c_ s)) < Z.to_nat (Size - 1))%nat) →
  ∃ s', step (Produce sp) s = Some s' ∧ cons_left s' ≤ cons_left s ∧ prod_left s' < prod_left s.
Proof using Htotal.
  intros Hi Hne Hroom. destruct (produce_ok sp s Hi Hne) as (s' & E & Hi'). exists s'. split; [done|].
  pose proof (iv_index _ Hi) as Hx. revert E. unfold produce, prod_left.
  destruct (prod s) as [i|i a|i a|i a|] eqn:Hp; try done.
  - destruct (Z.ltb_spec i total).
    + destruct (al_make sp init (p_ s)) as [[ptr p]|]; [|done]. cbn [mbind option_bind]. intros [= <-]. cbn [prod]. split; [done|lia].
    + intros [= <-]. cbn [prod]. split; [done|lia].
  - destruct (sp_assign (p_ s) a (u64 i)) as [p|]; [|done]. cbn [mbind option_bind]. intros [= <-]. cbn [prod]. split; [done|lia].
  - destruct (q_push_room (Q := conduit Size) a (c_ s)) as (c' & E & Ei & _); [apply Hi|by eapply Hroom|].
    cbn in E, Ei. rewrite E. cbn [mbind option_bind]. intros [= <-]. cbn [prod]. split; [|lia].
    unfold cons_left. cbn [cons consumed c_]. rewrite Ei. destruct (cons s); try lia. destruct (items (c_ s)); cbn; lia.
  - intros [= <-]. cbn [prod]. split; [done|lia].
Qed.

Lemma progress s :
  2 ≤ Size → inv s → joined s ∨
  ∃ l s', step l s = Some s' ∧ cons_left s' + prod_left s' < cons_left s + prod_left s.
Proof using Htotal.
  intros HS Hi. pose proof (iv_done _ Hi) as Hdone. pose proof (iv_cons _ Hi) as Hcs.
  destruct (decide (length (items (c_ s)) < Z.to_nat (Size - 1))%nat) as [Hroom|Hfull].
  - assert (prod s = PReturned ∨ prod s ≠ PReturned) as [Hp|Hp] by (destruct (prod s); auto).
    + assert (cons s = CReturned ∨ cons s ≠ CReturned) as [Hc|Hc] by (destruct (cons s); auto); [by left|right].
      destruct (consume_progress s Hi Hc) as (s' & E & ? & ?); [left; by apply Hdone|].
      exists (Consume []), s'. split; [done|lia].
    + right. destruct (produce_progress [] s Hi Hp) as (s' & E & ? & ?); [done|]. exists (Produce []), s'. split; [done|lia].
  - assert (items (c_ s) ≠ []) as Hit by (intros E; rewrite E in Hfull; cbn in Hfull; lia). right.
    assert (cons s ≠ CReturned) as Hc.
    { intros Hc. rewrite Hc in Hcs. destruct Hcs as [Hcs Hd]. pose proof (transit_length s Hi) as Hlen.
      destruct (pushed_total s Hi) as [_ Hr]. unfold held, counted in Hlen. rewrite Hc in Hlen. cbn [app] in Hlen.
      rewrite Hr in Hlen by (by apply Hdone). destruct (items (c_ s)); [done|cbn in Hlen; lia]. }
    destruct (consume_progress s Hi Hc) as (s' & E & ? & ?); [by right|]. exists (Consume []), s'. split; [done|lia].
Qed.

Lemma joined_result s :
  inv s → joined s →
  consumed s = total ∧ items (c_ s) = [] ∧ sp_live (p_ s) = ∅ ∧ al_room (p_ s) = Z.to_nat total.
Proof using Htotal.
  intros Hi [Hp Hc]. pose proof (iv_cons _ Hi) as Hcs. rewrite Hc in Hcs. destruct Hcs as [Hcs _].
  pose proof (transit_length s Hi) as Hlen. pose proof (live_size s Hi) as Hsz. pose proof (iv_room _ Hi).
  unfold flying, pushed, held, counted in *. rewrite Hp, Hc in *. cbn [app length] in *.
  split; [done|]. split; [destruct (items (c_ s)); [done|cbn in Hlen; lia]|].
  assert (size (sp_live (p_ s)) = 0%nat) as H0 by lia. split; [by apply map_size_empty_inv|lia].
Qed.

(** ** The pool's calls split *)

#[local] Instance spsc_client : Client Z state label := {|
  cl_step := step;
  cl_thread l := match l with Produce _ => 0%nat | Consume _ => 1%nat end;
  cl_pool := p_;
  cl_makes s := match prod s with PLoop i => if i <? total then Some init else None | _ => None end;
  cl_make := Produce;
  cl_use l s :=
    match l with
    | Produce _ => match prod s with PMade i ptr => Some (Assign ptr (u64 i)) | _ => None end
    | Consume _ => match cons s with CCounted ptr | CFailed ptr => Some (Free ptr) | _ => None end
    end |}.

(** The events made so far. *)
Definition spsc_made (s : state) : nat :=
  Z.to_nat match prod s with
           | PLoop i => i
           | PMade i _ | PNumbered i _ | PPushed i _ => i + 1
           | PReturned => total
           end.

Lemma produce_keeps sp s s' :
  inv s → produce sp s = Some s' → cl_makes s = None →
  spsc_made s' = spsc_made s ∧
  match prod s with
  | PMade i a => is_Some (sp_live (p_ s) !! a) ∧ p_ s' = SPool (sp_cells (p_ s)) (<[a := u64 i]> (sp_live (p_ s)))
  | _ => p_ s' = p_ s
  end.
Proof using Htotal.
  intros Hi E Hm. pose proof (iv_index _ Hi) as Hx. unfold produce in E. unfold spsc_made. cbn in Hm.
  destruct (prod s) as [i|i a|i a|i a|] eqn:Hp; try done.
  - destruct (i <? total) eqn:Hlt; [done|]. injection E as <-. apply Z.ltb_ge in Hlt. cbn. split; [f_equal; lia|done].
  - unfold sp_assign in E. destruct (sp_live (p_ s) !! a); [|done]. cbn in E. injection E as <-. split; [done|]. split; [by eexists|done].
  - destruct (push a (c_ s)) as [[ok c]|]; [|done]. cbn in E. injection E as <-. by destruct ok.
  - by injection E as <-.
Qed.

Lemma consume_keeps sp s s' :
  inv s → consume sp s = Some s' →
  prod s' = prod s ∧
  match cons s with
  | CCounted a | CFailed a => is_Some (sp_live (p_ s) !! a) ∧ p_ s' = SPool (sp_cells (p_ s)) (delete a (sp_live (p_ s)))
  | _ => p_ s' = p_ s
  end.
Proof using Htotal.
  intros Hi E. pose proof (iv_cons _ Hi) as Hcs. unfold consume in E. destruct (cons s) as [| | |a|a|a|] eqn:Hc; try done.
  - by injection E as <-.
  - by injection E as <-.
  - destruct (pop_raw (c_ s)) as [[r c]|]; [|done]. cbn in E. by injection E as <-.
  - destruct (sp_live (p_ s) !! a); [|done]. cbn in E. destruct (negb _); by injection E as <-.
  - destruct (proj2 (iv_live _ Hi a)) as [v Hv]; [unfold pointers, held; rewrite Hc; by left|].
    cbn [al_free spool_allocator] in E. rewrite (proj2 (Z.eqb_neq a nullptr)), Hv in E.
    + cbn in E. injection E as <-. split; [done|]. split; [by eexists|done].
    + intros ->. apply (iv_nonnull _ Hi). unfold pointers, held. rewrite Hc. by left.
Qed.

#[local] Instance spsc_laws : ClientLaws Z state label total inv spsc_made.
Proof using Htotal.
  split; cbn [cl_step cl_thread cl_pool cl_makes cl_make cl_use spsc_client].
  - intros s v Hi Hm. pose proof (iv_index _ Hi) as Hx. unfold spsc_made. destruct (prod s) as [i| | | |]; try done.
    destruct (Z.ltb_spec i total); [lia|done].
  - intros s v sp a Hi Hm Hch. pose proof (iv_index _ Hi) as Hx. destruct (prod s) as [i| | | |] eqn:Hp; try done.
    destruct (i <? total) eqn:Hlt; [|done]. injection Hm as <-.
    destruct (produce_ok sp s Hi) as (s' & E & Hi'); [by rewrite Hp|]. exists s'. split; [done|]. split; [done|].
    unfold produce in E. rewrite Hp, Hlt in E. cbn [al_make spool_allocator] in E. rewrite Hch in E. cbn in E. injection E as <-.
    unfold spsc_made. rewrite Hp. cbn. split; [lia|done].
  - intros l s s' Hi E Hm. split; [by eapply spsc_step_inv|]. destruct l as [sp|sp].
    + destruct (produce_keeps sp s s' Hi E (Hm eq_refl)) as [-> Hk]. split; [done|]. split; [done|]. by destruct (prod s).
    + destruct (consume_keeps sp s s' Hi E) as [Hp Hk]. unfold spsc_made. rewrite Hp. split; [done|]. split; [done|].
      by destruct (cons s).
Qed.

Context (o : PoolWeak.order) (base csize : Z) (Hbase : 0 < base) (Hcsize : 0 < csize).

(** From a state with no thread inside the pool the run can be completed, with
    one call after the other. *)
Lemma spsc_finishes w s :
  2 ≤ Size → cinv base csize total inv spsc_made w s → at_rest w →
  ∃ w' s', rtc (costep o base csize) (w, s) (w', s') ∧ at_rest w' ∧ joined s'.
Proof using All.
  intros HS. assert (1 ≤ total ≤ END) as Hc1 by (unfold END; lia).
  remember (Z.to_nat (cons_left s + prod_left s)) as n eqn:En. revert w s En.
  induction (lt_wf n) as [n _ IH]. intros w s -> Hv Hrest. pose proof (cv_good _ _ _ _ _ _ _ Hv) as Hi.
  assert (joined s ∨ ∃ w1 s1, rtc (costep o base csize) (w, s) (w1, s1) ∧ at_rest w1 ∧
            cons_left s1 + prod_left s1 < cons_left s + prod_left s) as [Hj|(w1 & s1 & Hr & Hrest1 & Hlt)];
    [|by exists w, s; split; [apply rtc_refl|]|].
  { destruct (cl_makes s) as [v|] eqn:Emk.
    - right. destruct (make_alone o base csize total inv spsc_made Hbase Hcsize Hc1 w s v Hv Hrest Emk) as (w1 & s1 & sp & Hr & Es & Hr1).
      exists w1, s1. split; [done|]. split; [done|]. cbn in Emk. destruct (prod s) as [i| | | |] eqn:Hp; try done.
      destruct (produce_progress sp s Hi) as (s2 & E2 & ? & ?); [by rewrite Hp|by rewrite Hp|].
      cbn in Es, E2. rewrite Es in E2. injection E2 as <-. lia.
    - destruct (progress s HS Hi) as [Hj|(l & s1 & E & Hlt)]; [by left|right].
      destruct (statement_alone o base csize total inv spsc_made Hbase Hcsize Hc1 w s l s1 Hv Hrest (λ _, Emk) E) as (w1 & Hr & Hr1).
      by exists w1, s1. }
  destruct (csteps_inv o base csize total inv spsc_made Hbase Hcsize Hc1 _ _ _ _ Hv Hr) as [Hv1 _].
  pose proof (left_nonneg s Hi). pose proof (left_nonneg s1 (cv_good _ _ _ _ _ _ _ Hv1)).
  destruct (IH (Z.to_nat (cons_left s1 + prod_left s1)) ltac:(lia) w1 s1 eq_refl Hv1 Hrest1) as (w' & s' & Hr' & ? & ?).
  exists w', s'. split; [by etrans|done].
Qed.

End spsc.

(** C18: The throughput benchmark.  The producer and the consumer interleave at
    every access of [make] and [free] to the pool, whose loads may be stale; a
    call on the conduit is one step.  The order of a failed exchange is the
    acquire of slab_allocator.hpp, or the relaxed of core.hpp as long as no
    exchange of [make] loses against the consumer (inside the tag window).  For
    any number of events and any conduit that holds at least one pointer: no cell
    is accessed without a happens-before order, every cell is in one place and
    holds the number the consumer reads there; a thread inside the pool, at the
    [make] or at a statement can go on, no [make] yields null and no statement is
    undefined (the pointer is not used after its push); the consumer never
    reports a FIFO violation; whenever no thread is inside the pool the run can
    be completed; and when both threads are joined all events were consumed and
    the free list has every cell. *)
Theorem spsc_bench_complete o Size total init base csize p ring w s :
  1 ≤ total < 2 ^ 31 → 0 < base → 0 < csize → base + total * csize ≤ 2 ^ 64 → pool_ctor base csize total = Some p →
  2 ≤ Size < 2 ^ 64 → Z.of_nat (length ring) = Size →
  rtc (costep (Client0 := spsc_client total init) o base csize) (fresh_memory p, start (Size := Size) total base csize ring) (w, s) →
  pool_sound (Client0 := spsc_client total init) base csize total w s ∧
  never_stuck (Client0 := spsc_client total init) o base csize w s ∧
  error s = false ∧
  (∀ sp, prod s ≠ PReturned → is_Some (produce total init sp s)) ∧
  (∀ sp, cons s ≠ CReturned → is_Some (consume total sp s)) ∧
  (at_rest w → ∃ w' s', rtc (costep (Client0 := spsc_client total init) o base csize) (w, s) (w', s') ∧ at_rest w' ∧ joined s') ∧
  (joined s → at_rest w → consumed s = total ∧ items (c_ s) = [] ∧ all_free total w).
Proof.
  intros Ht Hb Hs Hl E HS Hr Hrun. assert (1 ≤ total ≤ END) as Hc1 by (unfold END; lia).
  pose proof (spsc_laws (Size := Size) total init Ht) as Hlaws.
  destruct (client_run (Client0 := spsc_client total init) o base csize total (inv total) (spsc_made total) Hb Hs Hc1 p (start (Size := Size) total base csize ring) w s)
    as [Hv _]; try done; [apply spsc_start_inv; done || lia|].
  pose proof (cv_good _ _ _ _ _ _ _ Hv) as Hi. split; [by eapply cinv_sound|].
  split; [exact (cinv_next (Client0 := spsc_client total init) o base csize total _ _ Hb Hs Hc1 w s Hv)|]. split; [apply Hi|]. split.
  { intros sp Hp. destruct (produce_ok total init Ht sp s Hi Hp) as (s' & -> & _). by eexists. }
  split; [intros sp Hc; destruct (consume_ok total Ht sp s Hi Hc) as (s' & -> & _); by eexists|].
  split; [intros Hrest; apply (spsc_finishes total init Ht o base csize Hb Hs w s); [lia|done..]|].
  intros Hj Hrest. destruct (joined_result total Ht s Hi Hj) as (Hcon & Hit & Hlv & _).
  split; [done|]. split; [done|]. exact (client_all_free (Client0 := spsc_client total init) o base csize total _ _ Hb Hs Hc1 w s Hv Hrest Hlv).
Qed.

(** Three events through a conduit of one slot: while the consumer frees the
    first, the producer makes the second, so that the exchange of [free] is lost
    and repeated. *)
Definition make_accesses (j r : nat) : list (clabel Z label) :=
  [CMake j; CAccess (PoolWeak.WRead 0 r 0); CAccess (PoolWeak.WCas 0 false j); CReturn].

Definition w_labels : list (clabel Z label) :=
  make_accesses 0 0 ++ [CStep (Produce []); CStep (Produce []); CStep (Produce [])] ++
  [CStep (Consume []); CStep (Consume []); CStep (Consume []); CStep (Consume []);
   CAccess (PoolWeak.WLoad 1 1); CAccess (PoolWeak.WWrite 1)] ++
  make_accesses 1 0 ++ [CAccess (PoolWeak.WCas 1 false 2); CAccess (PoolWeak.WWrite 1); CAccess (PoolWeak.WCas 1 false 2)].

Definition w_run (p : pool Z) :=
  crun (Client0 := spsc_client 3 0) PoolWeak.pool_failure 4096 64 w_labels (fresh_memory p, start (Size := 2) 3 4096 64 [0; 0]).

Lemma w_run_ends :
  (p ← pool_ctor 4096 64 3; '(w, s) ← w_run p; Some (calls_open w, consumed s, prod s)) = Some (0%nat, 1, PMade 1 4160).
Proof. vm_compute. reflexivity. Qed.

Lemma spsc_bench_complete_witness :
  ∃ p w s, pool_ctor 4096 64 3 = Some p ∧ w_run p = Some (w, s) ∧ error s = false ∧ consumed s = 1 ∧
    ∃ w' s', rtc (costep (Client0 := spsc_client 3 0) PoolWeak.pool_failure 4096 64) (w, s) (w', s') ∧ at_rest w' ∧ joined s'.
Proof.
  pose proof w_run_ends as He.
  destruct (pool_ctor_fresh (T := Z) 4096 64 3) as (p & E & _); [unfold END; lia..|]. rewrite E in He. cbn [mbind option_bind] in He.
  destruct (w_run p) as [[w s]|] eqn:Ew; [|discriminate He]. cbn [mbind option_bind] in He. injection He as Hp Hc _.
  destruct (spsc_bench_complete PoolWeak.pool_failure 2 3 0 4096 64 p [0; 0] w s) as (_ & _ & Herr & _ & _ & Hfin & _);
    [lia|lia|lia|lia|exact E|lia|done|by apply (crun_steps _ _ _ w_labels)|].
  exists p, w, s. split; [done|]. split; [done|]. split; [done|]. split; [done|]. exact (Hfin (no_calls_open w Hp)).
Defined.

End SpscBench.

(** ** Two counters *)

Module FalseSharing.

(** The slots [s[0].v] and [s[1].v], and how often each thread has been through
    its loop. *)
Record state := State { v0 : Z; v1 : Z; i0 : Z; i1 : Z }.

Section sharing.
Context (rounds : Z).        (* 5'000'000 *)

(** [t1] and [t2]: one [fetch_add(1, relaxed)] and [++i]. *)
Inductive step : state → state → Prop :=
  | Step0 s : i0 s < rounds → step s (State (u64 (v0 s + 1)) (v1 s) (i0 s + 1) (i1 s))
  | Step1 s : i1 s < rounds → step s (State (v0 s) (u64 (v1 s + 1)) (i0 s) (i1 s + 1)).

(** One turn of the benchmark starts the threads on the counters left by the
    turn before, and joins them. *)
Inductive turn : Z * Z → Z * Z → Prop :=
  | Turn a b s : rtc step (State a b 0 0) s → i0 s = rounds → i1 s = rounds → turn (a, b) (v0 s, v1 s).

Context (Hr : 0 ≤ rounds).

Lemma step_counts a b s :
  in_word 64 a → in_word 64 b → rtc step (State a b 0 0) s →
  v0 s = u64 (a + i0 s) ∧ v1 s = u64 (b + i1 s) ∧ 0 ≤ i0 s ≤ rounds ∧ 0 ≤ i1 s ≤ rounds.
Proof using Hr.
  intros Ha Hb. apply (rtc_invariant step (λ s, v0 s = u64 (a + i0 s) ∧ v1 s = u64 (b + i1 s) ∧
    0 ≤ i0 s ≤ rounds ∧ 0 ≤ i1 s ≤ rounds)).
  - intros x y (E0 & E1 & R0 & R1) Hs. destruct Hs as [x Hlt|x Hlt]; cbn; split_and!; try done; try lia.
    + rewrite E0, wrap_add_wrap_l by lia. f_equal. lia.
    + rewrite E1, wrap_add_wrap_l by lia. f_equal. lia.
  - cbn. rewrite !Z.add_0_r, !wrap_small by done. lia.
Qed.

(** However the increments interleave, a turn adds the number of rounds to
    both counters; and a turn can always be completed. *)
Lemma sharing_turn a b c :
  in_word 64 a → in_word 64 b → turn (a, b) c → c = (u64 (a + rounds), u64 (b + rounds)).
Proof using Hr.
  intros Ha Hb Ht. inversion Ht as [? ? s Hs H0 H1 Eab]; subst.
  destruct (step_counts a b s Ha Hb Hs) as (-> & -> & _). by rewrite H0, H1.
Qed.

Lemma sharing_completes s :
  i0 s ≤ rounds → i1 s ≤ rounds → ∃ s', rtc step s s' ∧ i0 s' = rounds ∧ i1 s' = rounds.
Proof using Hr.
  remember (Z.to_nat ((rounds - i0 s) + (rounds - i1 s))) as n eqn:En. revert s En.
  induction n as [|n IH]; intros s En H0 H1; [exists s; split; [apply rtc_refl|lia]|].
  destruct (Z.lt_ge_cases (i0 s) rounds) as [Hl|Hge].
  - destruct (IH (State (u64 (v0 s + 1)) (v1 s) (i0 s + 1) (i1 s))) as (s' & Hs & ?); cbn; [lia..|].
    exists s'. split; [|done]. eapply rtc_l; [by apply Step0|done].
  - destruct (IH (State (v0 s) (u64 (v1 s + 1)) (i0 s) (i1 s + 1))) as (s' & Hs & ?); cbn; [lia..|].
    exists s'. split; [|done]. eapply rtc_l; [apply Step1; lia|done].
Qed.

End sharing.
End FalseSharing.
